(* ===== verification/_CoqProject ===== *)
-Q . S2P
Prelude.v
Types.v
PriceLevel.v
OrderBook.v
BookProps.v
Engine.v
Market.v
EngineRefine.v
LevelRule.v
EngineEvents.v
Session.v
SessionModify.v
Trading.v
Guarantees.v
OrderRule.v
Ranges.v
Exchange.v
ExchangeProps.v
Volumes.v
Csv.v
CsvProps.v
Scenarios.v
Ring.v
RingThreads.v
RingMemory.v
RingClose.v
Serializer.v
Gateway.v
GatewayProps.v
Fairness.v
Lifecycle.v
LifecycleProps.v
EndToEnd.v
Progress.v
Shutdown.v
Double.v
Metrics.v
Generator.v
Integration.v
Snapshot.v
Restore.v
Commands.v
CommandsProps.v
Logger.v
LoggerLife.v
LoggerEnds.v
UnitTests.v
SystemTests.v
Findings.v
