(* ===== verification/Prelude.v ===== *)
(** * lob-engine: a limit order book and exchange service, verified

    The repository is a C++20 limit order book with a matching engine, and an
    exchange service around it. This library translates its classes into
    executable definitions and proves what each of them promises. Paths below
    are relative to the repository.

    ** The program and its model

    The data flows in one direction: events (from a CSV file, the synthetic
    generator or, as JSON, from clients of the service) go to a
    [MatchingEngine]; the engine changes an [OrderBook] of [PriceLevel]s and
    returns trades, reports and rejections; the service turns these into
    market data that other threads publish and log through ring buffers.

    - [Types]: src/core/enums.hpp, order.hpp, trade.hpp, event.hpp and
      [MatchResult] of src/engine/matching_engine.hpp.
    - [PriceLevel]: src/book/price_level.hpp and .cpp. The FIFO queue of a
      price with lazy deletion; [live] is the queue an observer sees.
    - [OrderBook]: src/book/order_book.hpp and .cpp. Two ordered maps of levels
      and the id index. [abs_book] forgets deletion marks and volumes and gives
      an [sbook], a book of plain queues; every operation refines its
      counterpart there. [BookProps] holds the contract in terms of orders.
    - [Engine]: src/engine/matching_engine.hpp and .cpp, one definition per
      member function, the recursion from triggered stops into
      [process_new_order] included.
    - [Market]: the specification, an abstract price-time priority market. Its
      state has a book of queues, the last price, the pending stops and a stack
      of work (active aggressors, stops still to be examined); [step] is one
      fill, rest, rejection, or examination of a stop. [measure] bounds the
      number of steps. [EngineRefine] is the simulation of the engine's code by
      [steps]; [EngineEvents] lifts it to the handlers of the four events and
      to [submit]; [Session] to sequences of events, [SessionModify] to
      sequences with modify events. [Trading] proves the safety properties of
      [steps], [Guarantees] transfers them to the engine, [Ranges] the ranges
      of the machine types. The simulation carries any invariant of the
      engine's own book along that its local steps keep (the class
      [BookRule]); [Volumes] uses it for the volumes that [abs_book] forgets.
      [LevelRule] is the rule for properties of single price levels,
      [OrderRule] the rule for properties of single resting orders.
    - [Exchange], [ExchangeProps]: src/events/*.hpp and
      src/gateway/exchange_manager.hpp and .cpp: 25 engines behind a symbol
      index, translation of results into market data, snapshots.
    - [Csv], [CsvProps], [Scenarios]: src/feed/csv_replay.hpp and .cpp and the
      replay and comparison of tools/replay.cpp; the event files of the
      repository are replayed by computation.
    - [Ring]: src/core/spsc_queue.hpp and the hand-written rings of the same
      shape in the gateway and the logger. The class [BoundedQueue] with its
      laws is what clients rely on, the ring is its instance. [RingThreads]
      splits push and pop into their memory accesses and interleaves them;
      [RingMemory] runs the accesses, with the memory orders the source gives
      them, in the release/acquire fragment of the C++ memory model, and
      [RingClose] adds the flag that ends the consumer.
    - [Serializer]: src/serialization/serializer.hpp and .cpp over the JSON
      library as a parameter ([JsonLib] with [JsonLaws]).
    - [Gateway], [GatewayProps]: src/gateway/gateway.*, event_dispatcher.* and
      replay_logger.*: the four threads of the service as a step relation
      [sstep], over any bounded queues.
    - [Lifecycle]: start, stop and destructors of Gateway, EventDispatcher and
      ReplayLogger, the loops of the four threads with their [running_] flags,
      the snapshot timer, and [main] of src/exchange_main.cpp with its signal
      handler: a program counter per thread, one executable step function per
      thread; data steps are those of [Gateway]. [LifecycleProps] proves the
      control invariant (the position of [main] determines the flags and where
      the threads may be) and what holds when [main] returns, [Progress] that
      no step is undefined behaviour, [Shutdown] that [main] returns, with the
      proof rule of [Fairness] for fair executions. [EndToEnd] relates the
      frames a run receives to what it sends and writes.
    - [Metrics]: src/metrics/histogram.hpp and metrics.hpp, with the
      floating-point arithmetic of [Double], which is compared with the
      Standard Library's model of IEEE 754.
    - [Generator]: src/feed/synthetic_gen.hpp and .cpp, src/core/config.hpp,
      the scenarios and the loop of benchmarks/benchmark_runner.cpp, over
      random numbers as a parameter.
    - [Snapshot], [Restore]: src/snapshot/snapshot.hpp and .cpp and the
      snapshot option of tools/replay.cpp, over the memory image of an order
      as a parameter ([OrderLayout]).
    - [Commands], [CommandsProps]: the options of the three programs, the
      constructors of the service with their assertions, and the composition
      of the replay tool from the bytes of its files to its exit code.
    - [Logger], [LoggerLife], [LoggerEnds]: src/logging/logger.hpp and .cpp;
      the second file adds start, stop and the destructor next to the writer
      thread, where each thread sees the stores of the other late and the
      relaxed store to [running_] in any order with the others; the third
      shows that all calls return.
    - [UnitTests], [SystemTests], [Integration]: tests/unit/*.cpp. The unit
      tests are evaluated on the model (the generator's are proved for every
      random source); the checks of the integration test are proved for every
      run.
    - [Findings]: runs in which the code departs from its documented purpose.

    ** What the theorems show

    - Refinement: processing a new order is a run of the abstract market, the
      only one there is ([new_order_refines_market],
      [new_order_unique_outcome]); a price level is a FIFO queue
      ([level_refines_fifo]), a ring a bounded FIFO queue
      ([spsc_refines_bounded_fifo]), the service a sequential exchange
      ([service_is_sequential]).
    - Safety and termination: every admissible event returns within a computed
      fuel without undefined behaviour ([submit_safe]), hence every session
      with fresh ids does ([session_safe], [exchange_session_safe] with prices
      in [-2^62, 2^62), [modify_session_safe] if modified orders are left
      alone, [service_safe], [benchmark_safe] unless a normal draw is too
      large), and on such messages no thread of the program has an undefined
      step ([program_never_crashes]). Undefined behaviour is a null
      order pointer, the front of an empty level, signed overflow, a failing
      assert.
    - Consistency: after every session without icebergs and price changes, in
      which a modified order is left alone, the checks of the integration test
      hold ([session_checks]); that test passes for every random source and
      length, unless a normal draw is so large that the generator overflows
      ([integration_test_passes]). In such sessions, price changes allowed and
      less than 2^64 offered in all, the published depth never understates what
      rests ([depth_never_understates]); with icebergs it may
      ([iceberg_cancel_understates]).
    - Trading rules: price-time priority, trades at the passive limit within
      the aggressor's limit, conservation of quantity, no crossed book, stops
      ([fill_price_time_priority], [new_order_fair_trades],
      [new_order_conserves_quantity], [submit_keeps_uncrossed],
      [new_order_keeps_quiet], [new_stop_spec]); an iceberg shows at most its
      peak ([submit_shows_peaks]).
    - Functional behaviour of the handlers on all branches
      ([process_cancel_spec], [process_modify_spec], [process_replace_spec]),
      of the book ([best_prices_correct], [mid_price_and_spread],
      [insert_cancel_roundtrip]) and of the exchange ([process_isolated],
      [exchange_is_product], [translate_result_events], [trade_events_sides],
      [snapshot_correct]).
    - Delivery: no loss but the counted drops, no reordering, no duplication
      ([service_delivery], [stop_delivers]), and from end to end: what the
      service sends is the serialization of the sequential exchange on the
      orders among the received frames ([end_to_end]); after a signal every
      fair execution of the service ends ([signal_terminates]).
      The calls to the logger return ([logger_calls_return]); its file has the
      accepted records in order, but the last ones may stay in the ring, when
      the relaxed load of the flag runs ahead of the tail
      ([unseen_record_left]). The rounding loop of its constructor ends for
      sizes up to 2^31 only ([round_up_correct]).
    - Memory orders: no data race on a ring slot and no loss in any execution
      that the C++ memory model allows, also when the consumer is stopped
      ([ring_memory_safe], [ring_close_safe]); the relaxed flag of the logger is
      the exception ([relaxed_flag_loses]).
    - Programs: what the command lines mean ([exchange_args_spec],
      [exchange_main_starts], [bench_main_safe], [replay_main_continues]).
    - Types and bounds: no value leaves the range of its type
      ([submit_keeps_ranges]); below 9 ms percentiles of rank 1 and above are
      off by less than the width of a bucket ([percentile_nearest_rank]).
    - Round trips: CSV lines, JSON messages, snapshots, and the continuation of
      a session from a snapshot, modify events included ([replay_roundtrip],
      [deserialize_roundtrip], [snapshot_roundtrip], [restore_continues]), of
      books in which no resting order is also marked as cancelled at its level;
      others cannot be loaded again ([moved_order_not_loaded]). Errors of
      snapshot files are reported ([snapshot_load_errors]).

    ** Conventions

    Unsigned 64-bit numbers are [Z] with [u64] written at every wrap-around;
    signed overflow is a [Crash]. Code that may crash or need not be
    structurally recursive returns [res]: [Ok], [Crash w] or [NoFuel]. Fuel:
    [fuel_bound] computes what an event needs from [measure] (total quantity,
    pending stops and work); the theorems on events, sessions and drains state
    that every larger fuel gives the same [Ok] result. Reading loops take the
    length of their input plus one. An id is admissible when no live order has
    it and it is not marked cancelled at its level; sessions ([session_ok])
    use every id once. [K] in [book_wf K] and [engine_wf K] contains the ids
    that may still be marked. Clocks are arguments;
    in [Lifecycle] the steady clock shows less than 2^62 ns.

    Atomic accesses are interleaved as sequentially consistent steps, except
    in [RingMemory] and [RingClose], and in [LoggerLife] and [LoggerEnds], where
    a store arrives at the other thread by a later step. In [RingMemory] a
    [push] may also answer that the ring is full, and a [pop] that it is empty,
    because the thread has not yet seen the other's last store
    ([refused_while_empty]); the service of [Gateway] takes a queue operation as
    one step and leaves out this delay, which would show as a counted drop or as
    one more round of a polling loop. After the flag has been cleared the final
    drain sees everything, which [RingClose] proves for the acquire loads of
    publisher and replay writer.

    The states of [Gateway] and [Lifecycle] also have a history of the messages
    received, accepted and processed, which no step of the code reads.

    ** Not modelled

    Sockets (received frames, sent messages and the outcome of [zmq_bind]
    stand for them), the creation of the log directory, messages to the
    terminal, disk errors of the two log files, allocation failure. Snapshot files
    may fail to open or lack room ([disk]). [EngineConfig] is
    stored by the engine and never read. The floating point of the
    generator's random distributions is a parameter, like the distributions
    themselves; nothing is assumed of the size of a normal draw. Output to the
    terminal is modelled where it reports results (trades of the replay tool,
    the reports of benchmark and metrics), as the list of written operands; the
    formatting of a [double] is not. The file read by the replay tool is its
    contents. *)

From stdpp Require Export base tactics numbers list sorting gmap sets strings.
From Stdlib Require Export ZArith Lia.

#[global] Open Scope Z_scope.

(** ** Outcomes of code that may hit undefined behaviour

    [Ok a] is a normal return; [Crash w] is the undefined behaviour [w] of the
    C++ code (in a debug build, the failing assertion); [NoFuel] is the model
    running out of the recursion bound it was given. *)

Inductive fault :=
| NullDeref        (* a null pointer is dereferenced *)
| EmptyFront       (* front() or pop_front() on an empty deque *)
| SignedOverflow   (* signed 64-bit arithmetic overflows *)
| ConversionRange  (* a floating-point value outside the integer type it is converted to *)
| AssertFailed.    (* a failing assert, or undefined behaviour behind it *)

Inductive res (A : Type) :=
| Ok (a : A)
| Crash (w : fault)
| NoFuel.
Arguments Ok {A} a.
Arguments Crash {A} w.
Arguments NoFuel {A}.

#[global] Instance res_ret : MRet res := @Ok.
#[global] Instance res_bind : MBind res := fun A B f m =>
  match m with
  | Ok a => f a
  | Crash w => Crash w
  | NoFuel => NoFuel
  end.

(** ** Machine integers *)

Definition two64 : Z := 2 ^ 64.

(** [uint64_t] arithmetic wraps around. *)
Definition u64 (x : Z) : Z := x mod two64.
Definition is_u64 (x : Z) : Prop := 0 <= x < two64.

(** [int64_t] arithmetic that leaves the range is undefined behaviour. *)
Definition is_i64 (x : Z) : Prop := - 2 ^ 63 <= x < 2 ^ 63.
#[global] Instance is_u64_dec x : Decision (is_u64 x).
Proof. unfold is_u64. apply _. Defined.
#[global] Instance is_i64_dec x : Decision (is_i64 x).
Proof. unfold is_i64. apply _. Defined.
Definition i64 (x : Z) : res Z := if decide (is_i64 x) then Ok x else Crash SignedOverflow.

(** Conversion of a [uint64_t] to [int64_t]: two's complement. *)
Definition to_i64 (z : Z) : Z := if decide (z < 2 ^ 63) then z else z - two64.

(** ** Ordered iteration of a [std::map] with integer keys

    [map_sorted R m] lists the entries of [m] in the order of the comparator;
    [map_begin R m] is what [begin()] designates. *)
Definition key_rel {A} (R : Z -> Z -> Prop) (x y : Z * A) : Prop := R x.1 y.1.
#[global] Instance key_rel_dec {A} (R : Z -> Z -> Prop) `{!RelDecision R} :
  RelDecision (@key_rel A R).
Proof. unfold key_rel. intros x y. apply (decide_rel R). Defined.

Definition map_sorted {A} (R : Z -> Z -> Prop) `{!RelDecision R} (m : gmap Z A) : list (Z * A) :=
  merge_sort (key_rel R) (map_to_list m).
Definition map_begin {A} (R : Z -> Z -> Prop) `{!RelDecision R} (m : gmap Z A) : option (Z * A) :=
  head (map_sorted R m).

(** ** Sums *)

Definition zsum {A} (f : A -> Z) (l : list A) : Z := foldr (fun a s => f a + s) 0 l.
Definition msum {A} (f : A -> Z) (m : gmap Z A) : Z := zsum (fun kv => f kv.2) (map_to_list m).

(** ** Tactics *)

Ltac split_ands := repeat match goal with |- _ /\ _ => split end.

(** Solve a goal on 64-bit ranges by unfolding them. *)
Ltac u64_lia := unfold is_u64, is_i64, two64, u64 in *; lia.

Create HintDb lob discriminated.

(** ** Generic lemmas *)

Lemma bind_ok {A B} (a : A) (f : A -> res B) : (Ok a ≫= f) = f a.
Proof. done. Qed.

Lemma bind_ok_inv {A B} (m : res A) (f : A -> res B) b :
  m ≫= f = Ok b -> exists a, m = Ok a /\ f a = Ok b.
Proof. destruct m; simpl; naive_solver. Qed.

Lemma u64_range x : is_u64 (u64 x).
Proof. unfold is_u64, u64, two64. apply Z.mod_pos_bound. lia. Qed.

Lemma u64_small x : is_u64 x -> u64 x = x.
Proof. unfold is_u64, u64. intros. by apply Z.mod_small. Qed.

Lemma filter_all {A} (P : A -> Prop) `{!forall x, Decision (P x)} (l : list A) :
  (forall x, x ∈ l -> P x) -> filter P l = l.
Proof.
  induction l as [|x l IH]; intros HP; [done|].
  rewrite filter_cons_True by (apply HP; set_solver). f_equal. apply IH. set_solver.
Qed.

Lemma filter_none {A} (P : A -> Prop) `{!forall x, Decision (P x)} (l : list A) :
  (forall x, x ∈ l -> ~ P x) -> filter P l = [].
Proof.
  induction l as [|x l IH]; intros HP; [done|].
  rewrite filter_cons_False by (apply HP; set_solver). apply IH. set_solver.
Qed.

Lemma filter_ext_elem {A} (P Q : A -> Prop) `{!forall x, Decision (P x), !forall x, Decision (Q x)}
    (l : list A) :
  (forall x, x ∈ l -> P x <-> Q x) -> filter P l = filter Q l.
Proof.
  induction l as [|x l IH]; intros HPQ; [done|].
  rewrite !filter_cons. rewrite IH by set_solver.
  specialize (HPQ x ltac:(set_solver)). by repeat case_decide; try tauto.
Qed.

Section sums.
Context {A : Type}.
Implicit Types (f g : A -> Z) (l : list A).

Lemma zsum_app f l1 l2 : zsum f (l1 ++ l2) = zsum f l1 + zsum f l2.
Proof. induction l1; simpl; lia. Qed.

Lemma zsum_perm f l1 l2 : l1 ≡ₚ l2 -> zsum f l1 = zsum f l2.
Proof. induction 1; simpl; lia. Qed.

Lemma zsum_nonneg f l : (forall a, a ∈ l -> 0 <= f a) -> 0 <= zsum f l.
Proof.
  induction l as [|a l IH]; intros Hf; simpl; [lia|].
  pose proof (Hf a ltac:(set_solver)). enough (0 <= zsum f l) by lia. apply IH. set_solver.
Qed.

Lemma zsum_ext f g l : (forall a, a ∈ l -> f a = g a) -> zsum f l = zsum g l.
Proof.
  induction l as [|a l IH]; intros Hf; simpl; [done|].
  rewrite (Hf a) by set_solver. rewrite IH; [done|]. set_solver.
Qed.
End sums.

Section msums.
Context {A : Type}.
Implicit Types (f g : A -> Z) (m : gmap Z A).

Lemma msum_empty f : msum f ∅ = 0.
Proof. unfold msum. by rewrite map_to_list_empty. Qed.

Lemma msum_insert f m k a : m !! k = None -> msum f (<[k:=a]> m) = f a + msum f m.
Proof. intros. unfold msum. by rewrite (zsum_perm _ _ _ (map_to_list_insert m k a H)). Qed.

Lemma msum_delete f m k a : m !! k = Some a -> msum f (delete k m) = msum f m - f a.
Proof.
  intros Hk. rewrite <- (insert_delete_id m k a Hk) at 2.
  rewrite msum_insert by apply lookup_delete_eq. lia.
Qed.

Lemma msum_update f m k a b : m !! k = Some a -> msum f (<[k:=b]> m) = msum f m - f a + f b.
Proof.
  intros Hk. rewrite <- insert_delete_eq.
  rewrite msum_insert by apply lookup_delete_eq. rewrite (msum_delete f m k a) by done. lia.
Qed.

Lemma msum_nonneg f m : (forall k a, m !! k = Some a -> 0 <= f a) -> 0 <= msum f m.
Proof.
  intros Hf. apply zsum_nonneg. intros [k a] Hin%elem_of_map_to_list. by apply (Hf k).
Qed.
End msums.

Section sorted_map.
Context {A : Type} (R : Z -> Z -> Prop) `{!RelDecision R}.
Context `{!Total R, !Transitive R, !AntiSymm (=) R}.
Implicit Types (m : gmap Z A).

Lemma map_sorted_perm m : map_sorted R m ≡ₚ map_to_list m.
Proof. apply merge_sort_Permutation. Qed.

Lemma map_sorted_elem m k a : (k, a) ∈ map_sorted R m <-> m !! k = Some a.
Proof. by rewrite map_sorted_perm, elem_of_map_to_list. Qed.

#[local] Instance key_rel_total : Total (@key_rel A R).
Proof. intros x y. apply (total R). Qed.
#[local] Instance key_rel_trans : Transitive (@key_rel A R).
Proof. intros x y z. unfold key_rel. apply transitivity. Qed.

Lemma map_sorted_sorted m : StronglySorted (key_rel R) (map_sorted R m).
Proof. apply (StronglySorted_merge_sort (key_rel R)). Qed.

(** [begin()] designates an entry that no other key precedes. *)
Lemma map_begin_Some m k a :
  map_begin R m = Some (k, a) <-> m !! k = Some a /\ forall k' a', m !! k' = Some a' -> R k k'.
Proof.
  unfold map_begin. pose proof (map_sorted_sorted m) as Hs.
  destruct (map_sorted R m) as [|[k0 a0] l] eqn:Hm; simpl.
  - split; [done|]. intros [Hk _]. apply map_sorted_elem in Hk. rewrite Hm in Hk. set_solver.
  - assert (m !! k0 = Some a0) as Hk0.
    { apply map_sorted_elem. rewrite Hm. set_solver. }
    assert (forall k' a', m !! k' = Some a' -> R k0 k') as Hmin.
    { intros k' a' Hin. apply map_sorted_elem in Hin. rewrite Hm in Hin.
      inversion Hs as [|? ? _ Hall]; subst. apply elem_of_cons in Hin as [Heq|Hin].
      - inversion Heq; subst. destruct (total R k0 k0); done.
      - rewrite Forall_forall in Hall. by apply (Hall (k', a')). }
    split; [by intros [= -> ->]|]. intros [Hk Hmin'].
    assert (k0 = k) as -> by (apply (anti_symm R); eauto). naive_solver.
Qed.

Lemma map_begin_None m : map_begin R m = None <-> m = ∅.
Proof.
  unfold map_begin. split.
  - intros Hh. destruct (map_sorted R m) as [|x l] eqn:Hm; [|done].
    apply map_to_list_empty_iff. apply Permutation_nil_r. by rewrite <- map_sorted_perm, Hm.
  - intros ->. unfold map_sorted. by rewrite map_to_list_empty.
Qed.

End sorted_map.

Lemma map_begin_fmap {A B} (R : Z -> Z -> Prop) `{!RelDecision R}
    `{!Total R, !Transitive R, !AntiSymm (=) R} (f : A -> B) (m : gmap Z A) :
  map_begin R (f <$> m) = prod_map id f <$> map_begin R m.
Proof.
  destruct (map_begin R m) as [[k a]|] eqn:Hb; simpl.
  - apply map_begin_Some in Hb as [Hk Hmin]; try done. apply map_begin_Some; try done.
    split; [by rewrite lookup_fmap, Hk|].
    intros k' b [a' [<- Ha']]%lookup_fmap_Some. eauto.
  - apply map_begin_None in Hb as ->. by rewrite fmap_empty.
Qed.
