(* ===== verification/Types.v ===== *)
(** * Core data types

    Enumerations, orders, events and results of [src/src/core/]. Identifiers,
    quantities and timestamps are [uint64_t] and prices [int64_t]; they are
    integers whose range is the predicate [order_ranges]. *)

From S2P Require Import Prelude.

Abbreviation OrderId := Z (only parsing).
Abbreviation Price := Z (only parsing).
Abbreviation Quantity := Z (only parsing).
Abbreviation Timestamp := Z (only parsing).

(** ** core/enums.hpp *)

Inductive Side := Buy | Sell.

Inductive OrderType := Limit | Market | Stop | StopLimit | Iceberg.

Inductive OrderStatus :=
| New | Resting | PartialFill | Filled | Cancelled | Rejected | Triggered.

Inductive RejectReason :=
| NoReason | InvalidPrice | InvalidQuantity | DuplicateOrderId | OrderNotFound
| OrderNotCancellable | InvalidModify | StopPriceInconsistent | PriceBandViolation
| MaxSizeViolation | MarketExhausted.

Inductive AggressorSide := ABuy | ASell | ANone.

#[global] Instance side_eq_dec : EqDecision Side.
Proof. solve_decision. Defined.
#[global] Instance order_type_eq_dec : EqDecision OrderType.
Proof. solve_decision. Defined.
#[global] Instance order_status_eq_dec : EqDecision OrderStatus.
Proof. solve_decision. Defined.
#[global] Instance reject_reason_eq_dec : EqDecision RejectReason.
Proof. solve_decision. Defined.
#[global] Instance aggressor_side_eq_dec : EqDecision AggressorSide.
Proof. solve_decision. Defined.

(** ** core/order.hpp *)

Record Order := mkOrder {
  o_id : OrderId;
  o_side : Side;
  o_type : OrderType;
  o_price : Price;
  o_stop_price : Price;
  o_quantity : Quantity;
  o_orig_qty : Quantity;
  o_peak_qty : Quantity;
  o_reserve_qty : Quantity;
  o_timestamp : Timestamp;
  o_status : OrderStatus;
}.

#[global] Instance order_eq_dec : EqDecision Order.
Proof. solve_decision. Defined.

(** The member initialisers: [Order o;] *)
Definition default_order : Order := mkOrder 0 Buy Limit 0 0 0 0 0 0 0 New.

Definition set_type (x : OrderType) (o : Order) : Order :=
  mkOrder (o_id o) (o_side o) x (o_price o) (o_stop_price o) (o_quantity o) (o_orig_qty o)
    (o_peak_qty o) (o_reserve_qty o) (o_timestamp o) (o_status o).
Definition set_price (x : Price) (o : Order) : Order :=
  mkOrder (o_id o) (o_side o) (o_type o) x (o_stop_price o) (o_quantity o) (o_orig_qty o)
    (o_peak_qty o) (o_reserve_qty o) (o_timestamp o) (o_status o).
Definition set_quantity (x : Quantity) (o : Order) : Order :=
  mkOrder (o_id o) (o_side o) (o_type o) (o_price o) (o_stop_price o) x (o_orig_qty o)
    (o_peak_qty o) (o_reserve_qty o) (o_timestamp o) (o_status o).
Definition set_reserve_qty (x : Quantity) (o : Order) : Order :=
  mkOrder (o_id o) (o_side o) (o_type o) (o_price o) (o_stop_price o) (o_quantity o) (o_orig_qty o)
    (o_peak_qty o) x (o_timestamp o) (o_status o).
Definition set_timestamp (x : Timestamp) (o : Order) : Order :=
  mkOrder (o_id o) (o_side o) (o_type o) (o_price o) (o_stop_price o) (o_quantity o) (o_orig_qty o)
    (o_peak_qty o) (o_reserve_qty o) x (o_status o).
Definition set_status (x : OrderStatus) (o : Order) : Order :=
  mkOrder (o_id o) (o_side o) (o_type o) (o_price o) (o_stop_price o) (o_quantity o) (o_orig_qty o)
    (o_peak_qty o) (o_reserve_qty o) (o_timestamp o) x.

Definition is_buy (o : Order) : bool := bool_decide (o_side o = Buy).
Definition is_sell (o : Order) : bool := bool_decide (o_side o = Sell).
Definition is_resting (o : Order) : bool :=
  bool_decide (o_status o = Resting) || bool_decide (o_status o = PartialFill).
Definition is_iceberg (o : Order) : bool := bool_decide (0 < o_peak_qty o).
Definition visible_qty (o : Order) : Quantity :=
  if is_iceberg o then o_peak_qty o else o_quantity o.

(** The field types of [Order]. *)
Definition order_ranges (o : Order) : Prop :=
  is_u64 (o_id o) /\ is_i64 (o_price o) /\ is_i64 (o_stop_price o) /\
  is_u64 (o_quantity o) /\ is_u64 (o_orig_qty o) /\ is_u64 (o_peak_qty o) /\
  is_u64 (o_reserve_qty o) /\ is_u64 (o_timestamp o).

(** ** core/trade.hpp *)

Record Trade := mkTrade {
  t_aggressor_id : OrderId;
  t_passive_id : OrderId;
  t_price : Price;
  t_quantity : Quantity;
  t_timestamp : Timestamp;
  t_aggressor_side : AggressorSide;
}.

Record ExecutionReport := mkReport {
  x_order_id : OrderId;
  x_status : OrderStatus;
  x_cumulative_qty : Quantity;
  x_remaining_qty : Quantity;
  x_avg_fill_price : Price;
  x_timestamp : Timestamp;
}.

Record Rejection := mkRejection {
  r_order_id : OrderId;
  r_reason : RejectReason;
  r_timestamp : Timestamp;
}.

(** ** core/event.hpp *)

Record ModifyOrderEvent := mkModify {
  m_order_id : OrderId;
  m_new_price : Price;       (* 0 = no change *)
  m_new_quantity : Quantity; (* 0 = no change *)
  m_timestamp : Timestamp;
}.

(** [std::variant<NewOrderEvent, CancelOrderEvent, ModifyOrderEvent, ReplaceOrderEvent>] *)
Inductive OrderEvent :=
| NewOrderEvent (order : Order)
| CancelOrderEvent (order_id : OrderId) (timestamp : Timestamp)
| ModifyOrder (m : ModifyOrderEvent)
| ReplaceOrderEvent (old_order_id : OrderId) (new_order : Order).

(** ** engine/matching_engine.hpp: [MatchResult] *)

Record MatchResult := mkResult {
  mr_trades : list Trade;
  mr_reports : list ExecutionReport;
  mr_rejections : list Rejection;
}.

Definition empty_result : MatchResult := mkResult [] [] [].
Definition push_trade (t : Trade) (r : MatchResult) : MatchResult :=
  mkResult (mr_trades r ++ [t]) (mr_reports r) (mr_rejections r).
Definition push_report (x : ExecutionReport) (r : MatchResult) : MatchResult :=
  mkResult (mr_trades r) (mr_reports r ++ [x]) (mr_rejections r).
Definition push_rejection (x : Rejection) (r : MatchResult) : MatchResult :=
  mkResult (mr_trades r) (mr_reports r) (mr_rejections r ++ [x]).
(** The three [insert(end, sub.begin, sub.end)] calls that splice a nested
    result into the caller's. *)
Definition append_result (r sub : MatchResult) : MatchResult :=
  mkResult (mr_trades r ++ mr_trades sub) (mr_reports r ++ mr_reports sub)
    (mr_rejections r ++ mr_rejections sub).

(** The side an order of side [s] trades against. *)
Definition opposite (s : Side) : Side := match s with Buy => Sell | Sell => Buy end.

(** [prio s p q]: on side [s] of the book the price [p] comes before or at the
    place of [q]: bids are ordered by [std::greater], asks by [std::less]. *)
Definition prio (s : Side) (p q : Price) : Prop :=
  match s with Buy => q <= p | Sell => p <= q end.
#[global] Instance prio_dec s : RelDecision (prio s).
Proof. intros p q. destruct s; simpl; apply _. Defined.
#[global] Instance prio_total s : Total (prio s).
Proof. intros p q. destruct s; simpl; lia. Qed.
#[global] Instance prio_trans s : Transitive (prio s).
Proof. intros p q r. destruct s; simpl; lia. Qed.
#[global] Instance prio_antisymm s : AntiSymm (=) (prio s).
Proof. intros p q. destruct s; simpl; lia. Qed.

(** ** Laws of results and sides *)

Lemma append_result_empty_l r : append_result empty_result r = r.
Proof. by destruct r. Qed.

Lemma append_result_empty_r r : append_result r empty_result = r.
Proof. destruct r. unfold append_result. simpl. by rewrite !app_nil_r. Qed.

Lemma append_result_assoc a b c :
  append_result a (append_result b c) = append_result (append_result a b) c.
Proof. unfold append_result. simpl. by rewrite !assoc by apply _. Qed.

Lemma append_push_trade a t b :
  append_result a (push_trade t b) = push_trade t (append_result a b).
Proof. unfold append_result, push_trade. simpl. by rewrite !assoc by apply _. Qed.

Lemma append_push_rejection a t b :
  append_result a (push_rejection t b) = push_rejection t (append_result a b).
Proof. unfold append_result, push_rejection. simpl. by rewrite !assoc by apply _. Qed.

Lemma opposite_involutive s : opposite (opposite s) = s.
Proof. by destruct s. Qed.

Lemma opposite_ne s : opposite s <> s.
Proof. by destruct s. Qed.

#[export] Hint Rewrite append_result_empty_l append_result_empty_r append_result_assoc
  append_push_trade append_push_rejection : results.
