(* ===== verification/PriceLevel.v ===== *)
(** * PriceLevel: FIFO queue with lazy deletion

    Model of [src/src/book/price_level.hpp] and [price_level.cpp]. A cancelled
    id stays in the deque and is recorded in a hash set; [drain_cancelled]
    removes it when it reaches the front. [live] is the abstract contents: the
    ids an observer that only uses [front] and [pop_front] sees. *)

From S2P Require Import Prelude Types.

Record PriceLevel := mkLevel {
  pl_price : Price;
  pl_total_volume : Quantity;
  pl_queue : list OrderId;
  pl_cancelled : gset OrderId;
}.

(** [explicit PriceLevel(Price price)] *)
Definition new_level (price : Price) : PriceLevel := mkLevel price 0 [] ∅.

(** The [while] loop of [drain_cancelled]. *)
Fixpoint drain_loop (queue : list OrderId) (cancelled : gset OrderId)
    : list OrderId * gset OrderId :=
  match queue with
  | [] => ([], cancelled)
  | x :: rest =>
      if decide (x ∈ cancelled) then drain_loop rest (cancelled ∖ {[x]}) else (queue, cancelled)
  end.

Definition drain_cancelled (l : PriceLevel) : PriceLevel :=
  let '(q, c) := drain_loop (pl_queue l) (pl_cancelled l) in
  mkLevel (pl_price l) (pl_total_volume l) q c.

Definition push_back (id : OrderId) (visible : Quantity) (l : PriceLevel) : PriceLevel :=
  mkLevel (pl_price l) (u64 (pl_total_volume l + visible)) (pl_queue l ++ [id]) (pl_cancelled l).

(** [(total_volume_ >= q) ? total_volume_ - q : 0] *)
Definition saturating_sub (v q : Quantity) : Quantity := if decide (q <= v) then v - q else 0.

Definition pop_front (filled_qty : Quantity) (l : PriceLevel) : res PriceLevel :=
  let l := drain_cancelled l in
  match pl_queue l with
  | [] => Crash EmptyFront
  | _ :: rest =>
      Ok (mkLevel (pl_price l) (saturating_sub (pl_total_volume l) filled_qty) rest
            (pl_cancelled l))
  end.

Definition reduce_front_volume (qty : Quantity) (l : PriceLevel) : PriceLevel :=
  mkLevel (pl_price l) (saturating_sub (pl_total_volume l) qty) (pl_queue l) (pl_cancelled l).

Definition remove (id : OrderId) (visible : Quantity) (l : PriceLevel) : PriceLevel :=
  mkLevel (pl_price l) (saturating_sub (pl_total_volume l) visible) (pl_queue l)
    ({[id]} ∪ pl_cancelled l).

(** [front] and [empty] are logically const but drain the level. *)
Definition front (l : PriceLevel) : res (OrderId * PriceLevel) :=
  let l := drain_cancelled l in
  match pl_queue l with
  | [] => Crash EmptyFront
  | x :: _ => Ok (x, l)
  end.

Definition empty (l : PriceLevel) : bool * PriceLevel :=
  let l := drain_cancelled l in (bool_decide (pl_queue l = []), l).

(** [queue_.size() - cancelled_.size()] on [std::size_t]. *)
Definition level_size (l : PriceLevel) : Z :=
  u64 (Z.of_nat (length (pl_queue l)) - Z.of_nat (size (pl_cancelled l))).

Definition order_ids (l : PriceLevel) : list OrderId :=
  filter (fun id => id ∉ pl_cancelled l) (pl_queue l).

(** ** Specification: the ids observable through the front *)

Fixpoint live_of (queue : list OrderId) (cancelled : gset OrderId) : list OrderId :=
  match queue with
  | [] => []
  | x :: rest =>
      if decide (x ∈ cancelled) then live_of rest (cancelled ∖ {[x]})
      else x :: live_of rest cancelled
  end.

Definition live (l : PriceLevel) : list OrderId := live_of (pl_queue l) (pl_cancelled l).

(** Every cancelled id still has its entry in the deque. *)
Definition level_wf (l : PriceLevel) : Prop :=
  forall id, id ∈ pl_cancelled l -> id ∈ pl_queue l.

(** No live id is marked cancelled: the level never received an id again
    before the entry of its cancellation was drained. *)
Definition level_clean (l : PriceLevel) : Prop :=
  forall id, id ∈ pl_cancelled l -> id ∉ live l.

(** The operations of a level as data, and what each lets the caller see. *)
Inductive level_op :=
| OpPush (id : OrderId) (visible : Quantity)
| OpRemove (id : OrderId) (visible : Quantity)
| OpPop (filled : Quantity)
| OpReduce (qty : Quantity)
| OpFront
| OpEmpty.

Inductive level_obs := ObsUnit | ObsId (id : OrderId) | ObsBool (b : bool).

Definition level_step (op : level_op) (l : PriceLevel) : res (level_obs * PriceLevel) :=
  match op with
  | OpPush id v => Ok (ObsUnit, push_back id v l)
  | OpRemove id v => Ok (ObsUnit, remove id v l)
  | OpPop f => l' ← pop_front f l; Ok (ObsUnit, l')
  | OpReduce q => Ok (ObsUnit, reduce_front_volume q l)
  | OpFront => '(id, l') ← front l; Ok (ObsId id, l')
  | OpEmpty => let '(b, l') := empty l in Ok (ObsBool b, l')
  end.

Fixpoint level_run (ops : list level_op) (l : PriceLevel) : res (list level_obs * PriceLevel) :=
  match ops with
  | [] => Ok ([], l)
  | op :: ops =>
      '(o, l1) ← level_step op l;
      '(os, l2) ← level_run ops l1;
      Ok (o :: os, l2)
  end.

(** The reference: a plain list of ids with eager deletion. *)
Definition fifo_step (op : level_op) (q : list OrderId) : option (level_obs * list OrderId) :=
  match op with
  | OpPush id _ => Some (ObsUnit, q ++ [id])
  | OpRemove id _ => Some (ObsUnit, filter (fun x => x <> id) q)
  | OpPop _ => match q with [] => None | _ :: q' => Some (ObsUnit, q') end
  | OpReduce _ => Some (ObsUnit, q)
  | OpFront => match q with [] => None | x :: _ => Some (ObsId x, q) end
  | OpEmpty => Some (ObsBool (bool_decide (q = [])), q)
  end.

Fixpoint fifo_run (ops : list level_op) (q : list OrderId)
    : option (list level_obs * list OrderId) :=
  match ops with
  | [] => Some ([], q)
  | op :: ops =>
      '(o, q1) ← fifo_step op q;
      '(os, q2) ← fifo_run ops q1;
      Some (o :: os, q2)
  end.

(** The protocol of the callers: an id is pushed at most once in the life of
    the level ([seen] holds the ids pushed so far) and only queued ids are
    removed. *)
Fixpoint level_protocol (ops : list level_op) (seen : gset OrderId) (q : list OrderId) : Prop :=
  match ops with
  | [] => True
  | op :: ops =>
      match op with
      | OpPush id _ => id ∉ seen
      | OpRemove id _ => id ∈ q
      | _ => True
      end /\
      match fifo_step op q with
      | Some (_, q') =>
          level_protocol ops (match op with OpPush id _ => {[id]} ∪ seen | _ => seen end) q'
      | None => True
      end
  end.

(** ** Draining *)

Lemma drain_loop_live q c : live_of (drain_loop q c).1 (drain_loop q c).2 = live_of q c.
Proof.
  revert c. induction q as [|x q IH]; intros c; simpl; [done|].
  case_decide; [apply IH|]. simpl. by rewrite decide_False.
Qed.

Lemma drain_live l : live (drain_cancelled l) = live l.
Proof.
  unfold live, drain_cancelled. pose proof (drain_loop_live (pl_queue l) (pl_cancelled l)).
  by destruct (drain_loop _ _).
Qed.

(** After draining, the deque is empty or its front is the first live id. *)
Lemma drain_loop_front q c :
  match (drain_loop q c).1 with
  | [] => live_of q c = []
  | x :: q' => live_of q c = x :: live_of q' (drain_loop q c).2 /\ x ∉ (drain_loop q c).2
  end.
Proof.
  revert c. induction q as [|x q IH]; intros c; simpl; [done|].
  case_decide; [apply IH|]. simpl. by split.
Qed.

Lemma drain_front l :
  match pl_queue (drain_cancelled l) with
  | [] => live l = []
  | x :: q' =>
      live l = x :: live_of q' (pl_cancelled (drain_cancelled l)) /\
      x ∉ pl_cancelled (drain_cancelled l)
  end.
Proof.
  unfold live, drain_cancelled. pose proof (drain_loop_front (pl_queue l) (pl_cancelled l)).
  by destruct (drain_loop _ _).
Qed.

Lemma drain_loop_wf q c :
  (forall id, id ∈ c -> id ∈ q) ->
  forall id, id ∈ (drain_loop q c).2 -> id ∈ (drain_loop q c).1.
Proof.
  revert c. induction q as [|x q IH]; intros c Hc id; simpl; [apply Hc|].
  case_decide; [|apply Hc]. apply IH. intros y [Hy Hne]%elem_of_difference.
  apply Hc in Hy. set_solver.
Qed.

Lemma drain_wf l : level_wf l -> level_wf (drain_cancelled l).
Proof.
  unfold level_wf, drain_cancelled. intros Hwf.
  pose proof (drain_loop_wf _ _ Hwf). by destruct (drain_loop _ _).
Qed.

Lemma drain_loop_subset q c : (drain_loop q c).2 ⊆ c.
Proof.
  revert c. induction q as [|x q IH]; intros c; simpl; [done|].
  case_decide; [|done]. etransitivity; [apply IH|]. set_solver.
Qed.

Lemma drain_cancelled_subset l : pl_cancelled (drain_cancelled l) ⊆ pl_cancelled l.
Proof.
  unfold drain_cancelled. pose proof (drain_loop_subset (pl_queue l) (pl_cancelled l)).
  by destruct (drain_loop _ _).
Qed.

Lemma drain_price l : pl_price (drain_cancelled l) = pl_price l.
Proof. unfold drain_cancelled. by destruct (drain_loop _ _). Qed.

Lemma drain_volume l : pl_total_volume (drain_cancelled l) = pl_total_volume l.
Proof. unfold drain_cancelled. by destruct (drain_loop _ _). Qed.

(** ** Live ids of the basic updates *)

Lemma live_of_app q1 q2 c :
  (forall id, id ∈ c -> id ∈ q1) -> live_of (q1 ++ q2) c = live_of q1 c ++ live_of q2 ∅.
Proof.
  revert c. induction q1 as [|x q IH]; intros c Hc; simpl.
  - assert (c = ∅) as -> by set_solver. done.
  - case_decide.
    + apply IH. intros y [Hy Hne]%elem_of_difference. apply Hc in Hy. set_solver.
    + simpl. f_equal. apply IH. intros y Hy. specialize (Hc y Hy). set_solver.
Qed.

Lemma live_of_subset q c id : id ∈ live_of q c -> id ∈ q.
Proof.
  revert c. induction q as [|x q IH]; intros c; simpl; [done|].
  case_decide; intros Hin; [|apply elem_of_cons in Hin as [->|Hin]]; set_solver.
Qed.

Lemma live_of_not_cancelled q c id : id ∉ c -> id ∈ q -> id ∈ live_of q c.
Proof.
  revert c. induction q as [|x q IH]; intros c Hc; simpl; [by intros ?%elem_of_nil|].
  intros Hin. destruct (decide (x ∈ c)) as [Hx|Hx].
  - apply IH; set_solver.
  - apply elem_of_cons in Hin as [->|Hin]; apply elem_of_cons; auto.
Qed.

(** Marking an unmarked id removes its first live occurrence; with no
    duplicates that is every occurrence. *)
Lemma live_of_mark q c id :
  id ∉ c -> NoDup (live_of q c) ->
  live_of q ({[id]} ∪ c) = filter (fun x => x <> id) (live_of q c).
Proof.
  revert c. induction q as [|x q IH]; intros c Hc Hnd; simpl in *; [done|].
  destruct (decide (x ∈ c)) as [Hx|Hx].
  - rewrite decide_True by set_solver.
    replace (({[id]} ∪ c) ∖ {[x]}) with ({[id]} ∪ (c ∖ {[x]})) by set_solver.
    apply IH; set_solver.
  - apply NoDup_cons in Hnd as [Hnx Hnd]. destruct (decide (x = id)) as [->|Hne].
    + rewrite decide_True by set_solver.
      replace (({[id]} ∪ c) ∖ {[id]}) with c by set_solver.
      rewrite filter_cons_False by auto. symmetry. apply filter_all.
      intros y Hy ->. done.
    + rewrite decide_False by set_solver. rewrite filter_cons_True by done.
      f_equal. by apply IH.
Qed.

(** ** The operations on live ids *)

Lemma new_level_live p : live (new_level p) = [].
Proof. done. Qed.

Lemma new_level_wf p : level_wf (new_level p).
Proof. intros id. simpl. set_solver. Qed.

Lemma push_back_live id v l : level_wf l -> live (push_back id v l) = live l ++ [id].
Proof. intros Hwf. unfold live. simpl. by rewrite live_of_app. Qed.

Lemma push_back_wf id v l : level_wf l -> level_wf (push_back id v l).
Proof. intros Hwf x Hx. simpl in *. apply elem_of_app. left. by apply Hwf. Qed.

Lemma remove_live id v l :
  id ∉ pl_cancelled l -> NoDup (live l) ->
  live (remove id v l) = filter (fun x => x <> id) (live l).
Proof. apply live_of_mark. Qed.

Lemma remove_wf id v l : id ∈ live l -> level_wf l -> level_wf (remove id v l).
Proof.
  intros Hin%live_of_subset Hwf x. simpl. intros [->%elem_of_singleton|Hx]%elem_of_union; auto.
Qed.

Lemma reduce_front_volume_live q l : live (reduce_front_volume q l) = live l.
Proof. done. Qed.

Lemma reduce_front_volume_wf q l : level_wf l -> level_wf (reduce_front_volume q l).
Proof. done. Qed.

Lemma front_live id ids l : live l = id :: ids -> front l = Ok (id, drain_cancelled l).
Proof.
  intros Hl. unfold front. pose proof (drain_front l) as Hd.
  destruct (pl_queue _); [congruence|]. destruct Hd as [Hd _]. congruence.
Qed.

Lemma front_crash l : live l = [] -> front l = Crash EmptyFront.
Proof.
  intros Hl. unfold front. pose proof (drain_front l) as Hd.
  destruct (pl_queue _); [done|]. destruct Hd. congruence.
Qed.

Lemma pop_front_live f id ids l :
  live l = id :: ids -> level_wf l ->
  exists l', pop_front f l = Ok l' /\ live l' = ids /\ level_wf l' /\
    pl_price l' = pl_price l /\ pl_cancelled l' ⊆ pl_cancelled l /\ id ∉ pl_cancelled l'.
Proof.
  intros Hl Hwf. unfold pop_front. pose proof (drain_front l) as Hd.
  pose proof (drain_wf l Hwf) as Hwf'. pose proof (drain_cancelled_subset l) as Hsub.
  pose proof (drain_price l) as Hp.
  destruct (drain_cancelled l) as [p v q c]; simpl in *.
  destruct q as [|x q]; [congruence|]. destruct Hd as [Hd Hx].
  eexists; split; [done|]. rewrite Hl in Hd. injection Hd as -> Hids.
  split_ands; try done. intros y Hy. specialize (Hwf' y Hy). simpl in *.
  apply elem_of_cons in Hwf' as [->|]; done.
Qed.

Lemma pop_front_crash f l : live l = [] -> pop_front f l = Crash EmptyFront.
Proof.
  intros Hl. unfold pop_front. pose proof (drain_front l) as Hd.
  destruct (pl_queue _); [done|]. destruct Hd. congruence.
Qed.

Lemma empty_live l : empty l = (bool_decide (live l = []), drain_cancelled l).
Proof.
  unfold empty. f_equal. pose proof (drain_front l) as Hd.
  apply bool_decide_ext. destruct (pl_queue (drain_cancelled l)) as [|x q].
  - by rewrite Hd.
  - destruct Hd as [-> _]. done.
Qed.

(** The front of a level is not marked cancelled once the level is drained. *)
Lemma drain_front_unmarked id ids l :
  live l = id :: ids -> id ∉ pl_cancelled (drain_cancelled l).
Proof.
  intros Hl. pose proof (drain_front l) as Hd.
  destruct (pl_queue (drain_cancelled l)); [congruence|]. destruct Hd. congruence.
Qed.

Lemma live_of_length q c :
  (forall id, id ∈ c -> id ∈ q) -> length q = (length (live_of q c) + size c)%nat.
Proof.
  revert c. induction q as [|x q IH]; intros c Hc; simpl.
  - assert (c = ∅) as -> by set_solver. by rewrite size_empty.
  - case_decide as Hx.
    + rewrite (IH (c ∖ {[x]})) by set_solver.
      rewrite size_difference by set_solver. rewrite size_singleton.
      assert (size c <> 0%nat) by (apply size_non_empty_iff; set_solver). lia.
    + simpl. rewrite (IH c); [lia|]. intros y Hy. specialize (Hc y Hy). set_solver.
Qed.

(** On a clean level without duplicates [order_ids] lists the live ids. *)
Lemma live_of_order_ids q c :
  (forall id, id ∈ c -> id ∉ live_of q c) -> (forall id, id ∈ c -> id ∈ q) ->
  filter (fun id => id ∉ c) q = live_of q c.
Proof.
  revert c. induction q as [|x q IH]; intros c Hcl Hwf; simpl; [done|].
  destruct (decide (x ∈ c)) as [Hx|Hx].
  - rewrite filter_cons_False by auto. simpl in *. rewrite decide_True in Hcl by done.
    rewrite <- IH by set_solver. apply filter_ext_elem. intros y Hy. split; [set_solver|].
    intros Hyc Hin. destruct (decide (y = x)) as [->|]; [|set_solver].
    apply (Hcl x Hx). by apply live_of_not_cancelled; [set_solver|].
  - rewrite filter_cons_True by done. f_equal. simpl in *. rewrite decide_False in Hcl by done.
    apply IH; [set_solver|]. intros y Hy. specialize (Hwf y Hy). set_solver.
Qed.

Lemma order_ids_live l : level_wf l -> level_clean l -> order_ids l = live l.
Proof. intros Hwf Hcl. by apply live_of_order_ids. Qed.

#[export] Hint Resolve new_level_wf push_back_wf remove_wf drain_wf reduce_front_volume_wf : lob.

(** ** Refinement: a level is a plain FIFO *)

(** What relates a level to the reference queue [q] after the ids [seen] were
    pushed. *)
Definition level_refines (l : PriceLevel) (q : list OrderId) (seen : gset OrderId) : Prop :=
  level_wf l /\ level_clean l /\ live l = q /\ NoDup q /\ (forall id, id ∈ pl_queue l -> id ∈ seen).

Lemma drain_clean l : level_clean l -> level_clean (drain_cancelled l).
Proof. intros Hcl x Hx%drain_cancelled_subset. rewrite drain_live. by apply Hcl. Qed.

Lemma push_back_clean id v l :
  level_wf l -> id ∉ pl_cancelled l -> level_clean l -> level_clean (push_back id v l).
Proof.
  intros Hwf Hid Hcl x Hx. rewrite push_back_live by done. specialize (Hcl x Hx).
  simpl in Hx. set_solver.
Qed.

Lemma remove_clean id v l :
  id ∉ pl_cancelled l -> NoDup (live l) -> level_clean l -> level_clean (remove id v l).
Proof.
  intros Hid Hnd Hcl x Hx. rewrite remove_live by done. rewrite list_elem_of_filter.
  simpl in Hx. specialize (Hcl x). set_solver.
Qed.

Lemma drain_loop_queue_subset q c id : id ∈ (drain_loop q c).1 -> id ∈ q.
Proof.
  revert c. induction q as [|x q IH]; intros c; simpl; [done|].
  case_decide; simpl; [|done]. intros Hin%IH. set_solver.
Qed.

Lemma drain_queue_subset l id : id ∈ pl_queue (drain_cancelled l) -> id ∈ pl_queue l.
Proof.
  unfold drain_cancelled. pose proof (drain_loop_queue_subset (pl_queue l) (pl_cancelled l) id).
  by destruct (drain_loop _ _).
Qed.

Lemma level_refines_drain l q seen :
  level_refines l q seen -> level_refines (drain_cancelled l) q seen.
Proof.
  intros (Hwf & Hcl & Hl & Hnd & Hseen). unfold level_refines; split_ands; try done.
  - by apply drain_wf.
  - by apply drain_clean.
  - by rewrite drain_live.
  - intros id Hin%drain_queue_subset. auto.
Qed.

Lemma level_refines_pop f l x q seen :
  level_refines l (x :: q) seen ->
  exists l', pop_front f l = Ok l' /\ level_refines l' q seen.
Proof.
  intros (Hwf & Hcl & Hl & Hnd & Hseen).
  destruct (pop_front_live f x q l Hl Hwf) as (l' & Hpop & Hl' & Hwf' & _ & Hsub & Hx).
  exists l'. split; [done|]. apply NoDup_cons in Hnd as [Hxq Hnd]. unfold level_refines; split_ands; try done.
  - intros y Hy. rewrite Hl'. apply Hsub in Hy. specialize (Hcl y Hy). rewrite Hl in Hcl.
    set_solver.
  - intros y Hy. apply Hseen. apply drain_queue_subset. unfold pop_front in Hpop.
    destruct (pl_queue (drain_cancelled l)); [done|]. injection Hpop as <-. set_solver.
Qed.

(** One operation of the protocol behaves as the reference operation, and
    crashes exactly when the reference has no front. *)
Lemma level_step_refines op l q seen ops :
  level_refines l q seen -> level_protocol (op :: ops) seen q ->
  match fifo_step op q with
  | Some (o, q') =>
      exists l', level_step op l = Ok (o, l') /\
        level_refines l' q' (match op with OpPush id _ => {[id]} ∪ seen | _ => seen end)
  | None => level_step op l = Crash EmptyFront
  end.
Proof.
  intros Href [Hop _]. pose proof Href as (Hwf & Hcl & Hl & Hnd & Hseen).
  destruct op as [id v|id v|f|qty| |]; simpl.
  - eexists; split; [done|]. assert (id ∉ pl_cancelled l) as Hid.
    { intros Hc%Hwf%Hseen. done. }
    unfold level_refines; split_ands; auto using push_back_wf, push_back_clean.
    + by rewrite push_back_live, Hl.
    + apply NoDup_app. split_ands; [done| |apply NoDup_singleton].
      intros y Hy ->%list_elem_of_singleton. apply Hop, Hseen, (live_of_subset _ (pl_cancelled l)).
      by rewrite <- Hl in Hy.
    + intros y. simpl. rewrite elem_of_app, list_elem_of_singleton. set_solver.
  - eexists; split; [done|]. assert (id ∉ pl_cancelled l) as Hid.
    { intros Hc%Hcl. by rewrite Hl in Hc. }
    rewrite <- Hl in Hnd. unfold level_refines; split_ands; auto using remove_clean.
    + apply remove_wf; [by rewrite Hl|done].
    + by rewrite remove_live, Hl.
    + rewrite <- Hl. by apply NoDup_filter.
  - destruct q as [|x q].
    + by rewrite pop_front_crash.
    + destruct (level_refines_pop f _ _ _ _ Href) as (l' & -> & Hl'). by eexists.
  - by eexists.
  - destruct q as [|x q]; [by rewrite front_crash|].
    rewrite (front_live x q) by done. eexists; split; [done|]. by apply level_refines_drain.
  - pose proof (empty_live l) as He. unfold empty in *. injection He as He.
    rewrite He, Hl. eexists; split; [done|]. by apply level_refines_drain.
Qed.

Lemma level_run_refines ops l q seen :
  level_refines l q seen -> level_protocol ops seen q ->
  match fifo_run ops q with
  | Some (obs, q') => exists l', level_run ops l = Ok (obs, l') /\ live l' = q'
  | None => level_run ops l = Crash EmptyFront
  end.
Proof.
  revert l q seen. induction ops as [|op ops IH]; intros l q seen Href Hp.
  { eexists; split; [done|]. apply Href. }
  pose proof (level_step_refines _ _ _ _ _ Href Hp) as Hstep. destruct Hp as [_ Hp]. simpl.
  destruct (fifo_step op q) as [[o q1]|]; simpl; [|by rewrite Hstep].
  destruct Hstep as (l1 & -> & Href1). simpl. specialize (IH _ _ _ Href1 Hp).
  destruct (fifo_run ops q1) as [[os q2]|]; simpl; [|by rewrite IH].
  destruct IH as (l2 & -> & Hl2). by eexists.
Qed.

(** C17. [PriceLevel] with lazy deletion is observationally a plain FIFO queue
    with eager deletion: for every sequence of calls that obeys the protocol
    (each id is queued once, only queued ids are removed) [front], [empty] and
    the popped order agree with the reference, the live ids are the reference
    queue, and the only failure is a [front]/[pop_front] of an empty queue. *)
Theorem level_refines_fifo ops p :
  level_protocol ops ∅ [] ->
  match fifo_run ops [] with
  | Some (obs, q) => exists l, level_run ops (new_level p) = Ok (obs, l) /\ live l = q
  | None => level_run ops (new_level p) = Crash EmptyFront
  end.
Proof.
  intros Hp. apply (level_run_refines ops _ _ ∅); [|done].
  unfold level_refines; split_ands; [apply new_level_wf| |done|apply NoDup_nil_2|]; intros id; simpl; set_solver.
Qed.

Lemma level_refines_fifo_witness :
  level_run [OpPush 7 10; OpPush 8 20; OpPush 9 5; OpRemove 8 20; OpFront; OpPop 10; OpFront]
    (new_level 100)
  = Ok ([ObsUnit; ObsUnit; ObsUnit; ObsUnit; ObsId 7; ObsUnit; ObsId 9], mkLevel 100 5 [9] ∅).
Proof.
  destruct (level_refines_fifo
    [OpPush 7 10; OpPush 8 20; OpPush 9 5; OpRemove 8 20; OpFront; OpPop 10; OpFront] 100)
    as (l & Hl & _).
  - simpl. split_ands; set_solver.
  - rewrite Hl. vm_compute in Hl. injection Hl as <-. reflexivity.
Defined.
