(* ===== verification/OrderBook.v ===== *)
(** * OrderBook: two sides of price levels and an id index

    Model of [src/src/book/order_book.hpp] and [order_book.cpp]. The two
    [std::map]s are finite maps whose iteration order is [prio]; the hash map
    [id_map_] is a finite map that holds the orders themselves. A
    [PriceLevel*] is the pair of a side and a map key, an [Order*] is a key of
    [id_map_]; writing through a pointer updates the entry of that key. *)

From S2P Require Import Prelude Types PriceLevel.

Record OrderBook := mkBook {
  bids : gmap Price PriceLevel;
  asks : gmap Price PriceLevel;
  id_map : gmap OrderId Order;
  last_trade_price : Price;
}.

Definition empty_book : OrderBook := mkBook ∅ ∅ ∅ 0.

(** The map of a side, and its update. *)
Definition levels (s : Side) (b : OrderBook) : gmap Price PriceLevel :=
  match s with Buy => bids b | Sell => asks b end.
Definition set_levels (s : Side) (m : gmap Price PriceLevel) (b : OrderBook) : OrderBook :=
  match s with
  | Buy => mkBook m (asks b) (id_map b) (last_trade_price b)
  | Sell => mkBook (bids b) m (id_map b) (last_trade_price b)
  end.
Definition set_id_map (m : gmap OrderId Order) (b : OrderBook) : OrderBook :=
  mkBook (bids b) (asks b) m (last_trade_price b).
Definition set_last_trade_price (p : Price) (b : OrderBook) : OrderBook :=
  mkBook (bids b) (asks b) (id_map b) p.

(** Write through a [PriceLevel*]. *)
Definition put_level (s : Side) (p : Price) (l : PriceLevel) (b : OrderBook) : OrderBook :=
  set_levels s (<[p:=l]> (levels s b)) b.

(** Write through an [Order*]. *)
Definition put_order (id : OrderId) (o : Order) (b : OrderBook) : OrderBook :=
  set_id_map (<[id:=o]> (id_map b)) b.

(** ** Insertion and removal *)

Definition insert_order (o : Order) (b : OrderBook) : OrderBook :=
  let b := put_order (o_id o) o b in
  let s := o_side o in
  let p := o_price o in
  (* emplace does nothing when the key is present *)
  let lvl := default (new_level p) (levels s b !! p) in
  put_level s p (push_back (o_id o) (visible_qty o) lvl) b.

Definition cancel_order (id : OrderId) (b : OrderBook) : bool * OrderBook :=
  match id_map b !! id with
  | None => (false, b)
  | Some order =>
      let s := o_side order in
      let p := o_price order in
      let b :=
        match levels s b !! p with
        | None => b
        | Some lvl =>
            let '(is_empty, lvl) := empty (remove id (visible_qty order) lvl) in
            let b := put_level s p lvl b in
            if is_empty then set_levels s (delete p (levels s b)) b else b
        end in
      (true, set_id_map (delete id (id_map b)) b)
  end.

(** ** Lookup *)

Definition find_order (id : OrderId) (b : OrderBook) : option Order := id_map b !! id.
Definition has_order (id : OrderId) (b : OrderBook) : bool :=
  bool_decide (is_Some (id_map b !! id)).
Definition find_order_mut (id : OrderId) (b : OrderBook) : option Order := id_map b !! id.

(** ** Best prices *)

(** [begin()] of a side: its key and level. *)
Definition best_level (s : Side) (b : OrderBook) : option (Price * PriceLevel) :=
  map_begin (prio s) (levels s b).
Definition best_bid_level (b : OrderBook) : option (Price * PriceLevel) := best_level Buy b.
Definition best_ask_level (b : OrderBook) : option (Price * PriceLevel) := best_level Sell b.
Definition best_bid (b : OrderBook) : option Price := fst <$> best_level Buy b.
Definition best_ask (b : OrderBook) : option Price := fst <$> best_level Sell b.

(** [( *bb + *ba ) / 2]: the sum may overflow, the division truncates. *)
Definition mid_price (b : OrderBook) : res (option Price) :=
  match best_bid b, best_ask b with
  | Some bb, Some ba => s ← i64 (bb + ba); Ok (Some (Z.quot s 2))
  | _, _ => Ok None
  end.

Definition spread (b : OrderBook) : res (option Price) :=
  match best_bid b, best_ask b with
  | Some bb, Some ba => d ← i64 (ba - bb); Ok (Some d)
  | _, _ => Ok None
  end.

(** ** Mutation helpers *)

Definition remove_best_level (s : Side) (b : OrderBook) : OrderBook :=
  match best_level s b with
  | None => b
  | Some (p, _) => set_levels s (delete p (levels s b)) b
  end.
Definition remove_best_ask_level (b : OrderBook) : OrderBook := remove_best_level Sell b.
Definition remove_best_bid_level (b : OrderBook) : OrderBook := remove_best_level Buy b.

Definition update_order_quantity (id : OrderId) (new_qty : Quantity) (b : OrderBook) : OrderBook :=
  match id_map b !! id with
  | Some o => put_order id (set_quantity new_qty o) b
  | None => b
  end.

Definition get_level (s : Side) (p : Price) (b : OrderBook) : option PriceLevel := levels s b !! p.

Definition reduce_level_volume (s : Side) (p : Price) (delta : Quantity) (b : OrderBook)
    : OrderBook :=
  match get_level s p b with
  | Some lvl => put_level s p (reduce_front_volume delta lvl) b
  | None => b
  end.

Definition order_count (b : OrderBook) : Z := Z.of_nat (size (id_map b)).
Definition bid_level_count (b : OrderBook) : Z := Z.of_nat (size (bids b)).
Definition ask_level_count (b : OrderBook) : Z := Z.of_nat (size (asks b)).

(** Iteration over [bids()] or [asks()]: best price first. *)
Definition iterate (s : Side) (b : OrderBook) : list (Price * PriceLevel) :=
  map_sorted (prio s) (levels s b).

(** ** Specification: a book of plain queues *)

Record sbook := mkSbook {
  s_bids : gmap Price (list OrderId);
  s_asks : gmap Price (list OrderId);
  s_orders : gmap OrderId Order;
}.

Definition s_levels (s : Side) (b : sbook) : gmap Price (list OrderId) :=
  match s with Buy => s_bids b | Sell => s_asks b end.
Definition s_set_levels (s : Side) (m : gmap Price (list OrderId)) (b : sbook) : sbook :=
  match s with
  | Buy => mkSbook m (s_asks b) (s_orders b)
  | Sell => mkSbook (s_bids b) m (s_orders b)
  end.
Definition s_set_orders (m : gmap OrderId Order) (b : sbook) : sbook :=
  mkSbook (s_bids b) (s_asks b) m.
Definition s_put_order (id : OrderId) (o : Order) (b : sbook) : sbook :=
  s_set_orders (<[id:=o]> (s_orders b)) b.

(** The queue of a price; empty when the price has no level. *)
Definition s_queue (s : Side) (p : Price) (b : sbook) : list OrderId :=
  default [] (s_levels s b !! p).

(** Set the queue of a price; an empty queue has no level. *)
Definition s_set_queue (s : Side) (p : Price) (q : list OrderId) (b : sbook) : sbook :=
  s_set_levels s
    (match q with [] => delete p (s_levels s b) | _ => <[p:=q]> (s_levels s b) end) b.

Definition s_insert (o : Order) (b : sbook) : sbook :=
  s_set_queue (o_side o) (o_price o) (s_queue (o_side o) (o_price o) b ++ [o_id o])
    (s_put_order (o_id o) o b).

Definition s_remove (o : Order) (b : sbook) : sbook :=
  s_set_queue (o_side o) (o_price o)
    (filter (fun x => x <> o_id o) (s_queue (o_side o) (o_price o) b))
    (s_set_orders (delete (o_id o) (s_orders b)) b).

(** The best price of a side. *)
Definition s_best (s : Side) (b : sbook) : option (Price * list OrderId) :=
  map_begin (prio s) (s_levels s b).

(** Abstraction: forget the lazily deleted entries and the volumes. *)
Definition abs_book (b : OrderBook) : sbook :=
  mkSbook (live <$> bids b) (live <$> asks b) (id_map b).

(** Well-formed book of queues: the index and the queues describe the same set
    of orders, each exactly once, at its own side and price. *)
Record sbook_wf (b : sbook) : Prop := {
  wf_key : forall i o, s_orders b !! i = Some o -> o_id o = i;
  wf_nonempty : forall s p, s_levels s b !! p <> Some [];
  wf_nodup : forall s p, NoDup (s_queue s p b);
  wf_indexed : forall s p i,
    i ∈ s_queue s p b <-> exists o, s_orders b !! i = Some o /\ o_side o = s /\ o_price o = p;
}.

(** Well-formed concrete book. Every id that is marked cancelled at some level
    is in [K]. *)
Definition levels_ok (K : gset OrderId) (b : OrderBook) : Prop :=
  forall s p l, levels s b !! p = Some l ->
    level_wf l /\ pl_price l = p /\ pl_cancelled l ⊆ K.
Definition book_wf (K : gset OrderId) (b : OrderBook) : Prop :=
  levels_ok K b /\ sbook_wf (abs_book b).

(** The id is not marked cancelled at the level where it rests: it has not
    re-entered a level that still holds the entry of an earlier cancellation. *)
Definition unmarked (id : OrderId) (b : OrderBook) : Prop :=
  forall o l, id_map b !! id = Some o -> levels (o_side o) b !! o_price o = Some l ->
    id ∉ pl_cancelled l.

(** ** Projections of updates *)

Lemma levels_set_levels s s' m b :
  levels s' (set_levels s m b) = if decide (s = s') then m else levels s' b.
Proof. by destruct s, s'. Qed.

Lemma id_map_set_levels s m b : id_map (set_levels s m b) = id_map b.
Proof. by destruct s. Qed.

Lemma ltp_set_levels s m b : last_trade_price (set_levels s m b) = last_trade_price b.
Proof. by destruct s. Qed.

Lemma levels_set_id_map s m b : levels s (set_id_map m b) = levels s b.
Proof. by destruct s. Qed.

Lemma levels_put_level s s' p l b :
  levels s' (put_level s p l b) = if decide (s = s') then <[p:=l]> (levels s b) else levels s' b.
Proof. unfold put_level. apply levels_set_levels. Qed.

Lemma s_levels_set_levels s s' m b :
  s_levels s' (s_set_levels s m b) = if decide (s = s') then m else s_levels s' b.
Proof. by destruct s, s'. Qed.

Lemma s_orders_set_levels s m b : s_orders (s_set_levels s m b) = s_orders b.
Proof. by destruct s. Qed.

Lemma s_orders_set_queue s p q b : s_orders (s_set_queue s p q b) = s_orders b.
Proof. apply s_orders_set_levels. Qed.

Lemma s_queue_set_orders s p m b : s_queue s p (s_set_orders m b) = s_queue s p b.
Proof. by destruct s. Qed.

Lemma s_levels_set_orders s m b : s_levels s (s_set_orders m b) = s_levels s b.
Proof. by destruct s. Qed.

Lemma s_levels_set_queue s p q b s' p' :
  s_levels s' (s_set_queue s p q b) !! p' =
  if decide (s = s' /\ p = p') then (match q with [] => None | _ => Some q end)
  else s_levels s' b !! p'.
Proof.
  unfold s_set_queue. rewrite s_levels_set_levels.
  destruct (decide (s = s')) as [->|Hs]; [|by rewrite decide_False by tauto].
  destruct (decide (p = p')) as [->|Hp].
  - rewrite decide_True by done. by destruct q; simplify_map_eq.
  - rewrite decide_False by tauto. by destruct q; simplify_map_eq.
Qed.

Lemma s_queue_set_queue s p q b s' p' :
  s_queue s' p' (s_set_queue s p q b) = if decide (s = s' /\ p = p') then q else s_queue s' p' b.
Proof. unfold s_queue. rewrite s_levels_set_queue. case_decide; [by destruct q|done]. Qed.

Lemma s_levels_abs s b : s_levels s (abs_book b) = live <$> levels s b.
Proof. by destruct s. Qed.

Lemma abs_set_levels s m b :
  abs_book (set_levels s m b) = s_set_levels s (live <$> m) (abs_book b).
Proof. by destruct s. Qed.

Lemma s_best_abs s b : s_best s (abs_book b) = prod_map id live <$> best_level s b.
Proof. unfold s_best, best_level. rewrite s_levels_abs. apply map_begin_fmap; apply _. Qed.

Lemma s_best_Some s b p q :
  s_best s b = Some (p, q) <->
  s_levels s b !! p = Some q /\ forall p' q', s_levels s b !! p' = Some q' -> prio s p p'.
Proof. apply map_begin_Some; apply _. Qed.

Lemma s_best_None s b : s_best s b = None <-> s_levels s b = ∅.
Proof. apply map_begin_None. Qed.

Lemma best_level_Some s b p l :
  best_level s b = Some (p, l) <->
  levels s b !! p = Some l /\ forall p' l', levels s b !! p' = Some l' -> prio s p p'.
Proof. apply map_begin_Some; apply _. Qed.

Lemma best_level_None s b : best_level s b = None <-> levels s b = ∅.
Proof. apply map_begin_None. Qed.

#[export] Hint Rewrite levels_set_levels id_map_set_levels ltp_set_levels levels_set_id_map
  levels_put_level s_levels_set_levels s_orders_set_levels s_orders_set_queue
  s_queue_set_orders s_levels_set_orders : book.

(** Two books of queues with the same levels and orders are equal. *)
Lemma sbook_eq b1 b2 :
  (forall s p, s_levels s b1 !! p = s_levels s b2 !! p) -> s_orders b1 = s_orders b2 -> b1 = b2.
Proof.
  destruct b1, b2; simpl. intros Hl ->. f_equal; apply map_eq; intros p;
    [apply (Hl Buy)|apply (Hl Sell)].
Qed.

Lemma s_level_queue b s p q : s_levels s b !! p = Some q -> s_queue s p b = q.
Proof. unfold s_queue. by intros ->. Qed.

Lemma s_queue_level b s p :
  sbook_wf b -> s_queue s p b <> [] -> s_levels s b !! p = Some (s_queue s p b).
Proof. intros Hwf. unfold s_queue. by destruct (s_levels s b !! p). Qed.

(** ** Well-formedness is preserved by the specification's updates *)

Lemma empty_sbook_wf : sbook_wf (abs_book empty_book).
Proof.
  split; unfold s_queue; intros *; rewrite ?s_levels_abs; simpl;
    try (destruct s; simpl; rewrite fmap_empty, lookup_empty); simpl.
  - by rewrite lookup_empty.
  - done.
  - done.
  - constructor.
  - constructor.
  - split; [set_solver|]. intros (o & Ho & _). by rewrite lookup_empty in Ho.
  - split; [set_solver|]. intros (o & Ho & _). by rewrite lookup_empty in Ho.
Qed.

Lemma s_insert_wf o b :
  sbook_wf b -> s_orders b !! o_id o = None -> sbook_wf (s_insert o b).
Proof.
  intros Hwf Hfresh. unfold s_insert, s_put_order.
  assert (o_id o ∉ s_queue (o_side o) (o_price o) b) as Hnq.
  { intros (o' & Ho' & _)%wf_indexed; [congruence|done]. }
  split.
  - intros i o'. rewrite s_orders_set_queue. simpl.
    intros [[<- <-]|[Hne Ho']]%lookup_insert_Some; [done|]. by apply (wf_key b Hwf).
  - intros s p. rewrite s_levels_set_queue. case_decide; [by destruct (s_queue _ _ _)|].
    rewrite s_levels_set_orders. by apply wf_nonempty.
  - intros s p. rewrite s_queue_set_queue, s_queue_set_orders.
    case_decide; [|by apply wf_nodup]. apply NoDup_app. split_ands; [by apply wf_nodup| |apply NoDup_singleton].
    intros y Hy ->%list_elem_of_singleton. done.
  - intros s p i. rewrite s_queue_set_queue, s_orders_set_queue. simpl.
    rewrite s_queue_set_orders. split.
    + intros Hi. destruct (decide (i = o_id o)) as [->|Hne].
      * exists o. rewrite lookup_insert_eq. case_decide as Hd; [naive_solver|].
        apply wf_indexed in Hi as (o' & Ho' & _); [congruence|done].
      * rewrite lookup_insert_ne by done. apply wf_indexed; [done|].
        case_decide as Hd; [|done]. destruct Hd as [<- <-]. set_solver.
    + intros (o' & Ho' & <- & <-).
      apply lookup_insert_Some in Ho' as [[<- <-]|[Hne Ho']].
      * rewrite decide_True by done. set_solver.
      * assert (i ∈ s_queue (o_side o') (o_price o') b) by (apply wf_indexed; eauto).
        case_decide as Hd; [|done]. destruct Hd as [Hd1 Hd2]. rewrite Hd1, Hd2. set_solver.
Qed.

Lemma s_remove_wf o b :
  sbook_wf b -> s_orders b !! o_id o = Some o -> sbook_wf (s_remove o b).
Proof.
  intros Hwf Ho. unfold s_remove. split.
  - intros i o'. rewrite s_orders_set_queue. simpl.
    intros [Hne Ho']%lookup_delete_Some. by apply (wf_key b Hwf).
  - intros s p. rewrite s_levels_set_queue. case_decide; [by destruct (filter _ _)|].
    rewrite s_levels_set_orders. by apply wf_nonempty.
  - intros s p. rewrite s_queue_set_queue, s_queue_set_orders.
    case_decide; [|by apply wf_nodup]. apply NoDup_filter. by apply wf_nodup.
  - intros s p i. rewrite s_queue_set_queue, s_orders_set_queue. simpl.
    rewrite s_queue_set_orders. pose proof (wf_indexed b Hwf s p i) as Hix.
    destruct (decide (i = o_id o)) as [->|Hne].
    + rewrite lookup_delete_eq. split; [|naive_solver]. case_decide as Hd.
      * rewrite list_elem_of_filter. naive_solver.
      * intros (o' & Ho' & Hs & Hp)%Hix. naive_solver.
    + rewrite lookup_delete_ne by done. case_decide as Hd; [|done].
      destruct Hd as [<- <-]. rewrite list_elem_of_filter. naive_solver.
Qed.

(** Changing an order in place keeps the book well-formed as long as its id,
    side and price stay. *)
Lemma s_put_order_wf i o o' b :
  sbook_wf b -> s_orders b !! i = Some o ->
  o_id o' = o_id o -> o_side o' = o_side o -> o_price o' = o_price o ->
  sbook_wf (s_put_order i o' b).
Proof.
  intros Hwf Ho Hid Hs Hp. split.
  - intros j oj. simpl. intros [[<- <-]|[Hne Hj]]%lookup_insert_Some.
    + rewrite Hid. by apply (wf_key b Hwf).
    + by apply (wf_key b Hwf).
  - intros s p. unfold s_put_order. rewrite s_levels_set_orders. by apply wf_nonempty.
  - intros s p. unfold s_put_order. rewrite s_queue_set_orders. by apply wf_nodup.
  - intros s p j. unfold s_put_order. rewrite s_queue_set_orders. simpl.
    rewrite (wf_indexed b Hwf). destruct (decide (i = j)) as [->|Hne].
    + rewrite lookup_insert_eq. split; intros (x & Hx & Hxs & Hxp); simplify_eq.
      * exists o'. by rewrite Hs, Hp.
      * exists o. by rewrite <- Hs, <- Hp.
    + by rewrite lookup_insert_ne by done.
Qed.

(** Reordering a queue keeps the book well-formed. *)
Lemma s_set_queue_perm_wf s p q b :
  sbook_wf b -> q ≡ₚ s_queue s p b -> sbook_wf (s_set_queue s p q b).
Proof.
  intros Hwf Hq. split.
  - intros i o. rewrite s_orders_set_queue. by apply wf_key.
  - intros s' p'. rewrite s_levels_set_queue. case_decide; [by destruct q|]. by apply wf_nonempty.
  - intros s' p'. rewrite s_queue_set_queue. case_decide; [|by apply wf_nodup].
    rewrite Hq. by apply wf_nodup.
  - intros s' p' i. rewrite s_queue_set_queue, s_orders_set_queue, <- (wf_indexed b Hwf s' p').
    case_decide as Hd; [|done]. destruct Hd as [<- <-]. by rewrite Hq.
Qed.

(** ** The concrete operations refine the specification *)

Lemma s_queue_abs s p b :
  s_queue s p (abs_book b) = live (default (new_level p) (levels s b !! p)).
Proof. unfold s_queue. rewrite s_levels_abs, lookup_fmap. by destruct (levels s b !! p). Qed.

Lemma abs_put_order i o b : abs_book (put_order i o b) = s_put_order i o (abs_book b).
Proof. done. Qed.

Lemma abs_put_level s p l b :
  live l <> [] -> abs_book (put_level s p l b) = s_set_queue s p (live l) (abs_book b).
Proof.
  intros Hne. unfold put_level, s_set_queue. rewrite abs_set_levels, fmap_insert, s_levels_abs.
  by destruct (live l).
Qed.

Lemma abs_delete_level s p b :
  abs_book (set_levels s (delete p (levels s b)) b) = s_set_queue s p [] (abs_book b).
Proof. unfold s_set_queue. by rewrite abs_set_levels, fmap_delete, s_levels_abs. Qed.

(** Replacing a level by one with the same live ids is invisible. *)
Lemma abs_put_level_id s p l l' b :
  levels s b !! p = Some l -> live l' = live l -> abs_book (put_level s p l' b) = abs_book b.
Proof.
  intros Hl Heq. unfold put_level. apply sbook_eq; [|by destruct s].
  intros s' p'. rewrite !s_levels_abs, levels_set_levels. case_decide as Hs; [|done]. subst s'.
  rewrite !lookup_fmap. destruct (decide (p = p')) as [->|Hp]; simplify_map_eq; congruence.
Qed.

Section refinement.
Context {K : gset OrderId}.

Lemma levels_ok_put_level s p l b :
  levels_ok K b -> level_wf l -> pl_price l = p -> pl_cancelled l ⊆ K ->
  levels_ok K (put_level s p l b).
Proof.
  intros Hok Hl Hp HK s' p' l'. rewrite levels_put_level. case_decide as Hs; [|apply Hok]. subst s'.
  intros [[<- <-]|[_ Hin]]%lookup_insert_Some; [done|]. by apply (Hok s).
Qed.

Lemma levels_ok_delete s p b : levels_ok K b -> levels_ok K (set_levels s (delete p (levels s b)) b).
Proof.
  intros Hok s' p' l'. rewrite levels_set_levels. case_decide as Hs; [|apply Hok]. subst s'.
  intros [_ Hin]%lookup_delete_Some. by apply (Hok s).
Qed.

Lemma levels_ok_set_id_map m b : levels_ok K b -> levels_ok K (set_id_map m b).
Proof. intros Hok s p l. rewrite levels_set_id_map. apply Hok. Qed.

Lemma levels_ok_set_ltp p b : levels_ok K b -> levels_ok K (set_last_trade_price p b).
Proof. intros Hok s p' l. specialize (Hok s p' l). by destruct s. Qed.

Lemma book_wf_set_ltp p b : book_wf K b -> book_wf K (set_last_trade_price p b).
Proof. intros [Hok Hwf]. split; [by apply levels_ok_set_ltp|done]. Qed.

End refinement.

Lemma levels_ok_weaken K K' b : K ⊆ K' -> levels_ok K b -> levels_ok K' b.
Proof. intros HK Hok s p l Hl. destruct (Hok s p l Hl) as (? & ? & ?). split_ands; try done. set_solver. Qed.

#[export] Hint Resolve levels_ok_put_level levels_ok_delete levels_ok_set_id_map levels_ok_set_ltp
  book_wf_set_ltp : lob.

Section operations.
Context {K : gset OrderId}.

Lemma default_level_ok s p b :
  levels_ok K b ->
  let l := default (new_level p) (levels s b !! p) in
  level_wf l /\ pl_price l = p /\ pl_cancelled l ⊆ K.
Proof.
  intros Hok. destruct (levels s b !! p) as [l|] eqn:Hl; simpl; [by apply (Hok s)|].
  split_ands; [apply new_level_wf|done|set_solver].
Qed.

Lemma abs_insert_order o b :
  levels_ok K b ->
  abs_book (insert_order o b) = s_insert o (abs_book b) /\ levels_ok K (insert_order o b).
Proof.
  intros Hok. unfold insert_order, put_order. rewrite levels_set_id_map.
  destruct (default_level_ok (o_side o) (o_price o) b Hok) as (Hwf & Hp & HK).
  split; [|by apply levels_ok_put_level; auto using levels_ok_set_id_map, push_back_wf].
  rewrite abs_put_level; rewrite push_back_live, <- s_queue_abs by done; [done|].
  by destruct (s_queue _ _ _).
Qed.

Lemma insert_order_wf o b :
  book_wf K b -> id_map b !! o_id o = None -> book_wf K (insert_order o b).
Proof.
  intros [Hok Hwf] Hfresh. destruct (abs_insert_order o b Hok) as [Habs Hok'].
  split; [done|]. rewrite Habs. by apply s_insert_wf.
Qed.

(** The level of a resting order, and the place of the order in it. *)
Lemma resting_level i o b :
  book_wf K b -> id_map b !! i = Some o ->
  exists l, levels (o_side o) b !! o_price o = Some l /\ level_wf l /\ pl_price l = o_price o /\
    pl_cancelled l ⊆ K /\ i ∈ live l /\ NoDup (live l) /\ s_queue (o_side o) (o_price o) (abs_book b) = live l.
Proof.
  intros [Hok Hwf] Ho.
  assert (i ∈ s_queue (o_side o) (o_price o) (abs_book b)) as Hin.
  { apply (wf_indexed _ Hwf). by exists o. }
  pose proof (wf_nodup _ Hwf (o_side o) (o_price o)) as Hnd.
  rewrite s_queue_abs in Hin, Hnd |- *.
  destruct (levels (o_side o) b !! o_price o) as [l|] eqn:Hl; simpl in *; [|set_solver].
  destruct (Hok _ _ _ Hl) as (? & ? & ?). by exists l.
Qed.

Lemma abs_cancel_order i o b :
  book_wf K b -> id_map b !! i = Some o -> unmarked i b ->
  exists b', cancel_order i b = (true, b') /\ abs_book b' = s_remove o (abs_book b) /\
    levels_ok ({[i]} ∪ K) b'.
Proof.
  intros Hwf Ho Hum. destruct (resting_level i o b Hwf Ho) as (l & Hl & Hlwf & Hp & HK & Hin & Hnd & Hq).
  destruct Hwf as [Hok Hwf]. unfold cancel_order. rewrite Ho, Hl, empty_live.
  assert (o_id o = i) as Hid by by apply (wf_key _ Hwf).
  specialize (Hum o l Ho Hl). rewrite remove_live by done.
  set (l' := drain_cancelled _).
  assert (live l' = filter (fun x => x <> i) (live l)) as Hl'.
  { unfold l'. by rewrite drain_live, remove_live. }
  assert (level_wf l' /\ pl_price l' = o_price o /\ pl_cancelled l' ⊆ {[i]} ∪ K) as (Hlwf' & Hp' & HK').
  { split_ands; [by apply drain_wf, remove_wf| |].
    - unfold l'. by rewrite drain_price.
    - unfold l'. etrans; [apply drain_cancelled_subset|]. simpl. set_solver. }
  assert (levels_ok ({[i]} ∪ K) b) as Hok1 by (eapply levels_ok_weaken; [|done]; set_solver).
  eexists; split; [done|]. unfold s_remove. rewrite Hq, Hid. split.
  - case_bool_decide as He.
    + rewrite He. apply sbook_eq; [|by destruct (o_side o)].
      intros s p. rewrite s_levels_abs, levels_set_id_map, <- s_levels_abs.
      rewrite abs_delete_level, !s_levels_set_queue, s_levels_set_orders.
      case_decide as Hd; [done|]. rewrite !s_levels_abs, levels_put_level.
      case_decide as Hs; [subst|done]. by rewrite !lookup_fmap, lookup_insert_ne by naive_solver.
    + rewrite <- Hl' in He |- *. apply sbook_eq; [|by destruct (o_side o)].
      intros s p. rewrite s_levels_abs, levels_set_id_map, <- s_levels_abs.
      rewrite abs_put_level by done. by rewrite !s_levels_set_queue, s_levels_set_orders.
  - apply levels_ok_set_id_map. case_bool_decide; auto with lob.
Qed.

Lemma cancel_order_wf i o b :
  book_wf K b -> id_map b !! i = Some o -> unmarked i b ->
  book_wf ({[i]} ∪ K) (cancel_order i b).2.
Proof.
  intros Hwf Ho Hum. destruct (abs_cancel_order i o b Hwf Ho Hum) as (b' & -> & Habs & Hok').
  split; [done|]. simpl. rewrite Habs. destruct Hwf as [_ Hwf].
  pose proof (wf_key _ Hwf _ _ Ho). subst. by apply s_remove_wf.
Qed.

(** Cancelling the order at the drained front of its level leaves no mark. *)
Lemma remove_front_unmarked id v l :
  head (pl_queue l) = Some id -> id ∉ pl_cancelled l ->
  pl_cancelled (drain_cancelled (remove id v l)) ⊆ pl_cancelled l.
Proof.
  destruct l as [p vol q c]; simpl. destruct q as [|x q]; [done|]. simpl. intros [= ->] Hid.
  unfold drain_cancelled. simpl. rewrite decide_True by set_solver.
  pose proof (drain_loop_subset q (({[id]} ∪ c) ∖ {[id]})) as Hs.
  destruct (drain_loop q _) as [q' c']. simpl in *. set_solver.
Qed.

Lemma cancel_front_levels_ok i o l b :
  book_wf K b -> id_map b !! i = Some o -> levels (o_side o) b !! o_price o = Some l ->
  head (pl_queue l) = Some i -> i ∉ pl_cancelled l ->
  levels_ok K (cancel_order i b).2.
Proof.
  intros Hwf Ho Hl Hhd Hi.
  destruct (resting_level i o b Hwf Ho) as (l0 & Hl0 & Hlwf & Hp & HK & Hin & _ & _).
  assert (l0 = l) as -> by congruence. destruct Hwf as [Hok Hwf].
  pose proof (remove_front_unmarked i (visible_qty o) l Hhd Hi) as Hsub.
  unfold cancel_order. rewrite Ho, Hl, empty_live. simpl. apply levels_ok_set_id_map.
  assert (levels_ok K (put_level (o_side o) (o_price o)
    (drain_cancelled (remove i (visible_qty o) l)) b)) as Hput.
  { apply levels_ok_put_level; [done|by apply drain_wf, remove_wf|by rewrite drain_price|].
    by etrans. }
  case_bool_decide; auto with lob.
Qed.
End operations.

Lemma drain_head id ids l : live l = id :: ids -> head (pl_queue (drain_cancelled l)) = Some id.
Proof.
  intros Hl. pose proof (drain_front l) as Hd.
  destruct (pl_queue (drain_cancelled l)) as [|x q]; [congruence|]. destruct Hd. simpl. congruence.
Qed.
