(* ===== verification/BookProps.v ===== *)
(** * BookProps: the functional contract of the order book

    Best prices, mid price and spread, counts, and the effect of insertion and
    cancellation on the abstract book. *)

From S2P Require Import Prelude Types PriceLevel OrderBook.

(** ** Best prices *)

Section best.
Context {K : gset OrderId} (b : OrderBook) (Hwf : book_wf K b).

(** A price has a level exactly when an order rests there. *)
Lemma level_iff_order s p :
  is_Some (levels s b !! p) <-> exists i o, id_map b !! i = Some o /\ o_side o = s /\ o_price o = p.
Proof using Hwf.
  destruct Hwf as [_ Hb]. pose proof (wf_nonempty _ Hb s p) as Hne.
  pose proof (wf_indexed _ Hb s p) as Hix. unfold s_queue in Hix.
  rewrite s_levels_abs, lookup_fmap in Hne, Hix.
  destruct (levels s b !! p) as [l|]; simpl in *.
  - split; [intros _|by eauto]. destruct (live l) as [|i q] eqn:Hl; [done|].
    exists i. apply Hix. set_solver.
  - split; [by intros [? ?]|]. intros (i & o & Ho). exfalso.
    assert (i ∈ ([] : list OrderId)) as Hi by (apply Hix; eauto). by apply elem_of_nil in Hi.
Qed.

Lemma best_price_Some s p :
  fst <$> best_level s b = Some p <->
  (exists i o, id_map b !! i = Some o /\ o_side o = s /\ o_price o = p) /\
  (forall i o, id_map b !! i = Some o -> o_side o = s -> prio s p (o_price o)).
Proof using Hwf.
  rewrite <- level_iff_order. split.
  - intros ([p' l] & Hb & ->)%fmap_Some. apply best_level_Some in Hb as [Hl Hmin]. simpl.
    split; [by exists l|]. intros i o Ho Hs.
    destruct (proj2 (level_iff_order s (o_price o))) as [l' Hl']; [by eauto|]. by eapply Hmin.
  - intros [[l Hl] Hmin]. apply fmap_Some. exists (p, l). split; [|done].
    apply best_level_Some. split; [done|]. intros p' l' Hl'.
    destruct (proj1 (level_iff_order s p')) as (i & o & Ho & Hs & <-); eauto.
Qed.

Lemma best_price_None s :
  fst <$> best_level s b = None <-> forall i o, id_map b !! i = Some o -> o_side o <> s.
Proof using Hwf.
  rewrite fmap_None, best_level_None, map_empty. split.
  - intros Hn i o Ho Hs. destruct (proj2 (level_iff_order s (o_price o))) as [l Hl]; [by eauto|].
    by rewrite Hn in Hl.
  - intros Hn p. apply eq_None_not_Some. intros (i & o & Ho & Hs & _)%level_iff_order. by eapply Hn.
Qed.
End best.

(** [best_bid] is the highest price of a resting buy order and [best_ask]
    the lowest price of a resting sell order; they are absent exactly when the
    side has no order. *)
Theorem best_prices_correct K b :
  book_wf K b ->
  (forall p, best_bid b = Some p <->
    (exists i o, id_map b !! i = Some o /\ o_side o = Buy /\ o_price o = p) /\
    (forall i o, id_map b !! i = Some o -> o_side o = Buy -> o_price o <= p)) /\
  (forall p, best_ask b = Some p <->
    (exists i o, id_map b !! i = Some o /\ o_side o = Sell /\ o_price o = p) /\
    (forall i o, id_map b !! i = Some o -> o_side o = Sell -> p <= o_price o)) /\
  (best_bid b = None <-> forall i o, id_map b !! i = Some o -> o_side o <> Buy) /\
  (best_ask b = None <-> forall i o, id_map b !! i = Some o -> o_side o <> Sell).
Proof.
  intros Hwf. split_ands; intros *.
  - apply (best_price_Some b Hwf Buy).
  - apply (best_price_Some b Hwf Sell).
  - apply (best_price_None b Hwf Buy).
  - apply (best_price_None b Hwf Sell).
Qed.

(** On a book whose orders have prices between 0 and 2^62 and that is not
    crossed, mid price and spread do not overflow; the spread is the
    difference of the best prices and positive, the mid price lies between
    them, and both are absent exactly when a side is empty. *)
Theorem mid_price_and_spread K b :
  book_wf K b ->
  (forall i o, id_map b !! i = Some o -> 0 <= o_price o < 2 ^ 62) ->
  (forall i j x y, id_map b !! i = Some x -> id_map b !! j = Some y ->
    o_side x = Buy -> o_side y = Sell -> o_price x < o_price y) ->
  match best_bid b, best_ask b with
  | Some bb, Some ba =>
      exists m, mid_price b = Ok (Some m) /\ bb <= m < ba /\ 2 * m <= bb + ba <= 2 * m + 1 /\
        spread b = Ok (Some (ba - bb)) /\ 0 < ba - bb
  | _, _ => mid_price b = Ok None /\ spread b = Ok None
  end.
Proof.
  intros Hwf Hr Hun. unfold mid_price, spread.
  destruct (best_bid b) as [bb|] eqn:Hbb; [|done]. destruct (best_ask b) as [ba|] eqn:Hba; [|done].
  apply (best_price_Some b Hwf Buy) in Hbb as [(i & x & Hx & Hxs & <-) _].
  apply (best_price_Some b Hwf Sell) in Hba as [(j & y & Hy & Hys & <-) _].
  pose proof (Hr _ _ Hx) as Hrx. pose proof (Hr _ _ Hy) as Hry. pose proof (Hun _ _ _ _ Hx Hy Hxs Hys) as Hlt.
  unfold i64. rewrite !decide_True by (unfold is_i64; lia). rewrite !bind_ok.
  exists (Z.quot (o_price x + o_price y) 2).
  rewrite Z.quot_div_nonneg by lia.
  pose proof (Z.div_mod (o_price x + o_price y) 2 ltac:(lia)) as Hdm.
  pose proof (Z.mod_pos_bound (o_price x + o_price y) 2 ltac:(lia)).
  split_ands; try done; lia.
Qed.

(** ** Insertion and cancellation *)

Lemma insert_remove o b :
  sbook_wf b -> s_orders b !! o_id o = None -> s_remove o (s_insert o b) = b.
Proof.
  intros Hwf Hfr. assert (o_id o ∉ s_queue (o_side o) (o_price o) b) as Hnq.
  { intros (x & Hx & _)%(wf_indexed _ Hwf). congruence. }
  assert (s_queue (o_side o) (o_price o) (s_insert o b) = s_queue (o_side o) (o_price o) b ++ [o_id o])
    as Hq.
  { unfold s_insert. by rewrite s_queue_set_queue, decide_True. }
  unfold s_remove. rewrite Hq. rewrite filter_app, (filter_all _ (s_queue _ _ b)).
  2: { intros x Hx ->. done. }
  rewrite filter_cons_False, filter_nil, app_nil_r by tauto.
  apply sbook_eq.
  - intros s p. rewrite s_levels_set_queue. case_decide as Hd.
    + destruct Hd as [<- <-]. destruct (s_queue (o_side o) (o_price o) b) eqn:Hqb; rewrite <- ?Hqb.
      * unfold s_queue in Hqb. destruct (s_levels (o_side o) b !! o_price o) as [q|] eqn:Hl; [|done].
        simpl in Hqb. subst q. by apply (wf_nonempty _ Hwf) in Hl.
      * symmetry. apply s_queue_level; [done|]. by rewrite Hqb.
    + rewrite s_levels_set_orders. unfold s_insert, s_put_order.
      rewrite s_levels_set_queue. by rewrite decide_False, s_levels_set_orders.
  - rewrite s_orders_set_queue. simpl. unfold s_insert. rewrite s_orders_set_queue. simpl.
    by rewrite delete_insert_id.
Qed.

(** C18. Inserting a fresh order puts it at the back of the queue of its price
    and leaves every other queue and order as it was; cancelling it again
    succeeds and restores the book. *)
Theorem insert_cancel_roundtrip K b o :
  book_wf K b -> id_map b !! o_id o = None -> o_id o ∉ K ->
  let b1 := insert_order o b in
  id_map b1 = <[o_id o := o]> (id_map b) /\
  (forall s p, s_queue s p (abs_book b1) =
    s_queue s p (abs_book b) ++ (if decide (o_side o = s /\ o_price o = p) then [o_id o] else [])) /\
  (cancel_order (o_id o) b1).1 = true /\
  abs_book (cancel_order (o_id o) b1).2 = abs_book b.
Proof.
  intros Hwf Hfr HK b1. destruct Hwf as [Hok Hb].
  destruct (abs_insert_order o b Hok) as [Habs Hok1]. fold b1 in Habs, Hok1.
  assert (id_map b1 = <[o_id o := o]> (id_map b)) as Hid.
  { change (id_map b1) with (s_orders (abs_book b1)). rewrite Habs.
    unfold s_insert. by rewrite s_orders_set_queue. }
  assert (book_wf K b1) as Hwf1 by (split; [done|]; rewrite Habs; by apply s_insert_wf).
  assert (id_map b1 !! o_id o = Some o) as Ho by (rewrite Hid; apply lookup_insert_eq).
  assert (unmarked (o_id o) b1) as Hum.
  { intros x l Hx Hl Hin. destruct (Hok1 _ _ _ Hl) as (_ & _ & Hsub). set_solver. }
  destruct (abs_cancel_order _ _ _ Hwf1 Ho Hum) as (b' & Hc & Habs' & _).
  rewrite Hc. simpl. split_ands; [done| |done|].
  - intros s p. rewrite Habs. unfold s_insert, s_put_order. rewrite s_queue_set_queue. case_decide as Hd.
    + by destruct Hd as [<- <-].
    + by rewrite app_nil_r, s_queue_set_orders.
  - rewrite Habs', Habs. by apply insert_remove.
Qed.

(** ** Witnesses *)

Definition sample_bid : Order := mkOrder 1 Buy Limit 100 0 10 10 0 0 0 Resting.
Definition sample_ask : Order := mkOrder 2 Sell Limit 105 0 10 10 0 0 0 Resting.
Definition sample_book : OrderBook := insert_order sample_ask (insert_order sample_bid empty_book).

Lemma empty_book_wf : book_wf ∅ empty_book.
Proof. split; [|apply empty_sbook_wf]. intros s p l. by destruct s. Qed.

Lemma sample_book_wf : book_wf ∅ sample_book.
Proof. by apply insert_order_wf; [apply insert_order_wf; [apply empty_book_wf|]|]. Qed.

Lemma sample_orders i o : id_map sample_book !! i = Some o -> o = sample_ask \/ o = sample_bid.
Proof.
  unfold sample_book. simpl. intros [[_ <-]|[_ Hx]]%lookup_insert_Some; [by left|right].
  apply lookup_insert_Some in Hx as [[_ <-]|[_ Hx]]; [done|by rewrite lookup_empty in Hx].
Qed.

Lemma best_prices_correct_witness : best_bid sample_book = Some 100 /\
  forall i o, id_map sample_book !! i = Some o -> o_side o = Buy -> o_price o <= 100.
Proof.
  destruct (best_prices_correct ∅ sample_book sample_book_wf) as (Hb & _).
  split; [by vm_compute|]. apply (Hb 100). by vm_compute.
Defined.

Lemma mid_price_and_spread_witness : exists m, mid_price sample_book = Ok (Some m) /\ 100 <= m < 105.
Proof.
  destruct (mid_price_and_spread ∅ sample_book sample_book_wf) as (m & Hm & Hr & _).
  - by intros i o [->| ->]%sample_orders.
  - by intros i j x y [->| ->]%sample_orders [->| ->]%sample_orders.
  - by exists m.
Defined.

Lemma insert_cancel_roundtrip_witness :
  abs_book (cancel_order 3 (insert_order (mkOrder 3 Buy Limit 100 0 4 4 0 0 0 New) sample_book)).2 =
    abs_book sample_book.
Proof.
  apply (insert_cancel_roundtrip ∅ sample_book (mkOrder 3 Buy Limit 100 0 4 4 0 0 0 New) sample_book_wf).
  - by vm_compute.
  - set_solver.
Defined.
