(* ===== verification/Engine.v ===== *)
(** * MatchingEngine: price-time priority matching

    Model of [src/src/engine/matching_engine.hpp] and [matching_engine.cpp].
    Each function takes the engine and returns the updated engine. The result
    vectors passed by reference are threaded as a value; an [Order&] into the
    book is the key of the order, an [Order&] to a local is threaded.

    [process_new_order] is recursive through the stop orders that its fills
    trigger. The recursion is tied by [fuel], which bounds the nesting depth of
    triggered stops and the iterations of each matching loop; [EngineRefine]
    proves that [fuel_bound] is always enough. *)

From S2P Require Import Prelude Types PriceLevel OrderBook.

Record MatchingEngine := mkEngine {
  book : OrderBook;
  sequence : Z;
  pending_stops : list Order;
}.

Definition new_engine : MatchingEngine := mkEngine empty_book 0 [].

Definition set_book (b : OrderBook) (e : MatchingEngine) : MatchingEngine :=
  mkEngine b (sequence e) (pending_stops e).
Definition set_pending (l : list Order) (e : MatchingEngine) : MatchingEngine :=
  mkEngine (book e) (sequence e) l.

(** [best_ask_level()] for a buyer, [best_bid_level()] for a seller. *)
Definition passive_best (a : Order) (b : OrderBook) : option (Price * PriceLevel) :=
  if is_buy a then best_ask_level b else best_bid_level b.
Definition passive_side (a : Order) : Side := if is_buy a then Sell else Buy.

(** [stop.is_buy() && last_price >= stop.stop_price] or the converse test of a
    sell stop. *)
Definition stop_triggered (last_price : Price) (stop : Order) : bool :=
  (is_buy stop && bool_decide (last_price >= o_stop_price stop))
  || (is_sell stop && bool_decide (last_price <= o_stop_price stop)).

(** ** Iceberg replenishment *)

Definition replenish_iceberg (id : OrderId) (passive : Order) (filled_qty : Quantity)
    (b : OrderBook) : res OrderBook :=
  let s := o_side passive in
  let p := o_price passive in
  match get_level s p b with
  | None => Ok b
  | Some level =>
      level ← pop_front filled_qty level;
      let b := put_level s p level b in
      let new_peak := Z.min (o_peak_qty passive) (o_reserve_qty passive) in
      let passive := set_reserve_qty (u64 (o_reserve_qty passive - new_peak)) passive in
      let passive := set_quantity new_peak passive in
      let b := put_order id passive b in
      let b := put_level s p (push_back (o_id passive) new_peak level) b in
      Ok (update_order_quantity (o_id passive) new_peak b)
  end.

Section recursion.
(** The nested call of [process_new_order] for a triggered stop. *)
Variable process_new_order_rec : MatchingEngine -> Order -> res (MatchingEngine * MatchResult).

(** ** Stop orders *)

Definition process_triggered_stop (stop : Order) (e : MatchingEngine) (result : MatchResult)
    : res (MatchingEngine * MatchResult) :=
  let stop := set_status Triggered stop in
  let converted :=
    if decide (o_type stop = Stop) then set_price 0 (set_type Market stop)
    else set_type Limit stop in
  '(e, sub_result) ← process_new_order_rec e converted;
  Ok (e, append_result result sub_result).

(** The loop over [working]. *)
Fixpoint trigger_loop (last_price : Price) (working : list Order) (e : MatchingEngine)
    (result : MatchResult) : res (MatchingEngine * MatchResult) :=
  match working with
  | [] => Ok (e, result)
  | stop :: working =>
      '(e, result) ←
        (if stop_triggered last_price stop then process_triggered_stop stop e result
         else Ok (set_pending (pending_stops e ++ [stop]) e, result));
      trigger_loop last_price working e result
  end.

Definition evaluate_stop_triggers (e : MatchingEngine) (result : MatchResult)
    : res (MatchingEngine * MatchResult) :=
  if decide (pending_stops e = []) then Ok (e, result)
  else
    let last_price := last_trade_price (book e) in
    if decide (last_price = 0) then Ok (e, result)
    else trigger_loop last_price (pending_stops e) (set_pending [] e) result.

(** ** Fill execution *)

(** The part of [execute_fill] before the stop evaluation: the aggressor, the
    book and the trade. [passive] is the order stored at [passive_id]. *)
Definition apply_fill (aggressor : Order) (passive_id : OrderId) (passive : Order)
    (fill_qty : Quantity) (b : OrderBook) : res (OrderBook * Order * Trade) :=
  let fill_price := o_price passive in
  let aggressor := set_quantity (u64 (o_quantity aggressor - fill_qty)) aggressor in
  let passive := set_quantity (u64 (o_quantity passive - fill_qty)) passive in
  let b := put_order passive_id passive b in
  let b := set_last_trade_price fill_price b in
  let trade := mkTrade (o_id aggressor) (o_id passive) fill_price fill_qty 0
    (if is_buy aggressor then ABuy else ASell) in
  b ←
    (if decide (o_quantity passive = 0) then
       if is_iceberg passive && bool_decide (0 < o_reserve_qty passive) then
         replenish_iceberg passive_id passive fill_qty b
       else
         let b := put_order passive_id (set_status Filled passive) b in
         Ok (cancel_order (o_id passive) b).2
     else
       let b := reduce_level_volume (o_side passive) (o_price passive) fill_qty b in
       Ok (update_order_quantity (o_id passive) (o_quantity passive) b));
  Ok (b, aggressor, trade).

Definition execute_fill (aggressor : Order) (passive_id : OrderId) (passive : Order)
    (fill_qty : Quantity) (e : MatchingEngine) (result : MatchResult)
    : res (MatchingEngine * Order * MatchResult) :=
  '(b, aggressor, trade) ← apply_fill aggressor passive_id passive fill_qty (book e);
  '(e, result) ← evaluate_stop_triggers (set_book b e) (push_trade trade result);
  Ok (e, aggressor, result).

(** [passive_level->front()], [find_order_mut] and the fill. *)
Definition fill_front (aggressor : Order) (key : Price) (level : PriceLevel) (e : MatchingEngine)
    (result : MatchResult) : res (MatchingEngine * Order * MatchResult) :=
  '(passive_id, level) ← front level;
  let e := set_book (put_level (passive_side aggressor) key level (book e)) e in
  match find_order_mut passive_id (book e) with
  | None => Crash NullDeref
  | Some passive =>
      let fill_qty := Z.min (o_quantity aggressor) (o_quantity passive) in
      execute_fill aggressor passive_id passive fill_qty e result
  end.

(** ** Matching loops *)

Fixpoint match_limit_loop (fuel : nat) (aggressor : Order) (e : MatchingEngine)
    (result : MatchResult) : res (MatchingEngine * Order * MatchResult) :=
  match fuel with
  | O => NoFuel
  | S fuel =>
      if decide (0 < o_quantity aggressor) then
        match passive_best aggressor (book e) with
        | None => Ok (e, aggressor, result)
        | Some (key, level) =>
            if is_buy aggressor && bool_decide (pl_price level > o_price aggressor) then
              Ok (e, aggressor, result)
            else if is_sell aggressor && bool_decide (pl_price level < o_price aggressor) then
              Ok (e, aggressor, result)
            else
              '(e, aggressor, result) ← fill_front aggressor key level e result;
              match_limit_loop fuel aggressor e result
        end
      else Ok (e, aggressor, result)
  end.

Definition mark_filled (o : Order) : Order :=
  if decide (o_quantity o = 0) then set_status Filled o else o.

Definition match_limit (fuel : nat) (aggressor : Order) (e : MatchingEngine)
    (result : MatchResult) : res (MatchingEngine * Order * MatchResult) :=
  '(e, aggressor, result) ← match_limit_loop fuel aggressor e result;
  Ok (e, mark_filled aggressor, result).

Fixpoint match_market_loop (fuel : nat) (aggressor : Order) (e : MatchingEngine)
    (result : MatchResult) : res (MatchingEngine * Order * MatchResult) :=
  match fuel with
  | O => NoFuel
  | S fuel =>
      if decide (0 < o_quantity aggressor) then
        match passive_best aggressor (book e) with
        | None =>
            let rej := mkRejection (o_id aggressor) MarketExhausted 0 in
            Ok (e, set_status Cancelled aggressor, push_rejection rej result)
        | Some (key, level) =>
            '(e, aggressor, result) ← fill_front aggressor key level e result;
            match_market_loop fuel aggressor e result
        end
      else Ok (e, aggressor, result)
  end.

Definition match_market (fuel : nat) (aggressor : Order) (e : MatchingEngine)
    (result : MatchResult) : res (MatchingEngine * Order * MatchResult) :=
  '(e, aggressor, result) ← match_market_loop fuel aggressor e result;
  Ok (e, mark_filled aggressor, result).

(** ** New orders *)

Definition immediately_triggered (order : Order) (b : OrderBook) : bool :=
  bool_decide (last_trade_price b <> 0) && stop_triggered (last_trade_price b) order.

(** [reserve_qty = quantity - peak_qty; quantity = peak_qty] *)
Definition split_iceberg (order : Order) : Order :=
  set_quantity (o_peak_qty order)
    (set_reserve_qty (u64 (o_quantity order - o_peak_qty order)) order).

Definition process_new_order_body (fuel : nat) (e : MatchingEngine) (o : Order)
    : res (MatchingEngine * MatchResult) :=
  let result := empty_result in
  let order := set_status Resting o in
  match o_type order with
  | Limit =>
      '(e, order, result) ← match_limit fuel order e result;
      Ok (if decide (0 < o_quantity order) then set_book (insert_order order (book e)) e else e,
          result)
  | Market =>
      '(e, order, result) ← match_market fuel order e result;
      Ok (e, result)
  | Stop | StopLimit =>
      if immediately_triggered order (book e) then process_triggered_stop order e result
      else Ok (set_pending (pending_stops e ++ [order]) e, result)
  | Iceberg =>
      let order := split_iceberg order in
      '(e, order, result) ← match_limit fuel order e result;
      Ok (if decide (0 < o_quantity order \/ 0 < o_reserve_qty order)
          then set_book (insert_order order (book e)) e else e,
          result)
  end.
End recursion.

Fixpoint process_new_order (fuel : nat) (e : MatchingEngine) (o : Order)
    : res (MatchingEngine * MatchResult) :=
  match fuel with
  | O => NoFuel
  | S fuel' => process_new_order_body (process_new_order fuel') fuel e o
  end.

(** ** Cancel, modify, replace *)

Definition reject (id : OrderId) (reason : RejectReason) (ts : Timestamp) : MatchResult :=
  push_rejection (mkRejection id reason ts) empty_result.

Definition cancel_report (id : OrderId) (remaining : Quantity) (ts : Timestamp) : MatchResult :=
  push_report (mkReport id Cancelled 0 remaining 0 ts) empty_result.

Definition process_cancel (e : MatchingEngine) (id : OrderId) (ts : Timestamp)
    : MatchingEngine * MatchResult :=
  match list_find (fun stop => o_id stop = id) (pending_stops e) with
  | Some (i, stop) =>
      (set_pending (delete i (pending_stops e)) e, cancel_report id (o_quantity stop) ts)
  | None =>
      match find_order id (book e) with
      | None => (e, reject id OrderNotFound ts)
      | Some order =>
          if is_resting order then
            (set_book (cancel_order id (book e)).2 e, cancel_report id (o_quantity order) ts)
          else (e, reject id OrderNotCancellable ts)
      end
  end.

Definition process_modify (e : MatchingEngine) (m : ModifyOrderEvent)
    : MatchingEngine * MatchResult :=
  match find_order (m_order_id m) (book e) with
  | None => (e, reject (m_order_id m) OrderNotFound 0)
  | Some order =>
      if is_resting order then
        let price_changed :=
          bool_decide (m_new_price m <> 0) && bool_decide (m_new_price m <> o_price order) in
        let qty_increased :=
          bool_decide (m_new_quantity m <> 0) && bool_decide (m_new_quantity m > o_quantity order) in
        if price_changed || qty_increased then
          let b := (cancel_order (m_order_id m) (book e)).2 in
          let order := if decide (m_new_price m <> 0) then set_price (m_new_price m) order else order in
          let order :=
            if decide (m_new_quantity m <> 0) then set_quantity (m_new_quantity m) order else order in
          let order := set_timestamp (m_timestamp m) order in
          (set_book (insert_order order b) e, empty_result)
        else if decide (m_new_quantity m <> 0 /\ m_new_quantity m < o_quantity order) then
          let delta := u64 (o_quantity order - m_new_quantity m) in
          let b := update_order_quantity (m_order_id m) (m_new_quantity m) (book e) in
          (set_book (reduce_level_volume (o_side order) (o_price order) delta b) e, empty_result)
        else (e, empty_result)
      else (e, reject (m_order_id m) OrderNotCancellable 0)
  end.

Definition process_replace (fuel : nat) (e : MatchingEngine) (old_id : OrderId) (new_order : Order)
    : res (MatchingEngine * MatchResult) :=
  if has_order old_id (book e) then
    let e := set_book (cancel_order old_id (book e)).2 e in
    '(e, new_result) ← process_new_order fuel e new_order;
    Ok (e, append_result empty_result new_result)
  else Ok (e, reject old_id OrderNotFound 0).

Definition submit (fuel : nat) (e : MatchingEngine) (ev : OrderEvent)
    : res (MatchingEngine * MatchResult) :=
  let e := mkEngine (book e) (u64 (sequence e + 1)) (pending_stops e) in
  match ev with
  | NewOrderEvent o => process_new_order fuel e o
  | CancelOrderEvent id ts => Ok (process_cancel e id ts)
  | ModifyOrder m => Ok (process_modify e m)
  | ReplaceOrderEvent old o => process_replace fuel e old o
  end.

(** A sequence of submissions, with the results in order. *)
Fixpoint submit_all (fuel : nat) (e : MatchingEngine) (evs : list OrderEvent)
    : res (MatchingEngine * list MatchResult) :=
  match evs with
  | [] => Ok (e, [])
  | ev :: evs =>
      '(e, r) ← submit fuel e ev;
      '(e, rs) ← submit_all fuel e evs;
      Ok (e, r :: rs)
  end.
