(* ===== verification/Market.v ===== *)
(** * Market: the abstract price-time priority machine

    The specification that [MatchingEngine] implements: a deterministic machine
    over books of plain queues (no lazy deletion, no level volumes) and an
    explicit stack of the orders being processed. [EngineRefine] proves that
    the engine refines it; the invariants of trading are proved here by rule
    induction on [step]. *)

From S2P Require Import Prelude Types PriceLevel OrderBook Engine.

(** What is being processed: [Active] orders look for liquidity or for their
    place; [Queued lp] stops wait to be tested against the trade price [lp]
    that woke them. The top of the stack acts. *)
Inductive entry :=
| Active (o : Order)
| Queued (last_price : Price) (o : Order).

Definition entry_order (x : entry) : Order := match x with Active o | Queued _ o => o end.

Record market := mkMarket {
  mk_book : sbook;
  mk_ltp : Price;
  mk_pending : list Order;
  mk_stack : list entry;
  mk_result : MatchResult;
}.

(** ** Guards *)

Definition is_stop (o : Order) : Prop := o_type o = Stop \/ o_type o = StopLimit.
#[global] Instance is_stop_dec o : Decision (is_stop o).
Proof. unfold is_stop. apply _. Defined.

(** A limit order accepts the prices up to its limit; a market order any. *)
Definition accepts (a : Order) (p : Price) : Prop :=
  o_type a = Market \/ match o_side a with Buy => p <= o_price a | Sell => o_price a <= p end.
#[global] Instance accepts_dec a p : Decision (accepts a p).
Proof. unfold accepts. destruct (o_side a); apply _. Defined.

(** The aggressor has nothing left to trade, or nobody to trade with. *)
Definition done_matching (a : Order) (b : sbook) : Prop :=
  o_quantity a <= 0 \/
  forall p q, s_best (opposite (o_side a)) b = Some (p, q) -> ~ accepts a p.

(** ** Order conversions *)

(** How an order enters matching: icebergs show their peak. *)
Definition prepare (o : Order) : Order :=
  let o := set_status Resting o in
  if decide (o_type o = Iceberg) then split_iceberg o else o.

(** A triggered stop becomes a market order, a stop-limit a limit order. *)
Definition convert (o : Order) : Order :=
  let o := set_status Triggered o in
  if decide (o_type o = Stop) then set_price 0 (set_type Market o) else set_type Limit o.

(** ** Fills *)

Definition new_peak (o : Order) : Quantity := Z.min (o_peak_qty o) (o_reserve_qty o).

(** [fill] units are taken from the order [o] at the front of its queue, whose
    other ids are [rest]: a partially filled order keeps its place, a filled
    iceberg with reserve shows a new peak at the back, a filled order leaves. *)
Definition s_fill (o : Order) (rest : list OrderId) (fill : Quantity) (b : sbook) : sbook :=
  let o' := set_quantity (o_quantity o - fill) o in
  if decide (o_quantity o' = 0) then
    if is_iceberg o && bool_decide (0 < o_reserve_qty o) then
      s_set_queue (o_side o) (o_price o) (rest ++ [o_id o])
        (s_put_order (o_id o)
           (set_quantity (new_peak o) (set_reserve_qty (o_reserve_qty o - new_peak o) o')) b)
    else s_remove o b
  else s_put_order (o_id o) o' b.

Definition fill_trade (a o : Order) (fill : Quantity) : Trade :=
  mkTrade (o_id a) (o_id o) (o_price o) fill 0 (if is_buy a then ABuy else ASell).

(** The stops that a trade at [p] wakes; the price 0 means no trade. *)
Definition wake (p : Price) (pending : list Order) (st : list entry) : list entry :=
  if decide (p = 0) then st else map (Queued p) pending ++ st.
Definition asleep (p : Price) (pending : list Order) : list Order :=
  if decide (p = 0) then pending else [].

Definition exhausted (a : Order) : Rejection := mkRejection (o_id a) MarketExhausted 0.

(** Where a limit or iceberg order that is done matching goes. *)
Definition settle (a : Order) (b : sbook) : sbook :=
  if decide (0 < o_quantity a \/ (o_type a = Iceberg /\ 0 < o_reserve_qty a))
  then s_insert (mark_filled a) b else b.

(** ** The machine *)

Inductive step : market -> market -> Prop :=
| step_fill b ltp pend a st r p i rest o fill :
    ~ is_stop a -> 0 < o_quantity a ->
    s_best (opposite (o_side a)) b = Some (p, i :: rest) ->
    accepts a p ->
    s_orders b !! i = Some o ->
    fill = Z.min (o_quantity a) (o_quantity o) ->
    step (mkMarket b ltp pend (Active a :: st) r)
      (mkMarket (s_fill o rest fill b) p (asleep p pend)
         (wake p pend (Active (set_quantity (o_quantity a - fill) a) :: st))
         (push_trade (fill_trade a o fill) r))
| step_settle b ltp pend a st r :
    o_type a = Limit \/ o_type a = Iceberg ->
    done_matching a b ->
    step (mkMarket b ltp pend (Active a :: st) r) (mkMarket (settle a b) ltp pend st r)
| step_market_filled b ltp pend a st r :
    o_type a = Market -> o_quantity a <= 0 ->
    step (mkMarket b ltp pend (Active a :: st) r) (mkMarket b ltp pend st r)
| step_market_exhausted b ltp pend a st r :
    o_type a = Market -> 0 < o_quantity a ->
    s_best (opposite (o_side a)) b = None ->
    step (mkMarket b ltp pend (Active a :: st) r)
      (mkMarket b ltp pend st (push_rejection (exhausted a) r))
| step_stop_pending b ltp pend a st r :
    is_stop a -> ltp = 0 \/ stop_triggered ltp a = false ->
    step (mkMarket b ltp pend (Active a :: st) r) (mkMarket b ltp (pend ++ [a]) st r)
| step_stop_immediate b ltp pend a st r :
    is_stop a -> ltp <> 0 -> stop_triggered ltp a = true ->
    step (mkMarket b ltp pend (Active a :: st) r)
      (mkMarket b ltp pend (Active (prepare (convert a)) :: st) r)
| step_queued_pending b ltp pend lp a st r :
    stop_triggered lp a = false ->
    step (mkMarket b ltp pend (Queued lp a :: st) r) (mkMarket b ltp (pend ++ [a]) st r)
| step_queued_trigger b ltp pend lp a st r :
    stop_triggered lp a = true ->
    step (mkMarket b ltp pend (Queued lp a :: st) r)
      (mkMarket b ltp pend (Active (prepare (convert a)) :: st) r).

Definition steps : market -> market -> Prop := rtc step.

(** The abstraction of an engine in the middle of a call. *)
Definition mstate (e : MatchingEngine) (st : list entry) (r : MatchResult) : market :=
  mkMarket (abs_book (book e)) (last_trade_price (book e)) (pending_stops e) st r.

(** ** Well-formed states *)

(** Ids of the orders that are not in the book. *)
Definition outside_ids (pend : list Order) (st : list entry) : list OrderId :=
  map o_id pend ++ map (fun x => o_id (entry_order x)) st.

Definition qty_ranges (o : Order) : Prop :=
  is_u64 (o_quantity o) /\ is_u64 (o_peak_qty o) /\ is_u64 (o_reserve_qty o).

Record market_wf (m : market) : Prop := {
  mwf_book : sbook_wf (mk_book m);
  mwf_ids : NoDup (outside_ids (mk_pending m) (mk_stack m));
  mwf_fresh : forall i, i ∈ outside_ids (mk_pending m) (mk_stack m) -> s_orders (mk_book m) !! i = None;
  mwf_orders : forall i o, s_orders (mk_book m) !! i = Some o -> qty_ranges o;
  mwf_pending : Forall qty_ranges (mk_pending m);
  mwf_stack : Forall (fun x => qty_ranges (entry_order x)) (mk_stack m);
}.

(** ** The measure that bounds the work left *)

Definition weight (o : Order) : Z :=
  o_quantity o + (if decide (o_type o = Limit \/ o_type o = Market) then 0 else 1).
Definition zero_qty (o : Order) : Z := if decide (o_quantity o = 0) then 1 else 0.
Definition measure (m : market) : Z :=
  msum zero_qty (s_orders (mk_book m)) + zsum weight (mk_pending m) +
  zsum (fun x => weight (entry_order x)) (mk_stack m).

(** ** Conversions keep identity and ranges *)

Lemma prepare_id o : o_id (prepare o) = o_id o.
Proof. unfold prepare. by case_decide. Qed.
Lemma prepare_side o : o_side (prepare o) = o_side o.
Proof. unfold prepare. by case_decide. Qed.
Lemma prepare_type o : o_type (prepare o) = o_type o.
Proof. unfold prepare. by case_decide. Qed.
Lemma prepare_price o : o_price (prepare o) = o_price o.
Proof. unfold prepare. by case_decide. Qed.
Lemma convert_id o : o_id (convert o) = o_id o.
Proof. unfold convert. by case_decide. Qed.
Lemma convert_type o : o_type (convert o) = Limit \/ o_type (convert o) = Market.
Proof. unfold convert. case_decide; auto. Qed.
Lemma convert_quantity o : o_quantity (convert o) = o_quantity o.
Proof. unfold convert. by case_decide. Qed.
Lemma mark_filled_id o : o_id (mark_filled o) = o_id o.
Proof. unfold mark_filled. by case_decide. Qed.
Lemma mark_filled_side o : o_side (mark_filled o) = o_side o.
Proof. unfold mark_filled. by case_decide. Qed.
Lemma mark_filled_price o : o_price (mark_filled o) = o_price o.
Proof. unfold mark_filled. by case_decide. Qed.
Lemma mark_filled_quantity o : o_quantity (mark_filled o) = o_quantity o.
Proof. unfold mark_filled. by case_decide. Qed.

#[export] Hint Rewrite prepare_id prepare_side prepare_type prepare_price convert_id
  convert_quantity mark_filled_id mark_filled_side mark_filled_price mark_filled_quantity : orders.

Lemma prepare_convert_quantity o : o_quantity (prepare (convert o)) = o_quantity o.
Proof.
  unfold prepare. rewrite decide_False; [apply convert_quantity|].
  destruct (convert_type o) as [Ht|Ht]; simpl; rewrite Ht; done.
Qed.

Lemma prepare_ranges o : qty_ranges o -> qty_ranges (prepare o).
Proof.
  unfold prepare, qty_ranges. case_decide; simpl; [|done]. intros (? & ? & ?).
  split_ands; try done. apply u64_range.
Qed.

Lemma convert_ranges o : qty_ranges o -> qty_ranges (convert o).
Proof. unfold convert, qty_ranges. by case_decide. Qed.

Lemma mark_filled_ranges o : qty_ranges o -> qty_ranges (mark_filled o).
Proof. unfold mark_filled, qty_ranges. by case_decide. Qed.

Lemma set_quantity_ranges q o : qty_ranges o -> 0 <= q <= o_quantity o -> qty_ranges (set_quantity q o).
Proof. unfold qty_ranges. simpl. intros (? & ? & ?) ?. split_ands; try done. u64_lia. Qed.

#[export] Hint Resolve prepare_ranges convert_ranges mark_filled_ranges : lob.

Lemma weight_nonneg o : qty_ranges o -> 0 <= weight o.
Proof. unfold weight, qty_ranges, is_u64. intros. case_decide; lia. Qed.

Lemma weight_prepare_convert o : weight (prepare (convert o)) <= weight o.
Proof.
  unfold weight. rewrite prepare_convert_quantity, prepare_type.
  rewrite decide_True by apply convert_type. case_decide; lia.
Qed.

Lemma weight_stop_convert o : is_stop o -> weight (prepare (convert o)) < weight o.
Proof.
  intros Hs. unfold weight. rewrite prepare_convert_quantity, prepare_type.
  rewrite decide_True by apply convert_type. rewrite decide_False; [lia|].
  destruct Hs; intros [?|?]; congruence.
Qed.

(** ** Fills in the book of queues *)

(** The best queue of a side and the order at its front. *)
Lemma best_front s b p i rest o :
  sbook_wf b -> s_best s b = Some (p, i :: rest) -> s_orders b !! i = Some o ->
  o_id o = i /\ o_side o = s /\ o_price o = p /\ s_queue s p b = i :: rest.
Proof.
  intros Hwf [Hl _]%s_best_Some Ho.
  assert (s_queue s p b = i :: rest) as Hq by (by apply s_level_queue).
  assert (i ∈ s_queue s p b) as Hin by (rewrite Hq; set_solver).
  apply (wf_indexed _ Hwf) in Hin as (o0 & Ho0 & Hs & Hp). assert (o0 = o) as -> by congruence.
  split_ands; try done. by apply (wf_key _ Hwf).
Qed.

Lemma best_nonempty s b p q : sbook_wf b -> s_best s b = Some (p, q) -> q <> [].
Proof. intros Hwf [Hl _]%s_best_Some ->. by apply (wf_nonempty _ Hwf) in Hl. Qed.

Section fill.
Context (o : Order) (rest : list OrderId) (fill : Quantity) (b : sbook).
Context (Hwf : sbook_wf b) (Ho : s_orders b !! o_id o = Some o).
Context (Hq : s_queue (o_side o) (o_price o) b = o_id o :: rest).

Lemma s_fill_wf : sbook_wf (s_fill o rest fill b).
Proof.
  unfold s_fill. case_decide.
  - destruct (_ && _); [|by apply s_remove_wf].
    apply s_set_queue_perm_wf; [by eapply s_put_order_wf|].
    unfold s_put_order. rewrite s_queue_set_orders, Hq. by rewrite <- Permutation_cons_append.
  - by eapply s_put_order_wf.
Qed.

(** The orders after a fill: the other orders are unchanged, the filled one
    is updated or gone. *)
Lemma s_fill_orders i :
  i <> o_id o -> s_orders (s_fill o rest fill b) !! i = s_orders b !! i.
Proof.
  intros Hi. unfold s_fill, s_remove. case_decide; [destruct (_ && _)|]; simpl;
    rewrite ?s_orders_set_queue; simpl; by rewrite ?lookup_insert_ne, ?lookup_delete_ne by done.
Qed.

Lemma s_fill_ranges :
  (forall i x, s_orders b !! i = Some x -> qty_ranges x) ->
  0 <= fill <= o_quantity o ->
  forall i x, s_orders (s_fill o rest fill b) !! i = Some x -> qty_ranges x.
Proof.
  intros Hr Hf i x. destruct (decide (i = o_id o)) as [->|Hi].
  2: { rewrite s_fill_orders by done. apply Hr. }
  specialize (Hr _ _ Ho). unfold s_fill, s_remove. case_decide; [destruct (_ && _)|]; simpl;
    rewrite ?s_orders_set_queue; simpl; rewrite ?lookup_insert_eq, ?lookup_delete_eq; intros; simplify_eq.
  - unfold qty_ranges, new_peak in *. simpl. u64_lia.
  - apply set_quantity_ranges; [done|lia].
Qed.

Lemma s_fill_zero :
  msum zero_qty (s_orders (s_fill o rest fill b)) = msum zero_qty (s_orders b) - zero_qty o.
Proof.
  unfold s_fill, s_remove. case_decide as Hz; [destruct (_ && _) eqn:Hi|]; simpl;
    rewrite ?s_orders_set_queue; simpl.
  - rewrite (msum_update _ _ _ _ _ Ho). apply andb_true_iff in Hi as [Hi Hr].
    unfold is_iceberg in Hi. apply bool_decide_eq_true in Hi, Hr.
    unfold zero_qty at 3. rewrite decide_False; [lia|]. unfold new_peak. simpl. lia.
  - by rewrite (msum_delete _ _ _ _ Ho).
  - rewrite (msum_update _ _ _ _ _ Ho). unfold zero_qty at 3. rewrite decide_False by done. lia.
Qed.
End fill.

(** ** Ids outside the book *)

Lemma outside_ids_wake p pend st :
  outside_ids (asleep p pend) (wake p pend st) ≡ₚ outside_ids pend st.
Proof.
  unfold wake, asleep, outside_ids. case_decide; [done|].
  by rewrite map_app, map_map.
Qed.

Lemma outside_ids_active pend a a' st :
  o_id a' = o_id a -> outside_ids pend (Active a' :: st) = outside_ids pend (Active a :: st).
Proof. unfold outside_ids. simpl. by intros ->. Qed.

Lemma outside_ids_park pend x st :
  outside_ids (pend ++ [entry_order x]) st ≡ₚ outside_ids pend (x :: st).
Proof. unfold outside_ids. rewrite map_app. simpl. rewrite <- app_assoc. done. Qed.

Lemma outside_ids_pop pend x st :
  outside_ids pend (x :: st) ≡ₚ o_id (entry_order x) :: outside_ids pend st.
Proof. unfold outside_ids. simpl. by rewrite Permutation_middle. Qed.

Lemma zsum_wake (f : Order -> Z) p pend st :
  zsum f (asleep p pend) + zsum (fun x => f (entry_order x)) (wake p pend st) =
  zsum f pend + zsum (fun x => f (entry_order x)) st.
Proof.
  unfold wake, asleep. case_decide; [done|]. rewrite zsum_app. simpl.
  assert (zsum (fun x => f (entry_order x)) (map (Queued p) pend) = zsum f pend) as ->;
    [|lia]. by induction pend; simpl; f_equal.
Qed.

(** ** Every step keeps the state well-formed and does not add work *)

Lemma stack_ranges_wake p pend st :
  Forall qty_ranges pend -> Forall (fun x => qty_ranges (entry_order x)) st ->
  Forall qty_ranges (asleep p pend) /\
  Forall (fun x => qty_ranges (entry_order x)) (wake p pend st).
Proof.
  intros Hp Hs. unfold asleep, wake. case_decide; [done|]. split; [done|].
  apply Forall_app. split; [|done]. by apply Forall_map.
Qed.

Lemma market_wf_top b ltp ltp' pend a a' st r r' :
  market_wf (mkMarket b ltp pend (a :: st) r) ->
  o_id (entry_order a') = o_id (entry_order a) ->
  (qty_ranges (entry_order a) -> qty_ranges (entry_order a')) ->
  market_wf (mkMarket b ltp' pend (a' :: st) r').
Proof.
  intros [Hb Hi Hf Ho Hp Hs] Hid Hq. simpl in *.
  assert (outside_ids pend (a' :: st) = outside_ids pend (a :: st)) as Heq.
  { unfold outside_ids. simpl. by rewrite Hid. }
  apply Forall_cons in Hs as [Ha Hs].
  split; simpl; rewrite ?Heq; try done. constructor; [by apply Hq|done].
Qed.

Lemma market_wf_pop b ltp pend a st r r' :
  market_wf (mkMarket b ltp pend (a :: st) r) -> market_wf (mkMarket b ltp pend st r').
Proof.
  intros [Hb Hi Hf Ho Hp Hs]. simpl in *. apply Forall_cons in Hs as [Ha Hs].
  rewrite outside_ids_pop in Hi. apply NoDup_cons in Hi as [Hn Hi].
  split; simpl; try done. intros i Hin. apply Hf. rewrite outside_ids_pop. set_solver.
Qed.

Lemma market_wf_park b ltp pend a st r :
  market_wf (mkMarket b ltp pend (a :: st) r) ->
  market_wf (mkMarket b ltp (pend ++ [entry_order a]) st r).
Proof.
  intros [Hb Hi Hf Ho Hp Hs]. simpl in *. apply Forall_cons in Hs as [Ha Hs].
  split; simpl; try done.
  - by rewrite outside_ids_park.
  - intros i. rewrite outside_ids_park. apply Hf.
  - apply Forall_app. by split; [|constructor].
Qed.

Lemma market_wf_settle b ltp pend a st r :
  market_wf (mkMarket b ltp pend (Active a :: st) r) ->
  market_wf (mkMarket (settle a b) ltp pend st r).
Proof.
  intros Hwf. pose proof (market_wf_pop _ _ _ _ _ _ r Hwf) as [Hb Hi Hf Ho Hp Hs].
  destruct Hwf as [_ Hi' Hf' _ _ Hs']. simpl in *. unfold settle.
  case_decide; [|by split]. apply Forall_cons in Hs' as [Ha _]. simpl in Ha.
  assert (s_orders b !! o_id a = None) as Hfresh.
  { apply Hf'. rewrite outside_ids_pop. set_solver. }
  split; simpl; try done.
  - apply s_insert_wf; [done|]. by rewrite mark_filled_id.
  - intros i Hin. unfold s_insert. rewrite s_orders_set_queue, mark_filled_id. simpl.
    rewrite outside_ids_pop in Hi'. apply NoDup_cons in Hi' as [Hn _]. simpl in Hn.
    rewrite lookup_insert_ne by set_solver. by apply Hf.
  - intros i o. unfold s_insert. rewrite s_orders_set_queue. simpl.
    intros [[_ <-]|[_ Hin]]%lookup_insert_Some; [by apply mark_filled_ranges|eauto].
Qed.

Lemma market_wf_fill b ltp pend a st r r' p i rest o fill :
  market_wf (mkMarket b ltp pend (Active a :: st) r) ->
  0 < o_quantity a ->
  s_best (opposite (o_side a)) b = Some (p, i :: rest) ->
  s_orders b !! i = Some o ->
  fill = Z.min (o_quantity a) (o_quantity o) ->
  market_wf (mkMarket (s_fill o rest fill b) p (asleep p pend)
    (wake p pend (Active (set_quantity (o_quantity a - fill) a) :: st)) r').
Proof.
  intros [Hb Hi Hf Ho Hp Hs] Hqa Hbest Hio ->. simpl in *.
  destruct (best_front _ _ _ _ _ _ Hb Hbest Hio) as (Hid & Hside & Hprice & Hqueue).
  rewrite <- Hside, <- Hprice in Hqueue. subst i. apply Forall_cons in Hs as [Ha Hs].
  pose proof (Ho _ _ Hio) as Hro. simpl in Ha.
  assert (0 <= Z.min (o_quantity a) (o_quantity o) <= o_quantity o) as Hfill.
  { destruct Hro as (? & _). u64_lia. }
  destruct (stack_ranges_wake p pend
    (Active (set_quantity (o_quantity a - Z.min (o_quantity a) (o_quantity o)) a) :: st) Hp)
    as [Hp' Hs'].
  { constructor; [|done]. simpl. apply set_quantity_ranges; [done|].
    destruct Ha as (? & _). u64_lia. }
  split; simpl; try done.
  - by apply s_fill_wf.
  - rewrite outside_ids_wake. by erewrite outside_ids_active by done.
  - intros j. rewrite outside_ids_wake. erewrite outside_ids_active by done. intros Hj.
    rewrite s_fill_orders by (try done; intros ->; apply Hf in Hj; congruence). by apply Hf.
  - by apply s_fill_ranges.
Qed.

Lemma step_wf m m' : step m m' -> market_wf m -> market_wf m'.
Proof.
  intros Hstep Hwf. destruct Hstep.
  - by eapply market_wf_fill.
  - by eapply market_wf_settle.
  - by eapply market_wf_pop.
  - by eapply market_wf_pop.
  - by eapply (market_wf_park _ _ _ (Active a)).
  - eapply market_wf_top; [done| |]; simpl; autorewrite with orders; eauto with lob.
  - by eapply (market_wf_park _ _ _ (Queued lp a)).
  - eapply market_wf_top; [done| |]; simpl; autorewrite with orders; eauto with lob.
Qed.

Lemma steps_wf m m' : steps m m' -> market_wf m -> market_wf m'.
Proof. induction 1; eauto using step_wf. Qed.

(** ** The measure *)

Lemma measure_nonneg m : market_wf m -> 0 <= measure m.
Proof.
  intros [_ _ _ Ho Hp Hs]. unfold measure. rewrite Forall_forall in Hp. rewrite Forall_forall in Hs.
  assert (0 <= msum zero_qty (s_orders (mk_book m))).
  { apply msum_nonneg. intros k o _. unfold zero_qty. case_decide; lia. }
  assert (0 <= zsum weight (mk_pending m)).
  { apply zsum_nonneg. intros o Hin. by apply weight_nonneg, Hp. }
  assert (0 <= zsum (fun x => weight (entry_order x)) (mk_stack m)); [|lia].
  apply zsum_nonneg. intros x Hin. by apply weight_nonneg, Hs.
Qed.

Lemma weight_set_quantity q o : weight (set_quantity q o) = weight o - o_quantity o + q.
Proof. unfold weight. simpl. lia. Qed.

Lemma fill_measure b ltp pend a st r r' p i rest o fill :
  market_wf (mkMarket b ltp pend (Active a :: st) r) ->
  0 < o_quantity a ->
  s_best (opposite (o_side a)) b = Some (p, i :: rest) ->
  s_orders b !! i = Some o ->
  fill = Z.min (o_quantity a) (o_quantity o) ->
  measure (mkMarket (s_fill o rest fill b) p (asleep p pend)
    (wake p pend (Active (set_quantity (o_quantity a - fill) a) :: st)) r') <
  measure (mkMarket b ltp pend (Active a :: st) r).
Proof.
  intros [Hb _ _ Ho _ _] Hqa Hbest Hio ->. unfold measure. simpl in *.
  destruct (best_front _ _ _ _ _ _ Hb Hbest Hio) as (<- & _).
  rewrite s_fill_zero by done. rewrite <- !Z.add_assoc, zsum_wake. simpl.
  rewrite weight_set_quantity. destruct (Ho _ _ Hio) as ((? & _) & _).
  unfold zero_qty. case_decide; lia.
Qed.

Lemma settle_zero a b :
  s_orders b !! o_id a = None -> 0 <= o_quantity a ->
  o_type a = Limit \/ o_type a = Iceberg ->
  msum zero_qty (s_orders (settle a b)) <= msum zero_qty (s_orders b) + weight a.
Proof.
  intros Hfresh Hq Ht. unfold settle, weight. case_decide as Hr; [|case_decide; lia].
  unfold s_insert. rewrite s_orders_set_queue, mark_filled_id. simpl.
  rewrite msum_insert by done. unfold zero_qty at 1. rewrite mark_filled_quantity.
  case_decide; case_decide as Hl; try lia.
  destruct Hr as [|[Hr _]]; [lia|]. destruct Hl; congruence.
Qed.

Lemma market_wf_active b ltp pend a st r :
  market_wf (mkMarket b ltp pend (Active a :: st) r) -> qty_ranges a.
Proof. intros [_ _ _ _ _ Hs]. simpl in Hs. by apply Forall_cons in Hs as [? _]. Qed.

Lemma step_measure m m' : step m m' -> market_wf m -> measure m' <= measure m.
Proof.
  intros Hstep Hwf. destruct Hstep.
  - enough (forall x y : Z, x < y -> x <= y) as Hle by (by eapply Hle, fill_measure). lia.
  - pose proof (market_wf_active _ _ _ _ _ _ Hwf) as ((? & _) & _).
    destruct Hwf as [_ _ Hf _ _ _]. unfold measure. simpl in *.
    assert (s_orders b !! o_id a = None) as Hfresh.
    { apply Hf. rewrite outside_ids_pop. set_solver. }
    pose proof (settle_zero a b Hfresh). intuition lia.
  - unfold measure. simpl. pose proof (weight_nonneg a (market_wf_active _ _ _ _ _ _ Hwf)). lia.
  - unfold measure. simpl. pose proof (weight_nonneg a (market_wf_active _ _ _ _ _ _ Hwf)). lia.
  - unfold measure. simpl. rewrite zsum_app. simpl. lia.
  - unfold measure. simpl. pose proof (weight_prepare_convert a). lia.
  - unfold measure. simpl. rewrite zsum_app. simpl. lia.
  - unfold measure. simpl. pose proof (weight_prepare_convert a). lia.
Qed.

Lemma steps_measure m m' : steps m m' -> market_wf m -> measure m' <= measure m.
Proof.
  induction 1 as [|x y z Hxy Hyz IH]; intros Hwf; [done|].
  pose proof (step_measure _ _ Hxy Hwf). pose proof (IH (step_wf _ _ Hxy Hwf)). lia.
Qed.
