(* ===== verification/EngineRefine.v ===== *)
(** * EngineRefine: the matching engine implements the abstract market

    Every call of [process_new_order] on a well-formed engine returns (with the
    fuel given by [measure]), does not hit undefined behaviour, and its effect
    is a run of the machine of [Market]. *)

From S2P Require Import Prelude Types PriceLevel OrderBook Engine Market.

Section refine.
(** The ids that may be marked cancelled at the levels of the book. *)
Context {K : gset OrderId}.

(** ** A fill *)

Lemma s_set_queue_ext s p q b1 b2 :
  s_orders b1 = s_orders b2 ->
  (forall s' p', (s, p) <> (s', p') -> s_levels s' b1 !! p' = s_levels s' b2 !! p') ->
  s_set_queue s p q b1 = s_set_queue s p q b2.
Proof.
  intros Ho Hl. apply sbook_eq; [|by rewrite !s_orders_set_queue].
  intros s' p'. rewrite !s_levels_set_queue. case_decide; [done|]. apply Hl. naive_solver.
Qed.

Lemma levels_put_level_ne s p l b s' p' :
  (s, p) <> (s', p') -> levels s' (put_level s p l b) !! p' = levels s' b !! p'.
Proof.
  intros Hne. rewrite levels_put_level. case_decide as Hs; [subst|done].
  rewrite lookup_insert_ne; [done|naive_solver].
Qed.

Lemma update_order_quantity_put i o b :
  update_order_quantity i (o_quantity o) (put_order i o b) = put_order i o b.
Proof.
  unfold update_order_quantity, put_order. simpl. rewrite lookup_insert_eq.
  rewrite insert_insert_eq. by destruct o.
Qed.

Lemma put_level_put_order s p l i o b :
  put_level s p l (put_order i o b) = put_order i o (put_level s p l b).
Proof. by destruct s. Qed.

Lemma ltp_put_level s p l b : last_trade_price (put_level s p l b) = last_trade_price b.
Proof. apply ltp_set_levels. Qed.

Lemma levels_set_ltp s p b : levels s (set_last_trade_price p b) = levels s b.
Proof. by destruct s. Qed.

Lemma ltp_put_order i o b : last_trade_price (put_order i o b) = last_trade_price b.
Proof. done. Qed.

Lemma levels_put_order s i o b : levels s (put_order i o b) = levels s b.
Proof. apply levels_set_id_map. Qed.

Lemma ltp_cancel_order i b : last_trade_price (cancel_order i b).2 = last_trade_price b.
Proof.
  unfold cancel_order. destruct (id_map b !! i) as [o|]; [|done].
  destruct (levels (o_side o) b !! o_price o); [|done].
  destruct (empty _) as [[] l]; by destruct (o_side o).
Qed.

Section apply_fill.
(** The situation of [execute_fill]: [o] is the order at the drained front of
    its level. *)
Context (a o : Order) (l : PriceLevel) (rest : list OrderId) (b : OrderBook).
Context (Hwf : book_wf K b) (Ho : id_map b !! o_id o = Some o).
Context (Hl : levels (o_side o) b !! o_price o = Some l).
Context (Hlive : live l = o_id o :: rest) (Hun : o_id o ∉ pl_cancelled l).
Context (Hhead : head (pl_queue l) = Some (o_id o)).
Context (Hra : qty_ranges a) (Hro : qty_ranges o).

Let fill := Z.min (o_quantity a) (o_quantity o).
Let o' := set_quantity (o_quantity o - fill) o.

Lemma replenish_refines :
  o_quantity o = fill ->
  exists b', replenish_iceberg (o_id o) o' fill
    (set_last_trade_price (o_price o) (put_order (o_id o) o' b)) = Ok b' /\
    levels_ok K b' /\ last_trade_price b' = o_price o /\
    abs_book b' =
      s_set_queue (o_side o) (o_price o) (rest ++ [o_id o])
        (s_put_order (o_id o)
          (set_quantity (new_peak o) (set_reserve_qty (o_reserve_qty o - new_peak o) o'))
          (abs_book b)).
Proof.
  intros Hfull. destruct Hwf as [Hok Hbwf]. destruct (Hok _ _ _ Hl) as (Hlwf & Hlp & HlK).
  unfold replenish_iceberg, get_level.
  replace (levels _ _ !! _) with (Some l) by (rewrite <- Hl; by rewrite levels_set_ltp, levels_put_order).
  destruct (pop_front_live fill (o_id o) rest l Hlive Hlwf)
    as (l' & -> & Hl' & Hlwf' & Hlp' & HlK' & _). rewrite bind_ok.
  assert (u64 (o_reserve_qty o' - Z.min (o_peak_qty o') (o_reserve_qty o')) =
          o_reserve_qty o - new_peak o) as ->.
  { unfold new_peak. simpl. apply u64_small. unfold qty_ranges in Hro. u64_lia. }
  change (Z.min (o_peak_qty o') (o_reserve_qty o')) with (new_peak o).
  set (o2 := set_quantity (new_peak o) _).
  eexists; split; [done|].
  set (b0 := set_last_trade_price _ _). pose (b1 := put_level (o_side o) (o_price o) l' b0).
  rewrite put_level_put_order.
  change (o_quantity o2) with (new_peak o). change (o_id o2) with (o_id o).
  change (o_side o') with (o_side o). change (o_price o') with (o_price o). fold b1.
  assert (forall x, update_order_quantity (o_id o) (new_peak o) (put_order (o_id o) o2 x) =
    put_order (o_id o) o2 x) as Hupd by (intros x; apply (update_order_quantity_put _ o2)).
  rewrite !Hupd.
  split_ands.
  - apply levels_ok_set_id_map, levels_ok_put_level; simpl.
    + apply levels_ok_put_level; [|done|by rewrite Hlp'|by etrans].
      apply levels_ok_set_ltp. by apply levels_ok_set_id_map.
    + by apply push_back_wf.
    + by rewrite Hlp'.
    + by etrans.
  - unfold b1. by rewrite ltp_put_order, !ltp_put_level.
  - rewrite abs_put_order, abs_put_level; rewrite push_back_live, Hl' by done; [|by destruct rest].
    apply sbook_eq; [intros s p|].
    + unfold s_put_order. rewrite s_levels_set_orders, !s_levels_set_queue.
      case_decide as Hd; [done|]. rewrite s_levels_set_orders, !s_levels_abs, !lookup_fmap.
      unfold b1. rewrite levels_put_level_ne by naive_solver. by destruct s.
    + simpl. rewrite !s_orders_set_queue. simpl. unfold b1, put_level. rewrite id_map_set_levels. simpl.
      by rewrite insert_insert_eq.
Qed.

Lemma cancel_filled_refines :
  o_quantity o = fill ->
  let b0 := put_order (o_id o) (set_status Filled o')
    (set_last_trade_price (o_price o) (put_order (o_id o) o' b)) in
  levels_ok K (cancel_order (o_id o) b0).2 /\
  last_trade_price (cancel_order (o_id o) b0).2 = o_price o /\
  abs_book (cancel_order (o_id o) b0).2 = s_remove o (abs_book b).
Proof.
  intros Hfull b0. destruct Hwf as [Hok Hbwf].
  set (ofl := set_status Filled o').
  assert (id_map b0 !! o_id o = Some ofl) as Hof by (unfold b0; simpl; apply lookup_insert_eq).
  assert (book_wf K b0) as Hwf0.
  { split; [unfold b0; by repeat apply levels_ok_set_id_map|].
    change (abs_book b0) with
      (s_put_order (o_id o) ofl (s_put_order (o_id o) o' (abs_book b))).
    eapply (s_put_order_wf _ o'); [by eapply (s_put_order_wf _ o)| |done..].
    simpl. apply lookup_insert_eq. }
  assert (levels (o_side o) b0 = levels (o_side o) b) as Hlev.
  { unfold b0. by rewrite levels_put_order, levels_set_ltp, levels_put_order. }
  assert (unmarked (o_id o) b0) as Hum.
  { intros x lx Hx Hlx. rewrite Hof in Hx. injection Hx as <-. simpl in Hlx.
    rewrite Hlev in Hlx. by simplify_eq. }
  assert (levels_ok K (cancel_order (o_id o) b0).2) as HokK.
  { apply (cancel_front_levels_ok _ ofl l); done. }
  assert (last_trade_price (cancel_order (o_id o) b0).2 = o_price o) as Hltp.
  { apply ltp_cancel_order. }
  destruct (abs_cancel_order (o_id o) ofl b0 Hwf0 Hof Hum) as (b' & Heq & Habs & _).
  rewrite Heq in Hltp, HokK |- *. simpl in *. split_ands; [done|done|]. rewrite Habs.
  unfold s_remove. simpl. apply sbook_eq.
  - intros s p. rewrite !s_levels_set_queue. done.
  - rewrite !s_orders_set_queue. simpl. by rewrite !delete_insert_eq.
Qed.

Lemma partial_fill_refines :
  o_quantity o <> fill ->
  let b0 := set_last_trade_price (o_price o) (put_order (o_id o) o' b) in
  let b' := update_order_quantity (o_id o) (o_quantity o')
    (reduce_level_volume (o_side o) (o_price o) fill b0) in
  levels_ok K b' /\ last_trade_price b' = o_price o /\
  abs_book b' = s_put_order (o_id o) o' (abs_book b).
Proof.
  intros Hpart b0 b'. destruct Hwf as [Hok Hbwf]. destruct (Hok _ _ _ Hl) as (Hlwf & Hlp & HlK).
  assert (levels (o_side o) b0 !! o_price o = Some l) as Hl0.
  { unfold b0. by rewrite levels_set_ltp, levels_put_order. }
  assert (b' = put_order (o_id o) o'
    (put_level (o_side o) (o_price o) (reduce_front_volume fill l)
      (set_last_trade_price (o_price o) b))) as ->.
  { unfold b', reduce_level_volume, get_level. rewrite Hl0.
    rewrite <- update_order_quantity_put. f_equal. rewrite <- put_level_put_order. unfold b0. by destruct (o_side o). }
  split_ands.
  - by eauto 6 with lob.
  - by rewrite ltp_put_order, ltp_put_level.
  - rewrite abs_put_order. f_equal. rewrite (abs_put_level_id _ _ l); [done| |done].
    by rewrite levels_set_ltp.
Qed.

Lemma apply_fill_refines :
  exists b', apply_fill a (o_id o) o fill b =
      Ok (b', set_quantity (o_quantity a - fill) a, fill_trade a o fill) /\
    levels_ok K b' /\ last_trade_price b' = o_price o /\ abs_book b' = s_fill o rest fill (abs_book b).
Proof.
  assert (0 <= fill <= o_quantity a /\ fill <= o_quantity o) as (Hf & Hfo).
  { unfold fill, qty_ranges, is_u64 in *. lia. }
  unfold apply_fill.
  rewrite (u64_small (o_quantity a - fill)) by (unfold qty_ranges in *; u64_lia).
  rewrite (u64_small (o_quantity o - fill)) by (unfold qty_ranges in *; u64_lia).
  fold o'. unfold s_fill. fold o'. simpl o_quantity.
  case_decide as Hz.
  - assert (o_quantity o = fill) as Hfull by lia.
    change (is_iceberg o') with (is_iceberg o). change (o_reserve_qty o') with (o_reserve_qty o).
    destruct (is_iceberg o && _).
    + destruct (replenish_refines Hfull) as (b' & -> & ? & ? & ?). by eexists.
    + destruct (cancel_filled_refines Hfull) as (? & ? & ?). eexists. split; [done|]. done.
  - destruct (partial_fill_refines ltac:(lia)) as (? & ? & ?). eexists. split; [done|]. done.
Qed.
End apply_fill.

(** ** The passive side *)

Lemma passive_best_level a b : passive_best a b = best_level (opposite (o_side a)) b.
Proof. unfold passive_best, is_buy. by destruct (o_side a). Qed.

Lemma passive_side_opposite a : passive_side a = opposite (o_side a).
Proof. unfold passive_side, is_buy. by destruct (o_side a). Qed.

(** The best level of a well-formed book has a resting order at its front. *)
Lemma best_level_front s b key l :
  book_wf K b -> best_level s b = Some (key, l) ->
  exists i rest o, live l = i :: rest /\ s_best s (abs_book b) = Some (key, i :: rest) /\
    id_map b !! i = Some o /\ o_id o = i /\ o_side o = s /\ o_price o = key.
Proof.
  intros [Hok Hwf] Hb. pose proof (s_best_abs s b) as Hs. rewrite Hb in Hs. simpl in Hs.
  pose proof (best_nonempty _ _ _ _ Hwf Hs) as Hne.
  destruct (live l) as [|i rest] eqn:Hl; [done|]. exists i, rest.
  assert (i ∈ s_queue s key (abs_book b)) as Hin.
  { apply s_best_Some in Hs as [Hs _]. rewrite (s_level_queue _ _ _ _ Hs). set_solver. }
  apply (wf_indexed _ Hwf) in Hin as (o & Ho & Hside & Hp).
  exists o. split_ands; try done. by apply (wf_key _ Hwf).
Qed.

(** Reading the front drains the level, which is invisible. *)
Lemma drain_level_refines s key l i o b :
  book_wf K b -> levels s b !! key = Some l -> id_map b !! i = Some o ->
  let b1 := put_level s key (drain_cancelled l) b in
  book_wf K b1 /\ abs_book b1 = abs_book b /\ id_map b1 !! i = Some o /\
  levels s b1 !! key = Some (drain_cancelled l).
Proof.
  intros [Hok Hwf] Hl Ho b1. destruct (Hok _ _ _ Hl) as (Hlwf & Hp & HlK).
  assert (abs_book b1 = abs_book b) as Habs by (eapply abs_put_level_id; [done|apply drain_live]).
  split_ands.
  - split; [|by rewrite Habs]. apply levels_ok_put_level; [done|by apply drain_wf|by rewrite drain_price|].
    etrans; [apply drain_cancelled_subset|done].
  - done.
  - unfold b1, put_level. by rewrite id_map_set_levels.
  - unfold b1. rewrite levels_put_level, decide_True by done. apply lookup_insert_eq.
Qed.

Lemma mstate_book_wf e st r : levels_ok K (book e) -> market_wf (mstate e st r) -> book_wf K (book e).
Proof. intros Hok [Hb _ _ _ _ _]. by split. Qed.

(** The part of a fill before the stops are evaluated. *)
Lemma fill_refines a e key level st r :
  levels_ok K (book e) -> market_wf (mstate e (Active a :: st) r) ->
  best_level (opposite (o_side a)) (book e) = Some (key, level) ->
  exists i rest o b',
    let b1 := put_level (passive_side a) key (drain_cancelled level) (book e) in
    let fill := Z.min (o_quantity a) (o_quantity o) in
    s_best (opposite (o_side a)) (abs_book (book e)) = Some (key, i :: rest) /\
    s_orders (abs_book (book e)) !! i = Some o /\
    front level = Ok (i, drain_cancelled level) /\ id_map b1 !! i = Some o /\
    apply_fill a i o fill b1 =
      Ok (b', set_quantity (o_quantity a - fill) a, fill_trade a o fill) /\
    levels_ok K b' /\ last_trade_price b' = key /\
    abs_book b' = s_fill o rest fill (abs_book (book e)).
Proof.
  intros Hok Hm Hb. pose proof (mstate_book_wf _ _ _ Hok Hm) as Hwf.
  pose proof (market_wf_active _ _ _ _ _ _ Hm) as Hra.
  destruct (best_level_front _ _ _ _ Hwf Hb) as (i & rest & o & Hlive & Hs & Ho & Hid & Hside & Hp).
  apply best_level_Some in Hb as [Hl _].
  destruct (drain_level_refines _ _ _ _ _ _ Hwf Hl Ho) as (Hwf1 & Habs & Ho1 & Hl1).
  rewrite passive_side_opposite. destruct Hm as [_ _ _ Hr _ _]. specialize (Hr _ _ Ho).
  subst i. rewrite <- Hside, <- Hp in *.
  destruct (apply_fill_refines a o (drain_cancelled level) rest _ Hwf1 Ho1 Hl1
    ltac:(by rewrite drain_live) (drain_front_unmarked _ _ _ Hlive)
    (drain_head _ _ _ Hlive) Hra Hr) as (b' & Heq & ? & ? & Hf).
  exists (o_id o), rest, o, b'. rewrite Habs in Hf. cbv zeta. split_ands; try done.
  by apply (front_live _ rest).
Qed.

(** ** Invariants of the concrete book

    What the abstract book forgets, such as the volumes of the levels, can
    only be stated of the engine's own book. [V] is a property of the book, the
    pending stops and the orders being processed that every local step keeps;
    the proofs below carry it along, so that it holds whenever a call
    returns. *)

Class BookRule (V : OrderBook -> list Order -> list entry -> Prop) : Prop := {
  br_fill e a st r key level i rest o b' t :
    let fill := Z.min (o_quantity a) (o_quantity o) in
    levels_ok K (book e) -> market_wf (mstate e (Active a :: st) r) ->
    best_level (opposite (o_side a)) (book e) = Some (key, level) ->
    s_best (opposite (o_side a)) (abs_book (book e)) = Some (key, i :: rest) -> id_map (book e) !! i = Some o ->
    0 < o_quantity a ->
    apply_fill a i o fill (put_level (passive_side a) key (drain_cancelled level) (book e)) =
      Ok (b', set_quantity (o_quantity a - fill) a, t) ->
    levels_ok K b' -> abs_book b' = s_fill o rest fill (abs_book (book e)) ->
    V (book e) (pending_stops e) (Active a :: st) ->
    V b' (asleep key (pending_stops e))
      (wake key (pending_stops e) (Active (set_quantity (o_quantity a - fill) a) :: st));
  br_rest e a st r :
    levels_ok K (book e) -> market_wf (mstate e (Active a :: st) r) ->
    V (book e) (pending_stops e) (Active a :: st) ->
    V (insert_order (mark_filled a) (book e)) (pending_stops e) st;
  br_leave b pend a st : qty_ranges a -> V b pend (Active a :: st) -> V b pend st;
  br_park b pend x st : V b pend (x :: st) -> V b (pend ++ [entry_order x]) st;
  br_trigger b pend x st : V b pend (x :: st) -> V b pend (Active (prepare (convert (entry_order x))) :: st);
}.

Context (V : OrderBook -> list Order -> list entry -> Prop) `{!BookRule V}.

(** The engine's book is well-formed and satisfies [V]. *)
Definition sound (e : MatchingEngine) (st : list entry) : Prop :=
  levels_ok K (book e) /\ V (book e) (pending_stops e) st.

Lemma sound_leave e a st r : market_wf (mstate e (Active a :: st) r) -> sound e (Active a :: st) -> sound e st.
Proof using Type*. intros Hwf [Hok HV]. split; [done|]. eapply br_leave; [|done]. by eapply market_wf_active. Qed.

(** ** Triggered stops *)

Section nested.
(** [rec] implements the market for the states whose measure is below [n]. *)
Context (rec : MatchingEngine -> Order -> res (MatchingEngine * MatchResult)) (n : Z).

Definition rec_ok : Prop := forall e o st r0,
  sound e (Active (prepare o) :: st) -> market_wf (mstate e (Active (prepare o) :: st) r0) ->
  measure (mstate e (Active (prepare o) :: st) r0) < n ->
  exists e' r, rec e o = Ok (e', r) /\ sound e' st /\
    steps (mstate e (Active (prepare o) :: st) r0) (mstate e' st (append_result r0 r)).

Context (Hrec : rec_ok).

Lemma process_triggered_stop_ok stop e r st r0 :
  sound e (Active (prepare (convert stop)) :: st) ->
  market_wf (mstate e (Active (prepare (convert stop)) :: st) (append_result r0 r)) ->
  measure (mstate e (Active (prepare (convert stop)) :: st) (append_result r0 r)) < n ->
  exists e' r', process_triggered_stop rec stop e r = Ok (e', r') /\ sound e' st /\
    steps (mstate e (Active (prepare (convert stop)) :: st) (append_result r0 r))
      (mstate e' st (append_result r0 r')).
Proof.
  intros Hok Hwf Hn. destruct (Hrec _ _ _ _ Hok Hwf Hn) as (e' & r' & Heq & Hok' & Hsteps).
  exists e', (append_result r r'). split; [|by rewrite append_result_assoc].
  unfold process_triggered_stop. fold (convert stop). by rewrite Heq.
Qed.

Lemma trigger_loop_ok lp working e r st r0 :
  sound e (map (Queued lp) working ++ st) ->
  market_wf (mstate e (map (Queued lp) working ++ st) (append_result r0 r)) ->
  measure (mstate e (map (Queued lp) working ++ st) (append_result r0 r)) < n ->
  exists e' r', trigger_loop rec lp working e r = Ok (e', r') /\ sound e' st /\
    steps (mstate e (map (Queued lp) working ++ st) (append_result r0 r))
      (mstate e' st (append_result r0 r')).
Proof.
  revert e r. induction working as [|stop working IH]; intros e r Hok Hwf Hn; simpl.
  { eexists _, _. split_ands; [done|done|]. apply rtc_refl. }
  assert (exists e1 r1,
    (if stop_triggered lp stop then process_triggered_stop rec stop e r
     else Ok (set_pending (pending_stops e ++ [stop]) e, r)) = Ok (e1, r1) /\
    sound e1 (map (Queued lp) working ++ st) /\
    steps (mstate e (Queued lp stop :: map (Queued lp) working ++ st) (append_result r0 r))
      (mstate e1 (map (Queued lp) working ++ st) (append_result r0 r1)))
    as (e1 & r1 & -> & Hok1 & Hsteps).
  { destruct (stop_triggered lp stop) eqn:Ht.
    - pose proof (step_queued_trigger _ (last_trade_price (book e)) (pending_stops e) lp stop
        (map (Queued lp) working ++ st) (append_result r0 r) Ht : step (mstate e _ _) (mstate e _ _)) as Hstep.
      destruct (process_triggered_stop_ok stop e r (map (Queued lp) working ++ st) r0)
        as (e1 & r1 & ? & ? & ?).
      { split; [apply Hok|]. exact (br_trigger _ _ _ _ (proj2 Hok)). }
      { exact (step_wf _ _ Hstep Hwf). }
      { pose proof (step_measure _ _ Hstep Hwf). simpl in *. lia. }
      exists e1, r1. split_ands; try done. by eapply rtc_l.
    - eexists _, _. split_ands; [done| |by apply rtc_once, step_queued_pending].
      split; [apply Hok|]. exact (br_park _ _ _ _ (proj2 Hok)). }
  rewrite bind_ok. destruct (IH e1 r1 Hok1) as (e2 & r2 & ? & ? & ?).
  { by eapply steps_wf. }
  { pose proof (steps_measure _ _ Hsteps Hwf). simpl in *. lia. }
  exists e2, r2. split_ands; try done. by etrans.
Qed.

Lemma evaluate_stop_triggers_ok e r st r0 :
  let lp := last_trade_price (book e) in
  let m := mkMarket (abs_book (book e)) lp (asleep lp (pending_stops e))
    (wake lp (pending_stops e) st) (append_result r0 r) in
  levels_ok K (book e) -> V (book e) (asleep lp (pending_stops e)) (wake lp (pending_stops e) st) ->
  market_wf m -> measure m < n ->
  exists e' r', evaluate_stop_triggers rec e r = Ok (e', r') /\ sound e' st /\
    steps m (mstate e' st (append_result r0 r')).
Proof.
  intros lp m Hok HV Hwf Hn. unfold evaluate_stop_triggers. fold lp.
  case_decide as Hp.
  { exists e, r. split; [done|]. split.
    { split; [done|]. unfold asleep, wake in HV. rewrite Hp in *. by case_decide. }
    unfold m, asleep, wake. rewrite Hp. simpl.
    replace (mstate e st _) with (mkMarket (abs_book (book e)) lp [] st (append_result r0 r))
      by (unfold mstate; by rewrite Hp).
    case_decide; apply rtc_refl. }
  unfold m, asleep, wake in *. case_decide.
  { exists e, r. split_ands; [done|done|]. apply rtc_refl. }
  assert (sound (set_pending [] e) (map (Queued lp) (pending_stops e) ++ st)) by done.
  by apply (trigger_loop_ok lp (pending_stops e) (set_pending [] e) r st r0).
Qed.

(** ** One fill, with the stops it triggers *)

Lemma fill_front_ok a e key level st r r0 :
  let m := mstate e (Active a :: st) (append_result r0 r) in
  sound e (Active a :: st) -> market_wf m -> measure m <= n ->
  ~ is_stop a -> 0 < o_quantity a ->
  best_level (opposite (o_side a)) (book e) = Some (key, level) -> accepts a key ->
  exists e' q r', fill_front rec a key level e r = Ok (e', set_quantity q a, r') /\
    sound e' (Active (set_quantity q a) :: st) /\
    steps m (mstate e' (Active (set_quantity q a) :: st) (append_result r0 r')) /\
    measure (mstate e' (Active (set_quantity q a) :: st) (append_result r0 r')) < measure m.
Proof.
  intros m [Hok HV] Hwf Hn Hstop Hqa Hb Hacc.
  destruct (fill_refines _ _ _ _ _ _ Hok Hwf Hb)
    as (i & rest & o & b' & Hs & Ho & Hfront & Ho1 & Hfill & Hok' & Hltp & Habs).
  unfold fill_front. rewrite Hfront, bind_ok. simpl. unfold find_order_mut. rewrite Ho1.
  unfold execute_fill. simpl. rewrite Hfill, bind_ok.
  set (fill := Z.min _ _) in *. set (a' := set_quantity _ a) in *.
  pose proof (step_fill _ (last_trade_price (book e)) (pending_stops e) a st (append_result r0 r)
    _ _ _ _ fill Hstop Hqa Hs Hacc Ho eq_refl : step m _) as Hstep.
  pose proof (fill_measure _ _ _ _ _ _ (push_trade (fill_trade a o fill) (append_result r0 r))
    _ _ _ _ fill Hwf Hqa Hs Ho eq_refl) as Hlt.
  fold a' in Hstep, Hlt. rewrite <- append_push_trade, <- Habs, <- Hltp in Hstep, Hlt.
  pose proof (br_fill e a st _ key level i rest o b' _ Hok Hwf Hb Hs Ho Hqa Hfill Hok' Habs HV) as HV'.
  fold fill a' in HV'. rewrite <- Hltp in HV'.
  pose proof (step_wf _ _ Hstep Hwf) as Hwf1.
  edestruct (evaluate_stop_triggers_ok (set_book b' (set_book
    (put_level (passive_side a) key (drain_cancelled level) (book e)) e)) (push_trade (fill_trade a o fill) r)
    (Active a' :: st) r0) as (e2 & r2 & -> & Hok2 & Hsteps2); [done|done|done|exact (Z.lt_le_trans _ _ _ Hlt Hn)|].
  eexists e2, _, r2. split_ands; [done|done|by eapply rtc_l|].
  exact (Z.le_lt_trans _ _ _ (steps_measure _ _ Hsteps2 Hwf1) Hlt).
Qed.
End nested.

(** ** Matching loops *)

Section loops.
Context (rec : MatchingEngine -> Order -> res (MatchingEngine * MatchResult)) (n : Z).
Context (Hrec : rec_ok rec n).

(** The two break conditions of [match_limit] refuse exactly the prices the
    order does not accept. *)
Lemma limit_guard a p :
  o_type a <> Market ->
  (is_buy a && bool_decide (p > o_price a)) = false ->
  (is_sell a && bool_decide (p < o_price a)) = false -> accepts a p.
Proof.
  unfold accepts, is_buy, is_sell. intros _ Hb Hs. right.
  destruct (o_side a); simpl in *; [apply bool_decide_eq_false in Hb|apply bool_decide_eq_false in Hs];
    lia.
Qed.

Lemma limit_guard_refuse a p :
  o_type a <> Market ->
  (is_buy a && bool_decide (p > o_price a)) = true \/
  (is_sell a && bool_decide (p < o_price a)) = true -> ~ accepts a p.
Proof.
  unfold accepts, is_buy, is_sell. intros Ht Hg [?|Ha]; [done|].
  destruct (o_side a); simpl in *; destruct Hg as [Hg|Hg]; try done;
    apply bool_decide_eq_true in Hg; lia.
Qed.

Lemma best_key s b key l :
  levels_ok K b -> best_level s b = Some (key, l) -> pl_price l = key.
Proof. intros Hok [Hl _]%best_level_Some. by apply (Hok s). Qed.

Lemma match_limit_loop_ok k a e r st r0 :
  let m := mstate e (Active a :: st) (append_result r0 r) in
  sound e (Active a :: st) -> market_wf m -> measure m <= n -> measure m < Z.of_nat k ->
  ~ is_stop a -> o_type a <> Market ->
  exists e' q r', match_limit_loop rec k a e r = Ok (e', set_quantity q a, r') /\
    sound e' (Active (set_quantity q a) :: st) /\
    steps m (mstate e' (Active (set_quantity q a) :: st) (append_result r0 r')) /\
    done_matching (set_quantity q a) (abs_book (book e')).
Proof.
  revert a e r. induction k as [|k IH]; intros a e r m Hok Hwf Hn Hk Hstop Hmkt.
  { pose proof (measure_nonneg _ Hwf). simpl in Hk. lia. }
  assert (a = set_quantity (o_quantity a) a) as Haq by (by destruct a).
  assert (done_matching a (abs_book (book e)) -> exists e' q r',
    Ok (e, a, r) = Ok (e', set_quantity q a, r') /\ sound e' (Active (set_quantity q a) :: st) /\
    steps m (mstate e' (Active (set_quantity q a) :: st) (append_result r0 r')) /\
    done_matching (set_quantity q a) (abs_book (book e'))) as Hexit.
  { intros Hdone. exists e, (o_quantity a), r. rewrite <- Haq. split_ands; done. }
  simpl. case_decide as Hq; [|apply Hexit; left; lia].
  rewrite passive_best_level. destruct (best_level _ _) as [[key level]|] eqn:Hb.
  2: { apply Hexit. right. intros p q Hs. pose proof (s_best_abs (opposite (o_side a)) (book e)) as Habs.
       rewrite Hb, Hs in Habs. done. }
  rewrite (best_key _ _ _ _ (proj1 Hok) Hb).
  assert (~ accepts a key -> done_matching a (abs_book (book e))) as Hrefuse.
  { intros Hna. right. intros p q Hs. pose proof (s_best_abs (opposite (o_side a)) (book e)) as Habs.
    rewrite Hb, Hs in Habs. simpl in Habs. by simplify_eq. }
  destruct (is_buy a && _) eqn:Hg1; [apply Hexit, Hrefuse, limit_guard_refuse; auto|].
  destruct (is_sell a && _) eqn:Hg2; [apply Hexit, Hrefuse, limit_guard_refuse; auto|].
  destruct (fill_front_ok rec n Hrec a e key level st r r0 Hok Hwf Hn Hstop Hq Hb
    (limit_guard _ _ Hmkt Hg1 Hg2)) as (e1 & q1 & r1 & -> & Hok1 & Hsteps1 & Hlt1).
  rewrite bind_ok. fold m in Hlt1.
  destruct (IH (set_quantity q1 a) e1 r1) as (e2 & q2 & r2 & -> & ? & Hsteps2 & ?); try done.
  { by eapply steps_wf. }
  { lia. }
  { lia. }
  exists e2, q2, r2. split_ands; try done. by etrans.
Qed.

Lemma match_limit_ok k a e r st r0 :
  let m := mstate e (Active a :: st) (append_result r0 r) in
  sound e (Active a :: st) -> market_wf m -> measure m <= n -> measure m < Z.of_nat k ->
  ~ is_stop a -> o_type a <> Market ->
  exists e' q r', match_limit rec k a e r = Ok (e', mark_filled (set_quantity q a), r') /\
    sound e' (Active (set_quantity q a) :: st) /\
    steps m (mstate e' (Active (set_quantity q a) :: st) (append_result r0 r')) /\
    done_matching (set_quantity q a) (abs_book (book e')).
Proof.
  intros m Hok Hwf Hn Hk Hstop Hmkt.
  destruct (match_limit_loop_ok k a e r st r0 Hok Hwf Hn Hk Hstop Hmkt)
    as (e' & q & r' & Heq & ? & ? & ?).
  exists e', q, r'. split_ands; try done. unfold match_limit. by rewrite Heq.
Qed.

Lemma match_market_loop_ok k a e r st r0 :
  let m := mstate e (Active a :: st) (append_result r0 r) in
  sound e (Active a :: st) -> market_wf m -> measure m <= n -> measure m < Z.of_nat k ->
  o_type a = Market ->
  exists e' a' r', match_market_loop rec k a e r = Ok (e', a', r') /\
    sound e' st /\ steps m (mstate e' st (append_result r0 r')).
Proof.
  revert a e r. induction k as [|k IH]; intros a e r m Hok Hwf Hn Hk Hmkt.
  { pose proof (measure_nonneg _ Hwf). simpl in Hk. lia. }
  assert (~ is_stop a) as Hstop by (intros [?|?]; congruence).
  simpl. case_decide as Hq.
  2: { eexists _, _, _. split_ands; [done|by eapply sound_leave|]. apply rtc_once, step_market_filled; [done|lia]. }
  rewrite passive_best_level. destruct (best_level _ _) as [[key level]|] eqn:Hb.
  2: { eexists _, _, _. split_ands; [done|by eapply sound_leave|]. apply rtc_once. rewrite append_push_rejection.
       apply step_market_exhausted; try done. by rewrite s_best_abs, Hb. }
  destruct (fill_front_ok rec n Hrec a e key level st r r0 Hok Hwf Hn Hstop Hq Hb
    ltac:(by left)) as (e1 & q1 & r1 & -> & Hok1 & Hsteps1 & Hlt1).
  rewrite bind_ok. fold m in Hlt1.
  destruct (IH (set_quantity q1 a) e1 r1) as (e2 & a2 & r2 & -> & ? & Hsteps2); try done.
  { by eapply steps_wf. }
  { lia. }
  { lia. }
  exists e2, a2, r2. split_ands; try done. by etrans.
Qed.

Lemma match_market_ok k a e r st r0 :
  let m := mstate e (Active a :: st) (append_result r0 r) in
  sound e (Active a :: st) -> market_wf m -> measure m <= n -> measure m < Z.of_nat k ->
  o_type a = Market ->
  exists e' a' r', match_market rec k a e r = Ok (e', a', r') /\
    sound e' st /\ steps m (mstate e' st (append_result r0 r')).
Proof.
  intros m Hok Hwf Hn Hk Hmkt.
  destruct (match_market_loop_ok k a e r st r0 Hok Hwf Hn Hk Hmkt) as (e' & a' & r' & Heq & ? & ?).
  exists e', (mark_filled a'), r'. split_ands; try done. unfold match_market. by rewrite Heq.
Qed.
End loops.

(** ** New orders *)

(** The insertion of [process_new_order] after matching is [settle]. *)
Lemma settle_refines a e (keep : Prop) `{!Decision keep} :
  levels_ok K (book e) ->
  (keep <-> 0 < o_quantity a \/ (o_type a = Iceberg /\ 0 < o_reserve_qty a)) ->
  let e' := if decide keep then set_book (insert_order (mark_filled a) (book e)) e else e in
  levels_ok K (book e') /\
  forall st r, mstate e' st r =
    mkMarket (settle a (abs_book (book e))) (last_trade_price (book e)) (pending_stops e) st r.
Proof.
  intros Hok Hkeep e'. unfold e', settle.
  destruct (decide keep) as [Hk|Hk]; [|rewrite decide_False by tauto; done].
  rewrite decide_True by tauto. simpl.
  destruct (abs_insert_order (mark_filled a) (book e) Hok) as [Habs Hok'].
  split; [done|]. intros st r. unfold mstate. simpl. rewrite Habs. f_equal.
  unfold insert_order. by rewrite ltp_put_level, ltp_put_order.
Qed.

Lemma immediately_triggered_true o b :
  immediately_triggered o b = true <->
  last_trade_price b <> 0 /\ stop_triggered (last_trade_price b) o = true.
Proof. unfold immediately_triggered. by rewrite andb_true_iff, bool_decide_eq_true. Qed.

(** The two branches that match and then rest share this argument. *)
Lemma limit_branch_ok rec n k e a (keep : Order -> Prop) `{!forall o, Decision (keep o)} st r0 :
  rec_ok rec n -> n = Z.of_nat k - 1 ->
  sound e (Active a :: st) -> market_wf (mstate e (Active a :: st) r0) ->
  measure (mstate e (Active a :: st) r0) < Z.of_nat k ->
  o_type a = Limit \/ o_type a = Iceberg ->
  (forall q, keep (mark_filled (set_quantity q a)) <->
    0 < q \/ (o_type a = Iceberg /\ 0 < o_reserve_qty a)) ->
  exists e' r,
    ('(e, order, result) ← match_limit rec k a e empty_result;
     Ok (if decide (keep order) then set_book (insert_order order (book e)) e else e, result))
    = Ok (e', r) /\ sound e' st /\
    steps (mstate e (Active a :: st) r0) (mstate e' st (append_result r0 r)).
Proof.
  intros Hrec -> Hok Hwf Hn Ht Hkeep.
  rewrite <- (append_result_empty_r r0) in Hwf, Hn |- *.
  destruct (match_limit_ok rec _ Hrec k a e empty_result st r0 Hok Hwf) as
    (e1 & q & r1 & -> & Hok1 & Hsteps & Hdone); [lia|lia| |destruct Ht; congruence|].
  { intros [?|?]; destruct Ht; congruence. }
  rewrite bind_ok.
  pose proof (steps_wf _ _ Hsteps Hwf) as Hwf1. pose proof Hok1 as [Hlv1 HV1].
  destruct (settle_refines (set_quantity q a) e1 (keep (mark_filled (set_quantity q a))) Hlv1)
    as [Hok2 Hm]; [apply Hkeep|].
  eexists _, r1. split_ands; [done| |].
  { split; [done|]. case_decide; [exact (br_rest _ _ _ _ Hlv1 Hwf1 HV1)|].
    exact (proj2 (sound_leave _ _ _ _ Hwf1 Hok1)). } rewrite append_result_empty_r in *.
  etrans; [done|]. rewrite Hm. apply rtc_once. by apply step_settle.
Qed.

Lemma stop_branch_ok rec n e a st r0 :
  rec_ok rec n -> sound e (Active a :: st) -> market_wf (mstate e (Active a :: st) r0) ->
  measure (mstate e (Active a :: st) r0) <= n -> is_stop a ->
  exists e' r,
    (if immediately_triggered a (book e) then process_triggered_stop rec a e empty_result
     else Ok (set_pending (pending_stops e ++ [a]) e, empty_result)) = Ok (e', r) /\
    sound e' st /\ steps (mstate e (Active a :: st) r0) (mstate e' st (append_result r0 r)).
Proof.
  intros Hrec [Hok HV] Hwf Hn Hstop. destruct (immediately_triggered a (book e)) eqn:Hi.
  - apply immediately_triggered_true in Hi as [Hltp Htr].
    assert (step (mstate e (Active a :: st) r0) (mstate e (Active (prepare (convert a)) :: st) r0))
      as Hstep by (by apply step_stop_immediate).
    pose proof (step_wf _ _ Hstep Hwf) as Hwf1.
    pose proof (weight_stop_convert a Hstop) as Hw.
    rewrite <- (append_result_empty_r r0) in Hwf1.
    destruct (process_triggered_stop_ok rec n Hrec a e empty_result st r0)
      as (e' & r' & -> & ? & Hsteps).
    { split; [done|]. exact (br_trigger _ _ _ _ HV). }
    { exact Hwf1. }
    { unfold measure in *. simpl in *. lia. }
    exists e', r'. split_ands; try done. rewrite append_result_empty_r in Hsteps. by eapply rtc_l.
  - eexists _, _. split_ands; [done|split; [done|exact (br_park _ _ _ _ HV)]|]. rewrite append_result_empty_r.
    apply rtc_once, step_stop_pending; [done|].
    destruct (decide (last_trade_price (book e) = 0)); [by left|right].
    apply not_true_iff_false. intros Htr. apply not_true_iff_false in Hi. apply Hi.
    by apply immediately_triggered_true.
Qed.

Lemma process_new_order_ok fuel : rec_ok (process_new_order fuel) (Z.of_nat fuel).
Proof.
  induction fuel as [|fuel IH]; intros e o st r0 Hok Hwf Hn.
  { pose proof (measure_nonneg _ Hwf). simpl in Hn. lia. }
  assert (Z.of_nat fuel = Z.of_nat (S fuel) - 1) as Hfuel by lia.
  simpl process_new_order. unfold process_new_order_body. unfold prepare in *. simpl o_type in *.
  destruct (o_type o) eqn:Ht; try (rewrite decide_False in * by done); try (rewrite decide_True in * by done).
  - eapply (limit_branch_ok _ _ _ _ _ (fun o => 0 < o_quantity o)); try done; [by left|].
    intros q. rewrite mark_filled_quantity. simpl. rewrite Ht. naive_solver.
  - rewrite <- (append_result_empty_r r0) in Hwf, Hn |- *.
    destruct (match_market_ok _ _ IH (S fuel) (set_status Resting o) e empty_result st r0 Hok Hwf)
      as (e' & a' & r' & -> & ? & ?); [lia|lia|done|].
    rewrite append_result_empty_r in *. by eexists _, _.
  - eapply (stop_branch_ok _ (Z.of_nat fuel)); try done; [lia|by left].
  - eapply (stop_branch_ok _ (Z.of_nat fuel)); try done; [lia|by right].
  - eapply (limit_branch_ok _ _ _ _ _ (fun o => 0 < o_quantity o \/ 0 < o_reserve_qty o)); try done;
      [by right|].
    intros q. rewrite mark_filled_quantity. unfold mark_filled. simpl. case_decide; simpl; naive_solver.
Qed.
End refine.

(** Without a property of the concrete book. *)
#[global] Instance any_book K : BookRule (K := K) (fun _ _ _ => True).
Proof. by split. Qed.
