(* ===== verification/LevelRule.v ===== *)
(** * LevelRule: invariants of single price levels

    A property of a price level that every operation of [PriceLevel] keeps
    holds of all levels of the book at any time: the rule for properties that
    the abstract book of [OrderBook] forgets, such as those of volumes. *)

From S2P Require Import Prelude Types PriceLevel OrderBook Engine EngineRefine.

(** ** Postconditions of fallible calls *)

Definition post {A} (Q : A -> Prop) (m : res A) : Prop := forall a, m = Ok a -> Q a.

Lemma post_ok {A} (Q : A -> Prop) a : Q a -> post Q (Ok a).
Proof. by intros HQ ? [= <-]. Qed.

Lemma post_bind {A B} (P : A -> Prop) (Q : B -> Prop) (m : res A) (f : A -> res B) :
  post P m -> (forall a, P a -> post Q (f a)) -> post Q (m ≫= f).
Proof. intros Hm Hf b (a & Ha & Hb)%bind_ok_inv. by apply (Hf a (Hm a Ha)). Qed.

(** ** The rule *)

Class LevelInvariant (L : PriceLevel -> Prop) : Prop := {
  li_new p : L (new_level p);
  li_push id v l : L l -> L (push_back id v l);
  li_remove id v l : L l -> L (remove id v l);
  li_reduce q l : L l -> L (reduce_front_volume q l);
  li_drain l : L l -> L (drain_cancelled l);
  li_pop f l : L l -> post L (pop_front f l);
}.

Section rule.
Context (L : PriceLevel -> Prop) `{!LevelInvariant L}.

Definition levels_all (b : OrderBook) : Prop := forall s p l, levels s b !! p = Some l -> L l.
Implicit Types (b : OrderBook) (e : MatchingEngine).

(** ** The book *)

Lemma levels_all_put s p l b : levels_all b -> L l -> levels_all (put_level s p l b).
Proof using.
  intros Hb Hl s' p' l'. rewrite levels_put_level. case_decide as Hs; [subst|apply Hb].
  intros [[_ <-]|[_ Hin]]%lookup_insert_Some; [done|by eapply (Hb s')].
Qed.

Lemma levels_all_delete s p b : levels_all b -> levels_all (set_levels s (delete p (levels s b)) b).
Proof using.
  intros Hb s' p' l'. rewrite levels_set_levels. case_decide as Hs; [subst|apply Hb].
  intros [_ Hin]%lookup_delete_Some. by eapply (Hb s').
Qed.

Lemma levels_all_orders m b : levels_all b -> levels_all (set_id_map m b).
Proof using. intros Hb s p l. rewrite levels_set_id_map. apply Hb. Qed.

Lemma levels_all_ltp p b : levels_all b -> levels_all (set_last_trade_price p b).
Proof using. intros Hb s q l. rewrite levels_set_ltp. apply Hb. Qed.

#[local] Hint Resolve levels_all_put levels_all_delete levels_all_orders levels_all_ltp : core.

Lemma empty_book_all : levels_all empty_book.
Proof using. by intros [] p l. Qed.

Lemma insert_order_all o b : levels_all b -> levels_all (insert_order o b).
Proof using Type*.
  intros Hb. unfold insert_order, put_order. rewrite levels_set_id_map.
  apply levels_all_put; [by apply levels_all_orders|]. apply li_push.
  destruct (levels (o_side o) b !! o_price o) as [l|] eqn:Hl; simpl; [by apply (Hb _ _ _ Hl)|apply li_new].
Qed.

Lemma cancel_order_all i b : levels_all b -> levels_all (cancel_order i b).2.
Proof using Type*.
  intros Hb. unfold cancel_order. destruct (id_map b !! i) as [o|]; [|done].
  cbn [snd]. apply levels_all_orders.
  destruct (levels (o_side o) b !! o_price o) as [l|] eqn:Hl; [|done]. rewrite empty_live.
  assert (levels_all (put_level (o_side o) (o_price o) (drain_cancelled (remove i (visible_qty o) l)) b)).
  { apply levels_all_put; [done|]. apply li_drain, li_remove, (Hb _ _ _ Hl). }
  by destruct (bool_decide _); [apply levels_all_delete|].
Qed.

Lemma update_quantity_all i q b : levels_all b -> levels_all (update_order_quantity i q b).
Proof using. intros Hb. unfold update_order_quantity. destruct (id_map b !! i); [by apply levels_all_orders|done]. Qed.

Lemma reduce_volume_all s p d b : levels_all b -> levels_all (reduce_level_volume s p d b).
Proof using Type*.
  intros Hb. unfold reduce_level_volume, get_level. destruct (levels s b !! p) as [l|] eqn:Hl; [|done].
  apply levels_all_put; [done|]. apply li_reduce, (Hb _ _ _ Hl).
Qed.

(** ** The engine *)

Lemma replenish_all i o f b : levels_all b -> post levels_all (replenish_iceberg i o f b).
Proof using Type*.
  intros Hb. unfold replenish_iceberg, get_level. destruct (levels _ b !! _) as [l|] eqn:Hl; [|by apply post_ok].
  eapply post_bind; [by apply li_pop, (Hb _ _ _ Hl)|]. intros l' Hl'. apply post_ok, update_quantity_all.
  apply levels_all_put; [|by apply li_push]. by apply levels_all_orders, levels_all_put.
Qed.

Lemma apply_fill_all a i o fill b : levels_all b -> post (fun x => levels_all x.1.1) (apply_fill a i o fill b).
Proof using Type*.
  intros Hb. unfold apply_fill. eapply (post_bind levels_all); [|intros b' Hb'; by apply post_ok].
  case_decide; [destruct (_ && _)|apply post_ok].
  - apply replenish_all. by apply levels_all_ltp, levels_all_orders.
  - apply post_ok, cancel_order_all. by apply levels_all_orders, levels_all_ltp, levels_all_orders.
  - apply update_quantity_all, reduce_volume_all. by apply levels_all_ltp, levels_all_orders.
Qed.

Section nested.
Context (rec : MatchingEngine -> Order -> res (MatchingEngine * MatchResult)).
Context (Hrec : forall e o, levels_all (book e) -> post (fun x => levels_all (book x.1)) (rec e o)).

Lemma triggered_stop_all stop e r :
  levels_all (book e) -> post (fun x => levels_all (book x.1)) (process_triggered_stop rec stop e r).
Proof using Type*.
  intros He. unfold process_triggered_stop. eapply post_bind; [by apply Hrec|].
  intros [e' r'] He'. by apply post_ok.
Qed.

Lemma trigger_loop_all lp working : forall e r,
  levels_all (book e) -> post (fun x => levels_all (book x.1)) (trigger_loop rec lp working e r).
Proof using Type*.
  induction working as [|stop working IH]; intros e r He; simpl; [by apply post_ok|].
  eapply (post_bind (fun x => levels_all (book x.1))); [|intros [e' r'] He'; by apply IH].
  destruct (stop_triggered _ _); [by apply triggered_stop_all|by apply post_ok].
Qed.

Lemma fill_front_all a s key l e r :
  levels_all (book e) -> best_level s (book e) = Some (key, l) ->
  post (fun x => levels_all (book x.1.1)) (fill_front rec a key l e r).
Proof using Type*.
  intros He [Hl _]%best_level_Some. unfold fill_front, execute_fill.
  eapply (post_bind (fun x => L x.2)).
  { unfold front. destruct (pl_queue _); [done|]. apply post_ok. simpl. apply li_drain, (He _ _ _ Hl). }
  intros [i l'] Hl'. simpl in Hl'. cbv zeta. destruct (find_order_mut _ _) as [o|]; [|done].
  eapply post_bind; [by apply apply_fill_all, levels_all_put|]. intros [[b a'] t] Hb. simpl in Hb.
  eapply (post_bind (fun x => levels_all (book x.1))); [|intros [e' r'] He'; by apply post_ok].
  unfold evaluate_stop_triggers. repeat case_decide; [by apply post_ok..|by apply trigger_loop_all].
Qed.

Lemma passive_best_side a b : exists s, passive_best a b = best_level s b.
Proof using. unfold passive_best. destruct (is_buy a); [by exists Sell|by exists Buy]. Qed.

Lemma match_limit_loop_all k : forall a e r,
  levels_all (book e) -> post (fun x => levels_all (book x.1.1)) (match_limit_loop rec k a e r).
Proof using Type*.
  induction k as [|k IH]; intros a e r He; simpl; [done|].
  case_decide; [|by apply post_ok]. destruct (passive_best_side a (book e)) as [s ->].
  destruct (best_level s (book e)) as [[key l]|] eqn:Hb; [|by apply post_ok].
  destruct (is_buy a && _); [by apply post_ok|]. destruct (is_sell a && _); [by apply post_ok|].
  eapply post_bind; [by eapply fill_front_all|]. intros [[e' a'] r'] He'. by apply IH.
Qed.

Lemma match_market_loop_all k : forall a e r,
  levels_all (book e) -> post (fun x => levels_all (book x.1.1)) (match_market_loop rec k a e r).
Proof using Type*.
  induction k as [|k IH]; intros a e r He; simpl; [done|].
  case_decide; [|by apply post_ok]. destruct (passive_best_side a (book e)) as [s ->].
  destruct (best_level s (book e)) as [[key l]|] eqn:Hb; [|by apply post_ok].
  eapply post_bind; [by eapply fill_front_all|]. intros [[e' a'] r'] He'. by apply IH.
Qed.

Lemma process_new_order_body_all k e o :
  levels_all (book e) -> post (fun x => levels_all (book x.1)) (process_new_order_body rec k e o).
Proof using Type*.
  intros He.
  assert (forall a, post (fun x => levels_all (book x.1.1)) (match_limit rec k a e empty_result)) as Hlim.
  { intros a. unfold match_limit. eapply post_bind; [by apply match_limit_loop_all|].
    intros [[e' a'] r'] He'. by apply post_ok. }
  unfold process_new_order_body. cbv zeta. destruct (o_type _).
  - eapply post_bind; [apply Hlim|]. intros [[e' a'] r'] He'. apply post_ok. simpl in *.
    case_decide; [by apply insert_order_all|done].
  - unfold match_market. eapply (post_bind (fun x => levels_all (book x.1.1)));
      [eapply post_bind; [by apply match_market_loop_all|]|]; intros [[e' a'] r'] He'; by apply post_ok.
  - destruct (immediately_triggered _ _); [by apply triggered_stop_all|by apply post_ok].
  - destruct (immediately_triggered _ _); [by apply triggered_stop_all|by apply post_ok].
  - eapply post_bind; [apply Hlim|]. intros [[e' a'] r'] He'. apply post_ok. simpl in *.
    case_decide; [by apply insert_order_all|done].
Qed.
End nested.

Lemma process_new_order_all k : forall e o,
  levels_all (book e) -> post (fun x => levels_all (book x.1)) (process_new_order k e o).
Proof using Type*.
  induction k as [|k IH]; intros e o He; [done|]. by apply process_new_order_body_all.
Qed.

Lemma submit_all_levels k e ev :
  levels_all (book e) -> post (fun x => levels_all (book x.1)) (submit k e ev).
Proof using Type*.
  intros He. unfold submit. destruct ev as [o|i ts|m|old o].
  - by apply process_new_order_all.
  - apply post_ok. unfold process_cancel. simpl. destruct (list_find _ _) as [[j stop]|]; [done|].
    destruct (find_order _ _) as [o|]; [|done]. destruct (is_resting o); [by apply cancel_order_all|done].
  - apply post_ok. unfold process_modify. simpl. destruct (find_order _ _) as [o|]; [|done].
    destruct (is_resting o); [|done]. destruct (_ || _); [by apply insert_order_all, cancel_order_all|].
    case_decide; [by apply reduce_volume_all, update_quantity_all|done].
  - unfold process_replace. simpl. destruct (has_order _ _); [|by apply post_ok].
    eapply post_bind; [by apply process_new_order_all, cancel_order_all|].
    intros [e' r'] He'. by apply post_ok.
Qed.
End rule.
