(* ===== verification/EngineEvents.v ===== *)
(** * EngineEvents: every event of the engine

    Safety, totality and functional behaviour of [submit] and of the handlers
    of new, cancel, modify and replace events, for one event and for whole
    sessions. *)

From S2P Require Import Prelude Types PriceLevel OrderBook Engine Market EngineRefine.

(** ** Well-formed engines and admissible events *)

Record engine_wf (K : gset OrderId) (e : MatchingEngine) : Prop := {
  ewf_levels : levels_ok K (book e);
  ewf_market : market_wf (mstate e [] empty_result);
}.

(** The id is neither resting nor pending. *)
Definition fresh (id : OrderId) (e : MatchingEngine) : Prop :=
  id_map (book e) !! id = None /\ id ∉ map o_id (pending_stops e).

(** What the engine relies on: new ids are fresh, and an order that is removed
    from the book has not re-entered a level that still holds the entry of an
    earlier removal. *)
Definition admissible (e : MatchingEngine) (ev : OrderEvent) : Prop :=
  match ev with
  | NewOrderEvent o => fresh (o_id o) e /\ qty_ranges o
  | CancelOrderEvent id _ => unmarked id (book e)
  | ModifyOrder m => unmarked (m_order_id m) (book e) /\ is_u64 (m_new_quantity m)
  | ReplaceOrderEvent old o =>
      unmarked old (book e) /\ qty_ranges o /\
      (o_id o = old \/ id_map (book e) !! o_id o = None) /\ o_id o ∉ map o_id (pending_stops e)
  end.

(** Fuel that is enough for an event. *)
Definition fuel_bound (e : MatchingEngine) (ev : OrderEvent) : nat :=
  match ev with
  | NewOrderEvent o | ReplaceOrderEvent _ o =>
      S (Z.to_nat (measure (mstate e [Active (prepare o)] empty_result)))
  | _ => 0
  end.

(** Ids marked cancelled after the event. *)
Definition marked_after (ev : OrderEvent) (K : gset OrderId) : gset OrderId :=
  match ev with
  | NewOrderEvent _ => K
  | CancelOrderEvent id _ | ReplaceOrderEvent id _ => {[id]} ∪ K
  | ModifyOrder m => {[m_order_id m]} ∪ K
  end.

(** All the ids the engine knows. *)
Definition known (i : OrderId) (m : market) : Prop :=
  is_Some (s_orders (mk_book m) !! i) \/ i ∈ outside_ids (mk_pending m) (mk_stack m).

(** ** Fuel only matters by being enough *)

Definition rec_le (f g : MatchingEngine -> Order -> res (MatchingEngine * MatchResult)) : Prop :=
  forall e o x, f e o = Ok x -> g e o = Ok x.

Section monotone.
Context (f g : MatchingEngine -> Order -> res (MatchingEngine * MatchResult)).
Context (Hfg : rec_le f g).

Lemma process_triggered_stop_mono stop e r x :
  process_triggered_stop f stop e r = Ok x -> process_triggered_stop g stop e r = Ok x.
Proof.
  unfold process_triggered_stop. intros (y & Hy & HH)%bind_ok_inv.
  by rewrite (Hfg _ _ _ Hy).
Qed.

Lemma trigger_loop_mono lp working e r x :
  trigger_loop f lp working e r = Ok x -> trigger_loop g lp working e r = Ok x.
Proof.
  revert e r. induction working as [|stop working IH]; intros e r; simpl; [done|].
  intros ([e1 r1] & H1 & HH)%bind_ok_inv.
  destruct (stop_triggered lp stop).
  - rewrite (process_triggered_stop_mono _ _ _ _ H1). by apply IH.
  - injection H1 as <- <-. by apply IH.
Qed.

Lemma evaluate_stop_triggers_mono e r x :
  evaluate_stop_triggers f e r = Ok x -> evaluate_stop_triggers g e r = Ok x.
Proof. unfold evaluate_stop_triggers. repeat case_decide; try done. apply trigger_loop_mono. Qed.

Lemma fill_front_mono a key l e r x : fill_front f a key l e r = Ok x -> fill_front g a key l e r = Ok x.
Proof.
  unfold fill_front. intros ([i l'] & -> & HH)%bind_ok_inv. rewrite bind_ok.
  destruct (find_order_mut _ _) as [o|]; [|done]. unfold execute_fill in *.
  apply bind_ok_inv in HH as ([[b a'] t] & -> & HH'). rewrite bind_ok.
  apply bind_ok_inv in HH' as ([e' r'] & He & ?). by rewrite (evaluate_stop_triggers_mono _ _ _ He).
Qed.

Lemma match_limit_loop_mono k k' a e r x :
  (k <= k')%nat -> match_limit_loop f k a e r = Ok x -> match_limit_loop g k' a e r = Ok x.
Proof.
  revert k' a e r. induction k as [|k IH]; intros k' a e r Hk; [done|].
  destruct k' as [|k']; [lia|]. simpl. case_decide; [|done].
  destruct (passive_best _ _) as [[key l]|]; [|done]. repeat (destruct (_ && _); [done|]).
  intros ([[e' a'] r'] & Hf & HH)%bind_ok_inv. rewrite (fill_front_mono _ _ _ _ _ _ Hf).
  rewrite bind_ok. apply IH; [lia|done].
Qed.

Lemma match_market_loop_mono k k' a e r x :
  (k <= k')%nat -> match_market_loop f k a e r = Ok x -> match_market_loop g k' a e r = Ok x.
Proof.
  revert k' a e r. induction k as [|k IH]; intros k' a e r Hk; [done|].
  destruct k' as [|k']; [lia|]. simpl. case_decide; [|done].
  destruct (passive_best _ _) as [[key l]|]; [|done].
  intros ([[e' a'] r'] & Hf & HH)%bind_ok_inv. rewrite (fill_front_mono _ _ _ _ _ _ Hf).
  rewrite bind_ok. apply IH; [lia|done].
Qed.

Lemma process_new_order_body_mono k k' e o x :
  (k <= k')%nat ->
  process_new_order_body f k e o = Ok x -> process_new_order_body g k' e o = Ok x.
Proof.
  intros Hk. unfold process_new_order_body, match_limit, match_market.
  destruct (o_type (set_status Resting o)); try (case_match; [apply process_triggered_stop_mono|done]);
    intros (y & (z & Hz & Hy)%bind_ok_inv & HH)%bind_ok_inv.
  - rewrite (match_limit_loop_mono _ _ _ _ _ _ Hk Hz), bind_ok, Hy. done.
  - rewrite (match_market_loop_mono _ _ _ _ _ _ Hk Hz), bind_ok, Hy. done.
  - rewrite (match_limit_loop_mono _ _ _ _ _ _ Hk Hz), bind_ok, Hy. done.
Qed.
End monotone.

Lemma process_new_order_mono n n' : (n <= n')%nat -> rec_le (process_new_order n) (process_new_order n').
Proof.
  revert n'. induction n as [|n IH]; intros n' Hn e o x; [done|].
  destruct n' as [|n']; [lia|]. simpl. apply process_new_order_body_mono; [apply IH|]; lia.
Qed.

Lemma process_replace_mono n n' e old o x :
  (n <= n')%nat -> process_replace n e old o = Ok x -> process_replace n' e old o = Ok x.
Proof.
  intros Hn. unfold process_replace. destruct (has_order _ _); [|done].
  intros (y & Hy & HH)%bind_ok_inv. by rewrite (process_new_order_mono _ _ Hn _ _ _ Hy).
Qed.

Lemma submit_mono n n' e ev x : (n <= n')%nat -> submit n e ev = Ok x -> submit n' e ev = Ok x.
Proof.
  intros Hn. unfold submit. destruct ev; try done.
  - by apply process_new_order_mono.
  - by apply process_replace_mono.
Qed.

(** ** New orders *)

Lemma market_wf_result b ltp pend st r r' :
  market_wf (mkMarket b ltp pend st r) -> market_wf (mkMarket b ltp pend st r').
Proof. by intros [? ? ? ? ? ?]. Qed.

Lemma new_engine_wf : engine_wf ∅ new_engine.
Proof.
  split.
  - intros s p l. by destruct s.
  - split; simpl; try done.
    + apply empty_sbook_wf.
    + constructor.
Qed.

Lemma engine_wf_active K e o :
  engine_wf K e -> fresh (o_id o) e -> qty_ranges o ->
  market_wf (mstate e [Active (prepare o)] empty_result).
Proof.
  intros [Hok [Hb Hi Hf Ho Hp Hs]] [Hfm Hfp] Hr. simpl in *.
  assert (outside_ids (pending_stops e) [Active (prepare o)] ≡ₚ
    o_id o :: outside_ids (pending_stops e) []) as Hids.
  { rewrite outside_ids_pop. simpl. by rewrite prepare_id. }
  split; simpl; try done.
  - rewrite Hids. apply NoDup_cons. split; [|done].
    unfold outside_ids. rewrite app_nil_r. done.
  - intros i. rewrite Hids. intros [->|Hin]%elem_of_cons; [done|]. by apply Hf.
  - constructor; [|done]. by apply prepare_ranges.
Qed.

(** With an invariant [V] of the book. *)
Lemma process_new_order_rule K V `{!BookRule (K := K) V} e o :
  engine_wf K e -> fresh (o_id o) e -> qty_ranges o -> V (book e) (pending_stops e) [Active (prepare o)] ->
  exists e' r, process_new_order (fuel_bound e (NewOrderEvent o)) e o = Ok (e', r) /\
    engine_wf K e' /\ V (book e') (pending_stops e') [] /\
    steps (mstate e [Active (prepare o)] empty_result) (mstate e' [] r).
Proof.
  intros Hwf Hfr Hr HV. pose proof (engine_wf_active _ _ _ Hwf Hfr Hr) as Hm.
  destruct (process_new_order_ok (K := K) V (fuel_bound e (NewOrderEvent o)) e o [] empty_result)
    as (e' & r & Heq & [Hok HV'] & Hsteps).
  - split; [apply Hwf|done].
  - done.
  - pose proof (measure_nonneg _ Hm). simpl. lia.
  - rewrite append_result_empty_l in Hsteps. exists e', r. split_ands; try done.
    split; [done|]. eapply market_wf_result. by eapply steps_wf.
Qed.

Lemma process_new_order_total K e o :
  engine_wf K e -> fresh (o_id o) e -> qty_ranges o ->
  exists e' r, process_new_order (fuel_bound e (NewOrderEvent o)) e o = Ok (e', r) /\
    engine_wf K e' /\
    steps (mstate e [Active (prepare o)] empty_result) (mstate e' [] r).
Proof.
  intros Hwf Hfr Hr.
  destruct (process_new_order_rule K (fun _ _ _ => True) e o Hwf Hfr Hr I) as (e' & r & ? & ? & _ & ?).
  by exists e', r.
Qed.

(** ** Removing a resting order *)

Lemma engine_wf_remove K e i o :
  engine_wf K e -> id_map (book e) !! i = Some o -> unmarked i (book e) ->
  let e' := set_book (cancel_order i (book e)).2 e in
  engine_wf ({[i]} ∪ K) e' /\ abs_book (book e') = s_remove o (abs_book (book e)) /\
  fresh i e' /\ last_trade_price (book e') = last_trade_price (book e).
Proof.
  intros [Hok Hm] Ho Hum e'.
  pose proof (mstate_book_wf _ _ _ Hok Hm) as Hwf.
  assert (last_trade_price (book e') = last_trade_price (book e)) as Hltp.
  { apply ltp_cancel_order. }
  destruct (abs_cancel_order i o (book e) Hwf Ho Hum) as (b' & Heq & Habs & Hok').
  unfold e' in *. rewrite Heq in *. simpl in *. destruct Hm as [Hb Hi Hf Ho' Hp Hs]. simpl in *.
  pose proof (wf_key _ Hb _ _ Ho) as <-.
  assert (s_orders (s_remove o (abs_book (book e))) = delete (o_id o) (id_map (book e))) as Hdel.
  { unfold s_remove. by rewrite s_orders_set_queue. }
  split_ands; try done.
  - split; [done|]. unfold mstate. simpl. rewrite Habs. split; simpl; try done.
    + by apply s_remove_wf.
    + intros j Hj. rewrite Hdel. apply lookup_delete_None. right. by apply Hf.
    + intros j x. rewrite Hdel. intros [_ Hx]%lookup_delete_Some. by eapply Ho'.
  - split; simpl.
    + change (id_map b') with (s_orders (abs_book b')). rewrite Habs, Hdel. apply lookup_delete_eq.
    + intros Hin. assert (o_id o ∈ outside_ids (pending_stops e) []) as Hout.
      { unfold outside_ids. by rewrite app_nil_r. }
      apply Hf in Hout. congruence.
Qed.

Lemma engine_wf_weaken K K' e : K ⊆ K' -> engine_wf K e -> engine_wf K' e.
Proof. intros HK [Hok Hm]. split; [by eapply levels_ok_weaken|done]. Qed.

Lemma engine_wf_insert K e o :
  engine_wf K e -> fresh (o_id o) e -> qty_ranges o ->
  let e' := set_book (insert_order o (book e)) e in
  engine_wf K e' /\ abs_book (book e') = s_insert o (abs_book (book e)).
Proof.
  intros [Hok [Hb Hi Hf Ho Hp Hs]] [Hfm Hfp] Hr e'. simpl in *.
  destruct (abs_insert_order o (book e) Hok) as [Habs Hok'].
  assert (s_orders (s_insert o (abs_book (book e))) = <[o_id o := o]> (id_map (book e))) as Hins.
  { unfold s_insert. by rewrite s_orders_set_queue. }
  split; [|done]. split; [done|]. unfold mstate. simpl. rewrite Habs. split; simpl; try done.
  - by apply s_insert_wf.
  - intros j Hj. rewrite Hins. rewrite lookup_insert_ne; [by apply Hf|].
    intros <-. unfold outside_ids in Hj. by rewrite app_nil_r in Hj.
  - intros j x. rewrite Hins. intros [[_ <-]|[_ Hx]]%lookup_insert_Some; [done|]. by eapply Ho.
Qed.

(** Changing the quantity of a resting order in place. *)
Lemma engine_wf_reduce K e i o q delta :
  engine_wf K e -> id_map (book e) !! i = Some o -> is_u64 q ->
  let e' := set_book (reduce_level_volume (o_side o) (o_price o) delta
    (update_order_quantity i q (book e))) e in
  engine_wf K e' /\ abs_book (book e') = s_put_order i (set_quantity q o) (abs_book (book e)).
Proof.
  intros [Hok Hm] Ho Hq e'. pose proof (mstate_book_wf _ _ _ Hok Hm) as Hwf.
  destruct (resting_level i o _ Hwf Ho) as (l & Hl & Hlwf & Hp & HK & _).
  assert (book e' = put_order i (set_quantity q o)
    (put_level (o_side o) (o_price o) (reduce_front_volume delta l) (book e))) as Heq.
  { unfold e'. simpl. unfold reduce_level_volume, get_level, update_order_quantity.
    rewrite Ho, levels_put_order, Hl. apply put_level_put_order. }
  assert (abs_book (book e') = s_put_order i (set_quantity q o) (abs_book (book e))) as Habs.
  { rewrite Heq, abs_put_order. f_equal. by apply (abs_put_level_id _ _ l). }
  split; [|done]. split.
  - rewrite Heq. apply levels_ok_set_id_map, levels_ok_put_level; try done.
  - destruct Hm as [Hb Hi Hf Ho' Hpd Hs]. unfold mstate. rewrite Habs.
    split; simpl in *; try done.
    + by eapply s_put_order_wf.
    + intros j Hj. rewrite lookup_insert_ne; [by apply Hf|]. intros <-. apply Hf in Hj. congruence.
    + intros j x [[_ <-]|[_ Hx]]%lookup_insert_Some; [|by eapply Ho'].
      destruct (Ho' _ _ Ho) as (_ & ? & ?). by split_ands.
Qed.

(** Removing a pending stop. *)
Lemma engine_wf_unpend K e i :
  engine_wf K e -> engine_wf K (set_pending (delete i (pending_stops e)) e).
Proof.
  intros [Hok [Hb Hi Hf Ho Hp Hs]]. split; [done|]. simpl in *.
  assert (sublist (outside_ids (delete i (pending_stops e)) []) (outside_ids (pending_stops e) []))
    as Hsub.
  { unfold outside_ids. rewrite !app_nil_r. apply (fmap_sublist o_id), sublist_delete. }
  split; simpl; try done.
  - by eapply sublist_NoDup.
  - intros j Hj. apply Hf. by eapply elem_of_sublist.
  - by apply Forall_delete.
Qed.

(** ** Known ids

    Trading never invents ids: what an event leaves resting or pending was
    there before, or is the submitted order. *)

Lemma s_fill_known o rest fill b i :
  s_orders b !! o_id o = Some o ->
  is_Some (s_orders (s_fill o rest fill b) !! i) -> is_Some (s_orders b !! i).
Proof.
  intros Ho. destruct (decide (i = o_id o)) as [->|Hi]; [by eauto|].
  by rewrite s_fill_orders.
Qed.

Lemma settle_known a b i :
  is_Some (s_orders (settle a b) !! i) -> is_Some (s_orders b !! i) \/ i = o_id a.
Proof.
  unfold settle. case_decide; [|by left]. unfold s_insert.
  rewrite s_orders_set_queue, mark_filled_id. simpl.
  rewrite lookup_insert_is_Some. intros [->|[_ ?]]; [by right|by left].
Qed.

Lemma step_known m m' i : market_wf m -> step m m' -> known i m' -> known i m.
Proof.
  intros Hwf Hstep. unfold known. destruct Hstep; simpl; rewrite ?outside_ids_pop; simpl.
  - destruct Hwf as [Hb _ _ _ _ _]. simpl in Hb.
    destruct (best_front _ _ _ _ _ _ Hb H1 H3) as (<- & _).
    intros [Hk%s_fill_known|Hk]; [by left|done|right].
    rewrite outside_ids_wake, outside_ids_pop in Hk. done.
  - intros [[Hk| ->]%settle_known|Hk]; [by left| |]; right; set_solver.
  - set_solver.
  - set_solver.
  - rewrite (outside_ids_park pend (Active a)), outside_ids_pop. done.
  - by rewrite prepare_id, convert_id.
  - rewrite (outside_ids_park pend (Queued lp a)), outside_ids_pop. done.
  - by rewrite prepare_id, convert_id.
Qed.

Lemma steps_known m m' i : steps m m' -> market_wf m -> known i m' -> known i m.
Proof.
  induction 1 as [|x y z Hxy Hyz IH]; intros Hwf Hk; [done|].
  eapply step_known, IH; eauto using step_wf.
Qed.

(** ** Every event is handled *)

Lemma set_sequence_wf K e n : engine_wf K (mkEngine (book e) n (pending_stops e)) <-> engine_wf K e.
Proof. split; intros [? ?]; by split. Qed.

Lemma process_cancel_wf K e id ts :
  engine_wf K e -> unmarked id (book e) -> engine_wf ({[id]} ∪ K) (process_cancel e id ts).1.
Proof.
  intros Hwf Hum. assert (engine_wf ({[id]} ∪ K) e) as Hwf'.
  { eapply engine_wf_weaken; [|done]. set_solver. }
  unfold process_cancel. destruct (list_find _ _) as [[i stop]|]; [by apply engine_wf_unpend|].
  unfold find_order. destruct (id_map _ !! id) as [o|] eqn:Ho; [|done].
  destruct (is_resting o); [|done]. by eapply engine_wf_remove.
Qed.

(** The order that a modify event makes of a resting order. *)
Definition modified (m : ModifyOrderEvent) (o : Order) : Order :=
  let o := if decide (m_new_price m <> 0) then set_price (m_new_price m) o else o in
  let o := if decide (m_new_quantity m <> 0) then set_quantity (m_new_quantity m) o else o in
  set_timestamp (m_timestamp m) o.

Lemma modified_id m o : o_id (modified m o) = o_id o.
Proof. unfold modified. by repeat case_decide. Qed.

Lemma modified_ranges m o : is_u64 (m_new_quantity m) -> qty_ranges o -> qty_ranges (modified m o).
Proof. unfold modified, qty_ranges. repeat case_decide; simpl; tauto. Qed.

Lemma process_modify_wf K e m :
  engine_wf K e -> unmarked (m_order_id m) (book e) -> is_u64 (m_new_quantity m) ->
  engine_wf ({[m_order_id m]} ∪ K) (process_modify e m).1.
Proof.
  intros Hwf Hum Hq. assert (engine_wf ({[m_order_id m]} ∪ K) e) as Hwf'.
  { eapply engine_wf_weaken; [|done]. set_solver. }
  unfold process_modify, find_order. destruct (id_map _ !! _) as [o|] eqn:Ho; [|done].
  destruct (is_resting o); [|done]. destruct (_ || _).
  - fold (modified m o). destruct (engine_wf_remove _ _ _ _ Hwf Ho Hum) as (Hwf1 & _ & Hfr & _).
    apply (engine_wf_insert _ _ (modified m o) Hwf1).
    + rewrite modified_id. destruct Hwf as [? [Hb _ _ _ _ _]].
      by rewrite (wf_key _ Hb _ _ Ho : o_id o = m_order_id m).
    + apply modified_ranges; [done|]. by apply (mwf_orders _ (ewf_market _ _ Hwf) _ _ Ho).
  - case_decide; [|done]. by apply (engine_wf_reduce _ _ _ _ _ _ Hwf' Ho).
Qed.

Lemma measure_remove e o st r :
  id_map (book e) !! o_id o = Some o ->
  measure (mkMarket (s_remove o (abs_book (book e))) (last_trade_price (book e)) (pending_stops e) st r) <=
  measure (mstate e st r).
Proof.
  intros Ho. unfold measure, s_remove. simpl. rewrite s_orders_set_queue. simpl.
  rewrite (msum_delete _ _ _ _ Ho). unfold zero_qty at 2. case_decide; lia.
Qed.

(** What remains of the old order's market when it is replaced. *)
Definition replaced (x o : Order) (e : MatchingEngine) : market :=
  mkMarket (s_remove x (abs_book (book e))) (last_trade_price (book e)) (pending_stops e)
    [Active (prepare o)] empty_result.

(** A replace of a resting order is a new order on the book without it. *)
Lemma replace_setup K e old x o :
  engine_wf K e -> admissible e (ReplaceOrderEvent old o) -> id_map (book e) !! old = Some x ->
  let e1 := set_book (cancel_order old (book e)).2 e in
  engine_wf ({[old]} ∪ K) e1 /\ fresh (o_id o) e1 /\ qty_ranges o /\
  mstate e1 [Active (prepare o)] empty_result = replaced x o e /\
  (fuel_bound e1 (NewOrderEvent o) <= fuel_bound e (ReplaceOrderEvent old o))%nat /\
  forall fuel, process_replace fuel e old o = process_new_order fuel e1 o.
Proof.
  intros Hwf (Hum & Hr & Hid & Hpend) Hx e1.
  destruct (engine_wf_remove _ _ _ _ Hwf Hx Hum) as (Hwf1 & Habs & Hfr & Hltp).
  fold e1 in Hwf1, Habs, Hfr, Hltp.
  assert (mstate e1 [Active (prepare o)] empty_result = replaced x o e) as Hst.
  { unfold mstate, replaced. by rewrite Habs, Hltp. }
  pose proof (wf_key _ (mwf_book _ (ewf_market _ _ Hwf)) _ _ Hx : o_id x = old) as Hxid.
  assert (fresh (o_id o) e1) as Hfr'.
  { split; [|done]. destruct Hid as [->|Hid]; [by destruct Hfr|].
    change (id_map (book e1)) with (s_orders (abs_book (book e1))). rewrite Habs.
    unfold s_remove. rewrite s_orders_set_queue, Hxid. apply lookup_delete_None. by right. }
  split_ands; try done.
  - pose proof (measure_nonneg _ (engine_wf_active _ _ _ Hwf1 Hfr' Hr)) as Hn. simpl.
    rewrite Hst in Hn |- *. rewrite <- Hxid in Hx.
    pose proof (measure_remove e x [Active (prepare o)] empty_result Hx).
    unfold replaced in *. lia.
  - intros fuel. unfold process_replace, has_order. rewrite bool_decide_eq_true_2 by eauto. fold e1.
    destruct (process_new_order fuel e1 o) as [[e' r]| |]; [|done..].
    rewrite bind_ok. by rewrite append_result_empty_l.
Qed.

Lemma replace_run K e old x o :
  engine_wf K e -> admissible e (ReplaceOrderEvent old o) -> id_map (book e) !! old = Some x ->
  exists e' r, process_replace (fuel_bound e (ReplaceOrderEvent old o)) e old o = Ok (e', r) /\
    engine_wf ({[old]} ∪ K) e' /\ market_wf (replaced x o e) /\
    steps (replaced x o e) (mstate e' [] r).
Proof.
  intros Hwf Hadm Hx.
  destruct (replace_setup _ _ _ _ _ Hwf Hadm Hx) as (Hwf1 & Hfr & Hr & Hst & Hle & Heq).
  destruct (process_new_order_total _ _ _ Hwf1 Hfr Hr) as (e' & r & Hp & Hwf' & Hs).
  pose proof (engine_wf_active _ _ _ Hwf1 Hfr Hr) as Hm. rewrite Hst in Hs, Hm.
  exists e', r. rewrite Heq. split_ands; try done. by eapply process_new_order_mono.
Qed.

Lemma replaced_known e x o i :
  o_id x ∉ map o_id (pending_stops e) ->
  known i (replaced x o e) -> (i <> o_id x /\ known i (mstate e [] empty_result)) \/ i = o_id o.
Proof.
  unfold known, replaced. simpl. intros Hx. rewrite outside_ids_pop. simpl. rewrite prepare_id.
  unfold s_remove. rewrite s_orders_set_queue. simpl.
  intros [[y [Hne Hy]%lookup_delete_Some]|[->|Hk]%elem_of_cons]; [left; by eauto|by right|left].
  split; [|by right]. intros ->. unfold outside_ids in Hk. by rewrite app_nil_r in Hk.
Qed.

Lemma process_replace_reject fuel e old o :
  id_map (book e) !! old = None -> process_replace fuel e old o = Ok (e, reject old OrderNotFound 0).
Proof. intros Ho. unfold process_replace, has_order. by rewrite Ho. Qed.

Lemma process_replace_total K e old o :
  engine_wf K e -> admissible e (ReplaceOrderEvent old o) ->
  exists e' r, process_replace (fuel_bound e (ReplaceOrderEvent old o)) e old o = Ok (e', r) /\
    engine_wf ({[old]} ∪ K) e'.
Proof.
  intros Hwf Hadm. destruct (id_map (book e) !! old) as [x|] eqn:Hx.
  - destruct (replace_run _ _ _ _ _ Hwf Hadm Hx) as (e' & r & ? & ? & _). by exists e', r.
  - eexists _, _. split; [by apply process_replace_reject|].
    eapply engine_wf_weaken; [|done]. set_solver.
Qed.

Lemma submit_total K e ev :
  engine_wf K e -> admissible e ev ->
  exists e' r, submit (fuel_bound e ev) e ev = Ok (e', r) /\ engine_wf (marked_after ev K) e'.
Proof.
  intros Hwf Hadm. set (e1 := mkEngine (book e) (u64 (sequence e + 1)) (pending_stops e)).
  assert (engine_wf K e1) as Hwf1 by by apply set_sequence_wf.
  destruct ev as [o|id ts|m|old o]; simpl in Hadm |- *; fold e1.
  - destruct Hadm as [Hfr Hr].
    destruct (process_new_order_total K e1 o Hwf1 Hfr Hr) as (e' & r & Heq & ? & _). by exists e', r.
  - eexists _, _. rewrite (surjective_pairing (process_cancel e1 id ts)). split; [done|].
    by apply process_cancel_wf.
  - eexists _, _. rewrite (surjective_pairing (process_modify e1 m)). split; [done|].
    destruct Hadm. by apply process_modify_wf.
  - destruct (process_replace_total K e1 old o Hwf1 Hadm) as (e' & r & Heq & ?). by exists e', r.
Qed.

(** ** Properties of single events *)

(** C2. For every admissible event on a well-formed engine, [submit] returns
    with the computed fuel: no null pointer is dereferenced, no empty deque is
    popped, every loop ends, and the engine is well-formed again. More fuel
    gives the same answer. *)
Theorem submit_safe K e ev fuel :
  engine_wf K e -> admissible e ev -> (fuel_bound e ev <= fuel)%nat ->
  exists e' r, submit fuel e ev = Ok (e', r) /\ engine_wf (marked_after ev K) e'.
Proof.
  intros Hwf Hadm Hfuel. destruct (submit_total K e ev Hwf Hadm) as (e' & r & Heq & Hwf').
  exists e', r. split; [|done]. by eapply submit_mono.
Qed.

(** C1. A new order on a well-formed engine is processed as a run of the
    abstract price-time priority market, from the order on top of the empty
    stack to a state where nothing is left to process. *)
Theorem new_order_refines_market K e o fuel :
  engine_wf K e -> fresh (o_id o) e -> qty_ranges o ->
  (fuel_bound e (NewOrderEvent o) <= fuel)%nat ->
  exists e' r, process_new_order fuel e o = Ok (e', r) /\ engine_wf K e' /\
    steps (mstate e [Active (prepare o)] empty_result) (mstate e' [] r).
Proof.
  intros Hwf Hfr Hr Hfuel.
  destruct (process_new_order_total K e o Hwf Hfr Hr) as (e' & r & Heq & Hwf' & Hs).
  exists e', r. split_ands; try done. by eapply process_new_order_mono.
Qed.

(** C11. A cancel event removes a pending stop, else a resting order, else is
    rejected and changes nothing. Removing an order leaves every other order,
    queue and the pending stops as they are; the report carries the quantity
    that was left. *)
Theorem process_cancel_spec K e id ts :
  engine_wf K e -> unmarked id (book e) ->
  let '(e', r) := process_cancel e id ts in
  sequence e' = sequence e /\
  match list_find (fun stop => o_id stop = id) (pending_stops e), id_map (book e) !! id with
  | Some (i, stop), _ =>
      book e' = book e /\ pending_stops e' = delete i (pending_stops e) /\
      r = cancel_report id (o_quantity stop) ts
  | None, None => e' = e /\ r = reject id OrderNotFound ts
  | None, Some o =>
      if is_resting o then
        abs_book (book e') = s_remove o (abs_book (book e)) /\ pending_stops e' = pending_stops e /\
        last_trade_price (book e') = last_trade_price (book e) /\
        r = cancel_report id (o_quantity o) ts
      else e' = e /\ r = reject id OrderNotCancellable ts
  end.
Proof.
  intros Hwf Hum. unfold process_cancel, find_order.
  destruct (list_find _ _) as [[i stop]|]; [done|].
  destruct (id_map (book e) !! id) as [o|] eqn:Ho; [|done].
  destruct (is_resting o); [|done].
  destruct (engine_wf_remove _ _ _ _ Hwf Ho Hum) as (_ & ? & _ & ?). done.
Qed.

(** C12. A modify event trades nothing and keeps the pending stops, the
    sequence number and the last trade price. Of an unknown order it is
    rejected as not found, of one that is not resting as not cancellable, and
    then the engine stays as it is. Otherwise a new price or a larger quantity
    moves the order to the back of the queue of its price; a smaller quantity
    changes the order and leaves every queue as it is. (The order must not be
    marked as cancelled at its level.) *)
Theorem process_modify_spec K e m :
  engine_wf K e -> unmarked (m_order_id m) (book e) -> is_u64 (m_new_quantity m) ->
  let '(e', r) := process_modify e m in
  match id_map (book e) !! m_order_id m with
  | None => e' = e /\ r = reject (m_order_id m) OrderNotFound 0
  | Some o =>
      if is_resting o then
        r = empty_result /\ pending_stops e' = pending_stops e /\ sequence e' = sequence e /\
        last_trade_price (book e') = last_trade_price (book e) /\
        if decide ((m_new_price m <> 0 /\ m_new_price m <> o_price o) \/ o_quantity o < m_new_quantity m)
        then abs_book (book e') = s_insert (modified m o) (s_remove o (abs_book (book e)))
        else
          (forall s, s_levels s (abs_book (book e')) = s_levels s (abs_book (book e))) /\
          id_map (book e') = <[m_order_id m :=
            set_quantity (if decide (m_new_quantity m = 0) then o_quantity o else m_new_quantity m) o]>
            (id_map (book e))
      else e' = e /\ r = reject (m_order_id m) OrderNotCancellable 0
  end.
Proof.
  intros Hwf Hum Hq. unfold process_modify, find_order.
  destruct (id_map (book e) !! m_order_id m) as [o|] eqn:Ho; [|done]. destruct (is_resting o); [|done].
  pose proof (mwf_orders _ (ewf_market _ _ Hwf) _ _ Ho) as ((Hq0 & _) & _).
  match goal with |- context [if ?c then _ else _] => destruct c eqn:Hc end.
  - rewrite (decide_True (P := _ \/ _)).
    2: { revert Hc. rewrite orb_true_iff, !andb_true_iff, !bool_decide_eq_true. lia. }
    fold (modified m o). split_ands; try done.
    + simpl. unfold insert_order. by rewrite ltp_put_level, ltp_put_order, ltp_cancel_order.
    + destruct (engine_wf_remove _ _ _ _ Hwf Ho Hum) as ([Hok1 _] & <- & _).
      by apply (abs_insert_order (K := {[m_order_id m]} ∪ K)).
  - assert (~ ((m_new_price m <> 0 /\ m_new_price m <> o_price o) \/ o_quantity o < m_new_quantity m))
      as Hno.
    { revert Hc. rewrite orb_false_iff, !andb_false_iff, !bool_decide_eq_false. lia. }
    destruct (decide (m_new_quantity m <> 0 /\ m_new_quantity m < o_quantity o)) as [Hlt|Hlt];
      rewrite (decide_False (P := _ \/ _)) by done.
    + split_ands; try done.
      * simpl. unfold reduce_level_volume, update_order_quantity. rewrite Ho.
        destruct (get_level _ _ _); [|done]. by rewrite ltp_put_level, ltp_put_order.
      * destruct (engine_wf_reduce _ _ _ _ _ (u64 (o_quantity o - m_new_quantity m)) Hwf Ho Hq)
          as [_ Habs]. intros s. rewrite Habs. apply s_levels_set_orders.
      * destruct (engine_wf_reduce _ _ _ _ _ (u64 (o_quantity o - m_new_quantity m)) Hwf Ho Hq)
          as [_ Habs]. rewrite decide_False by lia. by apply (f_equal s_orders) in Habs.
    + split_ands; try done. symmetry. apply insert_id. rewrite Ho. f_equal.
      destruct (decide (m_new_quantity m = 0)); [by destruct o|].
      replace (m_new_quantity m) with (o_quantity o) by lia. by destruct o.
Qed.

(** C13. A replace event cancels the old order and submits the new one, which
    is matched like any new order; without the old order it is rejected and
    changes nothing. *)
Theorem process_replace_spec K e old o fuel :
  engine_wf K e -> admissible e (ReplaceOrderEvent old o) ->
  (fuel_bound e (ReplaceOrderEvent old o) <= fuel)%nat ->
  exists e' r, process_replace fuel e old o = Ok (e', r) /\
  match id_map (book e) !! old with
  | None => e' = e /\ r = reject old OrderNotFound 0
  | Some x => steps (replaced x o e) (mstate e' [] r)
  end.
Proof.
  intros Hwf Hadm Hfuel. destruct (id_map (book e) !! old) as [x|] eqn:Hx.
  - destruct (replace_run _ _ _ _ _ Hwf Hadm Hx) as (e' & r & Heq & _ & _ & Hs).
    exists e', r. split; [|done].
    by apply (process_replace_mono _ _ _ _ _ _ Hfuel).
  - eexists _, _. by rewrite process_replace_reject.
Qed.

(** ** Witnesses *)

Definition demo_order (i : OrderId) (s : Side) (p : Price) (q : Quantity) : Order :=
  mkOrder i s Limit p 0 q q 0 0 0 Resting.
Definition demo_engine : MatchingEngine :=
  set_book (insert_order (demo_order 1 Sell 100 10) empty_book) new_engine.

Lemma demo_engine_wf : engine_wf ∅ demo_engine.
Proof.
  apply (engine_wf_insert ∅ new_engine (demo_order 1 Sell 100 10) new_engine_wf).
  - by split; vm_compute; [|inversion 1].
  - by vm_compute.
Qed.

Lemma demo_engine_unmarked i : unmarked i (book demo_engine).
Proof.
  intros o l Ho. revert Ho. unfold demo_engine. simpl.
  intros [[<- <-]|[_ Hx]]%lookup_insert_Some; [|by rewrite lookup_empty in Hx].
  vm_compute. intros [= <-]. by inversion 1.
Qed.

Lemma submit_safe_witness : exists e' r,
  submit 100 demo_engine (NewOrderEvent (demo_order 2 Buy 101 4)) = Ok (e', r) /\ engine_wf ∅ e'.
Proof.
  apply (submit_safe ∅ demo_engine (NewOrderEvent (demo_order 2 Buy 101 4)) 100).
  - apply demo_engine_wf.
  - split; [by split; vm_compute; [|inversion 1]|by vm_compute].
  - apply Nat.leb_le. by vm_compute.
Defined.

Lemma new_order_refines_market_witness : exists e' r,
  process_new_order 100 demo_engine (demo_order 2 Buy 101 4) = Ok (e', r) /\ engine_wf ∅ e' /\
  steps (mstate demo_engine [Active (prepare (demo_order 2 Buy 101 4))] empty_result) (mstate e' [] r).
Proof.
  apply (new_order_refines_market ∅ demo_engine (demo_order 2 Buy 101 4) 100).
  - apply demo_engine_wf.
  - by split; vm_compute; [|inversion 1].
  - by vm_compute.
  - apply Nat.leb_le. by vm_compute.
Defined.

Lemma process_cancel_spec_witness :
  abs_book (book (process_cancel demo_engine 1 7).1) =
    s_remove (demo_order 1 Sell 100 10) (abs_book (book demo_engine)).
Proof.
  pose proof (process_cancel_spec ∅ demo_engine 1 7 demo_engine_wf (demo_engine_unmarked 1)) as Hspec.
  rewrite (surjective_pairing (process_cancel demo_engine 1 7)) in Hspec.
  destruct Hspec as (_ & Hspec). apply Hspec.
Defined.

Lemma process_modify_spec_witness :
  (process_modify demo_engine (mkModify 1 0 25 9)).2 = empty_result /\
  process_modify demo_engine (mkModify 8 0 25 9) = (demo_engine, reject 8 OrderNotFound 0).
Proof.
  split.
  - pose proof (process_modify_spec ∅ demo_engine (mkModify 1 0 25 9)
      demo_engine_wf (demo_engine_unmarked 1) ltac:(by vm_compute)) as Hspec.
    rewrite (surjective_pairing (process_modify _ _)) in Hspec. apply Hspec.
  - pose proof (process_modify_spec ∅ demo_engine (mkModify 8 0 25 9)
      demo_engine_wf (demo_engine_unmarked 8) ltac:(by vm_compute)) as Hspec.
    rewrite (surjective_pairing (process_modify _ _)) in Hspec |- *. destruct Hspec as [-> ->]. reflexivity.
Defined.

Lemma process_replace_spec_witness : exists e' r,
  process_replace 100 demo_engine 1 (demo_order 3 Buy 90 5) = Ok (e', r).
Proof.
  destruct (process_replace_spec ∅ demo_engine 1 (demo_order 3 Buy 90 5) 100 demo_engine_wf)
    as (e' & r & Heq & _).
  - split; [apply demo_engine_unmarked|].
    split_ands; [by vm_compute..|by right; vm_compute|]. vm_compute. by inversion 1.
  - apply Nat.leb_le. by vm_compute.
  - by exists e', r.
Defined.
