(* ===== verification/Session.v ===== *)
(** * Session: sequences of events from an empty engine

    The per-event preconditions of [EngineEvents] hold along every sequence of
    new, cancel and replace events in which each submitted order carries an id
    that was never used before: the engine then never reaches undefined
    behaviour and every call returns. *)

From S2P Require Import Prelude Types PriceLevel OrderBook Engine Market EngineRefine EngineEvents.

(** [used] holds the ids submitted so far. *)
Fixpoint session_ok (evs : list OrderEvent) (used : gset OrderId) : Prop :=
  match evs with
  | [] => True
  | (NewOrderEvent o) :: evs => (o_id o ∉ used) /\ qty_ranges o /\ session_ok evs ({[o_id o]} ∪ used)
  | (CancelOrderEvent _ _) :: evs => session_ok evs used
  | (ReplaceOrderEvent _ o) :: evs =>
      (o_id o ∉ used) /\ qty_ranges o /\ session_ok evs ({[o_id o]} ∪ used)
  | (ModifyOrder _) :: _ => False
  end.

(** The ids used after a session. *)
Fixpoint used_after (evs : list OrderEvent) (used : gset OrderId) : gset OrderId :=
  match evs with
  | [] => used
  | (NewOrderEvent o | ReplaceOrderEvent _ o) :: evs => used_after evs ({[o_id o]} ∪ used)
  | _ :: evs => used_after evs used
  end.

(** Ids that may be marked cancelled are not known any more, and all ids were
    used. *)
Definition session_inv (used : gset OrderId) (e : MatchingEngine) : Prop :=
  exists K, engine_wf K e /\ K ⊆ used /\
    (forall i, known i (mstate e [] empty_result) -> i ∈ used /\ i ∉ K).

Lemma session_inv_new : session_inv ∅ new_engine.
Proof.
  exists ∅. split_ands; [apply new_engine_wf|done|]. intros i [[x Hx]|Hi].
  - simpl in Hx. by rewrite lookup_empty in Hx.
  - by apply elem_of_nil in Hi.
Qed.

Section session.
Context (used : gset OrderId) (e : MatchingEngine) (K : gset OrderId).
Context (Hwf : engine_wf K e) (HK : K ⊆ used).
Context (Hknown : forall i, known i (mstate e [] empty_result) -> i ∈ used /\ i ∉ K).

Lemma known_unmarked i : unmarked i (book e).
Proof.
  intros o l Ho Hl Hi. destruct (Hknown i) as [_ Hn].
  - left. simpl. eauto.
  - destruct Hwf as [Hok _]. destruct (Hok _ _ _ Hl) as (_ & _ & Hsub). set_solver.
Qed.

Lemma unused_unknown i : i ∉ used -> ~ known i (mstate e [] empty_result).
Proof. intros Hi Hk%Hknown. tauto. Qed.

Lemma unused_fresh i : i ∉ used -> fresh i e.
Proof.
  intros Hi%unused_unknown. split.
  - apply eq_None_not_Some. intros ?. apply Hi. by left.
  - intros Hin. apply Hi. right. simpl. unfold outside_ids. by rewrite app_nil_r.
Qed.

Lemma session_new o :
  o_id o ∉ used -> qty_ranges o ->
  exists e' r, process_new_order (fuel_bound e (NewOrderEvent o)) e o = Ok (e', r) /\
    session_inv ({[o_id o]} ∪ used) e'.
Proof.
  intros Hid Hr.
  destruct (process_new_order_total K e o Hwf (unused_fresh _ Hid) Hr) as (e' & r & Heq & Hwf' & Hs).
  exists e', r. split; [done|]. exists K. split_ands; [done|set_solver|].
  intros i Hk. apply (steps_known _ _ i Hs) in Hk; [|by eapply engine_wf_active; [|apply unused_fresh|]].
  unfold known in Hk. simpl in Hk. rewrite outside_ids_pop in Hk. simpl in Hk. rewrite prepare_id in Hk.
  assert (i = o_id o \/ known i (mstate e [] empty_result)) as [->|[? ?]%Hknown];
    [|set_solver..].
  unfold known. simpl. set_solver.
Qed.

Lemma session_cancel id ts : session_inv used (process_cancel e id ts).1.
Proof.
  assert (session_inv used e) as Hsame by by exists K.
  unfold process_cancel. destruct (list_find _ _) as [[i stop]|].
  - exists K. split_ands; [by apply engine_wf_unpend|done|].
    intros j [Hj|Hj]; apply Hknown; [by left|right]. simpl in *. unfold outside_ids in *.
    rewrite app_nil_r in *. eapply elem_of_sublist; [done|].
    apply (fmap_sublist o_id), sublist_delete.
  - unfold find_order. destruct (id_map _ !! id) as [o|] eqn:Ho; [|done].
    destruct (is_resting o); [|done].
    destruct (engine_wf_remove K e id o Hwf Ho (known_unmarked id)) as (Hwf' & Habs & Hfr & _).
    pose proof (wf_key _ (mwf_book _ (ewf_market _ _ Hwf)) _ _ Ho : o_id o = id) as Hid.
    exists ({[id]} ∪ K). split_ands; [done| |].
    { assert (id ∈ used); [|set_solver]. apply Hknown. left. simpl. eauto. }
    intros j Hj. assert (j <> id) as Hne.
    { intros ->. destruct Hfr as [Hf1 Hf2]. destruct Hj as [[x Hx]|Hj]; simpl in *; [congruence|].
      unfold outside_ids in Hj. by rewrite app_nil_r in Hj. }
    destruct (Hknown j) as [? ?]; [|set_solver].
    destruct Hj as [Hj|Hj]; [left|by right]. simpl in Hj |- *.
    change (id_map ?b) with (s_orders (abs_book b)) in Hj. simpl in Habs. rewrite Habs in Hj.
    unfold s_remove in Hj. rewrite s_orders_set_queue in Hj. simpl in Hj.
    rewrite Hid, lookup_delete_ne in Hj by done. done.
Qed.

Lemma session_replace old o :
  o_id o ∉ used -> qty_ranges o ->
  exists e' r, process_replace (fuel_bound e (ReplaceOrderEvent old o)) e old o = Ok (e', r) /\
    session_inv ({[o_id o]} ∪ used) e'.
Proof.
  intros Hid Hr. destruct (unused_fresh _ Hid) as [Hf1 Hf2].
  destruct (id_map (book e) !! old) as [x|] eqn:Hx.
  2: { eexists _, _. split; [by apply process_replace_reject|]. exists K.
       split_ands; [done|set_solver|]. intros i [? ?]%Hknown. set_solver. }
  assert (admissible e (ReplaceOrderEvent old o)) as Hadm.
  { simpl. split_ands; [by eapply known_unmarked|done|by right|done]. }
  destruct (replace_run _ _ _ _ _ Hwf Hadm Hx) as (e' & r & Heq & Hwf' & Hm & Hs).
  pose proof (wf_key _ (mwf_book _ (ewf_market _ _ Hwf)) _ _ Hx : o_id x = old) as <-.
  assert (known (o_id x) (mstate e [] empty_result)) as Hkx by (left; simpl; eauto).
  exists e', r. split; [done|]. exists ({[o_id x]} ∪ K). split_ands; [done| |].
  { apply Hknown in Hkx as [? ?]. set_solver. }
  intros i Hk. apply (steps_known _ _ i Hs) in Hk; [|done].
  assert (o_id x ∉ map o_id (pending_stops e)) as Hxp.
  { intros Hin. pose proof (mwf_fresh _ (ewf_market _ _ Hwf) (o_id x)) as Hfr. simpl in Hfr.
    rewrite Hfr in Hx; [done|]. unfold outside_ids. by rewrite app_nil_r. }
  apply Hknown in Hkx as [Hxu HxK].
  destruct (replaced_known e x o i Hxp Hk) as [[Hne Hki]| ->]; [apply Hknown in Hki; set_solver|].
  assert (o_id o <> o_id x) by (by intros Heqx; rewrite Heqx in Hid). set_solver.
Qed.
End session.

Lemma set_sequence_inv used e n :
  session_inv used e -> session_inv used (mkEngine (book e) n (pending_stops e)).
Proof. intros (K & Hwf & HK). exists K. split; [by apply set_sequence_wf|done]. Qed.

(** One event of a session. *)
Lemma session_step used e ev evs :
  session_inv used e -> session_ok (ev :: evs) used ->
  exists e' r, submit (fuel_bound e ev) e ev = Ok (e', r) /\
    session_inv (used_after [ev] used) e' /\ session_ok evs (used_after [ev] used).
Proof.
  intros Hinv Hok. unfold submit.
  destruct (set_sequence_inv used e (u64 (sequence e + 1)) Hinv) as (K & Hwf & HK & Hknown).
  set (e1 := mkEngine _ _ _) in *. destruct ev as [o|id ts|m|old o]; simpl in Hok |- *.
  - destruct Hok as (Hid & Hr & Hok).
    destruct (session_new used e1 K Hwf HK Hknown o Hid Hr) as (e' & r & Heq & ?). by exists e', r.
  - eexists _, _. rewrite (surjective_pairing (process_cancel e1 id ts)). split_ands; [done| |done].
    by apply (session_cancel used e1 K).
  - done.
  - destruct Hok as (Hid & Hr & Hok).
    destruct (session_replace used e1 K Hwf HK Hknown old o Hid Hr) as (e' & r & Heq & ?).
    by exists e', r.
Qed.

Lemma used_after_cons ev evs used : used_after (ev :: evs) used = used_after evs (used_after [ev] used).
Proof. by destruct ev. Qed.

Lemma session_run evs used e :
  session_ok evs used -> session_inv used e ->
  exists n, forall fuel, (n <= fuel)%nat -> exists e' rs,
    submit_all fuel e evs = Ok (e', rs) /\ length rs = length evs /\
    session_inv (used_after evs used) e'.
Proof.
  revert used e. induction evs as [|ev evs IH]; intros used e Hok Hinv.
  { exists O. intros fuel _. by exists e, []. }
  destruct (session_step used e ev evs Hinv Hok) as (e1 & r & Heq & Hinv1 & Hok1).
  destruct (IH _ _ Hok1 Hinv1) as (n & Hn). exists (Nat.max n (fuel_bound e ev)). intros fuel Hfuel.
  destruct (Hn fuel ltac:(lia)) as (e2 & rs & Heq2 & Hlen & Hinv2).
  exists e2, (r :: rs). rewrite used_after_cons. split_ands; [|by simpl; rewrite Hlen|done].
  simpl. rewrite (submit_mono (fuel_bound e ev) fuel e ev _ ltac:(lia) Heq), bind_ok. by rewrite Heq2.
Qed.

(** Along every session that starts from an empty engine, with enough fuel
    every call returns, none reaches undefined behaviour, and the engine stays
    well-formed: no live order is mark-cancelled at its level. *)
Theorem session_safe evs :
  session_ok evs ∅ ->
  exists n, forall fuel, (n <= fuel)%nat -> exists e' rs,
    submit_all fuel new_engine evs = Ok (e', rs) /\ length rs = length evs /\
    session_inv (used_after evs ∅) e'.
Proof. intros Hok. apply session_run; [done|apply session_inv_new]. Qed.

Lemma session_safe_witness : exists n, forall fuel, (n <= fuel)%nat -> exists e' rs,
  submit_all fuel new_engine
    [NewOrderEvent (demo_order 1 Sell 100 10); NewOrderEvent (demo_order 2 Buy 100 4);
     ReplaceOrderEvent 1 (demo_order 3 Sell 101 5); CancelOrderEvent 3 0] = Ok (e', rs) /\
  length rs = 4%nat.
Proof.
  destruct (session_safe
    [NewOrderEvent (demo_order 1 Sell 100 10); NewOrderEvent (demo_order 2 Buy 100 4);
     ReplaceOrderEvent 1 (demo_order 3 Sell 101 5); CancelOrderEvent 3 0]) as (n & Hn).
  - simpl. split_ands; try set_solver; by vm_compute.
  - exists n. intros fuel Hfuel. destruct (Hn fuel Hfuel) as (e' & rs & ? & ? & _). by exists e', rs.
Defined.
