(* ===== verification/SessionModify.v ===== *)
(** * SessionModify: sessions with modify events

    Deletion marks make modify events delicate: a second removal of an order
    that a modify has moved inside its level is not safe ([Findings]). Sessions
    in which an order that was modified is not modified, cancelled or replaced
    again are safe, matching included. *)

From S2P Require Import Prelude Types PriceLevel OrderBook Engine Market EngineRefine EngineEvents Session.

(** [used]: the ids submitted so far; [moved]: the ids modified so far. *)
Fixpoint modify_session_ok (evs : list OrderEvent) (used moved : gset OrderId) : Prop :=
  match evs with
  | [] => True
  | (NewOrderEvent o) :: evs =>
      (o_id o ∉ used) /\ qty_ranges o /\ modify_session_ok evs ({[o_id o]} ∪ used) moved
  | (CancelOrderEvent id _) :: evs => (id ∉ moved) /\ modify_session_ok evs used moved
  | (ModifyOrder m) :: evs =>
      (m_order_id m ∉ moved) /\ is_u64 (m_new_quantity m) /\
      modify_session_ok evs used ({[m_order_id m]} ∪ moved)
  | (ReplaceOrderEvent old o) :: evs =>
      (old ∉ moved) /\ (o_id o ∉ used) /\ qty_ranges o /\ modify_session_ok evs ({[o_id o]} ∪ used) moved
  end.

Definition knows (e : MatchingEngine) (i : OrderId) : Prop := known i (mstate e [] empty_result).

(** Ids with a deletion mark were used; a known one with a mark was modified. *)
Definition modify_inv (used moved : gset OrderId) (e : MatchingEngine) : Prop :=
  exists K, engine_wf K e /\ K ⊆ used /\ forall i, knows e i -> i ∈ used /\ (i ∈ K -> i ∈ moved).

Lemma modify_inv_new : modify_inv ∅ ∅ new_engine.
Proof.
  exists ∅. split_ands; [apply new_engine_wf|done|]. intros i [[x Hx]|Hi].
  - simpl in Hx. by rewrite lookup_empty in Hx.
  - by apply elem_of_nil in Hi.
Qed.

Lemma knows_order e i o : id_map (book e) !! i = Some o -> knows e i.
Proof. intros Ho. left. simpl. eauto. Qed.

Lemma not_knows_fresh e i : ~ knows e i -> fresh i e.
Proof.
  intros Hn. split.
  - apply eq_None_not_Some. intros [o Ho]. by apply Hn, (knows_order e i o).
  - intros Hin. apply Hn. right. simpl. unfold outside_ids. by rewrite app_nil_r.
Qed.

Lemma fresh_not_knows e i : fresh i e -> ~ knows e i.
Proof.
  intros [H1 H2] [[x Hx]|Hi]; simpl in *; [congruence|]. unfold outside_ids in Hi. by rewrite app_nil_r in Hi.
Qed.

Lemma id_map_insert_order o b : id_map (insert_order o b) = <[o_id o := o]> (id_map b).
Proof. unfold insert_order, put_level. by rewrite id_map_set_levels. Qed.

(** ** What each handler adds to or removes from the known ids *)

Section handlers.
Context (K : gset OrderId) (e : MatchingEngine) (Hwf : engine_wf K e).

Lemma new_knows o e' r i :
  fresh (o_id o) e -> qty_ranges o ->
  steps (mstate e [Active (prepare o)] empty_result) (mstate e' [] r) -> knows e' i ->
  i = o_id o \/ knows e i.
Proof using Hwf.
  intros Hfr Hr Hs Hk. assert (known i (mstate e' [] r)) as Hk' by exact Hk.
  apply (steps_known _ _ i Hs) in Hk'; [|by eapply engine_wf_active].
  unfold known in Hk'. simpl in Hk'. rewrite outside_ids_pop in Hk'. simpl in Hk'. rewrite prepare_id in Hk'.
  unfold knows, known. simpl. set_solver.
Qed.

Lemma remove_knows i o :
  id_map (book e) !! i = Some o -> unmarked i (book e) ->
  forall j, knows (set_book (cancel_order i (book e)).2 e) j -> knows e j /\ j <> i.
Proof using Hwf.
  intros Ho Hum j Hj. destruct (engine_wf_remove K e i o Hwf Ho Hum) as (_ & Habs & Hfr & _).
  split; [|intros ->; by eapply fresh_not_knows].
  destruct Hj as [Hj|Hj]; [left|by right]. simpl in Hj, Habs |- *.
  change (id_map ?b) with (s_orders (abs_book b)) in Hj. rewrite Habs in Hj.
  unfold s_remove in Hj. rewrite s_orders_set_queue in Hj. simpl in Hj.
  destruct Hj as [x [_ Hx]%lookup_delete_Some]. by exists x.
Qed.

(** A cancel changes nothing, drops a pending stop, or removes the order. *)
Lemma cancel_inv used moved id ts :
  K ⊆ used -> (forall i, knows e i -> i ∈ used /\ (i ∈ K -> i ∈ moved)) -> unmarked id (book e) ->
  modify_inv used moved (process_cancel e id ts).1.
Proof using Hwf.
  intros HK Hkn Hum. assert (modify_inv used moved e) as Hsame by by exists K.
  unfold process_cancel. destruct (list_find _ _) as [[i stop]|].
  - exists K. split_ands; [by apply engine_wf_unpend|done|].
    intros j [Hj|Hj]; apply Hkn; [by left|right]. simpl in *. unfold outside_ids in *.
    rewrite app_nil_r in *. eapply elem_of_sublist; [done|].
    apply (fmap_sublist o_id), sublist_delete.
  - unfold find_order. destruct (id_map _ !! id) as [o|] eqn:Ho; [|done].
    destruct (is_resting o); [|done].
    destruct (engine_wf_remove K e id o Hwf Ho Hum) as (Hwf' & _).
    destruct (Hkn id (knows_order _ _ _ Ho)) as [Hu _].
    exists ({[id]} ∪ K). split_ands; [done|set_solver|].
    intros j Hj. apply (remove_knows id o Ho Hum) in Hj as [Hj Hne]. apply Hkn in Hj. set_solver.
Qed.

Lemma modify_knows m i :
  unmarked (m_order_id m) (book e) -> is_u64 (m_new_quantity m) -> knows (process_modify e m).1 i -> knows e i.
Proof using Hwf.
  intros Hum Hq. unfold process_modify, find_order.
  destruct (id_map (book e) !! m_order_id m) as [o|] eqn:Ho; [|done]. destruct (is_resting o); [|done].
  pose proof (wf_key _ (mwf_book _ (ewf_market _ _ Hwf)) _ _ Ho : o_id o = m_order_id m) as Hid.
  destruct (_ || _).
  - fold (modified m o). intros [Hk|Hk]; [|by right].
    change (is_Some (id_map (insert_order (modified m o) (cancel_order (m_order_id m) (book e)).2) !! i)) in Hk.
    rewrite id_map_insert_order, modified_id, Hid in Hk.
    destruct (decide (i = m_order_id m)) as [->|Hne]; [by eapply knows_order|].
    rewrite lookup_insert_ne in Hk by done. apply (remove_knows _ o Ho Hum). by left.
  - case_decide; [|done].
    destruct (engine_wf_reduce K e _ o (m_new_quantity m) (u64 (o_quantity o - m_new_quantity m)) Hwf Ho Hq)
      as [_ Habs].
    intros [Hk|Hk]; [|by right]. simpl in Hk, Habs.
    change (id_map ?b) with (s_orders (abs_book b)) in Hk. rewrite Habs in Hk. simpl in Hk.
    destruct Hk as [x [[<- _]|[_ Hx]]%lookup_insert_Some]; [by eapply knows_order|by eapply knows_order].
Qed.

Lemma replace_knows old x o e' r i :
  id_map (book e) !! old = Some x -> market_wf (replaced x o e) ->
  steps (replaced x o e) (mstate e' [] r) -> knows e' i -> (i <> old /\ knows e i) \/ i = o_id o.
Proof using Hwf.
  intros Hx Hm Hs Hk. pose proof (wf_key _ (mwf_book _ (ewf_market _ _ Hwf)) _ _ Hx : o_id x = old) as <-.
  apply (replaced_known e).
  - intros Hin. pose proof (mwf_fresh _ (ewf_market _ _ Hwf) (o_id x)) as Hfr. simpl in Hfr.
    rewrite Hfr in Hx; [done|]. unfold outside_ids. by rewrite app_nil_r.
  - exact (steps_known _ _ i Hs Hm Hk).
Qed.
End handlers.

(** ** Sessions *)

Lemma modify_inv_unmarked (used moved K : gset OrderId) e i :
  engine_wf K e -> K ⊆ used -> (forall i, knows e i -> i ∈ used /\ (i ∈ K -> i ∈ moved)) -> i ∉ moved ->
  unmarked i (book e).
Proof.
  intros Hwf HK Hkn Hi o l Ho Hl Hin. destruct (Hkn i (knows_order _ _ _ Ho)) as [_ Hn].
  destruct Hwf as [Hok _]. destruct (Hok _ _ _ Hl) as (_ & _ & Hsub). set_solver.
Qed.

(** The precondition of the next event holds. *)
Lemma modify_admissible used moved e ev evs :
  modify_inv used moved e -> modify_session_ok (ev :: evs) used moved -> exists K, engine_wf K e /\ admissible e ev.
Proof.
  intros (K & Hwf & HK & Hkn) Hok. exists K. split; [done|].
  assert (forall i, i ∉ used -> fresh i e) as Hfr.
  { intros i Hi. apply not_knows_fresh. intros ?%Hkn. tauto. }
  destruct ev as [o|id ts|m|old o]; simpl in Hok |- *.
  - destruct Hok as (Hid & Hr & _). auto.
  - destruct Hok as [Hid _]. by eapply modify_inv_unmarked.
  - destruct Hok as (Hid & Hq & _). split; [by eapply modify_inv_unmarked|done].
  - destruct Hok as (Hold & Hid & Hr & _). destruct (Hfr _ Hid). split_ands; [by eapply modify_inv_unmarked|done|by right|done].
Qed.

(** The ids used and modified after an event. *)
Definition used_by_event (ev : OrderEvent) (used : gset OrderId) : gset OrderId :=
  match ev with NewOrderEvent o | ReplaceOrderEvent _ o => {[o_id o]} ∪ used | _ => used end.
Definition moved_by_event (ev : OrderEvent) (moved : gset OrderId) : gset OrderId :=
  match ev with ModifyOrder m => {[m_order_id m]} ∪ moved | _ => moved end.

Lemma modify_step used moved e ev evs :
  modify_inv used moved e -> modify_session_ok (ev :: evs) used moved ->
  exists e' r, submit (fuel_bound e ev) e ev = Ok (e', r) /\
    modify_inv (used_by_event ev used) (moved_by_event ev moved) e' /\
    modify_session_ok evs (used_by_event ev used) (moved_by_event ev moved).
Proof.
  intros (K & Hwf0 & HK & Hkn0) Hok. unfold submit.
  set (e1 := mkEngine (book e) (u64 (sequence e + 1)) (pending_stops e)).
  assert (engine_wf K e1) as Hwf by by apply set_sequence_wf.
  assert (forall i, knows e1 i -> i ∈ used /\ (i ∈ K -> i ∈ moved)) as Hkn by exact Hkn0.
  destruct ev as [o|id ts|m|old o]; simpl in Hok |- *.
  - destruct Hok as (Hid & Hr & Hok).
    assert (fresh (o_id o) e1) as Hfr by (apply not_knows_fresh; intros ?%Hkn; tauto).
    destruct (process_new_order_total K e1 o Hwf Hfr Hr) as (e' & r & Heq & Hwf' & Hs).
    exists e', r. split_ands; [done| |done]. exists K. split_ands; [done|set_solver|].
    intros i Hi. destruct (new_knows K e1 Hwf o e' r i Hfr Hr Hs Hi) as [->|Hk%Hkn]; set_solver.
  - destruct Hok as [Hid Hok]. eexists _, _. rewrite (surjective_pairing (process_cancel e1 id ts)).
    split_ands; [done| |done]. apply (cancel_inv K e1 Hwf); [done|done|]. by eapply modify_inv_unmarked.
  - destruct Hok as (Hid & Hq & Hok). eexists _, _. rewrite (surjective_pairing (process_modify e1 m)).
    split_ands; [done| |done].
    assert (unmarked (m_order_id m) (book e1)) as Hum by by eapply modify_inv_unmarked.
    destruct (id_map (book e1) !! m_order_id m) as [o|] eqn:Ho.
    + exists ({[m_order_id m]} ∪ K). destruct (Hkn _ (knows_order _ _ _ Ho)) as [Hu _].
      split_ands; [by apply process_modify_wf|set_solver|].
      intros i Hi%(modify_knows K e1 Hwf); [|done|done]. apply Hkn in Hi. set_solver.
    + unfold process_modify, find_order. rewrite Ho. exists K. split_ands; [done|done|].
      intros i Hi%Hkn. set_solver.
  - destruct Hok as (Hold & Hid & Hr & Hok).
    assert (~ knows e1 (o_id o)) as Hnk by (intros ?%Hkn; tauto).
    destruct (not_knows_fresh _ _ Hnk) as [Hf1 Hf2].
    assert (admissible e1 (ReplaceOrderEvent old o)) as Hadm.
    { simpl. split_ands; [by eapply modify_inv_unmarked|done|by right|done]. }
    destruct (id_map (book e1) !! old) as [x|] eqn:Hx.
    + destruct (replace_run _ _ _ _ _ Hwf Hadm Hx) as (e' & r & Heq & Hwf' & Hm & Hs).
      destruct (Hkn _ (knows_order _ _ _ Hx)) as [Hu _].
      exists e', r. split_ands; [done| |done]. exists ({[old]} ∪ K). split_ands; [done|set_solver|].
      intros i Hi. destruct (replace_knows K e1 Hwf old x o e' r i Hx Hm Hs Hi) as [[Hne Hk%Hkn]| ->];
        [set_solver|]. assert (o_id o <> old) by (intros Heqx; apply Hnk; rewrite Heqx; by eapply knows_order).
      set_solver.
    + eexists _, _. split_ands; [by apply process_replace_reject| |done].
      exists K. split_ands; [done|set_solver|]. intros i Hi%Hkn. set_solver.
Qed.

Lemma modify_session_run evs : forall used moved e,
  modify_session_ok evs used moved -> modify_inv used moved e ->
  exists n, forall fuel, (n <= fuel)%nat -> exists e' rs used' moved',
    submit_all fuel e evs = Ok (e', rs) /\ length rs = length evs /\ modify_inv used' moved' e'.
Proof.
  induction evs as [|ev evs IH]; intros used moved e Hok Hinv.
  { exists O. intros fuel _. by exists e, [], used, moved. }
  destruct (modify_step used moved e ev evs Hinv Hok) as (e1 & r & Heq & Hinv1 & Hok1).
  destruct (IH _ _ _ Hok1 Hinv1) as (n & Hn). exists (Nat.max n (fuel_bound e ev)). intros fuel Hfuel.
  destruct (Hn fuel ltac:(lia)) as (e2 & rs & used' & moved' & Heq2 & Hlen & Hinv2).
  exists e2, (r :: rs), used', moved'. split_ands; [|by simpl; rewrite Hlen|done].
  simpl. rewrite (submit_mono (fuel_bound e ev) fuel e ev _ ltac:(lia) Heq), bind_ok. by rewrite Heq2.
Qed.

(** C3. Sessions with all four kinds of events are safe when every submitted
    id is new and an order that was modified is not modified, cancelled or
    replaced again: with enough fuel every call returns, none reaches undefined
    behaviour, and the engine stays well-formed. *)
Theorem modify_session_safe evs :
  modify_session_ok evs ∅ ∅ ->
  exists n, forall fuel, (n <= fuel)%nat -> exists e' rs used moved,
    submit_all fuel new_engine evs = Ok (e', rs) /\ length rs = length evs /\ modify_inv used moved e'.
Proof. intros Hok. apply (modify_session_run evs ∅ ∅); [done|apply modify_inv_new]. Qed.

Definition modify_demo : list OrderEvent :=
  [NewOrderEvent (demo_order 1 Sell 100 10); NewOrderEvent (demo_order 2 Sell 100 10);
   ModifyOrder (mkModify 2 0 20 0); CancelOrderEvent 1 0; NewOrderEvent (demo_order 3 Buy 100 30);
   ReplaceOrderEvent 3 (demo_order 4 Buy 99 5)].

Lemma modify_session_safe_witness : exists n, forall fuel, (n <= fuel)%nat -> exists e' rs,
  submit_all fuel new_engine modify_demo = Ok (e', rs) /\ length rs = 6%nat.
Proof.
  destruct (modify_session_safe modify_demo) as (n & Hn).
  - simpl. unfold qty_ranges. simpl. split_ands; try done; set_solver.
  - exists n. intros fuel Hf. destruct (Hn fuel Hf) as (e' & rs & _ & _ & Heq & Hlen & _).
    exists e', rs. split; [exact Heq|exact Hlen].
Defined.
