(* ===== verification/Trading.v ===== *)
(** * Trading: invariants of price-time priority trading

    Invariants of the abstract market proved by rule induction on [step], and
    carried to [process_new_order] by the refinement of [EngineRefine]. *)

From S2P Require Import Prelude Types PriceLevel OrderBook Engine Market EngineRefine EngineEvents.

(** ** The machine is deterministic *)

Lemma done_not_fill a b p i rest :
  done_matching a b -> 0 < o_quantity a -> s_best (opposite (o_side a)) b = Some (p, i :: rest) ->
  accepts a p -> False.
Proof. intros [?|Hd] ? Hb Ha; [lia|]. by apply (Hd _ _ Hb). Qed.

Lemma step_deterministic m m1 m2 : step m m1 -> step m m2 -> m1 = m2.
Proof.
  intros H1 H2.
  destruct H1; inversion H2; subst; clear H2; try done; simplify_eq; try done; exfalso;
    unfold is_stop in *;
    first [by eauto using done_not_fill|lia|
      repeat match goal with H : _ \/ _ |- _ => destruct H end; (congruence || lia || naive_solver)].
Qed.

Lemma steps_deterministic m m1 m2 :
  steps m m1 -> steps m m2 -> mk_stack m1 = [] -> mk_stack m2 = [] -> m1 = m2.
Proof.
  induction 1 as [m|m x m1 Hx Hs IH]; intros H2 He1 He2.
  - inversion H2 as [|? y ? Hy]; subst; [done|]. inversion Hy; subst; simpl in *; done.
  - inversion H2 as [|? y ? Hy]; subst; [inversion Hx; subst; simpl in *; done|].
    rewrite (step_deterministic _ _ _ Hx Hy) in *. by apply IH.
Qed.

(** ** Types: what rests, what waits *)

Definition may_rest (o : Order) : Prop := o_type o = Limit \/ o_type o = Iceberg.
#[global] Instance may_rest_dec o : Decision (may_rest o).
Proof. unfold may_rest. apply _. Defined.

Record typed (m : market) : Prop := {
  ty_book : forall i o, s_orders (mk_book m) !! i = Some o -> may_rest o;
  ty_pending : Forall is_stop (mk_pending m);
  ty_stack : Forall (fun x => match x with Active _ => True | Queued _ o => is_stop o end) (mk_stack m);
}.

(** An order that a fill leaves in the book is the one it was, with other
    quantities. *)
Lemma s_fill_lookup o rest fill b i x :
  s_orders b !! o_id o = Some o ->
  s_orders (s_fill o rest fill b) !! i = Some x ->
  exists y, s_orders b !! i = Some y /\ o_id x = o_id y /\ o_side x = o_side y /\ o_type x = o_type y /\
    o_price x = o_price y /\ o_peak_qty x = o_peak_qty y.
Proof.
  intros Ho. destruct (decide (i = o_id o)) as [->|Hi].
  2: { rewrite s_fill_orders by done. intros Hx. by exists x. }
  unfold s_fill, s_remove. case_decide; [destruct (_ && _)|]; simpl;
    rewrite ?s_orders_set_queue; simpl; rewrite ?lookup_insert_eq, ?lookup_delete_eq; intros; simplify_eq;
    by exists o.
Qed.

Lemma settle_lookup a b i x :
  s_orders (settle a b) !! i = Some x -> s_orders b !! i = Some x \/ (i = o_id a /\ x = mark_filled a).
Proof.
  unfold settle. case_decide; [|by left]. unfold s_insert.
  rewrite s_orders_set_queue, mark_filled_id. simpl.
  intros [[<- <-]|[_ ?]]%lookup_insert_Some; [by right|by left].
Qed.

Lemma mark_filled_type o : o_type (mark_filled o) = o_type o.
Proof. unfold mark_filled. by case_decide. Qed.

Lemma Forall_wake (P : entry -> Prop) (Q : Order -> Prop) p pend st :
  Forall Q pend -> Forall P st -> (forall o, Q o -> P (Queued p o)) ->
  Forall Q (asleep p pend) /\ Forall P (wake p pend st).
Proof.
  intros HQ HP HPQ. unfold asleep, wake. case_decide; [done|]. split; [constructor|].
  apply Forall_app. split; [|done]. apply Forall_map. by eapply Forall_impl.
Qed.

Lemma step_typed m m' : market_wf m -> step m m' -> typed m -> typed m'.
Proof.
  intros Hwf Hstep [Hb Hp Hs]. destruct Hstep; simpl in *; apply Forall_cons in Hs as [Ha Hs].
  - destruct Hwf as [Hbwf _ _ _ _ _].
    destruct (best_front _ _ _ _ _ _ Hbwf H1 H3) as (<- & _).
    destruct (Forall_wake (fun x => match x with Active _ => True | Queued _ o => is_stop o end)
      is_stop p pend (Active (set_quantity (o_quantity a - fill) a) :: st) Hp) as [? ?];
      [by constructor|done|].
    split; simpl; try done. intros j x (y & Hy & _ & _ & Ht & _)%s_fill_lookup; [|done].
    unfold may_rest. rewrite Ht. by apply (Hb j).
  - split; simpl; try done. intros j x [Hx|[-> ->]]%settle_lookup; [eauto|].
    unfold may_rest. by rewrite mark_filled_type.
  - by split.
  - by split.
  - split; simpl; try done. apply Forall_app. by split; [|constructor].
  - split; simpl; try done. by constructor.
  - split; simpl; try done. apply Forall_app. by split; [|constructor].
  - split; simpl; try done. by constructor.
Qed.

Lemma steps_typed m m' : steps m m' -> market_wf m -> typed m -> typed m'.
Proof. induction 1; eauto using step_wf, step_typed. Qed.

Definition typed_engine (e : MatchingEngine) : Prop := typed (mstate e [] empty_result).

Lemma typed_active e o : typed_engine e -> typed (mstate e [Active o] empty_result).
Proof. intros [? ? ?]. split; try done. by constructor. Qed.

Lemma typed_result b ltp pend st r r' :
  typed (mkMarket b ltp pend st r) -> typed (mkMarket b ltp pend st r').
Proof. by intros [? ? ?]. Qed.

(** ** Terms of trade

    The limit of an order, which conversions keep: market orders and stops
    accept any price. *)
Definition limit_price (o : Order) : option Price :=
  match o_type o with
  | Limit | StopLimit | Iceberg => Some (o_price o)
  | Market | Stop => None
  end.

(** [x] and [y] are the same order at different times. *)
Definition same_terms (x y : Order) : Prop :=
  o_id x = o_id y /\ o_side x = o_side y /\ limit_price x = limit_price y.

(** The order is somewhere in the market. *)
Definition has (x : Order) (m : market) : Prop :=
  s_orders (mk_book m) !! o_id x = Some x \/ x ∈ mk_pending m \/ x ∈ map entry_order (mk_stack m).

(** The price [p] is not worse for [o] than its limit. *)
Definition within_limit (o : Order) (p : Price) : Prop :=
  forall lim, limit_price o = Some lim ->
    match o_side o with Buy => p <= lim | Sell => lim <= p end.

(** [t] is a trade between two orders of [m] on opposite sides, at the limit of
    the passive order and within the limit of the aggressor. *)
Definition fair_trade (m : market) (t : Trade) : Prop :=
  exists a p, has a m /\ has p m /\ o_id a = t_aggressor_id t /\ o_id p = t_passive_id t /\
    o_side p = opposite (o_side a) /\
    t_aggressor_side t = (if is_buy a then ABuy else ASell) /\
    limit_price p = Some (t_price t) /\ within_limit a (t_price t) /\ 0 <= t_quantity t.

Lemma same_terms_prepare_convert o : is_stop o -> same_terms (prepare (convert o)) o.
Proof.
  intros Hs. unfold same_terms. rewrite prepare_id, convert_id, prepare_side.
  split_ands; [done|unfold convert; by case_decide|].
  unfold limit_price. rewrite prepare_type, prepare_price. unfold convert. simpl.
  by destruct Hs as [Hs|Hs]; rewrite Hs.
Qed.

Lemma has_wake x p pend st b ltp r :
  x ∈ asleep p pend \/ x ∈ map entry_order (wake p pend st) ->
  has x (mkMarket b ltp pend st r).
Proof.
  unfold asleep, wake, has. simpl. case_decide; [naive_solver|].
  rewrite map_app, map_map, map_id. set_solver.
Qed.

(** Every order of the next state is an order of the previous one. *)
Lemma step_has m m' x :
  market_wf m -> typed m -> step m m' -> has x m' -> exists y, has y m /\ same_terms x y.
Proof.
  intros Hwf [Hb Hp Hs] Hstep Hx. destruct Hstep; simpl in *; apply Forall_cons in Hs as [Ha Hs].
  - destruct Hwf as [Hbwf _ _ _ _ _]. destruct (best_front _ _ _ _ _ _ Hbwf H1 H3) as (<- & _).
    destruct Hx as [Hx|Hx]; simpl in Hx.
    + apply s_fill_lookup in Hx as (y & Hy & Hid & Hsd & Ht & Hpr & _); [|done].
      pose proof (wf_key _ Hbwf _ _ Hy). exists y. split; [left; simpl; congruence|].
      unfold same_terms, limit_price. by rewrite Hid, Hsd, Ht, Hpr.
    + apply (has_wake _ _ _ _ b ltp r) in Hx. destruct Hx as [Hx|[Hx|Hx]]; simpl in Hx.
      * exists x. by split; [left|].
      * exists x. by split; [right; left|].
      * apply elem_of_cons in Hx as [->|Hx].
        -- exists a. split; [|done]. right; right. simpl. set_solver.
        -- exists x. split; [|done]. right; right. simpl. set_solver.
  - destruct Hx as [Hx|Hx]; simpl in Hx.
    + apply settle_lookup in Hx as [Hx|[_ ->]]; [exists x; by split; [left|]|].
      exists a. split; [right; right; simpl; set_solver|].
      unfold same_terms, limit_price. rewrite mark_filled_id, mark_filled_side, mark_filled_type.
      by rewrite mark_filled_price.
    + exists x. split; [|done]. right. simpl. set_solver.
  - exists x. split; [|done]. destruct Hx as [Hx|Hx]; simpl in Hx; [by left|right; simpl; set_solver].
  - exists x. split; [|done]. destruct Hx as [Hx|Hx]; simpl in Hx; [by left|right; simpl; set_solver].
  - exists x. split; [|done]. destruct Hx as [Hx|Hx]; simpl in Hx; [by left|right; simpl; set_solver].
  - destruct Hx as [Hx|[Hx|Hx]]; simpl in Hx; [exists x; by split; [left|]|exists x; by split; [right; left|]|].
    apply elem_of_cons in Hx as [->|Hx]; [exists a|exists x]; (split; [right; right; simpl; set_solver|]); [|done].
    by apply same_terms_prepare_convert.
  - exists x. split; [|done]. destruct Hx as [Hx|Hx]; simpl in Hx; [by left|right; simpl; set_solver].
  - destruct Hx as [Hx|[Hx|Hx]]; simpl in Hx; [exists x; by split; [left|]|exists x; by split; [right; left|]|].
    apply elem_of_cons in Hx as [->|Hx]; [exists a|exists x]; (split; [right; right; simpl; set_solver|]); [|done].
    by apply same_terms_prepare_convert.
Qed.

Lemma fair_trade_back m m' t :
  market_wf m -> typed m -> step m m' -> fair_trade m' t -> fair_trade m t.
Proof.
  intros Hwf Hty Hstep (a & p & Ha & Hp & Hida & Hidp & Hopp & Hagg & Hlim & Hin & Hq).
  apply (step_has _ _ _ Hwf Hty Hstep) in Ha as (a' & Ha' & Hia & Hsa & Hla).
  apply (step_has _ _ _ Hwf Hty Hstep) in Hp as (p' & Hp' & Hip & Hsp & Hlp).
  exists a', p'. unfold within_limit, is_buy in *.
  rewrite <- Hia, <- Hip, <- Hsa, <- Hsp, <- Hla, <- Hlp. by split_ands.
Qed.

(** The trades a step executes. *)
Lemma step_trades m m' :
  market_wf m -> typed m -> step m m' ->
  exists ts, mr_trades (mk_result m') = mr_trades (mk_result m) ++ ts /\ Forall (fair_trade m) ts.
Proof.
  intros Hwf [Hb Hp Hs] Hstep. destruct Hstep; simpl in *;
    try (exists []; rewrite app_nil_r; by split).
  eexists; split; [done|]. apply Forall_singleton. destruct Hwf as [Hbwf _ _ Ho _ Hst].
  simpl in *. destruct (best_front _ _ _ _ _ _ Hbwf H1 H3) as (Hid & Hside & Hprice & _). subst i.
  exists a, o. split_ands; try done.
  - right; right. simpl. set_solver.
  - by left.
  - unfold limit_price. destruct (Hb _ _ H3) as [->| ->]; done.
  - intros lim Hlim. unfold limit_price in Hlim. unfold accepts in *. simpl. rewrite Hprice.
    destruct (o_type a) eqn:Ht; simplify_eq; by destruct H2.
  - simpl. apply Forall_cons in Hst as [(? & _) _]. destruct (Ho _ _ H3) as (? & _). u64_lia.
Qed.

Lemma steps_trades m m' :
  steps m m' -> market_wf m -> typed m ->
  exists ts, mr_trades (mk_result m') = mr_trades (mk_result m) ++ ts /\ Forall (fair_trade m) ts.
Proof.
  induction 1 as [m|m x m' Hx Hs IH]; intros Hwf Hty.
  { exists []. by rewrite app_nil_r. }
  destruct (step_trades _ _ Hwf Hty Hx) as (ts1 & Heq1 & Hf1).
  destruct (IH (step_wf _ _ Hx Hwf) (step_typed _ _ Hwf Hx Hty)) as (ts2 & Heq2 & Hf2).
  exists (ts1 ++ ts2). rewrite Heq2, Heq1, assoc by apply _. split; [done|].
  apply Forall_app. split; [done|]. eapply Forall_impl; [done|]. intros t.
  by apply fair_trade_back.
Qed.

(** ** Conservation of quantity *)

(** What an order may still trade. *)
Definition open_qty (o : Order) : Z := o_quantity o + o_reserve_qty o.

(** Only icebergs with a peak have a reserve. *)
Definition sane (o : Order) : Prop :=
  o_reserve_qty o = 0 \/ (o_type o = Iceberg /\ 0 < o_peak_qty o).
#[global] Instance sane_dec o : Decision (sane o).
Proof. unfold sane. apply _. Defined.

Record market_sane (m : market) : Prop := {
  sane_book : forall i o, s_orders (mk_book m) !! i = Some o -> sane o;
  sane_pending : Forall sane (mk_pending m);
  sane_stack : Forall (fun x => sane (entry_order x)) (mk_stack m);
}.

Definition open_total (m : market) : Z :=
  msum open_qty (s_orders (mk_book m)) + zsum open_qty (mk_pending m) +
  zsum (fun x => open_qty (entry_order x)) (mk_stack m).

Definition traded (r : MatchResult) : Z := zsum t_quantity (mr_trades r).

Lemma sane_convert o : is_stop o -> sane o -> sane (prepare (convert o)).
Proof.
  intros Hs [Hr|[Ht _]]; [|destruct Hs; congruence]. left. unfold prepare.
  rewrite decide_False; [unfold convert; by case_decide|].
  simpl. by destruct (convert_type o) as [->| ->].
Qed.

Lemma open_convert o : is_stop o -> open_qty (prepare (convert o)) = open_qty o.
Proof.
  intros Hs. unfold open_qty. rewrite prepare_convert_quantity. f_equal. unfold prepare.
  rewrite decide_False; [unfold convert; by case_decide|].
  simpl. by destruct (convert_type o) as [->| ->].
Qed.

Section fill_open.
Context (o : Order) (rest : list OrderId) (fill : Quantity) (b : sbook).
Context (Ho : s_orders b !! o_id o = Some o) (Hs : sane o).

Lemma s_fill_sane :
  (forall i x, s_orders b !! i = Some x -> sane x) ->
  forall i x, s_orders (s_fill o rest fill b) !! i = Some x -> sane x.
Proof.
  intros Hb i x. destruct (decide (i = o_id o)) as [->|Hi].
  2: { rewrite s_fill_orders by done. apply Hb. }
  unfold s_fill, s_remove. case_decide; [destruct (_ && _) eqn:Hi|]; simpl;
    rewrite ?s_orders_set_queue; simpl; rewrite ?lookup_insert_eq, ?lookup_delete_eq; intros; simplify_eq.
  - apply andb_true_iff in Hi as [_ Hi%bool_decide_eq_true]. destruct Hs as [?|?]; [lia|by right].
  - done.
Qed.

Lemma s_fill_open : 0 <= o_reserve_qty o ->
  msum open_qty (s_orders (s_fill o rest fill b)) = msum open_qty (s_orders b) - fill.
Proof.
  intros Hr. unfold s_fill, s_remove. case_decide as Hz; [destruct (_ && _) eqn:Hi|]; simpl;
    rewrite ?s_orders_set_queue; simpl in *.
  - rewrite (msum_update _ _ _ _ _ Ho). unfold open_qty. simpl. lia.
  - rewrite (msum_delete _ _ _ _ Ho). unfold open_qty. simpl.
    enough (o_reserve_qty o = 0) by lia. destruct Hs as [?|[_ Hp]]; [done|].
    unfold is_iceberg in Hi. rewrite bool_decide_eq_true_2 in Hi by done.
    apply bool_decide_eq_false in Hi. lia.
  - rewrite (msum_update _ _ _ _ _ Ho). unfold open_qty. simpl. lia.
Qed.
End fill_open.

Lemma step_sane m m' : market_wf m -> typed m -> step m m' -> market_sane m -> market_sane m'.
Proof.
  intros Hwf [_ _ Hty] Hstep [Hb Hp Hs]. destruct Hstep; simpl in *; apply Forall_cons in Hs as [Ha Hs].
  - destruct Hwf as [Hbwf _ _ _ _ _]. destruct (best_front _ _ _ _ _ _ Hbwf H1 H3) as (<- & _).
    destruct (Forall_wake (fun x => sane (entry_order x)) sane p pend
      (Active (set_quantity (o_quantity a - fill) a) :: st) Hp) as [? ?]; [by constructor|done|].
    split; simpl; try done. eapply s_fill_sane; eauto.
  - split; simpl; try done. intros j x [Hx|[-> ->]]%settle_lookup; [eauto|].
    unfold mark_filled. by case_decide.
  - by split.
  - by split.
  - split; simpl; try done. apply Forall_app. by split; [|constructor].
  - split; simpl; try done. constructor; [|done]. by apply sane_convert.
  - split; simpl; try done. apply Forall_app. by split; [|constructor].
  - split; simpl; try done. constructor; [|done]. apply sane_convert; [|done].
    by apply Forall_cons in Hty as [? _].
Qed.

Lemma traded_push t r : traded (push_trade t r) = traded r + t_quantity t.
Proof. unfold traded. simpl. rewrite zsum_app. simpl. lia. Qed.

(** A step keeps open plus twice traded quantity, or rejects a market order
    that found the book exhausted. *)
Lemma settle_open a b :
  s_orders b !! o_id a = None -> qty_ranges a -> may_rest a -> sane a ->
  msum open_qty (s_orders (settle a b)) = msum open_qty (s_orders b) + open_qty a.
Proof.
  intros Hfr ((? & _) & _ & (? & _)) Ht Hs. unfold settle. case_decide as Hk.
  - unfold s_insert. rewrite s_orders_set_queue. simpl. rewrite msum_insert by by rewrite mark_filled_id.
    unfold open_qty at 1. rewrite mark_filled_quantity.
    enough (o_reserve_qty (mark_filled a) = o_reserve_qty a) as -> by (unfold open_qty; lia).
    unfold mark_filled. by case_decide.
  - unfold open_qty. destruct Hs as [?|[? ?]]; [lia|].
    assert (~ 0 < o_reserve_qty a) by tauto. lia.
Qed.

Lemma step_conserves m m' :
  market_wf m -> typed m -> market_sane m -> step m m' ->
  exists rej lost, mr_rejections (mk_result m') = mr_rejections (mk_result m) ++ rej /\
    open_total m' + 2 * traded (mk_result m') + lost = open_total m + 2 * traded (mk_result m) /\
    0 <= lost /\ (rej = [] -> lost = 0).
Proof.
  intros Hwf [_ _ Hty] [Hb Hp Hs] Hstep. unfold open_total.
  destruct Hstep; simpl in *; apply Forall_cons in Hs as [Ha Hs]; simpl in Ha.
  - exists [], 0. rewrite app_nil_r. split_ands; try done. destruct Hwf as [Hbwf _ _ Ho _ _].
    destruct (best_front _ _ _ _ _ _ Hbwf H1 H3) as (<- & _).
    rewrite s_fill_open by (eauto; destruct (Ho _ _ H3) as (_ & _ & ? & _); done).
    rewrite traded_push.
    pose proof (zsum_wake open_qty p pend (Active (set_quantity (o_quantity a - fill) a) :: st)) as Hw.
    assert (open_qty (set_quantity (o_quantity a - fill) a) = open_qty a - fill) as Hqa
      by (unfold open_qty; simpl; lia).
    simpl in Hw |- *. lia.
  - exists [], 0. rewrite app_nil_r. split_ands; try done.
    pose proof (market_wf_active _ _ _ _ _ _ Hwf) as Hr. destruct Hwf as [_ _ Hf _ _ _].
    rewrite settle_open; try done; [lia|]. apply Hf. simpl. rewrite outside_ids_pop. set_solver.
  - exists [], 0. rewrite app_nil_r. split_ands; try done.
    destruct (market_wf_active _ _ _ _ _ _ Hwf) as ((? & _) & _).
    destruct Ha as [Ha|[? _]]; [|congruence].
    assert (open_qty a = 0) by (unfold open_qty; lia). lia.
  - exists [exhausted a], (open_qty a). split_ands; try done; [unfold traded; simpl; lia|].
    unfold open_qty. destruct (market_wf_active _ _ _ _ _ _ Hwf) as ((? & _) & _ & ? & _). lia.
  - exists [], 0. rewrite app_nil_r. split_ands; try done. rewrite zsum_app. simpl. lia.
  - exists [], 0. rewrite app_nil_r. split_ands; try done. rewrite open_convert by done. lia.
  - exists [], 0. rewrite app_nil_r. split_ands; try done. rewrite zsum_app. simpl. lia.
  - exists [], 0. rewrite app_nil_r. split_ands; try done.
    rewrite open_convert; [lia|]. by apply Forall_cons in Hty as [? _].
Qed.

Lemma steps_conserve m m' :
  steps m m' -> market_wf m -> typed m -> market_sane m ->
  exists rej lost, mr_rejections (mk_result m') = mr_rejections (mk_result m) ++ rej /\
    open_total m' + 2 * traded (mk_result m') + lost = open_total m + 2 * traded (mk_result m) /\
    0 <= lost /\ (rej = [] -> lost = 0).
Proof.
  induction 1 as [m|m x m' Hx Hs IH]; intros Hwf Hty Hsa.
  { exists [], 0. rewrite app_nil_r. split_ands; try done. lia. }
  destruct (step_conserves _ _ Hwf Hty Hsa Hx) as (r1 & l1 & Hr1 & Heq1 & ? & Hl1).
  destruct (IH (step_wf _ _ Hx Hwf) (step_typed _ _ Hwf Hx Hty) (step_sane _ _ Hwf Hty Hx Hsa))
    as (r2 & l2 & Hr2 & Heq2 & ? & Hl2).
  exists (r1 ++ r2), (l1 + l2).
  split_ands; [by rewrite Hr2, Hr1, <- app_assoc|lia|lia|]. intros [-> ->]%app_nil. rewrite Hl1, Hl2 by done. lia.
Qed.

(** ** The book stays uncrossed *)

(** Every resting buy is below every resting sell. *)
Definition uncrossed (b : sbook) : Prop :=
  forall i j x y, s_orders b !! i = Some x -> s_orders b !! j = Some y ->
    o_side x = Buy -> o_side y = Sell -> o_price x < o_price y.

Definition no_iceberg (m : market) : Prop :=
  Forall (fun x => o_type (entry_order x) <> Iceberg) (mk_stack m) /\
  Forall (fun o => o_type o <> Iceberg) (mk_pending m).

Lemma prepare_convert_type o : o_type (prepare (convert o)) <> Iceberg.
Proof. rewrite prepare_type. by destruct (convert_type o) as [->| ->]. Qed.

Lemma step_no_iceberg m m' : step m m' -> no_iceberg m -> no_iceberg m'.
Proof.
  unfold no_iceberg. intros Hstep [Hs Hp].
  destruct Hstep; simpl in *; apply Forall_cons in Hs as [Ha Hs]; try done.
  - destruct (Forall_wake (fun x => o_type (entry_order x) <> Iceberg) (fun o => o_type o <> Iceberg)
      p pend (Active (set_quantity (o_quantity a - fill) a) :: st) Hp); [by constructor|done..].
  - split; [done|]. apply Forall_app. by split; [|constructor].
  - split; [|done]. constructor; [apply prepare_convert_type|done].
  - split; [done|]. apply Forall_app. by split; [|constructor].
  - split; [|done]. constructor; [apply prepare_convert_type|done].
Qed.

(** The best price of a side bounds every order of the side. *)
Lemma order_behind_best s b i o :
  sbook_wf b -> s_orders b !! i = Some o -> o_side o = s ->
  exists p q, s_best s b = Some (p, q) /\ prio s p (o_price o).
Proof.
  intros Hwf Ho <-. assert (i ∈ s_queue (o_side o) (o_price o) b) as Hin.
  { apply (wf_indexed _ Hwf). eauto. }
  assert (s_levels (o_side o) b !! o_price o = Some (s_queue (o_side o) (o_price o) b)) as Hl.
  { apply s_queue_level; [done|]. intros Hq. rewrite Hq in Hin. set_solver. }
  destruct (s_best (o_side o) b) as [[p q]|] eqn:Hb.
  - exists p, q. split; [done|]. apply s_best_Some in Hb as [_ Hmin]. eauto.
  - apply s_best_None in Hb. by rewrite Hb, lookup_empty in Hl.
Qed.

(** An order that is done matching and still open rests outside the other
    side. *)
Lemma done_matching_outside a b j y :
  sbook_wf b -> done_matching a b -> 0 < o_quantity a -> o_type a <> Market ->
  s_orders b !! j = Some y -> o_side y = opposite (o_side a) -> ~ accepts a (o_price y).
Proof.
  intros Hwf [?|Hd] Hq Ht Hy Hside; [lia|].
  destruct (order_behind_best _ _ _ _ Hwf Hy Hside) as (p & q & Hb & Hp).
  specialize (Hd _ _ Hb). intros [?|Ha]; [done|]. apply Hd. right.
  destruct (o_side a); simpl in *; lia.
Qed.

Lemma step_uncrossed m m' :
  market_wf m -> no_iceberg m -> step m m' -> uncrossed (mk_book m) -> uncrossed (mk_book m').
Proof.
  intros Hwf [Hni _] Hstep Hun. destruct Hwf as [Hbwf _ _ _ _ _]. destruct Hstep; simpl in *; try done.
  - destruct (best_front _ _ _ _ _ _ Hbwf H1 H3) as (<- & _). intros i j x y Hx Hy Hsx Hsy.
    apply s_fill_lookup in Hx as (x' & Hx & _ & Hsx' & _ & -> & _); [|done].
    apply s_fill_lookup in Hy as (y' & Hy & _ & Hsy' & _ & -> & _); [|done].
    eapply Hun; [done|done|congruence|congruence].
  - apply Forall_cons in Hni as [Ha _]. simpl in Ha.
    assert (o_type a <> Market) as Hmk by (destruct H; congruence).
    destruct (decide (0 < o_quantity a)) as [Hq|Hq].
    2: { unfold settle. by rewrite decide_False by tauto. }
    pose proof (fun j y => done_matching_outside a b j y Hbwf H0 Hq Hmk) as Hout. unfold accepts in Hout.
    intros i j x y [Hx|[-> ->]]%settle_lookup [Hy|[-> ->]]%settle_lookup Hsx Hsy;
      rewrite ?mark_filled_side, ?mark_filled_price in *; [by eauto| | |congruence].
    + specialize (Hout _ _ Hx). rewrite Hsy in Hout. specialize (Hout Hsx). lia.
    + specialize (Hout _ _ Hy). rewrite Hsx in Hout. specialize (Hout Hsy). lia.
Qed.

Lemma steps_uncrossed m m' :
  steps m m' -> market_wf m -> no_iceberg m -> uncrossed (mk_book m) -> uncrossed (mk_book m').
Proof. induction 1; eauto using step_wf, step_no_iceberg, step_uncrossed. Qed.

(** ** Which stops wait *)

(** No pending stop is triggered by the last trade price. *)
Definition quiet (m : market) : Prop :=
  Forall (fun s => mk_ltp m = 0 \/ stop_triggered (mk_ltp m) s = false) (mk_pending m).

Definition queued_at (lp : Price) (x : entry) : Prop :=
  match x with Active _ => True | Queued lp' _ => lp' = lp end.
Definition not_queued (x : entry) : Prop := match x with Active _ => True | Queued _ _ => False end.

(** What holds while at most one trade was executed. *)
Definition quiet_inv (m : market) : Prop :=
  match mr_trades (mk_result m) with
  | [] => quiet m /\ Forall not_queued (mk_stack m)
  | [_] => quiet m /\ Forall (queued_at (mk_ltp m)) (mk_stack m)
  | _ => True
  end.

Lemma quiet_inv_fill p pend pend' st st' b b' ltp r t x y :
  quiet_inv (mkMarket b ltp pend (x :: st) r) -> pend' = asleep p pend ->
  st' = wake p pend (Active y :: st) ->
  quiet_inv (mkMarket b' p pend' st' (push_trade t r)).
Proof.
  unfold quiet_inv, quiet. simpl. intros Hinv -> ->.
  destruct (mr_trades r) as [|t1 [|t2 ts]]; simpl; try done.
  destruct Hinv as [_ Hs]. apply Forall_cons in Hs as [_ Hs].
  assert (Forall (queued_at p) (Active y :: st)) as Hs'.
  { constructor; [done|]. eapply Forall_impl; [done|]. by intros []. }
  unfold asleep, wake. case_decide as Hp.
  - split; [|done]. apply Forall_forall. by left.
  - split; [constructor|]. apply Forall_app. split; [|done]. apply Forall_map, Forall_forall. done.
Qed.

Lemma not_queued_at lp x : not_queued x -> queued_at lp x.
Proof. by destruct x. Qed.

(** Steps that do not trade: they may leave an active order on the stack, or
    a stop in the pending list. *)
Lemma quiet_inv_keep b b' ltp pend pend' x st st' r r' :
  quiet_inv (mkMarket b ltp pend (x :: st) r) -> mr_trades r' = mr_trades r ->
  (queued_at ltp x -> pend' = pend \/
     exists s, pend' = pend ++ [s] /\ (ltp = 0 \/ stop_triggered ltp s = false)) ->
  (st' = st \/ exists y, st' = Active y :: st) ->
  quiet_inv (mkMarket b' ltp pend' st' r').
Proof.
  unfold quiet_inv, quiet. simpl. intros Hinv -> Hpend Hst.
  assert (forall P : entry -> Prop, (forall y, P (Active y)) -> Forall P (x :: st) -> Forall P st') as HP.
  { intros P Hact [_ HPst]%Forall_cons. destruct Hst as [->|[y ->]]; [done|]. by constructor. }
  assert (Forall (fun s => ltp = 0 \/ stop_triggered ltp s = false) pend -> queued_at ltp x ->
    Forall (fun s => ltp = 0 \/ stop_triggered ltp s = false) pend') as Hq.
  { intros Hp [->|(s & -> & Hs)]%Hpend; [done|]. apply Forall_app. split; [done|by constructor]. }
  destruct (mr_trades r) as [|t1 [|t2 ts]]; simpl; try done; destruct Hinv as [Hqu Hs];
    (split; [apply Hq; [done|]|by eapply HP]); apply Forall_cons in Hs as [Hx _]; [|done].
  by apply not_queued_at.
Qed.

Lemma step_quiet m m' : step m m' -> quiet_inv m -> quiet_inv m'.
Proof.
  intros Hstep Hinv. destruct Hstep.
  - by eapply quiet_inv_fill.
  - eapply quiet_inv_keep; eauto.
  - eapply quiet_inv_keep; eauto.
  - eapply quiet_inv_keep; eauto.
  - eapply quiet_inv_keep; eauto 6.
  - eapply quiet_inv_keep; eauto.
  - eapply quiet_inv_keep; eauto. simpl. intros ->. eauto 6.
  - eapply quiet_inv_keep; eauto.
Qed.

Lemma steps_quiet m m' : steps m m' -> quiet_inv m -> quiet_inv m'.
Proof. induction 1; eauto using step_quiet. Qed.
