(* ===== verification/Guarantees.v ===== *)
(** * Guarantees: what an order may rely on

    The trading invariants of [Trading], stated for the engine's entry point
    [process_new_order]: fair prices, conservation of quantity, an uncrossed
    book, price-time priority and the treatment of stops. *)

From S2P Require Import Prelude Types PriceLevel OrderBook Engine Market EngineRefine EngineEvents.
From S2P Require Import Trading.

(** The market at the start of a new order. *)
Definition start (e : MatchingEngine) (o : Order) : market :=
  mstate e [Active (prepare o)] empty_result.

Section new_order.
Context (K : gset OrderId) (e : MatchingEngine) (o : Order) (fuel : nat).
Context (Hwf : engine_wf K e) (Hfr : fresh (o_id o) e) (Hr : qty_ranges o).
Context (Hfuel : (fuel_bound e (NewOrderEvent o) <= fuel)%nat).

Lemma new_order_run :
  exists e' r, process_new_order fuel e o = Ok (e', r) /\ engine_wf K e' /\
    market_wf (start e o) /\ steps (start e o) (mstate e' [] r).
Proof using Hwf Hfr Hr Hfuel.
  destruct (process_new_order_total K e o Hwf Hfr Hr) as (e' & r & Heq & Hwf' & Hs).
  exists e', r. split_ands; try done; [by eapply process_new_order_mono|by eapply engine_wf_active].
Qed.

(** C10. The outcome of a new order is the only one the abstract market allows:
    every run of the market that finishes ends in the state and with the
    trades and rejections that the engine returns. *)
Theorem new_order_unique_outcome :
  exists e' r, process_new_order fuel e o = Ok (e', r) /\
    forall m, steps (start e o) m -> mk_stack m = [] -> m = mstate e' [] r.
Proof using Hwf Hfr Hr Hfuel.
  destruct new_order_run as (e' & r & Heq & _ & _ & Hs). exists e', r. split; [done|].
  intros m Hm Hst. by apply (steps_deterministic (start e o)).
Qed.

(** C6. Every trade of a new order is between two known orders on opposite
    sides, executes at the limit of the passive order and never outside the
    limit of the aggressor; only limit and iceberg orders rest afterwards and
    only stops wait. *)
Theorem new_order_fair_trades :
  typed_engine e ->
  exists e' r, process_new_order fuel e o = Ok (e', r) /\
    Forall (fair_trade (start e o)) (mr_trades r) /\ typed_engine e'.
Proof using Hwf Hfr Hr Hfuel.
  intros Hty. destruct new_order_run as (e' & r & Heq & _ & Hm & Hs). exists e', r.
  pose proof (typed_active e (prepare o) Hty) as Hty'.
  destruct (steps_trades _ _ Hs Hm Hty') as (ts & Hts & Hf). simpl in Hts. subst ts.
  split_ands; [done|done|]. eapply typed_result, steps_typed; done.
Qed.

(** C7. Quantity is conserved: what the new order and the market could trade
    before is what they can trade afterwards, plus the traded quantity on each
    side, plus the remainder of market orders that were rejected because the
    book was exhausted. *)
Theorem new_order_conserves_quantity :
  typed_engine e -> market_sane (start e o) ->
  exists e' r lost, process_new_order fuel e o = Ok (e', r) /\
    open_total (mstate e' [] r) + 2 * traded r + lost =
      open_total (mstate e [] empty_result) + open_qty (prepare o) /\
    0 <= lost /\ (mr_rejections r = [] -> lost = 0).
Proof using Hwf Hfr Hr Hfuel.
  intros Hty Hsa. destruct new_order_run as (e' & r & Heq & _ & Hm & Hs).
  destruct (steps_conserve _ _ Hs Hm (typed_active e (prepare o) Hty) Hsa)
    as (rej & lost & Hrej & Htot & ? & Hl).
  simpl in Hrej. exists e', r, lost. split_ands; [done| |done|intros Hn; apply Hl; congruence].
  unfold open_total, traded in *. simpl in *. lia.
Qed.

(** What a new order keeps: the types of resting and pending orders, and, when
    it is not an iceberg, that the book is uncrossed. *)
Lemma new_order_guarantees :
  typed_engine e ->
  exists e' r, process_new_order fuel e o = Ok (e', r) /\ typed_engine e' /\
    (o_type o <> Iceberg -> uncrossed (abs_book (book e)) -> uncrossed (abs_book (book e'))).
Proof using Hwf Hfr Hr Hfuel.
  intros Hty. destruct new_order_run as (e' & r & Heq & _ & Hm & Hs). exists e', r.
  split_ands; [done| |].
  { eapply typed_result, steps_typed; [done..|]. by apply typed_active. }
  destruct Hty as [_ Hp _]. intros Ho Hun. apply (steps_uncrossed _ _ Hs Hm); [|done]. split; simpl.
  - constructor; [|done]. simpl. by rewrite prepare_type.
  - eapply Forall_impl; [done|]. intros x [?|?]; congruence.
Qed.

(** If no pending stop is triggered by the last trade price, the same
    holds after a new order that makes at most one trade. *)
Theorem new_order_keeps_quiet :
  quiet (mstate e [] empty_result) ->
  exists e' r, process_new_order fuel e o = Ok (e', r) /\
    ((length (mr_trades r) <= 1)%nat -> quiet (mstate e' [] r)).
Proof using Hwf Hfr Hr Hfuel.
  intros Hq. destruct new_order_run as (e' & r & Heq & _ & Hm & Hs).
  exists e', r. split; [done|]. intros Hlen.
  assert (quiet_inv (start e o)) as Hinv by (split; [done|by constructor]).
  apply (steps_quiet _ _ Hs) in Hinv. unfold quiet_inv in Hinv. simpl in Hinv.
  destruct (mr_trades r) as [|t1 [|t2 ts]]; simpl in Hlen; [by destruct Hinv..|lia].
Qed.
End new_order.

(** C8. While an order [a] is matched in a well-formed market, a fill takes the
    best price of the opposite side and the first order [o] of its queue:
    nobody on that side has a better price. It trades the smaller of the two
    quantities at the price of [o]; [a] keeps the rest; the trade sets the
    last trade price and the pending stops are evaluated next. A partly filled
    order keeps its place, a filled iceberg with reserve goes to the back with
    a new peak, a filled order leaves. *)
Theorem fill_price_time_priority rec K a e key level st r r0 :
  levels_ok K (book e) -> market_wf (mstate e (Active a :: st) r0) ->
  passive_best a (book e) = Some (key, level) ->
  exists i rest o b',
    let q := Z.min (o_quantity a) (o_quantity o) in
    id_map (book e) !! i = Some o /\ o_side o = opposite (o_side a) /\ o_price o = key /\
    s_queue (o_side o) key (abs_book (book e)) = i :: rest /\
    (forall j x, id_map (book e) !! j = Some x -> o_side x = o_side o -> prio (o_side o) key (o_price x)) /\
    last_trade_price b' = key /\ abs_book b' = s_fill o rest q (abs_book (book e)) /\
    fill_front rec a key level e r =
      ('(e', r') ← evaluate_stop_triggers rec (set_book b' e)
          (push_trade (mkTrade (o_id a) i key q 0 (if decide (o_side a = Buy) then ABuy else ASell)) r);
       Ok (e', set_quantity (o_quantity a - q) a, r')).
Proof.
  rewrite passive_best_level. intros Hok Hm Hb.
  destruct (fill_refines _ _ _ _ _ _ Hok Hm Hb)
    as (i & rest & o & b' & Hs & Ho & Hf & Ho1 & Ha & _ & Hl & Habs).
  pose proof (mwf_book _ Hm) as Hbwf.
  destruct (best_front _ _ _ _ _ _ Hbwf Hs Ho) as (Hid & Hside & Hp & Hq).
  exists i, rest, o, b'. rewrite Hside. cbv zeta. split_ands; try done.
  - intros j x Hx Hxs. destruct (order_behind_best _ _ _ _ Hbwf Hx Hxs) as (p & q & Hb' & Hpr).
    simpl in *. by simplify_eq.
  - unfold fill_front. rewrite Hf, bind_ok. cbn [book set_book]. unfold find_order_mut. rewrite Ho1.
    unfold execute_fill. cbn [book set_book]. rewrite Ha, bind_ok. unfold fill_trade, is_buy. rewrite Hid, Hp.
    by destruct (o_side a).
Qed.

(** What triggers a stop. *)
Definition stop_due (last : Price) (o : Order) : Prop :=
  last <> 0 /\ ((o_side o = Buy /\ o_stop_price o <= last) \/ (o_side o = Sell /\ last <= o_stop_price o)).
#[global] Instance stop_due_dec last o : Decision (stop_due last o).
Proof. unfold stop_due. apply _. Defined.

Lemma immediately_triggered_due o b : immediately_triggered o b = bool_decide (stop_due (last_trade_price b) o).
Proof.
  apply eq_true_iff_eq. rewrite immediately_triggered_true, bool_decide_eq_true. unfold stop_due, stop_triggered, is_buy, is_sell.
  rewrite orb_true_iff, !andb_true_iff, !bool_decide_eq_true. destruct (o_side o); naive_solver lia.
Qed.

(** The order that a triggered stop stands for. *)
Definition plain_order (o : Order) : Order :=
  match o_type o with
  | Stop => set_price 0 (set_type Market (set_status Triggered o))
  | _ => set_type Limit (set_status Triggered o)
  end.

(** C16. A new stop order is due if there has been a trade and its last price
    is at or above the stop price of a buy, at or below that of a sell. If it
    is due, the engine does with it exactly what it does with a plain order: a
    market order for a stop, a limit order at its limit price for a stop-limit;
    that call ends, too. Otherwise the order is appended to the pending stops
    and nothing else happens. *)
Theorem new_stop_spec K e o fuel :
  engine_wf K e -> fresh (o_id o) e -> qty_ranges o -> (fuel_bound e (NewOrderEvent o) <= fuel)%nat ->
  is_stop o ->
  exists e' r, process_new_order fuel e o = Ok (e', r) /\
  if decide (stop_due (last_trade_price (book e)) o)
  then process_new_order fuel e (plain_order o) = Ok (e', r)
  else e' = mkEngine (book e) (sequence e) (pending_stops e ++ [set_status Resting o]) /\ r = empty_result.
Proof.
  intros Hwf Hfr Hr Hfuel Hstop. destruct (new_order_run K e o fuel Hwf Hfr Hr Hfuel) as (e' & r & Heq & _).
  exists e', r. split; [done|]. destruct fuel as [|fuel]; [done|]. pose proof Heq as Hrun. simpl in Heq.
  unfold process_new_order_body, process_triggered_stop in Heq. simpl o_type in Heq.
  assert (forall s, immediately_triggered (set_status s o) (book e) = bool_decide (stop_due (last_trade_price (book e)) o)) as Hi
    by (intros s; exact (immediately_triggered_due (set_status s o) (book e))).
  rewrite Hi in Heq. destruct (decide (stop_due (last_trade_price (book e)) o)) as [Hd|Hd].
  - rewrite bool_decide_eq_true_2 in Heq by done.
    apply (process_new_order_mono fuel (S fuel)); [lia|]. unfold plain_order.
    destruct Hstop as [Ht|Ht]; rewrite Ht in Heq |- *; simpl in Heq.
    all: apply bind_ok_inv in Heq as ([e1 r1] & He1 & [= <- <-]); rewrite append_result_empty_l; exact He1.
  - rewrite bool_decide_eq_false_2 in Heq by done.
    by destruct Hstop as [Ht|Ht]; rewrite Ht in Heq; injection Heq as <- <-.
Qed.

(** ** Guarantees across all events *)

(** The orders of [b'] are orders of [b] up to [P]. *)
Definition derived (P : Order -> Order -> Prop) (b b' : sbook) : Prop :=
  forall i x, s_orders b' !! i = Some x -> exists y, s_orders b !! i = Some y /\ P x y.

Definition same_place (x y : Order) : Prop :=
  o_side x = o_side y /\ o_type x = o_type y /\ o_price x = o_price y.
Definition same_type (x y : Order) : Prop := o_type x = o_type y.

Lemma derived_uncrossed b b' : derived same_place b b' -> uncrossed b -> uncrossed b'.
Proof.
  intros Hd Hun i j x y Hx Hy Hsx Hsy.
  apply Hd in Hx as (x' & Hx & Hxs & _ & ->). apply Hd in Hy as (y' & Hy & Hys & _ & ->).
  eapply Hun; [done|done|congruence|congruence].
Qed.

Lemma derived_typed e e' :
  derived same_type (abs_book (book e)) (abs_book (book e')) ->
  (forall o, o ∈ pending_stops e' -> o ∈ pending_stops e) -> typed_engine e -> typed_engine e'.
Proof.
  intros Hd Hsub [Hb Hp Hs]. split; simpl in *; [|rewrite Forall_forall in *; eauto|done].
  intros i x (y & Hy & Ht)%Hd. unfold may_rest. rewrite Ht. by apply (Hb i).
Qed.

Lemma derived_remove o b : derived same_place b (s_remove o b).
Proof.
  intros i x. unfold s_remove. rewrite s_orders_set_queue. simpl.
  intros [_ Hx]%lookup_delete_Some. by exists x.
Qed.

Lemma derived_weaken b b' : derived same_place b b' -> derived same_type b b'.
Proof. intros Hd i x (y & Hy & _ & Ht & _)%Hd. by exists y. Qed.

Lemma cancel_derived K e id ts :
  engine_wf K e -> unmarked id (book e) ->
  derived same_place (abs_book (book e)) (abs_book (book (process_cancel e id ts).1)) /\
  (forall o, o ∈ pending_stops (process_cancel e id ts).1 -> o ∈ pending_stops e).
Proof.
  intros Hwf Hum. assert (derived same_place (abs_book (book e)) (abs_book (book e))) as Hrefl.
  { intros i x Hx. by exists x. }
  unfold process_cancel. destruct (list_find _ _) as [[i stop]|].
  { split; [done|]. simpl. intros o Ho. by eapply elem_of_sublist; [|apply sublist_delete]. }
  unfold find_order. destruct (id_map _ !! id) as [o|] eqn:Ho; [|done].
  destruct (is_resting o); [|done].
  destruct (engine_wf_remove _ _ _ _ Hwf Ho Hum) as (_ & Habs & _).
  split; [|done]. simpl in *. rewrite Habs. apply derived_remove.
Qed.

Lemma modified_terms m o :
  o_side (modified m o) = o_side o /\ o_type (modified m o) = o_type o /\
  (m_new_price m = 0 -> o_price (modified m o) = o_price o).
Proof. unfold modified. case_decide; case_decide; simpl; split_ands; done. Qed.

Lemma modify_derived K e m :
  engine_wf K e -> unmarked (m_order_id m) (book e) -> is_u64 (m_new_quantity m) ->
  let e' := (process_modify e m).1 in
  derived same_type (abs_book (book e)) (abs_book (book e')) /\
  (m_new_price m = 0 -> derived same_place (abs_book (book e)) (abs_book (book e'))) /\
  pending_stops e' = pending_stops e.
Proof.
  intros Hwf Hum Hq. assert (derived same_place (abs_book (book e)) (abs_book (book e))) as Hrefl.
  { intros i x Hx. by exists x. }
  pose proof (derived_weaken _ _ Hrefl) as Hrefl'.
  unfold process_modify, find_order. destruct (id_map _ !! _) as [o|] eqn:Ho; [|done].
  destruct (is_resting o); [|done].
  match goal with |- context [if ?c then _ else _] => destruct c end.
  - fold (modified m o). destruct (engine_wf_remove _ _ _ _ Hwf Ho Hum) as ([Hok _] & Habs & _).
    destruct (abs_insert_order (modified m o) _ Hok) as [Hins _]. simpl in Hins, Habs |- *.
    pose proof (wf_key _ (mwf_book _ (ewf_market _ _ Hwf)) _ _ Ho : o_id o = m_order_id m) as Hid.
    destruct (modified_terms m o) as (Hms & Hmt & Hmp). rewrite Hins, Habs.
    assert (forall i x, s_orders (s_insert (modified m o) (s_remove o (abs_book (book e)))) !! i = Some x ->
      (i = o_id o /\ x = modified m o) \/ id_map (book e) !! i = Some x) as Hlk.
    { intros i x. unfold s_insert, s_remove. rewrite !s_orders_set_queue, modified_id. simpl.
      rewrite s_orders_set_queue. simpl. intros [[<- <-]|[_ [_ Hx]%lookup_delete_Some]]%lookup_insert_Some; auto. }
    split_ands; [| |done].
    + intros i x [[-> ->]|Hx]%Hlk; [exists o|by exists x]. simpl. by rewrite Hid.
    + intros H0 i x [[-> ->]|Hx]%Hlk; [exists o|by exists x]. simpl. rewrite Hid.
      unfold same_place. split_ands; auto.
  - destruct (decide _); [|done].
    destruct (engine_wf_reduce _ _ _ _ _ (u64 (o_quantity o - m_new_quantity m)) Hwf Ho Hq) as [_ Habs].
    simpl in Habs |- *. rewrite Habs.
    assert (derived same_place (abs_book (book e))
      (s_put_order (m_order_id m) (set_quantity (m_new_quantity m) o) (abs_book (book e)))) as Hd.
    { intros i x. simpl. intros [[<- <-]|[_ Hx]]%lookup_insert_Some; [by exists o|by exists x]. }
    split_ands; [by apply derived_weaken|done|done].
Qed.

(** An event that can leave the book crossed: an iceberg order, of which only
    the peak is matched, or a change of price, which is not matched at all. *)
Definition may_cross (ev : OrderEvent) : Prop :=
  match ev with
  | (NewOrderEvent o | ReplaceOrderEvent _ o) => o_type o = Iceberg
  | CancelOrderEvent _ _ => False
  | ModifyOrder m => m_new_price m <> 0
  end.

Lemma submit_guarantees K e ev fuel :
  engine_wf K e -> admissible e ev -> (fuel_bound e ev <= fuel)%nat -> typed_engine e ->
  exists e' r, submit fuel e ev = Ok (e', r) /\ typed_engine e' /\
    (~ may_cross ev -> uncrossed (abs_book (book e)) -> uncrossed (abs_book (book e'))).
Proof.
  intros Hwf Hadm Hfuel Hty. unfold submit.
  set (e1 := mkEngine (book e) (u64 (sequence e + 1)) (pending_stops e)).
  assert (engine_wf K e1) as Hwf1 by by apply set_sequence_wf.
  change (typed_engine e1) in Hty. change (abs_book (book e)) with (abs_book (book e1)).
  change (admissible e1 ev) in Hadm. change (fuel_bound e1 ev <= fuel)%nat in Hfuel.
  clearbody e1. clear Hwf e. rename e1 into e.
  destruct ev as [o|id ts|m|old o]; simpl in Hadm; simpl may_cross.
  - destruct Hadm as [Hfr Hr]. by apply (new_order_guarantees K).
  - eexists _, _. rewrite (surjective_pairing (process_cancel e id ts)). split; [done|].
    destruct (cancel_derived K e id ts Hwf1 Hadm) as [Hd Hp]. split.
    + apply (derived_typed e); [by apply derived_weaken|done|done].
    + intros _. by apply derived_uncrossed.
  - destruct Hadm as [Hum Hq]. destruct (modify_derived K e m Hwf1 Hum Hq) as (Hd & Hd0 & Hp).
    eexists _, _. rewrite (surjective_pairing (process_modify e m)). split_ands; [done| |].
    + apply (derived_typed e); [done| |done]. by rewrite Hp.
    + intros Hc. apply derived_uncrossed, Hd0. lia.
  - destruct (id_map (book e) !! old) as [x|] eqn:Hx.
    2: { eexists _, _. by rewrite process_replace_reject. }
    pose proof Hadm as (Hum & _).
    destruct (replace_setup _ _ _ _ _ Hwf1 Hadm Hx) as (Hwf2 & Hfr & Hr & _ & Hle & Heq).
    destruct (engine_wf_remove _ _ _ _ Hwf1 Hx Hum) as (_ & Habs & _). rewrite Heq.
    set (e2 := set_book _ e) in *.
    assert (derived same_place (abs_book (book e)) (abs_book (book e2))) as Hd.
    { rewrite Habs. apply derived_remove. }
    destruct (new_order_guarantees ({[old]} ∪ K) e2 o fuel) as (e' & r & ? & ? & Hun); try done.
    { by etrans. }
    { apply (derived_typed e); [by apply derived_weaken|done|done]. }
    exists e', r. split_ands; [done|done|]. intros Hc Hu. apply Hun; [done|].
    by eapply derived_uncrossed.
Qed.

(** Between events only limit and iceberg orders rest and only stops are
    pending. *)
Theorem submit_keeps_typed K e ev fuel :
  engine_wf K e -> admissible e ev -> (fuel_bound e ev <= fuel)%nat -> typed_engine e ->
  exists e' r, submit fuel e ev = Ok (e', r) /\ typed_engine e'.
Proof.
  intros Hwf Hadm Hfuel Hty.
  destruct (submit_guarantees K e ev fuel Hwf Hadm Hfuel Hty) as (e' & r & ? & ? & _). by exists e', r.
Qed.

(** C9. Every event except an iceberg order and a change of price leaves an
    uncrossed book uncrossed, also through the stops it triggers. *)
Theorem submit_keeps_uncrossed K e ev fuel :
  engine_wf K e -> admissible e ev -> (fuel_bound e ev <= fuel)%nat -> typed_engine e ->
  ~ may_cross ev -> uncrossed (abs_book (book e)) ->
  exists e' r, submit fuel e ev = Ok (e', r) /\ uncrossed (abs_book (book e')).
Proof.
  intros Hwf Hadm Hfuel Hty Hc Hun.
  destruct (submit_guarantees K e ev fuel Hwf Hadm Hfuel Hty) as (e' & r & ? & _ & Hun').
  exists e', r. auto.
Qed.

(** ** Witnesses *)

Definition demo_buy : Order := demo_order 2 Buy 101 4.

Lemma demo_fresh : fresh (o_id demo_buy) demo_engine.
Proof. by split; vm_compute; [|inversion 1]. Qed.
Lemma demo_ranges : qty_ranges demo_buy.
Proof. by vm_compute. Qed.
Lemma demo_fuel : (fuel_bound demo_engine (NewOrderEvent demo_buy) <= 100)%nat.
Proof. apply Nat.leb_le. by vm_compute. Qed.

Lemma demo_orders i o : id_map (book demo_engine) !! i = Some o -> o = demo_order 1 Sell 100 10.
Proof.
  unfold demo_engine. simpl. by intros [[<- <-]|[_ Hx]]%lookup_insert_Some; [|rewrite lookup_empty in Hx].
Qed.

Lemma demo_typed : typed_engine demo_engine.
Proof. split; [|constructor..]. intros i o ->%demo_orders. by left. Qed.

Lemma demo_uncrossed : uncrossed (abs_book (book demo_engine)).
Proof. by intros i j x y ->%demo_orders ->%demo_orders. Qed.

Lemma new_order_unique_outcome_witness :
  exists e' r, process_new_order 100 demo_engine demo_buy = Ok (e', r) /\
    forall m, steps (start demo_engine demo_buy) m -> mk_stack m = [] -> m = mstate e' [] r.
Proof.
  exact (new_order_unique_outcome ∅ demo_engine demo_buy 100 demo_engine_wf demo_fresh demo_ranges demo_fuel).
Defined.

Lemma new_order_fair_trades_witness :
  exists e' r, process_new_order 100 demo_engine demo_buy = Ok (e', r) /\
    Forall (fair_trade (start demo_engine demo_buy)) (mr_trades r) /\ typed_engine e'.
Proof.
  exact (new_order_fair_trades ∅ demo_engine demo_buy 100 demo_engine_wf demo_fresh demo_ranges demo_fuel
    demo_typed).
Defined.

Lemma new_order_conserves_quantity_witness :
  exists e' r lost, process_new_order 100 demo_engine demo_buy = Ok (e', r) /\
    open_total (mstate e' [] r) + 2 * traded r + lost = 14 /\
    0 <= lost /\ (mr_rejections r = [] -> lost = 0).
Proof.
  apply (new_order_conserves_quantity ∅ demo_engine demo_buy 100 demo_engine_wf demo_fresh demo_ranges
    demo_fuel demo_typed).
  split; simpl; [|constructor|by constructor; [left|]].
  intros i o ->%demo_orders. by left.
Defined.

Lemma new_order_keeps_quiet_witness :
  exists e' r, process_new_order 100 demo_engine demo_buy = Ok (e', r) /\
    ((length (mr_trades r) <= 1)%nat -> quiet (mstate e' [] r)).
Proof.
  apply (new_order_keeps_quiet ∅ demo_engine demo_buy 100 demo_engine_wf demo_fresh demo_ranges demo_fuel).
  constructor.
Defined.

Lemma fill_price_time_priority_witness :
  exists b', fill_front (process_new_order 10) (prepare demo_buy) 100 (push_back 1 10 (new_level 100)) demo_engine empty_result =
      Ok (set_book b' demo_engine, set_quantity 0 (prepare demo_buy), push_trade (mkTrade 2 1 100 4 0 ABuy) empty_result) /\
    last_trade_price b' = 100.
Proof.
  destruct (fill_price_time_priority (process_new_order 10) ∅ (prepare demo_buy) demo_engine 100
    (push_back 1 10 (new_level 100)) [] empty_result empty_result) as (i & rest & o & b' & Ho & _ & _ & _ & _ & Hl & _ & Hfill).
  - apply demo_engine_wf.
  - apply (engine_wf_active ∅ demo_engine demo_buy demo_engine_wf demo_fresh demo_ranges).
  - by vm_compute.
  - exists b'. split; [|exact Hl]. destruct (demo_orders _ _ Ho). rewrite Hfill.
    assert (i = 1) as -> by (revert Ho; unfold demo_engine; simpl; by intros [[<- _]|[_ Hx]]%lookup_insert_Some; [|rewrite lookup_empty in Hx]).
    rewrite (demo_orders _ _ Ho). reflexivity.
Defined.

(** After a trade at 100 a buy stop at 99 is due, one at 101 waits. *)
Definition traded_engine : MatchingEngine := set_book (set_last_trade_price 100 (book demo_engine)) demo_engine.
Definition demo_stop (stop_price : Price) : Order := set_type Stop (mkOrder 2 Buy Limit 0 stop_price 4 4 0 0 0 New).

Lemma traded_engine_wf : engine_wf ∅ traded_engine.
Proof.
  destruct demo_engine_wf as [Hok [Hb Hids Hfr Ho Hp Hs]]. split; [|split; done].
  intros s p l. cbn [traded_engine book set_book]. rewrite levels_set_ltp. apply Hok.
Qed.

Lemma new_stop_spec_witness :
  (exists r, process_new_order 100 traded_engine (plain_order (demo_stop 99)) = process_new_order 100 traded_engine (demo_stop 99) /\
    mr_trades r = [mkTrade 2 1 100 4 0 ABuy] /\ exists e', process_new_order 100 traded_engine (demo_stop 99) = Ok (e', r)) /\
  process_new_order 100 traded_engine (demo_stop 101) =
    Ok (mkEngine (book traded_engine) 0 [set_status Resting (demo_stop 101)], empty_result).
Proof.
  assert (forall p, fresh (o_id (demo_stop p)) traded_engine) as Hfr by (intros p; by split; vm_compute; [|inversion 1]).
  split.
  - destruct (new_stop_spec ∅ traded_engine (demo_stop 99) 100 traded_engine_wf (Hfr 99)) as (e' & r & Heq & Hspec).
    + by vm_compute.
    + apply Nat.leb_le. by vm_compute.
    + left. reflexivity.
    + rewrite decide_True in Hspec by (split; [done|left; split; [done|by vm_compute]]).
      exists r. rewrite Heq, Hspec. split; [done|]. split; [|by exists e'].
      apply (f_equal (fun x => match x with Ok (_, r) => mr_trades r | _ => [] end)) in Heq. by vm_compute in Heq.
  - destruct (new_stop_spec ∅ traded_engine (demo_stop 101) 100 traded_engine_wf (Hfr 101)) as (e' & r & Heq & Hspec).
    + by vm_compute.
    + apply Nat.leb_le. by vm_compute.
    + left. reflexivity.
    + rewrite decide_False in Hspec by (intros [_ [[_ Hle]|[Hs _]]]; [by vm_compute in Hle|done]).
      rewrite Heq. by destruct Hspec as [-> ->].
Defined.

Lemma submit_keeps_typed_witness :
  exists e' r, submit 100 demo_engine (NewOrderEvent demo_buy) = Ok (e', r) /\ typed_engine e'.
Proof.
  exact (submit_keeps_typed ∅ demo_engine (NewOrderEvent demo_buy) 100 demo_engine_wf
    (conj demo_fresh demo_ranges) demo_fuel demo_typed).
Defined.

Lemma submit_keeps_uncrossed_witness :
  exists e' r, submit 100 demo_engine (NewOrderEvent demo_buy) = Ok (e', r) /\
    uncrossed (abs_book (book e')).
Proof.
  apply (submit_keeps_uncrossed ∅ demo_engine (NewOrderEvent demo_buy) 100 demo_engine_wf
    (conj demo_fresh demo_ranges) demo_fuel demo_typed); [done|apply demo_uncrossed].
Defined.
