(* ===== verification/OrderRule.v ===== *)
(** * OrderRule: invariants of the resting orders

    The rule for properties of single orders: what holds of every resting order
    holds after every event, if fills, new peaks and the conversion of stops
    keep it and the event's own order starts with it. Its instance here are
    icebergs, which never show more than their peak. *)

From S2P Require Import Prelude Types PriceLevel OrderBook Engine Market EngineRefine EngineEvents.
From S2P Require Import Trading Guarantees.

Section rule.
Context (P : Order -> Prop).
Context (P_fill : forall o n, P o -> 0 <= n <= o_quantity o -> P (set_quantity n o)).
Context (P_peak : forall o, P o -> is_iceberg o = true ->
  P (set_quantity (new_peak o) (set_reserve_qty (o_reserve_qty o - new_peak o) o))).
Context (P_filled : forall o, P o -> P (mark_filled o)).
Context (P_stop : forall o, is_stop o -> P (prepare (convert o))).

Definition resting (b : sbook) : Prop := forall i o, s_orders b !! i = Some o -> P o.

Record market_rule (m : market) : Prop := {
  mr_resting : resting (mk_book m);
  mr_active : Forall (fun x => match x with Active o => ~ is_stop o -> P o | Queued _ _ => True end) (mk_stack m);
}.

Lemma resting_fill o rest fill b :
  s_orders b !! o_id o = Some o -> qty_ranges o -> 0 <= fill <= o_quantity o ->
  resting b -> resting (s_fill o rest fill b).
Proof.
  intros Ho Hr Hf Hb i x. pose proof (Hb _ _ Ho) as HP. unfold s_fill, s_remove.
  destruct (decide (o_quantity (set_quantity (o_quantity o - fill) o) = 0)) as [Hz|Hz];
    [destruct (_ && _) eqn:Hi|]; simpl; rewrite ?s_orders_set_queue; simpl.
  - intros [[<- <-]|[_ Hx]]%lookup_insert_Some; [|by apply (Hb i)]. apply andb_true_iff in Hi as [Hi _].
    exact (P_peak o HP Hi).
  - intros [_ Hx]%lookup_delete_Some. by apply (Hb i).
  - intros [[<- <-]|[_ Hx]]%lookup_insert_Some; [|by apply (Hb i)]. apply P_fill; [done|lia].
Qed.

Lemma resting_settle a b : P a -> resting b -> resting (settle a b).
Proof. intros Ha Hb i x [Hx|[-> ->]]%settle_lookup; [by apply (Hb i)|by apply P_filled]. Qed.

Lemma step_rule m m' : market_wf m -> typed m -> step m m' -> market_rule m -> market_rule m'.
Proof.
  intros Hwf Hty Hstep [Hb Ha]. pose proof (mwf_book _ Hwf) as Hbwf.
  pose proof (mwf_orders _ Hwf) as Hor. pose proof (mwf_stack _ Hwf) as Hst.
  pose proof (ty_stack _ Hty) as Htq.
  destruct Hstep; simpl in *; apply Forall_cons in Ha as [Hact Ha]; apply Forall_cons in Hst as [Hra Hst];
    apply Forall_cons in Htq as [Htop Htq].
  - destruct (best_front _ _ _ _ _ _ Hbwf H1 H3) as (Hid & _). subst i.
    pose proof (Hor _ _ H3) as Hro. destruct Hro as (Hq & _). destruct Hra as (Hqa & _). unfold is_u64 in Hq, Hqa.
    split; simpl.
    + apply resting_fill; [done|by eapply Hor|lia|done].
    + unfold wake. case_decide; [|apply Forall_app; split; [by apply Forall_map, Forall_true|]].
      all: constructor; [intros Hns; apply P_fill; [by apply Hact|lia]|done].
  - split; simpl; [|done]. apply resting_settle; [|done]. apply Hact. unfold is_stop. intuition congruence.
  - by split.
  - by split.
  - by split.
  - split; simpl; [done|]. constructor; [|done]. intros _. by apply P_stop.
  - by split.
  - split; simpl; [done|]. constructor; [|done]. intros _. by apply P_stop.
Qed.

Lemma steps_rule m m' : steps m m' -> market_wf m -> typed m -> market_rule m -> market_rule m'.
Proof. induction 1; eauto using step_wf, step_typed, step_rule. Qed.

(** Does the event start its orders with [P]? *)
Definition event_rule (e : MatchingEngine) (ev : OrderEvent) : Prop :=
  match ev with
  | NewOrderEvent o | ReplaceOrderEvent _ o => ~ is_stop o -> P (prepare o)
  | CancelOrderEvent _ _ => True
  | ModifyOrder m => forall o, id_map (book e) !! m_order_id m = Some o -> P o ->
      P (modified m o) /\ (m_new_quantity m < o_quantity o -> P (set_quantity (m_new_quantity m) o))
  end.

Lemma new_order_rule K e o fuel :
  engine_wf K e -> fresh (o_id o) e -> qty_ranges o -> (fuel_bound e (NewOrderEvent o) <= fuel)%nat ->
  typed_engine e -> resting (abs_book (book e)) -> (~ is_stop o -> P (prepare o)) ->
  exists e' r, process_new_order fuel e o = Ok (e', r) /\ resting (abs_book (book e')).
Proof.
  intros Hwf Hfr Hr Hfuel Hty Hb Ho.
  destruct (new_order_run K e o fuel Hwf Hfr Hr Hfuel) as (e' & r & Heq & _ & Hm & Hs).
  exists e', r. split; [done|].
  destruct (steps_rule _ _ Hs Hm (typed_active e (prepare o) Hty)) as [Hb' _]; [|done]. split; simpl; [done|].
  constructor; [|done]. unfold is_stop in *. by rewrite prepare_type.
Qed.

Lemma derived_resting b b' : (forall i x, s_orders b' !! i = Some x -> s_orders b !! i = Some x) ->
  resting b -> resting b'.
Proof. intros Hd Hb i x Hx. by eapply Hb, Hd. Qed.

Lemma modify_resting K e m :
  engine_wf K e -> unmarked (m_order_id m) (book e) -> is_u64 (m_new_quantity m) ->
  event_rule e (ModifyOrder m) -> resting (abs_book (book e)) ->
  resting (abs_book (book (process_modify e m).1)).
Proof.
  intros Hwf Hum Hq Hev Hb. unfold process_modify, find_order.
  destruct (id_map (book e) !! _) as [o|] eqn:Ho; [|done]. destruct (is_resting o); [|done].
  destruct (Hev _ Ho (Hb _ _ Ho)) as [Hmod Hless].
  match goal with |- context [if ?c then _ else _] => destruct c end.
  - fold (modified m o). destruct (engine_wf_remove _ _ _ _ Hwf Ho Hum) as ([Hok _] & Habs & _).
    destruct (abs_insert_order (modified m o) _ Hok) as [Hins _]. simpl in Hins, Habs |- *. rewrite Hins, Habs.
    intros i x. unfold s_insert, s_remove. rewrite !s_orders_set_queue. simpl. rewrite s_orders_set_queue. simpl.
    intros [[<- <-]|[_ [_ Hx]%lookup_delete_Some]]%lookup_insert_Some; [done|by apply (Hb i)].
  - destruct (decide _) as [[_ Hlt]|]; [|done].
    destruct (engine_wf_reduce _ _ _ _ _ (u64 (o_quantity o - m_new_quantity m)) Hwf Ho Hq) as [_ Habs].
    simpl in Habs |- *. rewrite Habs.
    intros i x. simpl. intros [[<- <-]|[_ Hx]]%lookup_insert_Some; [by apply Hless|by apply (Hb i)].
Qed.

Lemma submit_rule K e ev fuel :
  engine_wf K e -> admissible e ev -> (fuel_bound e ev <= fuel)%nat -> typed_engine e ->
  event_rule e ev -> resting (abs_book (book e)) ->
  exists e' r, submit fuel e ev = Ok (e', r) /\ resting (abs_book (book e')).
Proof.
  intros Hwf Hadm Hfuel Hty Hev Hb. unfold submit.
  set (e1 := mkEngine (book e) (u64 (sequence e + 1)) (pending_stops e)).
  assert (engine_wf K e1) as Hwf1 by by apply set_sequence_wf.
  change (typed_engine e1) in Hty. change (resting (abs_book (book e1))) in Hb.
  change (admissible e1 ev) in Hadm. change (fuel_bound e1 ev <= fuel)%nat in Hfuel.
  change (event_rule e1 ev) in Hev.
  clearbody e1. clear Hwf e. rename e1 into e.
  destruct ev as [o|id ts|m|old o]; simpl in Hadm.
  - destruct Hadm as [Hfr Hr]. by apply (new_order_rule K).
  - eexists _, _. rewrite (surjective_pairing (process_cancel e id ts)). split; [done|].
    unfold process_cancel. destruct (list_find _ _) as [[i stop]|]; [done|].
    unfold find_order. destruct (id_map _ !! id) as [o|] eqn:Ho; [|done]. destruct (is_resting o); [|done].
    destruct (engine_wf_remove _ _ _ _ Hwf1 Ho Hadm) as (_ & Habs & _). simpl in *. rewrite Habs.
    eapply derived_resting; [|done]. intros j x. unfold s_remove. rewrite s_orders_set_queue. simpl.
    by intros [_ Hx]%lookup_delete_Some.
  - destruct Hadm as [Hum Hq]. eexists _, _. rewrite (surjective_pairing (process_modify e m)). split; [done|].
    by apply (modify_resting K).
  - destruct (id_map (book e) !! old) as [x|] eqn:Hx.
    2: { eexists _, _. by rewrite process_replace_reject. }
    pose proof Hadm as (Hum & _).
    destruct (replace_setup _ _ _ _ _ Hwf1 Hadm Hx) as (Hwf2 & Hfr & Hr & _ & Hle & Heq).
    destruct (engine_wf_remove _ _ _ _ Hwf1 Hx Hum) as (_ & Habs & _). rewrite Heq.
    set (e2 := set_book _ e) in *.
    assert (forall i y, s_orders (abs_book (book e2)) !! i = Some y -> s_orders (abs_book (book e)) !! i = Some y) as Hd.
    { rewrite Habs. intros i y. unfold s_remove. rewrite s_orders_set_queue. simpl. by intros [_ Hy]%lookup_delete_Some. }
    apply (new_order_rule ({[old]} ∪ K)); try done; [by etrans| |by eapply derived_resting].
    apply (derived_typed e); [|done|done]. intros i y Hy%Hd. by exists y.
Qed.
End rule.

(** ** Icebergs show their peak *)

Definition within_peak (o : Order) : Prop := o_type o = Iceberg -> o_quantity o <= o_peak_qty o.

(** A change of the quantity of a resting iceberg stays within its peak. *)
Definition keeps_peaks (e : MatchingEngine) (ev : OrderEvent) : Prop :=
  match ev with
  | ModifyOrder m => forall o, id_map (book e) !! m_order_id m = Some o -> o_type o = Iceberg ->
      m_new_quantity m <= o_peak_qty o
  | _ => True
  end.

Lemma prepare_within_peak o : within_peak (prepare o).
Proof. unfold within_peak, prepare. case_decide as Ht; simpl; [done|]. intros ?. simpl in Ht. congruence. Qed.

(** C15. An iceberg never shows more than its peak: whatever events come, its
    own matching on arrival, replenishment after fills and partial fills
    included, the visible quantity of every resting iceberg is at most its
    peak, unless a modify sets it higher. *)
Theorem submit_shows_peaks K e ev fuel :
  engine_wf K e -> admissible e ev -> (fuel_bound e ev <= fuel)%nat -> typed_engine e ->
  keeps_peaks e ev -> (forall i o, id_map (book e) !! i = Some o -> within_peak o) ->
  exists e' r, submit fuel e ev = Ok (e', r) /\ forall i o, id_map (book e') !! i = Some o -> within_peak o.
Proof.
  intros Hwf Hadm Hfuel Hty Hev Hb. apply (submit_rule within_peak) with K; try done.
  - unfold within_peak. simpl. intros o n HP Hn Ht. specialize (HP Ht). lia.
  - intros o _ _ _. unfold new_peak. simpl. lia.
  - intros o HP. unfold mark_filled. by case_decide.
  - intros o _. apply prepare_within_peak.
  - destruct ev as [o|id ts|m|old o]; try done; try (intros _; apply prepare_within_peak).
    intros o Ho HP. specialize (Hev _ Ho). unfold within_peak in *. split.
    + destruct (modified_terms m o) as (_ & -> & _). intros Ht. unfold modified.
      repeat case_decide; simpl; auto.
    + intros _. simpl. auto.
Qed.

(** ** Witness: an iceberg of 20 with a peak of 5 that rests *)

Definition demo_iceberg : Order := mkOrder 2 Buy Iceberg 90 0 20 20 5 0 0 New.

Lemma submit_shows_peaks_witness :
  exists e' r, submit 100 demo_engine (NewOrderEvent demo_iceberg) = Ok (e', r) /\
    forall i o, id_map (book e') !! i = Some o -> within_peak o.
Proof.
  apply (submit_shows_peaks ∅ demo_engine (NewOrderEvent demo_iceberg) 100 demo_engine_wf).
  - split; [split; vm_compute; [reflexivity|inversion 1]|vm_compute; done].
  - apply Nat.leb_le. vm_compute. reflexivity.
  - apply demo_typed.
  - exact I.
  - intros i o ->%demo_orders. vm_compute. discriminate.
Defined.
