(* ===== verification/Ranges.v ===== *)
(** * Ranges: every value stays in its machine type

    The integers of the model are unbounded and wrap where the code wraps.
    Here: if the fields of an event and of the engine are in the ranges of
    their types, so are those of the engine and of the result afterwards, so
    that no assignment of the model stands for a value the code could not
    hold. *)

From S2P Require Import Prelude Types PriceLevel OrderBook Engine Market EngineRefine EngineEvents.
From S2P Require Import Trading Guarantees.

(** ** Ranges of the fields that matching does not compute *)

Definition static_ranges (o : Order) : Prop :=
  is_u64 (o_id o) /\ is_i64 (o_price o) /\ is_i64 (o_stop_price o) /\ is_u64 (o_orig_qty o) /\
  is_u64 (o_timestamp o).

Lemma order_ranges_split o : order_ranges o <-> static_ranges o /\ qty_ranges o.
Proof. unfold order_ranges, static_ranges, qty_ranges. tauto. Qed.

Lemma static_prepare o : static_ranges o -> static_ranges (prepare o).
Proof. unfold prepare. by case_decide. Qed.
Lemma static_convert o : static_ranges o -> static_ranges (convert o).
Proof. unfold convert. case_decide; [|done]. intros (? & ? & ? & ?). by split_ands. Qed.
Lemma static_mark_filled o : static_ranges o -> static_ranges (mark_filled o).
Proof. unfold mark_filled. by case_decide. Qed.
#[local] Hint Resolve static_prepare static_convert static_mark_filled : lob.

(** ** Results *)

Definition trade_ranges (t : Trade) : Prop :=
  is_u64 (t_aggressor_id t) /\ is_u64 (t_passive_id t) /\ is_i64 (t_price t) /\ is_u64 (t_quantity t) /\
  is_u64 (t_timestamp t).
Definition report_ranges (x : ExecutionReport) : Prop :=
  is_u64 (x_order_id x) /\ is_u64 (x_cumulative_qty x) /\ is_u64 (x_remaining_qty x) /\
  is_i64 (x_avg_fill_price x) /\ is_u64 (x_timestamp x).
Definition rejection_ranges (x : Rejection) : Prop := is_u64 (r_order_id x) /\ is_u64 (r_timestamp x).

Record result_ranges (r : MatchResult) : Prop := {
  rr_trades : Forall trade_ranges (mr_trades r);
  rr_reports : Forall report_ranges (mr_reports r);
  rr_rejections : Forall rejection_ranges (mr_rejections r);
}.

Lemma result_ranges_empty : result_ranges empty_result.
Proof. by split. Qed.

(** ** The market *)

Record ranged (m : market) : Prop := {
  rg_book : forall i o, s_orders (mk_book m) !! i = Some o -> static_ranges o;
  rg_pending : Forall static_ranges (mk_pending m);
  rg_stack : Forall (fun x => static_ranges (entry_order x)) (mk_stack m);
  rg_ltp : is_i64 (mk_ltp m);
  rg_result : result_ranges (mk_result m);
}.

Lemma s_fill_static o rest fill b :
  s_orders b !! o_id o = Some o ->
  (forall i x, s_orders b !! i = Some x -> static_ranges x) ->
  forall i x, s_orders (s_fill o rest fill b) !! i = Some x -> static_ranges x.
Proof.
  intros Ho Hb i x. pose proof (Hb _ _ Ho) as Hs. destruct (decide (i = o_id o)) as [->|Hi].
  2: { rewrite s_fill_orders by done. apply Hb. }
  unfold s_fill, s_remove. case_decide; [destruct (_ && _)|]; simpl;
    rewrite ?s_orders_set_queue; simpl; rewrite ?lookup_insert_eq, ?lookup_delete_eq; intros; by simplify_eq.
Qed.

Lemma step_ranged m m' : market_wf m -> step m m' -> ranged m -> ranged m'.
Proof.
  intros Hwf Hstep [Hb Hp Hs Hl [Ht Hx Hj]].
  destruct Hstep; simpl in *; apply Forall_cons in Hs as [Ha Hs]; simpl in Ha.
  - destruct Hwf as [Hbwf _ _ Hq _ Hqs]. simpl in *. apply Forall_cons in Hqs as [(Hqa & _) _].
    destruct (best_front _ _ _ _ _ _ Hbwf H1 H3) as (Hid & _). pose proof (Hb _ _ H3) as Ho.
    destruct (Hq _ _ H3) as (Hqo & _). rewrite <- Hid in H3.
    destruct (Forall_wake (fun x => static_ranges (entry_order x)) static_ranges p pend
      (Active (set_quantity (o_quantity a - fill) a) :: st) Hp) as [? ?]; [by constructor|done|].
    split; simpl; try done.
    + by apply s_fill_static.
    + pose proof (best_front _ _ _ _ _ _ Hbwf H1 ltac:(by rewrite <- Hid)) as Hbf.
      destruct Hbf as (_ & _ & Hpr & _). by rewrite <- Hpr; apply Ho.
    + split; simpl; try done. apply Forall_app. split; [done|]. constructor; [|done].
      destruct Ha as (? & _), Ho as (? & ? & _). unfold trade_ranges. simpl. split_ands; try done; u64_lia.
  - split; simpl; try done. intros j x [Hx'|[-> ->]]%settle_lookup; [eauto|by apply static_mark_filled].
  - by split.
  - split; simpl; try done. split; simpl; try done. apply Forall_app. split; [done|]. constructor; [|done].
    destruct Ha as (? & _). by split.
  - split; simpl; try done. apply Forall_app. by split; [|constructor].
  - split; simpl; try done. constructor; [|done]. simpl. auto with lob.
  - split; simpl; try done. apply Forall_app. by split; [|constructor].
  - split; simpl; try done. constructor; [|done]. simpl. auto with lob.
Qed.

Lemma steps_ranged m m' : steps m m' -> market_wf m -> ranged m -> ranged m'.
Proof. induction 1; eauto using step_wf, step_ranged. Qed.

(** ** The engine *)

Record engine_ranges (e : MatchingEngine) : Prop := {
  er_orders : forall i o, id_map (book e) !! i = Some o -> order_ranges o;
  er_pending : Forall order_ranges (pending_stops e);
  er_ltp : is_i64 (last_trade_price (book e));
}.

Definition event_ranges (ev : OrderEvent) : Prop :=
  match ev with
  | NewOrderEvent o => order_ranges o
  | CancelOrderEvent id ts => is_u64 id /\ is_u64 ts
  | ModifyOrder m =>
      is_u64 (m_order_id m) /\ is_i64 (m_new_price m) /\ is_u64 (m_new_quantity m) /\ is_u64 (m_timestamp m)
  | ReplaceOrderEvent old o => is_u64 old /\ order_ranges o
  end.

Lemma engine_ranges_market e : engine_ranges e -> ranged (mstate e [] empty_result).
Proof.
  intros [Ho Hp Hl]. split; simpl; [|..|apply result_ranges_empty]; try done.
  - intros i o Hi. by apply (order_ranges_split o), (Ho i).
  - eapply Forall_impl; [apply Hp|]. by intros o [? _]%order_ranges_split.
Qed.

Lemma market_engine_ranges K e r :
  engine_wf K e -> ranged (mstate e [] r) -> engine_ranges e /\ result_ranges r.
Proof.
  intros Hwf [Ho Hp _ Hl Hr]. simpl in *. split; [|done].
  destruct (ewf_market _ _ Hwf) as [_ _ _ Hq Hqp _]. simpl in *. split; try done.
  - intros i o Hi. apply order_ranges_split. split; [by apply (Ho i)|by apply (Hq i)].
  - rewrite Forall_forall in *. intros o Hin. apply order_ranges_split. auto.
Qed.

(** A new order, from the engine [e] without the results of earlier events. *)
Lemma new_order_ranges K e o fuel :
  engine_wf K e -> fresh (o_id o) e -> order_ranges o -> (fuel_bound e (NewOrderEvent o) <= fuel)%nat ->
  engine_ranges e ->
  exists e' r, process_new_order fuel e o = Ok (e', r) /\ engine_ranges e' /\ result_ranges r.
Proof.
  intros Hwf Hfr [Hst Hq]%order_ranges_split Hfuel He.
  destruct (new_order_run K e o fuel Hwf Hfr Hq Hfuel) as (e' & r & Heq & Hwf' & Hm & Hs).
  exists e', r. split; [done|]. apply (market_engine_ranges K e' r Hwf'), (steps_ranged _ _ Hs Hm).
  destruct (engine_ranges_market e He) as [? ? _ ? ?]. split; simpl in *; try done.
  constructor; [|done]. simpl. by apply static_prepare.
Qed.

Lemma derived_ranges (P : Order -> Order -> Prop) e e' :
  (forall x y, P x y -> order_ranges y -> order_ranges x) ->
  derived P (abs_book (book e)) (abs_book (book e')) ->
  (forall o, o ∈ pending_stops e' -> o ∈ pending_stops e) ->
  last_trade_price (book e') = last_trade_price (book e) -> engine_ranges e -> engine_ranges e'.
Proof.
  intros HP Hd Hsub Hltp [Ho Hp Hl]. split.
  - intros i x Hx. destruct (Hd i x Hx) as (y & Hy & Hxy). by apply (HP x y), (Ho i).
  - rewrite Forall_forall in *. auto.
  - by rewrite Hltp.
Qed.

Lemma reject_ranges id reason ts : is_u64 id -> is_u64 ts -> result_ranges (reject id reason ts).
Proof. intros ? ?. split; simpl; try done. by constructor. Qed.

Lemma cancel_report_ranges id q ts : is_u64 id -> is_u64 q -> is_u64 ts -> result_ranges (cancel_report id q ts).
Proof. intros ? ? ?. split; simpl; try done. by constructor. Qed.

Lemma removed_ranges K e i o :
  engine_wf K e -> id_map (book e) !! i = Some o -> unmarked i (book e) -> engine_ranges e ->
  engine_ranges (set_book (cancel_order i (book e)).2 e).
Proof.
  intros Hwf Hi Hum He. destruct (engine_wf_remove _ _ _ _ Hwf Hi Hum) as (_ & Habs & _).
  apply (derived_ranges (fun x y => same_place x y /\ x = y) e); try done.
  - by intros x y [_ ->].
  - simpl in *. rewrite Habs. intros j x. unfold s_remove. rewrite s_orders_set_queue. simpl.
    intros [_ Hx]%lookup_delete_Some. by exists x.
  - simpl. by rewrite ltp_cancel_order.
Qed.

Lemma cancel_ranges K e id ts :
  engine_wf K e -> unmarked id (book e) -> is_u64 id -> is_u64 ts -> engine_ranges e ->
  engine_ranges (process_cancel e id ts).1 /\ result_ranges (process_cancel e id ts).2.
Proof.
  intros Hwf Hum Hid Hts He. unfold process_cancel.
  destruct (list_find _ _) as [[i stop]|] eqn:Hfind.
  { apply list_find_Some in Hfind as (Hi & _). pose proof He as [Ho Hp Hl]. rewrite Forall_forall in Hp.
    split.
    - split; simpl; try done. apply Forall_forall. intros o Hin. apply Hp.
      by eapply elem_of_sublist; [|apply sublist_delete].
    - apply cancel_report_ranges; try done. apply list_elem_of_lookup_2 in Hi.
      apply Hp in Hi as (_ & _ & _ & ? & _). done. }
  unfold find_order. destruct (id_map _ !! id) as [o|] eqn:Ho; [|split; [done|by apply reject_ranges]].
  destruct (is_resting o); [|split; [done|by apply reject_ranges]].
  split; [by eapply removed_ranges|]. apply cancel_report_ranges; try done.
  by destruct (er_orders _ He _ _ Ho) as (_ & _ & _ & ? & _).
Qed.

Lemma modified_order_ranges m o :
  is_i64 (m_new_price m) -> is_u64 (m_new_quantity m) -> is_u64 (m_timestamp m) ->
  order_ranges o -> order_ranges (modified m o).
Proof.
  intros ? ? ? (? & ? & ? & ? & ? & ? & ? & ?). unfold modified, order_ranges.
  repeat case_decide; simpl; by split_ands.
Qed.

Lemma modify_ranges K e m :
  engine_wf K e -> unmarked (m_order_id m) (book e) -> event_ranges (ModifyOrder m) -> engine_ranges e ->
  engine_ranges (process_modify e m).1 /\ result_ranges (process_modify e m).2.
Proof.
  intros Hwf Hum (Hid & Hpr & Hq & Hts) He. unfold process_modify, find_order.
  destruct (id_map _ !! _) as [o|] eqn:Ho; [|split; [done|by apply reject_ranges]].
  pose proof (er_orders _ He _ _ Ho) as Hor.
  destruct (is_resting o); [|split; [done|by apply reject_ranges]].
  match goal with |- context [if ?c then _ else _] => destruct c end.
  - fold (modified m o). split; [|apply result_ranges_empty].
    pose proof (removed_ranges _ _ _ _ Hwf Ho Hum He) as [Hord Hpd Hltp].
    split; simpl; try done.
    + intros i x. unfold insert_order, put_level. rewrite modified_id, (wf_key _ (mwf_book _ (ewf_market _ _ Hwf)) _ _ Ho : o_id o = m_order_id m).
      destruct (o_side _); simpl;
      (intros [[_ <-]|[_ Hx]]%lookup_insert_Some; [by apply modified_order_ranges|by apply (Hord i)]).
    + unfold insert_order. rewrite ltp_put_level, ltp_put_order. exact Hltp.
  - destruct (decide _); [|split; [done|apply result_ranges_empty]]. split; [|apply result_ranges_empty].
    destruct (engine_wf_reduce _ _ _ _ _ (u64 (o_quantity o - m_new_quantity m)) Hwf Ho Hq) as [_ Habs].
    apply (f_equal s_orders) in Habs. destruct He as [Hord Hpd Hltp]. split; simpl in *; try done.
    + rewrite Habs. intros i x [[_ <-]|[_ Hx]]%lookup_insert_Some; [|by apply (Hord i)].
      destruct Hor as (? & ? & ? & ? & ? & ? & ? & ?). unfold order_ranges. simpl. by split_ands.
    + unfold reduce_level_volume, update_order_quantity. rewrite Ho.
      destruct (get_level _ _ _); [|done]. by rewrite ltp_put_level, ltp_put_order.
Qed.

(** C14. Values stay in their types: an event whose fields are in range,
    on an engine whose orders, pending stops and last price are, returns with
    such an engine; ids, prices and quantities of all trades, reports and
    rejections are in range too. *)
Theorem submit_keeps_ranges K e ev fuel :
  engine_wf K e -> admissible e ev -> (fuel_bound e ev <= fuel)%nat -> engine_ranges e -> event_ranges ev ->
  exists e' r, submit fuel e ev = Ok (e', r) /\ engine_ranges e' /\ result_ranges r.
Proof.
  intros Hwf Hadm Hfuel He Hev. unfold submit.
  set (e1 := mkEngine (book e) (u64 (sequence e + 1)) (pending_stops e)).
  assert (engine_wf K e1) as Hwf1 by by apply set_sequence_wf.
  assert (engine_ranges e1) as He1 by by destruct He.
  change (admissible e1 ev) in Hadm. change (fuel_bound e1 ev <= fuel)%nat in Hfuel.
  clearbody e1. clear Hwf He e. rename e1 into e.
  destruct ev as [o|id ts|m|old o]; simpl in Hadm.
  - destruct Hadm as [Hfr _]. by apply (new_order_ranges K).
  - destruct Hev. eexists _, _. rewrite (surjective_pairing (process_cancel e id ts)). split; [done|].
    by apply (cancel_ranges K).
  - destruct Hadm as [Hum _]. eexists _, _. rewrite (surjective_pairing (process_modify e m)). split; [done|].
    by apply (modify_ranges K).
  - destruct Hev as [Hold Ho]. destruct (id_map (book e) !! old) as [x|] eqn:Hx.
    2: { eexists _, _. rewrite process_replace_reject by done. split; [done|]. split; [done|by apply reject_ranges]. }
    pose proof Hadm as (Hum & _).
    destruct (replace_setup _ _ _ _ _ Hwf1 Hadm Hx) as (Hwf2 & Hfr & _ & _ & Hle & Heq). rewrite Heq.
    apply (new_order_ranges ({[old]} ∪ K)); try done; [by etrans|by eapply removed_ranges].
Qed.

(** ** Witness *)

Lemma submit_keeps_ranges_witness :
  exists e' r, submit 100 demo_engine (NewOrderEvent demo_buy) = Ok (e', r) /\ engine_ranges e' /\ result_ranges r.
Proof.
  apply (submit_keeps_ranges ∅ demo_engine (NewOrderEvent demo_buy) 100).
  - apply demo_engine_wf.
  - split; [apply demo_fresh|apply demo_ranges].
  - apply demo_fuel.
  - split; [|constructor|done]. intros i o ->%demo_orders. unfold order_ranges. by split_ands.
  - unfold event_ranges, order_ranges. by split_ands.
Defined.
