(* ===== verification/Exchange.v ===== *)
(** * Exchange: one matching engine per instrument

    Model of [src/src/gateway/exchange_manager.hpp] and [exchange_manager.cpp]
    with the message and event types of [src/src/events/]. The clock
    [clock_gettime] is not program code: each call of [now_ns] is an argument
    of the function that makes it. *)

From stdpp Require Import pretty.
From S2P Require Import Prelude Types PriceLevel OrderBook Engine.

(** ** events/order_message.hpp *)

Inductive OrderAction := NewOrder | CancelOrder.
#[global] Instance order_action_eq_dec : EqDecision OrderAction.
Proof. solve_decision. Defined.

Record OrderMessage := mkMessage {
  msg_order_id : Z;
  msg_client_id : Z;
  msg_symbol : string;
  msg_side : Side;
  msg_type : OrderType;
  msg_quantity : Z;
  msg_price : Z;
  msg_stop_price : Z;
  msg_peak_qty : Z;
  msg_timestamp : Z;
  msg_action : OrderAction;
}.

(** ** events/exchange_events.hpp *)

Record OrderAcceptedEvent := mkAccepted {
  acc_timestamp : Z; acc_symbol : string; acc_order_id : Z; acc_client_id : Z;
  acc_price : Z; acc_quantity : Z; acc_side : Side; acc_type : OrderType;
}.
Record OrderRejectedEvent := mkRejected {
  rej_timestamp : Z; rej_symbol : string; rej_order_id : Z; rej_client_id : Z;
  rej_reason : RejectReason;
}.
Record OrderCanceledEvent := mkCanceled {
  can_timestamp : Z; can_symbol : string; can_order_id : Z; can_remaining_qty : Z;
}.
Record TradeExecutedEvent := mkExecuted {
  tex_timestamp : Z; tex_symbol : string; tex_buy_order_id : Z; tex_sell_order_id : Z;
  tex_price : Z; tex_quantity : Z;
}.
Record BookUpdatedEvent := mkBookUpdated {
  bku_timestamp : Z; bku_symbol : string; bku_best_bid : Z; bku_best_ask : Z;
  bku_spread : Z; bku_bid_levels : Z; bku_ask_levels : Z;
}.
Record SnapshotEvent := mkSnapshot {
  snp_timestamp : Z; snp_symbol : string; snp_last_trade_price : Z;
  snp_best_bid : Z; snp_best_ask : Z;
  snp_bids : list (Z * Z); snp_asks : list (Z * Z);
}.

(** [std::variant] of the six event types, in its order. *)
Inductive ExchangeEvent :=
| EvAccepted (ev : OrderAcceptedEvent)
| EvRejected (ev : OrderRejectedEvent)
| EvCanceled (ev : OrderCanceledEvent)
| EvTrade (ev : TradeExecutedEvent)
| EvBook (ev : BookUpdatedEvent)
| EvSnapshot (ev : SnapshotEvent).

(** ** gateway/exchange_manager.hpp *)

Definition kInstrumentCount : nat := 25.

Record Instrument := mkInstrument {
  i_symbol : string;
  i_engine : MatchingEngine;
}.

Record ExchangeManager := mkExchange {
  instruments : list Instrument;
  index : gmap string nat;
}.

(** ["STOCK_" + std::to_string(i)] *)
Definition symbol_name (i : nat) : string := "STOCK_" +:+ pretty (N.of_nat i).

(** The loop of the constructor, from instrument [i] on. *)
Fixpoint build (n i : nat) (x : ExchangeManager) : ExchangeManager :=
  match n with
  | O => x
  | S n =>
      let sym := symbol_name i in
      build n (S i)
        (mkExchange (instruments x ++ [mkInstrument sym new_engine]) (<[sym := (i - 1)%nat]> (index x)))
  end.

Definition new_exchange : ExchangeManager := build kInstrumentCount 1 (mkExchange [] ∅).

Definition has_symbol (sym : string) (x : ExchangeManager) : bool :=
  bool_decide (is_Some (index x !! sym)).

(** ** Translation of results *)

Definition reject_event (ts : Z) (msg : OrderMessage) (rej : Rejection) : ExchangeEvent :=
  EvRejected (mkRejected ts (msg_symbol msg) (r_order_id rej) (msg_client_id msg) (r_reason rej)).

Definition cancel_events (ts : Z) (msg : OrderMessage) (rep : ExecutionReport) : list ExchangeEvent :=
  if decide (x_status rep = Cancelled) then
    [EvCanceled (mkCanceled ts (msg_symbol msg) (x_order_id rep) (x_remaining_qty rep))]
  else [].

Definition trade_event (ts : Z) (msg : OrderMessage) (trade : Trade) : ExchangeEvent :=
  EvTrade (mkExecuted ts (msg_symbol msg)
    (if decide (t_aggressor_side trade = ABuy) then t_aggressor_id trade else t_passive_id trade)
    (if decide (t_aggressor_side trade = ABuy) then t_passive_id trade else t_aggressor_id trade)
    (t_price trade) (t_quantity trade)).

Definition accept_events (ts : Z) (msg : OrderMessage) (res : MatchResult) : list ExchangeEvent :=
  if decide (msg_action msg = NewOrder /\ mr_rejections res = []) then
    [EvAccepted (mkAccepted ts (msg_symbol msg) (msg_order_id msg) (msg_client_id msg)
      (msg_price msg) (msg_quantity msg) (msg_side msg) (msg_type msg))]
  else [].

Definition translate_result (ts : Z) (msg : OrderMessage) (res : MatchResult) (b : OrderBook)
    : Prelude.res (list ExchangeEvent) :=
  spr ← spread b;
  let upd := EvBook (mkBookUpdated ts (msg_symbol msg) (default 0 (best_bid b)) (default 0 (best_ask b))
    (default 0 spr) (bid_level_count b) (ask_level_count b)) in
  Ok (map (reject_event ts msg) (mr_rejections res) ++
      mjoin (map (cancel_events ts msg) (mr_reports res)) ++
      map (trade_event ts msg) (mr_trades res) ++
      accept_events ts msg res ++ [upd]).

(** ** Routing *)

(** The engine event of a message; [now] is the clock reading used when the
    client supplies no timestamp. *)
Definition message_order (now : Z) (msg : OrderMessage) : Order :=
  mkOrder (msg_order_id msg) (msg_side msg) (msg_type msg) (msg_price msg) (msg_stop_price msg)
    (msg_quantity msg) (msg_quantity msg) (msg_peak_qty msg) 0
    (if decide (msg_timestamp msg <> 0) then msg_timestamp msg else now) New.

Definition message_event (now : Z) (msg : OrderMessage) : OrderEvent :=
  if decide (msg_action msg = CancelOrder) then
    CancelOrderEvent (msg_order_id msg) (msg_timestamp msg)
  else NewOrderEvent (message_order now msg).

(** [now] and [ts] are the two clock readings. An index beyond the vector
    would be undefined behaviour. *)
Definition process (fuel : nat) (now ts : Z) (msg : OrderMessage) (x : ExchangeManager)
    : Prelude.res (ExchangeManager * list ExchangeEvent) :=
  match index x !! msg_symbol msg with
  | None => Ok (x, [])
  | Some k =>
      match instruments x !! k with
      | None => Crash AssertFailed
      | Some instr =>
          '(e, result) ← submit fuel (i_engine instr) (message_event now msg);
          evs ← translate_result ts msg result (book e);
          Ok (mkExchange (<[k := mkInstrument (i_symbol instr) e]> (instruments x)) (index x), evs)
      end
  end.

(** ** Snapshots *)

Definition depth (s : Side) (b : OrderBook) : list (Z * Z) :=
  map (fun '(price, level) => (price, pl_total_volume level)) (iterate s b).

Definition snapshot (ts : Z) (symbol : string) (x : ExchangeManager) : Prelude.res SnapshotEvent :=
  match index x !! symbol with
  | None => Crash AssertFailed
  | Some k =>
      match instruments x !! k with
      | None => Crash AssertFailed
      | Some instr =>
          let b := book (i_engine instr) in
          Ok (mkSnapshot ts symbol (last_trade_price b) (default 0 (best_bid b)) (default 0 (best_ask b))
            (depth Buy b) (depth Sell b))
      end
  end.

(** One clock reading per instrument. *)
Fixpoint snapshot_list (ts : nat -> Z) (k : nat) (l : list Instrument) (x : ExchangeManager)
    : Prelude.res (list SnapshotEvent) :=
  match l with
  | [] => Ok []
  | instr :: l =>
      s ← snapshot (ts k) (i_symbol instr) x;
      ss ← snapshot_list ts (S k) l x;
      Ok (s :: ss)
  end.
Definition snapshot_all (ts : nat -> Z) (x : ExchangeManager) : Prelude.res (list SnapshotEvent) :=
  snapshot_list ts 0 (instruments x) x.

(** A sequence of messages: the loop of the exchange thread. Each message
    comes with its two clock readings. *)
Fixpoint process_all (fuel : nat) (msgs : list (Z * Z * OrderMessage)) (x : ExchangeManager)
    : Prelude.res (ExchangeManager * list (list ExchangeEvent)) :=
  match msgs with
  | [] => Ok (x, [])
  | (now, ts, msg) :: msgs =>
      '(x, evs) ← process fuel now ts msg x;
      '(x, evss) ← process_all fuel msgs x;
      Ok (x, evs :: evss)
  end.
