(* ===== verification/ExchangeProps.v ===== *)
(** * ExchangeProps: routing, isolation and event translation

    The exchange routes each message to the engine of its symbol and touches no
    other engine; its events describe the result of that engine; along a
    session with fresh order ids no message reaches undefined behaviour. *)

From stdpp Require Import pretty.
From S2P Require Import Prelude Types PriceLevel OrderBook BookProps Engine Market EngineRefine.
From S2P Require Import EngineEvents Session Trading Guarantees Exchange.

(** ** The symbol index *)

Definition symbols (x : ExchangeManager) : list string := map i_symbol (instruments x).

(** The index maps every symbol to the position of its instrument. *)
Definition exchange_wf (x : ExchangeManager) : Prop :=
  NoDup (symbols x) /\ index x = list_to_map (zip (symbols x) (seq 0 (length (symbols x)))).

Lemma new_exchange_wf : exchange_wf new_exchange.
Proof.
  split.
  - apply (bool_decide_unpack _). vm_compute. exact I.
  - vm_compute. reflexivity.
Qed.

Lemma index_lookup x sym k :
  exchange_wf x -> index x !! sym = Some k <-> symbols x !! k = Some sym.
Proof.
  intros [Hnd ->]. set (l := symbols x) in *.
  assert ((zip l (seq 0 (length l))).*1 = l) as Hfst.
  { apply fst_zip. by rewrite length_seq. }
  rewrite <- elem_of_list_to_map by by rewrite Hfst. split.
  - intros (i & Hi)%list_elem_of_lookup.
    apply lookup_zip_with_Some in Hi as (a & b & [= -> ->] & Ha & Hb).
    apply lookup_seq in Hb as [-> _]. done.
  - intros Hk. apply list_elem_of_lookup. exists k. apply lookup_zip_with_Some. exists sym, k.
    split_ands; [done|done|]. apply lookup_seq. split; [done|]. by eapply lookup_lt_Some.
Qed.

(** The engine of a symbol. *)
Definition engine_of (sym : string) (x : ExchangeManager) : option MatchingEngine :=
  k ← index x !! sym; i_engine <$> instruments x !! k.

Lemma index_instrument x sym k :
  exchange_wf x -> index x !! sym = Some k ->
  exists instr, instruments x !! k = Some instr /\ i_symbol instr = sym.
Proof.
  intros Hwf Hk%index_lookup; [|done]. unfold symbols in Hk.
  rewrite list_lookup_fmap in Hk. apply fmap_Some in Hk as (instr & ? & ->). by exists instr.
Qed.

(** Replacing the engine of an instrument keeps the index right. *)
Definition set_engine (k : nat) (sym : string) (e : MatchingEngine) (x : ExchangeManager)
    : ExchangeManager :=
  mkExchange (<[k := mkInstrument sym e]> (instruments x)) (index x).

Lemma set_engine_symbols k sym e x :
  exchange_wf x -> index x !! sym = Some k -> symbols (set_engine k sym e x) = symbols x.
Proof.
  intros Hwf Hk. apply index_lookup in Hk; [|done]. unfold symbols, set_engine in *. simpl.
  rewrite list_fmap_insert. simpl. by apply list_insert_id.
Qed.

Lemma set_engine_wf k sym e x :
  exchange_wf x -> index x !! sym = Some k -> exchange_wf (set_engine k sym e x).
Proof.
  intros Hwf Hk. unfold exchange_wf. rewrite (set_engine_symbols k sym e x Hwf Hk). by destruct Hwf.
Qed.

Lemma engine_of_set_engine k sym e x sym' :
  exchange_wf x -> index x !! sym = Some k ->
  engine_of sym' (set_engine k sym e x) = if decide (sym = sym') then Some e else engine_of sym' x.
Proof.
  intros Hwf Hk. unfold engine_of. simpl. case_decide as Hs.
  - subst sym'. rewrite Hk. simpl. destruct (index_instrument _ _ _ Hwf Hk) as (i & Hi & _).
    rewrite list_lookup_insert_eq; [done|]. by eapply lookup_lt_Some.
  - destruct (index x !! sym') as [k'|] eqn:Hk'; [|done]. simpl.
    rewrite list_lookup_insert_ne; [done|]. intros <-.
    apply index_lookup in Hk, Hk'; [|done..]. congruence.
Qed.

(** Processing in terms of the engine of the symbol. *)
Lemma process_unfold fuel now ts msg x :
  exchange_wf x ->
  process fuel now ts msg x =
    match index x !! msg_symbol msg, engine_of (msg_symbol msg) x with
    | Some k, Some e =>
        '(e', r) ← submit fuel e (message_event now msg);
        evs ← translate_result ts msg r (book e');
        Ok (set_engine k (msg_symbol msg) e' x, evs)
    | _, _ => Ok (x, [])
    end.
Proof.
  intros Hwf. unfold process, engine_of. destruct (index x !! msg_symbol msg) as [k|] eqn:Hk; [|done].
  simpl. destruct (index_instrument _ _ _ Hwf Hk) as (instr & -> & <-). done.
Qed.

Lemma engine_of_index x sym :
  exchange_wf x -> is_Some (engine_of sym x) <-> is_Some (index x !! sym).
Proof.
  intros Hwf. unfold engine_of. destruct (index x !! sym) as [k|] eqn:Hk; simpl; [|done].
  destruct (index_instrument _ _ _ Hwf Hk) as (instr & -> & _). simpl. split; eauto.
Qed.

(** The exchange routes a message to the engine of its symbol only: that
    engine makes the step of [submit], every other engine and the index stay
    as they are; a message for an unknown symbol changes nothing and yields no
    event. *)
Theorem process_isolated fuel now ts msg x :
  exchange_wf x ->
  match process fuel now ts msg x with
  | Ok (x', evs) =>
      exchange_wf x' /\ index x' = index x /\
      (forall sym, sym <> msg_symbol msg -> engine_of sym x' = engine_of sym x) /\
      match engine_of (msg_symbol msg) x with
      | None => x' = x /\ evs = []
      | Some e => exists e' r, submit fuel e (message_event now msg) = Ok (e', r) /\
          engine_of (msg_symbol msg) x' = Some e' /\
          translate_result ts msg r (book e') = Ok evs
      end
  | _ => True
  end.
Proof.
  intros Hwf. rewrite process_unfold by done.
  destruct (index x !! msg_symbol msg) as [k|] eqn:Hk.
  2: { split_ands; try done. unfold engine_of. by rewrite Hk. }
  destruct (engine_of (msg_symbol msg) x) as [e|] eqn:He; [|done].
  destruct (submit _ _ _) as [[e' r]| |]; [|done..]. rewrite bind_ok.
  destruct (translate_result _ _ _ _) as [evs| |] eqn:Htr; [|done..]. rewrite bind_ok. split_ands.
  - by apply set_engine_wf.
  - done.
  - intros sym Hne. by rewrite (engine_of_set_engine k), decide_False.
  - exists e', r. split_ands; [done| |done]. by rewrite (engine_of_set_engine k), decide_True.
Qed.

(** ** The exchange is a product of independent instruments *)

(** One instrument on its own. *)
Fixpoint instrument_session (fuel : nat) (msgs : list (Z * Z * OrderMessage)) (e : MatchingEngine)
    : Prelude.res (MatchingEngine * list (list ExchangeEvent)) :=
  match msgs with
  | [] => Ok (e, [])
  | (now, ts, msg) :: msgs =>
      '(e, result) ← submit fuel e (message_event now msg);
      evs ← translate_result ts msg result (book e);
      '(e, evss) ← instrument_session fuel msgs e;
      Ok (e, evs :: evss)
  end.

Definition for_symbol (sym : string) (msgs : list (Z * Z * OrderMessage)) : list (Z * Z * OrderMessage) :=
  filter (fun m => msg_symbol m.2 = sym) msgs.

(** The answers to the messages for [sym]. *)
Fixpoint answers_for (sym : string) (msgs : list (Z * Z * OrderMessage)) (evss : list (list ExchangeEvent))
    : list (list ExchangeEvent) :=
  match msgs, evss with
  | m :: msgs, evs :: evss =>
      if decide (msg_symbol m.2 = sym) then evs :: answers_for sym msgs evss else answers_for sym msgs evss
  | _, _ => []
  end.

(** How a computation failed: undefined behaviour, or no fuel left. *)
Definition failure {A} (r : Prelude.res A) : option (option fault) :=
  match r with Ok _ => None | Crash c => Some (Some c) | NoFuel => Some None end.

Lemma failure_bind {A B} (r : Prelude.res A) (f : A -> Prelude.res B) c :
  failure r = Some c -> failure (r ≫= f) = Some c.
Proof. by destruct r. Qed.

Lemma for_symbol_cons sym now ts msg msgs :
  for_symbol sym ((now, ts, msg) :: msgs) =
    if decide (msg_symbol msg = sym) then (now, ts, msg) :: for_symbol sym msgs else for_symbol sym msgs.
Proof. unfold for_symbol. rewrite filter_cons. done. Qed.

(** A message that fails, fails at its instrument alone. *)
Lemma process_fails fuel now ts msg msgs x c :
  exchange_wf x -> failure (process fuel now ts msg x) = Some c ->
  exists e, engine_of (msg_symbol msg) x = Some e /\
    failure (instrument_session fuel ((now, ts, msg) :: msgs) e) = Some c.
Proof.
  intros Hwf. rewrite process_unfold by done. destruct (index x !! _) as [k|]; [|done].
  destruct (engine_of _ x) as [e|]; [|done]. intros Hf. exists e. split; [done|]. simpl. revert Hf.
  destruct (submit _ _ _) as [[e' r]| |]; [|done..]. rewrite !bind_ok.
  by destruct (translate_result _ _ _ _).
Qed.

(** A failure of an instrument after a message is one before it. *)
Lemma later_fails fuel now ts msg msgs x x1 evs sym e1 c :
  exchange_wf x -> process fuel now ts msg x = Ok (x1, evs) -> engine_of sym x1 = Some e1 ->
  failure (instrument_session fuel (for_symbol sym msgs) e1) = Some c ->
  exists e, engine_of sym x = Some e /\
    failure (instrument_session fuel (for_symbol sym ((now, ts, msg) :: msgs)) e) = Some c.
Proof.
  intros Hwf Hp He1 Hf. pose proof (process_isolated fuel now ts msg x Hwf) as Hroute. rewrite Hp in Hroute.
  destruct Hroute as (_ & _ & Hother & Hown). rewrite for_symbol_cons. destruct (decide (msg_symbol msg = sym)) as [<-|Hs].
  - destruct (engine_of (msg_symbol msg) x) as [e|] eqn:He; [|destruct Hown as [-> _]; congruence].
    destruct Hown as (e' & r & Hsub & He' & Htr). exists e. split; [done|]. simplify_eq. simpl.
    rewrite Hsub, bind_ok, Htr, bind_ok. by apply failure_bind.
  - exists e1. split; [|done]. by rewrite <- (Hother sym).
Qed.

Lemma product_returns fuel msgs x x' evss :
  exchange_wf x -> process_all fuel msgs x = Ok (x', evss) ->
  exchange_wf x' /\ length evss = length msgs /\
  forall sym,
    match engine_of sym x with
    | Some e => exists e', instrument_session fuel (for_symbol sym msgs) e = Ok (e', answers_for sym msgs evss) /\
        engine_of sym x' = Some e'
    | None => Forall (eq []) (answers_for sym msgs evss) /\ engine_of sym x' = None
    end.
Proof.
  revert x evss. induction msgs as [|[[now ts] msg] msgs IH]; intros x evss Hwf; simpl.
  { intros [= <- <-]. split_ands; [done..|]. intros sym. destruct (engine_of sym x) as [e|]; [by exists e|done]. }
  intros ([x1 evs] & Hp & ([x2 evss2] & Hr & [= <- <-])%bind_ok_inv)%bind_ok_inv.
  pose proof (process_isolated fuel now ts msg x Hwf) as Hroute. rewrite Hp in Hroute.
  destruct Hroute as (Hwf1 & _ & Hother & Hown). destruct (IH _ _ Hwf1 Hr) as (Hwf2 & Hlen & Hall).
  split_ands; [done|simpl; by f_equal|]. intros sym. specialize (Hall sym).
  unfold for_symbol in *. rewrite filter_cons. simpl. destruct (decide (msg_symbol msg = sym)) as [<-|Hs].
  - destruct (engine_of (msg_symbol msg) x) as [e|] eqn:He.
    + destruct Hown as (e1 & r & Hsub & He1 & Htr). rewrite He1 in Hall. destruct Hall as (e2 & Hses & He2).
      exists e2. simpl. by rewrite Hsub, bind_ok, Htr, bind_ok, Hses.
    + destruct Hown as [-> ->]. rewrite He in Hall. destruct Hall as [Hall ?]. split; [|done]. by constructor.
  - by rewrite (Hother sym) in Hall by done.
Qed.

(** C20. The exchange is a product of independent instruments, on every
    sequence of messages. If it processes them all, the engine of each
    instrument and the answers to the messages for it are those of that engine
    alone on these messages alone; messages for an unknown symbol are answered
    by no event and change nothing. If it does not, because of undefined
    behaviour or because the fuel is used up, then one of the instruments alone
    fails in the same way on its own messages. *)
Theorem exchange_is_product fuel msgs x :
  exchange_wf x ->
  match process_all fuel msgs x with
  | Ok (x', evss) =>
      exchange_wf x' /\ length evss = length msgs /\
      forall sym,
        match engine_of sym x with
        | Some e => exists e', instrument_session fuel (for_symbol sym msgs) e = Ok (e', answers_for sym msgs evss) /\
            engine_of sym x' = Some e'
        | None => Forall (eq []) (answers_for sym msgs evss) /\ engine_of sym x' = None
        end
  | failed => exists sym e, engine_of sym x = Some e /\
      failure (instrument_session fuel (for_symbol sym msgs) e) = failure failed
  end.
Proof.
  intros Hwf. destruct (process_all fuel msgs x) as [[x' evss]|c|] eqn:Hrun; [by apply product_returns|..].
  all: apply (f_equal failure) in Hrun; revert x Hwf Hrun; simpl.
  all: induction msgs as [|[[now ts] msg] msgs IH]; intros x Hwf Hrun; [done|]; simpl in Hrun.
  all: destruct (process fuel now ts msg x) as [[x1 evs]| |] eqn:Hp; simpl in Hrun.
  all: try (destruct (process_fails fuel now ts msg (for_symbol (msg_symbol msg) msgs) x _ Hwf
      ltac:(by rewrite Hp)) as (e & He & Hf); exists (msg_symbol msg), e; split; [done|];
    rewrite for_symbol_cons, decide_True by done; by rewrite Hf).
  all: pose proof (process_isolated fuel now ts msg x Hwf) as Hroute; rewrite Hp in Hroute;
    destruct (IH x1 ltac:(by destruct Hroute)) as (sym & e1 & He1 & Hf); [by destruct (process_all fuel msgs x1) as [[??]| |]|].
  all: destruct (later_fails _ _ _ _ _ _ _ _ _ _ _ Hwf Hp He1 Hf) as (e & He & Hfail); by exists sym, e.
Qed.

(** ** Events *)

Definition as_accepted (ev : ExchangeEvent) : option OrderAcceptedEvent := match ev with EvAccepted a => Some a | _ => None end.
Definition as_rejected (ev : ExchangeEvent) : option OrderRejectedEvent := match ev with EvRejected r => Some r | _ => None end.
Definition as_canceled (ev : ExchangeEvent) : option OrderCanceledEvent := match ev with EvCanceled c => Some c | _ => None end.
Definition as_trade (ev : ExchangeEvent) : option TradeExecutedEvent := match ev with EvTrade t => Some t | _ => None end.
Definition as_book (ev : ExchangeEvent) : option BookUpdatedEvent := match ev with EvBook b => Some b | _ => None end.

(** The events of one kind among those made from a list. *)
Lemma omap_map {A B} (f : ExchangeEvent -> option B) (g : A -> ExchangeEvent) l : omap f (map g l) = omap (fun a => f (g a)) l.
Proof. induction l as [|a l IH]; [done|]. csimpl. by rewrite IH. Qed.

Lemma omap_none {A B} (l : list A) : omap (fun _ : A => @None B) l = [].
Proof. by induction l. Qed.

Lemma omap_some {A B} (g : A -> B) l : omap (fun a => Some (g a)) l = map g l.
Proof. induction l as [|a l IH]; [done|]. csimpl. by rewrite IH. Qed.

Lemma omap_cancel_events {B} (f : ExchangeEvent -> option B) ts msg l :
  omap f (mjoin (map (cancel_events ts msg) l)) =
    omap (fun rep => f (EvCanceled (mkCanceled ts (msg_symbol msg) (x_order_id rep) (x_remaining_qty rep))))
      (filter (fun rep => x_status rep = Cancelled) l).
Proof.
  induction l as [|rep l IH]; [done|]. simpl. rewrite omap_app, IH, filter_cons. unfold cancel_events.
  case_decide; [|done]. csimpl. by destruct (f _).
Qed.

(** The events of one kind in the translation of a result. *)
Lemma omap_translated {B} (f : ExchangeEvent -> option B) ts msg r b evs :
  translate_result ts msg r b = Ok evs ->
  exists spr, spread b = Ok spr /\
  omap f evs =
    omap (fun rej => f (reject_event ts msg rej)) (mr_rejections r) ++
    omap (fun rep => f (EvCanceled (mkCanceled ts (msg_symbol msg) (x_order_id rep) (x_remaining_qty rep))))
      (filter (fun rep => x_status rep = Cancelled) (mr_reports r)) ++
    omap (fun t => f (trade_event ts msg t)) (mr_trades r) ++
    omap f (accept_events ts msg r) ++
    option_list (f (EvBook (mkBookUpdated ts (msg_symbol msg) (default 0 (best_bid b)) (default 0 (best_ask b))
      (default 0 spr) (bid_level_count b) (ask_level_count b)))).
Proof.
  unfold translate_result. intros (spr & Hspr & [= <-])%bind_ok_inv. exists spr. split; [done|].
  rewrite !omap_app, !omap_map, omap_cancel_events. do 4 f_equal.
Qed.

(** The spread without overflow. *)
Definition book_spread (b : OrderBook) : Z :=
  match best_bid b, best_ask b with Some bid, Some ask => ask - bid | _, _ => 0 end.

Lemma spread_value b spr : spread b = Ok spr -> default 0 spr = book_spread b.
Proof.
  unfold spread, book_spread. destruct (best_bid b), (best_ask b); [|by intros [= <-]..].
  intros (d & Hd & [= <-])%bind_ok_inv. unfold i64 in Hd. case_decide; by simplify_eq.
Qed.

(** ** Prices of the orders in a market *)

(** Every limit in the market satisfies [P]. *)
Definition priced (P : Price -> Prop) (m : market) : Prop :=
  forall x p, has x m -> limit_price x = Some p -> P p.

Lemma steps_priced P m m' : steps m m' -> market_wf m -> typed m -> priced P m -> priced P m'.
Proof.
  induction 1 as [m|m y m' Hy Hs IH]; intros Hwf Hty Hp; [done|].
  apply IH; [by eapply step_wf|by eapply step_typed|].
  intros x p Hx Hl. destruct (step_has _ _ _ Hwf Hty Hy Hx) as (z & Hz & _ & _ & Heq).
  apply (Hp z); [done|congruence].
Qed.

Definition moderate (p : Price) : Prop := - 2 ^ 62 <= p < 2 ^ 62.

(** What every instrument keeps. *)
Definition engine_inv (used : gset OrderId) (e : MatchingEngine) : Prop :=
  session_inv used e /\ typed_engine e /\ priced moderate (mstate e [] empty_result).

Lemma engine_inv_new : engine_inv ∅ new_engine.
Proof.
  unfold engine_inv. split_ands; [apply session_inv_new| |].
  - split; [|constructor..]. intros i o. simpl. by rewrite lookup_empty.
  - intros x p [Hx|[Hx|Hx]]; simpl in Hx; [by rewrite lookup_empty in Hx|by apply elem_of_nil in Hx..].
Qed.

Lemma spread_moderate used e : engine_inv used e -> exists spr, spread (book e) = Ok spr.
Proof.
  intros ((K & Hwf & _) & [Hty _ _] & Hp). unfold spread.
  pose proof (mstate_book_wf e [] empty_result (ewf_levels _ _ Hwf) (ewf_market _ _ Hwf)) as Hb.
  destruct (best_bid (book e)) as [bb|] eqn:Hbb; [|by eexists].
  destruct (best_ask (book e)) as [ba|] eqn:Hba; [|by eexists].
  apply (best_price_Some (book e) Hb Buy) in Hbb as [(i & x & Hx & _ & <-) _].
  apply (best_price_Some (book e) Hb Sell) in Hba as [(j & y & Hy & _ & <-) _].
  assert (forall k o, id_map (book e) !! k = Some o -> moderate (o_price o)) as Hm.
  { intros k o Ho. pose proof (wf_key _ (mwf_book _ (ewf_market _ _ Hwf)) _ _ Ho) as Hid.
    apply (Hp o); [left; simpl; congruence|].
    unfold limit_price. by destruct (Hty _ _ Ho) as [->| ->]. }
  pose proof (Hm _ _ Hx) as Hmx. pose proof (Hm _ _ Hy) as Hmy. unfold moderate in *.
  unfold i64. rewrite decide_True by (unfold is_i64; lia). by eexists.
Qed.

(** One message to an engine. *)
Definition message_ok (used : gset OrderId) (msg : OrderMessage) : Prop :=
  msg_action msg = NewOrder ->
  (msg_order_id msg ∉ used) /\ is_u64 (msg_quantity msg) /\ is_u64 (msg_peak_qty msg) /\
  moderate (msg_price msg).

Definition message_used (used : gset OrderId) (msg : OrderMessage) : gset OrderId :=
  if decide (msg_action msg = NewOrder) then {[msg_order_id msg]} ∪ used else used.

Lemma message_event_session used now msg :
  message_ok used msg ->
  session_ok [message_event now msg] used /\
  used_after [message_event now msg] used = message_used used msg.
Proof.
  unfold message_ok, message_used, message_event. intros Hok.
  destruct (msg_action msg); simpl; [|done].
  destruct (Hok eq_refl) as (? & ? & ? & _). split; [|done].
  split; [done|]. split; [|done]. unfold qty_ranges. simpl. split_ands; try done.
Qed.

Lemma engine_inv_cancel used e id ts :
  engine_inv used e -> engine_inv used (process_cancel e id ts).1.
Proof.
  intros ((K & Hwf & HK & Hkn) & Hty & Hp).
  pose proof (known_unmarked used e K Hwf HK Hkn id) as Hum.
  destruct (cancel_derived K e id ts Hwf Hum) as [Hd Hpend].
  unfold engine_inv. split_ands.
  - by apply (session_cancel used e K).
  - apply (derived_typed e); [by apply derived_weaken|done..].
  - intros x p Hx Hl. destruct Hx as [Hx|[Hx|Hx]]; simpl in Hx.
    + pose proof (Hd _ _ Hx) as (y & Hy & Hside & Htype & Hprice).
      pose proof (wf_key _ (mwf_book _ (ewf_market _ _ Hwf)) _ _ Hy) as Hid.
      apply (Hp y); [left; simpl in *; congruence|]. unfold limit_price in *. by rewrite <- Htype, <- Hprice.
    + apply (Hp x); [right; left; simpl; auto|done].
    + by apply elem_of_nil in Hx.
Qed.

Lemma engine_inv_new_order used e o :
  engine_inv used e -> o_id o ∉ used -> qty_ranges o -> moderate (o_price o) ->
  exists e' r, process_new_order (fuel_bound e (NewOrderEvent o)) e o = Ok (e', r) /\
    engine_inv ({[o_id o]} ∪ used) e'.
Proof.
  intros ((K & Hwf & HK & Hkn) & Hty & Hp) Hid Hr Hpr.
  destruct (session_new used e K Hwf HK Hkn o Hid Hr) as (e' & r & Heq & Hinv).
  pose proof (unused_fresh used e K Hkn _ Hid) as Hfr.
  destruct (new_order_run K e o _ Hwf Hfr Hr (le_n _)) as (e2 & r2 & Heq2 & _ & Hm & Hs).
  rewrite Heq in Heq2. injection Heq2 as <- <-.
  exists e', r. split; [done|]. unfold engine_inv. split_ands; [done| |].
  - eapply typed_result, steps_typed; [done..|]. by apply typed_active.
  - intros x p Hx. apply (steps_priced moderate _ _ Hs Hm); [by apply typed_active| |done].
    intros y q [Hy|[Hy|Hy]] Hl; simpl in Hy.
    + apply (Hp y); [by left|done].
    + apply (Hp y); [by right; left|done].
    + apply list_elem_of_singleton in Hy as ->. unfold limit_price in Hl.
      rewrite prepare_type, prepare_price in Hl. destruct (o_type o); by simplify_eq.
Qed.

Lemma engine_inv_submit used e now msg :
  engine_inv used e -> message_ok used msg ->
  exists e' r, submit (fuel_bound e (message_event now msg)) e (message_event now msg) = Ok (e', r) /\
    engine_inv (message_used used msg) e'.
Proof.
  intros Hinv Hok. unfold submit.
  set (e1 := mkEngine (book e) (u64 (sequence e + 1)) (pending_stops e)).
  assert (engine_inv used e1) as Hinv1.
  { destruct Hinv as (? & [? ? ?] & Hp). split; [by apply set_sequence_inv|]. split; [by split|].
    intros x p Hx. apply (Hp x p). by destruct Hx as [?|[?|?]]; [left|right; left|right; right]. }
  unfold message_event, message_used, message_ok in *. destruct (msg_action msg).
  - destruct (Hok eq_refl) as (? & ? & ? & ?). rewrite decide_False, decide_True by done.
    apply (engine_inv_new_order used e1 (message_order now msg)); [done|done| |done].
    unfold qty_ranges. simpl. by split_ands.
  - rewrite decide_True, decide_False by done.
    eexists _, _. rewrite (surjective_pairing (process_cancel e1 _ _)). split; [done|].
    by apply engine_inv_cancel.
Qed.

(** ** Sessions of the exchange *)

(** The ids used at each instrument. *)
Definition used_map : Type := string -> gset OrderId.
Definition use (msg : OrderMessage) (used : used_map) : used_map :=
  fun sym => if decide (sym = msg_symbol msg) then message_used (used sym) msg else used sym.

Fixpoint messages_ok (msgs : list (Z * Z * OrderMessage)) (used : used_map) : Prop :=
  match msgs with
  | [] => True
  | (_, _, msg) :: msgs => message_ok (used (msg_symbol msg)) msg /\ messages_ok msgs (use msg used)
  end.

Definition exchange_inv (used : used_map) (x : ExchangeManager) : Prop :=
  exchange_wf x /\ forall sym e, engine_of sym x = Some e -> engine_inv (used sym) e.

Lemma process_session used now ts msg x :
  exchange_inv used x -> message_ok (used (msg_symbol msg)) msg ->
  exists n, forall fuel, (n <= fuel)%nat -> exists x' evs,
    process fuel now ts msg x = Ok (x', evs) /\ exchange_inv (use msg used) x'.
Proof.
  intros [Hwf Hinv] Hok. destruct (engine_of (msg_symbol msg) x) as [e|] eqn:He.
  - destruct (index x !! msg_symbol msg) as [k|] eqn:Hk.
    2: { unfold engine_of in He. by rewrite Hk in He. }
    destruct (engine_inv_submit _ _ now msg (Hinv _ _ He) Hok) as (e' & r & Heq & Hinv').
    exists (fuel_bound e (message_event now msg)). intros fuel Hfuel.
    rewrite process_unfold, Hk, He by done.
    rewrite (submit_mono _ fuel e _ _ Hfuel Heq), bind_ok. unfold translate_result.
    destruct (spread_moderate _ _ Hinv') as [spr ->]. rewrite !bind_ok.
    eexists _, _. split; [done|]. split; [by apply set_engine_wf|].
    intros sym e0. rewrite (engine_of_set_engine k) by done. unfold use.
    case_decide as Hs; [subst; rewrite decide_True by done; by intros [= <-]|].
    rewrite decide_False by done. apply Hinv.
  - exists O. intros fuel _. rewrite process_unfold by done.
    exists x, []. split; [rewrite He; by destruct (index x !! _)|].
    split; [done|]. intros sym e Hsym. unfold use. rewrite decide_False; [by apply Hinv|congruence].
Qed.

Lemma process_mono n fuel now ts msg x y :
  (n <= fuel)%nat -> process n now ts msg x = Ok y -> process fuel now ts msg x = Ok y.
Proof.
  intros Hn. unfold process. destruct (index x !! _) as [k|]; [|done].
  destruct (instruments x !! k) as [instr|]; [|done].
  intros ([e r] & He & HH)%bind_ok_inv. by rewrite (submit_mono _ _ _ _ _ Hn He).
Qed.

Lemma process_all_mono n fuel msgs x y :
  (n <= fuel)%nat -> process_all n msgs x = Ok y -> process_all fuel msgs x = Ok y.
Proof.
  intros Hn. revert x y. induction msgs as [|[[now ts] msg] msgs IH]; intros x y; [done|]. simpl.
  intros ([x1 evs] & Hp & ([x2 evss] & Hr & [= <-])%bind_ok_inv)%bind_ok_inv.
  by rewrite (process_mono _ _ _ _ _ _ _ Hn Hp), bind_ok, (IH _ _ Hr).
Qed.

Lemma exchange_run msgs used x :
  exchange_inv used x -> messages_ok msgs used ->
  exists n, forall fuel, (n <= fuel)%nat -> exists x' evss,
    process_all fuel msgs x = Ok (x', evss) /\ length evss = length msgs /\
    exists used', exchange_inv used' x'.
Proof.
  revert used x. induction msgs as [|[[now ts] msg] msgs IH]; intros used x Hinv Hok.
  { exists O. intros fuel _. exists x, []. split_ands; [done|done|]. by exists used. }
  destruct Hok as [Hmsg Hok]. destruct (process_session _ now ts _ _ Hinv Hmsg) as (n1 & Hn1).
  destruct (Hn1 n1 (le_n _)) as (x1 & evs & Heq & Hinv1).
  destruct (IH _ _ Hinv1 Hok) as (n2 & Hn2). exists (Nat.max n1 n2). intros fuel Hfuel.
  destruct (Hn2 fuel ltac:(lia)) as (x2 & evss & Heq2 & Hlen & Hinv2).
  exists x2, (evs :: evss). simpl.
  rewrite (process_mono n1 fuel _ _ _ _ _ ltac:(lia) Heq), bind_ok, Heq2.
  by split_ands; [|simpl; rewrite Hlen|].
Qed.

Lemma build_fresh n i x :
  Forall (fun instr => i_engine instr = new_engine) (instruments x) ->
  Forall (fun instr => i_engine instr = new_engine) (instruments (build n i x)).
Proof.
  revert i x. induction n as [|n IH]; intros i x Hx; [done|].
  apply IH. apply Forall_app. split; [done|by constructor].
Qed.

Lemma fresh_exchange_inv x :
  exchange_wf x -> Forall (fun instr => i_engine instr = new_engine) (instruments x) ->
  exchange_inv (fun _ => ∅) x.
Proof.
  intros Hwf Hall. split; [done|]. intros sym e. unfold engine_of.
  destruct (index x !! sym) as [k|]; [|done]. simpl. intros (instr & Hi & ->)%fmap_Some.
  rewrite Forall_lookup in Hall. rewrite (Hall _ _ Hi). apply engine_inv_new.
Qed.

Lemma exchange_inv_new : exchange_inv (fun _ => ∅) new_exchange.
Proof. apply fresh_exchange_inv; [apply new_exchange_wf|]. apply build_fresh. constructor. Qed.

(** C19. Along every session of the exchange in which each new order carries an
    id not used before at its instrument, a price in [-2^62, 2^62) and
    quantities in range, with enough fuel every message is processed: no engine
    reaches undefined behaviour and the spread of the book updates never
    overflows. *)
Theorem exchange_session_safe msgs :
  messages_ok msgs (fun _ => ∅) ->
  exists n, forall fuel, (n <= fuel)%nat -> exists x' evss,
    process_all fuel msgs new_exchange = Ok (x', evss) /\ length evss = length msgs /\
    exists used', exchange_inv used' x'.
Proof. intros Hok. by apply (exchange_run msgs (fun _ => ∅)); [apply exchange_inv_new|]. Qed.

(** The trade events of a new order name the buyer and the seller: the
    buy id belongs to a buy order of the market, the sell id to a sell order,
    and the price is the limit of one of them. *)
Theorem trade_events_sides used e now ts msg fuel :
  engine_inv used e -> message_ok used msg -> msg_action msg = NewOrder ->
  (fuel_bound e (message_event now msg) <= fuel)%nat ->
  exists e' r, submit fuel e (message_event now msg) = Ok (e', r) /\
    forall t ev, t ∈ mr_trades r -> trade_event ts msg t = EvTrade ev ->
      exists buyer seller, has buyer (start e (message_order now msg)) /\
        has seller (start e (message_order now msg)) /\
        o_side buyer = Buy /\ o_side seller = Sell /\
        o_id buyer = tex_buy_order_id ev /\ o_id seller = tex_sell_order_id ev /\
        (limit_price buyer = Some (tex_price ev) \/ limit_price seller = Some (tex_price ev)) /\
        within_limit buyer (tex_price ev) /\ within_limit seller (tex_price ev).
Proof.
  intros ((K & Hwf & HK & Hkn) & Hty & _) Hok Hact Hfuel. destruct (Hok Hact) as (Hid & Hq & Hpk & _).
  unfold message_event in *. rewrite decide_False in Hfuel |- * by congruence.
  set (o := message_order now msg) in *. unfold submit.
  set (e1 := mkEngine (book e) (u64 (sequence e + 1)) (pending_stops e)).
  assert (engine_wf K e1) as Hwf1 by by apply set_sequence_wf.
  assert (qty_ranges o) as Hr by (unfold qty_ranges; simpl; by split_ands).
  destruct (new_order_run K e1 o fuel Hwf1 (unused_fresh used e K Hkn _ Hid) Hr Hfuel)
    as (e' & r & Heq & _ & Hm & Hs).
  exists e', r. split; [done|]. intros t ev Ht [= <-].
  destruct (steps_trades _ _ Hs Hm (typed_active e1 (prepare o) Hty)) as (ts' & Hts & Hf).
  simpl in Hts. subst ts'. rewrite Forall_forall in Hf.
  destruct (Hf _ Ht) as (a & p & Ha & Hp & Hida & Hidp & Hopp & Hagg & Hlim & Hin & _).
  change (start e1 o) with (start e o) in Ha, Hp. simpl. rewrite Hagg. unfold is_buy.
  assert (within_limit p (t_price t)) as Hinp.
  { intros lim Hl. rewrite Hlim in Hl. injection Hl as <-. by destruct (o_side p). }
  destruct (o_side a) eqn:Hsa; simpl in Hopp |- *;
    [exists a, p|exists p, a]; split_ands; auto.
Qed.

(** Cancelling trades nothing. *)
Lemma cancel_no_trades e id ts : mr_trades (process_cancel e id ts).2 = [].
Proof.
  unfold process_cancel. destruct (list_find _ _) as [[i stop]|]; [done|].
  destruct (find_order _ _); [|done]. by destruct (is_resting _).
Qed.

(** What the event [ev] says of the trade [t] made in the market [m]. *)
Record trade_told (ts : Z) (sym : string) (m : market) (t : Trade) (ev : TradeExecutedEvent) : Prop := {
  tt_head : tex_timestamp ev = ts /\ tex_symbol ev = sym;
  tt_fill : tex_price ev = t_price t /\ tex_quantity ev = t_quantity t;
  tt_ids : {[tex_buy_order_id ev; tex_sell_order_id ev]} =@{gset Z} {[t_aggressor_id t; t_passive_id t]};
  tt_sides : exists buyer seller, has buyer m /\ has seller m /\ o_side buyer = Buy /\ o_side seller = Sell /\
    o_id buyer = tex_buy_order_id ev /\ o_id seller = tex_sell_order_id ev /\
    within_limit buyer (tex_price ev) /\ within_limit seller (tex_price ev);
}.

Lemma submit_trade_events used e now ts msg fuel e' r :
  engine_inv used e -> message_ok used msg -> (fuel_bound e (message_event now msg) <= fuel)%nat ->
  submit fuel e (message_event now msg) = Ok (e', r) ->
  Forall2 (trade_told ts (msg_symbol msg) (start e (message_order now msg))) (mr_trades r)
    (omap (fun t => as_trade (trade_event ts msg t)) (mr_trades r)).
Proof.
  intros Hinv Hok Hfuel Hsub. simpl. rewrite omap_some. destruct (msg_action msg) eqn:Hact.
  - destruct (trade_events_sides used e now ts msg fuel Hinv Hok Hact Hfuel) as (e1 & r1 & Hsub1 & Hsides).
    rewrite Hsub in Hsub1. injection Hsub1 as <- <-. apply Forall2_fmap_r, Forall_Forall2_diag, Forall_forall.
    intros t Ht. destruct (Hsides t _ Ht eq_refl) as (b & s & Hb & Hs & Hbs & Hss & Hbi & Hsi & _ & Hbw & Hsw).
    split; [done|done| |by exists b, s]. simpl. case_decide; set_solver.
  - unfold submit, message_event in Hsub. rewrite decide_True in Hsub by done.
    assert (mr_trades r = []) as ->; [|done]. injection Hsub as Hsub. apply (f_equal (fun x => mr_trades x.2)) in Hsub.
    by rewrite cancel_no_trades in Hsub.
Qed.

(** C21. In a session with fresh ids and moderate prices, every message to an
    instrument is answered by exactly these events: for each rejection one
    REJECTED event with its order id and reason and the client of the message;
    for each report of a cancellation one CANCELED event with its order id and
    remaining quantity; for each trade one TRADE event with its price and
    quantity, whose buy id is that of a buy order and whose sell id that of a
    sell order of the market, the two being the aggressor and the passive order
    and both trading within their limits; an ACCEPTED event with the terms of
    the message exactly for a new order without rejections; and at the end one
    BOOK event with the best prices (0 for an empty side), their difference and
    the numbers of levels of the book after the message. *)
Theorem translate_result_events used e now ts msg fuel :
  engine_inv used e -> message_ok used msg -> (fuel_bound e (message_event now msg) <= fuel)%nat ->
  exists e' r evs, submit fuel e (message_event now msg) = Ok (e', r) /\ translate_result ts msg r (book e') = Ok evs /\
    let b := book e' in let sym := msg_symbol msg in
    let upd := mkBookUpdated ts sym (default 0 (best_bid b)) (default 0 (best_ask b)) (book_spread b)
      (bid_level_count b) (ask_level_count b) in
    omap as_rejected evs =
      map (fun rej => mkRejected ts sym (r_order_id rej) (msg_client_id msg) (r_reason rej)) (mr_rejections r) /\
    omap as_canceled evs = map (fun rep => mkCanceled ts sym (x_order_id rep) (x_remaining_qty rep))
      (filter (fun rep => x_status rep = Cancelled) (mr_reports r)) /\
    Forall2 (trade_told ts sym (start e (message_order now msg))) (mr_trades r) (omap as_trade evs) /\
    omap as_accepted evs =
      (if decide (msg_action msg = NewOrder /\ mr_rejections r = [])
       then [mkAccepted ts sym (msg_order_id msg) (msg_client_id msg) (msg_price msg) (msg_quantity msg)
               (msg_side msg) (msg_type msg)] else []) /\
    omap as_book evs = [upd] /\ last evs = Some (EvBook upd).
Proof.
  intros Hinv Hok Hfuel. destruct (engine_inv_submit used e now msg Hinv Hok) as (e' & r & Hsub & Hinv').
  apply (submit_mono _ fuel _ _ _ Hfuel) in Hsub. destruct (spread_moderate _ _ Hinv') as [spr Hspr].
  pose proof (spread_value _ _ Hspr) as Hval.
  destruct (translate_result ts msg r (book e')) as [evs| |] eqn:Htr.
  2,3: unfold translate_result in Htr; by rewrite Hspr in Htr.
  pose proof (fun B (f : ExchangeEvent -> option B) => omap_translated f ts msg r (book e') evs Htr) as Hevs.
  assert (forall B (f : ExchangeEvent -> option B), omap f evs =
    omap (fun rej => f (reject_event ts msg rej)) (mr_rejections r) ++
    omap (fun rep => f (EvCanceled (mkCanceled ts (msg_symbol msg) (x_order_id rep) (x_remaining_qty rep))))
      (filter (fun rep => x_status rep = Cancelled) (mr_reports r)) ++
    omap (fun t => f (trade_event ts msg t)) (mr_trades r) ++ omap f (accept_events ts msg r) ++
    option_list (f (EvBook (mkBookUpdated ts (msg_symbol msg) (default 0 (best_bid (book e')))
      (default 0 (best_ask (book e'))) (book_spread (book e')) (bid_level_count (book e')) (ask_level_count (book e')))))) as Hof.
  { intros B f. destruct (Hevs B f) as (spr' & Hspr' & ->). rewrite Hspr in Hspr'. injection Hspr' as <-. by rewrite Hval. }
  exists e', r, evs. split; [done|]. split; [done|]. cbv zeta. unfold accept_events in Hof. rewrite !Hof.
  split_ands.
  - simpl. rewrite omap_some, !omap_none. case_decide; by rewrite app_nil_r.
  - simpl. rewrite omap_some, !omap_none. case_decide; by rewrite app_nil_r.
  - pose proof (submit_trade_events used e now ts msg fuel e' r Hinv Hok Hfuel Hsub) as Htold.
    simpl in Htold |- *. rewrite !omap_none. case_decide; by rewrite !app_nil_r.
  - simpl. rewrite !omap_none. case_decide; done.
  - simpl. rewrite !omap_none. case_decide; done.
  - unfold translate_result in Htr. rewrite Hspr in Htr. injection Htr as <-. by rewrite !app_assoc, last_snoc, Hval.
Qed.

(** ** Depth snapshots *)

Lemma sorted_impl (R S : Z -> Z -> Prop) l :
  (forall p q, R p q -> S p q) -> StronglySorted R l -> StronglySorted S l.
Proof.
  intros HRS. induction 1 as [|p l Hs IH Hall]; constructor; [done|].
  eapply Forall_impl; [done|auto].
Qed.

Lemma NoDup_sorted_strict s (l : list (Z * PriceLevel)) :
  StronglySorted (key_rel (prio s)) l -> NoDup l.*1 ->
  StronglySorted (fun p q => prio s p q /\ p <> q) l.*1.
Proof.
  induction 1 as [|[p lv] l Hs IH Hall]; simpl; [constructor|]. intros [Hn Hnd]%NoDup_cons.
  constructor; [by apply IH|]. rewrite Forall_forall in Hall. apply Forall_forall.
  intros q Hq. pose proof Hq as ([q' lq] & -> & Hin)%list_elem_of_fmap.
  split; [by apply (Hall (q', lq))|]. simpl in *. intros ->. done.
Qed.

Lemma depth_prices s b : (depth s b).*1 = (iterate s b).*1.
Proof. unfold depth. rewrite <- list_fmap_compose. apply list_fmap_ext. by intros ? [? ?]. Qed.

Lemma depth_sorted s b : StronglySorted (fun p q => prio s p q /\ p <> q) (depth s b).*1.
Proof.
  rewrite depth_prices. apply NoDup_sorted_strict; [apply map_sorted_sorted; apply _|].
  unfold iterate. rewrite (map_sorted_perm (prio s)). apply NoDup_fst_map_to_list.
Qed.

(** C22. A snapshot of a known symbol is taken, of an unknown one fails the
    assertion. Its bids come in strictly falling and its asks in strictly
    rising price order, each starting with the best price, and there is one
    entry per price at which an order rests. *)
Theorem snapshot_correct used x ts sym :
  exchange_inv used x ->
  match engine_of sym x with
  | None => snapshot ts sym x = Crash AssertFailed
  | Some e => exists snp, snapshot ts sym x = Ok snp /\
      StronglySorted (fun p q => q < p) (snp_bids snp).*1 /\
      StronglySorted (fun p q => p < q) (snp_asks snp).*1 /\
      head (snp_bids snp).*1 = best_bid (book e) /\ head (snp_asks snp).*1 = best_ask (book e) /\
      (forall p, p ∈ (snp_bids snp).*1 <->
        exists i o, id_map (book e) !! i = Some o /\ o_side o = Buy /\ o_price o = p) /\
      (forall p, p ∈ (snp_asks snp).*1 <->
        exists i o, id_map (book e) !! i = Some o /\ o_side o = Sell /\ o_price o = p)
  end.
Proof.
  intros [Hwf Hinv]. unfold snapshot. pose proof (engine_of_index x sym Hwf) as Hix.
  destruct (engine_of sym x) as [e|] eqn:He.
  2: { destruct (index x !! sym); [|done]. destruct (proj2 Hix) as [? ?]; [eauto|done]. }
  unfold engine_of in He. destruct (index x !! sym) as [k|] eqn:Hk; [|done]. simpl in He.
  apply fmap_Some in He as (instr & Hi & ->). rewrite Hi. eexists. split; [done|]. simpl.
  destruct (Hinv sym (i_engine instr)) as ((K & Hew & _) & _).
  { unfold engine_of. by rewrite Hk; simpl; rewrite Hi. }
  pose proof (mstate_book_wf _ [] empty_result (ewf_levels _ _ Hew) (ewf_market _ _ Hew)) as Hb.
  assert (forall s p, p ∈ (depth s (book (i_engine instr))).*1 <->
    exists i o, id_map (book (i_engine instr)) !! i = Some o /\ o_side o = s /\ o_price o = p) as Hin.
  { intros s p. rewrite <- (level_iff_order _ Hb s p), depth_prices, list_elem_of_fmap. unfold is_Some.
    split; [intros ([q l] & -> & Hl)|intros [l Hl]; exists (p, l)]; unfold iterate in *;
      rewrite map_sorted_elem in *; eauto. }
  assert (forall s, head (depth s (book (i_engine instr))).*1 = fst <$> best_level s (book (i_engine instr)))
    as Hhd.
  { intros s. rewrite depth_prices. unfold best_level, map_begin, iterate.
    by destruct (map_sorted _ _). }
  split_ands; [| |apply (Hhd Buy)|apply (Hhd Sell)|apply (Hin Buy)|apply (Hin Sell)].
  - eapply sorted_impl, (depth_sorted Buy). simpl. lia.
  - eapply sorted_impl, (depth_sorted Sell). simpl. lia.
Qed.

(** ** Witnesses *)

Definition demo_message (sym : string) (i : Z) (s : Side) (p q : Z) : OrderMessage :=
  mkMessage i 7 sym s Limit q p 0 0 5 NewOrder.

Lemma process_isolated_witness :
  match process 10 0 0 (demo_message "STOCK_3" 1 Buy 100 5) new_exchange with
  | Ok (x', evs) => length evs = 2%nat /\ engine_of "STOCK_4" x' = engine_of "STOCK_4" new_exchange
  | _ => False
  end.
Proof.
  pose proof (process_isolated 10 0 0 (demo_message "STOCK_3" 1 Buy 100 5) new_exchange new_exchange_wf)
    as Hp.
  assert (match process 10 0 0 (demo_message "STOCK_3" 1 Buy 100 5) new_exchange with
    Ok (_, evs) => length evs = 2%nat | _ => False end) as Hok by (vm_compute; reflexivity).
  destruct (process _ _ _ _ _) as [[x' evs]| |]; [|done..].
  destruct Hp as (_ & _ & Hiso & _). split; [done|]. by apply Hiso.
Defined.

Definition demo_messages : list (Z * Z * OrderMessage) :=
  [(0, 1, demo_message "STOCK_3" 1 Sell 100 5); (2, 3, demo_message "STOCK_3" 2 Buy 100 3);
   (4, 5, demo_message "STOCK_9" 1 Buy 90 3)].

Lemma exchange_is_product_witness :
  exists x' evss e', process_all 50 demo_messages new_exchange = Ok (x', evss) /\
    instrument_session 50 (for_symbol "STOCK_3" demo_messages) new_engine =
      Ok (e', answers_for "STOCK_3" demo_messages evss) /\ engine_of "STOCK_3" x' = Some e'.
Proof.
  pose proof (exchange_is_product 50 demo_messages new_exchange new_exchange_wf) as Hprod.
  assert (match process_all 50 demo_messages new_exchange with Ok _ => true | _ => false end = true) as Hok
    by (vm_compute; reflexivity).
  destruct (process_all 50 demo_messages new_exchange) as [[x' evss]| |] eqn:Hrun; [|done..]. clear Hok.
  destruct Hprod as (_ & _ & Hall). specialize (Hall "STOCK_3"%string).
  assert (engine_of "STOCK_3" new_exchange = Some new_engine) as He by (vm_compute; reflexivity).
  rewrite He in Hall. destruct Hall as (e' & Hses & He'). exists x', evss, e'. split; [done|]. split; [exact Hses|exact He'].
Defined.

(** An order that trades with a resting one: the buyer is the resting order. *)
Definition buyer_message : OrderMessage := demo_message "STOCK_3" 1 Buy 100 5.
Definition seller_message : OrderMessage := demo_message "STOCK_3" 2 Sell 100 3.
Definition booked_engine : MatchingEngine :=
  match submit 50 new_engine (message_event 0 buyer_message) with Ok (e, _) => e | _ => new_engine end.

Lemma booked_engine_inv : engine_inv (message_used ∅ buyer_message) booked_engine.
Proof.
  destruct (engine_inv_submit ∅ new_engine 0 buyer_message engine_inv_new) as (e & r0 & He & Hinv).
  { intros _. simpl. unfold moderate. split_ands; try lia; try set_solver; by vm_compute. }
  apply (submit_mono _ 50) in He; [|apply Nat.leb_le; by vm_compute]. unfold booked_engine. by rewrite He.
Qed.

Lemma translate_result_events_witness :
  exists e' r evs, submit 50 booked_engine (message_event 0 seller_message) = Ok (e', r) /\
    translate_result 7 seller_message r (book e') = Ok evs /\
    omap as_trade evs = [mkExecuted 7 "STOCK_3" 1 2 100 3] /\ omap as_canceled evs = [] /\ length (omap as_accepted evs) = 1%nat.
Proof.
  destruct (translate_result_events (message_used ∅ buyer_message) booked_engine 0 7 seller_message 50 booked_engine_inv)
    as (e' & r & evs & Hsub & Htr & Hrej & Hcan & Htold & Hacc & _).
  - intros _. simpl. unfold moderate. split_ands; try lia; by vm_compute.
  - apply Nat.leb_le. by vm_compute.
  - exists e', r, evs. split; [exact Hsub|]. split; [exact Htr|]. rewrite Hcan, Hacc.
    vm_compute in Hsub. injection Hsub as <- <-. split; [|split; reflexivity].
    vm_compute in Htr. injection Htr as <-. reflexivity.
Defined.

Lemma exchange_session_safe_witness :
  exists n, forall fuel, (n <= fuel)%nat -> exists x' evss,
    process_all fuel demo_messages new_exchange = Ok (x', evss) /\ length evss = 3%nat /\
    exists used', exchange_inv used' x'.
Proof.
  apply (exchange_session_safe demo_messages). simpl. unfold message_ok, use, message_used. simpl.
  split_ands; try done; intros _; unfold moderate; split_ands; try lia; try set_solver; by vm_compute.
Defined.

Lemma trade_events_sides_witness :
  exists e' r, submit 10 new_engine (message_event 0 (demo_message "STOCK_3" 1 Buy 100 5)) = Ok (e', r).
Proof.
  destruct (trade_events_sides ∅ new_engine 0 1 (demo_message "STOCK_3" 1 Buy 100 5) 10 engine_inv_new)
    as (e' & r & Heq & _).
  - intros _. simpl. unfold moderate. split_ands; try lia; try set_solver; by vm_compute.
  - done.
  - apply Nat.leb_le. by vm_compute.
  - by exists e', r.
Defined.

(** Two bids and an ask at one instrument. *)
Definition resting_messages : list (Z * Z * OrderMessage) :=
  [(0, 1, demo_message "STOCK_3" 1 Buy 98 5); (2, 3, demo_message "STOCK_3" 2 Buy 99 3);
   (4, 5, demo_message "STOCK_3" 3 Sell 101 4)].
Definition resting_exchange : ExchangeManager :=
  match process_all 50 resting_messages new_exchange with Ok (x, _) => x | _ => new_exchange end.

Lemma resting_exchange_inv : exists used, exchange_inv used resting_exchange.
Proof.
  destruct (exchange_run resting_messages (fun _ => ∅) new_exchange exchange_inv_new) as (n & Hn).
  { simpl. unfold message_ok, use, message_used. simpl.
    split_ands; try done; intros _; unfold moderate; split_ands; try lia; try set_solver; by vm_compute. }
  destruct (Hn (Nat.max n 50) ltac:(lia)) as (x & evss & Hx & _ & used & Hinv).
  assert (match process_all 50 resting_messages new_exchange with Ok _ => true | _ => false end = true) as Hok
    by (vm_compute; reflexivity).
  exists used. unfold resting_exchange. destruct (process_all 50 resting_messages new_exchange) as [[x' evss']| |] eqn:Hrun; [|done..].
  apply (process_all_mono 50 (Nat.max n 50)) in Hrun; [|lia]. rewrite Hx in Hrun. by injection Hrun as <- <-.
Qed.

Definition snap_bids_of (r : Prelude.res SnapshotEvent) : list (Z * Z) := match r with Ok s => snp_bids s | _ => [] end.
Definition snap_asks_of (r : Prelude.res SnapshotEvent) : list (Z * Z) := match r with Ok s => snp_asks s | _ => [] end.

Lemma snapshot_correct_witness :
  snapshot 0 "NONE" resting_exchange = Crash AssertFailed /\
  exists snp, snapshot 9 "STOCK_3" resting_exchange = Ok snp /\
    snp_bids snp = [(99, 3); (98, 5)] /\ snp_asks snp = [(101, 4)] /\
    StronglySorted (fun p q => q < p) (snp_bids snp).*1 /\
    forall p, p ∈ (snp_bids snp).*1 <->
      exists e i o, engine_of "STOCK_3" resting_exchange = Some e /\
        id_map (book e) !! i = Some o /\ o_side o = Buy /\ o_price o = p.
Proof.
  destruct resting_exchange_inv as [used Hinv]. split.
  - pose proof (snapshot_correct used resting_exchange 0 "NONE" Hinv) as Hs.
    by destruct (engine_of "NONE" resting_exchange) eqn:He; [vm_compute in He|].
  - pose proof (snapshot_correct used resting_exchange 9 "STOCK_3" Hinv) as Hs.
    assert (is_Some (engine_of "STOCK_3" resting_exchange)) as [e He] by (vm_compute; by eexists).
    rewrite He in Hs |- *. destruct Hs as (snp & Hsnp & Hbids & _ & _ & _ & Hin & _). exists snp.
    split; [exact Hsnp|]. split; [|split; [|split; [exact Hbids|]]].
    + assert (snap_bids_of (snapshot 9 "STOCK_3" resting_exchange) = [(99, 3); (98, 5)]) as Hc by (vm_compute; reflexivity).
      by rewrite Hsnp in Hc.
    + assert (snap_asks_of (snapshot 9 "STOCK_3" resting_exchange) = [(101, 4)]) as Hc by (vm_compute; reflexivity).
      by rewrite Hsnp in Hc.
    + intros p. rewrite (Hin p). clear. split.
      * intros (i & o & Ho). exists e, i, o. split; [reflexivity|exact Ho].
      * intros (e' & i & o & He & Ho). injection He as ->. exists i, o. exact Ho.
Defined.
