(* ===== verification/Volumes.v ===== *)
(** * Volumes: the published depth

    The volume that a price level publishes ([PriceLevel::total_volume], the
    depth of the snapshots) against the quantity that rests at its price. The
    level keeps a running total; a complete fill does not reduce it
    ([Findings]), so it may be too high. Without icebergs it is never too low,
    whatever stops are triggered on the way. *)

From S2P Require Import Prelude Types PriceLevel OrderBook BookProps Engine Market EngineRefine EngineEvents.
From S2P Require Import Session SessionModify Trading Exchange.

(** ** Published and resting quantities *)

Definition published (s : Side) (p : Price) (b : OrderBook) : Z :=
  default 0 (pl_total_volume <$> levels s b !! p).
Definition total_published (b : OrderBook) : Z := msum pl_total_volume (bids b) + msum pl_total_volume (asks b).

Definition quantity_at (s : Side) (p : Price) (o : Order) : Z :=
  if decide (o_side o = s /\ o_price o = p) then o_quantity o else 0.
(** The quantity of the orders that rest on side [s] at price [p]. *)
Definition resting_at (s : Side) (p : Price) (b : OrderBook) : Z := msum (quantity_at s p) (id_map b).

Lemma published_put_level s p l b s' p' :
  published s' p' (put_level s p l b) = if decide (s = s' /\ p = p') then pl_total_volume l else published s' p' b.
Proof.
  unfold published. rewrite levels_put_level. destruct (decide (s = s')) as [<-|Hs].
  - destruct (decide (p = p')) as [<-|Hp].
    + by rewrite lookup_insert_eq, decide_True.
    + rewrite lookup_insert_ne, decide_False by naive_solver. done.
  - rewrite decide_False by naive_solver. done.
Qed.

Lemma published_delete s p b s' p' :
  published s' p' (set_levels s (delete p (levels s b)) b) =
  if decide (s = s' /\ p = p') then 0 else published s' p' b.
Proof.
  unfold published. rewrite levels_set_levels. destruct (decide (s = s')) as [<-|Hs].
  - destruct (decide (p = p')) as [<-|Hp].
    + by rewrite lookup_delete_eq, decide_True.
    + rewrite lookup_delete_ne, decide_False by naive_solver. done.
  - rewrite decide_False by naive_solver. done.
Qed.

Lemma msum_level_insert (m : gmap Price PriceLevel) p l :
  msum pl_total_volume (<[p:=l]> m) =
  msum pl_total_volume m - default 0 (pl_total_volume <$> m !! p) + pl_total_volume l.
Proof.
  destruct (m !! p) as [l0|] eqn:Hl; simpl.
  - by rewrite (msum_update _ _ _ _ _ Hl).
  - rewrite msum_insert by done. lia.
Qed.

Lemma msum_level_delete (m : gmap Price PriceLevel) p :
  msum pl_total_volume (delete p m) = msum pl_total_volume m - default 0 (pl_total_volume <$> m !! p).
Proof.
  destruct (m !! p) as [l0|] eqn:Hl; simpl.
  - by rewrite (msum_delete _ _ _ _ Hl).
  - rewrite delete_id by done. lia.
Qed.

Lemma total_put_level s p l b :
  total_published (put_level s p l b) = total_published b - published s p b + pl_total_volume l.
Proof. unfold total_published, published, put_level. destruct s; simpl; rewrite msum_level_insert; lia. Qed.

Lemma total_delete s p b :
  total_published (set_levels s (delete p (levels s b)) b) = total_published b - published s p b.
Proof. unfold total_published, published. destruct s; simpl; rewrite msum_level_delete; lia. Qed.

Lemma published_orders s p m b : published s p (set_id_map m b) = published s p b.
Proof. unfold published. by rewrite levels_set_id_map. Qed.
Lemma published_ltp s p q b : published s p (set_last_trade_price q b) = published s p b.
Proof. by destruct s. Qed.

(** Replacing the level of a price: nothing else changes. *)
Definition revolumed (s : Side) (p : Price) (v : Z) (b b' : OrderBook) : Prop :=
  (forall s' p', published s' p' b' = if decide (s = s' /\ p = p') then v else published s' p' b) /\
  total_published b' = total_published b - published s p b + v.

Lemma revolumed_put_level s p l b : revolumed s p (pl_total_volume l) b (put_level s p l b).
Proof. split; [intros; apply published_put_level|apply total_put_level]. Qed.
Lemma revolumed_delete s p b : revolumed s p 0 b (set_levels s (delete p (levels s b)) b).
Proof. split; [intros; apply published_delete|rewrite total_delete; lia]. Qed.
Lemma revolumed_same s p b : revolumed s p (published s p b) b b.
Proof. split; [|lia]. intros s' p'. case_decide as Hd; [by destruct Hd as [<- <-]|done]. Qed.

Lemma revolumed_trans s p v v' b b1 b' : revolumed s p v b b1 -> revolumed s p v' b1 b' -> revolumed s p v' b b'.
Proof.
  intros [H1 H2] [H3 H4]. split.
  - intros s' p'. rewrite H3. case_decide as Hd; [done|]. rewrite H1. by rewrite decide_False.
  - rewrite H4, H2. specialize (H1 s p). rewrite decide_True in H1 by done. lia.
Qed.

(** Only the levels matter. *)
Lemma revolumed_levels s p v b b1 b' :
  (forall s, levels s b' = levels s b1) -> revolumed s p v b b1 -> revolumed s p v b b'.
Proof.
  intros Hl [H1 H2]. split.
  - intros s' p'. rewrite <- H1. unfold published. by rewrite Hl.
  - rewrite <- H2. unfold total_published. pose proof (Hl Buy) as Hb. pose proof (Hl Sell) as Ha. simpl in *. by rewrite Hb, Ha.
Qed.
Lemma revolumed_from s p v b b0 b' :
  (forall s, levels s b0 = levels s b) -> revolumed s p v b0 b' -> revolumed s p v b b'.
Proof. intros Hl H. eapply revolumed_trans; [|done]. eapply revolumed_levels; [done|apply revolumed_same]. Qed.

(** ** The operations of the book *)

Lemma insert_order_volumes o b :
  revolumed (o_side o) (o_price o) (u64 (published (o_side o) (o_price o) b + visible_qty o)) b (insert_order o b).
Proof.
  unfold insert_order, put_order. rewrite levels_set_id_map.
  eapply revolumed_from; [by intros s; apply levels_set_id_map|].
  assert (published (o_side o) (o_price o) b =
    pl_total_volume (default (new_level (o_price o)) (levels (o_side o) b !! o_price o))) as ->.
  { unfold published. by destruct (levels _ _ !! _). }
  apply (revolumed_put_level _ _ (push_back _ _ _)).
Qed.

Lemma reduce_volumes s p d b :
  0 <= d -> revolumed s p (saturating_sub (published s p b) d) b (reduce_level_volume s p d b).
Proof.
  intros Hd. unfold reduce_level_volume, get_level, published.
  destruct (levels s b !! p) as [l|] eqn:Hl; simpl; [apply (revolumed_put_level _ _ (reduce_front_volume _ _))|].
  assert (saturating_sub 0 d = published s p b) as ->; [|apply revolumed_same].
  unfold published, saturating_sub. rewrite Hl. simpl. case_decide; lia.
Qed.

(** A cancel subtracts the visible quantity, or erases the level. *)
Lemma cancel_order_volumes i o b :
  id_map b !! i = Some o ->
  let b' := (cancel_order i b).2 in
  exists v, revolumed (o_side o) (o_price o) v b b' /\
    (v = saturating_sub (published (o_side o) (o_price o) b) (visible_qty o) \/
     (v = 0 /\ levels (o_side o) b' !! o_price o = None)).
Proof.
  intros Ho b'. unfold b', cancel_order. rewrite Ho. cbn [snd].
  destruct (levels (o_side o) b !! o_price o) as [l|] eqn:Hl.
  - rewrite empty_live. cbn [fst snd]. case_bool_decide as He.
    + exists 0. split; [|right; split; [done|]].
      * eapply revolumed_levels; [by intros s; apply levels_set_id_map|].
        eapply revolumed_trans; [apply revolumed_put_level|]. apply revolumed_delete.
      * rewrite levels_set_id_map, levels_set_levels, decide_True by done. apply lookup_delete_eq.
    + eexists. split; [|left; reflexivity].
      eapply revolumed_levels; [by intros s; apply levels_set_id_map|].
      assert (saturating_sub (published (o_side o) (o_price o) b) (visible_qty o) =
        pl_total_volume (drain_cancelled (remove i (visible_qty o) l))) as ->; [|apply revolumed_put_level].
      rewrite drain_volume. unfold published. by rewrite Hl.
  - exists (published (o_side o) (o_price o) b). split.
    + eapply revolumed_levels; [by intros s; apply levels_set_id_map|]. apply revolumed_same.
    + right. unfold published. rewrite Hl. split; [done|]. by rewrite levels_set_id_map.
Qed.

(** ** The invariant *)

(** The quantity of the pending stops and of the orders being processed. *)
Definition todo (pend : list Order) (st : list entry) : Z :=
  zsum o_quantity pend + zsum (fun x => o_quantity (entry_order x)) st.

(** An order without a peak, of another type than [Iceberg]. *)
Definition plain (o : Order) : Prop := is_iceberg o = false /\ o_type o <> Iceberg.

(** [B] is the quantity that was offered so far. *)
Record depth_inv (B : Z) (b : OrderBook) (pend : list Order) (st : list entry) : Prop := {
  di_orders : forall i o, id_map b !! i = Some o -> plain o;
  di_pending : Forall plain pend;
  di_stack : Forall (fun x => plain (entry_order x)) st;
  di_levels : forall s p, 0 <= resting_at s p b <= published s p b;
  di_total : total_published b + todo pend st <= B;
}.

Lemma plain_visible o : plain o -> visible_qty o = o_quantity o.
Proof. unfold visible_qty. by intros [-> _]. Qed.

Lemma plain_mark_filled o : plain o -> plain (mark_filled o).
Proof. unfold plain, mark_filled. by case_decide. Qed.

Lemma plain_prepare o : plain o -> prepare o = set_status Resting o.
Proof. intros [_ Ht]. unfold prepare. by rewrite decide_False. Qed.

Lemma plain_convert o : plain o -> plain (prepare (convert o)).
Proof.
  intros [Hi _]. split; [|apply prepare_convert_type]. unfold prepare.
  rewrite decide_False by (simpl; destruct (convert_type o) as [->| ->]; done). unfold convert. by case_decide.
Qed.

Lemma quantity_at_here o : quantity_at (o_side o) (o_price o) o = o_quantity o.
Proof. unfold quantity_at. by rewrite decide_True. Qed.

Lemma quantity_at_nonneg s p o : 0 <= o_quantity o -> 0 <= quantity_at s p o.
Proof. unfold quantity_at. by case_decide. Qed.

(** A price without a level has no order. *)
Lemma resting_no_level K b s p : book_wf K b -> levels s b !! p = None -> resting_at s p b = 0.
Proof.
  intros Hwf Hl. unfold resting_at, msum.
  rewrite (zsum_ext _ (fun _ => 0)); [by induction (map_to_list (id_map b))|].
  intros [i o] Hin%elem_of_map_to_list. unfold quantity_at. simpl. case_decide as Hd; [|done].
  destruct (proj2 (level_iff_order b Hwf s p)) as [l Hl']; [by exists i, o|congruence].
Qed.

(** The orders of a book with nonnegative quantities at a price. *)
Lemma resting_nonneg b s p : (forall i o, id_map b !! i = Some o -> 0 <= o_quantity o) -> 0 <= resting_at s p b.
Proof. intros Hb. apply msum_nonneg. intros i o Ho. by eapply quantity_at_nonneg, Hb. Qed.

(** One order leaves or shrinks and the level is reduced by at most as much. *)
Lemma depth_shrink s p v q b b' :
  (forall s p, 0 <= resting_at s p b <= published s p b) -> revolumed s p v b b' ->
  (forall s' p', resting_at s' p' b' = resting_at s' p' b - if decide (s = s' /\ p = p') then q else 0) ->
  (forall s p, 0 <= resting_at s p b') -> resting_at s p b' <= v ->
  forall s p, 0 <= resting_at s p b' <= published s p b'.
Proof.
  intros Hb [Hpub _] Hrest Hnn Hv s' p'. split; [done|]. rewrite Hpub. case_decide as Hd.
  - by destruct Hd as [<- <-].
  - rewrite Hrest, decide_False by done. destruct (Hb s' p'). lia.
Qed.

Lemma quantity_le_resting i o b :
  id_map b !! i = Some o -> (forall i o, id_map b !! i = Some o -> 0 <= o_quantity o) ->
  o_quantity o <= resting_at (o_side o) (o_price o) b.
Proof.
  intros Ho Hb. unfold resting_at. rewrite <- (quantity_at_here o) at 1.
  pose proof (msum_delete (quantity_at (o_side o) (o_price o)) _ _ _ Ho).
  enough (0 <= msum (quantity_at (o_side o) (o_price o)) (delete i (id_map b))) by lia.
  apply msum_nonneg. intros j x [_ Hx]%lookup_delete_Some. by eapply quantity_at_nonneg, Hb.
Qed.

Lemma saturating_sub_le v q : q <= v -> saturating_sub v q = v - q.
Proof. intros Hq. unfold saturating_sub. by rewrite decide_True. Qed.

Lemma levels_update_quantity s i q b : levels s (update_order_quantity i q b) = levels s b.
Proof. unfold update_order_quantity. destruct (id_map b !! i); [apply levels_set_id_map|done]. Qed.

Section depth.
Context (K : gset OrderId) (B : Z) (B_u64 : B < 2 ^ 64).

(** The volume of the level of a filled order. *)
Lemma apply_fill_volumes a i o level fill t a' b b' :
  plain o -> o_id o = i -> 0 <= fill <= o_quantity o -> is_u64 (o_quantity o) ->
  levels (o_side o) b !! o_price o = Some level -> o_quantity o <= published (o_side o) (o_price o) b ->
  apply_fill a i o fill (put_level (o_side o) (o_price o) (drain_cancelled level) b) = Ok (b', a', t) ->
  exists v, revolumed (o_side o) (o_price o) v b b' /\
    (v = published (o_side o) (o_price o) b - (if decide (o_quantity o = fill) then 0 else fill) \/
     (v = 0 /\ levels (o_side o) b' !! o_price o = None)).
Proof using.
  intros Hpl Hid Hf Hq Hl Hpub. set (b1 := put_level _ _ _ b).
  assert (revolumed (o_side o) (o_price o) (published (o_side o) (o_price o) b) b b1) as Hb1.
  { assert (published (o_side o) (o_price o) b = pl_total_volume (drain_cancelled level)) as ->;
      [|apply revolumed_put_level]. rewrite drain_volume. unfold published. by rewrite Hl. }
  unfold apply_fill. rewrite (u64_small (o_quantity o - fill)) by u64_lia.
  set (o' := set_quantity _ o). assert (plain o') as Hpl' by exact Hpl. rewrite (proj1 Hpl'). simpl o_quantity.
  set (b2 := set_last_trade_price _ _).
  assert (revolumed (o_side o) (o_price o) (published (o_side o) (o_price o) b) b b2) as Hb2.
  { eapply revolumed_levels; [|apply Hb1]. intros s. unfold b2. by rewrite levels_set_ltp, levels_put_order. }
  assert (published (o_side o) (o_price o) b2 = published (o_side o) (o_price o) b) as Hpub2.
  { destruct Hb2 as [-> _]. by rewrite decide_True. }
  case_decide as Hz; intros (b3 & Hb3 & [= <- <- <-])%bind_ok_inv; injection Hb3 as <-.
  - rewrite decide_True by lia. set (b3 := put_order i _ b2).
    destruct (cancel_order_volumes i (set_status Filled o') b3) as (v & Hv & Hcase); [apply lookup_insert_eq|].
    change (o_id o') with (o_id o). rewrite Hid. exists v. split.
    + eapply revolumed_trans; [apply Hb2|]. eapply revolumed_from; [|apply Hv]. intros s. apply levels_put_order.
    + destruct Hcase as [-> |?]; [left|by right]. rewrite plain_visible by done. simpl.
      unfold b3. unfold published at 1. rewrite levels_put_order. fold (published (o_side o) (o_price o) b2).
      rewrite Hpub2, saturating_sub_le by lia. lia.
  - rewrite decide_False by lia. exists (published (o_side o) (o_price o) b - fill). split; [|by left].
    eapply revolumed_levels; [by intros s; apply levels_update_quantity|].
    rewrite <- (saturating_sub_le _ fill), <- Hpub2 by lia.
    eapply revolumed_trans; [apply Hb2|]. apply reduce_volumes. lia.
Qed.

Lemma depth_published b pend st : depth_inv B b pend st -> forall s p, 0 <= published s p b.
Proof using. intros [_ _ _ Hl _] s p. destruct (Hl s p). lia. Qed.

(** One level never publishes more than all together. *)
Lemma published_le_total b s p : (forall s p, 0 <= published s p b) -> published s p b <= total_published b.
Proof using.
  intros Hnn. assert (forall s, 0 <= msum pl_total_volume (levels s b)) as Hsum.
  { intros s'. apply msum_nonneg. intros q l Hl. specialize (Hnn s' q). unfold published in Hnn. by rewrite Hl in Hnn. }
  assert (published s p b <= msum pl_total_volume (levels s b)).
  { unfold published. destruct (levels s b !! p) as [l|] eqn:Hl; simpl; [|apply Hsum].
    pose proof (msum_delete pl_total_volume _ _ _ Hl).
    enough (0 <= msum pl_total_volume (delete p (levels s b))) by lia.
    apply msum_nonneg. intros q l' [_ Hl']%lookup_delete_Some. specialize (Hnn s q). unfold published in Hnn.
    by rewrite Hl' in Hnn. }
  pose proof (Hsum Buy). pose proof (Hsum Sell). unfold total_published. destruct s; simpl in *; lia.
Qed.

(** The orders after a fill, in the concrete book. *)
Lemma resting_after_fill o rest fill b b' s p :
  plain o -> id_map b !! o_id o = Some o -> abs_book b' = s_fill o rest fill (abs_book b) -> fill <= o_quantity o ->
  resting_at s p b' = resting_at s p b - (if decide (o_side o = s /\ o_price o = p) then fill else 0) /\
  (forall i x, id_map b' !! i = Some x -> plain x \/ id_map b !! i = Some x).
Proof using.
  intros Hpl Ho Habs Hf. unfold resting_at. change (id_map b') with (s_orders (abs_book b')). rewrite Habs.
  unfold s_fill, s_remove. rewrite (proj1 Hpl). simpl o_quantity.
  destruct (decide (o_quantity o - fill = 0)) as [Hz|Hz]; simpl; rewrite ?s_orders_set_queue; simpl; split.
  - rewrite (msum_delete _ _ _ _ Ho). unfold quantity_at at 2. case_decide; lia.
  - intros i x [_ Hx]%lookup_delete_Some. by right.
  - rewrite (msum_update _ _ _ _ _ Ho). unfold quantity_at at 2 3. simpl. case_decide; lia.
  - intros i x [[_ <-]|[_ Hx]]%lookup_insert_Some; [by left|by right].
Qed.

Lemma depth_fill e a st r key level i rest o b' t :
  let fill := Z.min (o_quantity a) (o_quantity o) in
  levels_ok K (book e) -> market_wf (mstate e (Active a :: st) r) ->
  best_level (opposite (o_side a)) (book e) = Some (key, level) ->
  s_best (opposite (o_side a)) (abs_book (book e)) = Some (key, i :: rest) -> id_map (book e) !! i = Some o ->
  0 < o_quantity a ->
  apply_fill a i o fill (put_level (passive_side a) key (drain_cancelled level) (book e)) =
    Ok (b', set_quantity (o_quantity a - fill) a, t) ->
  levels_ok K b' -> abs_book b' = s_fill o rest fill (abs_book (book e)) ->
  depth_inv B (book e) (pending_stops e) (Active a :: st) ->
  depth_inv B b' (asleep key (pending_stops e))
    (wake key (pending_stops e) (Active (set_quantity (o_quantity a - fill) a) :: st)).
Proof using.
  intros fill Hok Hm Hbest Hs Ho Hqa Hfill Hok' Habs Hdi. pose proof (depth_published _ _ _ Hdi) as Hnn.
  destruct Hdi as [Hord Hpend Hst Hlev Htot].
  destruct (best_front _ _ _ _ _ _ (mwf_book _ Hm) Hs Ho) as (<- & Hside & Hprice & _).
  pose proof (market_wf_fill _ _ _ _ _ _ r _ _ _ _ _ Hm Hqa Hs Ho eq_refl) as Hm'. fold fill in Hm'.
  rewrite <- Habs in Hm'. pose proof (mwf_orders _ Hm') as Hq'. pose proof (mwf_orders _ Hm _ _ Ho) as (Hqo & _).
  assert (forall i x, id_map (book e) !! i = Some x -> 0 <= o_quantity x) as Hnonneg.
  { intros j x Hx. by destruct (mwf_orders _ Hm _ _ Hx) as ([? _] & _). }
  assert (0 <= fill <= o_quantity o /\ fill <= o_quantity a) as [Hf Hfa] by (unfold fill, is_u64 in *; lia).
  apply best_level_Some in Hbest as [Hl _]. rewrite passive_side_opposite in Hfill.
  pose proof (quantity_le_resting _ _ _ Ho Hnonneg) as Hle. pose proof (Hlev (o_side o) (o_price o)) as Hpub.
  rewrite <- Hside, <- Hprice in Hfill, Hl.
  destruct (apply_fill_volumes a (o_id o) o level fill t _ (book e) b' (Hord _ _ Ho) eq_refl Hf Hqo Hl ltac:(lia) Hfill)
    as (v & Hv & Hcase).
  assert (forall s p, 0 <= resting_at s p b') as Hnn'.
  { intros s p. apply resting_nonneg. intros j x Hx. by destruct (Hq' j x Hx) as ([? _] & _). }
  assert (forall s p, resting_at s p b' = resting_at s p (book e) -
    (if decide (o_side o = s /\ o_price o = p) then fill else 0)) as Hrest.
  { intros s p. apply (resting_after_fill o rest fill (book e) b'); [by eapply Hord|done|done|lia]. }
  assert (v <= published (o_side o) (o_price o) (book e) /\ resting_at (o_side o) (o_price o) b' <= v) as [Hvle Hvge].
  { pose proof (Hrest (o_side o) (o_price o)) as Hr. rewrite decide_True in Hr by done.
    destruct Hcase as [->|[-> Hnone]]; [case_decide; lia|].
    rewrite (resting_no_level K b'); [specialize (Hnn (o_side o) (o_price o)); lia|split; [done|apply Hm']|done]. }
  destruct (Forall_wake (fun x => plain (entry_order x)) plain key (pending_stops e)
    (Active (set_quantity (o_quantity a - fill) a) :: st) Hpend) as [Hp' Hs'].
  { apply Forall_cons in Hst as [Ha Hst]. constructor; [exact Ha|done]. }
  { done. }
  split; [|done|done| |].
  - intros j x Hx. destruct (resting_after_fill o rest fill (book e) b' Buy 0 (Hord _ _ Ho) Ho Habs (proj2 Hf)) as [_ Hx'].
    destruct (Hx' j x Hx) as [?|?]; [done|by eapply Hord].
  - exact (depth_shrink _ _ _ _ _ _ Hlev Hv Hrest Hnn' Hvge).
  - destruct Hv as [_ ->]. unfold todo in *. rewrite zsum_wake. simpl in *. lia.
Qed.

(** An order enters the book. *)
Lemma insert_depth o b :
  plain o -> 0 <= o_quantity o -> id_map b !! o_id o = None ->
  (forall s p, 0 <= resting_at s p b <= published s p b) -> total_published b + o_quantity o <= B ->
  (forall s p, 0 <= resting_at s p (insert_order o b) <= published s p (insert_order o b)) /\
  total_published (insert_order o b) = total_published b + o_quantity o.
Proof using B_u64.
  intros Hpl Hq Ho Hlev Htot. destruct (insert_order_volumes o b) as [Hpub Htotal].
  assert (forall s p, 0 <= published s p b) as Hnn by (intros s p; destruct (Hlev s p); lia).
  pose proof (published_le_total b (o_side o) (o_price o) Hnn) as Hle.
  pose proof (Hnn (o_side o) (o_price o)).
  assert (u64 (published (o_side o) (o_price o) b + visible_qty o) = published (o_side o) (o_price o) b + o_quantity o)
    as Hv by (rewrite plain_visible by done; apply u64_small; u64_lia).
  rewrite Hv in Hpub, Htotal. split; [|lia].
  intros s p. rewrite Hpub. unfold resting_at. rewrite id_map_insert_order, msum_insert by done.
  fold (resting_at s p b). destruct (Hlev s p). unfold quantity_at. case_decide as Hd; [|lia].
  destruct Hd as [<- <-]. lia.
Qed.

Lemma market_todo_nonneg m : market_wf m -> 0 <= todo (mk_pending m) (mk_stack m).
Proof using.
  intros [_ _ _ _ Hp Hs]. unfold todo. rewrite Forall_forall in Hp. rewrite Forall_forall in Hs.
  assert (0 <= zsum o_quantity (mk_pending m)).
  { apply zsum_nonneg. intros o Hin. by destruct (Hp o Hin) as ([? _] & _). }
  assert (0 <= zsum (fun x => o_quantity (entry_order x)) (mk_stack m)); [|lia].
  apply zsum_nonneg. intros x Hin. by destruct (Hs x Hin) as ([? _] & _).
Qed.

Lemma depth_rest e a st r :
  levels_ok K (book e) -> market_wf (mstate e (Active a :: st) r) ->
  depth_inv B (book e) (pending_stops e) (Active a :: st) ->
  depth_inv B (insert_order (mark_filled a) (book e)) (pending_stops e) st.
Proof using B_u64.
  intros Hok Hm [Hord Hpend Hst Hlev Htot]. apply Forall_cons in Hst as [Ha Hst]. simpl in Ha.
  pose proof (market_todo_nonneg _ (market_wf_pop _ _ _ _ _ _ r Hm)) as Htodo. simpl in Htodo.
  pose proof (market_wf_active _ _ _ _ _ _ Hm) as ([Hq _] & _).
  assert (id_map (book e) !! o_id (mark_filled a) = None) as Hfr.
  { rewrite mark_filled_id. apply (mwf_fresh _ Hm). simpl. rewrite outside_ids_pop. set_solver. }
  assert (todo (pending_stops e) (Active a :: st) = o_quantity a + todo (pending_stops e) st) as Ht
    by (unfold todo; simpl; lia).
  destruct (insert_depth (mark_filled a) (book e)) as [Hlev' Htot']; rewrite ?mark_filled_quantity;
    [by apply plain_mark_filled|done|done|done|lia|].
  split; [|done|done|done|].
  - intros i x. rewrite id_map_insert_order. intros [[_ <-]|[_ Hx]]%lookup_insert_Some;
      [by apply plain_mark_filled|by eapply Hord].
  - rewrite Htot', mark_filled_quantity. lia.
Qed.

#[export] Instance depth_rule : BookRule (K := K) (depth_inv B).
Proof using B_u64.
  split.
  - intros e a st r key level i rest o b' t fill. by eapply depth_fill.
  - intros e a st r. by eapply depth_rest.
  - intros b pend a st ([Hq _] & _) [? ? Hst ? Htot]. apply Forall_cons in Hst as [_ Hst]. split; try done.
    unfold todo in *. simpl in *. lia.
  - intros b pend x st [? ? Hst ? Htot]. apply Forall_cons in Hst as [Hx Hst]. split; try done.
    + apply Forall_app. by split; [|constructor].
    + unfold todo in *. rewrite zsum_app. simpl in *. lia.
  - intros b pend x st [? ? Hst ? Htot]. apply Forall_cons in Hst as [Hx Hst]. split; try done.
    + constructor; [by apply plain_convert|done].
    + unfold todo in *. simpl in *. by rewrite prepare_convert_quantity.
Qed.
End depth.

(** ** Events *)

(** The quantity that an event offers. *)
Definition event_quantity (ev : OrderEvent) : Z :=
  match ev with
  | NewOrderEvent o | ReplaceOrderEvent _ o => o_quantity o
  | ModifyOrder m => m_new_quantity m
  | CancelOrderEvent _ _ => 0
  end.
Definition plain_event (ev : OrderEvent) : Prop :=
  match ev with NewOrderEvent o | ReplaceOrderEvent _ o => plain o | _ => True end.

Definition engine_depth (B : Z) (e : MatchingEngine) : Prop := depth_inv B (book e) (pending_stops e) [].

Lemma engine_depth_new : engine_depth 0 new_engine.
Proof.
  split; simpl; try done. intros s p. change (resting_at s p empty_book) with (msum (quantity_at s p) ∅). rewrite msum_empty. by destruct s.
Qed.

Lemma engine_depth_weaken B B' e : B <= B' -> engine_depth B e -> engine_depth B' e.
Proof. intros HB [? ? ? ? ?]. split; try done. lia. Qed.

Lemma engine_nonneg K e : engine_wf K e -> forall i o, id_map (book e) !! i = Some o -> 0 <= o_quantity o.
Proof. intros Hwf i o Ho. by destruct (mwf_orders _ (ewf_market _ _ Hwf) _ _ Ho) as ([? _] & _). Qed.

Lemma new_order_depth K B e o e' r :
  engine_wf K e -> fresh (o_id o) e -> qty_ranges o -> plain o -> engine_depth B e -> B + o_quantity o < 2 ^ 64 ->
  process_new_order (fuel_bound e (NewOrderEvent o)) e o = Ok (e', r) -> engine_depth (B + o_quantity o) e'.
Proof.
  intros Hwf Hfr Hr Hpl [Hord Hpend _ Hlev Htot] HB Heq. pose proof (depth_rule K _ HB) as Hrule.
  destruct (process_new_order_rule K (depth_inv (B + o_quantity o)) e o Hwf Hfr Hr) as (e1 & r1 & Heq1 & _ & HV & _).
  - rewrite plain_prepare by done. split; [done|done|by constructor|done|].
    unfold todo in *. simpl in *. lia.
  - rewrite Heq in Heq1. by injection Heq1 as -> ->.
Qed.

Lemma remove_depth K B e i o :
  engine_wf K e -> id_map (book e) !! i = Some o -> unmarked i (book e) -> engine_depth B e ->
  engine_depth (B - o_quantity o) (set_book (cancel_order i (book e)).2 e).
Proof.
  intros Hwf Ho Hum [Hord Hpend _ Hlev Htot].
  destruct (engine_wf_remove K e i o Hwf Ho Hum) as (Hwf' & Habs & _). set (e' := set_book _ e) in *.
  pose proof (wf_key _ (mwf_book _ (ewf_market _ _ Hwf)) _ _ Ho : o_id o = i) as Hid.
  assert (id_map (book e') = delete i (id_map (book e))) as Hdel.
  { change (id_map (book e')) with (s_orders (abs_book (book e'))). rewrite Habs. unfold s_remove.
    by rewrite s_orders_set_queue, Hid. }
  destruct (cancel_order_volumes i o (book e) Ho) as (v & Hv & Hcase). change (cancel_order i (book e)).2 with (book e') in Hv, Hcase.
  rewrite plain_visible in Hcase by by eapply Hord.
  pose proof (quantity_le_resting _ _ _ Ho (engine_nonneg K e Hwf)) as Hle. pose proof (Hlev (o_side o) (o_price o)) as Hpub.
  assert (forall s p, resting_at s p (book e') = resting_at s p (book e) -
    (if decide (o_side o = s /\ o_price o = p) then o_quantity o else 0)) as Hrest.
  { intros s p. unfold resting_at. rewrite Hdel, (msum_delete _ _ _ _ Ho). unfold quantity_at at 2. done. }
  assert (v <= published (o_side o) (o_price o) (book e) - o_quantity o /\ resting_at (o_side o) (o_price o) (book e') <= v)
    as [Hvle Hvge].
  { pose proof (Hrest (o_side o) (o_price o)) as Hr. rewrite decide_True in Hr by done.
    destruct Hcase as [->|[-> Hnone]]; [rewrite saturating_sub_le by lia; lia|].
    rewrite (resting_no_level _ _ _ _ (mstate_book_wf _ _ _ (ewf_levels _ _ Hwf') (ewf_market _ _ Hwf')) Hnone). lia. }
  split; [|done|done| |].
  - intros j x Hx. rewrite Hdel in Hx. apply lookup_delete_Some in Hx as [_ Hx]. by eapply Hord.
  - apply (depth_shrink _ _ _ _ _ _ Hlev Hv Hrest); [|done]. intros s p. by apply resting_nonneg, (engine_nonneg _ _ Hwf').
  - destruct Hv as [_ Hv]. change (pending_stops e') with (pending_stops e). lia.
Qed.

Lemma cancel_depth K B e id ts :
  engine_wf K e -> unmarked id (book e) -> engine_depth B e -> engine_depth B (process_cancel e id ts).1.
Proof.
  intros Hwf Hum Hd. unfold process_cancel. destruct (list_find _ _) as [[i stop]|] eqn:Hfind.
  - destruct Hd as [Hord Hpend Hst Hlev Htot]. split; try done; [by apply Forall_delete|].
    apply list_find_Some in Hfind as (Hi & _). pose proof (mwf_pending _ (ewf_market _ _ Hwf)) as Hq. simpl in Hq.
    rewrite Forall_lookup in Hq. destruct (Hq _ _ Hi) as ([Hs _] & _).
    unfold todo in *. simpl in *. rewrite (zsum_perm _ _ _ (delete_Permutation _ _ _ Hi)) in Htot. simpl in Htot. lia.
  - unfold find_order. destruct (id_map (book e) !! id) as [o|] eqn:Ho; [|done]. destruct (is_resting o); [|done].
    eapply engine_depth_weaken; [|by eapply remove_depth]. pose proof (engine_nonneg K e Hwf _ _ Ho). lia.
Qed.

Lemma modified_plain m o : plain o -> plain (modified m o).
Proof. unfold modified, plain. by repeat case_decide. Qed.

Lemma modified_quantity m o :
  o_quantity (modified m o) = if decide (m_new_quantity m <> 0) then m_new_quantity m else o_quantity o.
Proof. unfold modified. by repeat case_decide. Qed.

(** A smaller quantity in place. *)
Lemma reduce_depth K B e i o q :
  engine_wf K e -> id_map (book e) !! i = Some o -> 0 <= q < o_quantity o -> engine_depth B e ->
  engine_depth B (set_book (reduce_level_volume (o_side o) (o_price o) (u64 (o_quantity o - q))
    (update_order_quantity i q (book e))) e).
Proof.
  intros Hwf Ho Hq [Hord Hpend _ Hlev Htot].
  pose proof (mwf_orders _ (ewf_market _ _ Hwf) _ _ Ho) as (Hqo & _).
  assert (u64 (o_quantity o - q) = o_quantity o - q) as -> by (apply u64_small; u64_lia).
  destruct (engine_wf_reduce K e i o q (o_quantity o - q) Hwf Ho) as [Hwf' Habs]; [u64_lia|].
  set (e' := set_book _ e) in *.
  pose proof (quantity_le_resting _ _ _ Ho (engine_nonneg K e Hwf)) as Hle. pose proof (Hlev (o_side o) (o_price o)) as Hpub.
  assert (revolumed (o_side o) (o_price o) (published (o_side o) (o_price o) (book e) - (o_quantity o - q))
    (book e) (book e')) as Hv.
  { rewrite <- saturating_sub_le by lia.
    eapply revolumed_from; [by intros s; apply levels_update_quantity|].
    assert (published (o_side o) (o_price o) (book e) =
      published (o_side o) (o_price o) (update_order_quantity i q (book e))) as ->
      by (unfold published; by rewrite levels_update_quantity).
    apply reduce_volumes. lia. }
  assert (id_map (book e') = <[i := set_quantity q o]> (id_map (book e))) as Hid.
  { change (id_map (book e')) with (s_orders (abs_book (book e'))). by rewrite Habs. }
  assert (forall s p, resting_at s p (book e') = resting_at s p (book e) -
    (if decide (o_side o = s /\ o_price o = p) then o_quantity o - q else 0)) as Hrest.
  { intros s p. unfold resting_at. rewrite Hid, (msum_update _ _ _ _ _ Ho). unfold quantity_at at 2 3. simpl.
    case_decide; lia. }
  pose proof (Hrest (o_side o) (o_price o)) as Hr. rewrite decide_True in Hr by done.
  split; [|done|done| |].
  - intros j x. rewrite Hid. intros [[_ <-]|[_ Hx]]%lookup_insert_Some; [exact (Hord _ _ Ho)|by eapply Hord].
  - apply (depth_shrink _ _ _ _ _ _ Hlev Hv Hrest); [|lia].
    intros s p. by apply resting_nonneg, (engine_nonneg _ _ Hwf').
  - destruct Hv as [_ Hv]. change (pending_stops e') with (pending_stops e). lia.
Qed.

Lemma modify_depth K B e m :
  engine_wf K e -> unmarked (m_order_id m) (book e) -> is_u64 (m_new_quantity m) -> engine_depth B e ->
  B + m_new_quantity m < 2 ^ 64 -> engine_depth (B + m_new_quantity m) (process_modify e m).1.
Proof.
  intros Hwf Hum Hq Hd HB. assert (engine_depth (B + m_new_quantity m) e) as Hsame.
  { eapply engine_depth_weaken; [|done]. destruct Hq. lia. }
  unfold process_modify, find_order. destruct (id_map (book e) !! _) as [o|] eqn:Ho; [|done].
  destruct (is_resting o); [|done].
  pose proof (wf_key _ (mwf_book _ (ewf_market _ _ Hwf)) _ _ Ho : o_id o = m_order_id m) as Hid.
  pose proof (engine_nonneg K e Hwf _ _ Ho) as Hqo.
  match goal with |- context [if ?c then _ else _] => destruct c end.
  - fold (modified m o). destruct (engine_wf_remove K e _ o Hwf Ho Hum) as (Hwf1 & _ & [Hfr _] & _).
    destruct (remove_depth K B e _ o Hwf Ho Hum Hd) as [Hord Hpend _ Hlev Htot].
    set (e1 := set_book (cancel_order _ _).2 e) in *. change (pending_stops e1) with (pending_stops e) in *.
    destruct (insert_depth (B + m_new_quantity m) HB (modified m o) (book e1)) as [Hlev' Htot'].
    + apply modified_plain. destruct Hd as [Hord0 _ _ _ _]. by eapply Hord0.
    + rewrite modified_quantity. destruct Hq. case_decide; lia.
    + by rewrite modified_id, Hid.
    + done.
    + pose proof (market_todo_nonneg _ (ewf_market _ _ Hwf)) as Htodo. simpl in Htodo.
      rewrite modified_quantity. destruct Hq. case_decide; lia.
    + split; [|done|done|exact Hlev'|].
      * intros i x Hx. change (id_map (insert_order (modified m o) (book e1)) !! i = Some x) in Hx.
        rewrite id_map_insert_order in Hx. apply lookup_insert_Some in Hx as [[_ <-]|[_ Hx]]; [|by eapply Hord].
        apply modified_plain. destruct Hd as [Hord0 _ _ _ _]. by eapply Hord0.
      * change (total_published (insert_order (modified m o) (book e1)) + todo (pending_stops e) [] <= B + m_new_quantity m).
        rewrite Htot', modified_quantity. destruct Hq. case_decide; lia.
  - destruct (decide _) as [[_ Hlt]|]; [|done]. apply (reduce_depth K); [done|done|destruct Hq; lia|done].
Qed.

Lemma submit_depth K B e ev e' r :
  engine_wf K e -> admissible e ev -> plain_event ev -> engine_depth B e -> 0 <= B -> B + event_quantity ev < 2 ^ 64 ->
  submit (fuel_bound e ev) e ev = Ok (e', r) -> engine_depth (B + event_quantity ev) e'.
Proof.
  intros Hwf Hadm Hpl Hd HB HBev. unfold submit.
  set (e1 := mkEngine (book e) (u64 (sequence e + 1)) (pending_stops e)).
  assert (engine_wf K e1) as Hwf1 by by apply set_sequence_wf.
  change (engine_depth B e1) in Hd. change (admissible e1 ev) in Hadm. change (fuel_bound e ev) with (fuel_bound e1 ev).
  clearbody e1. clear Hwf e. destruct ev as [o|id ts|m|old o]; simpl in *.
  - destruct Hadm as [Hfr Hr]. by eapply new_order_depth.
  - intros [= Heq]. rewrite <- (f_equal fst Heq : _ = e'). rewrite Z.add_0_r. by eapply cancel_depth.
  - destruct Hadm as [Hum Hq]. intros [= Heq]. rewrite <- (f_equal fst Heq : _ = e'). by eapply modify_depth.
  - destruct (id_map (book e1) !! old) as [x|] eqn:Hx.
    + pose proof Hadm as (Hum & _).
      destruct (replace_setup _ _ _ _ _ Hwf1 Hadm Hx) as (Hwf2 & Hfr & Hr & _ & Hle & Heq). rewrite Heq.
      pose proof (remove_depth K B e1 old x Hwf1 Hx Hum Hd) as Hd2. pose proof (engine_nonneg K e1 Hwf1 _ _ Hx).
      set (e2 := set_book _ e1) in *. intros Hrun.
      destruct (process_new_order_total _ e2 o Hwf2 Hfr Hr) as (e3 & r3 & Heq3 & _).
      pose proof (process_new_order_mono _ _ Hle _ _ _ Heq3) as Hrun'. 
      change (process_new_order (fuel_bound e1 (ReplaceOrderEvent old o)) e2 o = Ok (e', r)) in Hrun. rewrite Hrun in Hrun'.
      injection Hrun' as <- <-.
      eapply engine_depth_weaken; [|eapply (new_order_depth _ (B - o_quantity x)); [done|done|done|done|done| |done]]; lia.
    + rewrite process_replace_reject by done. intros [= <- _]. eapply engine_depth_weaken; [|done].
      destruct Hadm as (_ & ([? _] & _) & _). lia.
Qed.

(** ** Sessions *)

Lemma session_quantity ev evs used moved :
  modify_session_ok (ev :: evs) used moved -> 0 <= event_quantity ev /\
  modify_session_ok evs (used_by_event ev used) (moved_by_event ev moved).
Proof.
  destruct ev as [o|id ts|m|old o]; simpl; unfold qty_ranges, is_u64; intros Hok; (split; [lia|]); by destruct_and?.
Qed.

Lemma offered_nonneg evs : forall used moved, modify_session_ok evs used moved -> 0 <= zsum event_quantity evs.
Proof.
  induction evs as [|ev evs IH]; intros used moved Hok; simpl; [done|].
  apply session_quantity in Hok as [Hq Hok]. specialize (IH _ _ Hok). lia.
Qed.

Lemma session_depth evs : forall used moved e B,
  modify_session_ok evs used moved -> Forall plain_event evs -> modify_inv used moved e -> engine_depth B e ->
  0 <= B -> B + zsum event_quantity evs < 2 ^ 64 ->
  exists n, forall fuel, (n <= fuel)%nat -> exists e' rs K,
    submit_all fuel e evs = Ok (e', rs) /\ engine_wf K e' /\ engine_depth (B + zsum event_quantity evs) e'.
Proof.
  induction evs as [|ev evs IH]; intros used moved e B Hok Hpl Hinv Hd HB Hsum; simpl in Hsum.
  { exists O. intros fuel _. destruct Hinv as (K & Hwf & _). exists e, [], K. simpl. by rewrite Z.add_0_r. }
  apply Forall_cons in Hpl as [Hev Hpl]. destruct (modify_admissible used moved e ev evs Hinv Hok) as (K & Hwf & Hadm).
  destruct (session_quantity _ _ _ _ Hok) as [Hq _].
  destruct (modify_step used moved e ev evs Hinv Hok) as (e1 & r & Heq & Hinv1 & Hok1).
  pose proof (offered_nonneg _ _ _ Hok1) as Hrest.
  pose proof (submit_depth K B e ev e1 r Hwf Hadm Hev Hd HB ltac:(lia) Heq) as Hd1.
  destruct (IH _ _ _ _ Hok1 Hpl Hinv1 Hd1) as (n & Hn); [lia|lia|].
  exists (Nat.max n (fuel_bound e ev)). intros fuel Hfuel.
  destruct (Hn fuel ltac:(lia)) as (e2 & rs & K2 & Heq2 & Hwf2 & Hd2). exists e2, (r :: rs), K2.
  split_ands; [|done|simpl; by rewrite Z.add_assoc].
  simpl. rewrite (submit_mono (fuel_bound e ev) fuel e ev _ ltac:(lia) Heq), bind_ok. by rewrite Heq2.
Qed.

(** ** The published depth *)

Lemma depth_elem s p v b : (p, v) ∈ depth s b <-> exists l, levels s b !! p = Some l /\ v = pl_total_volume l.
Proof.
  unfold depth, iterate. rewrite list_elem_of_fmap. split.
  - intros ([q l] & [= -> ->] & Hl%map_sorted_elem). by exists l.
  - intros (l & Hl & ->). exists (p, l). by rewrite map_sorted_elem.
Qed.

Lemma depth_sum s b : zsum snd (depth s b) = msum pl_total_volume (levels s b).
Proof.
  unfold depth, iterate, msum. rewrite (zsum_perm _ _ (map (fun '(p, l) => (p, pl_total_volume l)) (map_to_list (levels s b)))).
  - generalize (map_to_list (levels s b)) as l. induction l as [|[p l] ls IH]; simpl; [done|]. by rewrite IH.
  - apply Permutation_map, map_sorted_perm.
Qed.

(** C23. The depth that the snapshots publish never understates the book: along
    every session of new, cancel, modify and replace events in which every
    submitted id is new, a modified order is not modified, cancelled or replaced
    again, no order is an iceberg, and less than 2^64 is offered in all;
    triggered stops included. Every order that rests is inside a published
    entry of its side and price, whose volume is at least the quantity of all
    orders resting there; and what is published altogether is at most the
    quantity that was offered. *)
Theorem depth_never_understates evs :
  modify_session_ok evs ∅ ∅ -> Forall plain_event evs -> zsum event_quantity evs < 2 ^ 64 ->
  exists n, forall fuel, (n <= fuel)%nat -> exists e' rs,
    submit_all fuel new_engine evs = Ok (e', rs) /\
    (forall s p v, (p, v) ∈ depth s (book e') -> resting_at s p (book e') <= v) /\
    (forall i o, id_map (book e') !! i = Some o -> exists v, (o_price o, v) ∈ depth (o_side o) (book e') /\
      resting_at (o_side o) (o_price o) (book e') <= v) /\
    zsum snd (depth Buy (book e')) + zsum snd (depth Sell (book e')) <= zsum event_quantity evs.
Proof.
  intros Hok Hpl Hsum.
  destruct (session_depth evs ∅ ∅ new_engine 0 Hok Hpl modify_inv_new engine_depth_new) as (n & Hn); [done|done|].
  exists n. intros fuel Hfuel. destruct (Hn fuel Hfuel) as (e' & rs & K & Heq & Hwf & [_ _ _ Hlev Htot]).
  pose proof (mstate_book_wf _ _ _ (ewf_levels _ _ Hwf) (ewf_market _ _ Hwf)) as Hb.
  exists e', rs. split_ands; [done|..].
  - intros s p v (l & Hl & ->)%depth_elem. destruct (Hlev s p) as [_ Hle]. unfold published in Hle. by rewrite Hl in Hle.
  - intros i o Ho. destruct (proj2 (level_iff_order _ Hb (o_side o) (o_price o))) as [l Hl]; [by exists i, o|].
    exists (pl_total_volume l). split; [apply depth_elem; by exists l|].
    destruct (Hlev (o_side o) (o_price o)) as [_ Hle]. unfold published in Hle. by rewrite Hl in Hle.
  - pose proof (market_todo_nonneg _ (ewf_market _ _ Hwf)) as Htodo. simpl in Htodo.
    rewrite !depth_sum. unfold total_published in Htot. simpl in *. lia.
Qed.

(** ** Witness: a partial fill, a complete fill, a triggered stop and modifies *)

Definition depth_demo : list OrderEvent :=
  [NewOrderEvent (demo_order 1 Sell 100 10); NewOrderEvent (demo_order 2 Sell 100 20);
   NewOrderEvent (mkOrder 3 Buy Stop 0 100 4 4 0 0 0 New); NewOrderEvent (demo_order 4 Buy 100 12);
   ModifyOrder (mkModify 2 0 3 0); NewOrderEvent (demo_order 5 Sell 101 7); CancelOrderEvent 5 0].

Lemma depth_never_understates_witness : exists n, forall fuel, (n <= fuel)%nat -> exists e' rs,
  submit_all fuel new_engine depth_demo = Ok (e', rs) /\
  zsum snd (depth Buy (book e')) + zsum snd (depth Sell (book e')) <= 56.
Proof.
  destruct (depth_never_understates depth_demo) as (n & Hn).
  - simpl. unfold qty_ranges. simpl. split_ands; try done; set_solver.
  - repeat constructor; done.
  - done.
  - exists n. intros fuel Hf. destruct (Hn fuel Hf) as (e' & rs & Heq & _ & _ & Hle). exists e', rs. by split.
Defined.

(** It publishes 13 where 3 rest: the 10 of the complete fill stay. *)
Example depth_demo_published :
  match submit_all 100 new_engine depth_demo with
  | Ok (e, _) => (depth Sell (book e), resting_at Sell 100 (book e)) = ([(100, 13)], 3)
  | _ => False
  end.
Proof. vm_compute. reflexivity. Qed.
