(* ===== verification/Csv.v ===== *)
(** * Csv: the event file reader and the replay tool

    Model of [src/src/feed/csv_replay.hpp], [csv_replay.cpp] and the replay and
    comparison of [src/tools/replay.cpp]. A file is the string of its bytes.
    [std::getline], [std::stoull], [std::stoll] and [std::to_string] are
    written out as the C++ standard defines them; an exception is a value of
    [csv_error]. *)

From Stdlib Require Import Ascii.
From stdpp Require Import pretty.
From S2P Require Import Prelude Types Engine.

(** ** Exceptions *)

Inductive csv_error :=
| InvalidArgument           (* std::stoull / std::stoll: no digits *)
| OutOfRange                (* std::stoull / std::stoll: does not fit *)
| InvalidSide (s : string)
| InvalidOrderType (s : string)
| NotEnoughFields (event_type : string)
| UnknownEventType (s : string).

#[global] Instance parse_ret : MRet (sum csv_error) := fun A a => inr a.
#[global] Instance parse_bind : MBind (sum csv_error) := fun A B f m =>
  match m with inl e => inl e | inr a => f a end.

(** ** std::getline *)

Definition newline : ascii := "010"%char.
Definition comma : ascii := ","%char.

(** Characters up to the delimiter, which is consumed and not returned. *)
Fixpoint take_until (d : ascii) (s : string) : string * string :=
  match s with
  | EmptyString => (EmptyString, EmptyString)
  | String c s' =>
      if decide (c = d) then (EmptyString, s')
      else let '(t, rest) := take_until d s' in (String c t, rest)
  end.

(** At the end of the input no character is extracted and the stream fails. *)
Definition getline (d : ascii) (s : string) : option (string * string) :=
  match s with
  | EmptyString => None
  | _ => Some (take_until d s)
  end.

(** ** CsvReplayReader::split *)

Fixpoint split_loop (fuel : nat) (d : ascii) (stream : string) (tokens : list string)
    : res (list string) :=
  match fuel with
  | O => NoFuel
  | S fuel =>
      match getline d stream with
      | None => Ok tokens
      | Some (token, stream) => split_loop fuel d stream (tokens ++ [token])
      end
  end.

(** Every call of [getline] consumes a character. *)
Definition split (line : string) (delim : ascii) : res (list string) :=
  split_loop (S (String.length line)) delim line [].

(** ** std::stoull and std::stoll, base 10 *)

Definition is_space (c : ascii) : bool :=
  let n := Ascii.nat_of_ascii c in bool_decide (n = 32 \/ (9 <= n <= 13))%nat.

Fixpoint skip_spaces (s : string) : string :=
  match s with
  | String c s' => if is_space c then skip_spaces s' else s
  | EmptyString => EmptyString
  end.

Definition digit_value (c : ascii) : option Z :=
  let n := Z.of_nat (Ascii.nat_of_ascii c) in
  if decide (48 <= n <= 57) then Some (n - 48) else None.

(** The value of the longest prefix of digits; [None] when there is none. *)
Fixpoint digits (s : string) (acc : option Z) : option Z :=
  match s with
  | EmptyString => acc
  | String c s' =>
      match digit_value c with
      | Some v => digits s' (Some (10 * default 0 acc + v))
      | None => acc
      end
  end.

(** Optional sign and digits after leading blanks; what follows is ignored. *)
Definition strto (s : string) : option (bool * Z) :=
  match skip_spaces s with
  | String "-" s' => pair true <$> digits s' None
  | String "+" s' => pair false <$> digits s' None
  | s => pair false <$> digits s None
  end.

(** A minus sign negates the value in the unsigned type. *)
Definition stoull (s : string) : csv_error + Z :=
  match strto s with
  | None => inl InvalidArgument
  | Some (neg, n) =>
      if decide (is_u64 n) then inr (if neg then u64 (- n) else n) else inl OutOfRange
  end.

Definition stoll (s : string) : csv_error + Z :=
  match strto s with
  | None => inl InvalidArgument
  | Some (neg, n) =>
      let v := if neg then - n else n in
      if decide (is_i64 v) then inr v else inl OutOfRange
  end.

(** ** Lines *)

Definition parse_side (s : string) : csv_error + Side :=
  if decide (s = "BUY") then inr Buy
  else if decide (s = "SELL") then inr Sell
  else inl (InvalidSide s).

Definition parse_order_type (s : string) : csv_error + OrderType :=
  if decide (s = "LIMIT") then inr Limit
  else if decide (s = "MARKET") then inr Types.Market
  else if decide (s = "STOP") then inr Stop
  else if decide (s = "STOPLIMIT") then inr StopLimit
  else if decide (s = "ICEBERG") then inr Iceberg
  else inl (InvalidOrderType s).

Definition field (fields : list string) (i : nat) : string := default EmptyString (fields !! i).

(** The [try] block of [next] on a line with at least one field. *)
Definition parse_fields (fields : list string) : csv_error + OrderEvent :=
  let event_type := field fields 0 in
  if decide (event_type = "NEW") then
    if decide (length fields < 9)%nat then inl (NotEnoughFields "NEW")
    else
      id ← stoull (field fields 1);
      side ← parse_side (field fields 2);
      type ← parse_order_type (field fields 3);
      price ← stoll (field fields 4);
      quantity ← stoull (field fields 5);
      peak_qty ← stoull (field fields 6);
      stop_price ← stoll (field fields 7);
      timestamp ← stoull (field fields 8);
      inr (NewOrderEvent (mkOrder id side type price stop_price quantity quantity peak_qty 0 timestamp New))
  else if decide (event_type = "CANCEL") then
    if decide (length fields < 9)%nat then inl (NotEnoughFields "CANCEL")
    else
      order_id ← stoull (field fields 1);
      timestamp ← stoull (field fields 8);
      inr (CancelOrderEvent order_id timestamp)
  else if decide (event_type = "MODIFY") then
    if decide (length fields < 9)%nat then inl (NotEnoughFields "MODIFY")
    else
      order_id ← stoull (field fields 1);
      new_price ← (if decide (field fields 4 = EmptyString) then inr 0 else stoll (field fields 4));
      new_quantity ← (if decide (field fields 5 = EmptyString) then inr 0 else stoull (field fields 5));
      timestamp ← stoull (field fields 8);
      inr (ModifyOrder (mkModify order_id new_price new_quantity timestamp))
  else inl (UnknownEventType event_type).

(** ** The reader *)

Record CsvReplayReader := mkReader {
  file_ : string;        (* what is left of the file *)
  line_number_ : Z;
  error_count_ : Z;
}.

(** The constructor on an open file: skips the header line. *)
Definition open_reader (content : string) : CsvReplayReader :=
  match getline newline content with
  | Some (_, rest) => mkReader rest 1 0
  | None => mkReader content 0 0
  end.

Fixpoint next_loop (fuel : nat) (r : CsvReplayReader) : res (option OrderEvent * CsvReplayReader) :=
  match fuel with
  | O => NoFuel
  | S fuel =>
      match getline newline (file_ r) with
      | None => Ok (None, r)
      | Some (line, rest) =>
          let r := mkReader rest (u64 (line_number_ r + 1)) (error_count_ r) in
          if decide (line = EmptyString) then next_loop fuel r
          else
            fields ← split line comma;
            if decide (fields = []) then next_loop fuel r
            else
              match parse_fields fields with
              | inr ev => Ok (Some ev, r)
              | inl _ => next_loop fuel (mkReader (file_ r) (line_number_ r) (u64 (error_count_ r + 1)))
              end
      end
  end.

(** Every line read consumes a character. *)
Definition next (r : CsvReplayReader) : res (option OrderEvent * CsvReplayReader) :=
  next_loop (S (String.length (file_ r))) r.

(** ** tools/replay.cpp *)

Definition trade_to_csv (t : Trade) : string :=
  pretty (t_aggressor_id t) +:+ "," +:+ pretty (t_passive_id t) +:+ "," +:+
  pretty (t_price t) +:+ "," +:+ pretty (t_quantity t).

(** The loop [while (reader.next(event))]; [engine_fuel] is the fuel of
    [submit]. *)
Fixpoint replay_loop (fuel engine_fuel : nat) (r : CsvReplayReader) (engine : MatchingEngine)
    (trade_lines : list string) : res (MatchingEngine * CsvReplayReader * list string) :=
  match fuel with
  | O => NoFuel
  | S fuel =>
      '(ev, r) ← next r;
      match ev with
      | None => Ok (engine, r, trade_lines)
      | Some event =>
          '(engine, result) ← submit engine_fuel engine event;
          replay_loop fuel engine_fuel r engine (trade_lines ++ map trade_to_csv (mr_trades result))
      end
  end.

Definition replay (engine_fuel : nat) (events : string) : res (MatchingEngine * CsvReplayReader * list string) :=
  replay_loop (S (String.length events)) engine_fuel (open_reader events) new_engine [].

(** The comparison with an expected file: the exit code of [main]. *)
Fixpoint compare_loop (fuel : nat) (trade_lines : list string) (exp_file : string) (idx : nat)
    : res Z :=
  match fuel with
  | O => NoFuel
  | S fuel =>
      match getline newline exp_file with
      | None => Ok (if decide (idx = length trade_lines) then 0 else 1)
      | Some (line, rest) =>
          if decide (line = EmptyString) then compare_loop fuel trade_lines rest idx
          else
            match trade_lines !! idx with
            | None => Ok 1
            | Some t => if decide (t = line) then compare_loop fuel trade_lines rest (S idx) else Ok 1
            end
      end
  end.

(** The header of the expected file is read and dropped. *)
Definition compare_expected (trade_lines : list string) (expected : string) : res Z :=
  let exp_file := match getline newline expected with Some (_, rest) => rest | None => expected end in
  compare_loop (S (String.length exp_file)) trade_lines exp_file 0.
