(* ===== verification/CsvProps.v ===== *)
(** * CsvProps: the reader reads what was written

    The reader is characterised by the lines of the file: every line is read
    once, the parseable ones are the events in order, the others are counted
    as errors. Printed events are read back. The replay tool submits the
    events of its file in order and its comparison accepts exactly the
    expected trades. *)

From Stdlib Require Import Ascii.
From stdpp Require Import pretty.
From S2P Require Import Prelude Types Engine Csv.

(** ** Tokens *)

(** The tokens that repeated [getline] extracts, by structural recursion: a
    final delimiter does not start another token. *)
Fixpoint tokens (d : ascii) (s : string) : list string :=
  match s with
  | EmptyString => []
  | String c s' =>
      if decide (c = d) then EmptyString :: tokens d s'
      else match tokens d s' with
           | [] => [String c EmptyString]
           | t :: ts => String c t :: ts
           end
  end.

Lemma tokens_getline d s :
  tokens d s = match getline d s with None => [] | Some (t, rest) => t :: tokens d rest end.
Proof.
  induction s as [|c s IH]; [done|]. simpl. case_decide; [done|]. rewrite IH.
  destruct s as [|c' s']; [done|]. unfold getline. by destruct (take_until d (String c' s')).
Qed.

Lemma take_until_length d s : (String.length (take_until d s).2 <= String.length s)%nat.
Proof.
  induction s as [|c s IH]; simpl; [lia|]. case_decide; [simpl; lia|].
  destruct (take_until d s). simpl in *. lia.
Qed.

Lemma getline_shorter d s t rest :
  getline d s = Some (t, rest) -> (String.length rest < String.length s)%nat.
Proof.
  destruct s as [|c s]; [done|]. unfold getline. intros [= Heq]. simpl in Heq.
  pose proof (take_until_length d s) as Hl. case_decide; [simplify_eq; simpl; lia|].
  destruct (take_until d s). simplify_eq. simpl in *. lia.
Qed.

Lemma tokens_nonempty d s : s <> EmptyString -> tokens d s <> [].
Proof. destruct s as [|c s]; [done|]. intros _. simpl. case_decide; [done|]. by destruct (tokens d s). Qed.

Lemma split_loop_tokens fuel d s acc :
  (String.length s < fuel)%nat -> split_loop fuel d s acc = Ok (acc ++ tokens d s).
Proof.
  revert s acc. induction fuel as [|fuel IH]; intros s acc Hf; [lia|]. simpl. rewrite tokens_getline.
  destruct (getline d s) as [[t rest]|] eqn:Hg; [|by rewrite app_nil_r].
  apply getline_shorter in Hg. rewrite IH by lia. by rewrite <- app_assoc.
Qed.

Lemma split_tokens d line : split line d = Ok (tokens d line).
Proof. unfold split. rewrite split_loop_tokens by lia. done. Qed.

(** Strings without a character. *)
Fixpoint lacks (d : ascii) (s : string) : Prop :=
  match s with EmptyString => True | String c s' => c <> d /\ lacks d s' end.

Lemma lacks_app d s1 s2 : lacks d (s1 +:+ s2) <-> lacks d s1 /\ lacks d s2.
Proof. induction s1; simpl; tauto. Qed.

Lemma tokens_app d t s : lacks d t -> tokens d (t +:+ String d s) = t :: tokens d s.
Proof.
  induction t as [|c t IH]; simpl; [by rewrite decide_True|]. intros [Hc Ht].
  rewrite decide_False by done. by rewrite IH.
Qed.

Lemma tokens_single d t : lacks d t -> t <> EmptyString -> tokens d t = [t].
Proof.
  induction t as [|c t IH]; [done|]. simpl. intros [Hc Ht] _. rewrite decide_False by done.
  destruct t as [|c' t']; [done|]. by rewrite IH.
Qed.

(** Fields joined by the delimiter. *)
Fixpoint join (d : ascii) (ts : list string) : string :=
  match ts with
  | [] => EmptyString
  | [t] => t
  | t :: ts => t +:+ String d (join d ts)
  end.

Lemma tokens_join d ts t :
  Forall (lacks d) ts -> lacks d t -> t <> EmptyString -> tokens d (join d (ts ++ [t])) = ts ++ [t].
Proof.
  intros Hts Ht Hne. induction Hts as [|x ts Hx Hts IH]; simpl; [by apply tokens_single|].
  destruct (ts ++ [t]) as [|y ys] eqn:Heq; [by destruct ts|]. by rewrite tokens_app, IH.
Qed.

Lemma lacks_join d d' ts : d <> d' -> Forall (lacks d) ts -> lacks d (join d' ts).
Proof.
  intros Hd. induction 1 as [|t ts Ht Hts IH]; [done|]. simpl. destruct ts; [done|].
  apply lacks_app. split; [done|]. by split.
Qed.

(** Lines, each ended by a newline. *)
Definition unlines (ls : list string) : string :=
  foldr (fun l s => l +:+ String newline s) EmptyString ls.

Lemma tokens_unlines ls : Forall (lacks newline) ls -> tokens newline (unlines ls) = ls.
Proof. induction 1 as [|l ls Hl Hls IH]; [done|]. simpl. by rewrite tokens_app, IH. Qed.

(** ** Numbers *)

Fixpoint all_chars (P : ascii -> Prop) (s : string) : Prop :=
  match s with EmptyString => True | String c s' => P c /\ all_chars P s' end.

Definition is_digit (c : ascii) : Prop := is_Some (digit_value c).

Lemma digit_char x : (x < 10)%N -> digit_value (pretty_N_char x) = Some (Z.of_N x).
Proof.
  intros Hx.
  assert (x = 0 \/ x = 1 \/ x = 2 \/ x = 3 \/ x = 4 \/ x = 5 \/ x = 6 \/ x = 7 \/ x = 8 \/ x = 9)%N as Hc
    by lia.
  by repeat destruct Hc as [->|Hc]; [done..|subst].
Qed.

Lemma div10_lt x : (0 < x)%N -> (x `div` 10 < x)%N.
Proof. intros. by apply N.div_lt. Qed.

Lemma mod10_lt x : (x `mod` 10 < 10)%N.
Proof. by apply N.mod_lt. Qed.

Lemma digits_go x s acc :
  exists k, digits (pretty_N_go x s) acc =
    digits s (if decide (x = 0%N) then acc else Some (k * default 0 acc + Z.of_N x)).
Proof.
  revert s acc. induction (N.lt_wf_0 x) as [x _ IH]; intros s acc.
  case_decide as Hx; [exists 0; by subst|].
  rewrite pretty_N_go_step by lia.
  destruct (IH (x `div` 10)%N (div10_lt x ltac:(lia))
    (String (pretty_N_char (x `mod` 10)) s) acc) as [k ->]. simpl.
  rewrite digit_char by apply mod10_lt.
  pose proof (N.div_mod x 10 ltac:(done)) as Hdm.
  case_decide as Hq; [exists 10|exists (10 * k)]; f_equal; f_equal; simpl; lia.
Qed.

Lemma all_chars_go P x s :
  (forall y, (y < 10)%N -> P (pretty_N_char y)) -> all_chars P s -> all_chars P (pretty_N_go x s).
Proof.
  intros HP. revert s. induction (N.lt_wf_0 x) as [x _ IH]; intros s Hs.
  destruct (decide (x = 0%N)) as [->|]; [done|]. rewrite pretty_N_go_step by lia.
  apply IH; [apply div10_lt; lia|]. split; [apply HP, mod10_lt|done].
Qed.

Lemma go_nonempty x s : (0 < x)%N \/ s <> EmptyString -> pretty_N_go x s <> EmptyString.
Proof.
  revert s. induction (N.lt_wf_0 x) as [x _ IH]; intros s Hs.
  destruct (decide (x = 0%N)) as [->|]; [destruct Hs; [lia|done]|]. rewrite pretty_N_go_step by lia.
  apply IH; [apply div10_lt; lia|by right].
Qed.

(** A printed natural number is a non-empty string of digits that read as it. *)
Lemma pretty_N_digits (n : N) :
  digits (pretty n) None = Some (Z.of_N n) /\ all_chars is_digit (pretty n) /\ pretty n <> EmptyString.
Proof.
  unfold pretty, pretty_N. case_decide as Hn.
  - subst. split_ands; [done| |done]. split; [by eexists|done].
  - split_ands.
    + destruct (digits_go n EmptyString None) as [k ->]. rewrite decide_False by done. simpl. f_equal. lia.
    + apply all_chars_go; [|done]. intros y Hy. exists (Z.of_N y). by apply digit_char.
    + apply go_nonempty. left. lia.
Qed.

Lemma pretty_Z_nonneg z : 0 <= z -> pretty z = pretty (Z.to_N z).
Proof. by destruct z. Qed.

Lemma pretty_Z_neg z : z < 0 -> pretty z = String "-" (pretty (Z.to_N (- z))).
Proof. by destruct z. Qed.

Lemma strto_digit c s :
  is_digit c -> strto (String c s) = pair false <$> digits (String c s) None.
Proof.
  intros [v Hv]. destruct c as [[] [] [] [] [] [] [] []]; try done; vm_compute in Hv; done.
Qed.

Lemma strto_minus s : strto (String "-" s) = pair true <$> digits s None.
Proof. done. Qed.

Lemma strto_pretty z : strto (pretty z) = Some (bool_decide (z < 0), Z.abs z).
Proof.
  destruct (decide (z < 0)) as [Hz|Hz].
  - rewrite pretty_Z_neg by done. rewrite strto_minus.
    destruct (pretty_N_digits (Z.to_N (- z))) as [-> _]. rewrite bool_decide_eq_true_2 by done.
    simpl. f_equal. f_equal. lia.
  - rewrite pretty_Z_nonneg by lia. destruct (pretty_N_digits (Z.to_N z)) as (Hd & Hall & Hne).
    rewrite bool_decide_eq_false_2 by done.
    destruct (pretty (Z.to_N z)) as [|c s]; [done|]. destruct Hall as [Hc _].
    rewrite strto_digit, Hd by done. simpl. f_equal. f_equal. lia.
Qed.

Lemma stoull_pretty z : is_u64 z -> stoull (pretty z) = inr z.
Proof.
  intros Hz. unfold stoull. rewrite strto_pretty. rewrite decide_True by u64_lia.
  rewrite bool_decide_eq_false_2 by u64_lia. f_equal. u64_lia.
Qed.

Lemma stoll_pretty z : is_i64 z -> stoll (pretty z) = inr z.
Proof.
  intros Hz. unfold stoll. rewrite strto_pretty.
  case_bool_decide; rewrite decide_True by u64_lia; f_equal; lia.
Qed.

Lemma lacks_pretty d (z : Z) : digit_value d = None -> d <> "-"%char -> lacks d (pretty z).
Proof.
  intros Hd Hm.
  assert (forall s, all_chars is_digit s -> lacks d s) as Hl.
  { induction s as [|c s IH]; [done|]. intros [[v Hc] Hs]. split; [|by apply IH]. intros ->. congruence. }
  destruct (decide (z < 0)) as [Hz|Hz].
  - rewrite pretty_Z_neg by done. split; [done|]. apply Hl, pretty_N_digits.
  - rewrite pretty_Z_nonneg by lia. apply Hl, pretty_N_digits.
Qed.

Lemma pretty_Z_ne (z : Z) : pretty z <> EmptyString.
Proof.
  destruct (decide (z < 0)) as [Hz|Hz]; [by rewrite pretty_Z_neg|].
  rewrite pretty_Z_nonneg by lia. apply pretty_N_digits.
Qed.

(** ** Printing events in the documented format *)

Definition side_text (s : Side) : string := match s with Buy => "BUY" | Sell => "SELL" end.
Definition type_text (t : OrderType) : string :=
  match t with
  | Limit => "LIMIT" | Types.Market => "MARKET" | Stop => "STOP"
  | StopLimit => "STOPLIMIT" | Iceberg => "ICEBERG"
  end.

(** The nine fields, without the last. The format has no replace event. *)
Definition event_fields (ev : OrderEvent) : list string :=
  match ev with
  | NewOrderEvent o =>
      ["NEW"; pretty (o_id o); side_text (o_side o); type_text (o_type o); pretty (o_price o);
       pretty (o_quantity o); pretty (o_peak_qty o); pretty (o_stop_price o)]
  | CancelOrderEvent id _ => ["CANCEL"; pretty id; ""; ""; ""; ""; ""; ""]
  | ModifyOrder m =>
      ["MODIFY"; pretty (m_order_id m); ""; ""; pretty (m_new_price m); pretty (m_new_quantity m); ""; ""]
  | ReplaceOrderEvent _ _ => []
  end%string.
Definition event_time (ev : OrderEvent) : Timestamp :=
  match ev with
  | NewOrderEvent o => o_timestamp o
  | CancelOrderEvent _ ts => ts
  | ModifyOrder m => m_timestamp m
  | ReplaceOrderEvent _ _ => 0
  end.
Definition event_line (ev : OrderEvent) : string :=
  join comma (event_fields ev ++ [pretty (event_time ev)]).

(** Events the format can express. *)
Definition printable (ev : OrderEvent) : Prop :=
  match ev with
  | NewOrderEvent o =>
      order_ranges o /\ o_orig_qty o = o_quantity o /\ o_reserve_qty o = 0 /\ o_status o = New
  | CancelOrderEvent id ts => is_u64 id /\ is_u64 ts
  | ModifyOrder m =>
      is_u64 (m_order_id m) /\ is_i64 (m_new_price m) /\ is_u64 (m_new_quantity m) /\ is_u64 (m_timestamp m)
  | ReplaceOrderEvent _ _ => False
  end.

Lemma parse_printed ev :
  printable ev -> parse_fields (event_fields ev ++ [pretty (event_time ev)]) = inr ev.
Proof.
  destruct ev as [o|id ts|m|old o]; [| | |done]; unfold parse_fields, field; simpl.
  - intros ((? & ? & ? & ? & _ & ? & _ & ?) & Horig & Hres & Hst).
    rewrite stoull_pretty by done. destruct o as [i s t p sp q oq pk rq ts st]; simpl in *. subst.
    assert (parse_side (side_text s) = inr s) as -> by by destruct s.
    assert (parse_order_type (type_text t) = inr t) as -> by by destruct t.
    simpl. repeat ((rewrite stoull_pretty || rewrite stoll_pretty); [|done]; simpl). done.
  - intros [? ?]. by rewrite !stoull_pretty.
  - intros (? & ? & ? & ?). destruct m as [i p q ts]. simpl in *.
    rewrite stoull_pretty by done. simpl.
    rewrite !decide_False by apply pretty_Z_ne.
    rewrite stoll_pretty by done. simpl. rewrite !stoull_pretty by done. done.
Qed.

Lemma event_fields_lack d ev :
  d = comma \/ d = newline -> Forall (lacks d) (event_fields ev ++ [pretty (event_time ev)]).
Proof.
  intros Hd.
  assert (forall z : Z, lacks d (pretty z)) as Hz by (intros z; apply lacks_pretty; by destruct Hd as [->| ->]).
  assert (forall s, lacks d (side_text s)) as Hs by (intros []; by destruct Hd as [->| ->]).
  assert (forall t, lacks d (type_text t)) as Ht by (intros []; by destruct Hd as [->| ->]).
  destruct ev; simpl; repeat constructor; auto; by destruct Hd as [->| ->].
Qed.

Lemma tokens_event_line ev : tokens comma (event_line ev) = event_fields ev ++ [pretty (event_time ev)].
Proof.
  pose proof (event_fields_lack comma ev ltac:(by left)) as Hl. apply Forall_app in Hl as [Hl Hl'].
  apply tokens_join; [done|by apply Forall_cons in Hl' as [? _]|apply pretty_Z_ne].
Qed.

Lemma event_line_no_newline ev : lacks newline (event_line ev).
Proof. apply lacks_join; [done|]. apply event_fields_lack. by right. Qed.

(** ** The reader in terms of lines *)

(** A blank line is skipped; any other is an event or an error. *)
Definition line_event (line : string) : option (csv_error + OrderEvent) :=
  if decide (line = EmptyString) then None else Some (parse_fields (tokens comma line)).

Definition good (line : string) : option OrderEvent :=
  match line_event line with Some (inr ev) => Some ev | _ => None end.
Definition bad (line : string) : Prop :=
  match line_event line with Some (inl _) => True | _ => False end.
#[global] Instance bad_dec line : Decision (bad line).
Proof. unfold bad. destruct (line_event line) as [[]|]; apply _. Defined.

Definition bad_count (lines : list string) : Z := Z.of_nat (length (filter bad lines)).

Lemma event_line_event ev : printable ev -> line_event (event_line ev) = Some (inr ev).
Proof.
  intros Hp. unfold line_event. rewrite tokens_event_line, parse_printed by done.
  rewrite decide_False; [done|]. intros Heq. pose proof (tokens_event_line ev) as Ht. rewrite Heq in Ht.
  by destruct (event_fields ev).
Qed.

(** Counters wrap around like [uint64_t]. *)
Definition add64 (x : Z) (n : Z) : Z := u64 (x + n).

Lemma add64_add64 x n m : add64 (add64 x n) m = add64 x (n + m).
Proof. unfold add64, u64. rewrite Zplus_mod_idemp_l. f_equal. lia. Qed.

Lemma add64_0 x : is_u64 x -> add64 x 0 = x.
Proof. intros. unfold add64. rewrite Z.add_0_r. by apply u64_small. Qed.

(** Reading from [r], of which the first lines up to [r0] are done: the lines up
    to the first event are consumed and the counters advance from those of
    [r0]. *)
Definition next_spec (fuel : nat) (r0 r : CsvReplayReader) (lines : list string) : Prop :=
  exists ev r' consumed, next_loop fuel r = Ok (ev, r') /\
    lines = consumed ++ tokens newline (file_ r') /\
    omap good consumed = option_list ev /\
    (ev = None -> file_ r' = EmptyString) /\
    (ev <> None -> (String.length (file_ r') < String.length (file_ r0))%nat) /\
    line_number_ r' = add64 (line_number_ r0) (Z.of_nat (length consumed)) /\
    error_count_ r' = add64 (error_count_ r0) (bad_count consumed).

(** A line without an event comes before what is read next. *)
Lemma next_spec_skip fuel r line rest errs :
  next_spec fuel (mkReader rest (u64 (line_number_ r + 1)) errs) (mkReader rest (u64 (line_number_ r + 1)) errs)
    (tokens newline rest) ->
  (String.length rest < String.length (file_ r))%nat -> good line = None ->
  errs = add64 (error_count_ r) (bad_count [line]) ->
  next_spec fuel r (mkReader rest (u64 (line_number_ r + 1)) errs) (line :: tokens newline rest).
Proof.
  intros (ev & r' & cons & Hl & Htok & Hom & Hnone & Hsome & Hln & Hec) Hlt Hgood Heq. simpl in *.
  exists ev, r', (line :: cons). split_ands; try done.
  - by rewrite Htok.
  - simpl. by rewrite Hgood.
  - intros Hev. specialize (Hsome Hev). lia.
  - rewrite Hln. change (u64 (line_number_ r + 1)) with (add64 (line_number_ r) 1).
    rewrite add64_add64. f_equal. simpl. lia.
  - rewrite Hec, Heq, add64_add64. f_equal. unfold bad_count. rewrite (filter_app _ [line] cons).
    rewrite length_app. lia.
Qed.

Lemma bad_count_one line : bad_count [line] = if decide (bad line) then 1 else 0.
Proof. unfold bad_count. rewrite filter_cons. by case_decide. Qed.

(** [next] consumes lines up to the first event and counts the errors. *)
Lemma next_loop_spec fuel r :
  (String.length (file_ r) < fuel)%nat -> is_u64 (line_number_ r) -> is_u64 (error_count_ r) ->
  next_spec fuel r r (tokens newline (file_ r)).
Proof.
  revert r. induction fuel as [|fuel IH]; intros r Hf Hn He; [lia|]. unfold next_spec. simpl.
  rewrite (tokens_getline newline (file_ r)).
  destruct (getline newline (file_ r)) as [[line rest]|] eqn:Hg.
  2: { exists None, r, []. unfold bad_count. simpl. rewrite !add64_0 by done.
       assert (file_ r = EmptyString) as Hfile by (by destruct (file_ r)).
       rewrite Hfile. by split_ands. }
  pose proof (getline_shorter _ _ _ _ Hg) as Hlt.
  assert (forall errs, is_u64 errs -> next_spec fuel (mkReader rest (u64 (line_number_ r + 1)) errs)
    (mkReader rest (u64 (line_number_ r + 1)) errs) (tokens newline rest)) as Hrest.
  { intros errs Herr. apply (IH (mkReader rest (u64 (line_number_ r + 1)) errs)); [simpl; lia|apply u64_range|done]. }
  destruct (decide (line = EmptyString)) as [Hline|Hline].
  { apply next_spec_skip; [by apply Hrest|done| |].
    - unfold good, line_event. by rewrite decide_True.
    - rewrite bad_count_one, decide_False; [by rewrite add64_0|].
      unfold bad, line_event. rewrite decide_True by done. tauto. }
  rewrite split_tokens, bind_ok, decide_False by by apply tokens_nonempty.
  destruct (parse_fields (tokens comma line)) as [err|ev] eqn:Hp.
  - apply next_spec_skip; [apply Hrest, u64_range|done| |].
    + unfold good, line_event. by rewrite decide_False, Hp.
    + rewrite bad_count_one, decide_True; [done|]. unfold bad, line_event. by rewrite decide_False, Hp.
  - eexists (Some ev), _, [line]. split_ands; [done|done| |done|by intros _|done|].
    + simpl. unfold good, line_event. by rewrite decide_False, Hp.
    + rewrite bad_count_one, decide_False; [by rewrite add64_0|].
      unfold bad, line_event. rewrite decide_False, Hp by done. tauto.
Qed.

(** The events of what is left of a file. *)
Definition events_of (s : string) : list OrderEvent := omap good (tokens newline s).

(** The results of a run as the lines the tool prints. *)
Definition trade_lines_of (rs : list MatchResult) : list string :=
  mjoin (map (fun r => map trade_to_csv (mr_trades r)) rs).

Lemma replay_loop_spec fuel efuel r e acc :
  (String.length (file_ r) < fuel)%nat -> is_u64 (line_number_ r) -> is_u64 (error_count_ r) ->
  exists r', file_ r' = EmptyString /\
    line_number_ r' = add64 (line_number_ r) (Z.of_nat (length (tokens newline (file_ r)))) /\
    error_count_ r' = add64 (error_count_ r) (bad_count (tokens newline (file_ r))) /\
    replay_loop fuel efuel r e acc =
      '(e', rs) ← submit_all efuel e (events_of (file_ r)); Ok (e', r', acc ++ trade_lines_of rs).
Proof.
  revert r e acc. induction fuel as [|fuel IH]; intros r e acc Hf Hn He; [lia|]. simpl. unfold next.
  destruct (next_loop_spec (S (String.length (file_ r))) r ltac:(lia) Hn He)
    as (ev & r1 & cons & -> & Htok & Hom & Hnone & Hsome & Hln & Hec).
  rewrite bind_ok. unfold events_of. rewrite Htok, omap_app, Hom.
  destruct ev as [ev|].
  - destruct (IH r1) with (e := e) (acc := acc) as (r' & Hfile & Hln' & Hec' & _);
      [specialize (Hsome ltac:(done)); lia|rewrite Hln; apply u64_range|rewrite Hec; apply u64_range|].
    exists r'. split_ands; [done| | |].
    + rewrite Hln', Hln, add64_add64, length_app. f_equal. lia.
    + rewrite Hec', Hec, add64_add64. unfold bad_count. rewrite filter_app, length_app. f_equal. lia.
    + simpl. destruct (submit efuel e ev) as [[e1 res]| |]; [|done..]. rewrite !bind_ok.
      destruct (IH r1) with (e := e1) (acc := acc ++ map trade_to_csv (mr_trades res))
        as (r2 & Hfile2 & Hln2 & Hec2 & ->);
        [specialize (Hsome ltac:(done)); lia|rewrite Hln; apply u64_range|rewrite Hec; apply u64_range|].
      assert (r2 = r') as ->.
      { destruct r2, r'. simpl in *. by rewrite Hfile2, Hln2, Hec2, Hfile, Hln', Hec'. }
      unfold events_of. destruct (submit_all efuel e1 _) as [[e2 rs]| |]; [|done..].
      rewrite !bind_ok. unfold trade_lines_of. simpl. by rewrite <- app_assoc.
  - exists r1. rewrite Hnone by done. change (tokens newline EmptyString) with (@nil string).
    rewrite !app_nil_r. simpl. change (trade_lines_of []) with (@nil string).
    by rewrite Hln, Hec, app_nil_r.
Qed.

(** The lines after the header. *)
Definition body (content : string) : list string := tail (tokens newline content).

Lemma open_reader_body content :
  tokens newline (file_ (open_reader content)) = body content /\
  (String.length (file_ (open_reader content)) <= String.length content)%nat /\
  is_u64 (line_number_ (open_reader content)) /\ error_count_ (open_reader content) = 0.
Proof.
  unfold open_reader, body. rewrite (tokens_getline newline content).
  destruct (getline newline content) as [[h rest]|] eqn:Hg; simpl.
  - apply getline_shorter in Hg. by split_ands; [|lia| |].
  - destruct content; [|done]. by split_ands.
Qed.

(** C33. The replay tool submits the parseable lines of the file in order, up
    to the first crash if there is one, and prints their trades; blank lines
    are skipped and every other line is counted as an error and skipped. *)
Theorem replay_lines fuel content :
  exists r, file_ r = EmptyString /\
    error_count_ r = u64 (bad_count (body content)) /\
    replay fuel content =
      '(e, rs) ← submit_all fuel new_engine (omap good (body content)); Ok (e, r, trade_lines_of rs).
Proof.
  destruct (open_reader_body content) as (Hbody & Hlen & Hln & Hec).
  destruct (replay_loop_spec (S (String.length content)) fuel (open_reader content) new_engine [])
    as (r & Hfile & _ & Herr & Heq); [lia|done|by rewrite Hec|].
  exists r. split_ands; [done| |].
  - rewrite Herr, Hec, Hbody. done.
  - unfold replay. rewrite Heq. unfold events_of. by rewrite Hbody.
Qed.

Lemma good_printed evs :
  Forall printable evs ->
  omap good (map event_line evs) = evs /\ filter bad (map event_line evs) = [].
Proof.
  induction 1 as [|ev evs Hev Hevs [IH1 IH2]]; [done|]. simpl. unfold good at 1.
  rewrite event_line_event by done. split; [f_equal; exact IH1|].
  rewrite filter_cons_False; [done|]. unfold bad. rewrite event_line_event by done. tauto.
Qed.

(** C34. Events written in the documented format are read back: the replay of
    a header and one line per event submits exactly these events and counts no
    error. *)
Theorem replay_roundtrip fuel header evs :
  lacks newline header -> Forall printable evs ->
  exists r, error_count_ r = 0 /\
    replay fuel (unlines (header :: map event_line evs)) =
      '(e, rs) ← submit_all fuel new_engine evs; Ok (e, r, trade_lines_of rs).
Proof.
  intros Hh Hevs.
  assert (body (unlines (header :: map event_line evs)) = map event_line evs) as Hb.
  { unfold body. rewrite tokens_unlines; [done|]. constructor; [done|].
    apply Forall_map, Forall_forall. intros ev _. apply event_line_no_newline. }
  destruct (open_reader_body (unlines (header :: map event_line evs))) as (Hbody & Hlen & Hln & Hec).
  destruct (replay_loop_spec (S (String.length (unlines (header :: map event_line evs)))) fuel
    (open_reader (unlines (header :: map event_line evs))) new_engine [])
    as (r & Hfile & _ & Herr & Heq); [lia|done|by rewrite Hec|].
  exists r. unfold replay. rewrite Heq. unfold events_of. rewrite Herr, Hec, Hbody, Hb.
  destruct (good_printed evs Hevs) as [-> Hbad]. split; [|done].
  unfold bad_count. by rewrite Hbad.
Qed.

(** ** Comparison with an expected file *)

Definition nonblank (lines : list string) : list string := filter (fun l => l <> EmptyString) lines.

Lemma compare_loop_spec fuel lines exp idx :
  (String.length exp < fuel)%nat -> (idx <= length lines)%nat ->
  compare_loop fuel lines exp idx =
    Ok (if decide (nonblank (tokens newline exp) = drop idx lines) then 0 else 1).
Proof.
  revert exp idx. induction fuel as [|fuel IH]; intros exp idx Hf Hidx; [lia|]. simpl.
  rewrite (tokens_getline newline exp). unfold nonblank in *.
  destruct (getline newline exp) as [[line rest]|] eqn:Hg.
  - apply getline_shorter in Hg. destruct (decide (line = EmptyString)) as [->|Hline].
    + rewrite filter_cons_False by tauto. apply IH; lia.
    + rewrite filter_cons_True by done. destruct (lines !! idx) as [t|] eqn:Ht.
      * rewrite (drop_S _ _ _ Ht). apply lookup_lt_Some in Ht. destruct (decide (t = line)) as [->|Hne].
        -- rewrite IH by lia. generalize (filter (fun l => l <> EmptyString) (tokens newline rest)).
           intros fl. destruct (decide (fl = drop (S idx) lines)) as [->|Hne].
           ++ by rewrite decide_True.
           ++ rewrite decide_False; [done|]. congruence.
        -- rewrite decide_False; [done|]. naive_solver.
      * rewrite drop_ge by by apply lookup_ge_None. by rewrite decide_False.
  - rewrite filter_nil. destruct (decide (idx = length lines)) as [->|Hne].
    + by rewrite drop_all, decide_True.
    + rewrite decide_False; [done|]. intros Hd.
      pose proof (length_drop lines idx) as Hl. rewrite <- Hd in Hl. simpl in Hl. lia.
Qed.

(** The comparison of the replay tool always ends; it reports success
    exactly when the non-blank lines after the header of the expected file are
    the printed trades, in order. *)
Theorem compare_expected_correct lines expected :
  compare_expected lines expected =
    Ok (if decide (nonblank (body expected) = lines) then 0 else 1).
Proof.
  unfold compare_expected, body. rewrite (tokens_getline newline expected).
  destruct (getline newline expected) as [[h rest]|] eqn:Hg.
  - by rewrite compare_loop_spec by lia.
  - destruct expected; [|done]. by rewrite compare_loop_spec by (simpl; lia).
Qed.

(** ** Witness *)

Definition demo_events : list OrderEvent :=
  [NewOrderEvent (mkOrder 7 Sell StopLimit (-5) 12 30 30 0 0 99 New);
   CancelOrderEvent 7 100; ModifyOrder (mkModify 9 0 18446744073709551615 3)].

Lemma replay_roundtrip_witness :
  exists r, error_count_ r = 0 /\
    replay 5 (unlines ("event_type"%string :: map event_line demo_events)) =
      '(e, rs) ← submit_all 5 new_engine demo_events; Ok (e, r, trade_lines_of rs).
Proof.
  apply (replay_roundtrip 5 "event_type" demo_events).
  - by vm_compute.
  - unfold demo_events. repeat apply Forall_cons_2; [..|apply Forall_nil_2]; vm_compute; done.
Defined.
