(* ===== verification/Scenarios.v ===== *)
(** * Scenarios: the event files of the repository, replayed

    The bytes of the five event files and their expected trades
    ([src/data/sample-replay/], [src/tests/replay/data/]); the replay tool's
    comparison succeeds on each. *)

From S2P Require Import Prelude Types OrderBook Engine Csv.

Definition small_market : string := "event_type,order_id,side,order_type,price,quantity,peak_qty,stop_price,timestamp
NEW,1,SELL,LIMIT,10050,100,0,0,1700000000000000000
NEW,2,SELL,LIMIT,10060,200,0,0,1700000000000001000
NEW,3,SELL,LIMIT,10070,150,0,0,1700000000000002000
NEW,4,BUY,LIMIT,10040,100,0,0,1700000000000003000
NEW,5,BUY,LIMIT,10030,200,0,0,1700000000000004000
NEW,6,BUY,LIMIT,10020,150,0,0,1700000000000005000
NEW,7,BUY,LIMIT,10050,60,0,0,1700000000000006000
NEW,8,BUY,LIMIT,10050,40,0,0,1700000000000007000
NEW,9,SELL,LIMIT,10040,70,0,0,1700000000000008000
NEW,10,SELL,LIMIT,10040,30,0,0,1700000000000009000
NEW,11,BUY,LIMIT,10060,180,0,0,1700000000000010000
CANCEL,6,,,,,,,1700000000000011000
NEW,12,SELL,LIMIT,10030,50,0,0,1700000000000012000
NEW,13,BUY,MARKET,0,120,0,0,1700000000000013000
CANCEL,5,,,,,,,1700000000000014000
NEW,14,SELL,LIMIT,10045,80,0,0,1700000000000015000
NEW,15,BUY,LIMIT,10045,80,0,0,1700000000000016000
NEW,16,SELL,MARKET,0,150,0,0,1700000000000017000
NEW,17,BUY,LIMIT,10055,90,0,0,1700000000000018000
NEW,18,SELL,LIMIT,10050,60,0,0,1700000000000019000
NEW,19,BUY,LIMIT,10060,100,0,0,1700000000000020000
NEW,20,SELL,LIMIT,10055,40,0,0,1700000000000021000
NEW,21,BUY,MARKET,0,200,0,0,1700000000000022000
NEW,22,SELL,LIMIT,10040,100,0,0,1700000000000023000
NEW,23,BUY,LIMIT,10050,75,0,0,1700000000000024000
NEW,24,SELL,LIMIT,10050,75,0,0,1700000000000025000
CANCEL,4,,,,,,,1700000000000026000
NEW,25,BUY,LIMIT,10060,50,0,0,1700000000000027000
NEW,26,SELL,MARKET,0,80,0,0,1700000000000028000
NEW,27,BUY,LIMIT,10070,60,0,0,1700000000000029000
"%string.

Definition small_market_expected : string := "aggressor_id,passive_id,price,quantity
7,1,10050,60
8,1,10050,40
9,4,10040,70
10,4,10040,30
11,2,10060,180
12,5,10030,50
13,2,10060,20
13,3,10070,100
15,14,10045,80
18,17,10055,60
20,19,10060,40
21,3,10070,50
22,19,10060,60
22,17,10055,30
23,22,10040,10
24,23,10050,65
25,24,10050,10
26,25,10060,40
"%string.

Definition stop_scenario : string := "event_type,order_id,side,order_type,price,quantity,peak_qty,stop_price,timestamp
NEW,1,SELL,LIMIT,10050,100,0,0,1700000000000000000
NEW,2,SELL,LIMIT,10060,200,0,0,1700000000000001000
NEW,3,BUY,LIMIT,10040,150,0,0,1700000000000002000
NEW,4,BUY,LIMIT,10030,100,0,0,1700000000000003000
NEW,5,BUY,STOP,0,80,0,10050,1700000000000004000
NEW,6,SELL,STOP,0,60,0,10040,1700000000000005000
NEW,7,BUY,STOPLIMIT,10055,100,0,10050,1700000000000006000
NEW,8,SELL,STOPLIMIT,10035,70,0,10040,1700000000000007000
NEW,9,BUY,LIMIT,10050,50,0,0,1700000000000008000
NEW,10,SELL,LIMIT,10040,100,0,0,1700000000000009000
NEW,11,BUY,LIMIT,10060,80,0,0,1700000000000010000
NEW,12,SELL,LIMIT,10030,60,0,0,1700000000000011000
NEW,13,BUY,LIMIT,10050,30,0,0,1700000000000012000
NEW,14,SELL,LIMIT,10050,50,0,0,1700000000000013000
NEW,15,BUY,LIMIT,10055,40,0,0,1700000000000014000
NEW,16,SELL,LIMIT,10045,30,0,0,1700000000000015000
NEW,17,BUY,LIMIT,10045,30,0,0,1700000000000016000
NEW,18,SELL,LIMIT,10055,60,0,0,1700000000000017000
NEW,19,BUY,MARKET,0,100,0,0,1700000000000018000
NEW,20,SELL,LIMIT,10050,40,0,0,1700000000000019000
NEW,21,BUY,LIMIT,10060,50,0,0,1700000000000020000
CANCEL,5,,,,,,,1700000000000021000
NEW,22,SELL,LIMIT,10040,80,0,0,1700000000000022000
NEW,23,BUY,LIMIT,10050,60,0,0,1700000000000023000
NEW,24,SELL,MARKET,0,120,0,0,1700000000000024000
"%string.

Definition stop_scenario_expected : string := "aggressor_id,passive_id,price,quantity
9,1,10050,50
5,1,10050,50
5,2,10060,30
10,7,10055,100
11,2,10060,80
12,3,10040,60
6,3,10040,60
8,3,10040,30
13,8,10035,30
15,8,10035,10
15,14,10050,30
17,16,10045,30
19,14,10050,20
19,18,10055,60
19,2,10060,20
21,20,10050,40
21,2,10060,10
23,22,10040,60
24,4,10030,100
"%string.

Definition iceberg_scenario : string := "event_type,order_id,side,order_type,price,quantity,peak_qty,stop_price,timestamp
NEW,1,SELL,ICEBERG,10050,500,100,0,1700000000000000000
NEW,2,SELL,LIMIT,10060,200,0,0,1700000000000001000
NEW,3,BUY,LIMIT,10040,150,0,0,1700000000000002000
NEW,4,BUY,LIMIT,10030,100,0,0,1700000000000003000
NEW,5,BUY,LIMIT,10050,100,0,0,1700000000000004000
NEW,6,BUY,LIMIT,10050,100,0,0,1700000000000005000
NEW,7,BUY,LIMIT,10050,100,0,0,1700000000000006000
NEW,8,SELL,LIMIT,10050,50,0,0,1700000000000007000
NEW,9,BUY,ICEBERG,10040,300,60,0,1700000000000008000
NEW,10,SELL,LIMIT,10040,80,0,0,1700000000000009000
NEW,11,BUY,LIMIT,10050,100,0,0,1700000000000010000
NEW,12,BUY,LIMIT,10050,100,0,0,1700000000000011000
NEW,13,SELL,LIMIT,10050,50,0,0,1700000000000012000
NEW,14,BUY,LIMIT,10060,150,0,0,1700000000000013000
NEW,15,SELL,ICEBERG,10055,400,80,0,1700000000000014000
NEW,16,BUY,LIMIT,10055,100,0,0,1700000000000015000
NEW,17,BUY,LIMIT,10055,100,0,0,1700000000000016000
NEW,18,SELL,LIMIT,10040,100,0,0,1700000000000017000
NEW,19,BUY,MARKET,0,200,0,0,1700000000000018000
NEW,20,SELL,LIMIT,10050,80,0,0,1700000000000019000
"%string.

Definition iceberg_scenario_expected : string := "aggressor_id,passive_id,price,quantity
5,1,10050,100
6,1,10050,100
7,1,10050,100
10,3,10040,80
11,1,10050,100
12,8,10050,50
12,1,10050,50
14,1,10050,50
14,13,10050,50
14,2,10060,50
16,15,10055,80
16,15,10055,20
17,15,10055,60
17,15,10055,40
18,3,10040,70
18,9,10040,30
19,15,10055,40
19,15,10055,80
19,15,10055,80
"%string.

Definition basic_limit : string := "event_type,order_id,side,order_type,price,quantity,peak_qty,stop_price,timestamp
NEW,1,SELL,LIMIT,10050,100,0,0,1700000000000000000
NEW,2,SELL,LIMIT,10060,50,0,0,1700000000000001000
NEW,3,SELL,LIMIT,10070,80,0,0,1700000000000002000
NEW,4,BUY,LIMIT,10040,100,0,0,1700000000000003000
NEW,5,BUY,LIMIT,10030,50,0,0,1700000000000004000
NEW,6,BUY,LIMIT,10020,80,0,0,1700000000000005000
NEW,7,BUY,LIMIT,10050,60,0,0,1700000000000006000
NEW,8,BUY,LIMIT,10050,40,0,0,1700000000000007000
NEW,9,SELL,LIMIT,10040,70,0,0,1700000000000008000
NEW,10,SELL,LIMIT,10040,30,0,0,1700000000000009000
NEW,11,BUY,LIMIT,10060,50,0,0,1700000000000010000
NEW,12,SELL,LIMIT,10030,40,0,0,1700000000000011000
NEW,13,BUY,LIMIT,10070,80,0,0,1700000000000012000
NEW,14,SELL,LIMIT,10020,60,0,0,1700000000000013000
NEW,15,BUY,LIMIT,10050,20,0,0,1700000000000014000
NEW,16,SELL,LIMIT,10040,10,0,0,1700000000000015000
NEW,17,BUY,LIMIT,10060,30,0,0,1700000000000016000
NEW,18,SELL,LIMIT,10050,50,0,0,1700000000000017000
NEW,19,BUY,LIMIT,10050,50,0,0,1700000000000018000
NEW,20,SELL,LIMIT,10040,20,0,0,1700000000000019000
"%string.

Definition basic_limit_expected : string := "aggressor_id,passive_id,price,quantity
7,1,10050,60
8,1,10050,40
9,4,10040,70
10,4,10040,30
11,2,10060,50
12,5,10030,40
13,3,10070,80
14,5,10030,10
14,6,10020,50
16,15,10050,10
18,17,10060,30
18,15,10050,10
19,18,10050,10
20,19,10050,20
"%string.

Definition stop_trigger : string := "event_type,order_id,side,order_type,price,quantity,peak_qty,stop_price,timestamp
NEW,1,SELL,LIMIT,10050,100,0,0,1700000000000000000
NEW,2,BUY,LIMIT,10040,100,0,0,1700000000000001000
NEW,3,SELL,LIMIT,10060,50,0,0,1700000000000002000
NEW,4,BUY,LIMIT,10050,50,0,0,1700000000000003000
NEW,5,BUY,LIMIT,10040,50,0,0,1700000000000004000
NEW,100,BUY,STOP,0,30,0,10050,1700000000000005000
NEW,101,SELL,STOP,0,20,0,10040,1700000000000006000
NEW,6,SELL,LIMIT,10040,80,0,0,1700000000000007000
NEW,7,SELL,LIMIT,10050,50,0,0,1700000000000008000
NEW,8,BUY,LIMIT,10060,100,0,0,1700000000000009000
"%string.

Definition stop_trigger_expected : string := "aggressor_id,passive_id,price,quantity
4,1,10050,50
100,1,10050,30
6,2,10040,80
101,2,10040,20
8,1,10050,20
8,7,10050,50
8,3,10060,30
"%string.

(** The exit code of the replay tool on an event file and an expected file. *)
Definition replay_tool (fuel : nat) (events expected : string) : res Z :=
  '(_, lines) ← replay fuel events;
  compare_expected lines expected.

(** On each of the five event files of the repository the replay tool
    exits with success: the engine's trades are the expected ones. *)
Theorem scenarios_pass :
  map (fun '(events, expected) => replay_tool 200 events expected)
    [(small_market, small_market_expected); (stop_scenario, stop_scenario_expected);
     (iceberg_scenario, iceberg_scenario_expected); (basic_limit, basic_limit_expected);
     (stop_trigger, stop_trigger_expected)] = [Ok 0; Ok 0; Ok 0; Ok 0; Ok 0].
Proof. vm_compute. reflexivity. Qed.
