(* ===== verification/Ring.v ===== *)
(** * Ring: single-producer single-consumer ring buffers

    Model of [src/src/core/spsc_queue.hpp] and of the ring buffers with the
    same layout in [EventDispatcher], [ReplayLogger], [Logger] and the inbound
    queue of [Gateway]: a buffer of [2^k] slots, a head and a tail index that
    advance modulo the capacity, one slot left free. Here each call is one
    step; [RingThreads] splits the calls into their memory accesses. *)

From S2P Require Import Prelude.

(** ** The interface of a bounded queue

    What the clients rely on: [enqueue] reports whether it accepted the item,
    [dequeue] whether there was one; [holds q l] says that [q] holds the items
    [l], oldest first. *)
Class BoundedQueue (Q A : Type) := {
  enqueue : A -> Q -> bool * Q;
  dequeue : Q -> option A * Q;
  room : Q -> nat;
  holds : Q -> list A -> Prop;
}.
Class BoundedQueueLaws (Q A : Type) `{BoundedQueue Q A} := {
  holds_bounded q l : holds q l -> (length l <= room q)%nat;
  enqueue_holds a q l : holds q l ->
    if decide (length l = room q) then enqueue a q = (false, q)
    else exists q', enqueue a q = (true, q') /\ holds q' (l ++ [a]) /\ room q' = room q;
  dequeue_holds q l : holds q l ->
    match l with
    | [] => dequeue q = (None, q)
    | a :: l' => exists q', dequeue q = (Some a, q') /\ holds q' l' /\ room q' = room q
    end;
}.

(** ** The ring *)

(** [rg_width] is the width of the index type: 64 bits for [std::size_t], 32
    for [uint32_t]. *)
Record ring (A : Type) := mkRing {
  rg_width : Z;
  rg_mask : Z;
  rg_head : Z;
  rg_tail : Z;
  rg_buffer : list A;
}.
Arguments mkRing {A}.
Arguments rg_width {A}.
Arguments rg_mask {A}.
Arguments rg_head {A}.
Arguments rg_tail {A}.
Arguments rg_buffer {A}.

Section ring.
Context {A : Type}.
Implicit Types (q : ring A) (a : A) (l : list A).

(** A ring of [capacity] default-initialised slots. *)
Definition ring_new (width : Z) (capacity : Z) (a : A) : ring A :=
  mkRing width (capacity - 1) 0 0 (replicate (Z.to_nat capacity) a).

(** [(i + 1) & mask_] in the index type. *)
Definition next_index q (i : Z) : Z := Z.land ((i + 1) mod 2 ^ rg_width q) (rg_mask q).

Definition push a q : bool * ring A :=
  let next_tail := next_index q (rg_tail q) in
  if decide (next_tail = rg_head q) then (false, q)
  else (true, mkRing (rg_width q) (rg_mask q) (rg_head q) next_tail
                (<[Z.to_nat (rg_tail q) := a]> (rg_buffer q))).

Definition pop q : option A * ring A :=
  if decide (rg_head q = rg_tail q) then (None, q)
  else (rg_buffer q !! Z.to_nat (rg_head q),
        mkRing (rg_width q) (rg_mask q) (next_index q (rg_head q)) (rg_tail q) (rg_buffer q)).

Definition ring_empty q : bool := bool_decide (rg_head q = rg_tail q).

(** [Capacity], one more than can be stored. *)
Definition ring_capacity q : Z := rg_mask q + 1.

(** ** Well-formed rings and their contents *)

(** The mask has [k] bits, fewer than the index type. *)
Definition ring_wf q : Prop :=
  exists k, 0 <= k <= rg_width q /\ rg_mask q = 2 ^ k - 1 /\
    Z.of_nat (length (rg_buffer q)) = 2 ^ k.

(** After [h] removals the ring holds [l]: item number [i] of all time is in
    slot [i mod capacity]. *)
Definition repr q (h : Z) (l : list A) : Prop :=
  0 <= h /\ rg_head q = h mod ring_capacity q /\
  rg_tail q = (h + Z.of_nat (length l)) mod ring_capacity q /\
  Z.of_nat (length l) < ring_capacity q /\
  forall i a, l !! i = Some a ->
    rg_buffer q !! Z.to_nat ((h + Z.of_nat i) mod ring_capacity q) = Some a.

Definition ring_holds q l : Prop := ring_wf q /\ exists h, repr q h l.

Lemma ring_capacity_pos q : ring_wf q -> 0 < ring_capacity q.
Proof. intros (k & Hk & Hm & _). unfold ring_capacity. rewrite Hm. pose proof (Z.pow_pos_nonneg 2 k). lia. Qed.

Lemma ring_capacity_length q : ring_wf q -> Z.of_nat (length (rg_buffer q)) = ring_capacity q.
Proof. intros (k & Hk & Hm & Hl). unfold ring_capacity. lia. Qed.

(** The masked increment is the increment modulo the capacity. *)
Lemma next_index_mod q i : ring_wf q -> next_index q (i mod ring_capacity q) = (i + 1) mod ring_capacity q.
Proof.
  intros (k & Hk & Hm & _). unfold next_index, ring_capacity. rewrite Hm.
  replace (2 ^ k - 1 + 1) with (2 ^ k) by lia.
  replace (2 ^ k - 1) with (Z.ones k) by (rewrite Z.ones_equiv; lia). rewrite Z.land_ones by lia.
  assert (0 < 2 ^ k) by (apply Z.pow_pos_nonneg; lia).
  assert (0 < 2 ^ rg_width q) by (apply Z.pow_pos_nonneg; lia).
  rewrite Z.mod_mod_divide; [by rewrite Zplus_mod_idemp_l|].
  exists (2 ^ (rg_width q - k)). rewrite <- Z.pow_add_r by lia. f_equal. lia.
Qed.

(** Two positions less than the capacity apart are in different slots. *)
Lemma mod_ne (n a b : Z) : 0 < n -> a < b -> b - a < n -> a mod n <> b mod n.
Proof.
  intros Hn Hab Hlt Heq.
  pose proof (Z.div_mod a n ltac:(lia)) as Ha. pose proof (Z.div_mod b n ltac:(lia)) as Hb.
  assert (n * (b / n - a / n) = b - a) as Hd by lia.
  assert (0 < b / n - a / n) by nia. nia.
Qed.

Lemma mod_slot (n a b : Z) : 0 < n -> 0 <= a -> a < b -> b - a < n -> Z.to_nat (a mod n) <> Z.to_nat (b mod n).
Proof.
  intros Hn Ha Hab Hlt Heq. pose proof (Z.mod_pos_bound a n Hn). pose proof (Z.mod_pos_bound b n Hn).
  apply (mod_ne n a b); lia.
Qed.

(** Writing the free slot at the tail. *)
Lemma repr_write q h l a :
  ring_wf q -> repr q h l -> Z.of_nat (length l) + 1 < ring_capacity q ->
  repr (mkRing (rg_width q) (rg_mask q) (rg_head q) ((h + Z.of_nat (length l) + 1) mod ring_capacity q)
    (<[Z.to_nat (rg_tail q) := a]> (rg_buffer q))) h (l ++ [a]).
Proof.
  intros Hwf (Hh & Hhd & Htl & Hlen & Hbuf) Hroom. pose proof (ring_capacity_pos q Hwf) as Hpos.
  unfold repr, ring_capacity in *. simpl. split_ands; try done.
  - rewrite length_app. simpl. f_equal. lia.
  - rewrite length_app. simpl. lia.
  - intros i b Hi. rewrite Htl. apply lookup_app_Some in Hi as [Hi|[Hi Hb]].
    + pose proof (lookup_lt_Some _ _ _ Hi). rewrite list_lookup_insert_ne; [by apply Hbuf|].
      apply not_eq_sym, mod_slot; lia.
    + apply list_lookup_singleton_Some in Hb as [Hi0 ->].
      replace (Z.of_nat i) with (Z.of_nat (length l)) by lia.
      apply list_lookup_insert_eq. pose proof (ring_capacity_length q Hwf) as Hl.
      unfold ring_capacity in Hl.
      pose proof (Z.mod_pos_bound (h + Z.of_nat (length l)) (rg_mask q + 1) Hpos). lia.
Qed.

Lemma push_full a q h l :
  ring_wf q -> repr q h l ->
  (next_index q (rg_tail q) = rg_head q <-> Z.of_nat (length l) = ring_capacity q - 1).
Proof.
  intros Hwf (Hh & Hhd & Htl & Hlen & _). pose proof (ring_capacity_pos q Hwf) as Hpos.
  rewrite Hhd, Htl, next_index_mod by done. split; intros Heq.
  - destruct (decide (Z.of_nat (length l) = ring_capacity q - 1)); [done|]. exfalso. symmetry in Heq.
    revert Heq. apply mod_ne; lia.
  - rewrite Heq. replace (h + (ring_capacity q - 1) + 1) with (h + 1 * ring_capacity q) by lia.
    by apply Z.mod_add; lia.
Qed.

Lemma push_repr a q h l :
  ring_wf q -> repr q h l ->
  if decide (Z.of_nat (length l) = ring_capacity q - 1) then push a q = (false, q)
  else exists q', push a q = (true, q') /\ ring_wf q' /\ repr q' h (l ++ [a]) /\
    ring_capacity q' = ring_capacity q.
Proof.
  intros Hwf Hr. pose proof (push_full a q h l Hwf Hr) as Hfull. unfold push.
  destruct (decide (Z.of_nat (length l) = _)) as [Hl|Hl].
  - by rewrite decide_True by by apply Hfull.
  - rewrite decide_False by tauto. eexists. split; [done|]. split_ands.
    + destruct Hwf as (k & ? & ? & ?). exists k. simpl. by rewrite length_insert.
    + pose proof Hr as (Hh & Hhd & Htl & Hlen & _). rewrite Htl at 1. rewrite next_index_mod by done.
      apply repr_write; [done|done|lia].
    + done.
Qed.

Lemma pop_repr q h l :
  ring_wf q -> repr q h l ->
  match l with
  | [] => pop q = (None, q)
  | a :: l' => exists q', pop q = (Some a, q') /\ ring_wf q' /\ repr q' (h + 1) l' /\
      ring_capacity q' = ring_capacity q
  end.
Proof.
  intros Hwf (Hh & Hhd & Htl & Hlen & Hbuf). pose proof (ring_capacity_pos q Hwf) as Hpos. unfold pop.
  destruct l as [|a l].
  - rewrite decide_True; [done|]. rewrite Hhd, Htl. simpl. f_equal. lia.
  - simpl in *. rewrite decide_False by (rewrite Hhd, Htl; apply mod_ne; lia).
    pose proof (Hbuf O a eq_refl) as H0. replace (h + Z.of_nat 0) with h in H0 by lia.
    rewrite <- Hhd in H0. rewrite H0.
    eexists. split; [done|]. split_ands.
    + destruct Hwf as (k & ? & ? & ?). by exists k.
    + unfold repr, ring_capacity in *. simpl. split_ands; try lia.
      * rewrite Hhd. by apply next_index_mod.
      * rewrite Htl. f_equal. lia.
      * intros i b Hi. rewrite <- (Hbuf (S i) b Hi). f_equal. f_equal. f_equal. lia.
    + done.
Qed.

Lemma ring_new_holds width k a :
  0 <= k <= width -> ring_holds (ring_new width (2 ^ k) a) [].
Proof.
  intros Hk. assert (0 < 2 ^ k) by (apply Z.pow_pos_nonneg; lia). split.
  - exists k. simpl. split_ands; [lia..|]. rewrite length_replicate. lia.
  - exists 0. unfold repr, ring_capacity. simpl. split_ands; try done; try lia.
    all: by rewrite Z.mod_0_l by lia.
Qed.

(** ** The ring is a bounded queue *)

#[global] Instance ring_queue : BoundedQueue (ring A) A := {
  enqueue := push;
  dequeue := pop;
  room q := Z.to_nat (ring_capacity q - 1);
  holds := ring_holds;
}.

#[global] Instance ring_queue_laws : BoundedQueueLaws (ring A) A.
Proof.
  split; simpl.
  - intros q l [Hwf (h & _ & _ & _ & Hlen & _)]. lia.
  - intros a q l [Hwf (h & Hr)]. pose proof (push_repr a q h l Hwf Hr) as Hp.
    pose proof (ring_capacity_pos q Hwf).
    destruct (decide (length l = Z.to_nat (ring_capacity q - 1))) as [Hl|Hl].
    + by rewrite decide_True in Hp by lia.
    + rewrite decide_False in Hp by lia. destruct Hp as (q' & Heq & Hwf' & Hr' & Hc).
      exists q'. split_ands; [done| |by rewrite Hc]. split; [done|]. by exists h.
  - intros q l [Hwf (h & Hr)]. pose proof (pop_repr q h l Hwf Hr) as Hp.
    destruct l as [|a l]; [done|]. destruct Hp as (q' & Heq & Hwf' & Hr' & Hc).
    exists q'. split_ands; [done| |by rewrite Hc]. split; [done|]. by exists (h + 1).
Qed.
End ring.

(** ** Sequences of calls *)

Section runs.
Context {Q A : Type} `{BoundedQueueLaws Q A}.

Inductive call := Put (a : A) | Take.
Inductive answer := Accepted (ok : bool) | Taken (item : option A).

Definition call_queue (c : call) (q : Q) : answer * Q :=
  match c with
  | Put a => let '(ok, q) := enqueue a q in (Accepted ok, q)
  | Take => let '(x, q) := dequeue q in (Taken x, q)
  end.

(** The specification: a list with at most [n] items. *)
Definition call_fifo (n : nat) (c : call) (l : list A) : answer * list A :=
  match c with
  | Put a => if decide (length l = n) then (Accepted false, l) else (Accepted true, l ++ [a])
  | Take => match l with [] => (Taken None, []) | a :: l => (Taken (Some a), l) end
  end.

Fixpoint run_calls {S} (step : call -> S -> answer * S) (cs : list call) (s : S) : list answer * S :=
  match cs with
  | [] => ([], s)
  | c :: cs =>
      let '(r, s) := step c s in
      let '(rs, s) := run_calls step cs s in (r :: rs, s)
  end.

Lemma call_refines n c (q : Q) l :
  holds q l -> room q = n ->
  (call_queue c q).1 = (call_fifo n c l).1 /\
  holds (call_queue c q).2 (call_fifo n c l).2 /\ room (call_queue c q).2 = n.
Proof.
  intros Hl <-. destruct c as [a|]; simpl.
  - pose proof (enqueue_holds a q l Hl) as He. case_decide; [by rewrite He|].
    destruct He as (q' & -> & ? & ?). done.
  - pose proof (dequeue_holds q l Hl) as Hd. destruct l as [|a l]; [by rewrite Hd|].
    destruct Hd as (q' & -> & ? & ?). done.
Qed.

Lemma calls_refine n cs (q : Q) l :
  holds q l -> room q = n ->
  (run_calls call_queue cs q).1 = (run_calls (call_fifo n) cs l).1 /\
  holds (run_calls call_queue cs q).2 (run_calls (call_fifo n) cs l).2.
Proof.
  revert q l. induction cs as [|c cs IH]; intros q l Hl Hn; [done|]. simpl.
  destruct (call_refines n c q l Hl Hn) as (Ha & Hl' & Hn').
  destruct (call_queue c q) as [r q'], (call_fifo n c l) as [r' l']. simpl in *. subst r'.
  destruct (IH q' l' Hl' Hn') as [Heq Hfin].
  destruct (run_calls call_queue cs q'), (run_calls (call_fifo n) cs l'). simpl in *. by subst.
Qed.
End runs.
Arguments call : clear implicits.
Arguments answer : clear implicits.

(** C30. A ring of [2^k] slots, with indices of [width] bits, answers every
    sequence of pushes and pops as a FIFO queue of at most [2^k - 1] items
    does: a push is refused exactly when that many items are stored, a pop
    returns the oldest item; wrap-around is never observable. *)
Theorem spsc_refines_bounded_fifo {A} width k (d : A) (cs : list (call A)) :
  0 <= k <= width ->
  (run_calls call_queue cs (ring_new width (2 ^ k) d)).1 =
  (run_calls (call_fifo (Z.to_nat (2 ^ k - 1))) cs []).1.
Proof.
  intros Hk. apply calls_refine; [by apply ring_new_holds|]. simpl. f_equal. unfold ring_capacity. simpl. lia.
Qed.

Lemma spsc_refines_bounded_fifo_witness :
  (run_calls call_queue [Put 1; Put 2; Take; Put 3; Take; Take; Take] (ring_new 64 (2 ^ 1) 0)).1 =
  [Accepted true; Accepted false; Taken (Some 1); Accepted true; Taken (Some 3); Taken None; Taken None].
Proof. etrans; [apply (spsc_refines_bounded_fifo 64 1 0); lia|reflexivity]. Defined.
