(* ===== verification/RingThreads.v ===== *)
(** * RingThreads: the rings under concurrent access

    One producer and one consumer thread run the bodies of [push] and [pop]
    one atomic access at a time, in every interleaving (as
    sequentially consistent steps; [RingMemory] has the weaker memory orders of
    the source). The consumers of [SpscQueue],
    [EventDispatcher], [Logger] and [Gateway] read the slot and then advance
    the head; the writer of [ReplayLogger] advances the head first and reads
    the slot afterwards. Both are covered. *)

From S2P Require Import Prelude Ring.

Section threads.
Context {A : Type}.
Implicit Types (q : ring A) (a : A) (l pre : list A) (h : Z).

(** Where the producer is in [push]. *)
Inductive producer :=
| PIdle
| PTail (a : A) (tail next_tail : Z)   (* tail_ loaded *)
| PRoom (a : A) (tail next_tail : Z)   (* head_ loaded, there is room *)
| PWritten (a : A) (next_tail : Z).    (* slot written *)

(** Where the consumer is in [pop]. *)
Inductive consumer :=
| CIdle
| CHead (head : Z)            (* head_ loaded *)
| CReady (head : Z)           (* tail_ loaded, there is an item *)
| CRead (head : Z) (a : A)    (* slot read, head_ not yet stored *)
| CReleased (head : Z).       (* head_ stored, slot not yet read *)

(** [accepted] and [delivered] record the items of all completed calls. *)
Record threads := mkThreads {
  th_ring : ring A;
  th_prod : producer;
  th_cons : consumer;
  accepted : list A;
  delivered : list A;
  dropped : nat;
}.

Definition set_head (i : Z) (q : ring A) : ring A :=
  mkRing (rg_width q) (rg_mask q) i (rg_tail q) (rg_buffer q).
Definition set_tail (i : Z) (q : ring A) : ring A :=
  mkRing (rg_width q) (rg_mask q) (rg_head q) i (rg_buffer q).
Definition set_slot (i : Z) (a : A) (q : ring A) : ring A :=
  mkRing (rg_width q) (rg_mask q) (rg_head q) (rg_tail q) (<[Z.to_nat i := a]> (rg_buffer q)).

(** One memory access of one thread. *)
Inductive tstep : threads -> threads -> Prop :=
| t_load_tail q c i o d a :
    tstep (mkThreads q PIdle c i o d)
      (mkThreads q (PTail a (rg_tail q) (next_index q (rg_tail q))) c i o d)
| t_full q c i o d a t n :
    n = rg_head q ->
    tstep (mkThreads q (PTail a t n) c i o d) (mkThreads q PIdle c i o (S d))
| t_room q c i o d a t n :
    n <> rg_head q ->
    tstep (mkThreads q (PTail a t n) c i o d) (mkThreads q (PRoom a t n) c i o d)
| t_write q c i o d a t n :
    tstep (mkThreads q (PRoom a t n) c i o d) (mkThreads (set_slot t a q) (PWritten a n) c i o d)
| t_store_tail q c i o d a n :
    tstep (mkThreads q (PWritten a n) c i o d) (mkThreads (set_tail n q) PIdle c (i ++ [a]) o d)
| t_load_head q p i o d :
    tstep (mkThreads q p CIdle i o d) (mkThreads q p (CHead (rg_head q)) i o d)
| t_none q p i o d h :
    h = rg_tail q ->
    tstep (mkThreads q p (CHead h) i o d) (mkThreads q p CIdle i o d)
| t_some q p i o d h :
    h <> rg_tail q ->
    tstep (mkThreads q p (CHead h) i o d) (mkThreads q p (CReady h) i o d)
| t_read q p i o d h a :
    rg_buffer q !! Z.to_nat h = Some a ->
    tstep (mkThreads q p (CReady h) i o d) (mkThreads q p (CRead h a) i o d)
| t_store_head q p i o d h a :
    tstep (mkThreads q p (CRead h a) i o d)
      (mkThreads (set_head (next_index q h) q) p CIdle i (o ++ [a]) d)
| t_release q p i o d h :
    tstep (mkThreads q p (CReady h) i o d)
      (mkThreads (set_head (next_index q h) q) p (CReleased h) i o d)
| t_read_released q p i o d h a :
    rg_buffer q !! Z.to_nat h = Some a ->
    tstep (mkThreads q p (CReleased h) i o d) (mkThreads q p CIdle i (o ++ [a]) d).

(** ** Invariant

    [l] are the items between the head and the tail, [h] the number of items
    released so far. *)

Definition producer_inv (q : ring A) (l : list A) (p : producer) : Prop :=
  match p with
  | PIdle => True
  | PTail _ t n => t = rg_tail q /\ n = next_index q (rg_tail q)
  | PRoom _ t n =>
      t = rg_tail q /\ n = next_index q (rg_tail q) /\ Z.of_nat (length l) + 1 < ring_capacity q
  | PWritten a n =>
      n = next_index q (rg_tail q) /\ Z.of_nat (length l) + 1 < ring_capacity q /\
      rg_buffer q !! Z.to_nat (rg_tail q) = Some a
  end.

(** The consumer's view; [pre] is the item it released and has not read yet. *)
Definition consumer_inv (q : ring A) (h : Z) (l : list A) (c : consumer) (pre : list A) : Prop :=
  match c with
  | CIdle => pre = []
  | CHead i => i = rg_head q /\ pre = []
  | CReady i => i = rg_head q /\ pre = [] /\ l <> []
  | CRead i a => i = rg_head q /\ pre = [] /\ head l = Some a
  | CReleased i =>
      exists a, pre = [a] /\ i = (h - 1) mod ring_capacity q /\ 0 <= h - 1 /\
        rg_buffer q !! Z.to_nat i = Some a
  end.

Definition threads_inv (s : threads) : Prop :=
  exists l pre, let h := Z.of_nat (length (delivered s ++ pre)) in
    ring_wf (th_ring s) /\ repr (th_ring s) h l /\
    accepted s = delivered s ++ pre ++ l /\
    producer_inv (th_ring s) l (th_prod s) /\ consumer_inv (th_ring s) h l (th_cons s) pre.

(** The race: the producer is about to write the slot that the consumer is
    about to read. *)
Definition race (s : threads) : Prop :=
  exists a t n h, th_prod s = PRoom a t n /\ (th_cons s = CReady h \/ th_cons s = CReleased h) /\
    Z.to_nat t = Z.to_nat h.

Lemma set_slot_wf i a q : ring_wf q -> ring_wf (set_slot i a q).
Proof. intros (k & ? & ? & ?). exists k. simpl. by rewrite length_insert. Qed.

(** The slot at the tail is not between head and tail, nor just before the
    head. *)
Lemma free_slot q h l p :
  ring_wf q -> repr q h l -> Z.of_nat (length l) + 1 < ring_capacity q -> 0 <= p ->
  h - 1 <= p < h + Z.of_nat (length l) ->
  Z.to_nat (p mod ring_capacity q) <> Z.to_nat (rg_tail q).
Proof.
  intros Hwf (Hh & _ & Htl & _) Hroom Hp Hpl. pose proof (ring_capacity_pos q Hwf).
  rewrite Htl. apply mod_slot; lia.
Qed.

Lemma write_repr q h l a :
  ring_wf q -> repr q h l -> Z.of_nat (length l) + 1 < ring_capacity q ->
  repr (set_slot (rg_tail q) a q) h l.
Proof.
  intros Hwf Hr Hroom. pose proof Hr as (Hh & Hhd & Htl & Hlen & Hbuf).
  split_ands; try done. unfold repr. split_ands; try done. intros i x Hi. simpl.
  rewrite list_lookup_insert_ne; [by apply Hbuf|]. apply not_eq_sym.
  apply lookup_lt_Some in Hi. apply (free_slot q h l); try done; lia.
Qed.

Lemma write_lookup q h l a :
  ring_wf q -> repr q h l -> rg_buffer (set_slot (rg_tail q) a q) !! Z.to_nat (rg_tail q) = Some a.
Proof.
  intros Hwf (Hh & _ & Htl & _). simpl. apply list_lookup_insert_eq.
  pose proof (ring_capacity_pos q Hwf) as Hpos. pose proof (ring_capacity_length q Hwf).
  pose proof (Z.mod_pos_bound (h + Z.of_nat (length l)) _ Hpos). lia.
Qed.

(** Publishing the written slot. *)
Lemma store_tail_repr q h l a :
  ring_wf q -> repr q h l -> Z.of_nat (length l) + 1 < ring_capacity q ->
  rg_buffer q !! Z.to_nat (rg_tail q) = Some a ->
  repr (set_tail (next_index q (rg_tail q)) q) h (l ++ [a]).
Proof.
  intros Hwf Hr Hroom Ha. pose proof (repr_write q h l a Hwf Hr Hroom) as Hw.
  rewrite list_insert_id in Hw by done. pose proof Hr as (_ & _ & Htl & _).
  unfold set_tail. rewrite Htl at 1. by rewrite next_index_mod.
Qed.

Lemma pop_head_repr q h a l :
  ring_wf q -> repr q h (a :: l) ->
  repr (set_head (next_index q (rg_head q)) q) (h + 1) l /\
  rg_buffer q !! Z.to_nat (rg_head q) = Some a /\ rg_head q <> rg_tail q.
Proof.
  intros Hwf Hr. pose proof (pop_repr q h (a :: l) Hwf Hr) as (q' & Hp & _ & Hr' & _).
  unfold pop in Hp. case_decide; [done|]. injection Hp as Ha <-. done.
Qed.

Lemma empty_head q h : repr q h [] -> rg_head q = rg_tail q.
Proof. intros (_ & -> & -> & _). simpl. f_equal. lia. Qed.

Lemma head_bounds q h l : repr q h l -> rg_head q = h mod ring_capacity q.
Proof. by intros (_ & ? & _). Qed.

(** The producer's view survives the consumer's steps, which only shrink
    [l]. *)
Lemma producer_inv_head q i l l' p :
  (length l' <= length l)%nat -> producer_inv q l p -> producer_inv (set_head i q) l' p.
Proof. intros Hl. destruct p; simpl; unfold ring_capacity; simpl; intuition lia. Qed.

(** The consumer's view survives the producer's steps. *)
Lemma consumer_inv_write q h l c pre a :
  ring_wf q -> repr q h l -> Z.of_nat (length l) + 1 < ring_capacity q ->
  consumer_inv q h l c pre -> consumer_inv (set_slot (rg_tail q) a q) h l c pre.
Proof.
  intros Hwf Hr Hroom. destruct c; simpl; try done.
  intros (x & -> & -> & Hh & Hx). exists x. split_ands; try done.
  rewrite list_lookup_insert_ne; [done|]. apply not_eq_sym. apply (free_slot q h l); try done. lia.
Qed.

Lemma consumer_inv_tail q h l c pre i a :
  consumer_inv q h l c pre -> consumer_inv (set_tail i q) h (l ++ [a]) c pre.
Proof.
  destruct c; simpl; try done.
  - intros (? & ? & ?). split_ands; try done. by destruct l.
  - intros (? & ? & ?). split_ands; try done. by destruct l.
Qed.

Lemma tstep_inv s s' : tstep s s' -> threads_inv s -> threads_inv s'.
Proof.
  intros Hstep (l & pre & Hwf & Hr & Hacc & Hp & Hc). unfold threads_inv.
  destruct Hstep; simpl in *.
  - exists l, pre. by split_ands.
  - exists l, pre. by split_ands.
  - exists l, pre. destruct Hp as [-> ->]. split_ands; try done.
    pose proof (push_full a q _ l Hwf Hr) as Hf. pose proof Hr as (_ & _ & _ & Hlen & _). lia.
  - exists l, pre. destruct Hp as (-> & -> & Hroom). split_ands; try done.
    + by apply set_slot_wf.
    + by apply write_repr.
    + by eapply write_lookup.
    + by apply consumer_inv_write.
  - exists (l ++ [a]), pre. destruct Hp as (-> & Hroom & Ha). split_ands; try done.
    + by apply store_tail_repr.
    + by rewrite Hacc, <- !app_assoc.
    + by apply consumer_inv_tail.
  - exists l, pre. by split_ands.
  - exists l, pre. destruct Hc as [_ ->]. by split_ands.
  - exists l, pre. destruct Hc as [-> ->]. split_ands; try done.
    intros ->. by apply H, (empty_head _ _ Hr).
  - exists l, pre. destruct Hc as (-> & -> & Hne). split_ands; try done.
    destruct l as [|b l]; [done|]. destruct (pop_head_repr _ _ _ _ Hwf Hr) as (_ & Hb & _). simpl. congruence.
  - destruct Hc as (-> & -> & Hhd). destruct l as [|b l]; [done|]. injection Hhd as ->.
    destruct (pop_head_repr _ _ _ _ Hwf Hr) as (Hr' & _ & _). exists l, [].
    rewrite !app_nil_r in *. rewrite length_app. simpl in *. split_ands; try done.
    + replace (Z.of_nat (length o + 1)) with (Z.of_nat (length o) + 1) by lia. done.
    + by rewrite Hacc, <- app_assoc.
    + eapply producer_inv_head; [|done]. simpl. lia.
  - destruct Hc as (-> & -> & Hne). destruct l as [|b l]; [done|].
    destruct (pop_head_repr _ _ _ _ Hwf Hr) as (Hr' & Hb & _). exists l, [b].
    rewrite !app_nil_r in *. rewrite length_app. simpl in *.
    replace (Z.of_nat (length o + 1)) with (Z.of_nat (length o) + 1) by lia. split_ands; try done.
    + eapply producer_inv_head; [|done]. simpl. lia.
    + exists b. rewrite (head_bounds _ _ _ Hr) in *. unfold ring_capacity. simpl. split_ands; try done; try lia.
      f_equal. lia.
  - destruct Hc as (b & -> & -> & Hh & Hb). assert (a = b) as -> by congruence.
    exists l, []. rewrite !app_nil_r in *. split_ands; try done. by rewrite Hacc, <- app_assoc.
Qed.

Lemma rtc_tstep_inv s s' : rtc tstep s s' -> threads_inv s -> threads_inv s'.
Proof. induction 1; eauto using tstep_inv. Qed.

Lemma rtc_tstep_mask s s' : rtc tstep s s' -> rg_mask (th_ring s') = rg_mask (th_ring s).
Proof. induction 1 as [|s1 s2 s3 Hs _ IH]; [done|]. rewrite IH. by destruct Hs. Qed.

Lemma inv_no_race s : threads_inv s -> ~ race s.
Proof.
  intros (l & pre & Hwf & Hr & _ & Hp & Hc) (a & t & n & i & Hprod & Hcons & Heq).
  rewrite Hprod in Hp. destruct Hp as (-> & _ & Hroom). symmetry in Heq. revert Heq.
  destruct Hcons as [Hcons|Hcons]; rewrite Hcons in Hc.
  - destruct Hc as (-> & -> & Hne). rewrite (head_bounds _ _ _ Hr).
    assert (0 < length l)%nat by (destruct l; simpl; [done|lia]).
    apply (free_slot _ _ _ _ Hwf Hr); lia.
  - destruct Hc as (b & -> & -> & Hh & _). apply (free_slot _ _ _ _ Hwf Hr); lia.
Qed.

Definition threads_init (q : ring A) : threads := mkThreads q PIdle CIdle [] [] 0.

Lemma threads_init_inv width k a :
  0 <= k <= width -> threads_inv (threads_init (ring_new width (2 ^ k) a)).
Proof.
  intros Hk. destruct (ring_new_holds width k a Hk) as [Hwf (h & Hr)]. exists [], [].
  simpl. split_ands; try done.
  pose proof Hr as (Hh & Hhd & Htl & Hlen & _). unfold repr in *. simpl in *.
  split_ands; try done; unfold ring_capacity in *; simpl in *; by rewrite Z.mod_0_l by lia.
Qed.
End threads.

(** In every interleaving of one producer and one consumer on a ring of
    [2^k] slots, the delivered items are the accepted ones in order, without
    loss or duplication, fewer than [2^k] are in flight, and producer and
    consumer never access the same slot at the same time, also when the
    consumer advances the head before it reads the slot. *)
Theorem ring_threads_safe {A} width k (d : A) s :
  0 <= k <= width -> rtc tstep (threads_init (ring_new width (2 ^ k) d)) s ->
  (exists flight, accepted s = delivered s ++ flight /\ Z.of_nat (length flight) <= 2 ^ k) /\ ~ race s.
Proof.
  intros Hk Hs. pose proof (rtc_tstep_inv _ _ Hs (threads_init_inv width k d Hk)) as Hinv.
  split; [|by apply inv_no_race]. destruct Hinv as (l & pre & Hwf & Hr & Hacc & _ & Hc).
  exists (pre ++ l). split; [done|].
  assert (ring_capacity (th_ring s) = 2 ^ k) as Hcap.
  { unfold ring_capacity. rewrite (rtc_tstep_mask _ _ Hs). simpl. lia. }
  destruct Hr as (_ & _ & _ & Hlen & _). rewrite length_app.
  assert (length pre <= 1)%nat; [|lia].
  destruct (th_cons s); simpl in Hc; destruct_and?; destruct_or?; subst; simpl; try lia.
  destruct Hc as (x & -> & _). simpl. lia.
Qed.

(** A ring of two slots in which the consumer has released its slot and the
    producer has found no room for a second item. *)
Lemma ring_threads_safe_witness :
  let s := mkThreads (mkRing 64 1 1 1 [7; 0]) PIdle (CReleased 0) [7] [] 1 in
  rtc tstep (threads_init (ring_new 64 (2 ^ 1) 0)) s /\ ~ race s.
Proof.
  intros s. assert (rtc tstep (threads_init (ring_new 64 (2 ^ 1) 0)) s) as Hs.
  { eapply rtc_l; [apply (t_load_tail _ _ _ _ _ 7)|].
    eapply rtc_l; [apply t_room; vm_compute; discriminate|].
    eapply rtc_l; [apply t_write|]. eapply rtc_l; [apply t_store_tail|].
    eapply rtc_l; [apply (t_load_tail _ _ _ _ _ 8)|].
    eapply rtc_l; [apply t_load_head|].
    eapply rtc_l; [apply t_full; vm_compute; reflexivity|].
    eapply rtc_l; [apply t_some; vm_compute; discriminate|].
    eapply rtc_l; [apply t_release|]. apply rtc_refl. }
  split; [exact Hs|]. apply (ring_threads_safe 64 1 0); [lia|exact Hs].
Defined.
