(* ===== verification/RingMemory.v ===== *)
(** * RingMemory: the rings in the C++ memory model

    [RingThreads] interleaves the memory accesses of [push] and [pop] on one
    shared memory. Here they run in the release/acquire fragment of the C++
    memory model, which is what the orders written in the source
    ([memory_order_relaxed], [_acquire], [_release]) guarantee: an atomic
    variable is the list of all values ever stored in it (its modification
    order), a load may return any of them that is not older than what the
    thread knows, an acquire load also learns what the thread that stored the
    value knew, and two accesses of a slot that are not ordered by
    happens-before are a data race, which is undefined behaviour.

    The same two loops are in [SpscQueue], [EventDispatcher], [ReplayLogger],
    [Logger] and [Gateway]; the writer of [ReplayLogger] advances the head
    before it reads the slot, the other consumers afterwards. *)

From S2P Require Import Prelude Ring.

(** ** Views and messages

    A view says how much a thread knows: the newest values of [head_] and
    [tail_] (positions in their modification orders), and how many slot
    accesses of the producer and of the consumer happen before its next
    step. *)
Record view := mkView {
  vw_head : nat;
  vw_tail : nat;
  vw_prod : nat;
  vw_cons : nat;
}.

Definition view_join (v w : view) : view :=
  mkView (vw_head v `max` vw_head w) (vw_tail v `max` vw_tail w)
    (vw_prod v `max` vw_prod w) (vw_cons v `max` vw_cons w).

(** Learning the position of a loaded or stored value. *)
Definition at_head (ts : nat) (v : view) : view := mkView ts (vw_tail v) (vw_prod v) (vw_cons v).
Definition at_tail (ts : nat) (v : view) : view := mkView (vw_head v) ts (vw_prod v) (vw_cons v).

(** One more access to a slot. *)
Definition tick_prod (v : view) : view := mkView (vw_head v) (vw_tail v) (S (vw_prod v)) (vw_cons v).
Definition tick_cons (v : view) : view := mkView (vw_head v) (vw_tail v) (vw_prod v) (S (vw_cons v)).

(** A stored value with what the storing thread knew (release). *)
Record message := mkMessage { msg_val : Z; msg_view : view }.

(** A load may return the message at [ts] if it is not older than the
    newest one the thread knows of. *)
Definition readable (hist : list message) (known ts : nat) (m : message) : Prop :=
  (known <= ts)%nat /\ hist !! ts = Some m.

(** A slot with the numbers of the last write (by the producer) and of the
    last read (by the consumer), 0 for none. *)
Record slot (A : Type) := mkSlot { sl_item : A; sl_write : nat; sl_read : nat }.
Arguments mkSlot {A}.
Arguments sl_item {A}.
Arguments sl_write {A}.
Arguments sl_read {A}.

Section memory.
Context {A : Type}.
Implicit Types (q : ring A) (a : A) (i o : list A) (v w : view) (hd tl : list message)
  (sl : list (slot A)).

(** ** The threads *)

(** Where the producer is in [push]. *)
Inductive push_pc :=
| PushIdle
| PushTail (a : A) (tail next_tail : Z)   (* tail_ loaded *)
| PushRoom (a : A) (tail next_tail : Z)   (* head_ loaded, there is room *)
| PushWritten (a : A) (next_tail : Z).    (* slot written *)

(** Where the consumer is in [pop]. *)
Inductive pop_pc :=
| PopIdle
| PopHead (head : Z)            (* head_ loaded *)
| PopReady (head : Z)           (* tail_ loaded, there is an item *)
| PopRead (head : Z) (a : A)    (* slot read, head_ not yet stored *)
| PopReleased (head : Z).       (* head_ stored, slot not yet read *)

Record machine := mkMachine {
  mc_head : list message;     (* modification order of head_ *)
  mc_tail : list message;     (* modification order of tail_ *)
  mc_slots : list (slot A);
  mc_push : push_pc;
  mc_push_view : view;
  mc_pop : pop_pc;
  mc_pop_view : view;
  mc_accepted : list A;       (* items of the completed calls *)
  mc_delivered : list A;
  mc_refused : nat;           (* pushes that found the ring full *)
  mc_missed : nat;            (* pops that found it empty *)
}.

Definition write_slot (a : A) (e : nat) (s : slot A) : slot A := mkSlot a e (sl_read s).
Definition read_slot (e : nat) (s : slot A) : slot A := mkSlot (sl_item s) (sl_write s) e.

Section steps.
(** The ring at construction: its width and mask are those of the class. *)
Context (q : ring A).

(** The producer's accesses: relaxed load of its own index, acquire load of
    [head_], write of the slot, release store of [tail_]. *)
Inductive push_step : machine -> machine -> Prop :=
| ps_load_tail hd tl sl v c w i o f m a ts msg :
    readable tl (vw_tail v) ts msg ->
    push_step (mkMachine hd tl sl PushIdle v c w i o f m)
      (mkMachine hd tl sl (PushTail a (msg_val msg) (next_index q (msg_val msg))) (at_tail ts v) c w i o f m)
| ps_full hd tl sl v c w i o f m a t n ts msg :
    readable hd (vw_head v) ts msg -> n = msg_val msg ->
    push_step (mkMachine hd tl sl (PushTail a t n) v c w i o f m)
      (mkMachine hd tl sl PushIdle (view_join (at_head ts v) (msg_view msg)) c w i o (S f) m)
| ps_room hd tl sl v c w i o f m a t n ts msg :
    readable hd (vw_head v) ts msg -> n <> msg_val msg ->
    push_step (mkMachine hd tl sl (PushTail a t n) v c w i o f m)
      (mkMachine hd tl sl (PushRoom a t n) (view_join (at_head ts v) (msg_view msg)) c w i o f m)
| ps_write hd tl sl v c w i o f m a t n :
    push_step (mkMachine hd tl sl (PushRoom a t n) v c w i o f m)
      (mkMachine hd tl (alter (write_slot a (S (vw_prod v))) (Z.to_nat t) sl)
         (PushWritten a n) (tick_prod v) c w i o f m)
| ps_store_tail hd tl sl v c w i o f m a n :
    let v' := at_tail (length tl) v in
    push_step (mkMachine hd tl sl (PushWritten a n) v c w i o f m)
      (mkMachine hd (tl ++ [mkMessage n v']) sl PushIdle v' c w (i ++ [a]) o f m).

(** The consumer's accesses: relaxed load of its own index, acquire load of
    [tail_], then read of the slot and release store of [head_], in either
    order. *)
Inductive pop_step : machine -> machine -> Prop :=
| pp_load_head hd tl sl p v w i o f m ts msg :
    readable hd (vw_head w) ts msg ->
    pop_step (mkMachine hd tl sl p v PopIdle w i o f m)
      (mkMachine hd tl sl p v (PopHead (msg_val msg)) (at_head ts w) i o f m)
| pp_none hd tl sl p v w i o f m h ts msg :
    readable tl (vw_tail w) ts msg -> h = msg_val msg ->
    pop_step (mkMachine hd tl sl p v (PopHead h) w i o f m)
      (mkMachine hd tl sl p v PopIdle (view_join (at_tail ts w) (msg_view msg)) i o f (S m))
| pp_some hd tl sl p v w i o f m h ts msg :
    readable tl (vw_tail w) ts msg -> h <> msg_val msg ->
    pop_step (mkMachine hd tl sl p v (PopHead h) w i o f m)
      (mkMachine hd tl sl p v (PopReady h) (view_join (at_tail ts w) (msg_view msg)) i o f m)
| pp_read hd tl sl p v w i o f m h s :
    sl !! Z.to_nat h = Some s ->
    pop_step (mkMachine hd tl sl p v (PopReady h) w i o f m)
      (mkMachine hd tl (alter (read_slot (S (vw_cons w))) (Z.to_nat h) sl) p v
         (PopRead h (sl_item s)) (tick_cons w) i o f m)
| pp_store_head hd tl sl p v w i o f m h a :
    let w' := at_head (length hd) w in
    pop_step (mkMachine hd tl sl p v (PopRead h a) w i o f m)
      (mkMachine (hd ++ [mkMessage (next_index q h) w']) tl sl p v PopIdle w' i (o ++ [a]) f m)
| pp_release hd tl sl p v w i o f m h :
    let w' := at_head (length hd) w in
    pop_step (mkMachine hd tl sl p v (PopReady h) w i o f m)
      (mkMachine (hd ++ [mkMessage (next_index q h) w']) tl sl p v (PopReleased h) w' i o f m)
| pp_read_released hd tl sl p v w i o f m h s :
    sl !! Z.to_nat h = Some s ->
    pop_step (mkMachine hd tl sl p v (PopReleased h) w i o f m)
      (mkMachine hd tl (alter (read_slot (S (vw_cons w))) (Z.to_nat h) sl) p v
         PopIdle (tick_cons w) i (o ++ [sl_item s]) f m).

Definition mstep (s s' : machine) : Prop := push_step s s' \/ pop_step s s'.

(** Construction happens before both threads start. *)
Definition machine_init : machine :=
  let zero := mkView 0 0 0 0 in
  mkMachine [mkMessage (rg_head q) zero] [mkMessage (rg_tail q) zero]
    (map (fun a => mkSlot a 0 0) (rg_buffer q)) PushIdle zero PopIdle zero [] [] 0 0.
End steps.

(** The slot access a thread is about to make is not ordered after the last
    conflicting access of the other thread. *)
Definition write_races (s : machine) : Prop :=
  exists a t n x, mc_push s = PushRoom a t n /\ mc_slots s !! Z.to_nat t = Some x /\
    (vw_cons (mc_push_view s) < sl_read x)%nat.
Definition read_races (s : machine) : Prop :=
  exists h x, (mc_pop s = PopReady h \/ mc_pop s = PopReleased h) /\
    mc_slots s !! Z.to_nat h = Some x /\ (vw_prod (mc_pop_view s) < sl_write x)%nat.
Definition data_race (s : machine) : Prop := write_races s \/ read_races s.

(** ** Invariant

    The value at position [k] of a modification order is [k] modulo the
    capacity; item number [j] of all time is in [slot_of j]. *)

Section invariant.
Context (q : ring A).
Hypothesis Hq : ring_wf q.

Abbreviation cap := (Z.to_nat (ring_capacity q)).

Definition index_of (k : nat) : Z := Z.of_nat k mod ring_capacity q.
Definition slot_of (k : nat) : nat := Z.to_nat (index_of k).

Definition indexed (known : view -> nat) (hist : list message) : Prop :=
  forall k msg, hist !! k = Some msg -> msg_val msg = index_of k /\ (k <= known (msg_view msg))%nat.

(** What a view is worth when [P] items have been published and [C] slots
    released: who knows that item [j] is published knows of the write of its
    slot; who knows that item [j - cap] is released knows of the read of its
    slot. *)
Definition knows (sl : list (slot A)) (P C : nat) (v : view) : Prop :=
  (vw_head v <= C)%nat /\ (vw_tail v <= P)%nat /\
  (forall j s, (C <= S j)%nat -> (j < vw_tail v)%nat -> sl !! slot_of j = Some s ->
    (sl_write s <= vw_prod v)%nat) /\
  (forall j s, (P <= j)%nat -> (S j < vw_head v + cap)%nat -> sl !! slot_of j = Some s ->
    (sl_read s <= vw_cons v)%nat).

Definition stored (sl : list (slot A)) (j : nat) (a : A) : Prop :=
  exists s, sl !! slot_of j = Some s /\ sl_item s = a.

(** The producer knows the newest [tail_] and all its own writes; the
    published items fit behind the head it knows. *)
Definition push_inv (sl : list (slot A)) (P : nat) (p : push_pc) (v : view) : Prop :=
  vw_tail v = P /\ (S P <= vw_head v + cap)%nat /\
  (forall k s, sl !! k = Some s -> (sl_write s <= vw_prod v)%nat) /\
  match p with
  | PushIdle => True
  | PushTail _ t n => t = index_of P /\ n = index_of (S P)
  | PushRoom _ t n => t = index_of P /\ n = index_of (S P) /\ (S (S P) <= vw_head v + cap)%nat
  | PushWritten a n => n = index_of (S P) /\ (S (S P) <= vw_head v + cap)%nat /\ stored sl P a
  end.

(** The consumer knows the newest [head_] and all its own reads; [D] items
    have been delivered, [C] slots released. *)
Definition pop_inv (sl : list (slot A)) (i : list A) (D C : nat) (c : pop_pc) (w : view) : Prop :=
  vw_head w = C /\ (C <= vw_tail w)%nat /\
  (forall k s, sl !! k = Some s -> (sl_read s <= vw_cons w)%nat) /\
  match c with
  | PopIdle => C = D
  | PopHead h => C = D /\ h = index_of C
  | PopReady h => C = D /\ h = index_of C /\ (C < vw_tail w)%nat
  | PopRead h a => C = D /\ h = index_of C /\ (C < vw_tail w)%nat /\ i !! C = Some a
  | PopReleased h => C = S D /\ h = index_of D
  end.

Record machine_inv (s : machine) (C : nat) : Prop := {
  mi_head : length (mc_head s) = S C;
  mi_tail : length (mc_tail s) = S (length (mc_accepted s));
  mi_slots : length (mc_slots s) = cap;
  mi_head_index : indexed vw_head (mc_head s);
  mi_tail_index : indexed vw_tail (mc_tail s);
  mi_order : mc_delivered s = take (length (mc_delivered s)) (mc_accepted s);
  mi_stored : forall j a, (length (mc_delivered s) <= j)%nat -> mc_accepted s !! j = Some a ->
    stored (mc_slots s) j a;
  mi_push_knows : knows (mc_slots s) (length (mc_accepted s)) C (mc_push_view s);
  mi_pop_knows : knows (mc_slots s) (length (mc_accepted s)) C (mc_pop_view s);
  mi_messages : Forall (fun msg => knows (mc_slots s) (length (mc_accepted s)) C (msg_view msg))
    (mc_head s ++ mc_tail s);
  mi_push : push_inv (mc_slots s) (length (mc_accepted s)) (mc_push s) (mc_push_view s);
  mi_pop : pop_inv (mc_slots s) (mc_accepted s) (length (mc_delivered s)) C (mc_pop s) (mc_pop_view s);
}.

Lemma cap_pos : (0 < cap)%nat.
Proof. pose proof (ring_capacity_pos q Hq). lia. Qed.

Lemma slot_ne j k : (j < k)%nat -> (k < j + cap)%nat -> slot_of j <> slot_of k.
Proof. intros ??. apply mod_slot; [by apply ring_capacity_pos|lia..]. Qed.

Lemma slot_lt sl j : length sl = cap -> exists s, sl !! slot_of j = Some s.
Proof.
  intros Hl. apply lookup_lt_is_Some. rewrite Hl. unfold slot_of, index_of.
  pose proof (ring_capacity_pos q Hq) as Hpos. pose proof (Z.mod_pos_bound (Z.of_nat j) _ Hpos). lia.
Qed.

(** Equal indices less than two rounds apart are one round apart. *)
Lemma index_room c P : (P < c + cap)%nat -> index_of (S P) <> index_of c -> (S (S P) <= c + cap)%nat.
Proof.
  intros Hlt Hne. destruct (decide (S P = (c + cap)%nat)) as [Heq|]; [|lia]. destruct Hne.
  pose proof (ring_capacity_pos q Hq). unfold index_of.
  replace (Z.of_nat (S P)) with (Z.of_nat c + 1 * ring_capacity q) by lia. by apply Z.mod_add; lia.
Qed.

Lemma index_next k : next_index q (index_of k) = index_of (S k).
Proof. unfold index_of. rewrite next_index_mod by done. f_equal. lia. Qed.

Lemma lookup_alter_slot (f : slot A -> slot A) k sl j s :
  alter f k sl !! j = Some s -> exists s0, sl !! j = Some s0 /\ s = if decide (k = j) then f s0 else s0.
Proof.
  destruct (decide (k = j)) as [->|Hne].
  - rewrite list_lookup_alter_eq. intros (s0 & ? & ->)%fmap_Some. eauto.
  - rewrite list_lookup_alter_ne by done. eauto.
Qed.

(** *** What views know *)

Lemma knows_join sl P C v w : knows sl P C v -> knows sl P C w -> knows sl P C (view_join v w).
Proof.
  intros (Hh & Ht & Hw & Hr) (Hh' & Ht' & Hw' & Hr'). unfold knows. simpl. split_ands; [lia..| |].
  - intros j s HC Hj Hs. destruct (decide (j < vw_tail v)%nat).
    + etrans; [by apply (Hw j)|lia].
    + etrans; [apply (Hw' j); [done|lia|done]|lia].
  - intros j s HP Hj Hs. destruct (decide (S j < vw_head v + cap)%nat).
    + etrans; [by apply (Hr j)|lia].
    + etrans; [apply (Hr' j); [done|lia|done]|lia].
Qed.

Lemma knows_mono sl P P' C C' v : (P <= P')%nat -> (C <= C')%nat -> knows sl P C v -> knows sl P' C' v.
Proof.
  intros ?? (Hh & Ht & Hw & Hr). unfold knows. split_ands; [lia..| |].
  - intros j s ?. apply Hw. lia.
  - intros j s ?. apply Hr. lia.
Qed.

Lemma knows_tick sl P C v v' :
  knows sl P C v -> vw_head v' = vw_head v -> vw_tail v' = vw_tail v ->
  (vw_prod v <= vw_prod v')%nat -> (vw_cons v <= vw_cons v')%nat -> knows sl P C v'.
Proof.
  intros (Hh & Ht & Hw & Hr) Eh Et ??. unfold knows. rewrite Eh, Et. split_ands; [done..| |].
  - intros j s ???. etrans; [by eapply Hw|done].
  - intros j s ???. etrans; [by eapply Hr|done].
Qed.

(** The write of a free slot and the read of a released one do not concern
    the slots that views know about. *)
Lemma knows_write sl P C v a e :
  (S (S P) <= C + cap)%nat -> knows sl P C v -> knows (alter (write_slot a e) (slot_of P) sl) P C v.
Proof.
  intros Hroom (Hh & Ht & Hw & Hr). unfold knows. split_ands; [done..| |]; intros j s Hj Hlt Hs;
    apply lookup_alter_slot in Hs as (s0 & Hs0 & ->).
  - rewrite decide_False; [by apply (Hw j)|]. apply not_eq_sym, slot_ne; lia.
  - destruct (decide _); simpl; by apply (Hr j).
Qed.

Lemma knows_read sl P C v k e :
  (C <= S k)%nat -> (k < P)%nat -> knows sl P C v -> knows (alter (read_slot e) (slot_of k) sl) P C v.
Proof.
  intros HC HP (Hh & Ht & Hw & Hr). unfold knows. split_ands; [done..| |]; intros j s Hj Hlt Hs;
    apply lookup_alter_slot in Hs as (s0 & Hs0 & ->).
  - destruct (decide _); simpl; by apply (Hw j).
  - rewrite decide_False; [by apply (Hr j)|]. apply slot_ne; lia.
Qed.

Lemma knows_publish sl P C v :
  (forall k s, sl !! k = Some s -> (sl_write s <= vw_prod v)%nat) ->
  knows sl P C v -> knows sl (S P) C (at_tail (S P) v).
Proof.
  intros Hall (Hh & Ht & Hw & Hr). unfold knows. simpl. split_ands; [done..| |].
  - intros j s _ _. apply Hall.
  - intros j s ?. apply Hr. lia.
Qed.

Lemma knows_release sl P C v :
  (forall k s, sl !! k = Some s -> (sl_read s <= vw_cons v)%nat) ->
  knows sl P C v -> knows sl P (S C) (at_head (S C) v).
Proof.
  intros Hall (Hh & Ht & Hw & Hr). unfold knows. simpl. split_ands; [done..| |].
  - intros j s ?. apply Hw. lia.
  - intros j s _ _. apply Hall.
Qed.

(** An acquire load: the value tells a lower bound of what is learnt. *)
Lemma acquire_tail hist w ts msg :
  indexed vw_tail hist -> readable hist (vw_tail w) ts msg ->
  msg_val msg = index_of ts /\ view_join (at_tail ts w) (msg_view msg) = view_join w (msg_view msg) /\
  (vw_tail w <= ts <= vw_tail (msg_view msg))%nat /\ (ts < length hist)%nat.
Proof.
  intros Hx [Hle Hts]. destruct (Hx _ _ Hts) as [Hv Hk]. split_ands; try done; [|by eapply lookup_lt_Some].
  unfold view_join. simpl. f_equal. lia.
Qed.

Lemma acquire_head hist w ts msg :
  indexed vw_head hist -> readable hist (vw_head w) ts msg ->
  msg_val msg = index_of ts /\ view_join (at_head ts w) (msg_view msg) = view_join w (msg_view msg) /\
  (vw_head w <= ts <= vw_head (msg_view msg))%nat /\ (ts < length hist)%nat.
Proof.
  intros Hx [Hle Hts]. destruct (Hx _ _ Hts) as [Hv Hk]. split_ands; try done; [|by eapply lookup_lt_Some].
  unfold view_join. simpl. f_equal. lia.
Qed.

Lemma indexed_snoc known hist z v :
  indexed known hist -> z = index_of (length hist) -> (length hist <= known v)%nat ->
  indexed known (hist ++ [mkMessage z v]).
Proof.
  intros Hx -> Hv k msg [Hk|[Hk Hm]]%lookup_app_Some; [by apply Hx|].
  apply list_lookup_singleton_Some in Hm as [Hk0 <-]. replace k with (length hist) by lia. done.
Qed.

(** What the invariant gives about a loaded message. *)
Lemma message_knows s C hist msg ts known :
  machine_inv s C -> (hist = mc_head s \/ hist = mc_tail s) -> readable hist known ts msg ->
  knows (mc_slots s) (length (mc_accepted s)) C (msg_view msg).
Proof.
  intros Hinv Hh [_ Hts]. pose proof (mi_messages _ _ Hinv) as Hall. rewrite Forall_forall in Hall.
  apply Hall, elem_of_app. apply list_elem_of_lookup_2 in Hts. destruct Hh; subst; auto.
Qed.

Lemma stored_write sl j P a b e :
  (j < P)%nat -> (P < j + cap)%nat -> stored sl j a -> stored (alter (write_slot b e) (slot_of P) sl) j a.
Proof.
  intros ?? (s & Hs & <-). exists s. rewrite list_lookup_alter_ne; [done|]. apply not_eq_sym, slot_ne; lia.
Qed.

Lemma stored_written sl P b e : length sl = cap -> stored (alter (write_slot b e) (slot_of P) sl) P b.
Proof.
  intros [s Hs]%(fun H => slot_lt sl P H). exists (write_slot b e s). by rewrite list_lookup_alter_eq, Hs.
Qed.

Lemma stored_read sl j k a e : stored sl j a -> stored (alter (read_slot e) k sl) j a.
Proof.
  intros (s & Hs & <-). destruct (decide (k = slot_of j)) as [->|].
  - exists (read_slot e s). by rewrite list_lookup_alter_eq, Hs.
  - exists s. by rewrite list_lookup_alter_ne.
Qed.

(** *** Preservation *)

(** A store is appended to its modification order. *)
Lemma messages_mono sl sl' P P' C C' hist :
  (forall v, knows sl P C v -> knows sl' P' C' v) ->
  Forall (fun msg => knows sl P C (msg_view msg)) hist ->
  Forall (fun msg => knows sl' P' C' (msg_view msg)) hist.
Proof. intros Hv Hf. eapply Forall_impl; [exact Hf|]. intros msg. apply Hv. Qed.

Lemma push_load_inv hd tl sl v c w i o f m a C ts msg :
  machine_inv (mkMachine hd tl sl PushIdle v c w i o f m) C ->
  readable tl (vw_tail v) ts msg ->
  machine_inv (mkMachine hd tl sl (PushTail a (msg_val msg) (next_index q (msg_val msg)))
    (at_tail ts v) c w i o f m) C.
Proof.
  intros [] [Hle Hts]. simpl in *. pose proof mi_push0 as (Hv & Hcap & Hw & _).
  pose proof (lookup_lt_Some _ _ _ Hts). assert (ts = length i) as -> by lia.
  assert (at_tail (length i) v = v) as -> by (destruct v; simpl in *; by subst).
  destruct (mi_tail_index0 _ _ Hts) as [-> _]. split; simpl; try done.
  unfold push_inv. split_ands; try done. apply index_next.
Qed.

Lemma push_acquire_inv hd tl sl v c w i o f m a t n C ts msg :
  machine_inv (mkMachine hd tl sl (PushTail a t n) v c w i o f m) C ->
  readable hd (vw_head v) ts msg ->
  let v' := view_join (at_head ts v) (msg_view msg) in
  machine_inv (mkMachine hd tl sl PushIdle v' c w i o (S f) m) C /\
  (n <> msg_val msg -> machine_inv (mkMachine hd tl sl (PushRoom a t n) v' c w i o f m) C).
Proof.
  intros Hinv Hr. pose proof (message_knows _ _ _ _ _ _ Hinv (or_introl eq_refl) Hr) as Hmsg.
  destruct Hinv. simpl in *.
  destruct (acquire_head _ _ _ _ mi_head_index0 Hr) as (Hval & -> & Hts & _).
  pose proof mi_push0 as (Hv & Hcap & Hw & -> & ->).
  pose proof (knows_join _ _ _ _ _ mi_push_knows0 Hmsg) as Hk. pose proof Hk as (_ & Htl & _). simpl in Htl.
  assert (forall k s, sl !! k = Some s -> (sl_write s <= vw_prod (view_join v (msg_view msg)))%nat).
  { intros k s Hs. specialize (Hw k s Hs). simpl. lia. }
  split; [|intros Hne]; split; simpl; try done.
  - unfold push_inv. split_ands; try done; simpl; lia.
  - assert (S (S (length i)) <= ts + cap)%nat by (apply index_room; [lia|by rewrite <- Hval]).
    unfold push_inv. split_ands; try done; simpl; lia.
Qed.

Lemma push_write_inv hd tl sl v c w i o f m a t n C :
  machine_inv (mkMachine hd tl sl (PushRoom a t n) v c w i o f m) C ->
  machine_inv (mkMachine hd tl (alter (write_slot a (S (vw_prod v))) (Z.to_nat t) sl)
    (PushWritten a n) (tick_prod v) c w i o f m) C.
Proof.
  intros []. simpl in *. destruct mi_push0 as (Hv & Hcap & Hw & -> & -> & Hroom).
  fold (slot_of (length i)). pose proof mi_push_knows0 as (HC & _).
  assert (S (S (length i)) <= C + cap)%nat by lia.
  split; simpl; try done.
  - by rewrite length_alter.
  - intros j b Hj Hb. pose proof (lookup_lt_Some _ _ _ Hb). apply stored_write; [done| |by apply mi_stored0].
    destruct mi_pop0 as (_ & _ & _ & Hpc). destruct c; simpl in *; lia.
  - apply (knows_tick _ _ _ v); simpl; try done; [|lia]. by apply knows_write.
  - by apply knows_write.
  - eapply messages_mono; [|done]. intros v'. by apply knows_write.
  - unfold push_inv. split_ands; try done; [|by apply stored_written]. intros k s Hs.
    apply lookup_alter_slot in Hs as (s0 & Hs0 & ->). specialize (Hw k s0 Hs0).
    destruct (decide _); simpl; lia.
  - destruct mi_pop0 as (? & ? & Hreads & Hpc). unfold pop_inv. split_ands; try done.
    intros k s Hs. apply lookup_alter_slot in Hs as (s0 & Hs0 & ->).
    specialize (Hreads k s0 Hs0). by destruct (decide _).
Qed.

Lemma push_store_inv hd tl sl v c w i o f m a n C :
  machine_inv (mkMachine hd tl sl (PushWritten a n) v c w i o f m) C ->
  let v' := at_tail (length tl) v in
  machine_inv (mkMachine hd (tl ++ [mkMessage n v']) sl PushIdle v' c w (i ++ [a]) o f m) C.
Proof.
  intros []. simpl in *. destruct mi_push0 as (Hv & Hcap & Hw & -> & Hroom & Ha).
  rewrite mi_tail0. assert (length (i ++ [a]) = S (length i)) as Hlen by (rewrite length_app; simpl; lia).
  assert (length o <= length i)%nat by (rewrite mi_order0, length_take; lia).
  split; simpl; rewrite ?Hlen; try done.
  - rewrite length_app. simpl. lia.
  - apply indexed_snoc; try done; rewrite mi_tail0; [done|simpl; lia].
  - by rewrite take_app_le.
  - intros j b Hj Hb. apply lookup_app_Some in Hb as [Hb|[Hb Hab]]; [by apply mi_stored0|].
    apply list_lookup_singleton_Some in Hab as [Hj0 <-]. by replace j with (length i) by lia.
  - by apply knows_publish.
  - eapply knows_mono; [..|done]; lia.
  - rewrite app_assoc. apply Forall_app. split.
    + eapply messages_mono; [|done]. intros v'. apply knows_mono; lia.
    + constructor; [|done]. by apply knows_publish.
  - destruct mi_pop0 as (? & ? & ? & Hpc). unfold pop_inv. split_ands; try done.
    destruct c; simpl in *; try done. destruct_and!. split_ands; try done.
    by apply lookup_app_l_Some.
Qed.

Lemma pop_load_inv hd tl sl p v w i o f m C ts msg :
  machine_inv (mkMachine hd tl sl p v PopIdle w i o f m) C ->
  readable hd (vw_head w) ts msg ->
  machine_inv (mkMachine hd tl sl p v (PopHead (msg_val msg)) (at_head ts w) i o f m) C.
Proof.
  intros [] [Hle Hts]. simpl in *. pose proof mi_pop0 as (Hw & Hcap & Hr & HC).
  pose proof (lookup_lt_Some _ _ _ Hts). assert (ts = C) as -> by lia.
  assert (at_head C w = w) as -> by (destruct w; simpl in *; by subst).
  destruct (mi_head_index0 _ _ Hts) as [-> _]. by split.
Qed.

Lemma pop_acquire_inv hd tl sl p v w i o f m h C ts msg :
  machine_inv (mkMachine hd tl sl p v (PopHead h) w i o f m) C ->
  readable tl (vw_tail w) ts msg ->
  let w' := view_join (at_tail ts w) (msg_view msg) in
  machine_inv (mkMachine hd tl sl p v PopIdle w' i o f (S m)) C /\
  (h <> msg_val msg -> machine_inv (mkMachine hd tl sl p v (PopReady h) w' i o f m) C).
Proof.
  intros Hinv Hr. pose proof (message_knows _ _ _ _ _ _ Hinv (or_intror eq_refl) Hr) as Hmsg.
  destruct Hinv. simpl in *.
  destruct (acquire_tail _ _ _ _ mi_tail_index0 Hr) as (Hval & -> & Hts & _).
  pose proof mi_pop0 as (Hw & Hcap & Hreads & HC & ->).
  pose proof (knows_join _ _ _ _ _ mi_pop_knows0 Hmsg) as Hk. pose proof Hk as (Hhd & _). simpl in Hhd.
  assert (forall k s, sl !! k = Some s -> (sl_read s <= vw_cons (view_join w (msg_view msg)))%nat).
  { intros k s Hs. specialize (Hreads k s Hs). simpl. lia. }
  split; [|intros Hne]; split; simpl; try done; unfold pop_inv; simpl.
  - split_ands; try done; lia.
  - assert (C <> ts) by (intros ->; by apply Hne). split_ands; try done; lia.
Qed.

(** The read of the slot of the oldest item. *)
Lemma read_knows hd tl sl p v c w i o f m C k e :
  machine_inv (mkMachine hd tl sl p v c w i o f m) C ->
  (C <= S k)%nat -> (k < length i)%nat ->
  let sl' := alter (read_slot e) (slot_of k) sl in
  (forall v, knows sl (length i) C v -> knows sl' (length i) C v) /\ length sl' = cap /\
  (forall j a, stored sl j a -> stored sl' j a) /\
  push_inv sl' (length i) p v.
Proof.
  intros [] HC Hk. simpl in *. split_ands.
  - intros v'. by apply knows_read.
  - by rewrite length_alter.
  - intros j a. apply stored_read.
  - destruct mi_push0 as (? & ? & Hw & Hp). unfold push_inv. split_ands; try done.
    + intros j s Hs. apply lookup_alter_slot in Hs as (s0 & Hs0 & ->). specialize (Hw j s0 Hs0).
      by destruct (decide _).
    + destruct p; try done. destruct_and!. split_ands; try done. by apply stored_read.
Qed.

Lemma reads_tick sl k w :
  (forall j s, sl !! j = Some s -> (sl_read s <= vw_cons w)%nat) ->
  forall j s, alter (read_slot (S (vw_cons w))) k sl !! j = Some s -> (sl_read s <= vw_cons (tick_cons w))%nat.
Proof.
  intros Hr j s Hs. apply lookup_alter_slot in Hs as (s0 & Hs0 & ->). specialize (Hr j s0 Hs0).
  destruct (decide _); simpl; lia.
Qed.

Lemma pop_read_inv hd tl sl p v w i o f m h s C :
  machine_inv (mkMachine hd tl sl p v (PopReady h) w i o f m) C ->
  sl !! Z.to_nat h = Some s ->
  machine_inv (mkMachine hd tl (alter (read_slot (S (vw_cons w))) (Z.to_nat h) sl) p v
    (PopRead h (sl_item s)) (tick_cons w) i o f m) C.
Proof.
  intros Hinv Hs. pose proof Hinv as []. simpl in *. destruct mi_pop0 as (Hw & Hcap & Hr & -> & -> & Hlt).
  pose proof mi_pop_knows0 as (_ & Htl & _). fold (slot_of (length o)) in *.
  destruct (read_knows _ _ _ _ _ _ _ _ _ _ _ _ (length o) (S (vw_cons w)) Hinv ltac:(lia) ltac:(lia))
    as (Hk & Hlen & Hst & Hpush).
  split; simpl; try done; eauto.
  - apply (knows_tick _ _ _ w); simpl; eauto.
  - by eapply messages_mono.
  - destruct (lookup_lt_is_Some_2 i (length o) ltac:(lia)) as [a Ha].
    destruct (mi_stored0 (length o) a (le_n _) Ha) as (s' & Hs' & <-).
    unfold pop_inv. split_ands; try done; [by apply reads_tick|]. congruence.
Qed.

Lemma pop_read_released_inv hd tl sl p v w i o f m h s C :
  machine_inv (mkMachine hd tl sl p v (PopReleased h) w i o f m) C ->
  sl !! Z.to_nat h = Some s ->
  machine_inv (mkMachine hd tl (alter (read_slot (S (vw_cons w))) (Z.to_nat h) sl) p v
    PopIdle (tick_cons w) i (o ++ [sl_item s]) f m) C.
Proof.
  intros Hinv Hs. pose proof Hinv as []. simpl in *. destruct mi_pop0 as (Hw & Hcap & Hr & HC & ->).
  subst C. pose proof mi_pop_knows0 as (_ & Htl & _). fold (slot_of (length o)) in *.
  destruct (read_knows _ _ _ _ _ _ _ _ _ _ _ _ (length o) (S (vw_cons w)) Hinv ltac:(lia) ltac:(lia))
    as (Hk & Hlen & Hst & Hpush).
  destruct (lookup_lt_is_Some_2 i (length o) ltac:(lia)) as [a Ha].
  destruct (mi_stored0 (length o) a (le_n _) Ha) as (s' & Hs' & Ha').
  assert (sl_item s = a) as -> by congruence.
  split; simpl; rewrite ?length_app; simpl; rewrite ?Nat.add_1_r; try done; eauto.
  - rewrite (take_S_r _ _ a) by done. by f_equal.
  - intros j b Hj Hb. apply Hst, mi_stored0; [lia|done].
  - apply (knows_tick _ _ _ w); simpl; eauto.
  - by eapply messages_mono.
  - unfold pop_inv. split_ands; try done. by apply reads_tick.
Qed.

(** The store of [head_], after the read of the slot or before it. *)
Lemma pop_store_inv hd tl sl p v c w i o o' f m n c' C :
  machine_inv (mkMachine hd tl sl p v c w i o f m) C ->
  n = index_of (S C) -> (C < vw_tail w)%nat -> (length o <= length o')%nat ->
  o' = take (length o') i ->
  let w' := at_head (length hd) w in
  pop_inv sl i (length o') (S C) c' w' ->
  machine_inv (mkMachine (hd ++ [mkMessage n w']) tl sl p v c' w' i o' f m) (S C).
Proof.
  intros [] -> Hlt Ho Ho' w' Hpop. simpl in *. unfold w' in *. rewrite mi_head0 in *.
  pose proof mi_pop0 as (Hw & _ & Hr & _).
  split; simpl; try done.
  - rewrite length_app. simpl. lia.
  - apply indexed_snoc; simpl; [done|by rewrite mi_head0|lia].
  - intros j a Hj. apply mi_stored0. lia.
  - eapply knows_mono; [..|done]; lia.
  - by apply knows_release.
  - rewrite <- app_assoc. apply Forall_app in mi_messages0 as [Hh Ht].
    assert (forall v, knows sl (length i) C v -> knows sl (length i) (S C) v) by (intros; eapply knows_mono; [..|done]; lia).
    apply Forall_app. split; [by eapply messages_mono|]. constructor; [by apply knows_release|].
    by eapply messages_mono.
Qed.

Lemma push_step_inv s s' C : push_step q s s' -> machine_inv s C -> machine_inv s' C.
Proof.
  intros Hstep Hinv. destruct Hstep.
  - by eapply push_load_inv.
  - by eapply (push_acquire_inv _ _ _ _ _ _ _ _ _ _ _ _ _ _ _ _ Hinv).
  - by eapply (push_acquire_inv _ _ _ _ _ _ _ _ _ _ _ _ _ _ _ _ Hinv).
  - by apply push_write_inv.
  - by apply push_store_inv.
Qed.

Lemma pop_step_inv s s' C : pop_step q s s' -> machine_inv s C -> exists C', machine_inv s' C'.
Proof.
  intros Hstep Hinv. destruct Hstep.
  - exists C. by apply pop_load_inv.
  - exists C. by eapply (pop_acquire_inv _ _ _ _ _ _ _ _ _ _ _ _ _ _ Hinv).
  - exists C. by eapply (pop_acquire_inv _ _ _ _ _ _ _ _ _ _ _ _ _ _ Hinv).
  - exists C. by apply pop_read_inv.
  - exists (S C). pose proof (mi_pop _ _ Hinv) as (Hw & Hcap & Hr & -> & -> & Hlt & Ha). simpl in *.
    pose proof (mi_order _ _ Hinv) as Ho. pose proof (mi_head _ _ Hinv) as Hlh. simpl in Ho, Hlh.
    assert (length (o ++ [a]) = S (length o)) as Hl by (rewrite length_app; simpl; lia).
    eapply pop_store_inv; [done|by apply index_next|done|lia| |].
    + rewrite Hl, (take_S_r _ _ a) by done. by f_equal.
    + unfold pop_inv, w'. rewrite Hl, Hlh. by split_ands.
  - exists (S C). pose proof (mi_pop _ _ Hinv) as (Hw & Hcap & Hr & -> & -> & Hlt).
    pose proof (mi_head _ _ Hinv) as Hlh. simpl in *.
    eapply pop_store_inv; [done|by apply index_next|done|lia|apply (mi_order _ _ Hinv)|].
    unfold pop_inv, w'. rewrite Hlh. by split_ands.
  - exists C. by apply pop_read_released_inv.
Qed.

Lemma rtc_mstep_inv s s' : rtc (mstep q) s s' -> (exists C, machine_inv s C) -> exists C, machine_inv s' C.
Proof.
  induction 1 as [|s1 s2 s3 [Hs|Hs] _ IH]; intros [C Hinv]; [by exists C|apply IH..].
  - exists C. by eapply push_step_inv.
  - by eapply pop_step_inv.
Qed.

(** ** What the invariant gives *)

Lemma machine_no_race s C : machine_inv s C -> ~ data_race s.
Proof.
  intros Hinv [(a & t & n & x & Hpc & Hx & Hlt)|(h & x & Hpc & Hx & Hlt)].
  - pose proof (mi_push _ _ Hinv) as (_ & _ & _ & Hp). rewrite Hpc in Hp. destruct Hp as (-> & _ & Hroom).
    pose proof (mi_push_knows _ _ Hinv) as (_ & _ & _ & Hk). specialize (Hk _ x ltac:(done) Hroom Hx). lia.
  - pose proof (mi_pop _ _ Hinv) as (_ & Hcap & _ & Hp).
    pose proof (mi_pop_knows _ _ Hinv) as (_ & _ & Hk & _).
    destruct Hpc as [Hpc|Hpc]; rewrite Hpc in Hp.
    + destruct Hp as (-> & -> & Hc). specialize (Hk (length (mc_delivered s)) x ltac:(lia) Hc Hx). lia.
    + destruct Hp as (-> & ->). specialize (Hk (length (mc_delivered s)) x (le_n _) ltac:(lia) Hx). lia.
Qed.

Lemma inv_flight s C : machine_inv s C ->
  exists flight, mc_accepted s = mc_delivered s ++ flight /\ (length flight <= cap)%nat.
Proof.
  intros Hinv. exists (drop (length (mc_delivered s)) (mc_accepted s)). split.
  - rewrite (mi_order _ _ Hinv) at 1. by rewrite take_drop.
  - rewrite length_drop. pose proof (mi_push _ _ Hinv) as (_ & Hc & _ & _).
    pose proof (mi_push_knows _ _ Hinv) as (Hh & _). pose proof (mi_pop _ _ Hinv) as (_ & _ & _ & Hp).
    assert (C <= S (length (mc_delivered s)))%nat; [|lia].
    destruct (mc_pop s); destruct_and?; simpl in *; lia.
Qed.

(** A load always finds a value and an access its slot. *)
Lemma inv_push_steps s C a : machine_inv s C -> exists s', push_step q s s'.
Proof.
  intros Hinv. pose proof (mi_push_knows _ _ Hinv) as (Hh & Ht & _).
  pose proof (mi_head _ _ Hinv) as Hlh. pose proof (mi_tail _ _ Hinv) as Hlt.
  destruct s as [hd tl sl p v c w i o f m]. simpl in *. destruct p as [|b t n|b t n|b n].
  - destruct (lookup_lt_is_Some_2 tl (vw_tail v) ltac:(lia)) as [msg Hmsg].
    eexists. by apply (ps_load_tail _ _ _ _ _ _ _ _ _ _ _ a (vw_tail v) msg).
  - destruct (lookup_lt_is_Some_2 hd (vw_head v) ltac:(lia)) as [msg Hmsg].
    destruct (decide (n = msg_val msg)); eexists.
    + by apply (ps_full _ _ _ _ _ _ _ _ _ _ _ _ _ _ (vw_head v) msg).
    + by apply (ps_room _ _ _ _ _ _ _ _ _ _ _ _ _ _ (vw_head v) msg).
  - eexists. apply ps_write.
  - eexists. apply ps_store_tail.
Qed.

Lemma inv_pop_steps s C : machine_inv s C -> exists s', pop_step q s s'.
Proof.
  intros Hinv. pose proof (mi_pop_knows _ _ Hinv) as (Hh & Ht & _).
  pose proof (mi_head _ _ Hinv) as Hlh. pose proof (mi_tail _ _ Hinv) as Hlt.
  pose proof (fun k => slot_lt _ k (mi_slots _ _ Hinv)) as Hsl.
  pose proof (mi_pop _ _ Hinv) as (_ & _ & _ & Hp).
  destruct s as [hd tl sl p v c w i o f m]. simpl in *. destruct c as [|h|h|h a|h].
  - destruct (lookup_lt_is_Some_2 hd (vw_head w) ltac:(lia)) as [msg Hmsg].
    eexists. by apply (pp_load_head _ _ _ _ _ _ _ _ _ _ _ (vw_head w) msg).
  - destruct (lookup_lt_is_Some_2 tl (vw_tail w) ltac:(lia)) as [msg Hmsg].
    destruct (decide (h = msg_val msg)); eexists.
    + by apply (pp_none _ _ _ _ _ _ _ _ _ _ _ _ (vw_tail w) msg).
    + by apply (pp_some _ _ _ _ _ _ _ _ _ _ _ _ (vw_tail w) msg).
  - destruct Hp as (_ & -> & _). destruct (Hsl C) as [x Hx]. eexists. by apply pp_read.
  - eexists. apply pp_store_head.
  - destruct Hp as (_ & ->). destruct (Hsl (length o)) as [x Hx]. eexists. by apply pp_read_released.
Qed.

Lemma machine_init_inv : rg_head q = 0 -> rg_tail q = 0 -> machine_inv (machine_init q) 0.
Proof.
  intros Hh Ht. pose proof cap_pos. pose proof (ring_capacity_length q Hq) as Hl.
  assert (index_of 0 = 0) as H0 by (unfold index_of; by rewrite Z.mod_0_l by (pose proof (ring_capacity_pos q Hq); lia)).
  assert (forall k s, map (fun a => mkSlot a 0 0) (rg_buffer q) !! k = Some s ->
    sl_write s = 0%nat /\ sl_read s = 0%nat) as Hs.
  { intros k s Hk. rewrite list_lookup_fmap in Hk. by apply fmap_Some in Hk as (b & _ & ->). }
  assert (knows (map (fun a => mkSlot a 0 0) (rg_buffer q)) 0 0 (mkView 0 0 0 0)) as Hk.
  { unfold knows. simpl. split_ands; try done; intros j s Hj Hj' Hx; apply Hs in Hx as [? ?]; lia. }
  assert (forall known z, z = 0 -> indexed known [mkMessage z (mkView 0 0 0 0)]) as Hx.
  { intros known z -> k msg [-> <-]%list_lookup_singleton_Some. rewrite H0. split; [done|lia]. }
  split; simpl; try done; try by apply Hx.
  - rewrite length_map. lia.
  - do 2 (apply Forall_cons_2; [done|]). by apply Forall_nil_2.
  - unfold push_inv. simpl. split_ands; try done. intros k s Hx'. apply Hs in Hx' as [? ?]. lia.
  - unfold pop_inv. simpl. split_ands; try done. intros k s Hx'. apply Hs in Hx' as [? ?]. lia.
Qed.
End invariant.
End memory.

(** A ring of [2^k] slots, with indices of [width] bits, is correct in
    the C++ memory model with the memory orders that the source names: in
    every execution of one producer and one consumer there is no data race on
    a slot, the delivered items are the accepted ones in order, without loss
    or duplication, at most [2^k] are in flight, and neither thread ever waits
    for the other (each can always make its next access). This includes the
    consumer that advances the head before it reads the slot. *)
Theorem ring_memory_safe {A} width k (d : A) s :
  0 <= k <= width ->
  let q := ring_new width (2 ^ k) d in
  rtc (mstep q) (machine_init q) s ->
  ~ data_race s /\
  (exists flight, mc_accepted s = mc_delivered s ++ flight /\ Z.of_nat (length flight) <= 2 ^ k) /\
  (exists s', push_step q s s') /\ (exists s', pop_step q s s').
Proof.
  intros Hk q Hs. destruct (ring_new_holds width k d Hk) as [Hwf _].
  destruct (rtc_mstep_inv q Hwf _ _ Hs) as [C Hinv]; [exists 0%nat; by apply machine_init_inv|].
  split_ands.
  - by eapply machine_no_race.
  - destruct (inv_flight q _ _ Hinv) as (flight & Hf & Hlen). exists flight. split; [done|].
    unfold ring_capacity in Hlen. simpl in Hlen. pose proof (Z.pow_pos_nonneg 2 k). lia.
  - by eapply (inv_push_steps q _ _ d).
  - by eapply inv_pop_steps.
Qed.

(** ** What the weak memory shows

    A ring of two slots. The producer has stored 7, the consumer has taken it
    and the ring is empty; a second [push] may still load the old [head_] and
    answer that the ring is full. In [RingThreads], where all threads see one
    memory, it would succeed. *)
Definition two_slots : ring Z := ring_new 64 (2 ^ 1) 0.

Definition taken : machine :=
  let old := mkView 0 0 0 0 in let stored := mkView 0 1 1 0 in let released := mkView 1 1 1 1 in
  mkMachine [mkMessage 0 old; mkMessage 1 released] [mkMessage 0 old; mkMessage 1 stored]
    [mkSlot 7 1 1; mkSlot 0 0 0] PushIdle stored PopIdle released [7] [7] 0 0.

Lemma taken_reachable : rtc (mstep two_slots) (machine_init two_slots) taken.
Proof.
  eapply rtc_l; [left; by apply (ps_load_tail _ _ _ _ _ _ _ _ _ _ _ 7 0 (mkMessage 0 (mkView 0 0 0 0)))|].
  eapply rtc_l; [left; apply (ps_room _ _ _ _ _ _ _ _ _ _ _ _ _ _ 0 (mkMessage 0 (mkView 0 0 0 0))); done|].
  eapply rtc_l; [left; apply ps_write|]. eapply rtc_l; [left; apply ps_store_tail|].
  eapply rtc_l; [right; by apply (pp_load_head _ _ _ _ _ _ _ _ _ _ _ 0 (mkMessage 0 (mkView 0 0 0 0)))|].
  eapply rtc_l; [right; apply (pp_some _ _ _ _ _ _ _ _ _ _ _ _ 1 (mkMessage 1 (mkView 0 1 1 0))); [by split; [simpl; lia|]|done]|].
  eapply rtc_l; [right; by eapply pp_read|]. eapply rtc_l; [right; apply pp_store_head|]. apply rtc_refl.
Qed.

Lemma refused_while_empty :
  exists s, rtc (push_step two_slots) taken s /\ mc_refused s = 1%nat /\ mc_delivered s = mc_accepted s.
Proof.
  eexists. split; [|split; [shelve|]].
  - eapply rtc_l; [apply (ps_load_tail _ _ _ _ _ _ _ _ _ _ _ 8 1 (mkMessage 1 (mkView 0 1 1 0))); done|].
    eapply rtc_l; [apply (ps_full _ _ _ _ _ _ _ _ _ _ _ _ _ _ 0 (mkMessage 0 (mkView 0 0 0 0))); done|].
    apply rtc_refl.
  - done.
  Unshelve. done.
Qed.

(** After one item has passed through the ring of two slots. *)
Lemma ring_memory_safe_witness :
  rtc (mstep two_slots) (machine_init two_slots) taken /\ ~ data_race taken /\
  exists s', push_step two_slots taken s'.
Proof.
  split; [exact taken_reachable|].
  destruct (ring_memory_safe 64 1 0 taken ltac:(lia) taken_reachable) as (Hrace & _ & Hpush & _).
  split; [exact Hrace|exact Hpush].
Defined.
