(* ===== verification/RingClose.v ===== *)
(** * RingClose: stopping the consumer of a ring

    The threads that empty a ring ([publisher_loop], [writer_loop]) run until
    a flag is cleared and then drain what is left. Here the flag is a further
    atomic variable in the memory model of [RingMemory]: the thread that pushes
    (or the one that has joined it) clears the flag after its last push. With
    an acquire load of the flag, as in [EventDispatcher] and [ReplayLogger],
    nothing is left behind; with the relaxed load of [Logger] the last records
    may be. *)

From S2P Require Import Prelude Ring RingMemory.

(** The loop around [pop]: at the test of the flag, in the body, in the drain
    after it, at the end. *)
Inductive loop_pc := LTest | LBody | LDrain | LEnded.

Section close.
Context {A : Type} (q : ring A).

(** Is the flag loaded with [memory_order_acquire]? *)
Context (acquire : bool).

(** Does the body take all items it finds ([ReplayLogger::writer_loop]), or
    one ([EventDispatcher::publisher_loop], [Logger::writer_loop])? *)
Context (all : bool).

#[local] Abbreviation machine := (machine (A := A)).
Implicit Types (m : machine).

(** [None]: the flag is set; [Some v]: it has been cleared by a thread that
    knew [v]. A load may still return the old value then. *)
Record closing := mkClosing {
  cl_machine : machine;
  cl_flag : option view;
  cl_loop : loop_pc;
}.

(** What the consumer learns from the cleared flag. *)
Definition learn (v : view) m : machine :=
  if acquire then
    mkMachine (mc_head m) (mc_tail m) (mc_slots m) (mc_push m) (mc_push_view m) (mc_pop m)
      (view_join (mc_pop_view m) v) (mc_accepted m) (mc_delivered m) (mc_refused m) (mc_missed m)
  else m.

(** Where the loop is after an access of [pop]: the call may go on, end with
    an item, or end because the ring looked empty. *)
Definition loop_next (l : loop_pc) m m' (l' : loop_pc) : Prop :=
  match mc_pop m' with
  | PopIdle =>
      if decide (mc_missed m' = mc_missed m) then
        l' = match l with LBody => if all then LBody else LTest | _ => l end
      else l' = match l with LBody => LTest | _ => LEnded end
  | _ => l' = l
  end.

Inductive cstep : closing -> closing -> Prop :=
| c_push m m' l :
    push_step q m m' -> cstep (mkClosing m None l) (mkClosing m' None l)
| c_stop m l :
    mc_push m = PushIdle -> cstep (mkClosing m None l) (mkClosing m (Some (mc_push_view m)) l)
| c_running m f :
    mc_pop m = PopIdle -> cstep (mkClosing m f LTest) (mkClosing m f LBody)
| c_stopped m v :
    mc_pop m = PopIdle -> cstep (mkClosing m (Some v) LTest) (mkClosing (learn v m) (Some v) LDrain)
| c_pop m m' f l l' :
    l = LBody \/ l = LDrain -> pop_step q m m' -> loop_next l m m' l' ->
    cstep (mkClosing m f l) (mkClosing m' f l').

Definition closing_init : closing := mkClosing (machine_init q) None LTest.

(** ** Invariant *)

Hypothesis Hq : ring_wf q.

(** The consumer has seen the last push. *)
Definition sees_all m : Prop := vw_tail (mc_pop_view m) = length (mc_accepted m).

Record closing_inv (s : closing) (C : nat) : Prop := {
  ci_machine : machine_inv q (cl_machine s) C;
  ci_flag : forall v, cl_flag s = Some v ->
    v = mc_push_view (cl_machine s) /\ mc_push (cl_machine s) = PushIdle;
  ci_test : cl_loop s = LTest -> mc_pop (cl_machine s) = PopIdle;
  ci_drain : acquire = true -> cl_loop s = LDrain -> cl_flag s <> None /\ sees_all (cl_machine s);
  ci_ended : acquire = true -> cl_loop s = LEnded ->
    cl_flag s <> None /\ mc_delivered (cl_machine s) = mc_accepted (cl_machine s);
}.

Lemma pop_step_frame m m' :
  pop_step q m m' ->
  mc_accepted m' = mc_accepted m /\ mc_push m' = mc_push m /\ mc_push_view m' = mc_push_view m /\
  (vw_tail (mc_pop_view m) <= vw_tail (mc_pop_view m'))%nat.
Proof.
  intros Hs. destruct Hs; simpl; split_ands; try done; try lia.
  all: match goal with H : readable _ _ _ _ |- _ => destruct H end; lia.
Qed.

Lemma push_view_tail m C : machine_inv q m C -> vw_tail (mc_push_view m) = length (mc_accepted m).
Proof. intros Hinv. by destruct (mi_push _ _ _ Hinv). Qed.

Lemma sees_all_pop m m' C C' :
  machine_inv q m C -> machine_inv q m' C' -> pop_step q m m' -> sees_all m -> sees_all m'.
Proof.
  intros Hi Hi' Hs Hall. unfold sees_all in *. destruct (pop_step_frame _ _ Hs) as (Ha & _ & _ & Ht).
  destruct (mi_pop_knows _ _ _ Hi') as (_ & Hle & _). rewrite Ha in *. lia.
Qed.

(** Learning what the producer knew keeps the invariant. *)
Lemma learn_inv m C : machine_inv q m C -> mc_pop m = PopIdle -> machine_inv q (learn (mc_push_view m) m) C.
Proof.
  intros Hinv Hpop. unfold learn. destruct acquire; [|done]. destruct Hinv. split; try done; simpl.
  - by apply knows_join.
  - rewrite Hpop in *. destruct mi_push_knows as (Hh & _). destruct mi_pop as (Hw & Hc & Hr & Hpc). unfold pop_inv. simpl.
    split_ands; [lia|lia| |done]. intros k s Hs. specialize (Hr k s Hs). lia.
Qed.

(** A [pop] that finds the ring empty although the consumer has seen the last
    push: it is empty. *)
Lemma miss_empty m m' C :
  machine_inv q m C -> pop_step q m m' -> mc_missed m' <> mc_missed m -> sees_all m ->
  mc_delivered m' = mc_accepted m'.
Proof.
  intros Hinv Hs Hmiss Hall. unfold sees_all in Hall. destruct Hs; simpl in *; try done. clear Hmiss.
  pose proof (mi_pop _ _ _ Hinv) as (_ & Hcap & _ & HC & Hh). simpl in *. subst C h.
  destruct (acquire_tail q tl w ts msg (mi_tail_index _ _ _ Hinv) H) as (Hval & _ & Hts & Hlt).
  pose proof (mi_tail _ _ _ Hinv) as Htl. simpl in Htl. assert (ts = length i) as -> by lia.
  pose proof (mi_push _ _ _ Hinv) as (_ & Hroom & _). simpl in Hroom.
  pose proof (mi_push_knows _ _ _ Hinv) as (Hk & _). simpl in Hk.
  pose proof (mi_order _ _ _ Hinv) as Ho. simpl in Ho.
  assert (length o = length i) as Hlen.
  { destruct (decide (length o < length i)%nat) as [Hne|]; [exfalso|lia].
    apply (mod_ne (ring_capacity q) (Z.of_nat (length o)) (Z.of_nat (length i)));
      [by apply ring_capacity_pos|lia|lia|unfold index_of in *; congruence]. }
  rewrite Ho, Hlen. by rewrite firstn_all.
Qed.

Lemma cstep_inv s s' C : cstep s s' -> closing_inv s C -> exists C', closing_inv s' C'.
Proof.
  intros Hstep [Hm Hf Ht Hd He]. destruct Hstep as [m m' l Hs|m l Hi|m f Hi|m v Hi|m m' f l l' Hl Hs Hn]; simpl in *.
  - exists C. split; simpl; try done.
    + by eapply push_step_inv.
    + intros Hl. specialize (Ht Hl). destruct Hs; done.
    + intros Ha Hl. by destruct (Hd Ha Hl).
    + intros Ha Hl. by destruct (He Ha Hl).
  - exists C. split; simpl; try done.
    + by intros v [= <-].
    + intros Ha Hl. by destruct (Hd Ha Hl).
    + intros Ha Hl. by destruct (He Ha Hl).
  - exists C. by split.
  - destruct (Hf v eq_refl) as [-> Hidle]. exists C. split; simpl; try done.
    + by apply learn_inv.
    + intros v [= <-]. unfold learn. by destruct acquire.
    + intros Ha _. split; [done|]. unfold learn, sees_all. rewrite Ha. simpl.
      pose proof (push_view_tail _ _ Hm). destruct (mi_pop_knows _ _ _ Hm) as (_ & Hle & _). lia.
  - destruct (pop_step_inv q Hq _ _ _ Hs Hm) as [C' Hm']. destruct (pop_step_frame _ _ Hs) as (Ha & Hp & Hv & _).
    exists C'. unfold loop_next in Hn. split; simpl; try done.
    + intros v Hfv. rewrite Hv, Hp. by apply Hf.
    + intros ->. revert Hn. destruct Hl as [->| ->]; destruct (mc_pop m'); try done; by case_decide.
    + intros Hacq ->. assert (l = LDrain) as ->.
      { revert Hn. destruct Hl as [->| ->]; [|done]. destruct (mc_pop m'); try done.
        case_decide; by destruct all. }
      destruct (Hd Hacq eq_refl) as [Hfl Hall]. split; [done|]. exact (sees_all_pop _ _ _ _ Hm Hm' Hs Hall).
    + intros Hacq ->.
      assert (l = LDrain /\ mc_missed m' <> mc_missed m) as [-> Hmiss].
      { revert Hn. destruct Hl as [->| ->]; destruct (mc_pop m'); try done; case_decide; by destruct all. }
      destruct (Hd Hacq eq_refl) as [Hfl Hall]. split; [done|]. exact (miss_empty _ _ _ Hm Hs Hmiss Hall).
Qed.

Lemma rtc_cstep_inv s s' : rtc cstep s s' -> (exists C, closing_inv s C) -> exists C, closing_inv s' C.
Proof. induction 1 as [|s1 s2 s3 Hs _ IH]; [done|]. intros [C HC]. apply IH. by eapply cstep_inv. Qed.

Lemma closing_init_inv : rg_head q = 0 -> rg_tail q = 0 -> closing_inv closing_init 0.
Proof. intros Hh Ht. split; simpl; try done. by apply machine_init_inv. Qed.

(** The consumer can go on until it has ended. *)
Lemma closing_steps s C : closing_inv s C -> cl_loop s <> LEnded -> exists s', cstep s s'.
Proof.
  intros [Hm Hf Ht _ _] Hne. destruct s as [m f l]. simpl in *. destruct l; [| | |done].
  - eexists. by apply c_running, Ht.
  - destruct (inv_pop_steps q Hq m C Hm) as [m' Hs].
    exists (mkClosing m' f (match mc_pop m' with
      | PopIdle => if decide (mc_missed m' = mc_missed m) then if all then LBody else LTest else LTest
      | _ => LBody end)).
    apply c_pop; [by left|done|]. unfold loop_next. destruct (mc_pop m'); try done. by case_decide.
  - destruct (inv_pop_steps q Hq m C Hm) as [m' Hs].
    exists (mkClosing m' f (match mc_pop m' with
      | PopIdle => if decide (mc_missed m' = mc_missed m) then LDrain else LEnded | _ => LDrain end)).
    apply c_pop; [by right|done|]. unfold loop_next. destruct (mc_pop m'); try done. by case_decide.
Qed.
End close.

(** C31. A ring of [2^k] slots, with indices of [width] bits, and the loop of
    its consumer are correct in the C++ memory model with the memory orders of
    the source: in every execution there is no data race on a slot, the
    delivered items are the accepted ones in order, without loss or
    duplication, at most [2^k] are in flight, no thread ever waits for the
    other, and when the consumer has ended after the flag was cleared and
    loaded with acquire, every accepted item has been delivered. This includes
    the consumer that advances the head before it reads the slot. *)
Theorem ring_close_safe {A} width k (d : A) all s :
  0 <= k <= width ->
  let q := ring_new width (2 ^ k) d in
  rtc (cstep q true all) (closing_init q) s ->
  let m := cl_machine s in
  ~ data_race m /\
  (exists flight, mc_accepted m = mc_delivered m ++ flight /\ Z.of_nat (length flight) <= 2 ^ k) /\
  (cl_loop s = LEnded -> mc_delivered m = mc_accepted m) /\
  (cl_loop s <> LEnded -> exists s', cstep q true all s s').
Proof.
  intros Hk q Hs m. destruct (ring_new_holds width k d Hk) as [Hwf _].
  destruct (rtc_cstep_inv q true all Hwf _ _ Hs) as [C Hinv]; [exists 0%nat; by apply closing_init_inv|].
  pose proof (ci_machine _ _ _ _ Hinv) as Hm. split_ands.
  - by eapply machine_no_race.
  - destruct (inv_flight q _ _ Hm) as (flight & Hf & Hlen). exists flight. split; [done|].
    unfold ring_capacity in Hlen. simpl in Hlen. pose proof (Z.pow_pos_nonneg 2 k). lia.
  - intros Hl. by apply (ci_ended _ _ _ _ Hinv).
  - by eapply closing_steps.
Qed.

(** ** Two runs on a ring of two slots: the producer pushes 7 and clears the
    flag, then the consumer tests it *)

(** The values stored by the producer: the first tail, the second one. *)
Definition old_tail : message := mkMessage 0 (mkView 0 0 0 0).
Definition new_tail : message := mkMessage 1 (mkView 0 1 1 0).

(** After the push and the store of the flag. *)
Definition pushed : machine :=
  mkMachine [old_tail] [old_tail; new_tail] [mkSlot 7 1 0; mkSlot 0 0 0] PushIdle (mkView 0 1 1 0)
    PopIdle (mkView 0 0 0 0) [7] [] 0 0.

Lemma pushed_reachable acq :
  rtc (cstep two_slots acq false) (closing_init two_slots) (mkClosing pushed (Some (mkView 0 1 1 0)) LTest).
Proof.
  eapply rtc_l; [apply c_push; by apply (ps_load_tail _ _ _ _ _ _ _ _ _ _ _ 7 0 old_tail)|].
  eapply rtc_l; [apply c_push; apply (ps_room _ _ _ _ _ _ _ _ _ _ _ _ _ _ 0 old_tail); done|].
  eapply rtc_l; [apply c_push, ps_write|]. eapply rtc_l; [apply c_push, ps_store_tail|].
  eapply rtc_l; [by apply c_stop|]. apply rtc_refl.
Qed.

(** One access of the consumer, after which the loop is at [l]. *)
#[local] Ltac pop_step_by l t := eapply rtc_l; [eapply (c_pop _ _ _ _ _ _ _ l); [by right|t|reflexivity]|].

(** With a relaxed load of the flag, as in [Logger::writer_loop], the consumer
    may learn that it has to stop but still see the old tail: the accepted
    item is never delivered. *)
Theorem relaxed_flag_loses :
  exists s, rtc (cstep two_slots false false) (closing_init two_slots) s /\ cl_loop s = LEnded /\
    mc_accepted (cl_machine s) = [7] /\ mc_delivered (cl_machine s) = [].
Proof.
  eexists. split; [etrans; [apply pushed_reachable|]|].
  - eapply rtc_l; [by apply c_stopped|].
    pop_step_by LDrain ltac:(apply (pp_load_head _ _ _ _ _ _ _ _ _ _ _ 0 old_tail); done).
    pop_step_by LEnded ltac:(apply (pp_none _ _ _ _ _ _ _ _ _ _ _ _ 0 old_tail); done).
    apply rtc_refl.
  - done.
Qed.

(** With an acquire load it sees the new tail and drains the ring. *)
Lemma drained_reachable :
  exists s, rtc (cstep two_slots true false) (closing_init two_slots) s /\ cl_loop s = LEnded.
Proof.
  eexists. split; [etrans; [apply pushed_reachable|]|].
  - eapply rtc_l; [by apply c_stopped|].
    pop_step_by LDrain ltac:(apply (pp_load_head _ _ _ _ _ _ _ _ _ _ _ 0 old_tail); done).
    pop_step_by LDrain ltac:(apply (pp_some _ _ _ _ _ _ _ _ _ _ _ _ 1 new_tail); done).
    pop_step_by LDrain ltac:(by eapply pp_read).
    pop_step_by LDrain ltac:(apply pp_store_head).
    pop_step_by LDrain ltac:(apply (pp_load_head _ _ _ _ _ _ _ _ _ _ _ 1 (mkMessage 1 (mkView 1 1 1 1))); done).
    pop_step_by LEnded ltac:(apply (pp_none _ _ _ _ _ _ _ _ _ _ _ _ 1 new_tail); done).
    apply rtc_refl.
  - done.
Qed.

Lemma ring_close_safe_witness :
  exists s, rtc (cstep two_slots true false) (closing_init two_slots) s /\ cl_loop s = LEnded /\
    mc_delivered (cl_machine s) = mc_accepted (cl_machine s) /\ ~ data_race (cl_machine s).
Proof.
  destruct drained_reachable as (s & Hs & Hend). exists s. split; [exact Hs|]. split; [exact Hend|].
  destruct (ring_close_safe 64 1 0 false s ltac:(lia) Hs) as (Hrace & _ & Hall & _). split; [exact (Hall Hend)|exact Hrace].
Defined.
