(* ===== verification/Serializer.v ===== *)
(** * Serializer: messages in, events out

    Model of [src/src/serialization/serializer.hpp] and [serializer.cpp]. The
    JSON library (nlohmann::json) is not program code: it is a parameter with
    the constructors and accessors the serializer uses; an accessor returns
    [None] where the library throws. *)

From stdpp Require Import countable pretty.
From S2P Require Import Prelude Types Exchange Csv CsvProps.

(** ** The JSON library *)

Class JsonLib := {
  json : Type;
  json_parse : string -> option json;         (* json::parse *)
  json_dump : json -> string;                 (* dump() *)
  json_num : Z -> json;
  json_str : string -> json;
  json_array : list json -> json;
  json_object : list (string * json) -> json;
  json_at : json -> string -> option json;    (* at(key) *)
  get_u64 : json -> option Z;                 (* get<uint64_t>() *)
  get_i64 : json -> option Z;                 (* get<int64_t>() *)
  get_string : json -> option string;         (* get<std::string>() *)
}.

(** Documented behaviour of the library that the round trips rely on. *)
Class JsonLaws `{JsonLib} := {
  parse_dump j : json_parse (json_dump j) = Some j;
  at_object kvs k : json_at (json_object kvs) k =
    snd <$> head (filter (fun kv => kv.1 = k) kvs);
  get_u64_num z : is_u64 z -> get_u64 (json_num z) = Some z;
  get_i64_num z : is_i64 z -> get_i64 (json_num z) = Some z;
  get_string_str s : get_string (json_str s) = Some s;
}.

(** ** Names *)

Definition side_to_str (s : Side) : string := match s with Buy => "BUY" | Sell => "SELL" end.

Definition order_type_to_str (t : OrderType) : string :=
  match t with
  | Limit => "LIMIT" | Market => "MARKET" | Stop => "STOP" | StopLimit => "STOP_LIMIT"
  | Iceberg => "ICEBERG"
  end.

Definition reject_reason_to_str (r : RejectReason) : string :=
  match r with
  | InvalidPrice => "INVALID_PRICE"
  | InvalidQuantity => "INVALID_QUANTITY"
  | DuplicateOrderId => "DUPLICATE_ORDER_ID"
  | OrderNotFound => "ORDER_NOT_FOUND"
  | OrderNotCancellable => "ORDER_NOT_CANCELLABLE"
  | InvalidModify => "INVALID_MODIFY"
  | StopPriceInconsistent => "STOP_PRICE_INCONSISTENT"
  | PriceBandViolation => "PRICE_BAND_VIOLATION"
  | MaxSizeViolation => "MAX_SIZE_VIOLATION"
  | MarketExhausted => "MARKET_EXHAUSTED"
  | NoReason => "NONE"
  end.

Definition action_to_str (a : OrderAction) : string :=
  match a with NewOrder => "NEW_ORDER" | CancelOrder => "CANCEL_ORDER" end.

Definition json_parse_side (s : string) : option Side :=
  if decide (s = "BUY") then Some Buy else if decide (s = "SELL") then Some Sell else None.

Definition json_parse_order_type (s : string) : option OrderType :=
  if decide (s = "LIMIT") then Some Limit
  else if decide (s = "MARKET") then Some Market
  else if decide (s = "STOP") then Some Stop
  else if decide (s = "STOP_LIMIT") then Some StopLimit
  else if decide (s = "ICEBERG") then Some Iceberg
  else None.

Definition parse_action (s : string) : option OrderAction :=
  if decide (s = "NEW_ORDER") then Some NewOrder
  else if decide (s = "CANCEL_ORDER") then Some CancelOrder
  else None.

Section serializer.
Context `{JsonLib}.

(** ** Deserialization

    [j.value(key, default)]: the default when the key is absent; a value of
    another type throws. *)
Definition value_i64 (j : json) (key : string) (d : Z) : option Z :=
  match json_at j key with Some v => get_i64 v | None => Some d end.
Definition value_u64 (j : json) (key : string) (d : Z) : option Z :=
  match json_at j key with Some v => get_u64 v | None => Some d end.

Definition deserialize_order (json_str : string) : option OrderMessage :=
  j ← json_parse json_str;
  order_id ← json_at j "order_id" ≫= get_u64;
  client_id ← json_at j "client_id" ≫= get_u64;
  symbol ← json_at j "symbol" ≫= get_string;
  quantity ← json_at j "quantity" ≫= get_u64;
  price ← value_i64 j "price" 0;
  stop_price ← value_i64 j "stop_price" 0;
  peak_qty ← value_u64 j "peak_qty" 0;
  timestamp ← value_u64 j "timestamp" 0;
  action ← (json_at j "action" ≫= get_string) ≫= parse_action;
  side ← (json_at j "side" ≫= get_string) ≫= json_parse_side;
  type ← (json_at j "type" ≫= get_string) ≫= json_parse_order_type;
  Some (mkMessage order_id client_id symbol side type quantity price stop_price peak_qty timestamp
    action).

(** ** Serialization *)

Definition depth_json (levels : list (Z * Z)) : json :=
  json_array (map (fun '(px, qty) =>
    json_object [("price", json_num px); ("qty", json_num qty)]) levels).

Definition serialize_event (ev : ExchangeEvent) : string :=
  match ev with
  | EvTrade e => "TRADE " +:+ json_dump (json_object
      [("ts", json_num (tex_timestamp e)); ("type", json_str "TRADE");
       ("symbol", json_str (tex_symbol e)); ("buy_id", json_num (tex_buy_order_id e));
       ("sell_id", json_num (tex_sell_order_id e)); ("price", json_num (tex_price e));
       ("qty", json_num (tex_quantity e))])
  | EvBook e => "BOOK " +:+ json_dump (json_object
      [("ts", json_num (bku_timestamp e)); ("type", json_str "BOOK");
       ("symbol", json_str (bku_symbol e)); ("best_bid", json_num (bku_best_bid e));
       ("best_ask", json_num (bku_best_ask e)); ("spread", json_num (bku_spread e));
       ("bid_levels", json_num (bku_bid_levels e)); ("ask_levels", json_num (bku_ask_levels e))])
  | EvSnapshot e => "SNAPSHOT " +:+ json_dump (json_object
      [("ts", json_num (snp_timestamp e)); ("type", json_str "SNAPSHOT");
       ("symbol", json_str (snp_symbol e)); ("last_trade_price", json_num (snp_last_trade_price e));
       ("best_bid", json_num (snp_best_bid e)); ("best_ask", json_num (snp_best_ask e));
       ("bids", depth_json (snp_bids e)); ("asks", depth_json (snp_asks e))])
  | EvAccepted e => "ACCEPTED " +:+ json_dump (json_object
      [("ts", json_num (acc_timestamp e)); ("type", json_str "ACCEPTED");
       ("symbol", json_str (acc_symbol e)); ("order_id", json_num (acc_order_id e));
       ("cid", json_num (acc_client_id e)); ("price", json_num (acc_price e));
       ("qty", json_num (acc_quantity e)); ("side", json_str (side_to_str (acc_side e)));
       ("otype", json_str (order_type_to_str (acc_type e)))])
  | EvRejected e => "REJECTED " +:+ json_dump (json_object
      [("ts", json_num (rej_timestamp e)); ("type", json_str "REJECTED");
       ("symbol", json_str (rej_symbol e)); ("order_id", json_num (rej_order_id e));
       ("cid", json_num (rej_client_id e)); ("reason", json_str (reject_reason_to_str (rej_reason e)))])
  | EvCanceled e => "CANCELED " +:+ json_dump (json_object
      [("ts", json_num (can_timestamp e)); ("type", json_str "CANCELED");
       ("symbol", json_str (can_symbol e)); ("order_id", json_num (can_order_id e));
       ("remaining_qty", json_num (can_remaining_qty e))])
  end.

(** ** The client's encoding of a message *)

Definition message_json (msg : OrderMessage) : json := json_object
  [("order_id", json_num (msg_order_id msg)); ("client_id", json_num (msg_client_id msg));
   ("symbol", json_str (msg_symbol msg)); ("side", json_str (side_to_str (msg_side msg)));
   ("type", json_str (order_type_to_str (msg_type msg)));
   ("quantity", json_num (msg_quantity msg)); ("price", json_num (msg_price msg));
   ("stop_price", json_num (msg_stop_price msg)); ("peak_qty", json_num (msg_peak_qty msg));
   ("timestamp", json_num (msg_timestamp msg)); ("action", json_str (action_to_str (msg_action msg)))].

(** The field types of a message. *)
Definition message_ranges (msg : OrderMessage) : Prop :=
  is_u64 (msg_order_id msg) /\ is_u64 (msg_client_id msg) /\ is_u64 (msg_quantity msg) /\
  is_i64 (msg_price msg) /\ is_i64 (msg_stop_price msg) /\ is_u64 (msg_peak_qty msg) /\
  is_u64 (msg_timestamp msg).

Lemma parse_side_to_str s : json_parse_side (side_to_str s) = Some s.
Proof. by destruct s. Qed.
Lemma parse_order_type_to_str t : json_parse_order_type (order_type_to_str t) = Some t.
Proof. by destruct t. Qed.
Lemma parse_action_to_str a : parse_action (action_to_str a) = Some a.
Proof. by destruct a. Qed.
End serializer.

Lemma deserialize_message `{JsonLaws} msg :
  message_ranges msg -> deserialize_order (json_dump (message_json msg)) = Some msg.
Proof.
  intros (? & ? & ? & ? & ? & ? & ?). unfold deserialize_order, value_i64, value_u64.
  rewrite parse_dump. simpl. unfold message_json. rewrite !at_object. simpl.
  repeat (rewrite get_u64_num || rewrite get_i64_num || rewrite get_string_str); try done. simpl.
  rewrite parse_action_to_str, parse_side_to_str, parse_order_type_to_str. by destruct msg.
Qed.

(** A message encoded as a JSON object with the documented keys and names
    is deserialized to the same message. *)
Theorem deserialize_roundtrip `{JsonLaws} msg :
  message_ranges msg -> deserialize_order (json_dump (message_json msg)) = Some msg.
Proof. apply deserialize_message. Qed.

(** ** A concrete library

    The parameter can be instantiated: JSON values are trees, printed as the
    number that encodes them. *)

Definition tree_json : Type := gen_tree (Z + string).

Definition tree_member (k : string) (t : tree_json) : option tree_json :=
  match t with
  | GenNode 2 [GenLeaf (inr k'); v] => if decide (k' = k) then Some v else None
  | _ => None
  end.

Definition tree_num (t : tree_json) : option Z := match t with GenLeaf (inl z) => Some z | _ => None end.

#[local] Instance tree_lib : JsonLib := {
  json := tree_json;
  json_parse s := '(_, n) ← strto s; decode (Z.to_pos n);
  json_dump t := pretty (Zpos (encode t));
  json_num z := GenLeaf (inl z);
  json_str s := GenLeaf (inr s);
  json_array l := GenNode 0 l;
  json_object kvs := GenNode 1 (map (fun kv => GenNode 2 [GenLeaf (inr kv.1); kv.2]) kvs);
  json_at t k := match t with GenNode 1 l => head (omap (tree_member k) l) | _ => None end;
  get_u64 t := z ← tree_num t; if decide (is_u64 z) then Some z else None;
  get_i64 t := z ← tree_num t; if decide (is_i64 z) then Some z else None;
  get_string t := match t with GenLeaf (inr s) => Some s | _ => None end;
}.

#[local] Instance tree_laws : JsonLaws.
Proof.
  split.
  - intros t. simpl. rewrite strto_pretty. simpl. apply decode_encode.
  - intros kvs k. simpl. induction kvs as [|[k' v] kvs IH]; [done|]. simpl. rewrite filter_cons. simpl.
    case_decide; [done|]. apply IH.
  - intros z Hz. simpl. by rewrite decide_True.
  - intros z Hz. simpl. by rewrite decide_True.
  - done.
Qed.

Lemma deserialize_roundtrip_witness :
  deserialize_order (json_dump (message_json
    (mkMessage 4 7 "STOCK_1" Buy StopLimit 10 (-3) 99 0 5 NewOrder))) =
  Some (mkMessage 4 7 "STOCK_1" Buy StopLimit 10 (-3) 99 0 5 NewOrder).
Proof. apply deserialize_roundtrip. by vm_compute. Defined.
