(* ===== verification/Gateway.v ===== *)
(** * Gateway: the threads of the exchange service

    Model of [src/src/gateway/gateway.hpp], [gateway.cpp],
    [event_dispatcher.hpp], [event_dispatcher.cpp], [replay_logger.hpp] and
    [replay_logger.cpp]: receiver (T1), exchange thread (T2), publisher (T3)
    and replay writer (T4), connected by bounded queues. The queues are used
    through the interface of [Ring]; sockets and files are the lists of what
    was sent and written; [RingThreads] and [RingMemory] justify taking a queue
    operation as one step. *)

From S2P Require Import Prelude Types PriceLevel OrderBook Engine Exchange Ring Serializer.

Section gateway.
Context `{JsonLib}.
Context {QM QE QS : Type}.
Context `{!BoundedQueue QM OrderMessage, !BoundedQueue QE ExchangeEvent, !BoundedQueue QS string}.

(** ** EventDispatcher *)

Record EventDispatcher := mkDispatcher {
  disp_queue : QE;
  disp_drops : Z;
  disp_sent : list string;   (* what was handed to zmq_send *)
}.

Definition enqueue_event (ev : ExchangeEvent) (d : EventDispatcher) : EventDispatcher :=
  let '(ok, q) := enqueue ev (disp_queue d) in
  if (ok : bool) then mkDispatcher q (disp_drops d) (disp_sent d)
  else mkDispatcher (disp_queue d) (u64 (disp_drops d + 1)) (disp_sent d).

Definition enqueue_events (evs : list ExchangeEvent) (d : EventDispatcher) : EventDispatcher :=
  foldl (fun d ev => enqueue_event ev d) d evs.

(** One iteration of [publisher_loop]: the event sent, if there was one. *)
Definition publish_one (d : EventDispatcher) : bool * EventDispatcher :=
  match dequeue (disp_queue d) with
  | (None, _) => (false, d)
  | (Some ev, q) =>
      let msg := serialize_event ev in
      (true, mkDispatcher q (disp_drops d)
        (if decide (msg = EmptyString) then disp_sent d else disp_sent d ++ [msg]))
  end.

(** The drain before the publisher exits. *)
Fixpoint publish_drain (fuel : nat) (d : EventDispatcher) : res EventDispatcher :=
  match fuel with
  | O => NoFuel
  | S fuel => let '(more, d) := publish_one d in if (more : bool) then publish_drain fuel d else Ok d
  end.

(** ** ReplayLogger *)

Record ReplayLogger := mkReplay {
  rl_queue : QS;
  rl_drops : Z;
  rl_file : list string;     (* the lines written *)
}.

Definition log_event (ev : ExchangeEvent) (r : ReplayLogger) : ReplayLogger :=
  let '(ok, q) := enqueue (serialize_event ev) (rl_queue r) in
  if (ok : bool) then mkReplay q (rl_drops r) (rl_file r)
  else mkReplay (rl_queue r) (u64 (rl_drops r + 1)) (rl_file r).

Definition write_one (r : ReplayLogger) : bool * ReplayLogger :=
  match dequeue (rl_queue r) with
  | (None, _) => (false, r)
  | (Some line, q) =>
      (true, mkReplay q (rl_drops r)
        (if decide (line = EmptyString) then rl_file r else rl_file r ++ [line]))
  end.

Fixpoint write_drain (fuel : nat) (r : ReplayLogger) : res ReplayLogger :=
  match fuel with
  | O => NoFuel
  | S fuel => let '(more, r) := write_one r in if (more : bool) then write_drain fuel r else Ok r
  end.

(** ** Gateway *)

Record Gateway := mkGateway {
  gw_exchange : ExchangeManager;
  gw_dispatcher : EventDispatcher;
  gw_replay : ReplayLogger;
  gw_inbound : QM;
  gw_inbound_drops : Z;
}.

Definition inbound_push (msg : OrderMessage) (g : Gateway) : bool * Gateway :=
  let '(ok, q) := enqueue msg (gw_inbound g) in
  if (ok : bool) then
    (true, mkGateway (gw_exchange g) (gw_dispatcher g) (gw_replay g) q (gw_inbound_drops g))
  else
    (false, mkGateway (gw_exchange g) (gw_dispatcher g) (gw_replay g) (gw_inbound g)
              (u64 (gw_inbound_drops g + 1))).

Definition inbound_pop (g : Gateway) : option OrderMessage * Gateway :=
  match dequeue (gw_inbound g) with
  | (None, _) => (None, g)
  | (Some msg, q) =>
      (Some msg, mkGateway (gw_exchange g) (gw_dispatcher g) (gw_replay g) q (gw_inbound_drops g))
  end.

(** One received frame in [receiver_loop]. *)
Definition receive (raw : string) (g : Gateway) : Gateway :=
  match deserialize_order raw with
  | None => g
  | Some msg => if has_symbol (msg_symbol msg) (gw_exchange g) then (inbound_push msg g).2 else g
  end.

(** What the exchange thread still has to hand over. *)
Inductive output := ToLog (ev : ExchangeEvent) | ToPub (ev : ExchangeEvent).

Definition hand_over (o : output) (g : Gateway) : Gateway :=
  match o with
  | ToLog ev => mkGateway (gw_exchange g) (gw_dispatcher g) (log_event ev (gw_replay g)) (gw_inbound g)
                  (gw_inbound_drops g)
  | ToPub ev => mkGateway (gw_exchange g) (enqueue_event ev (gw_dispatcher g)) (gw_replay g) (gw_inbound g)
                  (gw_inbound_drops g)
  end.

(** The events of a message are all logged, then all enqueued. *)
Definition message_outputs (evs : list ExchangeEvent) : list output := map ToLog evs ++ map ToPub evs.

(** Snapshots are logged and enqueued one by one. *)
Definition snapshot_outputs (snaps : list SnapshotEvent) : list output :=
  mjoin (map (fun s => [ToLog (EvSnapshot s); ToPub (EvSnapshot s)]) snaps).

Definition hand_over_all (outs : list output) (g : Gateway) : Gateway := foldl (fun g o => hand_over o g) g outs.

Definition set_exchange (x : ExchangeManager) (g : Gateway) : Gateway :=
  mkGateway x (gw_dispatcher g) (gw_replay g) (gw_inbound g) (gw_inbound_drops g).

(** The inner loop of [exchange_loop]: [clock k] are the two clock readings of
    the message number [k]. *)
Fixpoint drain_inbound (fuel engine_fuel : nat) (clock : nat -> Z * Z) (k : nat) (g : Gateway) : res Gateway :=
  match fuel with
  | O => NoFuel
  | S fuel =>
      match inbound_pop g with
      | (None, g) => Ok g
      | (Some msg, g) =>
          let '(now, ts) := clock k in
          '(x, evs) ← process engine_fuel now ts msg (gw_exchange g);
          drain_inbound fuel engine_fuel clock (S k) (hand_over_all (message_outputs evs) (set_exchange x g))
      end
  end.

(** The snapshot branch of [exchange_loop]. *)
Definition take_snapshots (ts : nat -> Z) (g : Gateway) : res Gateway :=
  snaps ← snapshot_all ts (gw_exchange g);
  Ok (hand_over_all (snapshot_outputs snaps) g).

(** ** Interleavings

    A state of the running service: the gateway, the outputs the exchange
    thread has still to hand over, and the history: all outputs emitted so far,
    messages accepted into the inbound queue, messages processed, events offered
    to and accepted by the dispatcher and the replay logger, frames received. *)
Record service := mkService {
  sv_gateway : Gateway;
  sv_todo : list output;
  sv_emitted : list output;
  sv_accepted : list OrderMessage;
  sv_processed : list OrderMessage;
  sv_offered : list ExchangeEvent;
  sv_published : list ExchangeEvent;
  sv_logged_offered : list ExchangeEvent;
  sv_logged : list ExchangeEvent;
  sv_received : list string;
}.

(** Did the queue accept the offered event? *)
Definition accepts_event (ev : ExchangeEvent) (d : EventDispatcher) : bool := (enqueue ev (disp_queue d)).1.
Definition accepts_line (ev : ExchangeEvent) (r : ReplayLogger) : bool :=
  (enqueue (serialize_event ev) (rl_queue r)).1.
Definition accepts_message (raw : string) (g : Gateway) : option OrderMessage :=
  match deserialize_order raw with
  | Some msg =>
      if has_symbol (msg_symbol msg) (gw_exchange g) && (enqueue msg (gw_inbound g)).1 then Some msg else None
  | None => None
  end.

Definition set_dispatcher (d : EventDispatcher) (g : Gateway) : Gateway :=
  mkGateway (gw_exchange g) d (gw_replay g) (gw_inbound g) (gw_inbound_drops g).
Definition set_replay (r : ReplayLogger) (g : Gateway) : Gateway :=
  mkGateway (gw_exchange g) (gw_dispatcher g) r (gw_inbound g) (gw_inbound_drops g).

Inductive sstep : service -> service -> Prop :=
| s_receive g todo em acc pr off pub loff log rcv raw :
    sstep (mkService g todo em acc pr off pub loff log rcv)
      (mkService (receive raw g) todo em (acc ++ option_list (accepts_message raw g)) pr off pub loff log (rcv ++ [raw]))
| s_process g em acc pr off pub loff log rcv msg g' fuel now ts x evs :
    inbound_pop g = (Some msg, g') -> process fuel now ts msg (gw_exchange g') = Ok (x, evs) ->
    sstep (mkService g [] em acc pr off pub loff log rcv)
      (mkService (set_exchange x g') (message_outputs evs) (em ++ message_outputs evs) acc (pr ++ [msg]) off pub loff log rcv)
| s_snapshot g em acc pr off pub loff log rcv ts snaps :
    snapshot_all ts (gw_exchange g) = Ok snaps ->
    sstep (mkService g [] em acc pr off pub loff log rcv)
      (mkService g (snapshot_outputs snaps) (em ++ snapshot_outputs snaps) acc pr off pub loff log rcv)
| s_log g todo em acc pr off pub loff log rcv ev :
    sstep (mkService g (ToLog ev :: todo) em acc pr off pub loff log rcv)
      (mkService (hand_over (ToLog ev) g) todo em acc pr off pub (loff ++ [ev])
        (log ++ if accepts_line ev (gw_replay g) then [ev] else []) rcv)
| s_enqueue g todo em acc pr off pub loff log rcv ev :
    sstep (mkService g (ToPub ev :: todo) em acc pr off pub loff log rcv)
      (mkService (hand_over (ToPub ev) g) todo em acc pr (off ++ [ev])
        (pub ++ if accepts_event ev (gw_dispatcher g) then [ev] else []) loff log rcv)
| s_publish g todo em acc pr off pub loff log rcv :
    sstep (mkService g todo em acc pr off pub loff log rcv)
      (mkService (set_dispatcher (publish_one (gw_dispatcher g)).2 g) todo em acc pr off pub loff log rcv)
| s_write g todo em acc pr off pub loff log rcv :
    sstep (mkService g todo em acc pr off pub loff log rcv)
      (mkService (set_replay (write_one (gw_replay g)).2 g) todo em acc pr off pub loff log rcv).

Definition service_init (qm : QM) (qe : QE) (qs : QS) : service :=
  mkService (mkGateway new_exchange (mkDispatcher qe 0 []) (mkReplay qs 0 []) qm 0) [] [] [] [] [] [] [] [] [].
End gateway.
