(* ===== verification/GatewayProps.v ===== *)
(** * GatewayProps: delivery and safety of the exchange service

    For any queues that satisfy the interface: in every interleaving of the
    four threads messages are processed in the order of acceptance, events are
    sent and logged in the order of emission, losses are exactly the counted
    drops, and no message of a session with fresh ids reaches undefined
    behaviour. *)

From S2P Require Import Prelude Types PriceLevel OrderBook Engine Market EngineRefine EngineEvents.
From S2P Require Import Session Trading Guarantees Exchange ExchangeProps Ring Serializer Gateway.

Section gateway.
Context `{JsonLib}.
Context {QM QE QS : Type}.
Context `{!BoundedQueue QM OrderMessage, !BoundedQueue QE ExchangeEvent, !BoundedQueue QS string}.
Context `{!BoundedQueueLaws QM OrderMessage, !BoundedQueueLaws QE ExchangeEvent, !BoundedQueueLaws QS string}.

(** ** Queue operations by what the queues hold *)

Lemma enqueue_cases {Q A} `{BoundedQueueLaws Q A} (a : A) (q : Q) l :
  holds q l ->
  enqueue a q = (false, q) \/ exists q', enqueue a q = (true, q') /\ holds q' (l ++ [a]).
Proof.
  intros Hl. pose proof (enqueue_holds a q l Hl) as He. case_decide; [by left|right].
  destruct He as (q' & ? & ? & _). by exists q'.
Qed.

Lemma serialize_nonempty ev : serialize_event ev <> EmptyString.
Proof. by destruct ev. Qed.

Lemma add_drop (n : Z) : u64 (u64 n + 1) = u64 (n + 1).
Proof. unfold u64. by rewrite Zplus_mod_idemp_l. Qed.

(** ** The invariant *)

Definition to_pub (o : output) : option ExchangeEvent := match o with ToPub ev => Some ev | _ => None end.
Definition to_log (o : output) : option ExchangeEvent := match o with ToLog ev => Some ev | _ => None end.

(** Number of elements of [all] that are missing in [some]. *)
Definition missing {A} (all some : list A) : Z := Z.of_nat (length all) - Z.of_nat (length some).

Record dispatcher_inv (off pub : list ExchangeEvent) (d : EventDispatcher (QE := QE)) : Prop := {
  di_queue : exists l, holds (disp_queue d) l /\
    disp_sent d ++ map serialize_event l = map serialize_event pub;
  di_sub : sublist pub off;
  di_drops : disp_drops d = u64 (missing off pub);
}.

Record replay_inv (off log : list ExchangeEvent) (r : ReplayLogger (QS := QS)) : Prop := {
  ri_queue : exists l, holds (rl_queue r) l /\ rl_file r ++ l = map serialize_event log;
  ri_sub : sublist log off;
  ri_drops : rl_drops r = u64 (missing off log);
}.

Definition delivery_inv (s : service (QM := QM) (QE := QE) (QS := QS)) : Prop :=
  (exists l, holds (gw_inbound (sv_gateway s)) l /\ sv_accepted s = sv_processed s ++ l) /\
  (exists done, sv_emitted s = done ++ sv_todo s /\
    sv_offered s = omap to_pub done /\ sv_logged_offered s = omap to_log done) /\
  dispatcher_inv (sv_offered s) (sv_published s) (gw_dispatcher (sv_gateway s)) /\
  replay_inv (sv_logged_offered s) (sv_logged s) (gw_replay (sv_gateway s)).

Lemma missing_same {A} (l1 l2 : list A) a : missing (l1 ++ [a]) (l2 ++ [a]) = missing l1 l2.
Proof. unfold missing. rewrite !length_app. simpl. lia. Qed.

Lemma missing_drop {A} (l1 l2 : list A) a : missing (l1 ++ [a]) (l2 ++ []) = missing l1 l2 + 1.
Proof. unfold missing. rewrite app_nil_r, length_app. simpl. lia. Qed.

Lemma enqueue_event_inv off pub d ev :
  dispatcher_inv off pub d ->
  dispatcher_inv (off ++ [ev]) (pub ++ if accepts_event ev d then [ev] else []) (enqueue_event ev d).
Proof.
  intros [(l & Hl & Hsent) Hsub Hdrops]. unfold accepts_event, enqueue_event.
  destruct (enqueue_cases ev (disp_queue d) l Hl) as [->|(q' & -> & Hl')]; simpl; split; simpl.
  - exists l. split; [done|]. by rewrite app_nil_r.
  - rewrite app_nil_r. by apply sublist_inserts_r.
  - by rewrite Hdrops, missing_drop, add_drop.
  - exists (l ++ [ev]). split; [done|]. by rewrite !map_app, assoc, Hsent by apply _.
  - by apply sublist_app.
  - by rewrite missing_same.
Qed.

Lemma publish_one_inv off pub d : dispatcher_inv off pub d -> dispatcher_inv off pub (publish_one d).2.
Proof.
  intros [(l & Hl & Hsent) Hsub Hdrops]. unfold publish_one.
  pose proof (dequeue_holds _ _ Hl) as Hd. destruct l as [|ev l].
  - rewrite Hd. by split; [exists []|..].
  - destruct Hd as (q' & -> & Hl' & _). simpl. rewrite decide_False by apply serialize_nonempty.
    split; simpl; [|done..]. exists l. split; [done|]. by rewrite <- Hsent, <- app_assoc.
Qed.

Lemma log_event_inv off log r ev :
  replay_inv off log r ->
  replay_inv (off ++ [ev]) (log ++ if accepts_line ev r then [ev] else []) (log_event ev r).
Proof.
  intros [(l & Hl & Hfile) Hsub Hdrops]. unfold accepts_line, log_event.
  destruct (enqueue_cases (serialize_event ev) (rl_queue r) l Hl) as [->|(q' & -> & Hl')]; simpl; split; simpl.
  - exists l. split; [done|]. by rewrite app_nil_r.
  - rewrite app_nil_r. by apply sublist_inserts_r.
  - by rewrite Hdrops, missing_drop, add_drop.
  - exists (l ++ [serialize_event ev]). split; [done|]. by rewrite map_app, assoc, Hfile by apply _.
  - by apply sublist_app.
  - by rewrite missing_same.
Qed.

(** Lines in the replay queue are serialized events, hence not empty. *)
Lemma write_one_inv off log r : replay_inv off log r -> replay_inv off log (write_one r).2.
Proof.
  intros [(l & Hl & Hfile) Hsub Hdrops]. unfold write_one.
  pose proof (dequeue_holds _ _ Hl) as Hd. destruct l as [|line l].
  - rewrite Hd. by split; [exists []|..].
  - destruct Hd as (q' & -> & Hl' & _). simpl. rewrite decide_False.
    + split; simpl; [|done..]. exists l. split; [done|]. by rewrite <- Hfile, <- app_assoc.
    + assert (line ∈ map serialize_event log) as (ev & -> & _)%list_elem_of_fmap
        by (rewrite <- Hfile; set_solver).
      apply serialize_nonempty.
Qed.

Lemma receive_inv raw (g : Gateway (QM := QM) (QE := QE) (QS := QS)) l :
  holds (gw_inbound g) l ->
  holds (gw_inbound (receive raw g)) (l ++ option_list (accepts_message raw g)) /\
  gw_exchange (receive raw g) = gw_exchange g /\ gw_dispatcher (receive raw g) = gw_dispatcher g /\
  gw_replay (receive raw g) = gw_replay g.
Proof.
  intros Hl. unfold receive, accepts_message, inbound_push.
  destruct (deserialize_order raw) as [msg|]; simpl; [|by rewrite app_nil_r].
  destruct (has_symbol _ _); simpl; [|by rewrite app_nil_r].
  destruct (enqueue_cases msg (gw_inbound g) l Hl) as [->|(q' & -> & Hl')]; simpl;
    [by rewrite app_nil_r|done].
Qed.

Lemma inbound_pop_inv (g g' : Gateway (QM := QM) (QE := QE) (QS := QS)) l msg :
  holds (gw_inbound g) l -> inbound_pop g = (Some msg, g') ->
  exists l', l = msg :: l' /\ holds (gw_inbound g') l' /\ gw_exchange g' = gw_exchange g /\
    gw_dispatcher g' = gw_dispatcher g /\ gw_replay g' = gw_replay g.
Proof.
  intros Hl. unfold inbound_pop. pose proof (dequeue_holds _ _ Hl) as Hd. destruct l as [|m l].
  - by rewrite Hd.
  - destruct Hd as (q' & -> & Hl' & _). intros [= <- <-]. by exists l.
Qed.

Lemma sstep_delivery (s s' : service (QM := QM) (QE := QE) (QS := QS)) : sstep s s' -> delivery_inv s -> delivery_inv s'.
Proof.
  intros Hstep ((l & Hl & Hacc) & (done & Hem & Hoff & Hloff) & Hd & Hr). unfold delivery_inv.
  destruct Hstep; simpl in *.
  - destruct (receive_inv raw g l Hl) as (Hl' & _ & -> & ->). split_ands; try done.
    + eexists. split; [done|]. by rewrite Hacc, app_assoc.
    + by exists done.
  - destruct (inbound_pop_inv _ _ _ _ Hl H0) as (l' & -> & Hl' & _ & -> & ->). split_ands; try done.
    + exists l'. split; [done|]. by rewrite Hacc, <- app_assoc.
    + exists done. by rewrite Hem, app_nil_r.
  - split_ands; try done.
    + by exists l.
    + exists done. by rewrite Hem, app_nil_r.
  - split_ands; try done.
    + by exists l.
    + exists (done ++ [ToLog ev]). rewrite !omap_app, Hem, <- app_assoc. simpl.
      by rewrite app_nil_r, Hloff.
    + by apply log_event_inv.
  - split_ands; try done.
    + by exists l.
    + exists (done ++ [ToPub ev]). rewrite !omap_app, Hem, <- app_assoc. simpl.
      by rewrite app_nil_r, Hoff.
    + by apply enqueue_event_inv.
  - split_ands; try done; [by exists l|by exists done|by apply publish_one_inv].
  - split_ands; try done; [by exists l|by exists done|by apply write_one_inv].
Qed.

Lemma rtc_delivery (s s' : service (QM := QM) (QE := QE) (QS := QS)) : rtc sstep s s' -> delivery_inv s -> delivery_inv s'.
Proof. induction 1; eauto using sstep_delivery. Qed.

Lemma service_init_delivery (qm : QM) (qe : QE) (qs : QS) :
  holds qm [] -> holds qe [] -> holds qs [] -> delivery_inv (service_init qm qe qs).
Proof.
  intros Hm He Hs. unfold delivery_inv. split_ands; simpl.
  - by exists [].
  - by exists [].
  - split; simpl; [by exists []|constructor|done].
  - split; simpl; [by exists []|constructor|done].
Qed.

(** ** The exchange of the service is the sequential exchange *)

Implicit Types (s : service (QM := QM) (QE := QE) (QS := QS)).
Implicit Types (g : Gateway (QM := QM) (QE := QE) (QS := QS)).

Definition is_snapshot (ev : ExchangeEvent) : bool := match ev with EvSnapshot _ => true | _ => false end.

(** The events of messages among the emitted ones, without the snapshots. *)
Definition message_events (evs : list ExchangeEvent) : list ExchangeEvent :=
  filter (fun ev => is_snapshot ev = false) evs.

Definition sequential_inv s : Prop :=
  exists fuel msgs evss, map snd msgs = sv_processed s /\
    process_all fuel msgs new_exchange = Ok (gw_exchange (sv_gateway s), evss) /\
    message_events (omap to_pub (sv_emitted s)) = mjoin evss /\
    message_events (omap to_log (sv_emitted s)) = mjoin evss.

Lemma process_all_snoc fuel msgs now ts msg x x1 evss x2 evs :
  process_all fuel msgs x = Ok (x1, evss) -> process fuel now ts msg x1 = Ok (x2, evs) ->
  process_all fuel (msgs ++ [(now, ts, msg)]) x = Ok (x2, evss ++ [evs]).
Proof.
  revert x evss. induction msgs as [|[[now' ts'] msg'] msgs IH]; intros x evss; simpl.
  { intros [= -> <-] Hp. by rewrite Hp. }
  intros ([x' evs'] & Hp' & ([x3 evss'] & Hr & [= -> <-])%bind_ok_inv)%bind_ok_inv Hp.
  by rewrite Hp', bind_ok, (IH _ _ Hr Hp).
Qed.

Lemma process_no_snapshot fuel now ts msg x x' evs :
  process fuel now ts msg x = Ok (x', evs) -> message_events evs = evs.
Proof.
  unfold process. destruct (index x !! _) as [k|]; [|by intros [= _ <-]].
  destruct (instruments x !! k) as [instr|]; [|done].
  intros ([e r] & _ & (evs' & Ht & [= _ <-])%bind_ok_inv)%bind_ok_inv.
  apply bind_ok_inv in Ht as (spr & _ & [= <-]). unfold message_events.
  apply filter_all. intros ev. rewrite !elem_of_app, !list_elem_of_fmap.
  intros [(? & -> & _)|[Hc|[(? & -> & _)|[Ha|Hu]]]]; try done.
  - apply list_elem_of_join in Hc as (l & Hl & (rep & -> & _)%list_elem_of_fmap).
    unfold cancel_events in Hl. case_decide; set_solver.
  - unfold accept_events in Ha. case_decide; set_solver.
  - by apply list_elem_of_singleton in Hu as ->.
Qed.

Lemma omap_message_outputs evs :
  omap to_pub (message_outputs evs) = evs /\ omap to_log (message_outputs evs) = evs.
Proof.
  unfold message_outputs. rewrite !omap_app.
  assert (omap to_pub (map ToLog evs) = [] /\ omap to_pub (map ToPub evs) = evs /\
    omap to_log (map ToLog evs) = evs /\ omap to_log (map ToPub evs) = []) as (-> & -> & -> & ->).
  { induction evs as [|ev evs (IH1 & IH2 & IH3 & IH4)]; [done|].
    by split_ands; [apply IH1|simpl; f_equal; apply IH2|simpl; f_equal; apply IH3|apply IH4]. }
  by rewrite app_nil_r.
Qed.

Lemma omap_snapshot_outputs snaps :
  message_events (omap to_pub (snapshot_outputs snaps)) = [] /\
  message_events (omap to_log (snapshot_outputs snaps)) = [].
Proof. unfold message_events. induction snaps as [|sn snaps [IH1 IH2]]; [done|]. split; [apply IH1|apply IH2]. Qed.

Lemma sstep_sequential s s' : sstep s s' -> sequential_inv s -> sequential_inv s'.
Proof.
  intros Hstep (n & msgs & evss & Hmsgs & Hrun & Hpub & Hlog). unfold sequential_inv.
  destruct Hstep; simpl in *; try by exists n, msgs, evss.
  - exists n, msgs, evss. split_ands; try done. rewrite Hrun. f_equal. f_equal. unfold receive.
    destruct (deserialize_order raw) as [msg|]; [|done]. destruct (has_symbol _ _); [|done].
    unfold inbound_push. by destruct (enqueue _ _) as [[] ?].
  - exists (Nat.max n fuel), (msgs ++ [(now, ts, msg)]), (evss ++ [evs]).
    assert (gw_exchange g' = gw_exchange g) as Hx.
    { unfold inbound_pop in *. destruct (dequeue _) as [[] ?]; [|done]. by injection H0 as _ <-. }
    rewrite Hx in H1. rewrite map_app, Hmsgs. split; [done|]. split.
    { apply process_all_snoc with (gw_exchange g).
      - apply process_all_mono with n; [lia|done].
      - apply process_mono with fuel; [lia|done]. }
    rewrite !omap_app, (proj1 (omap_message_outputs evs)), (proj2 (omap_message_outputs evs)).
    unfold message_events in *. rewrite !filter_app, join_app, Hpub, Hlog.
    pose proof (process_no_snapshot _ _ _ _ _ _ _ H1) as Hns. unfold message_events in Hns.
    rewrite Hns. simpl. by rewrite app_nil_r.
  - exists n, msgs, evss. destruct (omap_snapshot_outputs snaps) as [Hs1 Hs2]. unfold message_events in *.
    by rewrite !omap_app, !filter_app, Hs1, Hs2, !app_nil_r.
Qed.

Lemma rtc_sequential s s' : rtc sstep s s' -> sequential_inv s -> sequential_inv s'.
Proof. induction 1; eauto using sstep_sequential. Qed.

Lemma service_init_sequential (qm : QM) (qe : QE) (qs : QS) : sequential_inv (service_init qm qe qs).
Proof.
  exists O, [], []. unfold service_init. cbn [sv_processed sv_gateway gw_exchange sv_emitted].
  by generalize new_exchange.
Qed.

(** ** The exchange thread never crashes *)

Definition clocked (msgs : list OrderMessage) : list (Z * Z * OrderMessage) := map (pair (0, 0)) msgs.
Definition used_by (msgs : list OrderMessage) (used : used_map) : used_map := foldl (fun u m => use m u) used msgs.

Lemma messages_ok_app (l1 l2 : list OrderMessage) used :
  messages_ok (clocked (l1 ++ l2)) used <->
  messages_ok (clocked l1) used /\ messages_ok (clocked l2) (used_by l1 used).
Proof.
  revert used. induction l1 as [|m l1 IH]; intros used; simpl; [tauto|].
  rewrite (IH (use m used)). tauto.
Qed.

(** The messages accepted so far are admissible, and the exchange is in a
    state that the processed ones lead to. *)
Definition safe_inv s : Prop :=
  messages_ok (clocked (sv_accepted s)) (fun _ => ∅) ->
  exchange_inv (used_by (sv_processed s) (fun _ => ∅)) (gw_exchange (sv_gateway s)).

Lemma receive_exchange raw g : gw_exchange (receive raw g) = gw_exchange g.
Proof.
  unfold receive. destruct (deserialize_order raw) as [msg|]; [|done]. destruct (has_symbol _ _); [|done].
  unfold inbound_push. by destruct (enqueue _ _) as [[] ?].
Qed.

Lemma process_inv fuel now ts msg x x' evs used :
  exchange_inv used x -> message_ok (used (msg_symbol msg)) msg ->
  process fuel now ts msg x = Ok (x', evs) -> exchange_inv (use msg used) x'.
Proof.
  intros Hinv Hok Hp. destruct (process_session used now ts msg x Hinv Hok) as (n & Hn).
  destruct (Hn (Nat.max n fuel) ltac:(lia)) as (x1 & evs1 & Heq & Hx1).
  rewrite (process_mono fuel (Nat.max n fuel) now ts msg x (x', evs) ltac:(lia) Hp) in Heq.
  by injection Heq as -> ->.
Qed.

Lemma sstep_safe s s' : sstep s s' -> delivery_inv s -> safe_inv s -> safe_inv s'.
Proof.
  intros Hstep ((l & Hl & Hacc) & _) Hsafe. unfold safe_inv in *.
  destruct Hstep; simpl in *; try done.
  - rewrite receive_exchange. intros [Hok _]%messages_ok_app. by apply Hsafe.
  - intros Hok. specialize (Hsafe Hok).
    destruct (inbound_pop_inv _ _ _ _ Hl H0) as (l' & -> & _ & Hx & _).
    rewrite Hx in *. unfold used_by. rewrite foldl_snoc.
    rewrite Hacc in Hok. apply messages_ok_app in Hok as [_ [Hok _]].
    by eapply process_inv.
Qed.

Lemma rtc_safe s s' : rtc sstep s s' -> delivery_inv s -> safe_inv s -> safe_inv s'.
Proof. induction 1; eauto using sstep_safe, sstep_delivery. Qed.

Lemma snapshot_list_ok x ts k l :
  exchange_wf x -> (forall instr, instr ∈ l -> i_symbol instr ∈ symbols x) ->
  exists snaps, snapshot_list ts k l x = Ok snaps.
Proof.
  intros Hwf. revert k. induction l as [|instr l IH]; intros k Hl; [by exists []|].
  destruct (IH (S k)) as [snaps Hs]; [set_solver|].
  destruct (proj1 (list_elem_of_lookup _ _) (Hl instr ltac:(set_solver))) as [i Hi].
  apply (index_lookup x) in Hi; [|done]. destruct (index_instrument x _ _ Hwf Hi) as (ins & Hins & _).
  simpl. unfold snapshot. rewrite Hi, Hins, bind_ok, Hs. eauto.
Qed.

Lemma snapshot_all_ok x ts : exchange_wf x -> exists snaps, snapshot_all ts x = Ok snaps.
Proof. intros Hwf. apply snapshot_list_ok; [done|]. intros instr Hi. by apply list_elem_of_fmap_2. Qed.

(** ** The inbound side *)

#[local] Opaque new_exchange.

(** The orders among the frames: those that the JSON parser accepts and that
    are for one of the instruments. *)
Definition listed (msg : OrderMessage) : bool := has_symbol (msg_symbol msg) new_exchange.
Definition orders_of (fs : list string) : list OrderMessage := filter (fun msg => listed msg = true) (omap deserialize_order fs).

Lemma orders_of_app fs1 fs2 : orders_of (fs1 ++ fs2) = orders_of fs1 ++ orders_of fs2.
Proof. unfold orders_of. by rewrite omap_app, filter_app. Qed.

(** After the frames [handled]. *)
Record inbound_inv (handled : list string) s : Prop := {
  ii_index : index (gw_exchange (sv_gateway s)) = index new_exchange;
  ii_sub : sublist (sv_accepted s) (orders_of handled);
  ii_drops : gw_inbound_drops (sv_gateway s) = u64 (missing (orders_of handled) (sv_accepted s));
}.

Lemma process_index fuel now ts msg x x' evs :
  process fuel now ts msg x = Ok (x', evs) -> index x' = index x.
Proof.
  unfold process. destruct (index x !! _) as [k|]; [|by intros [= <- _]].
  destruct (instruments x !! k) as [instr|]; [|done].
  by intros ([e r] & _ & (evs' & _ & [= <- _])%bind_ok_inv)%bind_ok_inv.
Qed.

Lemma receive_inbound raw handled g todo em acc pr off pub loff log rcv :
  inbound_inv handled (mkService g todo em acc pr off pub loff log rcv) ->
  inbound_inv (handled ++ [raw]) (mkService (receive raw g) todo em
    (acc ++ option_list (accepts_message raw g)) pr off pub loff log (rcv ++ [raw])).
Proof.
  intros [Hi Hs Hd]. simpl in *.
  assert (orders_of (handled ++ [raw]) = orders_of handled ++
    match deserialize_order raw with
    | Some msg => if has_symbol (msg_symbol msg) (gw_exchange g) then [msg] else []
    | None => [] end) as Ho.
  { rewrite orders_of_app. f_equal. unfold orders_of. simpl. destruct (deserialize_order raw) as [msg|]; [|done].
    assert (has_symbol (msg_symbol msg) (gw_exchange g) = listed msg) as ->
      by (unfold listed, has_symbol; by rewrite Hi).
    clear Hi. rewrite filter_cons. destruct (listed msg); [rewrite decide_True|rewrite decide_False]; done. }
  split; simpl; rewrite ?Ho.
  - by rewrite receive_exchange.
  - apply sublist_app; [done|]. unfold accepts_message. destruct (deserialize_order raw) as [msg|]; [|done].
    destruct (has_symbol _ _); [|done]. simpl. destruct (enqueue _ _).1; [done|]. apply sublist_nil_l.
  - unfold receive, accepts_message, inbound_push.
    destruct (deserialize_order raw) as [msg|]; [|by rewrite !app_nil_r].
    destruct (has_symbol _ _); simpl; [|by rewrite !app_nil_r].
    destruct (enqueue _ _) as [[] q]; simpl.
    + by rewrite missing_same.
    + by rewrite missing_drop, Hd, add_drop.
Qed.

Lemma inbound_pop_frame g g' msg : inbound_pop g = (Some msg, g') ->
  gw_exchange g' = gw_exchange g /\ gw_inbound_drops g' = gw_inbound_drops g.
Proof. unfold inbound_pop. destruct (dequeue _) as [[m|] q]; [|done]. by intros [= <- <-]. Qed.

Lemma sstep_inbound s s' : sstep s s' -> inbound_inv (sv_received s) s -> inbound_inv (sv_received s') s'.
Proof.
  intros Hstep. destruct Hstep as [|????????? msg g' ????? Hpop Hp| | | | |]; 
    try (intros [Hi Hs Hd]; split; [exact Hi|exact Hs|exact Hd]).
  - apply receive_inbound.
  - destruct (inbound_pop_frame _ _ _ Hpop) as [Hx Hdr]. apply process_index in Hp. rewrite Hx in Hp.
    intros [Hi Hs Hd]. split; simpl in *; congruence.
Qed.

Lemma rtc_inbound s s' : rtc sstep s s' -> inbound_inv (sv_received s) s -> inbound_inv (sv_received s') s'.
Proof. induction 1; eauto using sstep_inbound. Qed.

Lemma service_init_inbound (qm : QM) (qe : QE) (qs : QS) : inbound_inv [] (service_init qm qe qs).
Proof. split; [exact eq_refl|constructor|exact eq_refl]. Qed.

(** ** Draining at shutdown *)

Lemma publish_drain_flushes l d fuel :
  holds (disp_queue d) l -> (forall ev, ev ∈ l -> serialize_event ev <> EmptyString) ->
  (length l < fuel)%nat ->
  exists d', publish_drain fuel d = Ok d' /\ holds (disp_queue d') [] /\
    disp_sent d' = disp_sent d ++ map serialize_event l /\ disp_drops d' = disp_drops d.
Proof.
  revert d fuel. induction l as [|ev l IH]; intros d [|fuel] Hl Hne Hf; simpl in *; try lia.
  - unfold publish_one. pose proof (dequeue_holds _ _ Hl) as ->. exists d. by rewrite app_nil_r.
  - unfold publish_one. destruct (dequeue_holds _ _ Hl) as (q & -> & Hq & _).
    rewrite decide_False by (apply Hne; set_solver).
    destruct (IH (mkDispatcher q (disp_drops d) (disp_sent d ++ [serialize_event ev])) fuel) as (d' & -> & Hd' & Hs & Hdr);
      [done|set_solver|lia|]. exists d'. simpl in *. by rewrite Hs, <- app_assoc.
Qed.

Lemma write_drain_flushes l r fuel :
  holds (rl_queue r) l -> (forall line, line ∈ l -> line <> EmptyString) -> (length l < fuel)%nat ->
  exists r', write_drain fuel r = Ok r' /\ holds (rl_queue r') [] /\
    rl_file r' = rl_file r ++ l /\ rl_drops r' = rl_drops r.
Proof.
  revert r fuel. induction l as [|line l IH]; intros r [|fuel] Hl Hne Hf; simpl in *; try lia.
  - unfold write_one. pose proof (dequeue_holds _ _ Hl) as ->. exists r. by rewrite app_nil_r.
  - unfold write_one. destruct (dequeue_holds _ _ Hl) as (q & -> & Hq & _).
    rewrite decide_False by (apply Hne; set_solver).
    destruct (IH (mkReplay q (rl_drops r) (rl_file r ++ [line])) fuel) as (r' & -> & Hr' & Hs & Hdr);
      [done|set_solver|lia|]. exists r'. simpl in *. by rewrite Hs, <- app_assoc.
Qed.

Lemma hand_over_all_frame outs g :
  gw_exchange (hand_over_all outs g) = gw_exchange g /\ gw_inbound (hand_over_all outs g) = gw_inbound g.
Proof.
  unfold hand_over_all. revert g. induction outs as [|o outs IH]; intros g; [done|]. simpl.
  destruct (IH (hand_over o g)) as [-> ->]. by destruct o.
Qed.

Lemma hand_over_all_run outs g em acc pr off pub loff log rcv :
  exists off' pub' loff' log',
    rtc sstep (mkService g outs em acc pr off pub loff log rcv)
      (mkService (hand_over_all outs g) [] em acc pr off' pub' loff' log' rcv).
Proof.
  revert g off pub loff log. induction outs as [|o outs IH]; intros g off pub loff log.
  { repeat eexists. apply rtc_refl. }
  destruct o as [ev|ev].
  - edestruct (IH (hand_over (ToLog ev) g)) as (a & b & c & d & Hrun). exists a, b, c, d.
    eapply rtc_l; [apply s_log|apply Hrun].
  - edestruct (IH (hand_over (ToPub ev) g)) as (a & b & c & d & Hrun). exists a, b, c, d.
    eapply rtc_l; [apply s_enqueue|apply Hrun].
Qed.

(** One round of the exchange thread. *)
Lemma drain_step clock msg l used k g em acc pr off pub loff log rcv :
  holds (gw_inbound g) (msg :: l) -> exchange_inv used (gw_exchange g) ->
  message_ok (used (msg_symbol msg)) msg ->
  exists n g1 em' off' pub' loff' log', holds (gw_inbound g1) l /\
    exchange_inv (use msg used) (gw_exchange g1) /\
    (forall fuel fuel', (n <= fuel')%nat ->
      drain_inbound (S fuel) fuel' clock k g = drain_inbound fuel fuel' clock (S k) g1) /\
    rtc sstep (mkService g [] em acc pr off pub loff log rcv)
      (mkService g1 [] em' acc (pr ++ [msg]) off' pub' loff' log' rcv).
Proof.
  intros Hl Hinv Hok. destruct (dequeue_holds _ _ Hl) as (q & Hq & Hl' & _).
  destruct (clock k) as [now ts] eqn:Hclock.
  destruct (process_session used now ts msg _ Hinv Hok) as (n & Hn).
  destruct (Hn n (le_n _)) as (x & evs & Hp & Hinv').
  assert (inbound_pop g = (Some msg, mkGateway (gw_exchange g) (gw_dispatcher g) (gw_replay g) q (gw_inbound_drops g)))
    as Hpop by (unfold inbound_pop; by rewrite Hq).
  set (g0 := mkGateway _ _ _ q _) in Hpop.
  edestruct (hand_over_all_run (message_outputs evs) (set_exchange x g0) (em ++ message_outputs evs) acc (pr ++ [msg]))
    as (off' & pub' & loff' & log' & Hrun).
  destruct (hand_over_all_frame (message_outputs evs) (set_exchange x g0)) as [Hx Hi].
  exists n, (hand_over_all (message_outputs evs) (set_exchange x g0)). do 5 eexists. split_ands.
  - by rewrite Hi.
  - by rewrite Hx.
  - intros fuel fuel' Hf. simpl. rewrite Hpop, Hclock. simpl.
    by rewrite (process_mono n fuel' _ _ _ _ _ Hf Hp).
  - eapply rtc_l; [by eapply s_process|apply Hrun].
Qed.

(** The drain of the exchange thread is a run of the service. *)
Lemma drain_inbound_run clock l : forall used k g em acc pr off pub loff log rcv,
  holds (gw_inbound g) l -> exchange_inv used (gw_exchange g) -> messages_ok (clocked l) used ->
  exists n g' em' off' pub' loff' log',
    (forall fuel fuel', (n <= fuel)%nat -> (n <= fuel')%nat -> drain_inbound fuel fuel' clock k g = Ok g') /\
    holds (gw_inbound g') [] /\
    rtc sstep (mkService g [] em acc pr off pub loff log rcv)
      (mkService g' [] em' acc (pr ++ l) off' pub' loff' log' rcv).
Proof.
  induction l as [|msg l IH]; intros used k g em acc pr off pub loff log rcv Hl Hinv Hok.
  - exists 1%nat, g. do 5 eexists. split_ands; [|done|by rewrite app_nil_r; apply rtc_refl].
    intros [|fuel] fuel' Hf _; [lia|]. simpl. unfold inbound_pop. by rewrite (dequeue_holds _ _ Hl).
  - destruct Hok as [Hmsg Hok].
    edestruct (drain_step clock msg l used k g em acc pr off pub loff log rcv)
      as (n1 & g1 & em1 & off1 & pub1 & loff1 & log1 & Hl1 & Hinv1 & Hd & Hrun); [done..|].
    edestruct (IH (use msg used) (S k) g1 em1 acc (pr ++ [msg]) off1 pub1 loff1 log1 rcv)
      as (n2 & g' & em2 & off2 & pub2 & loff2 & log2 & Hd2 & Hl2 & Hrun2); [done..|].
    exists (S (Nat.max n1 n2)), g', em2, off2, pub2, loff2, log2. split_ands; [|done|].
    + intros [|fuel] fuel' Hf Hf'; [lia|]. rewrite Hd by lia. apply Hd2; lia.
    + etrans; [apply Hrun|]. by rewrite <- app_assoc in Hrun2.
Qed.

(** ** The claims *)

(** C24. In every interleaving of the four threads, for any bounded queues:
    the accepted messages are, in their order, the orders among the received
    frames (those that parse and name a listed instrument), except as many as
    the inbound drop counter says; they are the processed messages followed by
    those in the inbound queue. What was sent followed by the serialized
    contents of the outbound queue is the serialization of the events the
    dispatcher accepted, and likewise for the replay file; accepted events are
    emitted ones in order, and the two drop counters count exactly the offered
    events that are missing (all counters modulo 2^64). The state of the
    exchange and the events of the messages are those of processing the
    processed messages one after the other, for some clock readings:
    concurrency is not observable in the engines, and snapshots do not disturb
    them. *)
Theorem service_delivery (qm : QM) (qe : QE) (qs : QS) s :
  holds qm [] -> holds qe [] -> holds qs [] -> rtc sstep (service_init qm qe qs) s ->
  let g := sv_gateway s in
  (sublist (sv_accepted s) (orders_of (sv_received s)) /\
    gw_inbound_drops g = u64 (missing (orders_of (sv_received s)) (sv_accepted s))) /\
  (exists waiting, holds (gw_inbound g) waiting /\ sv_accepted s = sv_processed s ++ waiting) /\
  (exists waiting, holds (disp_queue (gw_dispatcher g)) waiting /\
    disp_sent (gw_dispatcher g) ++ map serialize_event waiting = map serialize_event (sv_published s)) /\
  (exists waiting, holds (rl_queue (gw_replay g)) waiting /\
    rl_file (gw_replay g) ++ waiting = map serialize_event (sv_logged s)) /\
  (exists done, sv_emitted s = done ++ sv_todo s /\
    sublist (sv_published s) (omap to_pub done) /\ sublist (sv_logged s) (omap to_log done) /\
    disp_drops (gw_dispatcher g) = u64 (missing (omap to_pub done) (sv_published s)) /\
    rl_drops (gw_replay g) = u64 (missing (omap to_log done) (sv_logged s))) /\
  (exists fuel msgs evss, map snd msgs = sv_processed s /\
    process_all fuel msgs new_exchange = Ok (gw_exchange g, evss) /\
    message_events (omap to_pub (sv_emitted s)) = mjoin evss /\
    message_events (omap to_log (sv_emitted s)) = mjoin evss).
Proof.
  intros Hm He Hs Hrun g. subst g.
  pose proof (rtc_sequential _ _ Hrun (service_init_sequential _ _ _)) as Hseq.
  destruct (rtc_inbound _ _ Hrun (service_init_inbound _ _ _)) as [_ Hsub Hdrops].
  destruct (rtc_delivery _ _ Hrun (service_init_delivery _ _ _ Hm He Hs))
    as (Hin & (done & Hem & Hoff & Hloff) & [Hd1 Hd2 Hd3] & [Hr1 Hr2 Hr3]).
  rewrite Hoff in *. rewrite Hloff in *. split_ands; [done..|by exists done|exact Hseq].
Qed.

(** The last part holds for any queues, also unreliable ones. *)
Theorem service_is_sequential (qm : QM) (qe : QE) (qs : QS) s :
  rtc sstep (service_init qm qe qs) s ->
  exists fuel msgs evss, map snd msgs = sv_processed s /\
    process_all fuel msgs new_exchange = Ok (gw_exchange (sv_gateway s), evss) /\
    message_events (omap to_pub (sv_emitted s)) = mjoin evss /\
    message_events (omap to_log (sv_emitted s)) = mjoin evss.
Proof. intros Hrun. exact (rtc_sequential _ _ Hrun (service_init_sequential _ _ _)). Qed.

(** If the accepted messages are admissible (fresh ids, moderate prices),
    then in every reachable state the exchange thread can make its next step:
    the next message is processed without undefined behaviour, and snapshots
    can be taken. *)
Theorem service_safe (qm : QM) (qe : QE) (qs : QS) s :
  holds qm [] -> holds qe [] -> holds qs [] -> rtc sstep (service_init qm qe qs) s ->
  messages_ok (clocked (sv_accepted s)) (fun _ => ∅) ->
  (forall msg g', inbound_pop (sv_gateway s) = (Some msg, g') -> forall now ts,
    exists n, forall fuel, (n <= fuel)%nat -> exists x evs,
      process fuel now ts msg (gw_exchange g') = Ok (x, evs)) /\
  (forall ts, exists snaps, snapshot_all ts (gw_exchange (sv_gateway s)) = Ok snaps).
Proof.
  intros Hm He Hs Hrun Hok. pose proof (service_init_delivery _ _ _ Hm He Hs) as Hd0.
  destruct (rtc_delivery _ _ Hrun Hd0) as ((l & Hl & Hacc) & _).
  pose proof (rtc_safe _ _ Hrun Hd0 (fun _ => exchange_inv_new) Hok) as Hinv. split.
  - intros msg g' Hpop now ts. destruct (inbound_pop_inv _ _ _ _ Hl Hpop) as (l' & -> & _ & -> & _).
    rewrite Hacc in Hok. apply messages_ok_app in Hok as [_ [Hok _]].
    destruct (process_session _ now ts msg _ Hinv Hok) as (n & Hn). exists n. intros fuel Hf.
    destruct (Hn fuel Hf) as (x & evs & Hp & _). by exists x, evs.
  - intros ts. apply snapshot_all_ok, Hinv.
Qed.

(** Shutdown: from every reachable state in which the exchange thread is
    between two messages, its final drain, and after it those of the publisher
    and the replay writer, end with enough fuel. Then every accepted message
    has been processed, and every event accepted by the dispatcher has been
    sent, every event accepted by the replay logger is in the file. *)
Theorem shutdown_drains (qm : QM) (qe : QE) (qs : QS) s clock :
  holds qm [] -> holds qe [] -> holds qs [] -> rtc sstep (service_init qm qe qs) s ->
  sv_todo s = [] -> messages_ok (clocked (sv_accepted s)) (fun _ => ∅) ->
  exists n s', rtc sstep s s' /\ sv_accepted s' = sv_accepted s /\ sv_processed s' = sv_accepted s /\
    forall fuel, (n <= fuel)%nat ->
      drain_inbound fuel fuel clock 0 (sv_gateway s) = Ok (sv_gateway s') /\
      (exists d, publish_drain fuel (gw_dispatcher (sv_gateway s')) = Ok d /\
        disp_sent d = map serialize_event (sv_published s')) /\
      (exists r, write_drain fuel (gw_replay (sv_gateway s')) = Ok r /\
        rl_file r = map serialize_event (sv_logged s')).
Proof.
  intros Hm He Hs Hrun Htodo Hok. pose proof (service_init_delivery _ _ _ Hm He Hs) as Hd0.
  pose proof (rtc_delivery _ _ Hrun Hd0) as Hd. pose proof Hd as ((l & Hl & Hacc) & _).
  pose proof (rtc_safe _ _ Hrun Hd0 (fun _ => exchange_inv_new) Hok) as Hinv.
  destruct s as [g todo em acc pr off pub loff log rcv]. simpl in *. subst todo.
  rewrite Hacc in Hok. apply messages_ok_app in Hok as [_ Hok].
  destruct (drain_inbound_run clock l _ 0%nat g em acc pr off pub loff log rcv Hl Hinv Hok)
    as (n & g' & em' & off' & pub' & loff' & log' & Hdr & _ & Hrun').
  pose proof (rtc_delivery _ _ Hrun' Hd) as (_ & _ & [(lp & Hlp & Hsent) _ _] & [(ll & Hll & Hfile) _ _]).
  simpl in *.
  exists (Nat.max n (S (Nat.max (length lp) (length ll)))). eexists. split; [apply Hrun'|]. simpl.
  split; [done|]. split; [done|]. intros fuel Hf. split; [apply Hdr; lia|]. split.
  - destruct (publish_drain_flushes lp _ fuel Hlp (fun ev _ => serialize_nonempty ev) ltac:(lia))
      as (d & Hd1 & _ & Hsd & _). exists d. by rewrite Hsd.
  - destruct (write_drain_flushes ll (gw_replay g') fuel Hll) as (r & Hr1 & _ & Hsr & _); [|lia|].
    + intros line Hline -> . assert (EmptyString ∈ map serialize_event log')
        as (ev & Hev & _)%list_elem_of_fmap by (rewrite <- Hfile; set_solver).
      by apply (serialize_nonempty ev).
    + exists r. by rewrite Hsr.
Qed.
End gateway.

(** ** Witnesses: the service with rings and a concrete JSON library *)

#[local] Existing Instance tree_lib.

Definition demo_offer : OrderMessage := demo_message "STOCK_3" 1 Sell 100 5.
Definition inbound_ring : ring OrderMessage := ring_new 32 (2 ^ 2) demo_offer.
Definition outbound_ring : ring ExchangeEvent := ring_new 32 (2 ^ 2) (EvSnapshot (mkSnapshot 0 "" 0 0 0 [] [])).
Definition replay_ring : ring string := ring_new 32 (2 ^ 2) EmptyString.

Definition demo_init : service := service_init inbound_ring outbound_ring replay_ring.
Definition demo_raw : string := json_dump (message_json demo_offer).

(** One order has been received. *)
Definition demo_service : service :=
  mkService (receive demo_raw (sv_gateway demo_init)) [] []
    (option_list (accepts_message demo_raw (sv_gateway demo_init))) [] [] [] [] [] [demo_raw].

Lemma demo_reached : rtc sstep demo_init demo_service.
Proof.
  unfold demo_service, demo_init, service_init. cbn [sv_gateway]. generalize new_exchange as x. intros x.
  apply rtc_once. exact (s_receive _ [] [] [] [] [] [] [] [] [] demo_raw).
Qed.

Lemma demo_raw_parsed : deserialize_order demo_raw = Some demo_offer.
Proof. apply (@deserialize_message tree_lib tree_laws). by vm_compute. Qed.

Lemma demo_accepted : sv_accepted demo_service = [demo_offer].
Proof.
  unfold demo_service, accepts_message. cbn [sv_accepted]. rewrite demo_raw_parsed.
  assert (has_symbol (msg_symbol demo_offer) (gw_exchange (sv_gateway demo_init)) = true) as ->
    by (vm_compute; reflexivity).
  vm_compute. reflexivity.
Qed.

Lemma demo_messages_ok : messages_ok (clocked (sv_accepted demo_service)) (fun _ => ∅).
Proof.
  rewrite demo_accepted. split; [|exact I]. intros _. unfold moderate. simpl.
  split_ands; try lia; [set_solver|by vm_compute..].
Qed.

Lemma demo_holds {A} (a : A) : holds (ring_new 32 (2 ^ 2) a) [].
Proof. apply ring_new_holds. lia. Qed.

Lemma service_delivery_witness :
  sublist (sv_accepted demo_service) (orders_of [demo_raw]) /\
  gw_inbound_drops (sv_gateway demo_service) = u64 (missing (orders_of [demo_raw]) (sv_accepted demo_service)) /\
  exists waiting, holds (gw_inbound (sv_gateway demo_service)) waiting /\
    sv_accepted demo_service = sv_processed demo_service ++ waiting.
Proof.
  destruct (service_delivery inbound_ring outbound_ring replay_ring demo_service) as ([Hsub Hdrops] & Hwait & _);
    [apply demo_holds..|apply demo_reached|].
  split; [exact Hsub|]. split; [exact Hdrops|exact Hwait].
Defined.

Lemma service_is_sequential_witness :
  exists fuel msgs evss, map snd msgs = sv_processed demo_service /\
    process_all fuel msgs new_exchange = Ok (gw_exchange (sv_gateway demo_service), evss) /\
    message_events (omap to_pub (sv_emitted demo_service)) = mjoin evss /\
    message_events (omap to_log (sv_emitted demo_service)) = mjoin evss.
Proof. exact (service_is_sequential inbound_ring outbound_ring replay_ring demo_service demo_reached). Defined.

Lemma service_safe_witness :
  exists snaps, snapshot_all Z.of_nat (gw_exchange (sv_gateway demo_service)) = Ok snaps.
Proof.
  apply (service_safe inbound_ring outbound_ring replay_ring demo_service);
    [apply demo_holds..|apply demo_reached|apply demo_messages_ok].
Defined.

Lemma shutdown_drains_witness :
  exists n s', rtc sstep demo_service s' /\ sv_processed s' = [demo_offer] /\
    forall fuel, (n <= fuel)%nat ->
      drain_inbound fuel fuel (fun _ => (0, 0)) 0 (sv_gateway demo_service) = Ok (sv_gateway s').
Proof.
  destruct (shutdown_drains inbound_ring outbound_ring replay_ring demo_service (fun _ => (0, 0)))
    as (n & s' & Hrun & _ & Hpr & Hd);
    [apply demo_holds..|apply demo_reached|reflexivity|apply demo_messages_ok|].
  exists n, s'. split; [exact Hrun|]. split; [by rewrite Hpr, demo_accepted|].
  intros fuel Hf. apply (Hd fuel Hf).
Defined.
