(* ===== verification/Fairness.v ===== *)
(** * Fairness: eventuality of infinite executions under fair scheduling

    Executions of a system of threads whose steps are given by a relation
    labelled with the thread, and the proof rule for liveness: a well-founded
    rank that no step increases and that the helpful thread decreases. *)

From S2P Require Import Prelude.
From Stdlib Require Import Wellfounded.Lexicographic_Product Relations.Relation_Operators.

Section fairness.
Context {S T : Type} (step : T -> S -> S -> Prop).

Definition can_step (t : T) (s : S) : Prop := exists s', step t s s'.

(** The thread scheduled at time [n] makes a step if it can. *)
Definition execution (tr : nat -> S) (sched : nat -> T) : Prop :=
  forall n, step (sched n) (tr n) (tr (n + 1)%nat) \/
    ~ can_step (sched n) (tr n) /\ tr (n + 1)%nat = tr n.

(** Each of the threads [ts] is scheduled again and again. *)
Definition fair (ts : list T) (sched : nat -> T) : Prop :=
  forall t n, t ∈ ts -> exists m, (n <= m)%nat /\ sched m = t.

(** The states of an execution are reachable by steps. *)
Lemma execution_reaches (R : relation S) tr sched s0 :
  (forall t s s', step t s s' -> R s s') -> execution tr sched -> rtc R s0 (tr O) -> forall n, rtc R s0 (tr n).
Proof.
  intros HR Hex H0 n. induction n as [|n IH]; [done|]. specialize (Hex n).
  replace (n + 1)%nat with (Datatypes.S n) in Hex by lia. destruct Hex as [Hs|[_ ->]]; [|done].
  eapply rtc_r; [done|]. by eapply HR.
Qed.

Section rule.
Context {A : Type} (lt : A -> A -> Prop) (rank : S -> A) (helper : S -> T).
Context (goal : S -> Prop) `{!forall s, Decision (goal s)}.
Context (tr : nat -> S) (sched : nat -> T) (ts : list T).
Context (lt_wf : well_founded lt) (tr_exec : execution tr sched) (tr_fair : fair ts sched).
Context (helper_fair : forall n, helper (tr n) ∈ ts).

(** Outside the goal the helpful thread can step and every step of it
    decreases the rank; the steps of the others keep rank and helper or
    decrease the rank. *)
Context (progress : forall n, ~ goal (tr n) -> can_step (helper (tr n)) (tr n)).
Context (decrease : forall n t s', ~ goal (tr n) -> step t (tr n) s' -> tr (n + 1)%nat = s' ->
  lt (rank s') (rank (tr n)) \/ t <> helper (tr n) /\ rank s' = rank (tr n) /\ helper s' = helper (tr n)).

(** Up to time [m] the rank decreases or nothing changes. *)
Lemma stable_until (d n : nat) :
  (exists m, (n <= m <= n + d)%nat /\ goal (tr m)) \/
  (exists m, (n <= m <= n + d)%nat /\ lt (rank (tr m)) (rank (tr n))) \/
  rank (tr (n + d)%nat) = rank (tr n) /\ helper (tr (n + d)%nat) = helper (tr n) /\
    forall m, (n <= m < n + d)%nat -> sched m <> helper (tr n).
Proof.
  induction d as [|d IH]; [right; right; rewrite Nat.add_0_r; split_ands; [done..|lia]|].
  destruct IH as [(m & Hm & Hg)|[(m & Hm & Hlt)|(Hr & Hh & Hs)]].
  - left. exists m. split; [lia|done].
  - right; left. exists m. split; [lia|done].
  - destruct (decide (goal (tr (n + d)%nat))) as [Hg|Hg]; [left; exists (n + d)%nat; split; [lia|done]|].
    replace (n + Datatypes.S d)%nat with (n + d + 1)%nat by lia.
    destruct (tr_exec (n + d)%nat) as [Hstep|[Hno Heq]].
    + destruct (decrease _ _ _ Hg Hstep eq_refl) as [Hlt|(Hne & Hr' & Hh')].
      * right; left. exists (n + d + 1)%nat. split; [lia|]. by rewrite <- Hr.
      * right; right. split_ands; [congruence..|]. intros m Hm.
        destruct (decide (m = n + d)%nat) as [->|]; [congruence|apply Hs; lia].
    + right; right. rewrite Heq. split_ands; [done..|]. intros m Hm.
      destruct (decide (m = n + d)%nat) as [->|]; [|apply Hs; lia].
      intros Hsched. apply Hno. rewrite Hsched, <- Hh. by apply progress.
Qed.

Lemma goal_reached : forall a n, rank (tr n) = a -> exists m, (n <= m)%nat /\ goal (tr m).
Proof.
  induction a as [a IH] using (well_founded_ind lt_wf). intros n <-.
  destruct (tr_fair (helper (tr n)) n) as (m & Hm & Hsched); [done|].
  destruct (stable_until (m - n + 1)%nat n) as [(k & Hk & Hg)|[(k & Hk & Hlt)|(_ & _ & Hs)]].
  - exists k. split; [lia|done].
  - destruct (IH _ Hlt k eq_refl) as (k' & Hk' & Hg). exists k'. split; [lia|done].
  - exfalso. apply (Hs m); [lia|done].
Qed.
End rule.
End fairness.

(** ** A lexicographic rank of four numbers *)

Definition rank4 : Type := nat * (nat * (nat * nat)).
Definition rank4_lt : rank4 -> rank4 -> Prop :=
  slexprod _ _ lt (slexprod _ _ lt (slexprod _ _ lt lt)).

Lemma rank4_wf : well_founded rank4_lt.
Proof. repeat (apply wf_slexprod; [apply lt_wf|]). apply lt_wf. Qed.

(** Comparison by the first difference. *)
Lemma rank4_lt_intro (a b c d a' b' c' d' : nat) :
  (a < a' \/ a = a' /\ (b < b' \/ b = b' /\ (c < c' \/ c = c' /\ d < d')))%nat ->
  rank4_lt (a, (b, (c, d))) (a', (b', (c', d'))).
Proof.
  unfold rank4_lt. intros [?|[-> [?|[-> [?|[-> ?]]]]]].
  - by apply left_slex.
  - by apply right_slex, left_slex.
  - by apply right_slex, right_slex, left_slex.
  - by apply right_slex, right_slex, right_slex.
Qed.
