(* ===== verification/Lifecycle.v ===== *)
(** * Lifecycle: starting and stopping the exchange service

    Model of [Gateway::start], [stop] and the destructors in
    [src/src/gateway/gateway.cpp], [event_dispatcher.cpp] and
    [replay_logger.cpp], of the loops of the four threads with their tests of
    the [running_] flags, and of the waiting loop of [src/src/exchange_main.cpp].
    Every thread has a program counter; the steps on the shared data are those
    of [Gateway]. *)

From S2P Require Import Prelude Types PriceLevel OrderBook Engine Exchange Ring Serializer Gateway Fairness.

(** ** Program counters *)

(** [receiver_loop]: not created, at the loop test, before [zmq_msg_recv],
    with a received frame, returned. *)
Inductive receiver_pc := RNone | RTest | RRecv | RFrame (raw : string) | RDone.

(** [exchange_loop]: [XPop] and [XOut] are the loops [while (inbound_pop(msg))],
    [final] in the drain after the main loop; [XOut] and [XSnap] hand over
    outputs, [XSnap] with the reading of the clock [now]. *)
Inductive exchange_pc :=
| XNone | XStart | XTest | XPop (final : bool) | XOut (final : bool) | XClock | XSnap (now : Z) | XDone.

(** [publisher_loop]: the loop test, its body, the drain. *)
Inductive publisher_pc := PNone | PTest | PTake | PDrain | PDone.

(** [writer_loop]: the loop test, the drain in the loop and after it. *)
Inductive writer_pc := WNone | WTest | WDrain (final : bool) | WDone.

(** [main]: the statements of [start] (named after what comes next), the
    waiting loop, those of [stop] (called by [main], then [again] by the
    destructor), and the destructors of the members. [MThrow]: an exception
    has left [start], and [main] with it. *)
Inductive main_pc :=
| MBind | MReplay | MDispatcher | MFlag | MExchange | MReceiver
| MWait
| MStop (again : bool) | MJoinReceiver (again : bool) | MJoinExchange (again : bool)
| MStopDispatcher (again : bool) | MJoinPublisher (again : bool)
| MStopReplay (again : bool) | MJoinWriter (again : bool)
| MEndReplay | MEndWriter | MEndDispatcher | MEndPublisher
| MReturn | MThrow.

#[global] Instance main_pc_eq_dec : EqDecision main_pc.
Proof. solve_decision. Defined.

Inductive thread := TMain | TReceiver | TExchange | TPublisher | TWriter | TSignal.
#[global] Instance thread_eq_dec : EqDecision thread.
Proof. solve_decision. Defined.

(** [std::thread::joinable] and a join that would return: the thread was never
    created, or has ended. *)
Definition receiver_joined (pc : receiver_pc) : bool := match pc with RNone | RDone => true | _ => false end.
Definition exchange_joined (pc : exchange_pc) : bool := match pc with XNone | XDone => true | _ => false end.
Definition publisher_joined (pc : publisher_pc) : bool := match pc with PNone | PDone => true | _ => false end.
Definition writer_joined (pc : writer_pc) : bool := match pc with WNone | WDone => true | _ => false end.

Section lifecycle.
Context `{JsonLib}.
Context {QM QE QS : Type}.
Context `{!BoundedQueue QM OrderMessage, !BoundedQueue QE ExchangeEvent, !BoundedQueue QS string}.

#[local] Abbreviation svc := (service (QM := QM) (QE := QE) (QS := QS)).
#[local] Abbreviation gateway := (Gateway (QM := QM) (QE := QE) (QS := QS)).

(** [snapshot_interval_ms] of the configuration. *)
Context (snapshot_interval_ms : Z).

(** The running program: data and history of the service, program counters,
    the three [running_] flags, [g_shutdown], and the local [next_snapshot]. *)
Record program := mkProgram {
  pg_service : svc;
  pg_main : main_pc;
  pg_receiver : receiver_pc;
  pg_exchange : exchange_pc;
  pg_publisher : publisher_pc;
  pg_writer : writer_pc;
  pg_running : bool;
  pg_disp_running : bool;
  pg_rl_running : bool;
  pg_shutdown : bool;
  pg_next_snapshot : Z;
}.

(** What the environment decides in a step: whether [zmq_bind] succeeds, the
    frame received if there is one, readings of the clocks, and the fuel of
    [process]. *)
Record input := mkInput {
  in_bind : bool;
  in_frame : option string;
  in_now : Z;               (* steady_clock, in nanoseconds *)
  in_process_clock : Z * Z; (* now_ns() and steady_clock in process *)
  in_snapshot_clock : nat -> Z;
  in_fuel : nat;
}.

Implicit Types (p : program) (i : input).
Implicit Types (sv : svc).

(** ** Steps on the data, with the history of [Gateway] *)

Definition sv_receive (raw : string) sv : svc :=
  mkService (receive raw (sv_gateway sv)) (sv_todo sv) (sv_emitted sv)
    (sv_accepted sv ++ option_list (accepts_message raw (sv_gateway sv)))
    (sv_processed sv) (sv_offered sv) (sv_published sv) (sv_logged_offered sv) (sv_logged sv)
    (sv_received sv ++ [raw]).

(** Outputs to hand over after a change of the gateway. *)
Definition sv_emit (g : gateway) (outs : list output) (done : list OrderMessage) sv : svc :=
  mkService g outs (sv_emitted sv ++ outs) (sv_accepted sv) (sv_processed sv ++ done)
    (sv_offered sv) (sv_published sv) (sv_logged_offered sv) (sv_logged sv) (sv_received sv).

(** Hand over the first output. *)
Definition sv_hand_over (o : output) (todo : list output) sv : svc :=
  let g := sv_gateway sv in
  match o with
  | ToLog ev =>
      mkService (hand_over o g) todo (sv_emitted sv) (sv_accepted sv) (sv_processed sv)
        (sv_offered sv) (sv_published sv) (sv_logged_offered sv ++ [ev])
        (sv_logged sv ++ if accepts_line ev (gw_replay g) then [ev] else []) (sv_received sv)
  | ToPub ev =>
      mkService (hand_over o g) todo (sv_emitted sv) (sv_accepted sv) (sv_processed sv)
        (sv_offered sv ++ [ev]) (sv_published sv ++ if accepts_event ev (gw_dispatcher g) then [ev] else [])
        (sv_logged_offered sv) (sv_logged sv) (sv_received sv)
  end.

Definition sv_set_gateway (g : gateway) sv : svc :=
  mkService g (sv_todo sv) (sv_emitted sv) (sv_accepted sv) (sv_processed sv)
    (sv_offered sv) (sv_published sv) (sv_logged_offered sv) (sv_logged sv) (sv_received sv).

(** ** Updates of the program *)

Definition set_main (m : main_pc) p : program :=
  mkProgram (pg_service p) m (pg_receiver p) (pg_exchange p) (pg_publisher p) (pg_writer p)
    (pg_running p) (pg_disp_running p) (pg_rl_running p) (pg_shutdown p) (pg_next_snapshot p).
Definition set_receiver (r : receiver_pc) (sv : svc) p : program :=
  mkProgram sv (pg_main p) r (pg_exchange p) (pg_publisher p) (pg_writer p)
    (pg_running p) (pg_disp_running p) (pg_rl_running p) (pg_shutdown p) (pg_next_snapshot p).
Definition set_exchange_pc (x : exchange_pc) (sv : svc) (next : Z) p : program :=
  mkProgram sv (pg_main p) (pg_receiver p) x (pg_publisher p) (pg_writer p)
    (pg_running p) (pg_disp_running p) (pg_rl_running p) (pg_shutdown p) next.
Definition set_publisher (w : publisher_pc) (sv : svc) p : program :=
  mkProgram sv (pg_main p) (pg_receiver p) (pg_exchange p) w (pg_writer p)
    (pg_running p) (pg_disp_running p) (pg_rl_running p) (pg_shutdown p) (pg_next_snapshot p).
Definition set_writer (w : writer_pc) (sv : svc) p : program :=
  mkProgram sv (pg_main p) (pg_receiver p) (pg_exchange p) (pg_publisher p) w
    (pg_running p) (pg_disp_running p) (pg_rl_running p) (pg_shutdown p) (pg_next_snapshot p).
Definition set_running (b : bool) p : program :=
  mkProgram (pg_service p) (pg_main p) (pg_receiver p) (pg_exchange p) (pg_publisher p) (pg_writer p)
    b (pg_disp_running p) (pg_rl_running p) (pg_shutdown p) (pg_next_snapshot p).
Definition set_disp_running (b : bool) p : program :=
  mkProgram (pg_service p) (pg_main p) (pg_receiver p) (pg_exchange p) (pg_publisher p) (pg_writer p)
    (pg_running p) b (pg_rl_running p) (pg_shutdown p) (pg_next_snapshot p).
Definition set_rl_running (b : bool) p : program :=
  mkProgram (pg_service p) (pg_main p) (pg_receiver p) (pg_exchange p) (pg_publisher p) (pg_writer p)
    (pg_running p) (pg_disp_running p) b (pg_shutdown p) (pg_next_snapshot p).
Definition set_shutdown p : program :=
  mkProgram (pg_service p) (pg_main p) (pg_receiver p) (pg_exchange p) (pg_publisher p) (pg_writer p)
    (pg_running p) (pg_disp_running p) (pg_rl_running p) true (pg_next_snapshot p).

(** ** The threads

    [None]: the thread does not exist, has ended, or waits in a join. *)

(** [Gateway::receiver_loop]. *)
Definition receiver_step i p : option program :=
  match pg_receiver p with
  | RNone | RDone => None
  | RTest => Some (set_receiver (if pg_running p then RRecv else RDone) (pg_service p) p)
  | RRecv => Some (set_receiver (match in_frame i with Some raw => RFrame raw | None => RTest end) (pg_service p) p)
  | RFrame raw => Some (set_receiver RTest (sv_receive raw (pg_service p)) p)
  end.

(** [now + snap_interval]: the milliseconds are an [int64_t] and are converted
    to the nanoseconds of the clock. *)
Definition deadline (now : Z) : res Z :=
  ns ← i64 (to_i64 snapshot_interval_ms * 1000000);
  i64 (now + ns).

(** [Gateway::exchange_loop]. *)
Definition exchange_step i p : option (res program) :=
  let sv := pg_service p in
  match pg_exchange p with
  | XNone | XDone => None
  | XStart => Some (next ← deadline (in_now i); Ok (set_exchange_pc XTest sv next p))
  | XTest => Some (Ok (set_exchange_pc (XPop (negb (pg_running p))) sv (pg_next_snapshot p) p))
  | XPop final =>
      Some match inbound_pop (sv_gateway sv) with
      | (None, _) => Ok (set_exchange_pc (if final then XDone else XClock) sv (pg_next_snapshot p) p)
      | (Some msg, g) =>
          let '(now, ts) := in_process_clock i in
          '(x, evs) ← process (in_fuel i) now ts msg (gw_exchange g);
          Ok (set_exchange_pc (XOut final) (sv_emit (set_exchange x g) (message_outputs evs) [msg] sv)
                (pg_next_snapshot p) p)
      end
  | XOut final =>
      Some (Ok match sv_todo sv with
      | [] => set_exchange_pc (XPop final) sv (pg_next_snapshot p) p
      | o :: todo => set_exchange_pc (XOut final) (sv_hand_over o todo sv) (pg_next_snapshot p) p
      end)
  | XClock =>
      Some (if decide (pg_next_snapshot p <= in_now i) then
              snaps ← snapshot_all (in_snapshot_clock i) (gw_exchange (sv_gateway sv));
              Ok (set_exchange_pc (XSnap (in_now i)) (sv_emit (sv_gateway sv) (snapshot_outputs snaps) [] sv)
                    (pg_next_snapshot p) p)
            else Ok (set_exchange_pc XTest sv (pg_next_snapshot p) p))
  | XSnap now =>
      Some match sv_todo sv with
      | [] => next ← deadline now; Ok (set_exchange_pc XTest sv next p)
      | o :: todo => Ok (set_exchange_pc (XSnap now) (sv_hand_over o todo sv) (pg_next_snapshot p) p)
      end
  end.

(** Publisher and writer pass one event or line on; the flag says whether
    there was one. *)
Definition sv_publish sv : bool * svc :=
  let '(more, d) := publish_one (gw_dispatcher (sv_gateway sv)) in
  (more, sv_set_gateway (set_dispatcher d (sv_gateway sv)) sv).
Definition sv_write sv : bool * svc :=
  let '(more, r) := write_one (gw_replay (sv_gateway sv)) in
  (more, sv_set_gateway (set_replay r (sv_gateway sv)) sv).

(** [EventDispatcher::publisher_loop]. *)
Definition publisher_step p : option program :=
  match pg_publisher p with
  | PNone | PDone => None
  | PTest => Some (set_publisher (if pg_disp_running p then PTake else PDrain) (pg_service p) p)
  | PTake => Some (set_publisher PTest (sv_publish (pg_service p)).2 p)
  | PDrain =>
      let '(more, sv) := sv_publish (pg_service p) in
      Some (set_publisher (if (more : bool) then PDrain else PDone) sv p)
  end.

(** [ReplayLogger::writer_loop]. *)
Definition writer_step p : option program :=
  match pg_writer p with
  | WNone | WDone => None
  | WTest => Some (set_writer (WDrain (negb (pg_rl_running p))) (pg_service p) p)
  | WDrain final =>
      let '(more, sv) := sv_write (pg_service p) in
      Some (set_writer (if (more : bool) then WDrain final else if final then WDone else WTest) sv p)
  end.

(** [ReplayLogger::start]. *)
Definition replay_start p : program := set_rl_running true (set_writer WTest (pg_service p) p).

(** [EventDispatcher::start]; [None]: the exception when the socket cannot be
    bound. *)
Definition dispatcher_start i p : option program :=
  if in_bind i then Some (set_disp_running true (set_publisher PTest (pg_service p) p)) else None.

(** The first statement of the [stop] functions, [running_.exchange(false)];
    [None]: not running, the function returns at once. *)
Definition replay_stop p : option program := if pg_rl_running p then Some (set_rl_running false p) else None.
Definition dispatcher_stop p : option program := if pg_disp_running p then Some (set_disp_running false p) else None.
Definition gateway_stop p : option program := if pg_running p then Some (set_running false p) else None.

(** [Gateway::start], statement by statement. *)
Definition start_step i p : option program :=
  match pg_main p with
  | MBind => Some (set_main (if in_bind i then MReplay else MThrow) p)
  | MReplay => Some (set_main MDispatcher (replay_start p))
  | MDispatcher =>
      Some match dispatcher_start i p with Some p => set_main MFlag p | None => set_main MThrow p end
  | MFlag => Some (set_main MExchange (set_running true p))
  | MExchange => Some (set_main MReceiver (set_exchange_pc XStart (pg_service p) (pg_next_snapshot p) p))
  | MReceiver => Some (set_main MWait (set_receiver RTest (pg_service p) p))
  | _ => None
  end.

(** [Gateway::stop] returns to [main] or to the destructor. *)
Definition after_stop (again : bool) : main_pc := if again then MEndReplay else MStop true.

(** [Gateway::stop], with the [stop] functions it calls. *)
Definition stop_step p : option program :=
  match pg_main p with
  | MStop again =>
      Some match gateway_stop p with
      | Some p => set_main (MJoinReceiver again) p
      | None => set_main (after_stop again) p
      end
  | MJoinReceiver again =>
      if receiver_joined (pg_receiver p) then Some (set_main (MJoinExchange again) p) else None
  | MJoinExchange again =>
      if exchange_joined (pg_exchange p) then Some (set_main (MStopDispatcher again) p) else None
  | MStopDispatcher again =>
      Some match dispatcher_stop p with
      | Some p => set_main (MJoinPublisher again) p
      | None => set_main (MStopReplay again) p
      end
  | MJoinPublisher again =>
      if publisher_joined (pg_publisher p) then Some (set_main (MStopReplay again) p) else None
  | MStopReplay again =>
      Some match replay_stop p with
      | Some p => set_main (MJoinWriter again) p
      | None => set_main (after_stop again) p
      end
  | MJoinWriter again =>
      if writer_joined (pg_writer p) then Some (set_main (after_stop again) p) else None
  | _ => None
  end.

(** [main] once the options are read: [gw.start()], the waiting loop,
    [gw.stop()]; then the destructors [~Gateway], [~ReplayLogger] and
    [~EventDispatcher], which call the [stop] functions again. *)
Definition main_step i p : option program :=
  match pg_main p with
  | MWait => Some (if pg_shutdown p then set_main (MStop false) p else p)
  | MEndReplay =>
      Some match replay_stop p with Some p => set_main MEndWriter p | None => set_main MEndDispatcher p end
  | MEndWriter => if writer_joined (pg_writer p) then Some (set_main MEndDispatcher p) else None
  | MEndDispatcher =>
      Some match dispatcher_stop p with Some p => set_main MEndPublisher p | None => set_main MReturn p end
  | MEndPublisher => if publisher_joined (pg_publisher p) then Some (set_main MReturn p) else None
  | MReturn | MThrow => None
  | MBind | MReplay | MDispatcher | MFlag | MExchange | MReceiver => start_step i p
  | _ => stop_step p
  end.

(** [signal_handler]. *)
Definition signal_step p : option program := Some (set_shutdown p).

Definition thread_step (t : thread) i p : option (res program) :=
  match t with
  | TMain => Ok <$> main_step i p
  | TReceiver => Ok <$> receiver_step i p
  | TExchange => exchange_step i p
  | TPublisher => Ok <$> publisher_step p
  | TWriter => Ok <$> writer_step p
  | TSignal => Ok <$> signal_step p
  end.

(** The clock shows a time since the start of the machine. *)
Definition clock_ok i : Prop := 0 <= in_now i < 2 ^ 62.

Definition pstep (t : thread) p p' : Prop :=
  exists i, clock_ok i /\ thread_step t i p = Some (Ok p').
Definition any_step p p' : Prop := exists t, pstep t p p'.

Definition program_init (qm : QM) (qe : QE) (qs : QS) : program :=
  mkProgram (service_init qm qe qs) MBind RNone XNone PNone WNone false false false false 0.
End lifecycle.

(** Unfold the step of [main] in a hypothesis. *)
Ltac unfold_main H :=
  unfold main_step, start_step, stop_step, replay_start, dispatcher_start, replay_stop,
    dispatcher_stop, gateway_stop in H.
