(* ===== verification/LifecycleProps.v ===== *)
(** * LifecycleProps: the service starts, stops and delivers

    The threads with their flags and program counters refine the service of
    [Gateway]; when [stop] has returned everything accepted by the queues is
    sent and written and at most one accepted message is not processed. *)

From S2P Require Import Prelude Types PriceLevel OrderBook Engine Market EngineRefine EngineEvents.
From S2P Require Import Session Trading Guarantees Exchange ExchangeProps Ring Serializer Gateway.
From S2P Require Import GatewayProps Fairness Lifecycle.

Section lifecycle.
Context `{JsonLib}.
Context {QM QE QS : Type}.
Context `{!BoundedQueue QM OrderMessage, !BoundedQueue QE ExchangeEvent, !BoundedQueue QS string}.
Context `{!BoundedQueueLaws QM OrderMessage, !BoundedQueueLaws QE ExchangeEvent, !BoundedQueueLaws QS string}.
Context (interval : Z).

#[local] Abbreviation program := (program (QM := QM) (QE := QE) (QS := QS)).
#[local] Abbreviation svc := (service (QM := QM) (QE := QE) (QS := QS)).
Implicit Types (p : program) (sv : svc).
#[local] Abbreviation pstep := (pstep (QM := QM) (QE := QE) (QS := QS) interval).
#[local] Abbreviation any_step := (any_step (QM := QM) (QE := QE) (QS := QS) interval).

(** ** Steps on the data are steps of the service *)

Lemma sv_receive_step raw sv : sstep sv (sv_receive raw sv).
Proof. destruct sv. apply s_receive. Qed.

Lemma sv_process_step sv msg g fuel now ts x evs :
  sv_todo sv = [] -> inbound_pop (sv_gateway sv) = (Some msg, g) ->
  process fuel now ts msg (gw_exchange g) = Ok (x, evs) ->
  sstep sv (sv_emit (set_exchange x g) (message_outputs evs) [msg] sv).
Proof. destruct sv. simpl. intros -> Hg Hp. by eapply s_process. Qed.

Lemma sv_snapshot_step sv ts snaps :
  sv_todo sv = [] -> snapshot_all ts (gw_exchange (sv_gateway sv)) = Ok snaps ->
  sstep sv (sv_emit (sv_gateway sv) (snapshot_outputs snaps) [] sv).
Proof.
  destruct sv. simpl. intros -> Hs. unfold sv_emit. simpl. rewrite app_nil_r. by eapply s_snapshot.
Qed.

Lemma sv_hand_over_step sv o todo : sv_todo sv = o :: todo -> sstep sv (sv_hand_over o todo sv).
Proof. destruct sv. simpl. intros ->. destruct o; [apply s_log|apply s_enqueue]. Qed.

Lemma sv_publish_step sv : sstep sv (sv_publish sv).2.
Proof.
  destruct sv as [g]. unfold sv_publish. simpl. pose proof (s_publish g) as Hs. revert Hs.
  destruct (publish_one _) as [more d]. eauto.
Qed.

Lemma sv_write_step sv : sstep sv (sv_write sv).2.
Proof.
  destruct sv as [g]. unfold sv_write. simpl. pose proof (s_write g) as Hs. revert Hs.
  destruct (write_one _) as [more r]. eauto.
Qed.

(** ** Control: how far [main] is determines the flags and the other threads *)

(** The statements of [main] in the order of execution; the other ones are
    never reached. *)
Definition position (m : main_pc) : nat :=
  match m with
  | MBind => 0 | MReplay => 1 | MDispatcher => 2 | MFlag => 3 | MExchange => 4 | MReceiver => 5
  | MWait => 6 | MStop false => 7 | MJoinReceiver false => 8 | MJoinExchange false => 9
  | MStopDispatcher false => 10 | MJoinPublisher false => 11 | MStopReplay false => 12
  | MJoinWriter false => 13 | MStop true => 14 | MEndReplay => 15 | MEndDispatcher => 16
  | MReturn => 17
  | _ => 18
  end.

Definition within (a n b : nat) : bool := (a <=? n)%nat && (n <=? b)%nat.

(** Where the threads may be while [main] is at position [n]. *)
Definition receiver_at (n : nat) (r : receiver_pc) : bool :=
  match r with RNone => within 0 n 5 | RDone => within 8 n 17 | _ => within 6 n 8 end.
Definition exchange_at (n : nat) (x : exchange_pc) : bool :=
  match x with
  | XNone => within 0 n 4 | XDone => within 8 n 17
  | XPop true | XOut true => within 8 n 9 | _ => within 5 n 9
  end.
Definition publisher_at (n : nat) (w : publisher_pc) : bool :=
  match w with PNone => within 0 n 2 | PDone => within 11 n 17 | PDrain => within 11 n 11 | _ => within 3 n 11 end.
Definition writer_at (n : nat) (w : writer_pc) : bool :=
  match w with
  | WNone => within 0 n 1 | WDone => within 13 n 17 | WDrain true => within 13 n 13 | _ => within 2 n 13
  end.

Definition control_at (n : nat) p : Prop :=
  within 0 n 17 = true /\
  pg_running p = within 4 n 7 /\ pg_disp_running p = within 3 n 10 /\ pg_rl_running p = within 2 n 12 /\
  receiver_at n (pg_receiver p) = true /\ exchange_at n (pg_exchange p) = true /\
  publisher_at n (pg_publisher p) = true /\ writer_at n (pg_writer p) = true.

Definition control_inv p : Prop :=
  pg_main p = MThrow /\ pg_receiver p = RNone /\ pg_exchange p = XNone \/
  control_at (position (pg_main p)) p.

#[local] Ltac by_pc :=
  match goal with
  | H : receiver_at _ ?r = true |- receiver_at _ ?r = true => by destruct r
  | H : exchange_at _ ?x = true |- exchange_at _ ?x = true => by destruct x as [| | |[]|[]| | |]
  | H : publisher_at _ ?w = true |- publisher_at _ ?w = true => by destruct w
  | H : writer_at _ ?w = true |- writer_at _ ?w = true => by destruct w as [| |[]|]
  end.
#[local] Ltac control_solve := unfold control_inv, control_at; simpl; split_ands; try done; by_pc.

Lemma main_step_control i p p' : control_inv p -> main_step i p = Some p' -> control_inv p'.
Proof.
  intros [[Hm _]|Hinv] Hstep; unfold_main Hstep; [by rewrite Hm in Hstep|].
  destruct p as [sv m r x w l run drun rrun sh next]. unfold control_at in Hinv. simpl in Hinv.
  destruct Hinv as (Hle & -> & -> & -> & Hr & Hx & Hp & Hw).
  destruct m as [| | | | | | |[]|[]|[]|[]|[]|[]|[]| | | | | |]; try discriminate Hle; simpl in Hstep.
  - destruct (in_bind i); simplify_eq/=; [right; control_solve|left; simpl].
    split_ands; [done|by destruct r|by destruct x as [| | |[]|[]| | |]].
  - simplify_eq/=; right; control_solve.
  - destruct (in_bind i); simplify_eq/=; [right; control_solve|left; simpl].
    split_ands; [done|by destruct r|by destruct x as [| | |[]|[]| | |]].
  - simplify_eq/=; right; control_solve.
  - simplify_eq/=; right; control_solve.
  - simplify_eq/=; right; control_solve.
  - destruct sh; simplify_eq/=; right; control_solve.
  - simplify_eq/=; right; control_solve.
  - simplify_eq/=; right; control_solve.
  - destruct r; simplify_eq/=; right; control_solve.
  - destruct x as [| | |[]|[]| | |]; simplify_eq/=; right; control_solve.
  - simplify_eq/=; right; control_solve.
  - destruct w; simplify_eq/=; right; control_solve.
  - simplify_eq/=; right; control_solve.
  - destruct l as [| |[]|]; simplify_eq/=; right; control_solve.
  - simplify_eq/=; right; control_solve.
  - simplify_eq/=; right; control_solve.
  - discriminate Hstep.
Qed.

#[local] Ltac within_lia :=
  unfold within in *;
  rewrite ?andb_true_iff, ?andb_false_iff, ?Nat.leb_le, ?Nat.leb_gt in *; lia.

Lemma receiver_step_control i p p' : control_inv p -> receiver_step i p = Some p' -> control_inv p'.
Proof.
  intros [(Hm & Hr & Hx)|Hinv] Hstep; unfold receiver_step in Hstep; [by rewrite Hr in Hstep|].
  destruct p as [sv m r x w l run drun rrun sh next]. unfold control_at in Hinv. simpl in Hinv.
  destruct Hinv as (Hle & -> & Hd & Hrr & Hr & Hinv). right. unfold control_at.
  simpl in Hstep. destruct r as [| | |raw|]; simplify_eq/=; split_ands; try done; try by apply Hinv.
  - destruct (within 4 (position m) 7) eqn:Hrun; simpl; within_lia.
  - by destruct (in_frame i).
Qed.

Lemma exchange_step_control i p p' : control_inv p -> exchange_step interval i p = Some (Ok p') -> control_inv p'.
Proof.
  intros [(Hm & Hr & Hx)|Hinv] Hstep; unfold exchange_step in Hstep; [by rewrite Hx in Hstep|].
  destruct p as [sv m r x w l run drun rrun sh next]. unfold control_at in Hinv. simpl in Hinv.
  destruct Hinv as (Hle & -> & Hd & Hrr & Hr & Hx & Hp & Hw). right. unfold control_at.
  simpl in Hstep. destruct x as [| | |final|final| |now|]; try discriminate Hstep.
  - injection Hstep as (next' & _ & [= <-])%bind_ok_inv. by split_ands.
  - injection Hstep as <-. simpl. split_ands; try done.
    destruct (within 4 (position m) 7) eqn:Hrun; simpl in *; within_lia.
  - destruct (inbound_pop _) as [[msg|] g].
    + destruct (in_process_clock i) as [now ts].
      injection Hstep as ([x evs] & _ & [= <-])%bind_ok_inv. by split_ands.
    + injection Hstep as <-. simpl. split_ands; try done. destruct final; simpl in *; within_lia.
  - destruct (sv_todo sv); injection Hstep as <-; by split_ands.
  - case_decide.
    + injection Hstep as (snaps & _ & [= <-])%bind_ok_inv. by split_ands.
    + injection Hstep as <-. by split_ands.
  - destruct (sv_todo sv).
    + injection Hstep as (next' & _ & [= <-])%bind_ok_inv. by split_ands.
    + injection Hstep as <-. by split_ands.
Qed.

Lemma publisher_step_control p p' : control_inv p -> publisher_step p = Some p' -> control_inv p'.
Proof.
  unfold publisher_step. destruct p as [sv m r x w l run drun rrun sh next].
  intros [(Hm & Hr & Hx)|Hinv] Hstep.
  { left. simpl in *. destruct (sv_publish sv), w; by simplify_eq. }
  right. unfold control_at in *. simpl in *. destruct Hinv as (Hle & Hrun & -> & Hrr & Hr & Hx & Hp & Hw).
  destruct (sv_publish sv) as [more sv'], w; simplify_eq/=; split_ands; try done.
  - destruct (within 3 (position m) 10) eqn:Hrun'; simpl; within_lia.
  - destruct more; simpl; [done|within_lia].
Qed.

Lemma writer_step_control p p' : control_inv p -> writer_step p = Some p' -> control_inv p'.
Proof.
  unfold writer_step. destruct p as [sv m r x w l run drun rrun sh next].
  intros [(Hm & Hr & Hx)|Hinv] Hstep.
  { left. simpl in *. destruct (sv_write sv), l as [| |[]|]; by simplify_eq. }
  right. unfold control_at in *. simpl in *. destruct Hinv as (Hle & Hrun & Hd & -> & Hr & Hx & Hp & Hw).
  destruct (sv_write sv) as [more sv'], l as [| |final|]; simplify_eq/=; split_ands; try done.
  - destruct (within 2 (position m) 12) eqn:Hrun'; simpl; within_lia.
  - destruct more, final; simpl in *; done || within_lia.
Qed.

Lemma thread_step_control t i p p' :
  control_inv p -> thread_step interval t i p = Some (Ok p') -> control_inv p'.
Proof.
  intros Hinv. destruct t; simpl.
  - intros (p1 & Hs & [= ->])%fmap_Some. by eapply main_step_control.
  - intros (p1 & Hs & [= ->])%fmap_Some. by eapply receiver_step_control.
  - by apply exchange_step_control.
  - intros (p1 & Hs & [= ->])%fmap_Some. by eapply publisher_step_control.
  - intros (p1 & Hs & [= ->])%fmap_Some. by eapply writer_step_control.
  - by intros [= <-].
Qed.

(** Outside the loops that hand over outputs there are none. *)
Definition todo_inv p : Prop :=
  match pg_exchange p with XOut _ | XSnap _ => True | _ => sv_todo (pg_service p) = [] end.

Lemma exchange_step_refines i p p' :
  todo_inv p -> exchange_step interval i p = Some (Ok p') ->
  (pg_service p' = pg_service p \/ sstep (pg_service p) (pg_service p')) /\ todo_inv p'.
Proof.
  unfold todo_inv, exchange_step. intros Hinv. destruct (pg_exchange p) as [| | |final|final| |now|]; try done.
  - intros [= (next & _ & [= <-])%bind_ok_inv]. by split; [left|].
  - intros [= <-]. by split; [left|].
  - destruct (inbound_pop _) as [[msg|] g] eqn:Hpop.
    + destruct (in_process_clock i) as [now ts].
      intros [= ([x evs] & Hp & [= <-])%bind_ok_inv]. split; [right|done]. by eapply sv_process_step.
    + intros [= <-]. simpl. split; [by left|]. by destruct final.
  - destruct (sv_todo _) as [|o todo] eqn:Htodo; intros [= <-].
    + split; [by left|done].
    + split; [right|done]. by apply sv_hand_over_step.
  - case_decide.
    + intros [= (snaps & Hs & [= <-])%bind_ok_inv]. split; [right|done]. by eapply sv_snapshot_step.
    + intros [= <-]. by split; [left|].
  - destruct (sv_todo _) as [|o todo] eqn:Htodo.
    + intros [= (next & _ & [= <-])%bind_ok_inv]. by split; [left|].
    + intros [= <-]. split; [right|done]. by apply sv_hand_over_step.
Qed.

Lemma sv_frame sv :
  (forall raw, sv_todo (sv_receive raw sv) = sv_todo sv) /\
  sv_todo (sv_publish sv).2 = sv_todo sv /\ sv_todo (sv_write sv).2 = sv_todo sv.
Proof. unfold sv_publish, sv_write. by destruct (publish_one _), (write_one _). Qed.

(** Every step of a thread is one of the service or leaves its data alone. *)
Lemma thread_step_refines t i p p' :
  control_inv p -> todo_inv p -> thread_step interval t i p = Some (Ok p') ->
  (pg_service p' = pg_service p \/ sstep (pg_service p) (pg_service p')) /\ todo_inv p'.
Proof.
  intros Hctl Hinv. destruct t; simpl; [| |by apply exchange_step_refines| | |].
  - intros (p1 & Hm & [= ->])%fmap_Some.
    assert (pg_service p1 = pg_service p /\ (pg_exchange p1 = pg_exchange p \/
      pg_main p = MExchange /\ pg_exchange p1 = XStart)) as [Heq Hx].
    { unfold_main Hm. destruct (pg_main p); repeat case_match; simplify_eq/=; auto. }
    split; [by left|]. unfold todo_inv in *. rewrite Heq. destruct Hx as [->|[Hpos ->]]; [done|].
    destruct Hctl as [(? & _)|(_ & _ & _ & _ & _ & Hx & _)]; [congruence|].
    rewrite Hpos in Hx. by destruct (pg_exchange p) as [| | |[]|[]| | |].
  - intros (p1 & Hr & [= ->])%fmap_Some. unfold receiver_step in Hr. unfold todo_inv in *.
    destruct (pg_receiver p) as [| | |raw|]; simplify_eq/=; try (split; [by left|done]).
    split; [right; apply sv_receive_step|done].
  - intros (p1 & Hw & [= ->])%fmap_Some. unfold publisher_step in Hw. unfold todo_inv in *.
    destruct (sv_frame (pg_service p)) as (_ & Htodo & _).
    pose proof (sv_publish_step (pg_service p)) as Hstep.
    destruct (pg_publisher p), (sv_publish _) as [more sv]; simplify_eq/=; rewrite ?Htodo; auto.
  - intros (p1 & Hw & [= ->])%fmap_Some. unfold writer_step in Hw. unfold todo_inv in *.
    destruct (sv_frame (pg_service p)) as (_ & _ & Htodo).
    pose proof (sv_write_step (pg_service p)) as Hstep.
    destruct (pg_writer p), (sv_write _) as [more sv]; simplify_eq/=; rewrite ?Htodo; auto.
  - intros [= <-]. unfold todo_inv in *. by split; [left|].
Qed.

(** ** Data at the end of the threads *)

(** Messages the receiver may still accept without testing the flag. *)
Definition pending (r : receiver_pc) : nat := match r with RRecv | RFrame _ => 1 | _ => 0 end.

Record ended_inv p : Prop := {
  ei_inbound : pg_exchange p = XDone ->
    (length (sv_accepted (pg_service p)) + pending (pg_receiver p) <= length (sv_processed (pg_service p)) + 1)%nat;
  ei_sent : pg_publisher p = PDone ->
    disp_sent (gw_dispatcher (sv_gateway (pg_service p))) = map serialize_event (sv_published (pg_service p));
  ei_file : pg_writer p = WDone ->
    rl_file (gw_replay (sv_gateway (pg_service p))) = map serialize_event (sv_logged (pg_service p));
}.

Lemma exchange_step_ended i p p' :
  control_inv p -> delivery_inv (pg_service p) -> ended_inv p ->
  exchange_step interval i p = Some (Ok p') -> ended_inv p'.
Proof.
  intros Hctl ((l & Hl & Hacc) & _) Hinv Hstep.
  assert (pg_publisher p <> PDone /\ pg_writer p <> WDone) as [Hpub Hwr].
  { unfold exchange_step in Hstep.
    destruct Hctl as [(_ & _ & Hx)|(_ & _ & _ & _ & _ & Hx & Hp & Hw)]; [by rewrite Hx in Hstep|].
    revert Hx Hp Hw. generalize (position (pg_main p)). intros n Hx Hp Hw.
    destruct (pg_exchange p) as [| | |[]|[]| | |] eqn:Heq; try discriminate Hstep;
      (split; intros Hd; [rewrite Hd in Hp|rewrite Hd in Hw]; simpl in *; within_lia). }
  assert (pg_publisher p' = pg_publisher p /\ pg_writer p' = pg_writer p /\ pg_receiver p' = pg_receiver p /\
    (pg_exchange p' = XDone -> pg_service p' = pg_service p /\ l = [])) as (Hp' & Hw' & Hr' & Hx').
  { unfold exchange_step in Hstep. destruct (pg_exchange p) as [| | |final|final| |now|]; try discriminate Hstep.
    - by injection Hstep as (next' & _ & [= <-])%bind_ok_inv.
    - by injection Hstep as <-.
    - unfold inbound_pop in Hstep. pose proof (dequeue_holds _ _ Hl) as Hd.
      destruct (dequeue _) as [[msg|] q].
      + destruct (in_process_clock i) as [now ts].
        by injection Hstep as ([x evs] & _ & [= <-])%bind_ok_inv.
      + injection Hstep as <-. split_ands; try done. intros _. split; [done|].
        destruct l; [done|]. by destruct Hd as (? & ? & _).
    - destruct (sv_todo _); by injection Hstep as <-.
    - case_decide; [by injection Hstep as (snaps & _ & [= <-])%bind_ok_inv|by injection Hstep as <-].
    - destruct (sv_todo _); [by injection Hstep as (next' & _ & [= <-])%bind_ok_inv|by injection Hstep as <-]. }
  split; rewrite ?Hp', ?Hw', ?Hr'; try done. intros Hx. destruct (Hx' Hx) as [-> ->].
  rewrite Hacc, app_nil_r. destruct (pg_receiver p); simpl; lia.
Qed.

Lemma option_list_length {A} (x : option A) : (length (option_list x) <= 1)%nat.
Proof. destruct x; simpl; lia. Qed.

Lemma receiver_step_ended i p p' :
  control_inv p -> ended_inv p -> receiver_step i p = Some p' -> ended_inv p'.
Proof.
  intros Hctl [Hin Hsent Hfile] Hstep. unfold receiver_step in Hstep.
  destruct (pg_receiver p) as [| | |raw|] eqn:Hr; simplify_eq/=.
  - split; simpl; try done. intros Hx. specialize (Hin Hx).
    destruct Hctl as [(_ & Hn & _)|(_ & -> & _ & _ & _ & Hxat & _)]; [congruence|]. rewrite Hx in Hxat.
    destruct (within 4 (position (pg_main p)) 7) eqn:Hw; simpl in *; [within_lia|lia].
  - split; simpl; try done. intros Hx. specialize (Hin Hx). destruct (in_frame i); simpl in *; lia.
  - split; simpl.
    + intros Hx. specialize (Hin Hx). rewrite length_app.
      pose proof (option_list_length (accepts_message raw (sv_gateway (pg_service p)))). simpl in Hin. lia.
    + intros Hp. rewrite <- (Hsent Hp). unfold receive. repeat case_match; simplify_eq/=; try done.
      unfold inbound_push. by destruct (enqueue _ _) as [[] ?].
    + intros Hp. rewrite <- (Hfile Hp). unfold receive. repeat case_match; simplify_eq/=; try done.
      unfold inbound_push. by destruct (enqueue _ _) as [[] ?].
Qed.

Lemma publisher_step_ended p p' :
  delivery_inv (pg_service p) -> ended_inv p -> publisher_step p = Some p' -> ended_inv p'.
Proof.
  intros (_ & _ & [(l & Hl & Hsq) _ _] & _) [Hin Hsent Hfile] Hstep.
  unfold publisher_step, sv_publish, publish_one in Hstep. pose proof (dequeue_holds _ _ Hl) as Hd.
  destruct (pg_publisher p) eqn:Hp; try discriminate Hstep.
  - injection Hstep as <-. split; simpl; [done| |done]. by destruct (pg_disp_running p).
  - destruct (dequeue _) as [[ev|] q]; injection Hstep as <-; by split.
  - destruct (dequeue _) as [[ev|] q]; injection Hstep as <-; split; simpl; try done.
    intros _. rewrite <- Hsq. destruct l; [by rewrite app_nil_r|]. by destruct Hd as (? & ? & _).
Qed.

Lemma writer_step_ended p p' :
  delivery_inv (pg_service p) -> ended_inv p -> writer_step p = Some p' -> ended_inv p'.
Proof.
  intros (_ & _ & _ & [(l & Hl & Hsq) _ _]) [Hin Hsent Hfile] Hstep.
  unfold writer_step, sv_write, write_one in Hstep. pose proof (dequeue_holds _ _ Hl) as Hd.
  destruct (pg_writer p) as [| |final|] eqn:Hp; try discriminate Hstep.
  - injection Hstep as <-. by split.
  - destruct (dequeue _) as [[line|] q]; injection Hstep as <-; split; simpl; try done.
    intros _. rewrite <- Hsq. destruct l; [by rewrite app_nil_r|]. by destruct Hd as (? & ? & _).
Qed.

Lemma main_step_ended i p p' :
  control_inv p -> ended_inv p -> main_step i p = Some p' -> ended_inv p'.
Proof.
  intros Hctl [Hin Hsent Hfile] Hstep.
  assert (pg_service p' = pg_service p /\ (pending (pg_receiver p') <= pending (pg_receiver p))%nat /\
    (pg_exchange p' = XDone -> pg_exchange p = XDone) /\
    (pg_publisher p' = PDone -> pg_publisher p = PDone) /\ (pg_writer p' = WDone -> pg_writer p = WDone))
    as (Hsv & Hr & Hx & Hp & Hw).
  { unfold_main Hstep. destruct (pg_main p); repeat case_match; simplify_eq/=; split_ands; try done; lia. }
  split; rewrite Hsv; intros Hd; [specialize (Hin (Hx Hd)); lia|auto..].
Qed.

Record program_inv p : Prop := {
  pi_control : control_inv p;
  pi_todo : todo_inv p;
  pi_delivery : delivery_inv (pg_service p);
  pi_ended : ended_inv p;
}.

Lemma pstep_inv t p p' : pstep t p p' -> program_inv p -> program_inv p'.
Proof.
  intros (i & _ & Hstep) [Hctl Htodo Hdel Hend].
  destruct (thread_step_refines _ _ _ _ Hctl Htodo Hstep) as [Hs Htodo']. split; [by eapply thread_step_control|done| |].
  - destruct Hs as [->|Hs]; [done|by eapply sstep_delivery].
  - destruct t; simpl in Hstep.
    + apply fmap_Some in Hstep as (p1 & Hs' & [= ->]). by eapply main_step_ended.
    + apply fmap_Some in Hstep as (p1 & Hs' & [= ->]). by eapply receiver_step_ended.
    + by eapply exchange_step_ended.
    + apply fmap_Some in Hstep as (p1 & Hs' & [= ->]). by eapply publisher_step_ended.
    + apply fmap_Some in Hstep as (p1 & Hs' & [= ->]). by eapply writer_step_ended.
    + injection Hstep as <-. destruct Hend. by split.
Qed.

Lemma program_init_inv (qm : QM) (qe : QE) (qs : QS) :
  holds qm [] -> holds qe [] -> holds qs [] -> program_inv (program_init qm qe qs).
Proof.
  intros Hm He Hs. split; [by right|done|by apply service_init_delivery|by split].
Qed.

Lemma program_runs p p' :
  rtc any_step p p' -> program_inv p -> program_inv p' /\ rtc sstep (pg_service p) (pg_service p').
Proof.
  induction 1 as [p|p1 p2 p3 (t & Hstep) _ IH]; intros Hinv; [by split|].
  destruct (IH (pstep_inv t p1 p2 Hstep Hinv)) as [Hinv3 Hrun]. split; [done|].
  destruct Hstep as (i & _ & Hstep).
  destruct (thread_step_refines t i p1 p2 (pi_control _ Hinv) (pi_todo _ Hinv) Hstep) as [[Heq|Hs] _].
  - by rewrite <- Heq.
  - by eapply rtc_l.
Qed.

(** ** The claims *)

(** The threads of the program, with their flags, loops, joins and the
    snapshot timer, started in any way and interleaved in any way, only do
    steps of the service of [Gateway]: everything proved of the service holds
    of the program. *)
Theorem program_refines_service (qm : QM) (qe : QE) (qs : QS) p :
  holds qm [] -> holds qe [] -> holds qs [] -> rtc any_step (program_init qm qe qs) p ->
  rtc sstep (service_init qm qe qs) (pg_service p).
Proof. intros Hm He Hs Hrun. by apply (program_runs _ _ Hrun), program_init_inv. Qed.

(** When [main] returns, all threads have ended. All accepted messages
    have been processed in order but possibly the last one, and the exchange
    and its events are those of the sequential exchange on the processed
    messages. Every event that the dispatcher accepted has been sent, every
    event that the replay logger accepted is in the file, both in the order of
    emission; what is missing of the emitted events are the counted drops. *)
Theorem stop_delivers (qm : QM) (qe : QE) (qs : QS) p :
  holds qm [] -> holds qe [] -> holds qs [] -> rtc any_step (program_init qm qe qs) p ->
  pg_main p = MReturn ->
  let sv := pg_service p in let g := sv_gateway sv in
  (pg_receiver p = RDone /\ pg_exchange p = XDone /\ pg_publisher p = PDone /\ pg_writer p = WDone) /\
  (exists unprocessed, sv_accepted sv = sv_processed sv ++ unprocessed /\ (length unprocessed <= 1)%nat) /\
  (exists fuel msgs evss, map snd msgs = sv_processed sv /\
    process_all fuel msgs new_exchange = Ok (gw_exchange g, evss) /\
    message_events (omap to_pub (sv_emitted sv)) = mjoin evss /\
    message_events (omap to_log (sv_emitted sv)) = mjoin evss) /\
  (disp_sent (gw_dispatcher g) = map serialize_event (sv_published sv) /\
    sublist (sv_published sv) (omap to_pub (sv_emitted sv)) /\
    disp_drops (gw_dispatcher g) = u64 (missing (omap to_pub (sv_emitted sv)) (sv_published sv))) /\
  (rl_file (gw_replay g) = map serialize_event (sv_logged sv) /\
    sublist (sv_logged sv) (omap to_log (sv_emitted sv)) /\
    rl_drops (gw_replay g) = u64 (missing (omap to_log (sv_emitted sv)) (sv_logged sv))).
Proof.
  intros Hm He Hs Hrun Hmain sv g.
  destruct (program_runs _ _ Hrun (program_init_inv _ _ _ Hm He Hs)) as [[Hctl Htodo Hdel [Hin Hsent Hfile]] Hsv].
  pose proof (rtc_sequential _ _ Hsv (service_init_sequential _ _ _)) as Hseq. unfold sequential_inv in Hseq.
  destruct Hctl as [(? & _)|(_ & _ & _ & _ & Hr & Hx & Hp & Hw)]; [congruence|]. rewrite Hmain in *.
  assert (pg_receiver p = RDone) as Hr' by by destruct (pg_receiver p).
  assert (pg_exchange p = XDone) as Hx' by by destruct (pg_exchange p) as [| | |[]|[]| | |].
  assert (pg_publisher p = PDone) as Hp' by by destruct (pg_publisher p).
  assert (pg_writer p = WDone) as Hw' by by destruct (pg_writer p) as [| |[]|].
  specialize (Hin Hx'). rewrite Hr' in Hin. unfold todo_inv in Htodo. rewrite Hx' in Htodo.
  destruct Hdel as ((l & _ & Hacc) & (done & Hem & Hoff & Hloff) & [_ Hsub Hdr] & [_ Hlsub Hldr]).
  rewrite Htodo, app_nil_r in Hem. subst done sv g. rewrite <- Hoff, <- Hloff in Hseq |- *.
  split_ands; try done; try by auto.
  exists l. split; [done|]. rewrite Hacc, length_app in Hin. simpl in Hin. lia.
Qed.
End lifecycle.

(** ** A complete run

    The five threads take turns, after a signal before the start; the first
    frame that the receiver polls is an order. *)

#[local] Existing Instance tree_lib.

Definition demo_input (n : nat) : input :=
  mkInput true (if decide (n < 60)%nat then Some demo_raw else None) 0 (0, 0) (fun _ => 0) 100.
Definition turns : list thread := [TMain; TReceiver; TExchange; TPublisher; TWriter].
Definition demo_sched (n : nat) : thread := nth (n mod 5)%nat turns TMain.

Definition demo_next (n : nat) p := match thread_step 100 (demo_sched n) (demo_input n) p with Some (Ok p') => p' | _ => p end.
Fixpoint demo_trace (n : nat) :=
  match n with
  | O => set_shutdown (program_init inbound_ring outbound_ring replay_ring)
  | S n => demo_next n (demo_trace n)
  end.

Lemma demo_start : rtc (any_step 100) (program_init inbound_ring outbound_ring replay_ring) (demo_trace 0).
Proof. apply rtc_once. exists TSignal, (demo_input 0). split; [unfold clock_ok; simpl; lia|reflexivity]. Qed.

Lemma demo_reach n : rtc (any_step 100) (program_init inbound_ring outbound_ring replay_ring) (demo_trace n).
Proof.
  induction n as [|n IH]; [apply demo_start|]. simpl. unfold demo_next.
  destruct (thread_step _ _ _ _) as [[p'| |]|] eqn:Hs; try done. eapply rtc_r; [done|].
  exists (demo_sched n), (demo_input n). split; [unfold clock_ok; simpl; lia|done].
Qed.

Lemma demo_ends : pg_main (demo_trace 200) = MReturn.
Proof. vm_compute. reflexivity. Qed.

Lemma program_refines_service_witness :
  rtc sstep (service_init inbound_ring outbound_ring replay_ring) (pg_service (demo_trace 200)).
Proof.
  apply (program_refines_service 100 inbound_ring outbound_ring replay_ring);
    [apply demo_holds..|apply demo_reach].
Defined.

Lemma stop_delivers_witness :
  exists unprocessed, sv_accepted (pg_service (demo_trace 200)) = sv_processed (pg_service (demo_trace 200)) ++ unprocessed /\
    (length unprocessed <= 1)%nat.
Proof.
  apply (stop_delivers 100 inbound_ring outbound_ring replay_ring);
    [apply demo_holds..|apply demo_reach|apply demo_ends].
Defined.

(** ** The message that may be lost

    The receiver has passed its test when the flag is cleared; the exchange
    thread drains its empty queue and ends; then the receiver accepts an
    order, which nobody processes. *)

Fixpoint run_threads (ts : list (thread * input)) p :=
  match ts with
  | [] => Some p
  | (t, i) :: ts => match thread_step 100 t i p with Some (Ok p') => run_threads ts p' | _ => None end
  end.

Lemma run_threads_reach ts p p' :
  Forall (fun ti => clock_ok ti.2) ts -> run_threads ts p = Some p' -> rtc (any_step 100) p p'.
Proof.
  revert p. induction ts as [|[t i] ts IH]; intros p Hi; simpl; [by intros [= ->]|].
  apply Forall_cons in Hi as [Hi His].
  destruct (thread_step _ _ _ _) as [[p1| |]|] eqn:Hs; try done. intros Hrun.
  eapply rtc_l; [|by apply IH]. by exists t, i.
Qed.

Definition lost_schedule : list thread :=
  replicate 6 TMain ++ [TReceiver; TSignal; TMain; TMain; TExchange; TExchange; TExchange] ++
  [TReceiver; TReceiver; TReceiver; TMain; TMain; TMain; TPublisher; TPublisher; TMain; TMain] ++
  [TWriter; TWriter; TMain; TMain; TMain; TMain].

Lemma observe_run {A} (f : program -> A) ts p x :
  Forall (fun ti => clock_ok ti.2) ts -> f <$> run_threads ts p = Some x ->
  exists p', rtc (any_step 100) p p' /\ f p' = x.
Proof. intros Hi (p' & Hp & ->)%fmap_Some. exists p'. split; [by eapply run_threads_reach|done]. Qed.

Theorem last_message_lost :
  exists p, rtc (any_step 100) (program_init inbound_ring outbound_ring replay_ring) p /\
    pg_main p = MReturn /\ sv_accepted (pg_service p) = [demo_offer] /\ sv_processed (pg_service p) = [].
Proof.
  destruct (observe_run (fun p => (pg_main p, sv_accepted (pg_service p), sv_processed (pg_service p)))
    (map (fun t => (t, demo_input 0)) lost_schedule) (program_init inbound_ring outbound_ring replay_ring)
    (MReturn, [demo_offer], [])) as (p & Hrun & [= Hm Ha Hp]).
  - apply Forall_forall. intros ti (t & -> & _)%list_elem_of_fmap. unfold clock_ok. simpl. lia.
  - vm_compute. reflexivity.
  - by exists p.
Qed.
