(* ===== verification/EndToEnd.v ===== *)
(** * EndToEnd: from the received frames to the sent messages

    A run of the service from the start to the return of [main], seen from
    outside: the frames that the receiver takes from its socket, the messages
    that the publisher hands to its socket, the lines of the replay file and
    the three drop counters. *)

From S2P Require Import Prelude Types PriceLevel OrderBook Engine Market EngineRefine EngineEvents.
From S2P Require Import Session Trading Guarantees Exchange ExchangeProps Ring Serializer Gateway.
From S2P Require Import GatewayProps Fairness Lifecycle LifecycleProps.

#[local] Opaque new_exchange.

Section end_to_end.
Context `{JsonLib}.
Context {QM QE QS : Type}.
Context `{!BoundedQueue QM OrderMessage, !BoundedQueue QE ExchangeEvent, !BoundedQueue QS string}.
Context `{!BoundedQueueLaws QM OrderMessage, !BoundedQueueLaws QE ExchangeEvent, !BoundedQueueLaws QS string}.
Context (interval : Z).

#[local] Abbreviation program := (program (QM := QM) (QE := QE) (QS := QS)).
#[local] Abbreviation svc := (service (QM := QM) (QE := QE) (QS := QS)).
#[local] Abbreviation any_step := (any_step (QM := QM) (QE := QE) (QS := QS) interval).
Implicit Types (p : program) (sv : svc).
Implicit Types (i : input) (fs : list string).

(** ** Runs with the frames they receive *)

(** The frame that [zmq_msg_recv] returns in this step. *)
Definition received (t : thread) i p : list string :=
  match t, pg_receiver p with TReceiver, RRecv => option_list (in_frame i) | _, _ => [] end.

Inductive run : program -> list string -> program -> Prop :=
| run_start p : run p [] p
| run_step p fs p1 t i p2 :
    run p fs p1 -> clock_ok i -> thread_step interval t i p1 = Some (Ok p2) ->
    run p (fs ++ received t i p1) p2.

Lemma run_reach p fs p' : run p fs p' -> rtc any_step p p'.
Proof. induction 1; [apply rtc_refl|]. eapply rtc_r; [done|]. by exists t, i. Qed.

(** ** The inbound side *)

Definition in_hand (r : receiver_pc) : list string := match r with RFrame raw => [raw] | _ => [] end.

(** Steps of the other threads leave this side alone. *)
Definition same_inbound sv sv' : Prop :=
  index (gw_exchange (sv_gateway sv')) = index (gw_exchange (sv_gateway sv)) /\
  sv_accepted sv' = sv_accepted sv /\
  gw_inbound_drops (sv_gateway sv') = gw_inbound_drops (sv_gateway sv).

Lemma same_inbound_inv handled sv sv' : same_inbound sv sv' -> inbound_inv handled sv -> inbound_inv handled sv'.
Proof. intros (Hx & Ha & Hd) [Hi Hs Hdr]. split; congruence. Qed.

Lemma hand_over_same o todo sv : same_inbound sv (sv_hand_over o todo sv).
Proof. by destruct o. Qed.

Lemma exchange_step_same i p p' :
  exchange_step interval i p = Some (Ok p') ->
  same_inbound (pg_service p) (pg_service p') /\ pg_receiver p' = pg_receiver p.
Proof.
  unfold exchange_step. destruct (pg_exchange p) as [| | |final|final| |now|]; try done.
  - by intros [= (next & _ & [= <-])%bind_ok_inv].
  - by intros [= <-].
  - unfold inbound_pop. destruct (dequeue _) as [[msg|] q].
    + destruct (in_process_clock i) as [now ts].
      intros [= ([x evs] & Hp & [= <-])%bind_ok_inv]. apply process_index in Hp. simpl in Hp. by split.
    + by intros [= <-].
  - destruct (sv_todo _) as [|o todo]; intros [= <-]; [done|]. split; [apply hand_over_same|done].
  - case_decide.
    + by intros [= (snaps & _ & [= <-])%bind_ok_inv].
    + by intros [= <-].
  - destruct (sv_todo _) as [|o todo].
    + by intros [= (next & _ & [= <-])%bind_ok_inv].
    + intros [= <-]. split; [apply hand_over_same|done].
Qed.

Lemma receive_inbound' raw handled sv : inbound_inv handled sv -> inbound_inv (handled ++ [raw]) (sv_receive raw sv).
Proof. destruct sv. apply receive_inbound. Qed.

Definition frames_inv fs p : Prop :=
  exists handled, fs = handled ++ in_hand (pg_receiver p) /\ inbound_inv handled (pg_service p).

Lemma thread_step_frames t i p p' fs :
  program_inv p -> thread_step interval t i p = Some (Ok p') ->
  frames_inv fs p -> frames_inv (fs ++ received t i p) p'.
Proof.
  intros Hinv Hstep (handled & -> & Hii).
  assert (forall p', same_inbound (pg_service p) (pg_service p') -> in_hand (pg_receiver p') = in_hand (pg_receiver p) ->
    frames_inv ((handled ++ in_hand (pg_receiver p)) ++ []) p') as Hother.
  { intros p1 Hs Hr. exists handled. rewrite app_nil_r, Hr. split; [done|]. by eapply same_inbound_inv. }
  unfold received. destruct t; simpl in Hstep.
  - apply fmap_Some in Hstep as (p1 & Hm & [= ->]). apply Hother.
    + unfold_main Hm. unfold same_inbound. destruct (pg_main p); repeat case_match; by simplify_eq/=.
    + pose proof (pi_control _ Hinv) as Hctl. unfold_main Hm.
      destruct (pg_main p) eqn:Hmain; repeat case_match; simplify_eq/=; try done.
      destruct Hctl as [(Ht & _)|(_ & _ & _ & _ & Hr & _)]; [congruence|].
      rewrite Hmain in Hr. by destruct (pg_receiver p).
  - apply fmap_Some in Hstep as (p1 & Hr & [= ->]). unfold receiver_step in Hr.
    destruct (pg_receiver p) as [| | |raw|] eqn:Hpc; try done; simplify_eq/=.
    + exists handled. simpl. rewrite !app_nil_r. split; [|done]. destruct (pg_running p); by rewrite app_nil_r.
    + exists handled. simpl. rewrite app_nil_r. split; [|done]. by destruct (in_frame i).
    + exists (handled ++ [raw]). simpl. rewrite !app_nil_r. split; [done|]. by apply receive_inbound'.
  - apply exchange_step_same in Hstep as [Hs Hr]. apply Hother; [done|by rewrite Hr].
  - apply fmap_Some in Hstep as (p1 & Hw & [= ->]). unfold publisher_step, sv_publish in Hw.
    destruct (publish_one _) as [more d]. destruct (pg_publisher p); simplify_eq/=; by apply Hother.
  - apply fmap_Some in Hstep as (p1 & Hw & [= ->]). unfold writer_step, sv_write in Hw.
    destruct (write_one _) as [more r]. destruct (pg_writer p); simplify_eq/=; by apply Hother.
  - injection Hstep as <-. by apply Hother.
Qed.

Lemma run_frames (qm : QM) (qe : QE) (qs : QS) fs p :
  holds qm [] -> holds qe [] -> holds qs [] -> run (program_init qm qe qs) fs p ->
  program_inv p /\ frames_inv fs p.
Proof.
  intros Hm He Hs Hrun. remember (program_init qm qe qs) as p0 eqn:Hp0.
  induction Hrun as [p|p fs p1 t i p2 Hrun IH Hi Hstep].
  - subst. split; [by apply program_init_inv|]. exists []. split; [done|].
    unfold program_init, service_init. split; cbn [sv_gateway pg_service gw_exchange sv_accepted gw_inbound_drops];
      [reflexivity|constructor|reflexivity].
  - destruct (IH Hp0) as [Hinv Hf]. split; [|by apply thread_step_frames].
    eapply pstep_inv; [|done]. by exists i.
Qed.

(** ** The outbound side: the same events are published and logged *)

Definition same_outputs sv : Prop := omap to_pub (sv_emitted sv) = omap to_log (sv_emitted sv).

Lemma sstep_same_outputs sv sv' : sstep sv sv' -> same_outputs sv -> same_outputs sv'.
Proof.
  unfold same_outputs. intros Hstep. destruct Hstep; simpl; try done; rewrite !omap_app; intros ->; f_equal.
  - destruct (omap_message_outputs evs) as [-> ->]. done.
  - clear H0. induction snaps as [|sn snaps IH]; [done|]. cbn. f_equal. exact IH.
Qed.

Lemma rtc_same_outputs sv sv' : rtc sstep sv sv' -> same_outputs sv -> same_outputs sv'.
Proof. induction 1; eauto using sstep_same_outputs. Qed.

(** C26. The service seen from outside. Take any run of the program, with any
    interleaving of its threads, that receives the frames [fs] and returns
    from [main]. The orders among [fs] (frames that parse and name a listed
    instrument), less the counted inbound drops and with their order kept, are
    the processed messages and at most one more. Processing the processed ones
    sequentially, from the empty exchange, gives the events [evss] and the
    state in which the exchange is left. With snapshots put in between, [evss]
    are the events of the service. The messages sent on the socket and the
    lines of the replay file are the serialization of these events, in order,
    each less its counted drops. *)
Theorem end_to_end (qm : QM) (qe : QE) (qs : QS) fs p :
  holds qm [] -> holds qe [] -> holds qs [] -> run (program_init qm qe qs) fs p -> pg_main p = MReturn ->
  let g := sv_gateway (pg_service p) in
  exists processed unprocessed fuel msgs evss events published logged,
    (sublist (processed ++ unprocessed) (orders_of fs) /\ (length unprocessed <= 1)%nat /\
      gw_inbound_drops g = u64 (missing (orders_of fs) (processed ++ unprocessed))) /\
    (map snd msgs = processed /\ process_all fuel msgs new_exchange = Ok (gw_exchange g, evss)) /\
    message_events events = mjoin evss /\
    (disp_sent (gw_dispatcher g) = map serialize_event published /\ sublist published events /\
      disp_drops (gw_dispatcher g) = u64 (missing events published)) /\
    (rl_file (gw_replay g) = map serialize_event logged /\ sublist logged events /\
      rl_drops (gw_replay g) = u64 (missing events logged)).
Proof.
  intros Hm He Hs Hrun Hmain g.
  destruct (run_frames _ _ _ _ _ Hm He Hs Hrun) as [_ (handled & Hfs & Hii)].
  pose proof (run_reach _ _ _ Hrun) as Hreach.
  destruct (program_runs interval _ _ Hreach (program_init_inv _ _ _ Hm He Hs)) as [_ Hsv].
  assert (same_outputs (pg_service p)) as Hsame by (by apply (rtc_same_outputs _ _ Hsv)).
  destruct (stop_delivers interval qm qe qs p Hm He Hs Hreach Hmain)
    as ((Hr & _) & (unprocessed & Hacc & Hlen) & (fuel & msgs & evss & Hmsgs & Hproc & Hpub & _)
      & (Hsent & Hps & Hpd) & (Hfile & Hls & Hld)).
  rewrite Hr in Hfs. simpl in Hfs. rewrite app_nil_r in Hfs. subst handled. destruct Hii as [_ Hsub Hdrops].
  rewrite <- Hsame in Hls, Hld.
  exists (sv_processed (pg_service p)), unprocessed, fuel, msgs, evss, (omap to_pub (sv_emitted (pg_service p))),
    (sv_published (pg_service p)), (sv_logged (pg_service p)).
  rewrite <- Hacc. split_ands; assumption.
Qed.
End end_to_end.

(** ** A complete run, with the frame it receives *)

#[local] Existing Instance tree_lib.

Definition demo_received (n : nat) p : list string :=
  match thread_step 100 (demo_sched n) (demo_input n) p with
  | Some (Ok _) => received (demo_sched n) (demo_input n) p
  | _ => []
  end.

(** The run of [LifecycleProps] together with its frames. *)
Fixpoint demo_observed (n : nat) :=
  match n with
  | O => (set_shutdown (program_init inbound_ring outbound_ring replay_ring), [])
  | S n => let '(p, fs) := demo_observed n in (demo_next n p, fs ++ demo_received n p)
  end.

Lemma demo_observed_run n :
  run 100 (program_init inbound_ring outbound_ring replay_ring) (demo_observed n).2 (demo_observed n).1.
Proof.
  induction n as [|n IH].
  - apply (run_step 100 (program_init inbound_ring outbound_ring replay_ring) [] (program_init inbound_ring outbound_ring replay_ring) TSignal (demo_input 0)); [apply run_start|unfold clock_ok; simpl; lia|reflexivity].
  - simpl. destruct (demo_observed n) as [p fs]. simpl in *. unfold demo_next, demo_received.
    destruct (thread_step _ _ _ _) as [[p'| |]|] eqn:Hs; rewrite ?app_nil_r; try done.
    eapply run_step; [done| |done]. unfold clock_ok. simpl. lia.
Qed.

Lemma demo_observed_ends : ((demo_observed 200).2, pg_main (demo_observed 200).1) = ([demo_raw], MReturn).
Proof. vm_compute. reflexivity. Qed.

Lemma end_to_end_witness :
  exists p, run 100 (program_init inbound_ring outbound_ring replay_ring) [demo_raw] p /\ pg_main p = MReturn /\
    exists processed unprocessed, sublist (processed ++ unprocessed) (orders_of [demo_raw]) /\
      (length unprocessed <= 1)%nat /\
      gw_inbound_drops (sv_gateway (pg_service p)) =
        u64 (missing (orders_of [demo_raw]) (processed ++ unprocessed)).
Proof.
  pose proof (demo_observed_run 200) as Hrun. pose proof demo_observed_ends as Hend.
  destruct (demo_observed 200) as [p fs]. injection Hend as Hfs Hmain. cbn [fst snd] in *. subst fs.
  exists p. split; [exact Hrun|]. split; [exact Hmain|].
  destruct (end_to_end 100 inbound_ring outbound_ring replay_ring [demo_raw] p)
    as (processed & unprocessed & fuel & msgs & evss & events & published & logged & Hin & _);
    [apply demo_holds..|exact Hrun|exact Hmain|].
  exists processed, unprocessed. exact Hin.
Defined.
