(* ===== verification/Progress.v ===== *)
(** * Progress: no thread of the program crashes

    In every reachable state of the program of [Lifecycle] every thread that
    exists and does not wait in a join can make its next step: the arithmetic
    on the clock, the processing of a message and the snapshots are defined. *)

From S2P Require Import Prelude Types PriceLevel OrderBook Engine Market EngineRefine EngineEvents.
From S2P Require Import Session Trading Guarantees Exchange ExchangeProps Ring Serializer Gateway.
From S2P Require Import GatewayProps Fairness Lifecycle LifecycleProps.

Section lifecycle.
Context `{JsonLib}.
Context {QM QE QS : Type}.
Context `{!BoundedQueue QM OrderMessage, !BoundedQueue QE ExchangeEvent, !BoundedQueue QS string}.
Context `{!BoundedQueueLaws QM OrderMessage, !BoundedQueueLaws QE ExchangeEvent, !BoundedQueueLaws QS string}.
Context (interval : Z).

#[local] Abbreviation program := (program (QM := QM) (QE := QE) (QS := QS)).
#[local] Abbreviation svc := (service (QM := QM) (QE := QE) (QS := QS)).
Implicit Types (p : program) (sv : svc).
#[local] Abbreviation pstep := (pstep (QM := QM) (QE := QE) (QS := QS) interval).
#[local] Abbreviation any_step := (any_step (QM := QM) (QE := QE) (QS := QS) interval).

(** ** Progress *)

(** The deadline of the next snapshot does not overflow. *)
Context (interval_small : 0 <= interval <= 2 ^ 40).

Lemma deadline_ok now : 0 <= now < 2 ^ 62 -> exists next, deadline interval now = Ok next.
Proof.
  intros Hnow. unfold deadline, to_i64. rewrite decide_True by lia. unfold i64.
  rewrite decide_True by (unfold is_i64; lia). simpl. rewrite decide_True by (unfold is_i64; lia). eauto.
Qed.

(** The reading of the clock that the exchange thread keeps. *)
Definition clock_inv p : Prop := match pg_exchange p with XSnap now => 0 <= now < 2 ^ 62 | _ => True end.

Lemma pstep_clock t p p' : pstep t p p' -> clock_inv p -> clock_inv p'.
Proof.
  unfold clock_inv. intros (i & Hi & Hstep) Hinv. destruct t; simpl in Hstep.
  - apply fmap_Some in Hstep as (p1 & Hs & [= ->]). unfold_main Hs.
    assert (pg_exchange p1 = pg_exchange p \/ pg_exchange p1 = XStart) as [-> | ->]; [|done..].
    clear Hinv. destruct (pg_main p); repeat case_match; simplify_eq/=; auto.
  - apply fmap_Some in Hstep as (p1 & Hs & [= ->]). unfold receiver_step in Hs.
    destruct (pg_receiver p); by simplify_eq/=.
  - unfold exchange_step in Hstep. destruct (pg_exchange p) as [| | |final|final| |now|] eqn:Hx; try discriminate Hstep.
    + by injection Hstep as (next' & _ & [= <-])%bind_ok_inv.
    + by injection Hstep as <-.
    + destruct (inbound_pop _) as [[msg|] q].
      * destruct (in_process_clock i). by injection Hstep as ([x evs] & _ & [= <-])%bind_ok_inv.
      * injection Hstep as <-. by destruct final.
    + destruct (sv_todo _); by injection Hstep as <-.
    + case_decide; [by injection Hstep as (snaps & _ & [= <-])%bind_ok_inv|by injection Hstep as <-].
    + destruct (sv_todo _); [by injection Hstep as (next' & _ & [= <-])%bind_ok_inv|by injection Hstep as <-].
  - apply fmap_Some in Hstep as (p1 & Hs & [= ->]). unfold publisher_step in Hs.
    destruct (sv_publish _), (pg_publisher p); by simplify_eq/=.
  - apply fmap_Some in Hstep as (p1 & Hs & [= ->]). unfold writer_step in Hs.
    destruct (sv_write _), (pg_writer p); by simplify_eq/=.
  - by injection Hstep as <-.
Qed.

(** The step of [exchange_loop] with more fuel for [process]. *)
Definition with_fuel (fuel : nat) (i : input) : input :=
  mkInput (in_bind i) (in_frame i) (in_now i) (in_process_clock i) (in_snapshot_clock i) fuel.

Lemma runs_clock p p' : rtc any_step p p' -> clock_inv p -> clock_inv p'.
Proof. induction 1 as [|p1 p2 p3 [t Ht] _ IH]; [done|]. eauto using pstep_clock. Qed.

(** What the engines need in a reachable state. *)
Definition engines_ok p : Prop :=
  messages_ok (clocked (sv_accepted (pg_service p))) (fun _ => ∅) /\
  exchange_inv (used_by (sv_processed (pg_service p)) (fun _ => ∅)) (gw_exchange (sv_gateway (pg_service p))).

Lemma runs_engines_ok (qm : QM) (qe : QE) (qs : QS) p :
  holds qm [] -> holds qe [] -> holds qs [] -> rtc any_step (program_init qm qe qs) p ->
  messages_ok (clocked (sv_accepted (pg_service p))) (fun _ => ∅) -> engines_ok p.
Proof.
  intros Hm He Hs Hrun Hok. pose proof (program_init_inv qm qe qs Hm He Hs) as Hinv0. split; [done|].
  destruct (program_runs interval _ _ Hrun Hinv0) as [_ Hsv].
  apply (rtc_safe _ _ Hsv (pi_delivery _ Hinv0) (fun _ => exchange_inv_new) Hok).
Qed.

(** A step is defined with enough fuel. *)
Lemma exchange_step_defined p i :
  program_inv p -> clock_inv p -> engines_ok p -> clock_ok i -> exchange_joined (pg_exchange p) = false ->
  exists n, forall fuel, (n <= fuel)%nat -> exists p', exchange_step interval (with_fuel fuel i) p = Some (Ok p').
Proof.
  intros Hinv Hclock [Hok Hex] Hi Hx. destruct (pi_delivery _ Hinv) as ((l & Hl & Hacc) & _).
  unfold exchange_step. unfold clock_inv in Hclock. simpl. destruct (pg_exchange p) as [| | |final|final| |now|]; try done.
  - exists O. intros _ _. destruct (deadline_ok _ Hi) as [next Hn]. simpl. rewrite Hn. simpl. eauto.
  - exists O. eauto.
  - unfold inbound_pop. pose proof (dequeue_holds _ _ Hl) as Hd. destruct l as [|msg l].
    + exists O. rewrite Hd. eauto.
    + destruct Hd as (q & -> & _). rewrite Hacc in Hok. apply messages_ok_app in Hok as [_ [Hm _]].
      destruct (in_process_clock i) as [now ts].
      destruct (process_session _ now ts msg _ Hex Hm) as (n & Hn). exists n. intros fuel Hf.
      destruct (Hn fuel Hf) as (x & evs & Hp & _). simpl. rewrite Hp. simpl. eauto.
  - exists O. eauto.
  - exists O. intros _ _. case_decide; [|eauto].
    destruct (snapshot_all_ok (gw_exchange (sv_gateway (pg_service p))) (in_snapshot_clock i)) as [snaps Hs]; [apply Hex|].
    rewrite Hs. simpl. eauto.
  - exists O. intros _ _. destruct (sv_todo _); [|eauto]. destruct (deadline_ok now Hclock) as [next ->]. simpl. eauto.
Qed.

(** The other threads never read the fuel and have no undefined step. *)
Lemma thread_step_defined t i p :
  t <> TExchange -> thread_step interval t i p = None \/ exists p', thread_step interval t i p = Some (Ok p').
Proof.
  intros Ht. assert (forall x : option program, Ok <$> x = None \/ exists p', Ok <$> x = Some (Ok p')) as Hx.
  { intros [p'|]; simpl; eauto. }
  destruct t; try done; apply Hx.
Qed.

(** ** The claim *)

(** C27. No thread of the program ever runs into undefined behaviour: whatever
    the interleaving so far, whatever the network delivers and the clocks
    show, every thread is blocked (it does not exist, has ended or waits in a
    join) or makes its next step. Provided the accepted messages are
    admissible (ids fresh at their instrument, prices in [-2^62, 2^62), quantities
    in range), the snapshot interval is at most 2^40 ms, and the clock shows
    less than 2^62 ns. *)
Theorem program_never_crashes (qm : QM) (qe : QE) (qs : QS) p t i :
  holds qm [] -> holds qe [] -> holds qs [] -> rtc any_step (program_init qm qe qs) p ->
  messages_ok (clocked (sv_accepted (pg_service p))) (fun _ => ∅) -> clock_ok i ->
  exists n, forall fuel, (n <= fuel)%nat ->
    thread_step interval t (with_fuel fuel i) p = None \/
    exists p', thread_step interval t (with_fuel fuel i) p = Some (Ok p') /\ pstep t p p'.
Proof.
  intros Hm He Hs Hrun Hok Hi. pose proof (runs_engines_ok _ _ _ _ Hm He Hs Hrun Hok) as Heng.
  destruct (program_runs interval _ _ Hrun (program_init_inv qm qe qs Hm He Hs)) as [Hinv _].
  assert (forall fuel p', thread_step interval t (with_fuel fuel i) p = Some (Ok p') -> pstep t p p') as Hps.
  { intros fuel p' Hst. by exists (with_fuel fuel i). }
  assert (clock_inv p) as Hclock by by apply (runs_clock _ _ Hrun).
  destruct (decide (t = TExchange)) as [->|Ht].
  - destruct (exchange_joined (pg_exchange p)) eqn:Hx.
    + exists O. intros fuel _. left. simpl. unfold exchange_step. by destruct (pg_exchange p).
    + destruct (exchange_step_defined p i Hinv Hclock Heng Hi Hx) as [n Hn]. exists n. intros fuel Hf.
      destruct (Hn fuel Hf) as [p' Hp']. right. exists p'. split; [done|by apply (Hps fuel)].
  - exists O. intros fuel _. destruct (thread_step_defined t (with_fuel fuel i) p Ht) as [?|[p' Hp']]; [by left|].
    right. exists p'. split; [done|by apply (Hps fuel)].
Qed.

(** Hence a thread that exists and has not ended can make a step. *)
Definition some_input (fuel : nat) : input := mkInput true None 0 (0, 0) (fun _ => 0) fuel.
Lemma some_input_ok fuel : clock_ok (some_input fuel).
Proof. unfold clock_ok. simpl. lia. Qed.

Lemma exchange_can_step p :
  program_inv p -> clock_inv p -> engines_ok p -> exchange_joined (pg_exchange p) = false ->
  can_step pstep TExchange p.
Proof.
  intros Hinv Hclock Heng Hx.
  destruct (exchange_step_defined p (some_input 0) Hinv Hclock Heng (some_input_ok 0) Hx) as [n Hn].
  destruct (Hn n (le_n _)) as [p' Hp']. by exists p', (with_fuel n (some_input 0)).
Qed.
End lifecycle.

(** The exchange thread of the run of [LifecycleProps] when it is about
    to take the accepted order from the queue. *)
#[local] Existing Instance tree_lib.

Lemma demo_messages_at_45 : messages_ok (clocked (sv_accepted (pg_service (demo_trace 45)))) (fun _ => ∅).
Proof.
  assert (sv_accepted (pg_service (demo_trace 45)) = [demo_offer]) as -> by (vm_compute; reflexivity).
  pose proof demo_messages_ok as Hok. by rewrite demo_accepted in Hok.
Qed.

Lemma program_never_crashes_witness :
  exists n, forall fuel, (n <= fuel)%nat ->
    thread_step 100 TExchange (with_fuel fuel (demo_input 45)) (demo_trace 45) = None \/
    exists p', thread_step 100 TExchange (with_fuel fuel (demo_input 45)) (demo_trace 45) = Some (Ok p') /\
      pstep 100 TExchange (demo_trace 45) p'.
Proof.
  apply (program_never_crashes 100 ltac:(lia) inbound_ring outbound_ring replay_ring);
    [apply demo_holds..|apply demo_reach|apply demo_messages_at_45|unfold clock_ok; simpl; lia].
Defined.
