(* ===== verification/Shutdown.v ===== *)
(** * Shutdown: every fair execution ends after a signal

    The rank argument for the termination of the program of [Lifecycle]: how
    far [main] is from its end and, in a join, how far the awaited thread is
    from its end. *)

From S2P Require Import Prelude Types PriceLevel OrderBook Engine Market EngineRefine EngineEvents.
From S2P Require Import Session Trading Guarantees Exchange ExchangeProps Ring Serializer Gateway.
From S2P Require Import GatewayProps Fairness Lifecycle LifecycleProps Progress.

Section lifecycle.
Context `{JsonLib}.
Context {QM QE QS : Type}.
Context `{!BoundedQueue QM OrderMessage, !BoundedQueue QE ExchangeEvent, !BoundedQueue QS string}.
Context `{!BoundedQueueLaws QM OrderMessage, !BoundedQueueLaws QE ExchangeEvent, !BoundedQueueLaws QS string}.
Context (interval : Z).

#[local] Abbreviation program := (program (QM := QM) (QE := QE) (QS := QS)).
#[local] Abbreviation svc := (service (QM := QM) (QE := QE) (QS := QS)).
Implicit Types (p : program) (sv : svc).
#[local] Abbreviation pstep := (pstep (QM := QM) (QE := QE) (QS := QS) interval).
#[local] Abbreviation any_step := (any_step (QM := QM) (QE := QE) (QS := QS) interval).

(** The deadline of the next snapshot does not overflow. *)
Context (interval_small : 0 <= interval <= 2 ^ 40).

(** ** Rank

    How far [main] is from its end; in a join, how far the awaited thread is
    from its end: the part of its body it is in, the items it still has to
    take from its queue, the outputs it still has to hand over. *)

Definition receiver_rank (r : receiver_pc) : nat :=
  match r with RRecv => 3 | RFrame _ => 2 | RTest => 1 | _ => 0 end.
Definition exchange_phase (x : exchange_pc) : nat :=
  match x with
  | XStart => 6 | XPop false | XOut false => 5 | XClock => 4 | XSnap _ => 3 | XTest => 2
  | XPop true | XOut true => 1 | _ => 0
  end.
Definition exchange_outputs (x : exchange_pc) (todo : list output) : nat :=
  match x with XOut _ => 1 + length todo | XSnap _ => length todo | _ => 0 end.
Definition publisher_phase (w : publisher_pc) : nat := match w with PTake => 3 | PTest => 2 | PDrain => 1 | _ => 0 end.
Definition writer_phase (w : writer_pc) : nat :=
  match w with WDrain false => 3 | WTest => 2 | WDrain true => 1 | _ => 0 end.

Definition join_rank p : nat * (nat * nat) :=
  let sv := pg_service p in
  match pg_main p with
  | MJoinReceiver _ => (receiver_rank (pg_receiver p), (0, 0))
  | MJoinExchange _ =>
      (exchange_phase (pg_exchange p),
       (length (sv_accepted sv) - length (sv_processed sv), exchange_outputs (pg_exchange p) (sv_todo sv)))
  | MJoinPublisher _ =>
      (publisher_phase (pg_publisher p),
       (length (sv_published sv) - length (disp_sent (gw_dispatcher (sv_gateway sv))), 0))
  | MJoinWriter _ =>
      (writer_phase (pg_writer p), (length (sv_logged sv) - length (rl_file (gw_replay (sv_gateway sv))), 0))
  | _ => (0, (0, 0))
  end%nat.
Definition program_rank p : rank4 := ((18 - position (pg_main p))%nat, join_rank p).

(** The thread whose step brings the end nearer. *)
Definition helper p : thread :=
  match pg_main p with
  | MJoinReceiver _ => if receiver_joined (pg_receiver p) then TMain else TReceiver
  | MJoinExchange _ => if exchange_joined (pg_exchange p) then TMain else TExchange
  | MJoinPublisher _ => if publisher_joined (pg_publisher p) then TMain else TPublisher
  | MJoinWriter _ => if writer_joined (pg_writer p) then TMain else TWriter
  | _ => TMain
  end.

(** What a step by [t] has to do to the rank. *)
Definition advances (t : thread) p p' : Prop :=
  rank4_lt (program_rank p') (program_rank p) \/
  t <> helper p /\ program_rank p' = program_rank p /\ helper p' = helper p.

Lemma main_step_advances i p p' :
  control_inv p -> pg_shutdown p = true -> main_step i p = Some p' ->
  rank4_lt (program_rank p') (program_rank p).
Proof.
  intros [[Hm _]|(Hle & Hrun & Hd & Hr & _)] Hsh Hstep; unfold_main Hstep; [by rewrite Hm in Hstep|].
  assert ((position (pg_main p) < position (pg_main p'))%nat) as Hpos.
  { rewrite Hsh in Hstep.
    destruct (pg_main p) as [| | | | | | |[]|[]|[]|[]|[]|[]|[]| | | | | |]; try discriminate Hle;
      repeat case_match; simplify_eq/=; lia. }
  unfold program_rank. destruct (join_rank p') as [b [c d]], (join_rank p) as [b' [c' d']].
  assert ((position (pg_main p') <= 18)%nat) by by destruct (pg_main p') as [| | | | | | |[]|[]|[]|[]|[]|[]|[]| | | | | |]; simpl; lia.
  apply rank4_lt_intro. lia.
Qed.

Lemma receiver_step_advances i p p' :
  control_inv p -> receiver_step i p = Some p' -> advances TReceiver p p'.
Proof.
  intros Hctl Hstep. unfold receiver_step in Hstep.
  assert (pg_main p' = pg_main p /\ pg_receiver p <> RDone /\ pg_receiver p <> RNone) as (Hm & Hr & Hr').
  { destruct (pg_receiver p); by simplify_eq/=. }
  destruct Hctl as [(_ & ? & _)|(Hle & Hrun & _ & _ & Hrec & _)]; [done|].
  unfold advances, program_rank, join_rank, helper. rewrite Hm.
  destruct (pg_main p) as [| | | | | | |[]|[]|[]|[]|[]|[]|[]| | | | | |] eqn:Hmain;
    try discriminate Hle; try (right; done); try (by destruct (pg_receiver p)).
  left. simpl in Hrun. rewrite Hrun in Hstep.
  destruct (pg_receiver p) as [| | |raw|]; simplify_eq/=; apply rank4_lt_intro; simpl; try lia.
  destruct (in_frame i); simpl; lia.
Qed.

(** Publisher: its queue shrinks, and nothing else changes. *)
Lemma publisher_step_advances p p' :
  control_inv p -> delivery_inv (pg_service p) -> publisher_step p = Some p' ->
  pg_main p = MThrow \/ advances TPublisher p p'.
Proof.
  intros [(? & _)|(Hle & _ & Hrun & _ & _ & _ & Hat & _)] (_ & _ & [(l & Hl & Hsq) _ _] & _) Hstep; [by left|right].
  apply (f_equal length) in Hsq. rewrite length_app, !length_map in Hsq.
  destruct p as [sv m r x w wr run drun rrun sh next]. unfold publisher_step, sv_publish, publish_one in Hstep.
  simpl in *. pose proof (dequeue_holds _ _ Hl) as Hd. unfold advances, program_rank, join_rank, helper.
  destruct l as [|ev l]; [rewrite Hd in Hstep|destruct Hd as (q & Hd & _); rewrite Hd in Hstep;
    rewrite decide_False in Hstep by apply serialize_nonempty].
  all: destruct w; try discriminate Hstep; injection Hstep as <-; simpl.
  all: destruct m as [| | | | | | |[]|[]|[]|[]|[]|[]|[]| | | | | |];
    try discriminate Hle; try discriminate Hat; 
    try (right; split; [by repeat case_match|done]).
  all: left; simpl in *; subst; apply rank4_lt_intro; simpl; rewrite ?length_app; simpl; lia.
Qed.

Lemma writer_step_advances p p' :
  control_inv p -> delivery_inv (pg_service p) -> writer_step p = Some p' ->
  pg_main p = MThrow \/ advances TWriter p p'.
Proof.
  intros [(? & _)|(Hle & _ & _ & Hrun & _ & _ & _ & Hat)] (_ & _ & _ & [(l & Hl & Hsq) _ _]) Hstep; [by left|right].
  assert (forall line, line ∈ l -> line <> EmptyString) as Hne.
  { intros line Hline ->. assert (EmptyString ∈ map serialize_event (sv_logged (pg_service p)))
      as (ev & Hev & _)%list_elem_of_fmap by (rewrite <- Hsq; set_solver). by apply (serialize_nonempty ev). }
  apply (f_equal length) in Hsq. rewrite length_app, !length_map in Hsq.
  destruct p as [sv m r x w wr run drun rrun sh next]. unfold writer_step, sv_write, write_one in Hstep.
  simpl in *. pose proof (dequeue_holds _ _ Hl) as Hd. unfold advances, program_rank, join_rank, helper.
  destruct l as [|line l]; [rewrite Hd in Hstep|destruct Hd as (q & Hd & _); rewrite Hd in Hstep;
    rewrite decide_False in Hstep by (apply Hne; set_solver)].
  all: destruct wr as [| |[]|]; try discriminate Hstep; injection Hstep as <-; simpl.
  all: destruct m as [| | | | | | |[]|[]|[]|[]|[]|[]|[]| | | | | |];
    try discriminate Hle; try discriminate Hat; 
    try (right; split; [by repeat case_match|done]).
  all: left; simpl in *; subst; apply rank4_lt_intro; simpl; rewrite ?length_app; simpl; lia.
Qed.

(** While [main] joins the exchange thread, no message is added. *)
Lemma exchange_join_advances i p p' :
  pg_running p = false -> delivery_inv (pg_service p) -> exchange_step interval i p = Some (Ok p') ->
  let waiting p := (length (sv_accepted (pg_service p)) - length (sv_processed (pg_service p)))%nat in
  rank4_lt
    (9%nat, (exchange_phase (pg_exchange p'), (waiting p', exchange_outputs (pg_exchange p') (sv_todo (pg_service p')))))
    (9%nat, (exchange_phase (pg_exchange p), (waiting p, exchange_outputs (pg_exchange p) (sv_todo (pg_service p))))).
Proof.
  intros Hrun ((l & Hl & Hacc) & _) Hstep. simpl. apply rank4_lt_intro.
  apply (f_equal length) in Hacc. rewrite length_app in Hacc. unfold exchange_step in Hstep. rewrite Hrun in Hstep.
  destruct (pg_exchange p) as [| | |final|final| |now|]; try discriminate Hstep.
  - injection Hstep as (next' & _ & [= <-])%bind_ok_inv. simpl. lia.
  - injection Hstep as <-. simpl. lia.
  - unfold inbound_pop in Hstep. pose proof (dequeue_holds _ _ Hl) as Hd. destruct l as [|m l].
    + rewrite Hd in Hstep. injection Hstep as <-. destruct final; simpl; lia.
    + destruct Hd as (q & Hd & _). rewrite Hd in Hstep. destruct (in_process_clock i) as [now ts].
      injection Hstep as ([x evs] & _ & [= <-])%bind_ok_inv. simpl in *. rewrite length_app. simpl.
      destruct final; lia.
  - destruct (sv_todo (pg_service p)) as [|o todo] eqn:Htodo; injection Hstep as <-; simpl.
    + destruct final; simpl; lia.
    + destruct o; simpl; destruct final; lia.
  - case_decide; [injection Hstep as (snaps & _ & [= <-])%bind_ok_inv|injection Hstep as <-]; simpl; lia.
  - destruct (sv_todo (pg_service p)) as [|o todo] eqn:Htodo;
      [injection Hstep as (next' & _ & [= <-])%bind_ok_inv|injection Hstep as <-]; simpl; [lia|].
    destruct o; simpl; lia.
Qed.

Lemma exchange_step_main i p p' :
  exchange_step interval i p = Some (Ok p') ->
  pg_main p' = pg_main p /\ pg_receiver p' = pg_receiver p /\ pg_shutdown p' = pg_shutdown p /\ pg_exchange p <> XDone.
Proof.
  unfold exchange_step. intros Hstep. destruct (pg_exchange p) as [| | |final|final| |now|]; try discriminate Hstep.
  - by injection Hstep as (next' & _ & [= <-])%bind_ok_inv.
  - by injection Hstep as <-.
  - destruct (inbound_pop _) as [[msg|] q]; [|by injection Hstep as <-].
    destruct (in_process_clock i). by injection Hstep as ([x evs] & _ & [= <-])%bind_ok_inv.
  - destruct (sv_todo _); by injection Hstep as <-.
  - case_decide; [by injection Hstep as (snaps & _ & [= <-])%bind_ok_inv|by injection Hstep as <-].
  - destruct (sv_todo _); [by injection Hstep as (next' & _ & [= <-])%bind_ok_inv|by injection Hstep as <-].
Qed.

Lemma exchange_step_advances i p p' :
  control_inv p -> delivery_inv (pg_service p) -> exchange_step interval i p = Some (Ok p') ->
  advances TExchange p p'.
Proof.
  intros [(_ & _ & Hx)|(Hle & Hrun & _ & _ & _ & Hat & _)] Hdel Hstep;
    [unfold exchange_step in Hstep; by rewrite Hx in Hstep|].
  destruct (exchange_step_main _ _ _ Hstep) as (Hm & Hr & _ & Hx).
  pose proof (exchange_join_advances i p p') as Hlt.
  unfold advances, program_rank, join_rank, helper. rewrite Hm, Hr.
  destruct (pg_main p) as [| | | | | | |[]|[]|[]|[]|[]|[]|[]| | | | | |] eqn:Hmain;
    try discriminate Hle; try (right; split; [by repeat case_match|done]);
    try (by destruct (pg_exchange p) as [| | |[]|[]| | |]).
  left. by apply Hlt.
Qed.

(** One step of a thread after the signal. *)
Lemma pstep_advances t p p' :
  program_inv p -> pg_shutdown p = true -> pg_main p <> MThrow -> pstep t p p' -> advances t p p'.
Proof.
  intros [Hctl _ Hdel _] Hsh Hm (i & _ & Hstep). destruct t; simpl in Hstep.
  - apply fmap_Some in Hstep as (p1 & Hs & [= ->]). left. by eapply main_step_advances.
  - apply fmap_Some in Hstep as (p1 & Hs & [= ->]). by eapply receiver_step_advances.
  - by eapply exchange_step_advances.
  - apply fmap_Some in Hstep as (p1 & Hs & [= ->]). by destruct (publisher_step_advances _ _ Hctl Hdel Hs).
  - apply fmap_Some in Hstep as (p1 & Hs & [= ->]). by destruct (writer_step_advances _ _ Hctl Hdel Hs).
  - injection Hstep as <-. right. split; [|done]. unfold helper. destruct (pg_main p); by repeat case_match.
Qed.

(** The helpful thread can make a step. *)
Lemma helper_can_step p :
  program_inv p -> clock_inv p -> pg_main p <> MReturn -> pg_main p <> MThrow ->
  engines_ok p -> can_step pstep (helper p) p.
Proof.
  intros Hinv Hclock Hm Hm' Heng.
  assert (forall t p', thread_step interval t (some_input 0) p = Some (Ok p') -> can_step pstep t p) as Hcan.
  { intros t p' Hstep. exists p', (some_input 0). split; [apply some_input_ok|done]. }
  unfold helper. destruct (pg_main p) eqn:Hmain; try done;
    try (eapply (Hcan TMain); simpl; unfold main_step, start_step, stop_step; rewrite Hmain; reflexivity).
  - destruct (receiver_joined _) eqn:Hj.
    + eapply (Hcan TMain); simpl; unfold main_step, start_step, stop_step; by rewrite Hmain, Hj.
    + destruct (pg_receiver p) eqn:Hr; try discriminate Hj;
        eapply (Hcan TReceiver); simpl; unfold receiver_step; by rewrite Hr.
  - destruct (exchange_joined _) eqn:Hj; [|by apply (exchange_can_step interval interval_small)].
    eapply (Hcan TMain); simpl; unfold main_step, start_step, stop_step; by rewrite Hmain, Hj.
  - destruct (publisher_joined _) eqn:Hj.
    + eapply (Hcan TMain); simpl; unfold main_step, start_step, stop_step; by rewrite Hmain, Hj.
    + destruct (pg_publisher p) eqn:Hr, (sv_publish (pg_service p)) as [more sv] eqn:Hsv; try discriminate Hj;
        eapply (Hcan TPublisher); simpl; unfold publisher_step; by rewrite Hr, ?Hsv.
  - destruct (writer_joined _) eqn:Hj.
    + eapply (Hcan TMain); simpl; unfold main_step, start_step, stop_step; by rewrite Hmain, Hj.
    + destruct (pg_writer p) eqn:Hr, (sv_write (pg_service p)) as [more sv] eqn:Hsv; try discriminate Hj;
        eapply (Hcan TWriter); simpl; unfold writer_step; by rewrite Hr, ?Hsv.
  - destruct Hinv as [[(? & _)|(Hle & _)] _ _ _]; rewrite Hmain in *; [done|discriminate Hle].
  - destruct Hinv as [[(? & _)|(Hle & _)] _ _ _]; rewrite Hmain in *; [done|discriminate Hle].
Qed.

Lemma pstep_shutdown t p p' : pstep t p p' -> pg_shutdown p = true -> pg_shutdown p' = true.
Proof.
  intros (i & _ & Hstep) Hsh. destruct t; simpl in Hstep.
  - apply fmap_Some in Hstep as (p1 & Hs & [= ->]). unfold_main Hs.
    destruct (pg_main p); repeat case_match; by simplify_eq/=.
  - apply fmap_Some in Hstep as (p1 & Hs & [= ->]). unfold receiver_step in Hs.
    destruct (pg_receiver p); by simplify_eq/=.
  - by destruct (exchange_step_main _ _ _ Hstep) as (_ & _ & -> & _).
  - apply fmap_Some in Hstep as (p1 & Hs & [= ->]). unfold publisher_step in Hs.
    destruct (sv_publish _), (pg_publisher p); by simplify_eq/=.
  - apply fmap_Some in Hstep as (p1 & Hs & [= ->]). unfold writer_step in Hs.
    destruct (sv_write _), (pg_writer p); by simplify_eq/=.
  - by injection Hstep as <-.
Qed.

Lemma execution_shutdown (tr : nat -> program) sched :
  execution pstep tr sched -> pg_shutdown (tr O) = true -> forall n, pg_shutdown (tr n) = true.
Proof.
  intros Hex H0 n. induction n as [|n IH]; [done|]. specialize (Hex n).
  replace (n + 1)%nat with (S n) in Hex by lia. destruct Hex as [Hs|[_ ->]]; [|done].
  by eapply pstep_shutdown.
Qed.

(** ** The claim *)

(** C28. Termination of the program: in every execution in which [main] and
    the four threads are scheduled again and again, after a SIGINT or SIGTERM
    [main] returns, or an exception has ended it because a socket could not be
    bound; frames that keep arriving cannot prevent it. Provided the accepted
    messages are at all times admissible (ids fresh at their instrument, prices in
    [-2^62, 2^62), quantities in range), the snapshot interval is at most
    2^40 ms, and the clock shows less than 2^62 ns. *)
Theorem signal_terminates (qm : QM) (qe : QE) (qs : QS) (tr : nat -> program) sched :
  holds qm [] -> holds qe [] -> holds qs [] -> rtc any_step (program_init qm qe qs) (tr O) ->
  execution pstep tr sched -> fair [TMain; TReceiver; TExchange; TPublisher; TWriter] sched ->
  (forall n, messages_ok (clocked (sv_accepted (pg_service (tr n)))) (fun _ => ∅)) ->
  pg_shutdown (tr O) = true ->
  exists n, pg_main (tr n) = MReturn \/ pg_main (tr n) = MThrow.
Proof.
  intros Hm He Hs Hrun Hex Hfair Hok Hsh.
  pose proof (program_init_inv qm qe qs Hm He Hs) as Hinv0.
  assert (forall n, rtc any_step (program_init qm qe qs) (tr n)) as Hreach.
  { eapply execution_reaches; [|exact Hex|exact Hrun]. by intros t p p' Ht; exists t. }
  assert (forall n, program_inv (tr n) /\ pg_shutdown (tr n) = true) as Hinv.
  { intros n. split; [by apply (program_runs interval _ _ (Hreach n))|by eapply execution_shutdown]. }
  set (goal p := pg_main p = MReturn \/ pg_main p = MThrow).
  assert (forall p, Decision (goal p)) as Hdec by (intros p; unfold goal; apply _).
  destruct (goal_reached pstep rank4_lt program_rank helper goal tr sched _ rank4_wf Hex Hfair) with
    (a := program_rank (tr O)) (n := O) as (n & _ & Hn); [..|done|by exists n].
  - intros n. unfold helper. repeat case_match; set_solver.
  - intros n Hgoal. destruct (Hinv n) as [Hn _].
    apply helper_can_step; try done; [|unfold goal in Hgoal; tauto..|].
    + by apply (runs_clock interval _ _ (Hreach n)).
    + by apply (runs_engines_ok interval _ _ _ _ Hm He Hs (Hreach n)).
  - intros n t p' Hgoal Hstep _. destruct (Hinv n) as [Hn Hshn].
    destruct (pstep_advances t (tr n) p' Hn Hshn) as [?|(? & ? & ?)]; auto. unfold goal in Hgoal. tauto.
Qed.
End lifecycle.

(** ** Witness: the run of [LifecycleProps] *)

#[local] Existing Instance tree_lib.

Lemma blocked_stays {QM QE QS} `{!BoundedQueue QM OrderMessage, !BoundedQueue QE ExchangeEvent, !BoundedQueue QS string}
    interval t i j (p : program (QM := QM) (QE := QE) (QS := QS)) :
  thread_step interval t i p = None -> thread_step interval t j p = None.
Proof.
  destruct t; simpl; rewrite ?fmap_None; try done.
  - unfold main_step, start_step, stop_step. destruct (pg_main p); try done; repeat case_match; done.
  - unfold receiver_step. by destruct (pg_receiver p).
  - unfold exchange_step. by destruct (pg_exchange p).
Qed.

#[local] Instance message_eq_dec : EqDecision OrderMessage.
Proof. solve_decision. Defined.

(** Every step of the run up to the time [n + k] is one, or its thread is
    blocked; no other message than the order is accepted; then all threads
    are blocked. *)
Definition demo_good (n : nat) p : bool :=
  match thread_step 100 (demo_sched n) (demo_input n) p with Some (Ok _) | None => true | _ => false end &&
  bool_decide (sv_accepted (pg_service p) ∈ [[]; [demo_offer]]).
Definition all_blocked p : bool :=
  forallb (fun t => match thread_step 100 t (demo_input 0) p with None => true | _ => false end) turns.
Fixpoint demo_check (k n : nat) p : bool :=
  demo_good n p && match k with O => all_blocked p | S k => demo_check k (S n) (demo_next n p) end.

Lemma demo_check_good k n :
  demo_check k n (demo_trace n) = true ->
  (forall m, (n <= m <= n + k)%nat -> demo_good m (demo_trace m) = true) /\ all_blocked (demo_trace (n + k)) = true.
Proof.
  revert n. induction k as [|k IH]; intros n; simpl; intros [Hgood Hrest]%andb_true_iff.
  - rewrite Nat.add_0_r. split; [|done]. intros m Hm. by replace m with n by lia.
  - destruct (IH (S n) Hrest) as [Hgood' Hblocked]. replace (S n + k)%nat with (n + S k)%nat in * by lia.
    split; [|done]. intros m Hm. destruct (decide (m = n)) as [->|]; [done|]. apply Hgood'. lia.
Qed.

Lemma all_blocked_next n p : all_blocked p = true -> thread_step 100 (demo_sched n) (demo_input n) p = None.
Proof.
  unfold all_blocked. intros Hb. rewrite forallb_forall in Hb.
  assert (In (demo_sched n) turns) as Hin.
  { unfold demo_sched. apply nth_In. simpl. pose proof (Nat.mod_upper_bound n 5). lia. }
  specialize (Hb _ Hin). apply (blocked_stays 100 _ (demo_input 0)).
  by destruct (thread_step _ _ _ _).
Qed.

Lemma demo_stays k d : all_blocked (demo_trace k) = true -> demo_trace (k + d) = demo_trace k.
Proof.
  intros Hb. induction d as [|d IH]; [by rewrite Nat.add_0_r|].
  rewrite Nat.add_succ_r. cbn [demo_trace]. unfold demo_next. by rewrite IH, all_blocked_next.
Qed.

Lemma demo_checked : demo_check 200 0 (demo_trace 0) = true.
Proof. vm_compute. reflexivity. Qed.

(** All states of the run, by those up to the time [k]. *)
Lemma demo_good_all k n :
  demo_check k 0 (demo_trace 0) = true ->
  (exists m, demo_trace n = demo_trace m /\ demo_good m (demo_trace m) = true) /\
  ((n <= k)%nat /\ demo_good n (demo_trace n) = true \/ all_blocked (demo_trace n) = true).
Proof.
  intros Hc. destruct (demo_check_good k 0 Hc) as [Hgood Hb]. rewrite Nat.add_0_l in *.
  destruct (decide (n <= k)%nat) as [Hn|Hn].
  - assert (demo_good n (demo_trace n) = true) as Hg by (apply Hgood; lia).
    split; [by exists n|by left].
  - replace n with (k + (n - k))%nat by lia. rewrite demo_stays by done. split; [|by right].
    exists k. split; [done|]. apply Hgood. lia.
Qed.

Lemma demo_execution : execution (pstep 100) demo_trace demo_sched.
Proof.
  intros n. destruct (demo_good_all 200 n demo_checked) as [_ Hn].
  replace (n + 1)%nat with (S n) by lia. cbn [demo_trace]. unfold demo_next.
  revert Hn. generalize (demo_trace n) as p. intros p Hn.
  destruct (thread_step _ _ _ _) as [r|] eqn:Hs.
  - left. exists (demo_input n). split; [unfold clock_ok; simpl; lia|].
    destruct Hn as [[_ Hgood]|Hb]; [|by rewrite all_blocked_next in Hs].
    unfold demo_good in Hgood. rewrite Hs in Hgood. by destruct r.
  - right. split; [|done]. intros (p' & i & _ & Hstep). by rewrite (blocked_stays 100 _ _ i _ Hs) in Hstep.
Qed.

Lemma demo_accepted_ok n : messages_ok (clocked (sv_accepted (pg_service (demo_trace n)))) (fun _ => ∅).
Proof.
  destruct (demo_good_all 200 n demo_checked) as [(m & -> & Hgood) _].
  revert Hgood. generalize (demo_trace m) as p. intros p Hgood.
  apply andb_true_iff in Hgood as [_ Hin]. apply bool_decide_eq_true in Hin.
  pose proof demo_messages_ok as Hok. rewrite demo_accepted in Hok.
  set_unfold in Hin. destruct Hin as [->|[->|[]]]; [exact I|exact Hok].
Qed.

Lemma demo_fair : fair turns demo_sched.
Proof.
  intros t n Ht. assert (exists k, (k < 5)%nat /\ nth k turns TMain = t) as (k & Hk & <-).
  { unfold turns in *. set_unfold in Ht. destruct Ht as [->|[->|[->|[->|[->|[]]]]]];
      [exists 0%nat|exists 1%nat|exists 2%nat|exists 3%nat|exists 4%nat]; (split; [lia|done]). }
  exists (k + n * 5)%nat. split; [lia|]. unfold demo_sched. f_equal.
  rewrite Nat.Div0.mod_add. by apply Nat.mod_small.
Qed.

Lemma signal_terminates_witness :
  exists n, pg_main (demo_trace n) = MReturn \/ pg_main (demo_trace n) = MThrow.
Proof.
  apply (signal_terminates 100 ltac:(lia) inbound_ring outbound_ring replay_ring demo_trace demo_sched);
    [apply demo_holds..|apply demo_start|apply demo_execution|apply demo_fair|apply demo_accepted_ok|reflexivity].
Defined.
