(* ===== verification/Double.v ===== *)
(** * Double: the floating-point arithmetic of percentiles and throughput

    Nonnegative [double] values (IEEE 754 binary64, round to nearest, ties to
    even) as they occur in [LatencyHistogram::percentile] and
    [BenchmarkRunner::report]: conversion from integers, multiplication,
    division and truncation. The numbers of these computations lie between
    2^-64 and 2^128, so that neither overflow nor gradual underflow occurs and
    the exponent is not bounded here. *)

From Stdlib Require Import SpecFloat.
From S2P Require Import Prelude.

(** [Finite m e] is [m * 2^e]. *)
Inductive double :=
| Finite (m e : Z)
| Infinity
| NaN.

Definition round_half_even (n d : Z) : Z :=
  let q := n / d in
  match 2 * (n mod d) ?= d with
  | Lt => q
  | Gt => q + 1
  | Eq => if Z.even q then q else q + 1
  end.

(** [n * 2^k] as a fraction [n' / d'] for an exponent of any sign. *)
Definition scale_num (n k : Z) : Z := n * 2 ^ Z.max 0 k.

(** The exponent of the leading bit of [n / d]. *)
Definition quot_log2 (n d : Z) : Z :=
  let k := Z.log2 n - Z.log2 d in
  if decide (scale_num d k <= scale_num n (- k)) then k else k - 1.

(** The double nearest to [n / d]: 53 bits from the leading one on. *)
Definition round_quot (n d : Z) : double :=
  if decide (n = 0) then Finite 0 0
  else let e := quot_log2 n d - 52 in
       Finite (round_half_even (scale_num n (- e)) (scale_num d e)) e.

Definition of_u64 (n : Z) : double := round_quot n 1.

Definition dmul (x y : double) : double :=
  match x, y with
  | Finite m e, Finite m' e' => round_quot (scale_num (m * m') (e + e')) (scale_num 1 (- (e + e')))
  | Finite m _, Infinity | Infinity, Finite m _ => if decide (m = 0) then NaN else Infinity
  | Infinity, Infinity => Infinity
  | _, _ => NaN
  end.

Definition ddiv (x y : double) : double :=
  match x, y with
  | Finite m e, Finite m' e' =>
      if decide (m' = 0) then if decide (m = 0) then NaN else Infinity
      else round_quot (scale_num m (e - e')) (scale_num m' (e' - e))
  | Finite _ _, Infinity => Finite 0 0
  | Infinity, Finite _ _ => Infinity
  | _, _ => NaN
  end.

(** Conversion to [uint64_t]: truncation; undefined outside the range. *)
Definition to_u64 (x : double) : option Z :=
  match x with
  | Finite m e =>
      let z := scale_num m e / 2 ^ Z.max 0 (- e) in
      if decide (z < 2 ^ 64) then Some z else None
  | Infinity | NaN => None
  end.

(** ** Comparison with the Standard Library's model of IEEE 754 *)

Definition of_spec (x : spec_float) : double :=
  match x with
  | S754_finite false m e => Finite (Zpos m) e
  | S754_zero _ => Finite 0 0
  | S754_infinity false => Infinity
  | _ => NaN
  end.

Definition spec_of_Z (n : Z) : spec_float := binary_normalize 53 1024 n 0 false.

(** Equal as numbers. *)
Definition same_number (x y : double) : bool :=
  match x, y with
  | Finite m e, Finite m' e' => bool_decide (scale_num m (e - e') = scale_num m' (e' - e))
  | Infinity, Infinity | NaN, NaN => true
  | _, _ => false
  end.

(** [n * p / 100.0] in both models. *)
Definition agrees (n p : Z) : bool :=
  same_number (ddiv (dmul (of_u64 n) (of_u64 p)) (of_u64 100))
    (of_spec (SFdiv 53 1024 (SFmul 53 1024 (spec_of_Z n) (spec_of_Z p)) (spec_of_Z 100))).

Lemma agrees_with_specfloat :
  forallb (fun n => forallb (agrees n) [0; 1; 33; 50; 95; 99; 100])
    [0; 1; 2; 3; 7; 99; 100; 101; 4095; 10000000; 2 ^ 46 - 1; 2 ^ 46 + 1; 2 ^ 53 - 1; 2 ^ 53 + 1; 2 ^ 53 + 3;
     2 ^ 54 + 2; 2 ^ 54 + 6; 2 ^ 60 - 1; 9007199254740993; 12345678901234567890; 2 ^ 64 - 1] = true.
Proof. vm_compute. reflexivity. Qed.

(** ** Rounding *)

Lemma round_half_even_error n d : 0 < d -> 2 * Z.abs (round_half_even n d * d - n) <= d.
Proof.
  intros Hd. unfold round_half_even. pose proof (Z.div_mod n d ltac:(lia)).
  pose proof (Z.mod_pos_bound n d Hd).
  destruct (Z.compare_spec (2 * (n mod d)) d); [destruct (Z.even (n / d))| |]; nia.
Qed.

Lemma scale_num_pos n k : 0 < n -> 0 < scale_num n k.
Proof. intros Hn. unfold scale_num. pose proof (Z.pow_pos_nonneg 2 (Z.max 0 k)). nia. Qed.

(** The leading bit is not above the one of [n / d]. *)
Lemma quot_log2_le n d : 0 < n -> 0 < d ->
  let k := quot_log2 n d in scale_num d k <= scale_num n (- k).
Proof.
  intros Hn Hd. unfold quot_log2. destruct (decide _) as [|_]; [done|]. cbv zeta.
  pose proof (Z.log2_spec n Hn) as [Hn1 _]. pose proof (Z.log2_spec d Hd) as [_ Hd2].
  pose proof (Z.log2_nonneg n). pose proof (Z.log2_nonneg d).
  set (a := Z.log2 n) in *. set (b := Z.log2 d) in *. unfold scale_num.
  destruct (decide (0 <= a - b - 1)).
  - rewrite (Z.max_r 0 (a - b - 1)), (Z.max_l 0 (- (a - b - 1))) by lia.
    replace a with (Z.succ b + (a - b - 1)) in Hn1 by lia. rewrite Z.pow_add_r in Hn1 by lia.
    pose proof (Z.pow_pos_nonneg 2 (a - b - 1)). nia.
  - rewrite (Z.max_l 0 (a - b - 1)), (Z.max_r 0 (- (a - b - 1))) by lia.
    replace (Z.succ b) with (a + - (a - b - 1)) in Hd2 by lia. rewrite Z.pow_add_r in Hd2 by lia.
    pose proof (Z.pow_pos_nonneg 2 (- (a - b - 1))). nia.
Qed.

(** Bound on the exponent from a bound on the number. *)
Lemma quot_log2_bound n d k :
  0 < n -> 0 < d -> 0 <= k -> n < d * 2 ^ k -> quot_log2 n d < k.
Proof.
  intros Hn Hd Hk Hlt. pose proof (quot_log2_le n d Hn Hd) as Hle. cbv zeta in Hle.
  destruct (decide (quot_log2 n d < k)) as [|Hge]; [done|]. exfalso. unfold scale_num in Hle.
  rewrite (Z.max_r 0 (quot_log2 n d)), (Z.max_l 0 (- quot_log2 n d)) in Hle by lia.
  pose proof (Z.pow_le_mono_r 2 k (quot_log2 n d)). nia.
Qed.

(** [x] is the integer [N]. *)
Definition is_int (N : Z) (x : double) : Prop :=
  exists m e, x = Finite m e /\ e <= 0 /\ m = N * 2 ^ (- e).

(** Quotients that are integers of at most 53 bits are exact. *)
Lemma round_quot_exact N n d : 0 < d -> 0 <= N < 2 ^ 53 -> n = N * d -> is_int N (round_quot n d).
Proof.
  intros Hd HN ->. unfold round_quot. case_decide as Hz.
  - assert (N = 0) as -> by nia. by exists 0, 0.
  - assert (quot_log2 (N * d) d < 53) as Hk by (apply quot_log2_bound; nia).
    eexists _, _. split; [done|]. split; [lia|]. set (e := quot_log2 (N * d) d - 52).
    unfold scale_num at 2. rewrite (Z.max_l 0 e), Z.mul_1_r by lia.
    unfold scale_num. rewrite Z.max_r by lia.
    replace (N * d * 2 ^ (- e)) with (N * 2 ^ (- e) * d) by ring.
    pose proof (round_half_even_error (N * 2 ^ (- e) * d) d Hd).
    assert (Z.abs (round_half_even (N * 2 ^ (- e) * d) d - N * 2 ^ (- e)) < 1); nia.
Qed.

Lemma of_u64_exact N : 0 <= N < 2 ^ 53 -> is_int N (of_u64 N).
Proof. intros HN. apply round_quot_exact; lia. Qed.

Lemma dmul_exact N M x y :
  is_int N x -> is_int M y -> 0 <= N * M < 2 ^ 53 -> is_int (N * M) (dmul x y).
Proof.
  intros (m & e & -> & He & ->) (m' & e' & -> & He' & ->) HNM. simpl.
  apply round_quot_exact; [by apply scale_num_pos|done|]. unfold scale_num.
  rewrite (Z.max_l 0 (e + e')), (Z.max_r 0 (- (e + e'))) by lia.
  replace (- (e + e')) with (- e + - e') by lia.
  rewrite Z.pow_add_r by lia. ring.
Qed.

(** Truncating a quotient by 100 that is rounded to a multiple of [1 / s]: the
    rounding error is smaller than the distance to the next integer. *)
Lemma truncated_rounded N M s num den :
  0 < den -> 64 <= s -> num * 100 = N * den -> 0 <= N -> 2 * Z.abs (M * den - num * s) <= den ->
  M / s = N / 100.
Proof.
  intros Hden Hs Hquot HN Herr.
  assert (2 * Z.abs (100 * M - N * s) <= 100) as Herr'.
  { apply (Z.mul_le_mono_pos_l _ _ den Hden).
    replace (den * (2 * Z.abs (100 * M - N * s))) with (2 * (Z.abs den * Z.abs (100 * M - N * s))) by lia.
    rewrite <- Z.abs_mul. replace (den * (100 * M - N * s)) with (100 * (M * den - num * s)) by nia.
    rewrite Z.abs_mul. lia. }
  pose proof (Z.div_mod N 100 ltac:(lia)). pose proof (Z.mod_pos_bound N 100 ltac:(lia)).
  symmetry. apply (Z.div_unique _ _ _ (M - N / 100 * s)); nia.
Qed.

Lemma truncated_hundredth N x y :
  is_int N x -> is_int 100 y -> 0 <= N < 2 ^ 53 -> to_u64 (ddiv x y) = Some (N / 100).
Proof.
  intros (m & e & -> & He & ->) (m' & e' & -> & He' & ->) HN. simpl.
  pose proof (Z.pow_pos_nonneg 2 (- e)). pose proof (Z.pow_pos_nonneg 2 (- e')).
  rewrite decide_False by lia.
  set (num := scale_num (N * 2 ^ (- e)) (e - e')). set (den := scale_num (100 * 2 ^ (- e')) (e' - e)).
  assert (0 < den) as Hden by (apply scale_num_pos; lia).
  assert (num * 100 = N * den) as Hquot.
  { unfold num, den, scale_num. destruct (decide (e' <= e)).
    - rewrite (Z.max_r 0 (e - e')), (Z.max_l 0 (e' - e)) by lia.
      replace (- e') with (- e + (e - e')) by lia. rewrite Z.pow_add_r by lia. ring.
    - rewrite (Z.max_l 0 (e - e')), (Z.max_r 0 (e' - e)) by lia.
      replace (- e) with (- e' + (e' - e)) by lia. rewrite Z.pow_add_r by lia. ring. }
  clearbody num den. unfold round_quot. case_decide as Hz.
  - assert (N = 0) as -> by nia. done.
  - assert (quot_log2 num den < 47) as Hk by (apply quot_log2_bound; nia).
    set (E := quot_log2 num den - 52) in *. set (M := round_half_even _ _). simpl.
    pose proof (round_half_even_error (scale_num num (- E)) (scale_num den E) ltac:(by apply scale_num_pos)) as Herr.
    fold M in Herr. clearbody M. unfold scale_num in *.
    rewrite (Z.max_l 0 E), (Z.max_r 0 (- E)), Z.pow_0_r, Z.mul_1_r in * by lia.
    rewrite (truncated_rounded N M (2 ^ (- E)) num den); try done; [|by apply (Z.pow_le_mono_r 2 6); lia|lia].
    pose proof (Z.div_mod N 100 ltac:(lia)). pose proof (Z.mod_pos_bound N 100 ltac:(lia)).
    rewrite decide_True; [done|lia].
Qed.

(** ** The rank of a percentile *)

(** [static_cast<uint64_t>(n * p / 100.0)] for a whole number [p] is
    [n * p / 100] rounded down, as long as [n * p] has 53 bits. *)
Lemma rank_exact n p :
  0 <= n < 2 ^ 53 -> 0 <= p < 2 ^ 53 -> n * p < 2 ^ 53 ->
  to_u64 (ddiv (dmul (of_u64 n) (of_u64 p)) (of_u64 100)) = Some (n * p / 100).
Proof.
  intros Hn Hp Hnp. apply truncated_hundredth; [|by apply of_u64_exact|nia].
  apply dmul_exact; [by apply of_u64_exact..|nia].
Qed.
