(* ===== verification/Metrics.v ===== *)
(** * Metrics: latency histogram and counters

    Model of [src/src/metrics/histogram.hpp] and [metrics.hpp]. The rank of a
    percentile, [count_ * p / 100.0], is computed in the floating point of
    [Double]. *)

From Stdlib Require Import Ascii.
From S2P Require Import Prelude Double.

(** ** LatencyHistogram *)

Definition kBuckets : Z := 1000 + 1000 + 90.

Record LatencyHistogram := mkHistogram {
  buckets_ : list Z;
  count_ : Z;
  max_ : Z;
}.

Definition bucket_index (ns : Z) : Z :=
  if decide (ns < 1000) then ns
  else if decide (ns < 1000000) then 1000 + ns / 1000
  else if decide (ns < 10000000) then 2000 + ns / 100000
  else kBuckets.

Definition bucket_to_ns (idx : Z) : Z :=
  if decide (idx < 1000) then idx
  else if decide (idx < 2000) then (idx - 1000) * 1000
  else (idx - 2000) * 100000.

Definition empty_histogram : LatencyHistogram := mkHistogram (replicate (Z.to_nat kBuckets) 0) 0 0.

Definition record (latency_ns : Z) (h : LatencyHistogram) : LatencyHistogram :=
  let idx := bucket_index latency_ns in
  mkHistogram
    (if decide (idx < kBuckets) then alter (fun n => u64 (n + 1)) (Z.to_nat idx) (buckets_ h) else buckets_ h)
    (u64 (count_ h + 1))
    (if decide (latency_ns > max_ h) then latency_ns else max_ h).

(** The loop of [percentile] from bucket [i] on. *)
Fixpoint percentile_loop (target cumulative i : Z) (l : list Z) (h : LatencyHistogram) : Z :=
  match l with
  | [] => max_ h
  | n :: l =>
      let cumulative := u64 (cumulative + n) in
      if decide (target <= cumulative) then bucket_to_ns i
      else percentile_loop target cumulative (i + 1) l h
  end.

Definition percentile (p : double) (h : LatencyHistogram) : res Z :=
  if decide (count_ h = 0) then Ok 0
  else match to_u64 (ddiv (dmul (of_u64 (count_ h)) p) (of_u64 100)) with
       | Some target => Ok (percentile_loop target 0 0 (buckets_ h) h)
       | None => Crash ConversionRange
       end.

Definition p50 (h : LatencyHistogram) : res Z := percentile (of_u64 50) h.
Definition p95 (h : LatencyHistogram) : res Z := percentile (of_u64 95) h.
Definition p99 (h : LatencyHistogram) : res Z := percentile (of_u64 99) h.
Definition max_val (h : LatencyHistogram) : Z := max_ h.

Definition reset (h : LatencyHistogram) : LatencyHistogram := mkHistogram (replicate (length (buckets_ h)) 0) 0 0.

Definition record_all (vs : list Z) (h : LatencyHistogram) : LatencyHistogram := foldl (fun h v => record v h) h vs.

(** ** Specification: nearest rank *)

(** What the histogram can tell of a latency: the lower end of its bucket. *)
Definition quantize (v : Z) : Z := bucket_to_ns (bucket_index v).

(** Latencies that fall into a bucket. *)
Definition bucketed (v : Z) : Prop := bucket_index v < kBuckets.
#[global] Instance bucketed_dec v : Decision (bucketed v).
Proof. unfold bucketed. apply _. Defined.

(** How many latencies satisfy [P]. *)
Definition cnt (P : Z -> Prop) `{!forall v, Decision (P v)} (vs : list Z) : Z :=
  Z.of_nat (length (filter P vs)).

(** [v] has rank [t] in [vs]: fewer than [t] are smaller, at least [t] are not
    larger. *)
Definition has_rank (t : Z) (vs : list Z) (v : Z) : Prop :=
  v ∈ vs /\ cnt (fun w => w < v) vs < t <= cnt (fun w => w <= v) vs.

Definition list_max (vs : list Z) : Z := foldr Z.max 0 vs.

Lemma cnt_cons P `{!forall v, Decision (P v)} v vs :
  cnt P (v :: vs) = (if decide (P v) then 1 else 0) + cnt P vs.
Proof. unfold cnt. rewrite filter_cons. case_decide; simpl; lia. Qed.

Lemma cnt_mono P Q `{!forall v, Decision (P v), !forall v, Decision (Q v)} vs :
  (forall v, v ∈ vs -> P v -> Q v) -> cnt P vs <= cnt Q vs.
Proof.
  induction vs as [|v vs IH]; intros HPQ; [done|]. rewrite !cnt_cons.
  assert (cnt P vs <= cnt Q vs) by (apply IH; set_solver).
  specialize (HPQ v ltac:(set_solver)). repeat case_decide; try lia. tauto.
Qed.

Lemma cnt_bound P `{!forall v, Decision (P v)} vs : 0 <= cnt P vs <= Z.of_nat (length vs).
Proof. unfold cnt. pose proof (length_filter P vs). lia. Qed.

Lemma cnt_none P `{!forall v, Decision (P v)} vs : (forall v, v ∈ vs -> ~ P v) -> cnt P vs = 0.
Proof.
  intros HP. pose proof (cnt_bound P vs).
  assert (cnt P vs <= cnt (fun _ => False) vs) by (apply cnt_mono; intros v Hv ?; by apply (HP v)).
  assert (cnt (fun _ => False) vs = 0); [|lia]. clear. induction vs as [|v vs IH]; [done|]. by rewrite cnt_cons.
Qed.

Lemma cnt_all P `{!forall v, Decision (P v)} vs :
  (forall v, v ∈ vs -> P v) -> cnt P vs = Z.of_nat (length vs).
Proof.
  induction vs as [|v vs IH]; intros HP; [done|]. rewrite cnt_cons, decide_True by (apply HP; set_solver).
  rewrite IH by set_solver. simpl. lia.
Qed.

Lemma cnt_split f i vs :
  cnt (fun v => f v < i + 1) vs = cnt (fun v => f v < i) vs + cnt (fun v => f v = i) vs.
Proof. induction vs as [|v vs IH]; [done|]. rewrite !cnt_cons, IH. repeat case_decide; lia. Qed.

Lemma bucket_index_nonneg v : 0 <= v -> 0 <= bucket_index v.
Proof.
  intros Hv. unfold bucket_index, kBuckets. pose proof (Z.div_pos v 1000). pose proof (Z.div_pos v 100000).
  repeat case_decide; lia.
Qed.

Lemma bucketed_iff v : 0 <= v -> bucketed v <-> v < 9000000.
Proof.
  intros Hv. unfold bucketed, bucket_index, kBuckets.
  pose proof (Z.div_mod v 1000). pose proof (Z.mod_pos_bound v 1000).
  pose proof (Z.div_mod v 100000). pose proof (Z.mod_pos_bound v 100000).
  repeat case_decide; lia.
Qed.

Lemma bucket_index_mono v w : 0 <= v <= w -> bucketed v -> bucket_index v <= bucket_index w.
Proof.
  intros Hvw Hv%bucketed_iff; [|lia]. unfold bucket_index, kBuckets.
  pose proof (Z.div_mod v 1000). pose proof (Z.mod_pos_bound v 1000).
  pose proof (Z.div_mod v 100000). pose proof (Z.mod_pos_bound v 100000).
  pose proof (Z.div_mod w 1000). pose proof (Z.mod_pos_bound w 1000).
  pose proof (Z.div_mod w 100000). pose proof (Z.mod_pos_bound w 100000).
  repeat case_decide; lia.
Qed.

(** ** What the histogram stores *)

Record stores (vs : list Z) (h : LatencyHistogram) : Prop := {
  st_length : length (buckets_ h) = Z.to_nat kBuckets;
  st_bucket : forall i, 0 <= i < kBuckets ->
    buckets_ h !! Z.to_nat i = Some (cnt (fun v => bucket_index v = i) vs);
  st_count : count_ h = Z.of_nat (length vs);
  st_max : max_ h = list_max vs;
}.

Lemma empty_stores : stores [] empty_histogram.
Proof.
  split; try done. intros i Hi. unfold empty_histogram. cbn [buckets_].
  rewrite lookup_replicate_2 by lia. done.
Qed.

Lemma list_max_snoc vs v : list_max (vs ++ [v]) = Z.max (list_max vs) (Z.max v 0).
Proof. unfold list_max. rewrite foldr_app. simpl. induction vs as [|w vs IH]; simpl; lia. Qed.

Lemma cnt_snoc P `{!forall v, Decision (P v)} v vs :
  cnt P (vs ++ [v]) = cnt P vs + (if decide (P v) then 1 else 0).
Proof. unfold cnt. rewrite filter_app, length_app, filter_cons. case_decide; simpl; lia. Qed.

Lemma record_stores vs h v :
  0 <= v -> Z.of_nat (length vs) + 1 < 2 ^ 64 -> stores vs h -> stores (vs ++ [v]) (record v h).
Proof.
  intros Hv Hlen [Hl Hb Hc Hm]. unfold record. pose proof (bucket_index_nonneg v Hv) as Hi.
  split; cbn [buckets_ count_ max_].
  - destruct (decide (bucket_index v < kBuckets)); [by rewrite length_alter|done].
  - intros i Hi'. rewrite cnt_snoc. pose proof (cnt_bound (fun w => bucket_index w = i) vs).
    destruct (decide (bucket_index v < kBuckets)) as [Hlt|Hlt].
    + destruct (decide (bucket_index v = i)) as [->|Hne].
      * rewrite list_lookup_alter_eq, Hb by done. simpl. f_equal. apply u64_small. u64_lia.
      * rewrite list_lookup_alter_ne by lia. rewrite Hb by done. f_equal. lia.
    + rewrite Hb, decide_False by lia. f_equal. lia.
  - rewrite Hc, length_app. simpl. rewrite u64_small; u64_lia.
  - rewrite Hm, list_max_snoc. case_decide; lia.
Qed.

Lemma record_all_stores vs :
  Forall is_u64 vs -> Z.of_nat (length vs) < 2 ^ 64 -> stores vs (record_all vs empty_histogram).
Proof.
  intros Hvs Hlen. induction vs as [|v vs IH] using rev_ind; [apply empty_stores|].
  apply Forall_app in Hvs as [Hvs [Hv _]%Forall_cons]. rewrite length_app in Hlen. simpl in Hlen.
  unfold record_all. rewrite foldl_snoc. apply record_stores; [apply Hv|lia|]. apply IH; [done|lia].
Qed.

(** ** The search for the rank *)

(** Buckets below the one of [v] hold smaller latencies only. *)
Lemma below_bucket v w : 0 <= v -> 0 <= w -> bucket_index w < kBuckets -> bucket_index w < bucket_index v -> w < v.
Proof.
  intros Hv Hw Hb Hlt. destruct (decide (w < v)); [done|]. exfalso.
  destruct (decide (bucketed v)) as [Hbv|Hbv].
  - pose proof (bucket_index_mono v w ltac:(lia) Hbv). lia.
  - apply bucketed_iff in Hb; [|done]. rewrite bucketed_iff in Hbv by done. lia.
Qed.

Lemma percentile_step vs h t v i n l :
  Forall is_u64 vs -> Z.of_nat (length vs) < 2 ^ 64 -> stores vs h -> 0 <= i < kBuckets ->
  has_rank t vs v -> drop (Z.to_nat i) (buckets_ h) = n :: l ->
  u64 (cnt (fun w => bucket_index w < i) vs + n) = cnt (fun w => bucket_index w < i + 1) vs /\
  (t <= cnt (fun w => bucket_index w < i + 1) vs -> bucketed v /\ bucket_index v <= i) /\
  (bucketed v -> bucket_index v = i -> t <= cnt (fun w => bucket_index w < i + 1) vs) /\
  drop (Z.to_nat (i + 1)) (buckets_ h) = l.
Proof.
  intros Hvs Hlen Hst Hi (Hv & Hlo & Hhi) Hdrop. rewrite Forall_forall in Hvs.
  assert (0 <= v) as Hv0 by (apply (Hvs v); done).
  assert (buckets_ h !! Z.to_nat i = Some n) as Hn.
  { rewrite <- (Nat.add_0_r (Z.to_nat i)), <- lookup_drop, Hdrop. done. }
  rewrite (st_bucket _ _ Hst i Hi) in Hn. injection Hn as <-. split_ands.
  - rewrite <- cnt_split. pose proof (cnt_bound (fun w => bucket_index w < i + 1) vs).
    apply u64_small. u64_lia.
  - intros Ht. destruct (decide (bucketed v /\ bucket_index v <= i)) as [?|Hnot]; [done|]. exfalso.
    assert (cnt (fun w => bucket_index w < i + 1) vs <= cnt (fun w => w < v) vs); [|lia].
    apply cnt_mono. intros w Hw Hwi. pose proof (Hvs w Hw) as [Hw0 _].
    destruct (decide (bucketed v)) as [Hb|Hb].
    + assert (i < bucket_index v) by (destruct (decide (bucket_index v <= i)); [tauto|lia]).
      apply below_bucket; try done; lia.
    + assert (bucketed w) as Hbw by (unfold bucketed; lia).
      rewrite bucketed_iff in Hb, Hbw by done. lia.
  - intros Hb Heq. etrans; [apply Hhi|]. apply cnt_mono. intros w Hw Hwv. pose proof (Hvs w Hw) as [Hw0 _].
    assert (bucketed w) as Hbw by (apply bucketed_iff; [done|]; apply bucketed_iff in Hb; [lia|done]).
    pose proof (bucket_index_mono w v ltac:(lia) Hbw). lia.
  - replace (Z.to_nat (i + 1)) with (Z.to_nat i + 1)%nat by lia. rewrite <- drop_drop, Hdrop. done.
Qed.

Lemma percentile_loop_rank vs h t v l : forall i,
  Forall is_u64 vs -> Z.of_nat (length vs) < 2 ^ 64 -> stores vs h -> has_rank t vs v ->
  0 <= i <= kBuckets -> (bucketed v -> i <= bucket_index v) -> drop (Z.to_nat i) (buckets_ h) = l ->
  percentile_loop t (cnt (fun w => bucket_index w < i) vs) i l h =
  if decide (bucketed v) then quantize v else list_max vs.
Proof.
  induction l as [|n l IH]; intros i Hvs Hlen Hst Hrank Hi Hiv Hdrop.
  - apply (f_equal length) in Hdrop. rewrite length_drop, (st_length _ _ Hst) in Hdrop. simpl in Hdrop.
    rewrite decide_False; [apply Hst|]. intros Hb. specialize (Hiv Hb). unfold bucketed in Hb. lia.
  - assert (i < kBuckets).
    { apply (f_equal length) in Hdrop. rewrite length_drop, (st_length _ _ Hst) in Hdrop. simpl in Hdrop. lia. }
    destruct (percentile_step vs h t v i n l Hvs Hlen Hst ltac:(lia) Hrank Hdrop) as (Hcum & Hup & Hdown & Hl).
    simpl. rewrite Hcum. destruct (decide (t <= _)) as [Ht|Ht].
    + destruct (Hup Ht) as [Hb Hle]. specialize (Hiv Hb). rewrite decide_True by done.
      unfold quantize. f_equal. lia.
    + apply IH; try done; [lia|]. intros Hb. specialize (Hiv Hb). specialize (Hdown Hb).
      destruct (decide (bucket_index v = i)) as [He|He]; [specialize (Hdown He)|]; lia.
Qed.

(** Width of the bucket of [v]: 1 ns below 1 us, 1 us below 1 ms, 100 us
    below 9 ms. *)
Definition resolution (v : Z) : Z :=
  if decide (v < 1000) then 1 else if decide (v < 1000000) then 1000 else 100000.

Lemma quantize_accuracy v : 0 <= v < 9000000 -> quantize v <= v < quantize v + resolution v.
Proof.
  intros Hv. unfold quantize, resolution, bucket_index, bucket_to_ns.
  pose proof (Z.div_mod v 1000). pose proof (Z.mod_pos_bound v 1000).
  pose proof (Z.div_mod v 100000). pose proof (Z.mod_pos_bound v 100000).
  repeat case_decide; lia.
Qed.

Lemma loop_of_rank vs t v :
  Forall is_u64 vs -> Z.of_nat (length vs) < 2 ^ 64 -> has_rank t vs v ->
  let h := record_all vs empty_histogram in
  percentile_loop t 0 0 (buckets_ h) h = if decide (v < 9000000) then quantize v else list_max vs.
Proof.
  intros Hvs Hlen Hrank. cbv zeta. pose proof (record_all_stores vs Hvs Hlen) as Hst. pose proof Hrank as (Hv & _).
  assert (0 <= v) as Hv0 by (rewrite Forall_forall in Hvs; by apply (Hvs v)).
  assert (cnt (fun w => bucket_index w < 0) vs = 0) as Hcnt.
  { apply cnt_none. intros w Hw. rewrite Forall_forall in Hvs. pose proof (Hvs w Hw) as [Hw0 _].
    pose proof (bucket_index_nonneg w Hw0). lia. }
  rewrite <- Hcnt at 1.
  rewrite (percentile_loop_rank vs _ t v _ 0 Hvs Hlen Hst Hrank); try done.
  - destruct (decide (bucketed v)) as [Hb|Hb]; rewrite bucketed_iff in Hb by done.
    + by rewrite decide_True.
    + by rewrite decide_False.
  - intros _. by apply bucket_index_nonneg.
Qed.

(** Rank 0 stops at the first bucket. *)
Lemma loop_rank_zero h : buckets_ h <> [] -> Forall is_u64 (buckets_ h) -> percentile_loop 0 0 0 (buckets_ h) h = 0.
Proof.
  destruct (buckets_ h) as [|n l]; [done|]. intros _ [Hn _]%Forall_cons. cbn [percentile_loop].
  rewrite decide_True; [done|]. unfold u64. apply Z.mod_pos_bound. done.
Qed.

(** ** Every rank up to the number of latencies has a latency *)

Lemma minimal_element (P : Z -> Prop) `{!forall v, Decision (P v)} vs :
  Exists P vs -> exists v, v ∈ vs /\ P v /\ forall w, w ∈ vs -> P w -> v <= w.
Proof.
  induction vs as [|x vs IH]; intros Hex; [by apply Exists_nil in Hex|].
  destruct (decide (Exists P vs)) as [Hvs|Hvs].
  - destruct (IH Hvs) as (v & Hv & HP & Hmin). destruct (decide (P x /\ x <= v)) as [[Hx Hle]|Hx].
    + exists x. split_ands; [set_solver|done|]. intros w [->|Hw]%elem_of_cons HPw; [done|].
      specialize (Hmin w Hw HPw). lia.
    + exists v. split_ands; [set_solver|done|]. intros w [->|Hw]%elem_of_cons HPw; [|by apply Hmin].
      destruct (decide (v <= x)); [done|]. destruct Hx. split; [done|lia].
  - exists x. apply Exists_cons in Hex as [Hx|Hx]; [|done]. split_ands; [set_solver|done|].
    intros w [->|Hw]%elem_of_cons HPw; [done|]. destruct Hvs. apply Exists_exists. eauto.
Qed.

Lemma list_max_ge vs v : v ∈ vs -> v <= list_max vs.
Proof. unfold list_max. induction 1; simpl; lia. Qed.

Lemma list_max_elem vs : Forall is_u64 vs -> vs <> [] -> list_max vs ∈ vs.
Proof.
  induction 1 as [|v vs [Hv _] Hvs IH]; [done|]. intros _. simpl. destruct vs as [|w vs].
  - simpl. rewrite Z.max_l by done. set_solver.
  - specialize (IH ltac:(done)). destruct (Z.max_spec v (list_max (w :: vs))) as [[_ Hm]|[_ Hm]];
      change (foldr Z.max 0 (w :: vs)) with (list_max (w :: vs)); rewrite Hm; set_solver.
Qed.

Lemma rank_exists t vs :
  Forall is_u64 vs -> 0 < t <= Z.of_nat (length vs) -> exists v, has_rank t vs v.
Proof.
  intros Hvs Ht.
  destruct (minimal_element (fun v => t <= cnt (fun w => w <= v) vs) vs) as (v & Hv & Hle & Hmin).
  { apply Exists_exists. exists (list_max vs). split; [apply list_max_elem; [done|by destruct vs; simpl in *; [lia|]]|].
    rewrite cnt_all; [lia|]. apply list_max_ge. }
  exists v. unfold has_rank. split_ands; [done| |done]. destruct (decide (cnt (fun w => w < v) vs < t)) as [|Hge]; [done|]. exfalso.
  set (below := filter (fun w => w < v) vs).
  assert (below <> []) as Hne by (intros Hb; unfold cnt in Hge; fold below in Hge; rewrite Hb in Hge; simpl in Hge; lia).
  assert (Forall is_u64 below) as Hub by (apply Forall_forall; intros w [_ Hw]%list_elem_of_filter;
    rewrite Forall_forall in Hvs; by apply Hvs).
  pose proof (list_max_elem below Hub Hne) as Hin. apply list_elem_of_filter in Hin as [Hlt Hin].
  specialize (Hmin _ Hin). assert (t <= cnt (fun w => w <= list_max below) vs); [|specialize (Hmin ltac:(done)); lia].
  trans (cnt (fun w => w < v) vs); [lia|]. apply cnt_mono. intros w Hw Hwv. apply list_max_ge.
  by apply list_elem_of_filter.
Qed.

(** ** Percentiles *)

(** [q] is the percentile [p] of [vs] as the histogram can report it. *)
Definition is_percentile (vs : list Z) (p q : Z) : Prop :=
  let t := Z.of_nat (length vs) * p / 100 in
  if decide (t = 0) then q = 0
  else exists v, has_rank t vs v /\
    if decide (v < 9000000) then q = quantize v /\ q <= v < q + resolution v else q = list_max vs.

Lemma percentile_correct vs p :
  Forall is_u64 vs -> Z.of_nat (length vs) * 100 < 2 ^ 53 -> 0 <= p <= 100 ->
  exists q, percentile (of_u64 p) (record_all vs empty_histogram) = Ok q /\ is_percentile vs p q.
Proof.
  intros Hvs Hlen Hp. assert (Z.of_nat (length vs) < 2 ^ 64) as Hl64 by lia.
  pose proof (record_all_stores vs Hvs Hl64) as Hst. unfold percentile. rewrite (st_count _ _ Hst).
  unfold is_percentile. case_decide as Hc.
  - exists 0. split; [done|]. by rewrite Hc, decide_True.
  - rewrite rank_exact by nia. eexists. split; [done|]. set (t := _ * p / 100).
    assert (0 <= t <= Z.of_nat (length vs)) as Ht.
    { unfold t. split; [apply Z.div_pos; nia|]. apply Z.div_le_upper_bound; nia. }
    case_decide as Ht0.
    + rewrite Ht0. apply loop_rank_zero.
      * intros Hb. pose proof (st_length _ _ Hst) as Hsl. by rewrite Hb in Hsl.
      * apply Forall_lookup_2. intros i n Hi. pose proof (lookup_lt_Some _ _ _ Hi) as Hlt.
        rewrite (st_length _ _ Hst) in Hlt. pose proof (st_bucket _ _ Hst (Z.of_nat i) ltac:(unfold kBuckets in *; lia)) as Hb.
        rewrite Nat2Z.id, Hi in Hb. injection Hb as ->. pose proof (cnt_bound (fun v => bucket_index v = Z.of_nat i) vs).
        unfold is_u64, two64. lia.
    + destruct (rank_exists t vs Hvs ltac:(lia)) as [v Hv]. exists v. split; [done|].
      rewrite (loop_of_rank vs t v Hvs Hl64 Hv). case_decide; [|done]. split; [done|].
      apply quantize_accuracy. split; [|done]. destruct Hv as [Hv _]. rewrite Forall_forall in Hvs. by apply (Hvs v).
Qed.

(** C40. After recording the latencies [vs] (up to 9 * 10^13 of them), the
    percentile [p] of the histogram, with its rank computed in floating point,
    is the nearest rank [length vs * p / 100], rounded down: 0 for rank 0,
    otherwise the lower end of the bucket of the latency with that rank, which
    is exact below 1 us, less than 1 us too small below 1 ms, less than 100 us
    too small below 9 ms. From 9 ms on a latency has no bucket and the maximum
    is reported. *)
Theorem percentile_nearest_rank vs p :
  Forall is_u64 vs -> Z.of_nat (length vs) * 100 < 2 ^ 53 -> 0 <= p <= 100 ->
  exists q, percentile (of_u64 p) (record_all vs empty_histogram) = Ok q /\ is_percentile vs p q.
Proof. apply percentile_correct. Qed.

(** ** Output

    The operands that a method writes to [std::cout], in order. *)
Inductive operand (D : Type) :=
| Text (s : string)
| Number (z : Z)
| Floating (x : D).
Arguments Text {D}.
Arguments Number {D}.
Arguments Floating {D}.

Definition eol : string := String "010"%char EmptyString.

(** ** Metrics

    [D] is the type of [double]; the imbalance is only stored. *)

Section metrics.
Context {D : Type}.

Record Metrics := mkMetrics {
  latency_ : LatencyHistogram;
  trade_count_ : Z;
  rejection_count_ : Z;
  cancel_count_ : Z;
  last_spread_ : Z;
  last_imbalance_ : D;
  last_bid_depth_ : Z;
  last_ask_depth_ : Z;
}.

Definition new_metrics (zero : D) : Metrics := mkMetrics empty_histogram 0 0 0 0 zero 0 0.

(** The calls that change the metrics. *)
Inductive metrics_call :=
| record_event_latency (latency_ns : Z)
| record_trade
| record_rejection
| record_cancel
| update_spread (spread : Z)
| update_imbalance (imbalance : D)
| update_depth (bid_levels ask_levels : Z).

Definition metrics_step (m : Metrics) (c : metrics_call) : Metrics :=
  let 'mkMetrics lat tc rc cc spr imb bd ad := m in
  match c with
  | record_event_latency ns => mkMetrics (record ns lat) tc rc cc spr imb bd ad
  | record_trade => mkMetrics lat (u64 (tc + 1)) rc cc spr imb bd ad
  | record_rejection => mkMetrics lat tc (u64 (rc + 1)) cc spr imb bd ad
  | record_cancel => mkMetrics lat tc rc (u64 (cc + 1)) spr imb bd ad
  | update_spread spr => mkMetrics lat tc rc cc spr imb bd ad
  | update_imbalance imb => mkMetrics lat tc rc cc spr imb bd ad
  | update_depth bd ad => mkMetrics lat tc rc cc spr imb bd ad
  end.

Definition print_summary (m : Metrics) : res (list (operand D)) :=
  p50 ← p50 (latency_ m);
  p95 ← p95 (latency_ m);
  p99 ← p99 (latency_ m);
  Ok [Text "=== Engine Metrics ==="; Text eol;
      Text "Events:     "; Number (count_ (latency_ m)); Text eol;
      Text "Trades:     "; Number (trade_count_ m); Text eol;
      Text "Rejections: "; Number (rejection_count_ m); Text eol;
      Text "Cancels:    "; Number (cancel_count_ m); Text eol;
      Text "Latency p50:  "; Number p50; Text " ns"; Text eol;
      Text "Latency p95:  "; Number p95; Text " ns"; Text eol;
      Text "Latency p99:  "; Number p99; Text " ns"; Text eol;
      Text "Latency max:  "; Number (max_val (latency_ m)); Text " ns"; Text eol;
      Text "Spread:     "; Number (last_spread_ m); Text eol;
      Text "Imbalance:  "; Floating (last_imbalance_ m); Text eol;
      Text "Depth:      "; Number (last_bid_depth_ m); Text " bid / "; Number (last_ask_depth_ m); Text " ask"; Text eol].

Definition metrics_run (cs : list metrics_call) (m : Metrics) : Metrics := foldl metrics_step m cs.

Definition call_latency (c : metrics_call) : option Z :=
  match c with record_event_latency ns => Some ns | _ => None end.
Definition is_trade_call (c : metrics_call) : bool := match c with record_trade => true | _ => false end.
Definition is_rejection_call (c : metrics_call) : bool := match c with record_rejection => true | _ => false end.
Definition is_cancel_call (c : metrics_call) : bool := match c with record_cancel => true | _ => false end.

Definition calls (f : metrics_call -> bool) (cs : list metrics_call) : Z :=
  Z.of_nat (length (filter (fun c => f c = true) cs)).

Lemma calls_snoc f cs c : calls f (cs ++ [c]) = calls f cs + (if f c then 1 else 0).
Proof.
  unfold calls. rewrite filter_app, length_app, filter_cons. case_decide as Hf.
  - rewrite Hf. simpl. lia.
  - destruct (f c); [done|]. simpl. lia.
Qed.

(** Whatever the order of the calls, the counters are the numbers of the
    respective calls (modulo [2^64]) and the histogram holds the recorded
    latencies. *)
Theorem metrics_count zero (cs : list metrics_call) :
  let m := metrics_run cs (new_metrics zero) in
  trade_count_ m = u64 (calls is_trade_call cs) /\ rejection_count_ m = u64 (calls is_rejection_call cs) /\
  cancel_count_ m = u64 (calls is_cancel_call cs) /\
  latency_ m = record_all (omap call_latency cs) empty_histogram.
Proof.
  induction cs as [|c cs IH] using rev_ind; [done|]. unfold metrics_run in *. cbv zeta in *.
  rewrite foldl_snoc, !calls_snoc, omap_app. destruct IH as (H1 & H2 & H3 & H4).
  destruct (foldl _ _ cs) as [lat tc rc cc spr imb bd ad].
  cbn [trade_count_ rejection_count_ cancel_count_ latency_] in *. subst.
  unfold record_all. rewrite foldl_app.
  destruct c; simpl; rewrite ?Z.add_0_r; split_ands; try reflexivity; unfold u64; by rewrite Zplus_mod_idemp_l.
Qed.
End metrics.

(** The numbers among the operands. *)
Definition numbers {D} (ops : list (operand D)) : list Z :=
  omap (fun x => match x with Number z => Some z | _ => None end) ops.

(** The summary after any sequence of calls prints the numbers of events,
    trades, rejections and cancels and the percentiles and maximum of the
    recorded latencies. *)
Theorem summary_correct {D} (zero : D) (cs : list metrics_call) :
  let m := metrics_run cs (new_metrics zero) in
  let vs := omap call_latency cs in
  Forall is_u64 vs -> Z.of_nat (length vs) * 100 < 2 ^ 53 ->
  exists q50 q95 q99 ops, print_summary m = Ok ops /\
    is_percentile vs 50 q50 /\ is_percentile vs 95 q95 /\ is_percentile vs 99 q99 /\
    numbers ops = [Z.of_nat (length vs); u64 (calls is_trade_call cs); u64 (calls is_rejection_call cs);
      u64 (calls is_cancel_call cs); q50; q95; q99; list_max vs; last_spread_ m; last_bid_depth_ m; last_ask_depth_ m].
Proof.
  intros m vs Hvs Hlen. destruct (metrics_count zero cs) as (Ht & Hr & Hc & Hl). fold m vs in Ht, Hr, Hc, Hl.
  destruct (percentile_correct vs 50 Hvs Hlen) as (q50 & E50 & H50); [done|].
  destruct (percentile_correct vs 95 Hvs Hlen) as (q95 & E95 & H95); [done|].
  destruct (percentile_correct vs 99 Hvs Hlen) as (q99 & E99 & H99); [done|].
  destruct (record_all_stores vs Hvs ltac:(lia)) as [_ _ Hcount Hmax].
  exists q50, q95, q99. unfold print_summary, p50, p95, p99. rewrite Hl, E50, E95, E99.
  eexists. split; [reflexivity|]. split_ands; [done..|]. cbn [numbers omap list_omap].
  unfold numbers. simpl. unfold max_val. by rewrite Hcount, Hmax, Ht, Hr, Hc.
Qed.

(** ** Witnesses *)

Definition sample_latencies : list Z := [950; 12345; 12000000; 700].

Lemma percentile_nearest_rank_witness :
  percentile (of_u64 50) (record_all sample_latencies empty_histogram) = Ok 950 /\
  is_percentile sample_latencies 50 950 /\
  percentile (of_u64 99) (record_all sample_latencies empty_histogram) = Ok 12000.
Proof.
  assert (Forall is_u64 sample_latencies) as Hv by (repeat constructor; done).
  destruct (percentile_nearest_rank sample_latencies 50 Hv) as (q & Hq & Hp); [done..|].
  assert (percentile (of_u64 50) (record_all sample_latencies empty_histogram) = Ok 950) as E by (vm_compute; reflexivity).
  split_ands; [exact E| |vm_compute; reflexivity]. rewrite E in Hq. injection Hq as <-. exact Hp.
Defined.
