(* ===== verification/Generator.v ===== *)
(** * Generator: synthetic order flow and the benchmark loop

    Model of [src/src/feed/synthetic_gen.hpp] and [synthetic_gen.cpp], of
    [src/src/core/config.hpp], of the scenarios in
    [src/benchmarks/scenarios.hpp] and of [run_scenario] in
    [src/benchmarks/benchmark_runner.cpp]. The random engine
    with its distributions and floating-point numbers are parameters. *)

From S2P Require Import Prelude Types PriceLevel OrderBook Engine Market EngineRefine EngineEvents.
From S2P Require Import Session Metrics.

(** ** Random numbers *)

(** [literal n d]: the [double] of the decimal literal for [n / d].
    [below p]: [uniform_(rng_) < p]. [uniform_int a b]: a draw of
    [uniform_int_distribution(a, b)]. [normal s]: [std::round] of a draw of
    [normal_distribution(0, s)]. *)
Class Random := {
  rng : Type;
  real : Type;
  literal : Z -> Z -> real;
  one_half : real;
  below : real -> rng -> bool * rng;
  uniform_int : Z -> Z -> rng -> Z * rng;
  normal : real -> rng -> Z * rng;
}.
Class RandomLaws `{Random} := {
  uniform_int_range a b r : a <= b -> a <= (uniform_int a b r).1 <= b;
}.

Section generator.
Context `{Random}.

(** ** Data *)

Record EngineConfig := mkConfig {
  cfg_max_price : Price;
  cfg_max_order_size : Z;
  cfg_price_band_bps : Price;
  cfg_snapshot_interval : Z;
  cfg_snapshot_path : string;
  cfg_log_path : string;
  cfg_log_queue_size : Z;
  cfg_mid_price : Price;
  cfg_arrival_rate : real;
  cfg_price_std_dev : real;
  cfg_cancel_probability : real;
  cfg_burst_size : Z;
  cfg_market_maker_mode : bool;
}.

(** The member initialisers. *)
Definition default_config : EngineConfig :=
  mkConfig 10000000 1000000 500 10000 "snapshots/" "logs/" 65536 10000
    (literal 1000 1) (literal 20 1) (literal 3 10) 0 false.

(** Assignment of the three members that the scenarios set. *)
Definition set_rates (arrival_rate cancel_probability price_std_dev : real) (c : EngineConfig) : EngineConfig :=
  mkConfig (cfg_max_price c) (cfg_max_order_size c) (cfg_price_band_bps c) (cfg_snapshot_interval c)
    (cfg_snapshot_path c) (cfg_log_path c) (cfg_log_queue_size c) (cfg_mid_price c)
    arrival_rate price_std_dev cancel_probability (cfg_burst_size c) (cfg_market_maker_mode c).

(** [get_scenario_config] of the benchmarks. *)
Definition get_scenario_config (name : string) : EngineConfig :=
  let rates n c d := set_rates (literal n 1) (literal c 10) (literal d 1) default_config in
  if decide (name = "small") then rates 100 1 5
  else if decide (name = "medium") then rates 1000 3 20
  else if decide (name = "large") then rates 10000 3 20
  else if decide (name = "high_cancel") then rates 5000 7 20
  else if decide (name = "market_heavy") then rates 2000 1 20
  else if decide (name = "iceberg_stop") then rates 1000 2 20
  else rates 1000 3 20.

Definition kScenarioNames : list string :=
  ["small"; "medium"; "large"; "high_cancel"; "market_heavy"; "iceberg_stop"].

Record SyntheticGenerator := mkGenerator {
  config_ : EngineConfig;
  mid_price_ : Price;
  next_order_id_ : Z;
  event_count_ : Z;
  max_events_ : Z;
  current_ts_ : Timestamp;
  live_orders_ : list OrderId;
  rng_ : rng;
}.

Definition new_generator (config : EngineConfig) (max_events : Z) (seeded : rng) : SyntheticGenerator :=
  mkGenerator config (cfg_mid_price config) 1 0 max_events 1700000000000000000 [] seeded.

(** ** Operations *)

(** Converting a draw outside the range of [Price] is undefined behaviour, as
    is an overflow of the sum. *)
Definition sample_price (g : SyntheticGenerator) (r : rng) : res (Price * rng) :=
  let '(draw, r) := normal (cfg_price_std_dev (config_ g)) r in
  offset ← i64 draw;
  p ← i64 (mid_price_ g + offset);
  Ok (Z.max p 1, r).

Definition market_maker_price (s : Side) (g : SyntheticGenerator) (r : rng) : res (Price * rng) :=
  let '(spread, r) := uniform_int 1 3 r in
  p ← i64 (match s with Buy => mid_price_ g - spread | Sell => mid_price_ g + spread end);
  Ok (p, r).

Definition generate_new_order (g : SyntheticGenerator) : res (OrderEvent * SyntheticGenerator) :=
  let id := next_order_id_ g in
  let '(buy, r) := below one_half (rng_ g) in
  let side := if (buy : bool) then Buy else Sell in
  let '(quantity, r) := uniform_int 1 500 r in
  '(price, r) ← if cfg_market_maker_mode (config_ g) then market_maker_price side g r else sample_price g r;
  Ok (NewOrderEvent (mkOrder id side Limit price 0 quantity quantity 0 0 (current_ts_ g) New),
      mkGenerator (config_ g) (mid_price_ g) (u64 (id + 1)) (event_count_ g) (max_events_ g)
        (current_ts_ g) (live_orders_ g ++ [id]) r).

(** [live[i] = live.back(); live.pop_back();] *)
Definition swap_and_pop (i : nat) (l : list OrderId) : list OrderId :=
  match last l with
  | None => l
  | Some b => take (length l - 1) (<[i := b]> l)
  end.

(** Called with live orders only: an index out of range would be undefined
    behaviour. *)
Definition generate_cancel (g : SyntheticGenerator) : res (OrderEvent * SyntheticGenerator) :=
  let '(idx, r) := uniform_int 0 (Z.of_nat (length (live_orders_ g)) - 1) (rng_ g) in
  match live_orders_ g !! Z.to_nat idx with
  | None => Crash AssertFailed
  | Some cancel_id =>
      Ok (CancelOrderEvent cancel_id (current_ts_ g),
          mkGenerator (config_ g) (mid_price_ g) (next_order_id_ g) (event_count_ g) (max_events_ g)
            (current_ts_ g) (swap_and_pop (Z.to_nat idx) (live_orders_ g)) r)
  end.

Definition next (g : SyntheticGenerator) : res (option OrderEvent * SyntheticGenerator) :=
  if decide (max_events_ g <= event_count_ g) then Ok (None, g)
  else
    let g := mkGenerator (config_ g) (mid_price_ g) (next_order_id_ g) (u64 (event_count_ g + 1))
               (max_events_ g) (u64 (current_ts_ g + 1000000)) (live_orders_ g) (rng_ g) in
    let '(do_cancel, r) :=
      match live_orders_ g with
      | [] => (false, rng_ g)
      | _ => below (cfg_cancel_probability (config_ g)) (rng_ g)
      end in
    let g := mkGenerator (config_ g) (mid_price_ g) (next_order_id_ g) (event_count_ g)
               (max_events_ g) (current_ts_ g) (live_orders_ g) r in
    '(ev, g) ← if (do_cancel : bool) then generate_cancel g else generate_new_order g;
    Ok (Some ev, g).

(** ** The benchmark *)

(** [clock k] are the readings [t0] and [t1] around event number [k]. *)
Fixpoint run_loop (fuel engine_fuel : nat) (clock : nat -> Z * Z) (k : nat) (start duration_ns : Z)
    (gen : SyntheticGenerator) (engine : MatchingEngine) (latency : LatencyHistogram) (events_processed : Z)
    : res (MatchingEngine * LatencyHistogram * Z) :=
  match fuel with
  | O => NoFuel
  | S fuel =>
      '(ev, gen) ← next gen;
      match ev with
      | None => Ok (engine, latency, events_processed)
      | Some event =>
          let '(t0, t1) := clock k in
          '(engine, _) ← submit engine_fuel engine event;
          let latency := record (u64 (t1 - t0)) latency in
          let events_processed := u64 (events_processed + 1) in
          if decide (duration_ns < u64 (t1 - start)) then Ok (engine, latency, events_processed)
          else run_loop fuel engine_fuel clock (S k) start duration_ns gen engine latency events_processed
      end
  end.

Definition run_scenario (fuel engine_fuel : nat) (clock : nat -> Z * Z) (start : Z) (config : EngineConfig)
    (seeded : rng) (duration_sec : Z) : res (MatchingEngine * LatencyHistogram * Z) :=
  run_loop fuel engine_fuel clock 0 start (u64 (duration_sec * 1000000000))
    (new_generator config 100000000 seeded) new_engine empty_histogram 0.

(** ** Generated sequences *)

(** At most [n] events. *)
Fixpoint generate (n : nat) (g : SyntheticGenerator) : res (list OrderEvent * SyntheticGenerator) :=
  match n with
  | O => Ok ([], g)
  | S n =>
      '(ev, g) ← next g;
      match ev with
      | None => Ok ([], g)
      | Some ev => '(evs, g) ← generate n g; Ok (ev :: evs, g)
      end
  end.

(** Every cancel names an order that was generated and not cancelled before. *)
Fixpoint cancels_live (evs : list OrderEvent) (live : gset OrderId) : Prop :=
  match evs with
  | [] => True
  | (NewOrderEvent o) :: evs => cancels_live evs ({[o_id o]} ∪ live)
  | (CancelOrderEvent id _) :: evs => id ∈ live /\ cancels_live evs (live ∖ {[id]})
  | _ => False
  end.

(** [n] ids have been given out, 1 to [n]. *)
Record gen_inv (used : gset OrderId) (g : SyntheticGenerator) : Prop := {
  gi_next : exists n, 0 <= n <= event_count_ g /\ next_order_id_ g = u64 (n + 1) /\
    forall i, i ∈ used -> 1 <= i <= n;
  gi_max : event_count_ g <= max_events_ g /\ is_u64 (max_events_ g);
  gi_live : NoDup (live_orders_ g) /\ forall i, i ∈ live_orders_ g -> i ∈ used;
}.

Lemma new_generator_inv config max_events seeded :
  is_u64 max_events -> gen_inv ∅ (new_generator config max_events seeded).
Proof.
  intros Hm. split; simpl.
  - exists 0. split_ands; [lia|lia|done|set_solver].
  - split; [apply Hm|done].
  - split; [constructor|set_solver].
Qed.

Lemma swap_and_pop_perm i (l : list OrderId) a :
  l !! i = Some a -> l ≡ₚ a :: swap_and_pop i l.
Proof.
  intros Hi. destruct l as [|b l _] using rev_ind; [done|]. unfold swap_and_pop.
  rewrite last_snoc, length_app. simpl. replace (length l + 1 - 1)%nat with (length l) by lia.
  apply lookup_app_Some in Hi as [Hi|[Hlen Hi]].
  - rewrite insert_app_l by by eapply lookup_lt_Some.
    rewrite take_app_le by (rewrite length_insert; lia).
    rewrite take_ge by (rewrite length_insert; lia).
    rewrite (Permutation_app_comm l [b]). simpl.
    rewrite <- (take_drop_middle l i a Hi) at 1. rewrite insert_take_drop by by eapply lookup_lt_Some.
    rewrite <- !Permutation_middle. apply perm_swap.
  - apply list_lookup_singleton_Some in Hi as [Hi ->].
    replace i with (length l + 0)%nat by lia. rewrite insert_app_r. simpl.
    rewrite take_app_length. by rewrite Permutation_app_comm.
Qed.

Context `{!RandomLaws}.

(** The state in which an event is generated: counted, but without an id. *)
Record counted (used : gset OrderId) (g : SyntheticGenerator) : Prop := {
  cn_next : exists n, 0 <= n < event_count_ g /\ next_order_id_ g = n + 1 /\
    forall i, i ∈ used -> 1 <= i <= n;
  cn_max : event_count_ g <= max_events_ g /\ is_u64 (max_events_ g);
  cn_live : NoDup (live_orders_ g) /\ forall i, i ∈ live_orders_ g -> i ∈ used;
}.

(** What one event does to the generator. *)
Definition event_ok (used : gset OrderId) (g : SyntheticGenerator) (ev : OrderEvent) (g' : SyntheticGenerator)
    : Prop :=
  match ev with
  | NewOrderEvent o =>
      (o_id o ∉ used) /\ qty_ranges o /\ gen_inv ({[o_id o]} ∪ used) g' /\
      live_orders_ g' ≡ₚ o_id o :: live_orders_ g
  | CancelOrderEvent id _ => gen_inv used g' /\ live_orders_ g ≡ₚ id :: live_orders_ g'
  | _ => False
  end.

Lemma generate_new_order_ok used g ev g' :
  counted used g -> generate_new_order g = Ok (ev, g') ->
  event_ok used g ev g' /\ event_count_ g' = event_count_ g /\ max_events_ g' = max_events_ g.
Proof.
  intros [(n & Hn & Hnext & Hused) [Hmax Hm] [Hnd Hlive]]. unfold generate_new_order.
  destruct (below one_half (rng_ g)) as [buy r1].
  pose proof (uniform_int_range 1 500 r1 ltac:(lia)) as Hq. destruct (uniform_int 1 500 r1) as [quantity r2].
  intros ([price r3] & _ & [= <- <-])%bind_ok_inv. simpl in *. split; [|done].
  rewrite Hnext in *.
  assert ((n + 1) ∉ used) as Hfresh by (intros Hin%Hused; lia).
  split_ands; [done|unfold qty_ranges; simpl; split_ands; u64_lia| |].
  - split; simpl.
    + exists (n + 1). split_ands; [lia|lia|done|]. intros i [->%elem_of_singleton|Hi%Hused]%elem_of_union; lia.
    + done.
    + split.
      * apply NoDup_app. split_ands; [done| |apply NoDup_singleton].
        intros i Hi%Hlive ->%list_elem_of_singleton. done.
      * intros i [Hi%Hlive| ->%list_elem_of_singleton]%elem_of_app; set_solver.
  - by rewrite Permutation_app_comm.
Qed.

Lemma generate_cancel_ok used g ev g' :
  counted used g -> generate_cancel g = Ok (ev, g') ->
  event_ok used g ev g' /\ event_count_ g' = event_count_ g /\ max_events_ g' = max_events_ g.
Proof.
  intros [(n & Hn & Hnext & Hused) [Hmax Hm] [Hnd Hlive]]. unfold generate_cancel.
  destruct (uniform_int _ _ _) as [idx r]. destruct (_ !! _) as [id|] eqn:Hid; [|done].
  intros [= <- <-]. simpl. split; [|done]. pose proof (swap_and_pop_perm _ _ _ Hid) as Hperm.
  split; [|done]. split; simpl.
  - exists n. split_ands; [lia|lia| |done]. rewrite Hnext. symmetry. apply u64_small. u64_lia.
  - done.
  - rewrite Hperm in Hnd. apply NoDup_cons in Hnd as [_ Hnd]. split; [done|].
    intros i Hi. apply Hlive. rewrite Hperm. set_solver.
Qed.

(** [next] without the bookkeeping of its local states. *)
Lemma next_counted used g :
  gen_inv used g -> event_count_ g < max_events_ g ->
  exists (b : bool) (g1 : SyntheticGenerator), counted used g1 /\ live_orders_ g1 = live_orders_ g /\
    event_count_ g1 = event_count_ g + 1 /\ max_events_ g1 = max_events_ g /\ config_ g1 = config_ g /\
    mid_price_ g1 = mid_price_ g /\ (b = true -> live_orders_ g <> []) /\
    next g = ('(ev, g') ← (if b then generate_cancel g1 else generate_new_order g1); Ok (Some ev, g')).
Proof.
  intros [(n & Hn & Hnext & Hused) [Hmax Hm] [Hnd Hlive]] Hlt. unfold next. rewrite decide_False by lia.
  assert (u64 (event_count_ g + 1) = event_count_ g + 1) as Hec by (apply u64_small; u64_lia).
  assert (next_order_id_ g = n + 1) as Hid by (rewrite Hnext; apply u64_small; u64_lia).
  cbv zeta. cbn [live_orders_ rng_ config_]. 
  destruct (match live_orders_ g with [] => _ | _ => _ end) as [b r] eqn:Hb.
  exists b, (mkGenerator (config_ g) (mid_price_ g) (next_order_id_ g) (u64 (event_count_ g + 1)) (max_events_ g)
    (u64 (current_ts_ g + 1000000)) (live_orders_ g) r). simpl. split.
  { split; simpl; [exists n; split_ands; [lia|lia|done|done]|split; [lia|done]|done]. }
  split_ands; try done. intros ->. by destruct (live_orders_ g).
Qed.

Lemma next_ok used g oev g' :
  gen_inv used g -> next g = Ok (oev, g') ->
  match oev with
  | None => g' = g
  | Some ev => event_ok used g ev g' /\ event_count_ g' = event_count_ g + 1 /\
      max_events_ g' = max_events_ g /\ event_count_ g < max_events_ g
  end.
Proof.
  intros Hinv. destruct (decide (max_events_ g <= event_count_ g)) as [Hle|Hlt].
  { unfold next. rewrite decide_True by done. by intros [= <- <-]. }
  destruct (next_counted used g Hinv ltac:(lia)) as (b & g1 & Hc & Hl & He & Hm & _ & _ & _ & ->).
  intros ([ev g2] & Hgen & [= <- <-])%bind_ok_inv.
  assert (event_ok used g1 ev g2 /\ event_count_ g2 = event_count_ g1 /\ max_events_ g2 = max_events_ g1)
    as (Hok & He2 & Hm2).
  { destruct b; [by apply generate_cancel_ok|by apply generate_new_order_ok]. }
  unfold event_ok in *. rewrite Hl in Hok. split_ands; [done|lia|lia|lia].
Qed.

Lemma event_ok_session used g ev g' evs :
  event_ok used g ev g' -> session_ok evs (used_after [ev] used) -> session_ok (ev :: evs) used.
Proof. destruct ev; simpl; naive_solver. Qed.

Lemma event_ok_inv used g ev g' : event_ok used g ev g' -> gen_inv (used_after [ev] used) g'.
Proof. destruct ev; simpl; naive_solver. Qed.

Lemma generate_session n : forall used g evs g',
  gen_inv used g -> generate n g = Ok (evs, g') ->
  session_ok evs used /\ cancels_live evs (list_to_set (live_orders_ g)) /\
  Z.of_nat (length evs) = event_count_ g' - event_count_ g /\ event_count_ g' <= max_events_ g.
Proof.
  induction n as [|n IH]; intros used g evs g' Hinv; simpl.
  { intros [= <- <-]. simpl. split_ands; [done|done|lia|apply Hinv]. }
  intros ([oev g1] & Hnext & Hrest)%bind_ok_inv. pose proof (next_ok used g oev g1 Hinv Hnext) as Hok.
  destruct oev as [ev|].
  2: { injection Hrest as <- <-. subst g1. simpl. split_ands; [done|done|lia|apply Hinv]. }
  destruct Hok as (Hok & He & Hm & Hlt).
  apply bind_ok_inv in Hrest as ([evs' g2] & Hgen & [= <- <-]).
  destruct (IH _ _ _ _ (event_ok_inv _ _ _ _ Hok) Hgen) as (Hs & Hc & Hlen & Hmax).
  split_ands; [by eapply event_ok_session| |simpl; lia|lia].
  destruct ev as [o|id ts|m|old o]; simpl in Hok |- *; try done.
  - destruct Hok as (_ & _ & _ & Hp). by rewrite Hp in Hc.
  - destruct Hok as (Hg & Hp). pose proof Hinv as [_ _ [Hnd _]]. rewrite Hp in Hnd |- *.
    apply NoDup_cons in Hnd as [Hnot _]. split; [set_solver|].
    replace (list_to_set (id :: live_orders_ g1) ∖ {[id]}) with (list_to_set (C := gset OrderId) (live_orders_ g1));
      [done|]. set_solver.
Qed.

(** ** Generation and the benchmark do not crash *)

(** A mid price far from the limits of [Price]. *)
Definition mid_ok (g : SyntheticGenerator) : Prop := - 2 ^ 62 <= mid_price_ g < 2 ^ 62.

(** A price sample from the normal distribution, with the deviation of the
    configuration, that is not far from them. *)
Definition wild_draw (c : EngineConfig) : Prop :=
  cfg_market_maker_mode c = false /\ exists r, ~ (- 2 ^ 62 <= (normal (cfg_price_std_dev c) r).1 < 2 ^ 62).

Lemma i64_ok x : is_i64 x -> i64 x = Ok x.
Proof. intros Hx. unfold i64. by rewrite decide_True. Qed.

(** Only a wild draw makes it overflow. *)
Lemma generate_new_order_cases g :
  mid_ok g ->
  (exists ev g', generate_new_order g = Ok (ev, g') /\ mid_price_ g' = mid_price_ g /\ config_ g' = config_ g) \/
  (generate_new_order g = Crash SignedOverflow /\ wild_draw (config_ g)).
Proof.
  intros Hmid. unfold generate_new_order, mid_ok in *.
  destruct (below one_half (rng_ g)) as [buy r1]. destruct (uniform_int 1 500 r1) as [quantity r2].
  set (sampled := if cfg_market_maker_mode _ then _ else _).
  assert ((exists price r, sampled = Ok (price, r)) \/ (sampled = Crash SignedOverflow /\ wild_draw (config_ g)))
    as [(price & r & ->)|[-> Hw]]; [|left; by eexists _, _|by right].
  unfold sampled, wild_draw. destruct (cfg_market_maker_mode _).
  - left. unfold market_maker_price. pose proof (uniform_int_range 1 3 r2 ltac:(lia)).
    destruct (uniform_int 1 3 r2) as [spread r]. simpl in *.
    rewrite i64_ok by (unfold is_i64; destruct buy; simpl; lia). by eexists _, _.
  - unfold sample_price. destruct (normal _ r2) as [draw r] eqn:Hdraw.
    destruct (decide (- 2 ^ 62 <= draw < 2 ^ 62)) as [Hd|Hd].
    + left. rewrite i64_ok, bind_ok by (unfold is_i64; lia). rewrite i64_ok by (unfold is_i64; lia). by eexists _, _.
    + assert (exists r, ~ (- 2 ^ 62 <= (normal (cfg_price_std_dev (config_ g)) r).1 < 2 ^ 62)) as Hw
        by (exists r2; by rewrite Hdraw).
      unfold i64. case_decide; [|by right]. rewrite bind_ok. case_decide; [left; by eexists _, _|by right].
Qed.

Lemma generate_cancel_total g :
  live_orders_ g <> [] -> exists ev g', generate_cancel g = Ok (ev, g') /\ mid_price_ g' = mid_price_ g /\ config_ g' = config_ g.
Proof.
  intros Hne. unfold generate_cancel.
  assert (0 < length (live_orders_ g))%nat by (destruct (live_orders_ g); simpl; [done|lia]).
  pose proof (uniform_int_range 0 (Z.of_nat (length (live_orders_ g)) - 1) (rng_ g) ltac:(lia)).
  destruct (uniform_int 0 _ (rng_ g)) as [idx r]. simpl in *.
  destruct (lookup_lt_is_Some_2 (live_orders_ g) (Z.to_nat idx)) as [id ->]; [lia|]. by eexists _, _.
Qed.

Lemma next_cases used g :
  gen_inv used g -> mid_ok g ->
  (exists oev g', next g = Ok (oev, g') /\ mid_ok g' /\ config_ g' = config_ g) \/
  (next g = Crash SignedOverflow /\ wild_draw (config_ g)).
Proof.
  intros Hinv Hmid. destruct (decide (max_events_ g <= event_count_ g)) as [Hle|Hlt].
  { left. unfold next. rewrite decide_True by done. by exists None, g. }
  destruct (next_counted used g Hinv ltac:(lia)) as (b & g1 & _ & Hl & _ & _ & Hc & Hm & Hb & ->).
  assert (mid_ok g1) as Hmid1 by (unfold mid_ok in *; by rewrite Hm).
  assert ((exists ev g', (if b then generate_cancel g1 else generate_new_order g1) = Ok (ev, g') /\
    mid_price_ g' = mid_price_ g1 /\ config_ g' = config_ g1) \/
    ((if b then generate_cancel g1 else generate_new_order g1) = Crash SignedOverflow /\ wild_draw (config_ g)))
    as [(ev & g' & -> & Hm' & Hc')|[-> Hw]]; [| |by right].
  { rewrite <- Hc. destruct b; [left; apply generate_cancel_total; rewrite Hl; by apply Hb|].
    by apply generate_new_order_cases. }
  left. exists (Some ev), g'. unfold mid_ok. by rewrite Hm', Hm, Hc', Hc.
Qed.

(** The latencies of [n] events from event number [k] on. *)
Definition measured (clock : nat -> Z * Z) (k n : nat) : list Z :=
  map (fun i => u64 ((clock i).2 - (clock i).1)) (seq k n).

Lemma measured_u64 clock k n : Forall is_u64 (measured clock k n).
Proof. apply Forall_map, Forall_forall. intros i _. apply Z.mod_pos_bound. done. Qed.

Lemma run_loop_total clock start duration m : forall k gen engine latency used,
  Z.of_nat m = max_events_ gen - event_count_ gen -> gen_inv used gen -> mid_ok gen ->
  session_inv used engine ->
  exists n, (exists j engine' used', (j <= m)%nat /\ session_inv used' engine' /\
    let latency' := record_all (measured clock k j) latency in
    forall fuel engine_fuel, (n <= fuel)%nat -> (n <= engine_fuel)%nat ->
      run_loop fuel engine_fuel clock k start duration gen engine latency (count_ latency) =
      Ok (engine', latency', count_ latency')) \/
  (wild_draw (config_ gen) /\ forall fuel engine_fuel, (n <= fuel)%nat -> (n <= engine_fuel)%nat ->
      run_loop fuel engine_fuel clock k start duration gen engine latency (count_ latency) = Crash SignedOverflow).
Proof.
  induction m as [|m IH]; intros k gen engine latency used Hm Hinv Hmid Hses.
  - exists 1%nat. left. exists O, engine, used. split; [done|]. split; [done|]. intros latency' [|fuel] ef Hf _; [lia|]. simpl.
    unfold next. by rewrite decide_True by lia.
  - destruct (next_cases used gen Hinv Hmid) as [(oev & gen1 & Hnext & Hmid1 & Hcfg)|[Hnext Hw]].
    2: { exists 1%nat. right. split; [done|]. intros [|fuel] ef Hf _; [lia|]. simpl. by rewrite Hnext. }
    pose proof (next_ok used gen oev gen1 Hinv Hnext) as Hok. destruct oev as [ev|].
    2: { exfalso. unfold next in Hnext. rewrite decide_False in Hnext by lia. cbv zeta in Hnext.
         destruct (match live_orders_ _ with [] => _ | _ => _ end) as [b r].
         by apply bind_ok_inv in Hnext as ([ev g] & _ & [=]). }
    destruct Hok as (Hok & He & Hmx & _).
    destruct (session_step used engine ev [] Hses (event_ok_session _ _ _ _ [] Hok I))
      as (e1 & r & Hsub & Hses1 & _).
    destruct (clock k) as [t0 t1] eqn:Hclock.
    set (latency1 := record (u64 (t1 - t0)) latency).
    assert (forall i, record_all (measured clock k (S i)) latency = record_all (measured clock (S k) i) latency1)
      as Hrec by (intros i; unfold measured; simpl; by rewrite Hclock).
    assert (u64 (count_ latency + 1) = count_ latency1) as Hcnt by done.
    destruct (decide (duration < u64 (t1 - start))) as [Hd|Hd].
    { exists (S (fuel_bound engine ev)). left. exists 1%nat, e1, (used_after [ev] used). split; [lia|]. split; [done|].
      rewrite Hrec. intros latency' [|fuel] ef Hf Hef; [lia|]. simpl.
      rewrite Hnext, bind_ok, Hclock, (submit_mono (fuel_bound engine ev) ef _ _ _ ltac:(lia) Hsub), bind_ok.
      by rewrite decide_True. }
    assert (forall fuel ef, (S (fuel_bound engine ev) <= S fuel)%nat -> (S (fuel_bound engine ev) <= ef)%nat ->
      run_loop (S fuel) ef clock k start duration gen engine latency (count_ latency) =
      run_loop fuel ef clock (S k) start duration gen1 e1 latency1 (count_ latency1)) as Hstep.
    { intros fuel ef Hf Hef. simpl.
      rewrite Hnext, bind_ok, Hclock, (submit_mono (fuel_bound engine ev) ef _ _ _ ltac:(lia) Hsub), bind_ok.
      by rewrite decide_False. }
    destruct (IH (S k) gen1 e1 latency1 _ ltac:(lia) (event_ok_inv _ _ _ _ Hok) Hmid1 Hses1)
      as (n & [(j & e2 & used2 & Hj & Hses2 & Hrun)|[Hw Hrun]]); exists (S (Nat.max n (fuel_bound engine ev))).
    + left. exists (S j), e2, used2. split; [lia|]. split; [done|].
      rewrite Hrec. intros latency' [|fuel] ef Hf Hef; [lia|]. rewrite Hstep by lia. apply Hrun; lia.
    + right. rewrite <- Hcfg. split; [done|]. intros [|fuel] ef Hf Hef; [lia|]. rewrite Hstep by lia. apply Hrun; lia.
Qed.
End generator.

(** Only limit orders and cancels are generated. *)
Definition limit_or_cancel (ev : OrderEvent) : Prop :=
  match ev with NewOrderEvent o => o_type o = Limit | CancelOrderEvent _ _ => True | _ => False end.

Lemma next_limit_or_cancel `{Random} g ev g' : next g = Ok (Some ev, g') -> limit_or_cancel ev.
Proof.
  unfold next. case_decide; [done|]. destruct (match live_orders_ g with [] => _ | _ => _ end) as [[] r].
  - unfold generate_cancel. intros ([ev' g1] & Hc & [= <- <-])%bind_ok_inv.
    destruct (uniform_int _ _ _) as [idx r']. destruct (_ !! _); [|done]. by injection Hc as <- <-.
  - unfold generate_new_order. intros ([ev' g1] & Hc & [= <- <-])%bind_ok_inv.
    destruct (below _ _) as [b r1]. destruct (uniform_int _ _ _) as [q r2].
    by apply bind_ok_inv in Hc as ([price r3] & _ & [= <- <-]).
Qed.

Lemma generate_limit_or_cancel `{Random} n g evs g' :
  generate n g = Ok (evs, g') -> forall ev, ev ∈ evs -> limit_or_cancel ev.
Proof.
  revert g evs. induction n as [|n IH]; intros g evs; simpl; [intros [= <- <-] ev Hin; set_solver|].
  intros ([[ev|] g1] & Hn & Hr)%bind_ok_inv; [|by injection Hr as <- <-; intros ev Hin; set_solver].
  apply bind_ok_inv in Hr as ([evs' g2] & Hg & [= <- <-]). intros ev' [->|Hin]%elem_of_cons.
  - by eapply next_limit_or_cancel.
  - by eapply IH.
Qed.

(** The other members of the configuration have no influence: a generator
    with another configuration that agrees on the four members generates the
    same events. *)
Definition reconfigure `{Random} (c : EngineConfig) (g : SyntheticGenerator) : SyntheticGenerator :=
  mkGenerator c (mid_price_ g) (next_order_id_ g) (event_count_ g) (max_events_ g) (current_ts_ g)
    (live_orders_ g) (rng_ g).
Definition same_draws `{Random} (c1 c2 : EngineConfig) : Prop :=
  cfg_price_std_dev c1 = cfg_price_std_dev c2 /\ cfg_cancel_probability c1 = cfg_cancel_probability c2 /\
  cfg_market_maker_mode c1 = cfg_market_maker_mode c2.

Lemma next_reconfigure `{Random} c g :
  same_draws (config_ g) c ->
  next (reconfigure c g) = ('(ev, g') ← next g; Ok (ev, reconfigure c g')) /\
  forall ev g', next g = Ok (ev, g') -> config_ g' = config_ g.
Proof.
  intros (Hs & Hc & Hm). unfold next. simpl. case_decide; [split; [done|by intros ev g' [= <- <-]]|].
  rewrite Hc. destruct (match live_orders_ g with [] => _ | _ => _ end) as [[] r].
  - unfold generate_cancel. simpl. destruct (uniform_int _ _ _) as [idx r']. destruct (_ !! _); [|done].
    split; [done|]. by intros ev g' [= <- <-].
  - unfold generate_new_order, sample_price, market_maker_price. simpl. rewrite Hm, Hs.
    destruct (below _ _) as [b r1]. destruct (uniform_int 1 500 _) as [q r2].
    destruct (cfg_market_maker_mode c); [destruct (uniform_int 1 3 _) as [d r3]|destruct (normal _ _) as [d r3]].
    + destruct (i64 _); (split; [done|]); [|done..]. by intros ev g' [= <- <-].
    + destruct (i64 d); [|done..]. simpl. destruct (i64 _); (split; [done|]); [|done..]. by intros ev g' [= <- <-].
Qed.

Lemma generate_reconfigure `{Random} c n g :
  same_draws (config_ g) c ->
  generate n (reconfigure c g) = ('(evs, g') ← generate n g; Ok (evs, reconfigure c g')).
Proof.
  revert g. induction n as [|n IH]; intros g Hc; [done|]. simpl.
  destruct (next_reconfigure c g Hc) as [-> Hn]. destruct (next g) as [[[ev|] g1]| |]; try done. simpl.
  rewrite IH by by rewrite (Hn _ _ eq_refl). by destruct (generate n g1) as [[evs g2]| |].
Qed.

(** The scenarios [medium] and [large] generate the same events. *)
Theorem medium_is_large `{Random} max_events seeded n :
  (fst <$> match generate n (new_generator (get_scenario_config "large") max_events seeded) with Ok x => Some x | _ => None end) =
  (fst <$> match generate n (new_generator (get_scenario_config "medium") max_events seeded) with Ok x => Some x | _ => None end).
Proof.
  change (new_generator (get_scenario_config "large") max_events seeded) with
    (reconfigure (get_scenario_config "large") (new_generator (get_scenario_config "medium") max_events seeded)).
  rewrite generate_reconfigure by done. by destruct (generate _ _) as [[evs g]| |].
Qed.

(** The generated events form an admissible session: ids are fresh,
    quantities in range, and every cancel names an order generated before and
    not cancelled since; they are limit orders and cancels; at most
    [max_events] events are generated and the ids never wrap around. *)
Theorem generated_session `{RandomLaws} config max_events seeded n evs g :
  is_u64 max_events -> generate n (new_generator config max_events seeded) = Ok (evs, g) ->
  session_ok evs ∅ /\ cancels_live evs ∅ /\ (forall ev, ev ∈ evs -> limit_or_cancel ev) /\
  Z.of_nat (length evs) <= max_events.
Proof.
  intros Hm Hgen. pose proof (generate_limit_or_cancel _ _ _ _ Hgen). destruct (generate_session n ∅ _ evs g (new_generator_inv config max_events seeded Hm) Hgen)
    as (Hs & Hc & Hlen & Hmax).
  simpl in *. split_ands; [done..|lia].
Qed.

(** A benchmark run ends without undefined behaviour in generator or
    engine, whatever the clock shows, and the histogram holds the measured
    latencies of the processed events, at most 10^8, provided the mid price
    stays clear of the limits of [Price]; unless a wild price draw overflows. *)
Theorem benchmark_safe `{RandomLaws} clock start config seeded duration_sec :
  - 2 ^ 62 <= cfg_mid_price config < 2 ^ 62 ->
  exists n, (exists j engine used, Z.of_nat j <= 100000000 /\ session_inv used engine /\
    let latency := record_all (measured clock 0 j) empty_histogram in
    forall fuel engine_fuel, (n <= fuel)%nat -> (n <= engine_fuel)%nat ->
      run_scenario fuel engine_fuel clock start config seeded duration_sec = Ok (engine, latency, count_ latency)) \/
  (wild_draw config /\ forall fuel engine_fuel, (n <= fuel)%nat -> (n <= engine_fuel)%nat ->
      run_scenario fuel engine_fuel clock start config seeded duration_sec = Crash SignedOverflow).
Proof.
  intros Hmid.
  assert (is_u64 100000000) as Hm by done.
  destruct (run_loop_total clock start (u64 (duration_sec * 1000000000)) (Z.to_nat 100000000) 0
    (new_generator config 100000000 seeded) new_engine empty_histogram ∅) as (n & [(j & e & used & Hj & Hs & Hrun)|[Hw Hrun]]).
  - cbn [max_events_ event_count_ new_generator]. lia.
  - by apply new_generator_inv.
  - exact Hmid.
  - apply session_inv_new.
  - exists n. left. exists j, e, used. split_ands; [lia|done|exact Hrun].
  - exists n. right. split; [exact Hw|exact Hrun].
Qed.

(** ** Witnesses: a generator with constant draws *)

#[local] Instance demo_random : Random := {
  rng := nat;
  real := Z;
  literal n d := 10 * n / d;
  one_half := 5;
  below p r := (bool_decide (Z.of_nat r mod 10 < p), S r);
  uniform_int a b r := (a + Z.of_nat r mod (b - a + 1), S r);
  normal s r := (Z.of_nat r mod 7 - 3, S r);
}.

#[local] Instance demo_random_laws : RandomLaws.
Proof. split. intros a b r Hab. simpl. pose proof (Z.mod_pos_bound (Z.of_nat r) (b - a + 1)). lia. Qed.

Definition demo_config : EngineConfig := default_config.

Lemma generated_session_witness :
  exists evs g, generate 6 (new_generator demo_config 5 0%nat) = Ok (evs, g) /\ length evs = 5%nat /\
    session_ok evs ∅.
Proof.
  eexists _, _. split; [vm_compute; reflexivity|]. split; [reflexivity|].
  eapply (generated_session demo_config 5 0%nat 6); [done|vm_compute; reflexivity].
Defined.

(** Its draws are small. *)
Lemma demo_random_tame c : ~ @wild_draw demo_random c.
Proof. intros [_ [r Hr]]. apply Hr. simpl. pose proof (Z.mod_pos_bound (Z.of_nat r) 7). lia. Qed.
