(* ===== verification/Integration.v ===== *)
(** * Integration: the invariants of the integration test, for every run

    Model of [src/tests/unit/test_integration.cpp]: the checks on the book and
    the pending stops that the test makes after every 1000 of 100000 generated
    events. Here they are proved after every event of every session whose ids
    are new, whose modified orders are left alone and which has no icebergs and
    price changes; hence for every generator, as long as its price arithmetic
    does not overflow. *)

From S2P Require Import Prelude Types PriceLevel OrderBook BookProps Engine Market EngineRefine LevelRule.
From S2P Require Import EngineEvents Session SessionModify Trading Guarantees Exchange ExchangeProps Metrics Generator.

(** ** The checks *)

(** Each [ASSERT_...] is a boolean; [side_levels] is the loop over one side. *)
Definition side_levels (f : Price * PriceLevel -> bool) (s : Side) (b : OrderBook) : bool :=
  forallb f (iterate s b).

Definition ids_in_book (b : OrderBook) (level : PriceLevel) : bool :=
  forallb (fun id => has_order id b) (order_ids level).

Definition check_orders_exist_in_levels (b : OrderBook) : bool :=
  let ok s := side_levels (fun x => ids_in_book b x.2 && bool_decide (0 <= pl_total_volume x.2)) s b in
  ok Buy && ok Sell.

(** The loop with [prev]. *)
Fixpoint ordered (R : Price -> Price -> bool) (l : list (Price * PriceLevel)) : bool :=
  match l with
  | (prev, _) :: ((p, _) :: _) as rest => R prev p && ordered R rest
  | _ => true
  end.

Definition check_bid_ordering (b : OrderBook) : bool :=
  ordered (fun prev p => bool_decide (p < prev)) (iterate Buy b).
Definition check_ask_ordering (b : OrderBook) : bool :=
  ordered (fun prev p => bool_decide (prev < p)) (iterate Sell b).

Definition check_no_crossed_book (b : OrderBook) : bool :=
  match best_bid b, best_ask b with
  | Some bb, Some ba => bool_decide (bb < ba)
  | _, _ => true
  end.

(** [seen.insert(id).second] for the ids of a level, then of a side. *)
Fixpoint insert_new (b : OrderBook) (ids : list OrderId) (seen : gset OrderId) : bool * gset OrderId :=
  match ids with
  | [] => (true, seen)
  | id :: ids =>
      let '(ok, seen') := insert_new b ids ({[id]} ∪ seen) in
      (has_order id b && bool_decide (id ∉ seen) && ok, seen')
  end.
Definition check_id_map_consistency (b : OrderBook) : bool :=
  (insert_new b (concat (map (fun x => order_ids x.2) (iterate Buy b ++ iterate Sell b))) ∅).1.

Definition check_stop_exclusivity (b : OrderBook) (stops : list Order) : bool :=
  forallb (fun stop => negb (has_order (o_id stop) b)) stops.

Definition check_all_invariants (b : OrderBook) (stops : list Order) : bool :=
  check_orders_exist_in_levels b && check_bid_ordering b && check_ask_ordering b &&
  check_no_crossed_book b && check_id_map_consistency b && check_stop_exclusivity b stops.

(** ** The test *)

Section test.
Context `{Random}.

(** The [while] loop: at most [limit] events, a check after every 1000th; the
    result says whether all checks passed. *)
Fixpoint integration_loop (fuel engine_fuel : nat) (limit : Z) (gen : SyntheticGenerator)
    (engine : MatchingEngine) (event_count : Z) (passed : bool) : res (MatchingEngine * Z * bool) :=
  match fuel with
  | O => NoFuel
  | S fuel =>
      '(ev, gen) ← next gen;
      match ev with
      | None => Ok (engine, event_count, passed)
      | Some ev =>
          if decide (event_count < limit) then
            '(engine, _) ← submit engine_fuel engine ev;
            let event_count := u64 (event_count + 1) in
            let passed :=
              if decide (event_count mod 1000 = 0)
              then passed && check_all_invariants (book engine) (pending_stops engine) else passed in
            integration_loop fuel engine_fuel limit gen engine event_count passed
          else Ok (engine, event_count, passed)
      end
  end.

(** [TEST(Integration, InvariantCheckOver100kEvents)] with another number of
    events. *)
Definition integration_test (fuel engine_fuel : nat) (limit : Z) (seeded : rng) : res bool :=
  '(engine, event_count, passed) ←
    integration_loop fuel engine_fuel limit (new_generator default_config limit seeded) new_engine 0 true;
  Ok (passed && check_all_invariants (book engine) (pending_stops engine) && bool_decide (limit <= event_count)).
End test.

(** ** The checks hold in well-formed states *)

#[local] Instance volume_nonneg : LevelInvariant (fun l => 0 <= pl_total_volume l).
Proof.
  assert (forall v q, 0 <= v -> 0 <= saturating_sub v q) as Hsub.
  { intros v q Hv. unfold saturating_sub. case_decide; lia. }
  split; simpl; try by auto.
  - intros id v l _. apply u64_range.
  - intros l. by rewrite drain_volume.
  - intros f l Hl. unfold pop_front. destruct (pl_queue _); [done|]. apply post_ok. simpl.
    apply Hsub. by rewrite drain_volume.
Qed.

Definition volumes_ok (b : OrderBook) : Prop := levels_all (fun l => 0 <= pl_total_volume l) b.

Lemma order_ids_subset l id : id ∈ order_ids l -> id ∈ live l.
Proof. unfold order_ids. intros [Hc Hq]%list_elem_of_filter. by apply live_of_not_cancelled. Qed.

Lemma filter_live_of q c d :
  d ⊆ c -> filter (fun id => id ∉ c) (live_of q d) = filter (fun id => id ∉ c) q.
Proof.
  revert d. induction q as [|x q IH]; intros d Hd; [done|]. simpl. case_decide as Hx.
  - rewrite IH by set_solver. symmetry. rewrite filter_cons_False; [done|set_solver].
  - rewrite !filter_cons. by rewrite IH.
Qed.

Lemma order_ids_NoDup l : NoDup (live l) -> NoDup (order_ids l).
Proof.
  intros Hnd. unfold order_ids. rewrite <- (filter_live_of _ _ (pl_cancelled l)) by done.
  by apply NoDup_filter.
Qed.

Lemma ordered_sorted (R : Price -> Price -> bool) (l : list (Price * PriceLevel)) :
  StronglySorted (fun p q => R p q = true) l.*1 -> ordered R l = true.
Proof.
  induction l as [|[p lv] [|[q lw] l] IH]; intros Hs; [done..|]. simpl in Hs.
  inversion Hs as [|? ? Hs' Hall]; subst. apply Forall_cons in Hall as [Hpq _].
  change (R p q && ordered R ((q, lw) :: l) = true). rewrite Hpq. by apply IH.
Qed.

Lemma insert_new_ok b ids seen :
  NoDup ids -> (forall id, id ∈ ids -> has_order id b = true /\ id ∉ seen) ->
  (insert_new b ids seen).1 = true.
Proof.
  revert seen. induction ids as [|id ids IH]; intros seen Hnd Hids; [done|]. apply NoDup_cons in Hnd as [Hn Hnd].
  simpl. specialize (IH ({[id]} ∪ seen) Hnd). destruct (insert_new _ _ _) as [ok seen']. simpl in *.
  destruct (Hids id ltac:(set_solver)) as [-> Hs]. rewrite bool_decide_eq_true_2 by done. apply IH.
  intros id' Hid'. destruct (Hids id' ltac:(set_solver)) as [? ?]. split; [done|]. set_solver.
Qed.

Lemma elem_of_concat {A} (x : A) ls : x ∈ concat ls <-> exists l, l ∈ ls /\ x ∈ l.
Proof. rewrite list_elem_of_In, in_concat. by setoid_rewrite list_elem_of_In. Qed.

Section checks.
Context (K : gset OrderId) (e : MatchingEngine).
Context (Hwf : engine_wf K e).

Lemma book_ok : book_wf K (book e).
Proof using Hwf. exact (mstate_book_wf e [] empty_result (ewf_levels _ _ Hwf) (ewf_market _ _ Hwf)). Qed.

Lemma iterate_level s p l : (p, l) ∈ iterate s (book e) -> levels s (book e) !! p = Some l.
Proof using. unfold iterate. by rewrite map_sorted_elem. Qed.

(** An id at a level is the id of an order with that side and price. *)
Lemma order_ids_resting s p l id :
  (p, l) ∈ iterate s (book e) -> id ∈ order_ids l ->
  exists o, id_map (book e) !! id = Some o /\ o_side o = s /\ o_price o = p.
Proof using Hwf.
  intros Hl%iterate_level Hid%order_ids_subset. destruct book_ok as [_ Hb].
  apply (wf_indexed _ Hb s p id). rewrite s_queue_abs. by rewrite Hl.
Qed.

Lemma level_ids_NoDup s p l : (p, l) ∈ iterate s (book e) -> NoDup (order_ids l).
Proof using Hwf.
  intros Hl%iterate_level. apply order_ids_NoDup. destruct book_ok as [_ Hb].
  pose proof (wf_nodup _ Hb s p) as Hnd. rewrite s_queue_abs in Hnd. by rewrite Hl in Hnd.
Qed.

Lemma orders_exist : volumes_ok (book e) -> check_orders_exist_in_levels (book e) = true.
Proof using Hwf.
  intros Hvol.
  assert (forall s, side_levels (fun x => ids_in_book (book e) x.2 && bool_decide (0 <= pl_total_volume x.2)) s
    (book e) = true) as Hside.
  { intros s. apply forallb_forall. intros [p l] Hin%list_elem_of_In. apply andb_true_iff. split.
    - apply forallb_forall. intros id Hid%list_elem_of_In. apply bool_decide_eq_true.
      destruct (order_ids_resting _ _ _ _ Hin Hid) as (o & Ho & _). eauto.
    - apply bool_decide_eq_true. apply iterate_level in Hin. by eapply Hvol. }
  unfold check_orders_exist_in_levels. cbv zeta. by rewrite !Hside.
Qed.

Lemma sides_ordered : check_bid_ordering (book e) = true /\ check_ask_ordering (book e) = true.
Proof using.
  split; apply ordered_sorted; rewrite <- depth_prices; (eapply sorted_impl; [|apply depth_sorted]);
    intros p q [Hp Hne]; apply bool_decide_eq_true; simpl in Hp; lia.
Qed.

Lemma book_not_crossed : uncrossed (abs_book (book e)) -> check_no_crossed_book (book e) = true.
Proof using Hwf.
  intros Hun. unfold check_no_crossed_book.
  destruct (best_bid _) as [bb|] eqn:Hb; [|done]. destruct (best_ask _) as [ba|] eqn:Ha; [|done].
  apply (best_price_Some _ book_ok Buy) in Hb as [(i & x & Hx & Hxs & <-) _].
  apply (best_price_Some _ book_ok Sell) in Ha as [(j & y & Hy & Hys & <-) _].
  apply bool_decide_eq_true. by eapply Hun.
Qed.

(** No id appears at two levels: it would be an order with two prices. *)
Lemma all_ids_NoDup (entries : list (Side * (Price * PriceLevel))) :
  NoDup (map (fun x => (x.1, x.2.1)) entries) -> (forall s p l, (s, (p, l)) ∈ entries -> (p, l) ∈ iterate s (book e)) ->
  NoDup (concat (map (fun x => order_ids x.2.2) entries)).
Proof using Hwf.
  induction entries as [|[s [p l]] entries IH]; intros Hnd Hin; simpl; [constructor|].
  apply NoDup_cons in Hnd as [Hn Hnd]. apply NoDup_app. split_ands.
  - apply (level_ids_NoDup s p). apply Hin. set_solver.
  - intros id Hid (ids & ([s' [p' l']] & -> & Hx)%list_elem_of_fmap & Hid')%elem_of_concat. simpl in Hid'.
    destruct (order_ids_resting s p l id) as (o & Ho & <- & <-); [apply Hin; set_solver|done|].
    destruct (order_ids_resting s' p' l' id) as (o' & Ho' & <- & <-); [apply Hin; set_solver|done|].
    simplify_eq. apply Hn. apply list_elem_of_fmap. by eexists (_, (_, l')).
  - apply IH; [done|]. intros s' p' l' Hx. apply Hin. set_solver.
Qed.

Definition entries : list (Side * (Price * PriceLevel)) :=
  map (pair Buy) (iterate Buy (book e)) ++ map (pair Sell) (iterate Sell (book e)).

Lemma entries_iterate s p l : (s, (p, l)) ∈ entries -> (p, l) ∈ iterate s (book e).
Proof using.
  unfold entries. intros [(x & [= -> <-] & Hx)%list_elem_of_fmap|(x & [= -> <-] & Hx)%list_elem_of_fmap]%elem_of_app; done.
Qed.

Lemma entries_NoDup : NoDup (map (fun x => (x.1, x.2.1)) entries).
Proof using.
  assert (forall s, NoDup (map (fun x => (x.1, x.2.1)) (map (pair s) (iterate s (book e))))) as Hs.
  { intros s. rewrite map_map. simpl. rewrite <- (map_map fst (pair s)). apply (NoDup_fmap_2 (pair s)).
    unfold iterate. rewrite (map_sorted_perm (prio s)). apply NoDup_fst_map_to_list. }
  unfold entries. rewrite map_app. apply NoDup_app. split_ands; [apply Hs| |apply Hs].
  intros [s p] (x & [= -> _] & (y & -> & _)%list_elem_of_fmap)%list_elem_of_fmap
    (x' & [= Hx'] & (y' & -> & _)%list_elem_of_fmap)%list_elem_of_fmap. done.
Qed.

Lemma ids_consistent : check_id_map_consistency (book e) = true.
Proof using Hwf.
  unfold check_id_map_consistency.
  replace (map (fun x => order_ids x.2) (iterate Buy (book e) ++ iterate Sell (book e)))
    with (map (fun x => order_ids x.2.2) entries) by (unfold entries; by rewrite !map_app, !map_map).
  apply insert_new_ok.
  - apply all_ids_NoDup; [apply entries_NoDup|apply entries_iterate].
  - intros id (ids & ([s [p l]] & -> & Hx)%list_elem_of_fmap & Hid)%elem_of_concat. simpl in Hid.
    split; [|set_solver]. apply bool_decide_eq_true.
    destruct (order_ids_resting s p l id) as (o & Ho & _); [by apply entries_iterate|done|eauto].
Qed.

Lemma stops_exclusive : check_stop_exclusivity (book e) (pending_stops e) = true.
Proof using Hwf.
  apply forallb_forall. intros stop Hin%list_elem_of_In. apply negb_true_iff, bool_decide_eq_false.
  intros [o Ho]. pose proof (mwf_fresh _ (ewf_market _ _ Hwf) (o_id stop)) as Hfr. simpl in Hfr.
  rewrite Hfr in Ho; [done|]. unfold outside_ids. rewrite app_nil_r. by apply list_elem_of_fmap_2.
Qed.

Lemma checks_pass :
  volumes_ok (book e) -> uncrossed (abs_book (book e)) -> check_all_invariants (book e) (pending_stops e) = true.
Proof using Hwf.
  intros Hvol Hun. unfold check_all_invariants. destruct sides_ordered as [-> ->].
  by rewrite orders_exist, book_not_crossed, ids_consistent, stops_exclusive.
Qed.
End checks.

(** ** The checks along sessions *)

(** What makes the checks pass, besides well-formedness. *)
Definition orderly (e : MatchingEngine) : Prop :=
  typed_engine e /\ uncrossed (abs_book (book e)) /\ volumes_ok (book e).

Lemma orderly_new : orderly new_engine.
Proof.
  split; [|split; [|apply empty_book_all]].
  - split; [|constructor..]. intros i o. simpl. by rewrite lookup_empty.
  - intros i j x y. simpl. by rewrite lookup_empty.
Qed.

Lemma submit_orderly K e ev e' r :
  engine_wf K e -> admissible e ev -> ~ may_cross ev -> orderly e ->
  submit (fuel_bound e ev) e ev = Ok (e', r) -> orderly e'.
Proof.
  intros Hwf Hadm Hc (Hty & Hun & Hvol) Heq.
  destruct (submit_guarantees K e ev _ Hwf Hadm (le_n _) Hty) as (e1 & r1 & Heq1 & Hty1 & Hun1).
  rewrite Heq in Heq1. injection Heq1 as <- <-.
  split; [done|]. split; [by apply Hun1|]. exact (submit_all_levels _ _ e ev Hvol _ Heq).
Qed.

Lemma orderly_checks used moved e :
  modify_inv used moved e -> orderly e -> check_all_invariants (book e) (pending_stops e) = true.
Proof. intros (K & Hwf & _) (_ & Hun & Hvol). by apply (checks_pass K). Qed.

Lemma orderly_run evs : forall used moved e,
  modify_session_ok evs used moved -> Forall (fun ev => ~ may_cross ev) evs -> modify_inv used moved e -> orderly e ->
  exists n, forall fuel, (n <= fuel)%nat -> exists e' rs used' moved',
    submit_all fuel e evs = Ok (e', rs) /\ modify_inv used' moved' e' /\ orderly e'.
Proof.
  induction evs as [|ev evs IH]; intros used moved e Hok Hc Hinv He.
  { exists O. intros fuel _. by exists e, [], used, moved. }
  apply Forall_cons in Hc as [Hc Hcs]. destruct (modify_admissible used moved e ev evs Hinv Hok) as (K & Hwf & Hadm).
  destruct (modify_step used moved e ev evs Hinv Hok) as (e1 & r & Heq & Hinv1 & Hok1).
  pose proof (submit_orderly K e ev e1 r Hwf Hadm Hc He Heq) as He1.
  destruct (IH _ _ _ Hok1 Hcs Hinv1 He1) as (n & Hn). exists (Nat.max n (fuel_bound e ev)). intros fuel Hfuel.
  destruct (Hn fuel ltac:(lia)) as (e2 & rs & used' & moved' & Heq2 & Hinv2 & He2).
  exists e2, (r :: rs), used', moved'. split_ands; [|done|done].
  simpl. rewrite (submit_mono (fuel_bound e ev) fuel e ev _ ltac:(lia) Heq), bind_ok. by rewrite Heq2.
Qed.

(** C4. After every session of new, cancel, modify and replace events in which
    every submitted id is new, a modified order is not touched again, and no
    event is an iceberg or changes a price, the checks of the integration test
    pass: the ids at the levels are those of orders in the index, each at one
    level, bids fall and asks rise strictly, the book is not crossed, and no
    pending stop is in the book. *)
Theorem session_checks evs :
  modify_session_ok evs ∅ ∅ -> Forall (fun ev => ~ may_cross ev) evs ->
  exists n, forall fuel, (n <= fuel)%nat -> exists e rs,
    submit_all fuel new_engine evs = Ok (e, rs) /\ check_all_invariants (book e) (pending_stops e) = true.
Proof.
  intros Hok Hc. destruct (orderly_run evs ∅ ∅ new_engine Hok Hc modify_inv_new orderly_new) as (n & Hn).
  exists n. intros fuel Hf. destruct (Hn fuel Hf) as (e & rs & used & moved & Heq & Hinv & He).
  exists e, rs. split; [done|by eapply orderly_checks].
Qed.

(** ** The test passes *)

Lemma session_modify_inv used e : session_inv used e -> modify_inv used ∅ e.
Proof. intros (K & Hwf & HK & Hkn). exists K. split_ands; [done|done|]. intros i [? ?]%Hkn. done. Qed.

Lemma session_modify_ok ev used : session_ok [ev] used -> modify_session_ok [ev] used ∅.
Proof. destruct ev; simpl; set_solver. Qed.

Lemma limit_or_cancel_no_cross ev : limit_or_cancel ev -> ~ may_cross ev.
Proof. destruct ev; simpl; congruence. Qed.

(** The loop submits all events that the generator makes up to [limit], unless
    a wild price draw overflows. *)
Lemma integration_loop_passes `{RandomLaws} limit m : forall gen engine used,
  is_u64 limit -> Z.of_nat m = limit - event_count_ gen -> max_events_ gen = limit ->
  gen_inv used gen -> mid_ok gen -> session_inv used engine -> orderly engine ->
  exists n, (exists engine' used', session_inv used' engine' /\ orderly engine' /\
    forall fuel engine_fuel, (n <= fuel)%nat -> (n <= engine_fuel)%nat ->
      integration_loop fuel engine_fuel limit gen engine (event_count_ gen) true = Ok (engine', limit, true)) \/
  (wild_draw (config_ gen) /\ forall fuel engine_fuel, (n <= fuel)%nat -> (n <= engine_fuel)%nat ->
      integration_loop fuel engine_fuel limit gen engine (event_count_ gen) true = Crash SignedOverflow).
Proof.
  induction m as [|m IH]; intros gen engine used Hlim Hm Hmax Hinv Hmid Hses Hord.
  - exists 1%nat. left. exists engine, used. split_ands; [done|done|]. intros [|fuel] ef Hf _; [lia|]. simpl.
    unfold next. rewrite decide_True by lia. simpl. do 2 f_equal. f_equal. lia.
  - destruct (next_cases used gen Hinv Hmid) as [(oev & gen1 & Hnext & Hmid1 & Hcfg)|[Hnext Hw]].
    2: { exists 1%nat. right. split; [done|]. intros [|fuel] ef Hf _; [lia|]. simpl. by rewrite Hnext. }
    pose proof (next_ok used gen oev gen1 Hinv Hnext) as Hok. destruct oev as [ev|].
    2: { exfalso. unfold next in Hnext. rewrite decide_False in Hnext by lia. cbv zeta in Hnext.
         destruct (match live_orders_ _ with [] => _ | _ => _ end) as [b r].
         by apply bind_ok_inv in Hnext as ([ev g] & _ & [=]). }
    destruct Hok as (Hok & He & Hmx & Hlt).
    pose proof (event_ok_session _ _ _ _ [] Hok I) as Hsok.
    destruct (session_step used engine ev [] Hses Hsok) as (e1 & r & Hsub & Hses1 & _).
    destruct (modify_admissible used ∅ engine ev [] (session_modify_inv _ _ Hses) (session_modify_ok _ _ Hsok))
      as (K & Hwf & Hadm).
    pose proof (submit_orderly K engine ev e1 r Hwf Hadm
      (limit_or_cancel_no_cross _ (next_limit_or_cancel _ _ _ Hnext)) Hord Hsub) as Hord1.
    assert (forall fuel ef, (S (fuel_bound engine ev) <= ef)%nat ->
      integration_loop (S fuel) ef limit gen engine (event_count_ gen) true =
      integration_loop fuel ef limit gen1 e1 (event_count_ gen1) true) as Hstep.
    { intros fuel ef Hef. simpl. rewrite Hnext, bind_ok, decide_True by lia.
      rewrite (submit_mono (fuel_bound engine ev) ef _ _ _ ltac:(lia) Hsub), bind_ok.
      destruct Hinv as [(k & Hk & _) _ _]. rewrite u64_small by u64_lia. rewrite <- He.
      rewrite (orderly_checks _ _ _ (session_modify_inv _ _ Hses1) Hord1).
      replace (if decide _ then true && true else true) with true by by case_decide. done. }
    destruct (IH gen1 e1 _ Hlim ltac:(lia) ltac:(lia) (event_ok_inv _ _ _ _ Hok) Hmid1 Hses1 Hord1)
      as (n & [(e2 & used2 & Hses2 & Hord2 & Hrun)|[Hw Hrun]]); exists (S (Nat.max n (fuel_bound engine ev))).
    + left. exists e2, used2. split_ands; [done|done|].
      intros [|fuel] ef Hf Hef; [lia|]. rewrite Hstep by lia. apply Hrun; lia.
    + right. rewrite <- Hcfg. split; [done|]. intros [|fuel] ef Hf Hef; [lia|]. rewrite Hstep by lia. apply Hrun; lia.
Qed.

(** C5. The integration test passes for every random source and for any number
    of events, not only for the seed 42 and 100000 events: the engine takes all
    generated events without undefined behaviour and all checks hold after
    every 1000 of them and at the end. The only way to fail is undefined
    behaviour in the generator: the conversion or addition of a price sample
    overflows, for which the normal distribution must draw, with the standard
    deviation of the default configuration, a value that rounds to an integer
    outside [-2^62, 2^62). *)
Theorem integration_test_passes `{RandomLaws} limit seeded :
  is_u64 limit ->
  exists n,
    (forall fuel engine_fuel, (n <= fuel)%nat -> (n <= engine_fuel)%nat ->
      integration_test fuel engine_fuel limit seeded = Ok true) \/
    ((exists r, ~ (- 2 ^ 62 <= (normal (cfg_price_std_dev default_config) r).1 < 2 ^ 62)) /\
      forall fuel engine_fuel, (n <= fuel)%nat -> (n <= engine_fuel)%nat ->
        integration_test fuel engine_fuel limit seeded = Crash SignedOverflow).
Proof.
  intros Hlim.
  destruct (integration_loop_passes limit (Z.to_nat limit) (new_generator default_config limit seeded) new_engine ∅)
    as (n & [(e & used & Hses & Hord & Hrun)|[[_ Hw] Hrun]]); try done.
  - cbn [event_count_ new_generator]. unfold is_u64 in Hlim. lia.
  - by apply new_generator_inv.
  - apply session_inv_new.
  - apply orderly_new.
  - exists n. left. intros fuel ef Hf Hef. unfold integration_test.
    pose proof (Hrun fuel ef Hf Hef) as Heq. cbn [event_count_ new_generator] in Heq. rewrite Heq, bind_ok.
    rewrite (orderly_checks _ _ _ (session_modify_inv _ _ Hses) Hord). by rewrite bool_decide_eq_true_2.
  - exists n. right. split; [exact Hw|]. intros fuel ef Hf Hef. unfold integration_test.
    pose proof (Hrun fuel ef Hf Hef) as Heq. cbn [event_count_ new_generator] in Heq. by rewrite Heq.
Qed.

(** ** Witnesses *)

Definition checked_session : list OrderEvent :=
  [NewOrderEvent (demo_order 1 Sell 105 10); NewOrderEvent (demo_order 2 Buy 100 10);
   NewOrderEvent (demo_order 3 Buy 99 5); ModifyOrder (mkModify 2 0 4 0); NewOrderEvent (demo_order 4 Sell 100 6);
   CancelOrderEvent 3 0].

Lemma session_checks_witness :
  exists n, forall fuel, (n <= fuel)%nat -> exists e rs,
    submit_all fuel new_engine checked_session = Ok (e, rs) /\
    check_all_invariants (book e) (pending_stops e) = true.
Proof.
  apply (session_checks checked_session).
  - simpl. unfold qty_ranges. simpl. split_ands; try done; set_solver.
  - repeat constructor; simpl; congruence || lia.
Defined.

(** The checks can fail: a crossed book. *)
Lemma checks_detect_crossing :
  check_all_invariants (insert_order (demo_order 2 Buy 101 5) (insert_order (demo_order 1 Sell 100 5) empty_book)) []
  = false.
Proof. vm_compute. reflexivity. Qed.

Lemma integration_test_passes_witness :
  exists n, forall fuel engine_fuel, (n <= fuel)%nat -> (n <= engine_fuel)%nat ->
    @integration_test demo_random fuel engine_fuel 100000 0%nat = Ok true.
Proof.
  destruct (@integration_test_passes demo_random demo_random_laws 100000 0%nat) as (n & [Hrun|[Hw _]]); [by vm_compute| |].
  - exists n. exact Hrun.
  - exfalso. apply (demo_random_tame default_config). split; [reflexivity|exact Hw].
Defined.

(** A run of 30 events evaluates to the same. *)
Lemma integration_test_30 : @integration_test demo_random 40 40 30 0%nat = Ok true.
Proof. vm_compute. reflexivity. Qed.
