(* ===== verification/Snapshot.v ===== *)
(** * Snapshot: saving and loading a book

    Model of [src/src/snapshot/snapshot.hpp] and [snapshot.cpp]. Files are
    lists of bytes; integers are written in the little-endian byte order of
    the supported machines. An [Order] is written as its memory image, which
    the compiler defines: a parameter. *)

From S2P Require Import Prelude Types PriceLevel OrderBook BookProps Engine Market EngineRefine EngineEvents Session.

(** ** Bytes *)

Fixpoint le (n : nat) (z : Z) : list Z :=
  match n with O => [] | S n => z mod 256 :: le n (z / 256) end.
Definition of_le (bs : list Z) : Z := foldr (fun b acc => b + 256 * acc) 0 bs.

Lemma le_length n z : length (le n z) = n.
Proof. revert z. induction n as [|n IH]; intros z; simpl; [done|by rewrite IH]. Qed.

Lemma of_le_le n z : 0 <= z < 256 ^ Z.of_nat n -> of_le (le n z) = z.
Proof.
  revert z. induction n as [|n IH]; intros z Hz; simpl; [simpl in Hz; lia|].
  rewrite Nat2Z.inj_succ, Z.pow_succ_r in Hz by lia.
  pose proof (Z.div_mod z 256). rewrite IH; [lia|].
  split; [by apply Z.div_pos; lia|]. apply Z.div_lt_upper_bound; lia.
Qed.

Lemma of_le_u64 z : is_u64 z -> of_le (le 8 z) = z.
Proof. intros Hz. apply of_le_le. exact Hz. Qed.

Lemma of_le_u32 z : 0 <= z < 2 ^ 32 -> of_le (le 4 z) = z.
Proof. intros Hz. apply of_le_le. exact Hz. Qed.



Lemma i64_le z : is_i64 z -> to_i64 (of_le (le 8 (u64 z))) = z.
Proof.
  intros Hz. rewrite of_le_u64 by apply u64_range.
  unfold to_i64, u64, is_i64, two64 in *. destruct (decide (0 <= z)).
  - rewrite Z.mod_small by lia. rewrite decide_True; lia.
  - assert (z mod 2 ^ 64 = z + 2 ^ 64) as -> by (symmetry; apply Z.mod_unique with (-1); lia).
    rewrite decide_False by lia. lia.
Qed.

(** [sizeof(Order)], the memory image of an order and the order with a given
    image. *)
Class OrderLayout := {
  sizeof_order : nat;
  order_bytes : Order -> list Z;
  bytes_order : list Z -> Order;
}.
Class OrderLayoutLaws `{OrderLayout} := {
  order_bytes_length o : length (order_bytes o) = sizeof_order;
  bytes_order_bytes o : order_ranges o -> bytes_order (order_bytes o) = o;
}.

Section snapshot.
Context `{OrderLayout}.

Definition kMagic : Z := 1280262657.   (* 0x4C4F4201 *)

(** ** Saving *)

(** The orders of one side as they are written. *)
Definition side_orders (s : Side) (b : OrderBook) : list Order :=
  mjoin (map (fun '(price, level) => omap (fun id => find_order id b) (order_ids level)) (iterate s b)).

(** The bytes written to an open file. *)
Definition save_bytes (b : OrderBook) (pending_stops : list Order) (sequence : Z) : list Z :=
  le 4 kMagic ++ le 8 sequence ++ le 8 (u64 (last_trade_price b)) ++
  le 4 (order_count b mod 2 ^ 32) ++
  mjoin (map order_bytes (side_orders Buy b)) ++ mjoin (map order_bytes (side_orders Sell b)) ++
  le 4 (Z.of_nat (length pending_stops) mod 2 ^ 32) ++ mjoin (map order_bytes pending_stops).

(** What the file system does during a call of [save]: whether the file can be
    opened, how many bytes it has room for, and how many of the bytes the
    stream has handed over when [good()] is asked; the rest follows when the
    stream is closed. *)
Record disk := mkDisk { disk_opens : bool; disk_room : nat; disk_flushed : nat }.

(** The returned flag and the file after the call, [None] if there is none.
    Opening the file empties it; a write beyond the room fails, and the stream
    drops what follows. *)
Definition save (d : disk) (old : option (list Z)) (b : OrderBook) (pending_stops : list Order) (sequence : Z)
    : bool * option (list Z) :=
  if negb (disk_opens d) then (false, old)
  else
    let bytes := save_bytes b pending_stops sequence in
    (bool_decide (Nat.min (disk_flushed d) (length bytes) <= disk_room d)%nat, Some (take (disk_room d) bytes)).

(** ** Loading *)

(** The rest of the file and [good()]. *)
Record istream := mkIn { in_rest : list Z; in_good : bool }.

(** [read(p, n)] into an object with the bytes [old]: what it holds then. *)
Definition read (n : nat) (old : list Z) (st : istream) : list Z * istream :=
  if in_good st then
    if decide (n <= length (in_rest st))%nat then (take n (in_rest st), mkIn (drop n (in_rest st)) true)
    else (in_rest st ++ drop (length (in_rest st)) old, mkIn [] false)
  else (old, st).

(** [n] default-initialised orders, each then read. *)
Fixpoint read_orders (n : nat) (st : istream) : list Order * istream :=
  match n with
  | O => ([], st)
  | S n =>
      let '(bs, st) := read sizeof_order (order_bytes default_order) st in
      let '(os, st) := read_orders n st in
      (bytes_order bs :: os, st)
  end.

(** What follows the magic number. *)
Definition load_from (st : istream) (b : OrderBook) (sequence : Z)
    : OrderBook * list Order * Z * istream :=
  let '(seq, st) := read 8 (le 8 sequence) st in
  let '(ltp, st) := read 8 (le 8 0) st in
  let b := set_last_trade_price (to_i64 (of_le ltp)) b in
  let '(order_count, st) := read 4 (le 4 0) st in
  let '(orders, st) := read_orders (Z.to_nat (of_le order_count)) st in
  let b := foldl (fun b o => insert_order o b) b orders in
  let '(stop_count, st) := read 4 (le 4 0) st in
  let '(stops, st) := read_orders (Z.to_nat (of_le stop_count)) st in
  (b, stops, of_le seq, st).

(** [file] is [None] when it cannot be opened. The result is the returned flag
    and the three arguments after the call. *)
Definition load (file : option (list Z)) (b : OrderBook) (pending_stops : list Order) (sequence : Z)
    : bool * OrderBook * list Order * Z :=
  match file with
  | None => (false, b, pending_stops, sequence)
  | Some bytes =>
      let '(magic, st) := read 4 (le 4 0) (mkIn bytes true) in
      if decide (of_le magic <> kMagic) then (false, b, pending_stops, sequence)
      else
        let '(b, stops, seq, st) := load_from st b sequence in
        (in_good st, b, stops, seq)
  end.

(** ** Reading what was written *)

Lemma read_app n old bs rest :
  length bs = n -> read n old (mkIn (bs ++ rest) true) = (bs, mkIn rest true).
Proof.
  intros <-. unfold read. simpl. rewrite decide_True by (rewrite length_app; lia).
  by rewrite take_app_length, drop_app_length.
Qed.

Context `{!OrderLayoutLaws}.

Lemma read_orders_app os rest :
  Forall order_ranges os ->
  read_orders (length os) (mkIn (mjoin (map order_bytes os) ++ rest) true) = (os, mkIn rest true).
Proof.
  induction 1 as [|o os Ho _ IH]; [done|]. simpl. rewrite <- app_assoc.
  rewrite read_app by apply order_bytes_length. rewrite IH. by rewrite bytes_order_bytes.
Qed.
End snapshot.

(** ** Inserting a list of orders into a book of queues *)

Definition at_level (s : Side) (p : Price) (o : Order) : Prop := o_side o = s /\ o_price o = p.
#[global] Instance at_level_dec s p o : Decision (at_level s p o).
Proof. unfold at_level. apply _. Defined.

Definition insert_all (os : list Order) (b : OrderBook) : OrderBook := foldl (fun b o => insert_order o b) b os.
Definition s_insert_all (os : list Order) (b : sbook) : sbook := foldl (fun b o => s_insert o b) b os.

Lemma insert_all_abs K os b :
  levels_ok K b ->
  abs_book (insert_all os b) = s_insert_all os (abs_book b) /\ levels_ok K (insert_all os b).
Proof.
  revert b. induction os as [|o os IH]; intros b Hok; [done|]. simpl.
  destruct (abs_insert_order o b Hok) as [Habs Hok']. destruct (IH _ Hok') as [Habs' ?].
  by rewrite <- Habs.
Qed.

Lemma insert_all_ltp os b : last_trade_price (insert_all os b) = last_trade_price b.
Proof.
  revert b. induction os as [|o os IH]; intros b; [done|]. simpl. rewrite IH.
  unfold insert_order, put_level. by rewrite ltp_set_levels.
Qed.

Lemma s_insert_all_queue os b s p :
  s_queue s p (s_insert_all os b) = s_queue s p b ++ map o_id (filter (at_level s p) os).
Proof.
  revert b. induction os as [|o os IH]; intros b; simpl; [by rewrite app_nil_r|].
  rewrite IH. unfold s_insert, s_put_order. rewrite s_queue_set_queue, s_queue_set_orders, filter_cons.
  unfold at_level at 2. repeat case_decide; destruct_and?; subst; try tauto.
  by rewrite <- app_assoc.
Qed.

Lemma s_insert_all_orders os b :
  s_orders (s_insert_all os b) = foldl (fun m o => <[o_id o := o]> m) (s_orders b) os.
Proof.
  revert b. induction os as [|o os IH]; intros b; [done|]. simpl. rewrite IH.
  f_equal. unfold s_insert. by rewrite s_orders_set_queue.
Qed.

Lemma s_insert_all_level os b s p :
  (forall s p, s_levels s b !! p <> Some []) -> s_levels s (s_insert_all os b) !! p <> Some [].
Proof.
  revert b. induction os as [|o os IH]; intros b Hb; [apply Hb|]. simpl. apply IH. intros s' p'.
  unfold s_insert. rewrite s_levels_set_queue. case_decide; [by destruct (s_queue _ _ _)|].
  unfold s_put_order. rewrite s_levels_set_orders. apply Hb.
Qed.

Lemma insert_keys_lookup (os : list Order) (m : gmap OrderId Order) i o :
  NoDup (map o_id os) -> (forall x, x ∈ os -> m !! o_id x = None) ->
  foldl (fun m o => <[o_id o := o]> m) m os !! i = Some o <-> m !! i = Some o \/ (o ∈ os /\ o_id o = i).
Proof.
  revert m. induction os as [|x os IH]; intros m Hnd Hm; simpl; [set_solver|].
  apply NoDup_cons in Hnd as [Hx Hnd]. rewrite IH; [|done|].
  - specialize (Hm x ltac:(set_solver)). destruct (decide (o_id x = i)) as [<-|Hne].
    + rewrite lookup_insert_eq, Hm. split.
      * intros [[= ->]|[Ho Heq]]; [set_solver|]. exfalso. apply Hx. rewrite <- Heq. by apply list_elem_of_fmap_2.
      * intros [?|[[->|Ho]%elem_of_cons Heq]]; [done|by left|]. exfalso. apply Hx.
        rewrite <- Heq. by apply list_elem_of_fmap_2.
    + rewrite lookup_insert_ne by done. split; [set_solver|].
      intros [?|[[->|Ho]%elem_of_cons Heq]]; [by left|done|by right].
  - intros y Hy. rewrite lookup_insert_ne; [apply Hm; set_solver|].
    intros Heq. apply Hx. rewrite Heq. by apply list_elem_of_fmap_2.
Qed.

(** ** The orders of a well-formed book *)

Definition levels_clean (b : OrderBook) : Prop :=
  forall s p l, levels s b !! p = Some l -> level_clean l.

Lemma filter_mjoin_none {A} (f : A -> Z) (l : list (Z * list A)) p :
  (forall q c o, (q, c) ∈ l -> o ∈ c -> f o = q) -> p ∉ l.*1 -> filter (fun o => f o = p) (mjoin l.*2) = [].
Proof.
  induction l as [|[q c] l IH]; intros Hf Hp; [done|].
  rewrite fmap_cons in Hp. change (mjoin ((q, c) :: l).*2) with (c ++ mjoin l.*2).
  rewrite filter_app, IH by set_solver. rewrite app_nil_r.
  apply filter_none. intros o Ho Heq.
  rewrite (Hf q c o) in Heq by set_solver. set_solver.
Qed.

Lemma filter_mjoin {A} (f : A -> Z) (l : list (Z * list A)) p c :
  NoDup l.*1 -> (forall q c o, (q, c) ∈ l -> o ∈ c -> f o = q) -> (p, c) ∈ l ->
  filter (fun o => f o = p) (mjoin l.*2) = c.
Proof.
  induction l as [|[q c'] l IH]; intros Hnd Hf Hin; [by apply elem_of_nil in Hin|].
  rewrite fmap_cons in Hnd. change (mjoin ((q, c') :: l).*2) with (c' ++ mjoin l.*2).
  apply NoDup_cons in Hnd as [Hq Hnd]. simpl in Hq. rewrite filter_app.
  apply elem_of_cons in Hin as [[= -> ->]|Hin].
  - rewrite filter_mjoin_none by (try done; set_solver). rewrite app_nil_r.
    apply filter_all. intros o Ho. apply (Hf q c' o); set_solver.
  - rewrite IH by (try done; set_solver).
    assert (p ∈ l.*1) by (apply list_elem_of_fmap; by exists (p, c)).
    rewrite filter_none; [done|]. intros o Ho Heq.
    rewrite (Hf q c' o) in Heq by set_solver. by subst.
Qed.

Lemma NoDup_mjoin_keyed {A} (f : A -> Z) (l : list (Z * list A)) :
  NoDup l.*1 -> (forall q c o, (q, c) ∈ l -> o ∈ c -> f o = q) -> (forall q c, (q, c) ∈ l -> NoDup c) ->
  NoDup (mjoin l.*2).
Proof.
  induction l as [|[q c] l IH]; intros Hnd Hf Hc; [constructor|].
  rewrite fmap_cons in Hnd. apply NoDup_cons in Hnd as [Hq Hnd]. simpl in Hq.
  change (mjoin ((q, c) :: l).*2) with (c ++ mjoin l.*2). apply NoDup_app. split_ands.
  - apply (Hc q). set_solver.
  - intros o Ho (c' & Ho' & ([q' ?] & -> & Hin)%list_elem_of_fmap)%list_elem_of_join. simpl in *.
    apply Hq. apply list_elem_of_fmap. exists (q', l0). split; [|done]. simpl.
    rewrite <- (Hf q c o), <- (Hf q' l0 o); set_solver.
  - apply IH; [done|set_solver..].
Qed.

(** A book of queues without empty queues is determined by its queues. *)
Lemma sbook_eq_queues b1 b2 :
  (forall s p, s_levels s b1 !! p <> Some []) -> (forall s p, s_levels s b2 !! p <> Some []) ->
  (forall s p, s_queue s p b1 = s_queue s p b2) -> s_orders b1 = s_orders b2 -> b1 = b2.
Proof.
  intros H1 H2 Hq Ho. apply sbook_eq; [|done]. intros s p.
  specialize (H1 s p). specialize (H2 s p). specialize (Hq s p). unfold s_queue in Hq.
  destruct (s_levels s b1 !! p), (s_levels s b2 !! p); simpl in *; subst; congruence.
Qed.

Section saved.
Context {K : gset OrderId} (b : OrderBook) (Hwf : book_wf K b) (Hclean : levels_clean b).

Definition chunk (l : PriceLevel) : list Order := omap (fun id => find_order id b) (order_ids l).

(** The queue of a level and the orders its ids stand for. *)
Lemma chunk_ids s p l :
  levels s b !! p = Some l ->
  map o_id (chunk l) = live l /\
  (forall o, o ∈ chunk l <-> id_map b !! o_id o = Some o /\ at_level s p o).
Proof using Hwf Hclean.
  intros Hl. destruct Hwf as [Hok Hb]. destruct (Hok _ _ _ Hl) as (Hlwf & _ & _).
  unfold chunk. rewrite order_ids_live by eauto.
  assert (forall i, i ∈ live l <-> exists o, id_map b !! i = Some o /\ o_side o = s /\ o_price o = p) as Hix.
  { intros i. rewrite <- (wf_indexed _ Hb s p i). by rewrite s_queue_abs, Hl. }
  split.
  - assert (forall i, i ∈ live l -> exists o, find_order i b = Some o /\ o_id o = i) as Hfind.
    { intros i Hi%Hix. destruct Hi as (o & Ho & _). exists o. split; [done|]. by apply (wf_key _ Hb). }
    clear Hix. induction (live l) as [|i q IH]; [done|]. csimpl.
    destruct (Hfind i ltac:(set_solver)) as (o & -> & Hid). simpl. rewrite Hid, IH; [done|set_solver].
  - intros o. rewrite list_elem_of_omap. split.
    + intros (i & Hi & Ho). unfold find_order in Ho. pose proof (wf_key _ Hb _ _ Ho) as Hid.
      apply Hix in Hi as (o' & Ho' & Hat). assert (o' = o) as -> by congruence. by rewrite Hid.
    + intros (Ho & Hat). exists (o_id o). split; [|done]. apply Hix. by exists o.
Qed.

Lemma side_orders_elem s o : o ∈ side_orders s b <-> id_map b !! o_id o = Some o /\ o_side o = s.
Proof using Hwf Hclean.
  unfold side_orders. rewrite list_elem_of_join. split.
  - intros (c & Ho & ([p l] & -> & Hin)%list_elem_of_fmap). unfold iterate in Hin.
    apply map_sorted_elem in Hin.
    destruct (proj1 (proj2 (chunk_ids _ _ _ Hin) o) Ho) as (H1 & H2 & _). done.
  - intros (Ho & Hs). destruct (proj2 (level_iff_order b Hwf s (o_price o))) as [l Hl]; [by eauto|].
    exists (chunk l). split; [by apply (chunk_ids _ _ _ Hl)|].
    apply list_elem_of_fmap. exists (o_price o, l). split; [done|]. unfold iterate.
    by apply map_sorted_elem.
Qed.

(** The chunks of a side with their prices. *)
Definition keyed (s : Side) : list (Z * list Order) := map (fun '(p, l) => (p, chunk l)) (iterate s b).

Lemma keyed_elem s p c : (p, c) ∈ keyed s <-> exists l, levels s b !! p = Some l /\ c = chunk l.
Proof.
  unfold keyed. rewrite list_elem_of_fmap. split.
  - intros ([q l] & [= -> ->] & Hin). exists l. unfold iterate in Hin. by apply map_sorted_elem in Hin.
  - intros (l & Hl & ->). exists (p, l). split; [done|]. unfold iterate. by apply map_sorted_elem.
Qed.

Lemma keyed_nodup s : NoDup (keyed s).*1.
Proof.
  unfold keyed. rewrite <- list_fmap_compose.
  replace (list_fmap _ _ _ (iterate s b)) with (iterate s b).*1; [|apply list_fmap_ext; by intros ? []].
  unfold iterate. rewrite (map_sorted_perm (prio s)). apply NoDup_fst_map_to_list.
Qed.

Lemma keyed_price s q c o : (q, c) ∈ keyed s -> o ∈ c -> o_price o = q.
Proof using Hwf Hclean.
  intros (l & Hl & ->)%keyed_elem Ho. by destruct (proj1 (proj2 (chunk_ids _ _ _ Hl) o) Ho) as (_ & _ & H3).
Qed.

Lemma side_orders_keyed s : side_orders s b = mjoin (keyed s).*2.
Proof.
  unfold side_orders, keyed. rewrite <- list_fmap_compose. f_equal. apply list_fmap_ext. by intros ? [].
Qed.

Lemma side_orders_level s p l :
  levels s b !! p = Some l -> filter (at_level s p) (side_orders s b) = chunk l.
Proof using Hwf Hclean.
  intros Hl. rewrite (filter_ext_elem _ (fun o => o_price o = p)).
  2: { intros o [_ Hs]%side_orders_elem. unfold at_level. naive_solver. }
  rewrite side_orders_keyed. apply filter_mjoin; [apply keyed_nodup|apply keyed_price|].
  apply keyed_elem. eauto.
Qed.

(** What is saved: both sides. *)
Definition saved : list Order := side_orders Buy b ++ side_orders Sell b.

Lemma saved_elem o : o ∈ saved <-> id_map b !! o_id o = Some o.
Proof using Hwf Hclean.
  unfold saved. rewrite elem_of_app, !side_orders_elem. destruct (o_side o); naive_solver.
Qed.

Lemma saved_filter s p :
  map o_id (filter (at_level s p) saved) = s_queue s p (abs_book b).
Proof using Hwf Hclean.
  assert (filter (at_level s p) saved = filter (at_level s p) (side_orders s b)) as ->.
  { unfold saved. rewrite filter_app. destruct s.
    - rewrite (filter_none _ (side_orders Sell b)), app_nil_r; [done|].
      intros o [_ Hs]%side_orders_elem [? _]. congruence.
    - rewrite (filter_none _ (side_orders Buy b)); [done|].
      intros o [_ Hs]%side_orders_elem [? _]. congruence. }
  rewrite s_queue_abs. destruct (levels s b !! p) as [l|] eqn:Hl; simpl.
  - rewrite (side_orders_level s p l Hl). apply (chunk_ids s p l Hl).
  - rewrite filter_none; [done|]. intros o [Ho Hs]%side_orders_elem [_ Hp].
    destruct (proj2 (level_iff_order b Hwf s p)) as [? Hx]; [by eauto|]. congruence.
Qed.

Lemma saved_nodup : NoDup (map o_id saved).
Proof using Hwf Hclean.
  assert (forall s, NoDup (side_orders s b)) as Hnd.
  { intros s. rewrite side_orders_keyed. apply (NoDup_mjoin_keyed o_price); [apply keyed_nodup|apply keyed_price|].
    intros q c (l & Hl & ->)%keyed_elem. apply (NoDup_fmap_1 o_id). fold (map o_id (chunk l)).
    destruct (chunk_ids s q l Hl) as [Hids _].
    assert (map o_id (chunk l) = s_queue s q (abs_book b)) as Hq by (rewrite Hids, s_queue_abs, Hl; done).
    change (o_id <$> chunk l) with (map o_id (chunk l)). rewrite Hq. apply wf_nodup, Hwf. }
  apply NoDup_fmap_2_strong.
  - intros x y Hx%saved_elem Hy%saved_elem Heq. rewrite Heq in Hx. congruence.
  - apply NoDup_app. split_ands; [apply Hnd| |apply Hnd].
    intros o [_ Hb]%side_orders_elem [_ Hs]%side_orders_elem. congruence.
Qed.

Lemma saved_length : length saved = size (id_map b).
Proof using Hwf Hclean.
  rewrite <- (length_map o_id), <- length_map_to_list, <- (length_map fst).
  apply Permutation_length. apply NoDup_Permutation; [apply saved_nodup|apply NoDup_fst_map_to_list|].
  intros i. rewrite !list_elem_of_fmap. split.
  - intros (o & -> & Ho%saved_elem). exists (o_id o, o). split; [done|]. by apply elem_of_map_to_list.
  - intros ([j o] & -> & Ho%elem_of_map_to_list). exists o. destruct Hwf as [_ Hb].
    pose proof (wf_key _ Hb _ _ Ho) as Hid. split; [done|]. apply saved_elem. by rewrite Hid.
Qed.

Lemma saved_insert ltp :
  let b' := insert_all saved (set_last_trade_price ltp empty_book) in
  abs_book b' = abs_book b /\ levels_ok ∅ b' /\ last_trade_price b' = ltp.
Proof using Hwf Hclean.
  intros b'. assert (levels_ok ∅ (set_last_trade_price ltp empty_book)) as Hok.
  { intros s p l. destruct s; simpl; by rewrite lookup_empty. }
  destruct (insert_all_abs ∅ saved _ Hok) as [Habs Hok'].
  split; [|split; [done|by unfold b'; rewrite insert_all_ltp]]. unfold b'. rewrite Habs.
  apply sbook_eq_queues.
  - intros s p. apply s_insert_all_level. intros s' p'. rewrite s_levels_abs.
    by destruct s'; simpl; rewrite fmap_empty, lookup_empty.
  - apply wf_nonempty, Hwf.
  - intros s p. rewrite s_insert_all_queue, saved_filter. unfold s_queue at 1. rewrite s_levels_abs.
    by destruct s; simpl; rewrite fmap_empty, lookup_empty.
  - rewrite s_insert_all_orders. apply map_eq. intros i. apply option_eq. intros o. simpl.
    rewrite insert_keys_lookup; [|apply saved_nodup|intros ? _; by rewrite lookup_empty].
    rewrite lookup_empty, saved_elem. destruct Hwf as [_ Hb]. split.
    + by intros [?|[Ho <-]].
    + intros Ho. right. pose proof (wf_key _ Hb _ _ Ho) as Hid. by rewrite Hid.
Qed.
End saved.

(** ** Round trip and errors *)

Section files.
Context `{OrderLayoutLaws}.





(** What can be saved: the types of all fields, and counts below [2^32]. *)
Record savable (b : OrderBook) (stops : list Order) (seq : Z) : Prop := {
  sv_orders : forall i o, id_map b !! i = Some o -> order_ranges o;
  sv_stops : Forall order_ranges stops;
  sv_count : Z.of_nat (size (id_map b)) < 2 ^ 32;
  sv_stop_count : Z.of_nat (length stops) < 2 ^ 32;
  sv_seq : is_u64 seq;
  sv_ltp : is_i64 (last_trade_price b);
}.

Lemma mjoin_saved (b : OrderBook) :
  mjoin (map order_bytes (side_orders Buy b)) ++ mjoin (map order_bytes (side_orders Sell b)) =
  mjoin (map order_bytes (saved b)).
Proof. unfold saved. by rewrite map_app, join_app. Qed.

Lemma load_from_saved K b stops seq seq0 :
  book_wf K b -> levels_clean b -> savable b stops seq ->
  load_from (mkIn (drop 4 (save_bytes b stops seq)) true) empty_book seq0 =
  (insert_all (saved b) (set_last_trade_price (last_trade_price b) empty_book), stops, seq, mkIn [] true).
Proof.
  intros Hwf Hclean [Ho Hs Hc Hsc Hseq Hltp]. unfold save_bytes, load_from.
  rewrite (drop_app_length' (le 4 kMagic)) by by rewrite le_length.
  rewrite read_app, read_app by apply le_length.
  rewrite read_app by apply le_length. rewrite (app_assoc (mjoin _)), mjoin_saved.
  rewrite (of_le_u64 seq), i64_le by done.
  unfold order_count. rewrite Z.mod_small, of_le_u32 by lia.
  rewrite <- (saved_length b Hwf Hclean), Nat2Z.id, read_orders_app.
  2: { apply Forall_forall. intros o Hin%(saved_elem b Hwf Hclean). by eapply Ho. }
  rewrite read_app by apply le_length. rewrite Z.mod_small, of_le_u32 by lia.
  rewrite Nat2Z.id. rewrite <- (app_nil_r (mjoin (map order_bytes stops))), read_orders_app by done. done.
Qed.

Lemma read_magic b stops seq x :
  read 4 (le 4 0) (mkIn (save_bytes b stops seq ++ x) true) =
  (le 4 kMagic, mkIn (drop 4 (save_bytes b stops seq) ++ x) true).
Proof.
  unfold save_bytes. rewrite <- !app_assoc, read_app by apply le_length.
  rewrite (drop_app_length' (le 4 kMagic)) by by rewrite le_length. by rewrite <- !app_assoc.
Qed.


Lemma load_saved K b stops seq stops0 seq0 :
  book_wf K b -> levels_clean b -> savable b stops seq ->
  load (Some (save_bytes b stops seq)) empty_book stops0 seq0 =
  (true, insert_all (saved b) (set_last_trade_price (last_trade_price b) empty_book), stops, seq).
Proof.
  intros Hwf Hclean Hsv. unfold load. rewrite <- (app_nil_r (save_bytes b stops seq)) at 1.
  rewrite read_magic, app_nil_r, decide_False by (by vm_compute).
  by rewrite (load_from_saved K b stops seq seq0 Hwf Hclean Hsv).
Qed.
End files.


(** C37. A saved book is loaded again, when it is well-formed, its fields are in
    range, no resting order is also marked as cancelled at its level (books in
    which a modify has put an order back into its own level are not such and
    cannot be loaded, see [Findings]), and the file can be opened and has room
    for the bytes: both flags are set, stops and sequence number are the saved
    ones, and the loaded book has the same orders, the same queues at the same
    prices and the same last trade price; cancelled entries are gone. *)
Theorem snapshot_roundtrip `{OrderLayoutLaws} K b stops seq stops0 seq0 d old :
  book_wf K b -> levels_clean b -> savable b stops seq ->
  disk_opens d = true -> (length (save_bytes b stops seq) <= disk_room d)%nat ->
  exists file b', save d old b stops seq = (true, file) /\
    load file empty_book stops0 seq0 = (true, b', stops, seq) /\
    abs_book b' = abs_book b /\ last_trade_price b' = last_trade_price b /\ book_wf ∅ b'.
Proof.
  intros Hwf Hclean Hsv Hopen Hroom. eexists _, _. split.
  { unfold save. rewrite Hopen, bool_decide_true, take_ge by lia. done. }
  split; [by apply (load_saved K)|].
  destruct (saved_insert b Hwf Hclean (last_trade_price b)) as (Habs & Hok & Hltp).
  split_ands; [done|done|]. split; [done|]. rewrite Habs. apply Hwf.
Qed.


(** The flag of [save] says nothing about the bytes that the stream still
    holds: it can be set although the file has lost its end, and the previous
    snapshot with it. *)
Lemma save_flag_too_early `{OrderLayout} d old b stops seq :
  disk_opens d = true -> (disk_flushed d <= disk_room d)%nat ->
  save d old b stops seq = (true, Some (take (disk_room d) (save_bytes b stops seq))).
Proof. intros Hopen Hroom. unfold save. rewrite Hopen, bool_decide_true by lia. done. Qed.

(** Engines reached by sessions have clean levels: their books can be saved
    and loaded. *)
Lemma session_levels_clean used e : session_inv used e -> exists K, book_wf K (book e) /\ levels_clean (book e).
Proof.
  intros (K & Hwf & _ & Hkn).
  pose proof (mstate_book_wf _ [] empty_result (ewf_levels _ _ Hwf) (ewf_market _ _ Hwf)) as Hb.
  exists K. split; [done|]. intros s p l Hl i Hi Hlive. destruct Hb as [Hok Hb].
  destruct (Hok _ _ _ Hl) as (_ & _ & HK).
  assert (i ∈ s_queue s p (abs_book (book e))) as Hq by by rewrite s_queue_abs, Hl.
  apply (wf_indexed _ Hb) in Hq as (o & Ho & _).
  destruct (Hkn i) as [_ Hn]; [left; simpl; eauto|]. set_solver.
Qed.

(** ** Witnesses: a layout without padding *)

Definition side_code (s : Side) : Z := match s with Buy => 0 | Sell => 1 end.
Definition type_code (t : OrderType) : Z :=
  match t with Limit => 0 | Market => 1 | Stop => 2 | StopLimit => 3 | Iceberg => 4 end.
Definition status_code (s : OrderStatus) : Z :=
  match s with New => 0 | Resting => 1 | PartialFill => 2 | Filled => 3 | Cancelled => 4 | Rejected => 5 | Triggered => 6 end.

Definition packed_order (o : Order) : list Z :=
  le 8 (o_id o) ++ [side_code (o_side o); type_code (o_type o); status_code (o_status o)] ++
  le 8 (u64 (o_price o)) ++ le 8 (u64 (o_stop_price o)) ++ le 8 (o_quantity o) ++ le 8 (o_orig_qty o) ++
  le 8 (o_peak_qty o) ++ le 8 (o_reserve_qty o) ++ le 8 (o_timestamp o).

Definition slice (k n : nat) (bs : list Z) : Z := of_le (take n (drop k bs)).

Definition unpacked_order (bs : list Z) : Order :=
  mkOrder (slice 0 8 bs) (if decide (slice 8 1 bs = 0) then Buy else Sell)
    (default Limit ([Limit; Market; Stop; StopLimit; Iceberg] !! Z.to_nat (slice 9 1 bs)))
    (to_i64 (slice 11 8 bs)) (to_i64 (slice 19 8 bs)) (slice 27 8 bs) (slice 35 8 bs) (slice 43 8 bs)
    (slice 51 8 bs) (slice 59 8 bs)
    (default New ([New; Resting; PartialFill; Filled; Cancelled; Rejected; Triggered] !! Z.to_nat (slice 10 1 bs))).

#[local] Instance packed_layout : OrderLayout := {
  sizeof_order := 67;
  order_bytes := packed_order;
  bytes_order := unpacked_order;
}.

#[local] Instance packed_layout_laws : OrderLayoutLaws.
Proof.
  split; [done|]. intros [id s t p sp q oq pq rq ts st] (? & ? & ? & ? & ? & ? & ? & ?). simpl in *.
  unfold unpacked_order. f_equal.
  - by apply (of_le_u64 id).
  - by destruct s.
  - by destruct t.
  - by apply (i64_le p).
  - by apply (i64_le sp).
  - by apply (of_le_u64 q).
  - by apply (of_le_u64 oq).
  - by apply (of_le_u64 pq).
  - by apply (of_le_u64 rq).
  - by apply (of_le_u64 ts).
  - by destruct st.
Qed.

Lemma sample_book_clean : levels_clean sample_book.
Proof.
  intros s p l Hl i Hi. exfalso.
  assert (pl_cancelled l = ∅) as Hc; [|rewrite Hc in Hi; set_solver].
  destruct sample_book_wf as [Hok _]. destruct (Hok s p l Hl) as (_ & _ & HK). set_solver.
Qed.

Lemma sample_savable : savable sample_book [demo_order 9 Buy 90 4] 7.
Proof.
  split; [| |done|done|done|done].
  - intros i o [-> | ->]%sample_orders; unfold order_ranges; split_ands; done.
  - apply Forall_singleton. unfold order_ranges. split_ands; done.
Qed.

Definition demo_disk (room : nat) : disk := mkDisk true room 0.

Lemma snapshot_roundtrip_witness :
  exists file b', save (demo_disk 1000) None sample_book [demo_order 9 Buy 90 4] 7 = (true, file) /\
    load file empty_book [] 0 = (true, b', [demo_order 9 Buy 90 4], 7) /\
    abs_book b' = abs_book sample_book /\ last_trade_price b' = 0 /\ book_wf ∅ b'.
Proof.
  apply (snapshot_roundtrip ∅ sample_book [demo_order 9 Buy 90 4] 7 [] 0 (demo_disk 1000) None);
    [apply sample_book_wf|apply sample_book_clean|apply sample_savable|done|].
  apply (bool_decide_unpack _). vm_compute. exact I.
Defined.


(** A save that reports success and leaves a file that cannot be loaded. *)
Example save_success_lost :
  (save (demo_disk 50) None sample_book [] 7).1 = true /\
  (load (save (demo_disk 50) None sample_book [] 7).2 empty_book [] 0).1.1.1 = false.
Proof. split; vm_compute; reflexivity. Qed.
