(* ===== verification/Restore.v ===== *)
(** * Restore: continuing a session from a snapshot

    Model of the [--snapshot] part of [src/tools/replay.cpp]. Two engines with
    the same abstract market answer every session alike; hence a restored
    engine continues exactly like the saved one, although its price levels,
    volumes and deletion marks differ. *)

From S2P Require Import Prelude Types PriceLevel OrderBook BookProps Engine Market EngineRefine EngineEvents.
From S2P Require Import Session SessionModify Trading Guarantees Snapshot.

(** ** The replay tool's restore *)

Definition restore `{OrderLayout} (file : option (list Z)) : option MatchingEngine :=
  let '(ok, b, stops, seq) := load file empty_book [] 0 in
  if (ok : bool) then Some (mkEngine b 0 stops) else None.

(** ** Engines with the same market *)

Definition same_market (e1 e2 : MatchingEngine) : Prop :=
  mstate e1 [] empty_result = mstate e2 [] empty_result.

#[global] Instance same_market_equivalence : Equivalence same_market.
Proof.
  unfold same_market. split; [intros e; done|intros e1 e2 He; by symmetry|].
  intros e1 e2 e3 H1 H2. by transitivity (mstate e2 [] empty_result).
Qed.

Lemma same_market_eq e1 e2 :
  same_market e1 e2 <-> abs_book (book e1) = abs_book (book e2) /\
    last_trade_price (book e1) = last_trade_price (book e2) /\ pending_stops e1 = pending_stops e2.
Proof. unfold same_market, mstate. split; [intros Heq|intros (? & ? & ?); congruence].
  exact (conj (f_equal mk_book Heq) (conj (f_equal mk_ltp Heq) (f_equal mk_pending Heq))). Qed.

Lemma same_market_mstate e1 e2 st r : same_market e1 e2 -> mstate e1 st r = mstate e2 st r.
Proof. intros (H1 & H2 & H3)%same_market_eq. unfold mstate. congruence. Qed.

Lemma same_market_orders e1 e2 i : same_market e1 e2 -> id_map (book e1) !! i = id_map (book e2) !! i.
Proof.
  intros (H1 & _)%same_market_eq. change (id_map (book e1)) with (s_orders (abs_book (book e1))).
  by rewrite H1.
Qed.

Lemma mstate_result e1 e2 r1 r2 : mstate e1 [] r1 = mstate e2 [] r2 -> r1 = r2 /\ same_market e1 e2.
Proof.
  intros Heq. split; [exact (f_equal mk_result Heq)|]. apply same_market_eq.
  exact (conj (f_equal mk_book Heq) (conj (f_equal mk_ltp Heq) (f_equal mk_pending Heq))).
Qed.

(** ** One event *)

Lemma process_new_order_same K1 K2 e1 e2 o :
  engine_wf K1 e1 -> engine_wf K2 e2 -> fresh (o_id o) e1 -> fresh (o_id o) e2 -> qty_ranges o ->
  same_market e1 e2 ->
  exists e1' e2' r, process_new_order (fuel_bound e1 (NewOrderEvent o)) e1 o = Ok (e1', r) /\
    process_new_order (fuel_bound e2 (NewOrderEvent o)) e2 o = Ok (e2', r) /\ same_market e1' e2'.
Proof.
  intros H1 H2 Hf1 Hf2 Hr Hsame.
  destruct (process_new_order_total _ _ _ H1 Hf1 Hr) as (e1' & r1 & Heq1 & _ & Hs1).
  destruct (process_new_order_total _ _ _ H2 Hf2 Hr) as (e2' & r2 & Heq2 & _ & Hs2).
  rewrite (same_market_mstate _ _ _ _ Hsame) in Hs1.
  destruct (mstate_result e1' e2' r1 r2) as [<- ?]; [by eapply steps_deterministic|].
  by exists e1', e2', r1.
Qed.

Lemma process_cancel_same K1 K2 e1 e2 id ts :
  engine_wf K1 e1 -> engine_wf K2 e2 -> unmarked id (book e1) -> unmarked id (book e2) -> same_market e1 e2 ->
  (process_cancel e1 id ts).2 = (process_cancel e2 id ts).2 /\
  same_market (process_cancel e1 id ts).1 (process_cancel e2 id ts).1.
Proof.
  intros H1 H2 Hu1 Hu2 Hsame. pose proof (same_market_orders _ _ id Hsame) as Hid.
  pose proof Hsame as (Habs & Hltp & Hpend)%same_market_eq. unfold process_cancel, find_order. rewrite Hpend.
  destruct (list_find _ _) as [[i stop]|].
  - split; [done|]. apply same_market_eq. by split_ands.
  - rewrite Hid. destruct (id_map (book e2) !! id) as [o|] eqn:Ho; [|done].
    destruct (is_resting o); [|done]. split; [done|].
    destruct (engine_wf_remove _ _ _ _ H1 Hid Hu1) as (_ & Ha1 & _ & Hl1).
    destruct (engine_wf_remove _ _ _ _ H2 Ho Hu2) as (_ & Ha2 & _ & Hl2).
    apply same_market_eq. simpl in *. by rewrite Ha1, Ha2, Hl1, Hl2, Habs.
Qed.

Lemma process_replace_same K1 K2 e1 e2 old o :
  let ev := ReplaceOrderEvent old o in
  engine_wf K1 e1 -> engine_wf K2 e2 -> admissible e1 ev -> admissible e2 ev -> same_market e1 e2 ->
  exists e1' e2' r, process_replace (fuel_bound e1 ev) e1 old o = Ok (e1', r) /\
    process_replace (fuel_bound e2 ev) e2 old o = Ok (e2', r) /\ same_market e1' e2'.
Proof.
  intros ev H1 H2 Ha1 Ha2 Hsame. pose proof (same_market_orders _ _ old Hsame) as Hid.
  destruct (id_map (book e2) !! old) as [x|] eqn:Hx.
  2: { eexists _, _, _. by split_ands; [apply process_replace_reject..|]. }
  destruct (replace_run _ _ _ _ _ H1 Ha1 Hid) as (e1' & r1 & Heq1 & _ & _ & Hs1).
  destruct (replace_run _ _ _ _ _ H2 Ha2 Hx) as (e2' & r2 & Heq2 & _ & _ & Hs2).
  assert (replaced x o e1 = replaced x o e2) as Hrep.
  { apply same_market_eq in Hsame as (Habs & Hltp & Hpend). unfold replaced. by rewrite Habs, Hltp, Hpend. }
  rewrite Hrep in Hs1.
  destruct (mstate_result e1' e2' r1 r2) as [<- ?]; [by eapply steps_deterministic|].
  by exists e1', e2', r1.
Qed.

Lemma process_modify_same K1 K2 e1 e2 m :
  engine_wf K1 e1 -> engine_wf K2 e2 -> unmarked (m_order_id m) (book e1) -> unmarked (m_order_id m) (book e2) ->
  is_u64 (m_new_quantity m) -> same_market e1 e2 ->
  (process_modify e1 m).2 = (process_modify e2 m).2 /\
  same_market (process_modify e1 m).1 (process_modify e2 m).1.
Proof.
  intros H1 H2 Hu1 Hu2 Hq Hsame. pose proof (same_market_orders _ _ (m_order_id m) Hsame) as Hid.
  pose proof Hsame as (Habs & Hltp & Hpend)%same_market_eq. unfold process_modify, find_order. rewrite Hid.
  destruct (id_map (book e2) !! m_order_id m) as [o|] eqn:Ho; [|done]. destruct (is_resting o); [|done].
  match goal with |- context [if ?c then _ else _] => destruct c end.
  - fold (modified m o). split; [done|].
    destruct (engine_wf_remove _ _ _ _ H1 Hid Hu1) as ([Hok1 _] & Ha1 & _ & Hl1).
    destruct (engine_wf_remove _ _ _ _ H2 Ho Hu2) as ([Hok2 _] & Ha2 & _ & Hl2).
    destruct (abs_insert_order (modified m o) _ Hok1) as [Hi1 _]. destruct (abs_insert_order (modified m o) _ Hok2) as [Hi2 _].
    apply same_market_eq. simpl in *. rewrite Hi1, Hi2, Ha1, Ha2, Habs. split_ands; [done| |done].
    unfold insert_order. rewrite !ltp_put_level, !ltp_put_order. by rewrite Hl1, Hl2, Hltp.
  - destruct (decide _); [|done]. split; [done|].
    destruct (engine_wf_reduce _ _ _ _ _ (u64 (o_quantity o - m_new_quantity m)) H1 Hid Hq) as [_ Ha1].
    destruct (engine_wf_reduce _ _ _ _ _ (u64 (o_quantity o - m_new_quantity m)) H2 Ho Hq) as [_ Ha2].
    apply same_market_eq. simpl in *. rewrite Ha1, Ha2, Habs. split_ands; [done| |done].
    unfold reduce_level_volume, update_order_quantity. rewrite Hid, Ho.
    destruct (get_level _ _ (put_order _ _ (book e1))), (get_level _ _ (put_order _ _ (book e2)));
      by rewrite ?ltp_put_level, !ltp_put_order.
Qed.

Lemma set_sequence_modify used moved e n : modify_inv used moved e -> modify_inv used moved (mkEngine (book e) n (pending_stops e)).
Proof. intros (K & Hwf & HK & Hkn). exists K. split_ands; [by apply set_sequence_wf|done|exact Hkn]. Qed.

Definition fuel_for (e1 e2 : MatchingEngine) (ev : OrderEvent) : nat :=
  Nat.max (fuel_bound e1 ev) (fuel_bound e2 ev).

Lemma submit_same used moved e1 e2 ev evs :
  modify_inv used moved e1 -> modify_inv used moved e2 -> modify_session_ok (ev :: evs) used moved ->
  same_market e1 e2 ->
  exists e1' e2' r, submit (fuel_for e1 e2 ev) e1 ev = Ok (e1', r) /\
    submit (fuel_for e1 e2 ev) e2 ev = Ok (e2', r) /\ same_market e1' e2'.
Proof.
  intros Hi1 Hi2 Hok Hsame.
  set (f1 := mkEngine (book e1) (u64 (sequence e1 + 1)) (pending_stops e1)).
  set (f2 := mkEngine (book e2) (u64 (sequence e2 + 1)) (pending_stops e2)).
  assert (same_market f1 f2) as Hsf by done.
  destruct (modify_admissible used moved f1 ev evs) as (K1 & H1 & Ha1); [by apply set_sequence_modify|done|].
  destruct (modify_admissible used moved f2 ev evs) as (K2 & H2 & Ha2); [by apply set_sequence_modify|done|].
  assert (exists e1' e2' r, submit (fuel_bound e1 ev) e1 ev = Ok (e1', r) /\
    submit (fuel_bound e2 ev) e2 ev = Ok (e2', r) /\ same_market e1' e2') as (e1' & e2' & r & Hr1 & Hr2 & Hs').
  { destruct ev as [o|id ts|m|old o].
    - destruct Ha1 as [? ?], Ha2 as [? ?]. by apply (process_new_order_same K1 K2 f1 f2).
    - destruct (process_cancel_same K1 K2 f1 f2 id ts H1 H2 Ha1 Ha2 Hsf) as [Hr Hs].
      exists (process_cancel f1 id ts).1, (process_cancel f2 id ts).1, (process_cancel f1 id ts).2.
      unfold submit. fold f1 f2. split_ands; [by rewrite <- surjective_pairing| |done].
      by rewrite Hr, <- surjective_pairing.
    - destruct Ha1 as [Hu1 Hq], Ha2 as [Hu2 _].
      destruct (process_modify_same K1 K2 f1 f2 m H1 H2 Hu1 Hu2 Hq Hsf) as [Hr Hs].
      exists (process_modify f1 m).1, (process_modify f2 m).1, (process_modify f1 m).2.
      unfold submit. fold f1 f2. split_ands; [by rewrite <- surjective_pairing| |done].
      by rewrite Hr, <- surjective_pairing.
    - by apply (process_replace_same K1 K2 f1 f2). }
  exists e1', e2', r. unfold fuel_for. split_ands; [..|done].
  - apply (submit_mono (fuel_bound e1 ev)); [lia|done].
  - apply (submit_mono (fuel_bound e2 ev)); [lia|done].
Qed.

(** ** Sessions *)

Lemma submit_all_same evs : forall used moved e1 e2,
  modify_inv used moved e1 -> modify_inv used moved e2 -> modify_session_ok evs used moved -> same_market e1 e2 ->
  exists n, forall fuel, (n <= fuel)%nat -> exists e1' e2' rs,
    submit_all fuel e1 evs = Ok (e1', rs) /\ submit_all fuel e2 evs = Ok (e2', rs) /\ same_market e1' e2'.
Proof.
  induction evs as [|ev evs IH]; intros used moved e1 e2 Hi1 Hi2 Hok Hsame.
  { exists O. intros fuel _. by exists e1, e2, []. }
  destruct (submit_same used moved e1 e2 ev evs Hi1 Hi2 Hok Hsame) as (e1' & e2' & r & Hr1 & Hr2 & Hs').
  destruct (modify_step used moved e1 ev evs Hi1 Hok) as (x1 & y1 & Hx1 & Hj1 & Hok').
  destruct (modify_step used moved e2 ev evs Hi2 Hok) as (x2 & y2 & Hx2 & Hj2 & _).
  apply (submit_mono _ (fuel_for e1 e2 ev)) in Hx1; [|unfold fuel_for; lia].
  apply (submit_mono _ (fuel_for e1 e2 ev)) in Hx2; [|unfold fuel_for; lia].
  rewrite Hr1 in Hx1. injection Hx1 as <- <-. rewrite Hr2 in Hx2. injection Hx2 as <- <-.
  destruct (IH _ _ _ _ Hj1 Hj2 Hok' Hs') as (n & Hn).
  exists (Nat.max n (fuel_for e1 e2 ev)). intros fuel Hf.
  destruct (Hn fuel ltac:(lia)) as (z1 & z2 & rs & Hz1 & Hz2 & Hz). exists z1, z2, (r :: rs). simpl.
  assert (fuel_for e1 e2 ev <= fuel)%nat as Hle by lia.
  rewrite (submit_mono _ fuel _ _ _ Hle Hr1), (submit_mono _ fuel _ _ _ Hle Hr2), !bind_ok.
  by rewrite Hz1, Hz2.
Qed.

(** A restored engine satisfies the invariant of the session again: it has no
    deletion marks. *)
Lemma restored_inv used moved e e' :
  modify_inv used moved e -> same_market e' e -> book_wf ∅ (book e') -> modify_inv used moved e'.
Proof.
  intros (K & [Hok Hm] & HK & Hkn) Hsame [Hok' _]. exists ∅. split_ands; [|set_solver|].
  - split; [done|]. by rewrite (same_market_mstate _ _ _ _ Hsame).
  - intros i Hi. unfold knows in Hi. rewrite (same_market_mstate _ _ _ _ Hsame) in Hi. apply Hkn in Hi. set_solver.
Qed.

(** Saving and restoring an engine that a session has reached. *)
Lemma restore_saved `{OrderLayoutLaws} used moved e seq :
  modify_inv used moved e -> levels_clean (book e) -> savable (book e) (pending_stops e) seq ->
  exists e', restore (Some (save_bytes (book e) (pending_stops e) seq)) = Some e' /\ same_market e' e /\
    modify_inv used moved e'.
Proof.
  intros Hinv Hclean Hsv. pose proof Hinv as (K & Hew & _).
  pose proof (mstate_book_wf _ [] empty_result (ewf_levels _ _ Hew) (ewf_market _ _ Hew)) as Hwf.
  set (b' := insert_all (saved (book e)) (set_last_trade_price (last_trade_price (book e)) empty_book)).
  destruct (saved_insert (book e) Hwf Hclean (last_trade_price (book e))) as (Habs & Hlv & Hltp).
  fold b' in Habs, Hlv, Hltp.
  assert (same_market (mkEngine b' 0 (pending_stops e)) e) as Hsame by by apply same_market_eq.
  exists (mkEngine b' 0 (pending_stops e)). split_ands; [|done|].
  - unfold restore. by rewrite (load_saved K (book e) (pending_stops e) seq [] 0 Hwf Hclean Hsv).
  - apply (restored_inv used moved e); [done..|]. split; [done|]. simpl. rewrite Habs. apply Hwf.
Qed.

(** C35. Take an engine that a session of new, cancel, modify and replace
    events has reached, with fresh ids and no order touched again after a
    modify, in which no resting order is also marked as cancelled at its level
    (always so without modifies) and whose fields are in their ranges. Saving
    and restoring it gives an engine that continues every such session exactly
    like the saved one: all results, trades included, are equal, and the two
    engines keep the same orders, queues, last price and pending stops. *)
Theorem restore_continues `{OrderLayoutLaws} used moved e seq evs :
  modify_inv used moved e -> levels_clean (book e) -> savable (book e) (pending_stops e) seq ->
  modify_session_ok evs used moved ->
  exists e', restore (Some (save_bytes (book e) (pending_stops e) seq)) = Some e' /\ same_market e' e /\
    exists n, forall fuel, (n <= fuel)%nat -> exists e1 e2 rs,
      submit_all fuel e evs = Ok (e1, rs) /\ submit_all fuel e' evs = Ok (e2, rs) /\ same_market e1 e2.
Proof.
  intros Hinv Hclean Hsv Hok. destruct (restore_saved used moved e seq Hinv Hclean Hsv) as (e' & He' & Hsame & Hinv').
  exists e'. split_ands; [done..|]. apply (submit_all_same evs used moved); [done..|by symmetry].
Qed.

(** ** Sessions without modifies reach engines whose levels are clean *)

Lemma session_reaches used e : session_inv used e -> modify_inv used ∅ e /\ levels_clean (book e).
Proof.
  intros Hs. split; [|by destruct (session_levels_clean used e Hs) as (? & _ & ?)].
  destruct Hs as (K & Hwf & HK & Hkn). exists K. split_ands; [done|done|]. intros i [? ?]%Hkn. done.
Qed.

(** ** Witness: an engine with one resting order *)

#[local] Existing Instances packed_layout packed_layout_laws.

Lemma demo_session_inv : session_inv {[1]} demo_engine.
Proof.
  exists ∅. split_ands; [apply demo_engine_wf|set_solver|].
  intros i [[x Hx]|Hi]; [|by apply elem_of_nil in Hi].
  simpl in Hx. apply lookup_insert_Some in Hx as [[<- _]|[_ Hx]]; [set_solver|by rewrite lookup_empty in Hx].
Qed.

(** A limit order, a modify event that reduces the resting order, a cancel. *)
Definition demo_events : list OrderEvent :=
  [NewOrderEvent (demo_order 2 Buy 100 4); ModifyOrder (mkModify 1 0 5 7); CancelOrderEvent 2 0].

Lemma demo_savable seq : is_u64 seq -> savable (book demo_engine) (pending_stops demo_engine) seq.
Proof. intros Hs. split; [|constructor|done|done|done|done]. intros i o ->%demo_orders. unfold order_ranges. by split_ands. Qed.

Lemma restore_continues_witness :
  exists e', restore (Some (save_bytes (book demo_engine) [] 5)) = Some e' /\
    exists n, forall fuel, (n <= fuel)%nat -> exists e1 e2 rs,
      submit_all fuel demo_engine demo_events = Ok (e1, rs) /\ submit_all fuel e' demo_events = Ok (e2, rs).
Proof.
  destruct (session_reaches {[1]} demo_engine demo_session_inv) as [Hinv Hclean].
  destruct (restore_continues {[1]} ∅ demo_engine 5 demo_events Hinv Hclean) as (e' & He' & _ & n & Hn).
  - by apply demo_savable.
  - simpl. split_ands; [set_solver| |set_solver|done|set_solver|done]. unfold qty_ranges. simpl. split_ands; done.
  - exists e'. split; [exact He'|]. exists n. intros fuel Hf.
    destruct (Hn fuel Hf) as (e1 & e2 & rs & H1 & H2 & _). exists e1, e2, rs. split; [exact H1|exact H2].
Defined.
