(* ===== verification/Commands.v ===== *)
(** * Commands: the command lines of the three programs

    Model of the option parsing and the composition in
    [src/src/exchange_main.cpp], [src/benchmarks/bench_main.cpp] and
    [src/tools/replay.cpp], with [GatewayConfig] and the constructors of
    [Gateway], [EventDispatcher] and [ReplayLogger]. The arguments are those
    after the name of the program; [unsigned long] has 64 bits. *)

From stdpp Require Import pretty.
From S2P Require Import Prelude Types PriceLevel OrderBook Engine Market EngineRefine EngineEvents Session.
From S2P Require Import Exchange Csv CsvProps Ring Serializer Gateway Lifecycle Double Metrics Generator Snapshot Restore.

(** What parsing the options leads to: the program runs with [a], exits with a
    code, or is terminated by an uncaught exception. *)
Inductive outcome (A : Type) :=
| Run (a : A)
| Exit (code : Z)
| Throw (e : csv_error).
Arguments Run {A} a.
Arguments Exit {A} code.
Arguments Throw {A} e.

(** ** GatewayConfig *)

Section gateway_config.
Context `{Random}.

Record GatewayConfig := mkGatewayConfig {
  pull_endpoint : string;
  pub_endpoint : string;
  snapshot_interval_ms : Z;
  replay_log_path : string;
  engine_config : EngineConfig;
  inbound_queue_capacity : Z;
  outbound_queue_capacity : Z;
  replay_queue_capacity : Z;
}.

Definition default_gateway_config : GatewayConfig :=
  mkGatewayConfig "tcp://*:5555" "tcp://*:5556" 100 "logs/replay.ndjson" default_config 65536 65536 65536.

Definition set_pull (v : string) (c : GatewayConfig) : GatewayConfig :=
  mkGatewayConfig v (pub_endpoint c) (snapshot_interval_ms c) (replay_log_path c) (engine_config c)
    (inbound_queue_capacity c) (outbound_queue_capacity c) (replay_queue_capacity c).
Definition set_pub (v : string) (c : GatewayConfig) : GatewayConfig :=
  mkGatewayConfig (pull_endpoint c) v (snapshot_interval_ms c) (replay_log_path c) (engine_config c)
    (inbound_queue_capacity c) (outbound_queue_capacity c) (replay_queue_capacity c).
Definition set_interval (v : Z) (c : GatewayConfig) : GatewayConfig :=
  mkGatewayConfig (pull_endpoint c) (pub_endpoint c) v (replay_log_path c) (engine_config c)
    (inbound_queue_capacity c) (outbound_queue_capacity c) (replay_queue_capacity c).
Definition set_log_path (v : string) (c : GatewayConfig) : GatewayConfig :=
  mkGatewayConfig (pull_endpoint c) (pub_endpoint c) (snapshot_interval_ms c) v (engine_config c)
    (inbound_queue_capacity c) (outbound_queue_capacity c) (replay_queue_capacity c).

(** ** exchange_main.cpp *)

(** The last two branches, for an argument that takes no value. *)
Definition exchange_flag (arg : string) : outcome GatewayConfig :=
  if decide (arg = "--help" \/ arg = "-h") then Exit 0 else Exit 1.

Fixpoint exchange_args (args : list string) (cfg : GatewayConfig) : outcome GatewayConfig :=
  match args with
  | [] => Run cfg
  | [arg] => exchange_flag arg
  | arg :: (v :: rest) as args' =>
      if decide (arg = "--pull") then exchange_args rest (set_pull v cfg)
      else if decide (arg = "--pub") then exchange_args rest (set_pub v cfg)
      else if decide (arg = "--snapshot-interval") then
        match stoull v with
        | inr ms => exchange_args rest (set_interval ms cfg)
        | inl e => Throw e
        end
      else if decide (arg = "--log-path") then exchange_args rest (set_log_path v cfg)
      else exchange_flag arg
  end.

(** ** The constructors *)

(** The ring buffers of [EventDispatcher], [ReplayLogger] and [Gateway]:
    [assert((capacity & (capacity - 1)) == 0)] on [uint32_t], then [capacity]
    default slots and the mask. *)
Definition queue_new {A} (capacity : Z) (slot : A) : res (ring A) :=
  let mask := (capacity - 1) mod 2 ^ 32 in
  if decide (Z.land capacity mask = 0) then Ok (mkRing 32 mask 0 0 (replicate (Z.to_nat capacity) slot))
  else Crash AssertFailed.

Definition default_message : OrderMessage := mkMessage 0 0 "" Buy Limit 0 0 0 0 0 NewOrder.
Definition default_event : ExchangeEvent := EvAccepted (mkAccepted 0 "" 0 0 0 0 Buy Limit).

Definition dispatcher_new (queue_capacity : Z) : res (EventDispatcher (QE := ring ExchangeEvent)) :=
  q ← queue_new queue_capacity default_event; Ok (mkDispatcher q 0 []).
Definition replay_new (queue_capacity : Z) : res (ReplayLogger (QS := ring string)) :=
  q ← queue_new queue_capacity EmptyString; Ok (mkReplay q 0 []).

(** The members in the order of their declaration, then the body. *)
Definition gateway_new (config : GatewayConfig)
    : res (Gateway (QM := ring OrderMessage) (QE := ring ExchangeEvent) (QS := ring string)) :=
  dispatcher ← dispatcher_new (outbound_queue_capacity config);
  replay ← replay_new (replay_queue_capacity config);
  inbound ← queue_new (inbound_queue_capacity config) default_message;
  Ok (mkGateway new_exchange dispatcher replay inbound 0).

(** [main] up to [gw.start()]: the interval and the initial state of the
    program of [Lifecycle]. *)
Definition exchange_main (args : list string)
    : outcome (res (Z * program (QM := ring OrderMessage) (QE := ring ExchangeEvent) (QS := ring string))) :=
  match exchange_args args default_gateway_config with
  | Run cfg =>
      Run (g ← gateway_new cfg;
           Ok (snapshot_interval_ms cfg,
               mkProgram (mkService g [] [] [] [] [] [] [] [] []) MBind RNone XNone PNone WNone
                 false false false false 0))
  | Exit code => Exit code
  | Throw e => Throw e
  end.

(** ** bench_main.cpp *)

Record BenchmarkRunner := mkRunner {
  scenario_ : string;
  seed_ : Z;
  duration_sec_ : Z;
  runner_config : EngineConfig;
}.

Definition runner_new (scenario : string) (seed duration_sec : Z) : BenchmarkRunner :=
  mkRunner scenario seed duration_sec (get_scenario_config scenario).

(** The runners that [main] runs one after the other. *)
Fixpoint bench_args (args : list string) (scenario : string) (seed duration_sec : Z)
    : outcome (list BenchmarkRunner) :=
  match args with
  | [] => Run [runner_new scenario seed duration_sec]
  | arg :: args' =>
      match args' with
      | v :: rest =>
          if decide (arg = "--scenario") then bench_args rest v seed duration_sec
          else if decide (arg = "--seed") then
            match stoull v with inr n => bench_args rest scenario n duration_sec | inl e => Throw e end
          else if decide (arg = "--duration") then
            match stoull v with inr n => bench_args rest scenario seed (n mod 2 ^ 32) | inl e => Throw e end
          else if decide (arg = "--all") then Run (map (fun s => runner_new s seed duration_sec) kScenarioNames)
          else Exit 1
      | [] =>
          if decide (arg = "--all") then Run (map (fun s => runner_new s seed duration_sec) kScenarioNames)
          else Exit 1
      end
  end.

Definition bench_main (args : list string) : outcome (list BenchmarkRunner) := bench_args args "medium" 42 10.

(** [BenchmarkRunner::run]; [seeded] is the random engine for a seed. *)
Definition run_benchmark (fuel engine_fuel : nat) (clock : nat -> Z * Z) (start : Z) (seeded : Z -> rng)
    (b : BenchmarkRunner) : res (MatchingEngine * LatencyHistogram * Z) :=
  run_scenario fuel engine_fuel clock start (runner_config b) (seeded (seed_ b)) (duration_sec_ b).

(** [BenchmarkRunner::report]. A duration of 0 makes the throughput infinite
    or not a number. *)
Definition report (b : BenchmarkRunner) (latency : LatencyHistogram) (events_processed : Z)
    : res (list (operand double)) :=
  let elapsed_sec := of_u64 (duration_sec_ b) in
  let throughput := ddiv (of_u64 events_processed) elapsed_sec in
  p50 ← p50 latency;
  p95 ← p95 latency;
  p99 ← p99 latency;
  Ok [Text "=== Benchmark: "; Text (scenario_ b); Text " ==="; Text eol;
      Text "  Duration:    "; Number (duration_sec_ b); Text " s"; Text eol;
      Text "  Events:      "; Number events_processed; Text eol;
      Text "  Throughput:  "; Floating throughput; Text " ev/s"; Text eol;
      Text "  p50:         "; Number p50; Text " ns"; Text eol;
      Text "  p95:         "; Number p95; Text " ns"; Text eol;
      Text "  p99:         "; Number p99; Text " ns"; Text eol;
      Text "  max:         "; Number (max_val latency); Text " ns"; Text eol;
      Text eol].

(** [runner.run(); runner.report();] *)
Definition run_and_report (fuel engine_fuel : nat) (clock : nat -> Z * Z) (start : Z) (seeded : Z -> rng)
    (b : BenchmarkRunner) : res (list (operand double)) :=
  '(_, latency, events_processed) ← run_benchmark fuel engine_fuel clock start seeded b;
  report b latency events_processed.
End gateway_config.

(** ** tools/replay.cpp *)

Record replay_options := mkReplayOptions {
  events_path : string;
  snapshot_path : string;
  expected_path : string;
}.

Fixpoint replay_args (args : list string) (o : replay_options) : outcome replay_options :=
  match args with
  | [] => Run o
  | [_] => Exit 1
  | arg :: v :: rest =>
      if decide (arg = "--events") then replay_args rest (mkReplayOptions v (snapshot_path o) (expected_path o))
      else if decide (arg = "--snapshot") then replay_args rest (mkReplayOptions (events_path o) v (expected_path o))
      else if decide (arg = "--expected") then replay_args rest (mkReplayOptions (events_path o) (snapshot_path o) v)
      else Exit 1
  end.

(** How the program ends: exit code and printed lines, or the exception of
    [CsvReplayReader] for a file that cannot be opened. *)
Inductive ending := Exited (code : Z) (output : list string) | Uncaught.

Section replay_main.
Context `{OrderLayout}.

(** The files: the text of those that can be opened for reading, the bytes of
    snapshots. *)
Context (text : string -> option string) (bytes : string -> option (list Z)).

Definition replay_run (fuel : nat) (o : replay_options) : res ending :=
  if decide (events_path o = "") then Ok (Exited 1 [])
  else
    match (if decide (snapshot_path o = "") then Some new_engine else restore (bytes (snapshot_path o))) with
    | None => Ok (Exited 1 [])
    | Some engine =>
        match text (events_path o) with
        | None => Ok Uncaught
        | Some events =>
            '(_, _, trade_lines) ← replay_loop (S (String.length events)) fuel (open_reader events) engine [];
            if decide (expected_path o = "") then Ok (Exited 0 trade_lines)
            else
              match text (expected_path o) with
              | None => Ok (Exited 1 trade_lines)
              | Some expected => code ← compare_expected trade_lines expected; Ok (Exited code trade_lines)
              end
        end
    end.

Definition replay_main (fuel : nat) (args : list string) : res ending :=
  match replay_args args (mkReplayOptions "" "" "") with
  | Run o => replay_run fuel o
  | Exit code => Ok (Exited code [])
  | Throw _ => Ok Uncaught
  end.
End replay_main.
