(* ===== verification/CommandsProps.v ===== *)
(** * CommandsProps: what the command lines do

    The accepted command lines of the exchange and what they mean; the checks
    of the constructors; the benchmark on every command line; the replay tool
    from the bytes of a snapshot and the text of an event file to its exit
    code. *)

From stdpp Require Import pretty.
From S2P Require Import Prelude Types PriceLevel OrderBook Engine Market EngineRefine EngineEvents Session.
From S2P Require Import Exchange Csv CsvProps Ring Serializer Gateway Lifecycle Double Metrics Generator Snapshot Restore.
From S2P Require Import SessionModify Trading Guarantees Commands.

(** ** The options of the exchange *)

(** An option with its value; [OptInterval w ms]: the word [w] read as [ms]. *)
Inductive exchange_option := OptPull (v : string) | OptPub (v : string) | OptInterval (w : string) (ms : Z) | OptLog (v : string).

Definition option_ok (o : exchange_option) : Prop :=
  match o with OptInterval w ms => stoull w = inr ms | _ => True end.
Definition option_words (o : exchange_option) : list string :=
  match o with
  | OptPull v => ["--pull"; v] | OptPub v => ["--pub"; v]
  | OptInterval w _ => ["--snapshot-interval"; w] | OptLog v => ["--log-path"; v]
  end.

Section exchange_args.
Context `{Random}.

Definition apply_option (c : GatewayConfig) (o : exchange_option) : GatewayConfig :=
  match o with
  | OptPull v => set_pull v c | OptPub v => set_pub v c
  | OptInterval _ ms => set_interval ms c | OptLog v => set_log_path v c
  end.

Definition words (opts : list exchange_option) : list string := mjoin (map option_words opts).

Lemma exchange_args_prefix opts rest cfg :
  Forall option_ok opts -> exchange_args (words opts ++ rest) cfg = exchange_args rest (foldl apply_option cfg opts).
Proof.
  intros Hok. revert cfg. induction Hok as [|o opts Ho _ IH]; intros cfg; [done|].
  unfold words in *. simpl. rewrite <- app_assoc. destruct o as [v|v|w ms|v]; simpl in *; rewrite ?Ho; apply IH.
Qed.

Definition takes_value (w : string) : Prop := w ∈ ["--pull"; "--pub"; "--snapshot-interval"; "--log-path"].

(** Where the parsing of options stops. *)
Definition stops_at (rest : list string) : Prop :=
  rest = [] \/
  (exists v r e, rest = "--snapshot-interval" :: v :: r /\ stoull v = inl e) \/
  (exists w r, rest = w :: r /\ (takes_value w -> r = [])).

Lemma exchange_args_split (n : nat) args :
  (length args <= n)%nat -> exists opts rest, Forall option_ok opts /\ args = words opts ++ rest /\ stops_at rest.
Proof.
  revert args. induction n as [|n IH]; intros args Hn.
  { destruct args; [|simpl in *; lia]. exists [], []. split_ands; [done..|by left]. }
  destruct args as [|w [|v rest]].
  - exists [], []. split_ands; [done..|by left].
  - exists [], [w]. split_ands; [done..|]. right; right. by exists w, [].
  - assert (forall o, option_ok o -> option_words o = [w; v] ->
      exists opts rest', Forall option_ok opts /\ w :: v :: rest = words opts ++ rest' /\ stops_at rest') as Hopt.
    { intros o Ho Hw. destruct (IH rest) as (opts & rest' & Hok & -> & Hstop); [simpl in *; lia|].
      exists (o :: opts), rest'. split_ands; [by constructor| |done]. unfold words. simpl. by rewrite Hw. }
    destruct (decide (w = "--pull")) as [->|H1]; [by apply (Hopt (OptPull v))|].
    destruct (decide (w = "--pub")) as [->|H2]; [by apply (Hopt (OptPub v))|].
    destruct (decide (w = "--log-path")) as [->|H3]; [by apply (Hopt (OptLog v))|].
    destruct (decide (w = "--snapshot-interval")) as [->|H4].
    + destruct (stoull v) as [e|ms] eqn:Hv; [|by apply (Hopt (OptInterval v ms))].
      exists [], ("--snapshot-interval" :: v :: rest). split_ands; [done..|]. right; left. by exists v, rest, e.
    + exists [], (w :: v :: rest). split_ands; [done..|]. right; right. exists w, (v :: rest). split; [done|].
      unfold takes_value. set_solver.
Qed.

Lemma exchange_args_flag w r cfg :
  (takes_value w -> r = []) -> exchange_args (w :: r) cfg = exchange_flag w.
Proof.
  unfold takes_value. intros Hw. destruct r as [|v r]; [done|]. simpl.
  repeat (rewrite decide_False by (intros ->; discriminate Hw; set_solver)). done.
Qed.

Definition is_help (w : string) : Prop := w = "--help" \/ w = "-h".

Lemma help_no_value w : is_help w -> ~ takes_value w.
Proof. unfold is_help, takes_value. set_solver. Qed.

Lemma exchange_flag_cases w :
  (exchange_flag w = Exit 0 /\ is_help w) \/ (exchange_flag w = Exit 1 /\ ~ is_help w).
Proof. unfold exchange_flag, is_help. case_decide; [by left|by right]. Qed.

(** The command lines of the exchange: the program runs exactly when they
    consist of options with their values, numbers in the format of
    [std::stoul], and a later option overrides an earlier one; it is
    terminated by an exception exactly when a number is missing or too large;
    it prints the usage and exits with 0 on [--help] or [-h], with 1 on any
    other word and on an option without its value; what follows is not
    looked at. *)
Theorem exchange_args_spec args cfg :
  (forall cfg', exchange_args args cfg = Run cfg' <->
    exists opts, Forall option_ok opts /\ args = words opts /\ cfg' = foldl apply_option cfg opts) /\
  (forall e, exchange_args args cfg = Throw e <->
    exists opts v rest, Forall option_ok opts /\ args = words opts ++ "--snapshot-interval" :: v :: rest /\
      stoull v = inl e) /\
  (exchange_args args cfg = Exit 0 <->
    exists opts w rest, Forall option_ok opts /\ args = words opts ++ w :: rest /\ is_help w) /\
  (exchange_args args cfg = Exit 1 <->
    exists opts w rest, Forall option_ok opts /\ args = words opts ++ w :: rest /\ ~ is_help w /\
      (takes_value w -> rest = [])).
Proof.
  destruct (exchange_args_split (length args) args (le_n _)) as (opts & rest & Hok & Hargs & Hstop).
  pose proof (exchange_args_prefix opts rest cfg Hok) as Heq. rewrite <- Hargs in Heq.
  split_ands.
  - intros cfg'. split.
    + rewrite Heq. destruct Hstop as [->|[(v & r & e & -> & Hv)|(w & r & -> & Hw)]].
      * intros [= <-]. exists opts. by rewrite app_nil_r in Hargs.
      * simpl. by rewrite Hv.
      * rewrite exchange_args_flag by done. by destruct (exchange_flag_cases w) as [[-> _]|[-> _]].
    + intros (opts' & Hok' & -> & ->). pose proof (exchange_args_prefix opts' [] cfg Hok') as Hp.
      by rewrite app_nil_r in Hp.
  - intros e. split.
    + rewrite Heq. destruct Hstop as [->|[(v & r & e' & -> & Hv)|(w & r & -> & Hw)]]; [done| |].
      * simpl. rewrite Hv. intros [= <-]. by exists opts, v, r.
      * rewrite exchange_args_flag by done. by destruct (exchange_flag_cases w) as [[-> _]|[-> _]].
    + intros (opts' & v & r & Hok' & -> & Hv). rewrite exchange_args_prefix by done. simpl. by rewrite Hv.
  - split.
    + rewrite Heq. destruct Hstop as [->|[(v & r & e' & -> & Hv)|(w & r & -> & Hw)]]; [done|simpl; by rewrite Hv|].
      rewrite exchange_args_flag by done. destruct (exchange_flag_cases w) as [[-> ?]|[-> _]]; [|done].
      intros _. by exists opts, w, r.
    + intros (opts' & w & r & Hok' & -> & Hw). rewrite exchange_args_prefix by done.
      rewrite exchange_args_flag by (intros ?; by destruct (help_no_value w)).
      by destruct (exchange_flag_cases w) as [[-> _]|[_ ?]].
  - split.
    + rewrite Heq. destruct Hstop as [->|[(v & r & e' & -> & Hv)|(w & r & -> & Hw)]]; [done|simpl; by rewrite Hv|].
      rewrite exchange_args_flag by done. destruct (exchange_flag_cases w) as [[-> _]|[-> ?]]; [done|].
      intros _. by exists opts, w, r.
    + intros (opts' & w & r & Hok' & -> & Hw & Hr). rewrite exchange_args_prefix by done.
      rewrite exchange_args_flag by done. by destruct (exchange_flag_cases w) as [[_ ?]|[-> _]].
Qed.
End exchange_args.

(** ** The constructors *)

Definition power_of_two (c : Z) : Prop := exists k, 0 <= k < 32 /\ c = 2 ^ k.
Definition is_u32 (c : Z) : Prop := 0 <= c < 2 ^ 32.

(** The bit test of the assertions. *)
Lemma power_of_two_test c :
  is_u32 c -> Z.land c ((c - 1) mod 2 ^ 32) = 0 <-> c = 0 \/ power_of_two c.
Proof.
  intros Hc. split.
  - intros Hl. destruct (decide (c = 0)) as [|Hne]; [by left|right]. unfold is_u32 in Hc.
    rewrite Z.mod_small in Hl by lia. exists (Z.log2 c).
    destruct (Z.log2_spec c ltac:(lia)) as [Hlo Hhi].
    assert (0 <= Z.log2 c) by apply Z.log2_nonneg.
    assert (Z.log2 c < 32) by (apply Z.log2_lt_pow2; lia).
    split; [lia|]. destruct (decide (c = 2 ^ Z.log2 c)) as [|Hne']; [done|exfalso].
    assert (Z.log2 (c - 1) = Z.log2 c) as Hlog by (apply Z.log2_unique; lia).
    assert (Z.testbit (Z.land c (c - 1)) (Z.log2 c) = true) as Hbit; [|by rewrite Hl, Z.bits_0 in Hbit].
    rewrite Z.land_spec, Z.bit_log2 by lia. rewrite <- Hlog at 1. by rewrite Z.bit_log2 by lia.
  - intros [->|(k & Hk & ->)]; [done|]. assert (0 < 2 ^ k) by (apply Z.pow_pos_nonneg; lia).
    assert (2 ^ k < 2 ^ 32) by (apply Z.pow_lt_mono_r; lia).
    rewrite Z.mod_small by lia. replace (2 ^ k - 1) with (Z.ones k) by (rewrite Z.ones_equiv; lia).
    rewrite Z.land_ones by lia. by apply Z.mod_same; lia.
Qed.

Lemma queue_new_cases {A} c (slot : A) :
  is_u32 c ->
  (queue_new c slot = Crash AssertFailed /\ c <> 0 /\ ~ power_of_two c) \/
  (exists q, queue_new c slot = Ok q /\ (c = 0 \/ power_of_two c) /\
    (power_of_two c -> holds q [] /\ room q = Z.to_nat (c - 1))).
Proof.
  intros Hc. unfold queue_new. pose proof (power_of_two_test c Hc) as Ht. case_decide as Hd.
  - right. eexists. split; [done|]. split; [tauto|]. intros (k & Hk & ->).
    assert (0 < 2 ^ k) by (apply Z.pow_pos_nonneg; lia).
    unfold is_u32 in Hc. rewrite Z.mod_small by lia.
    split; [apply (ring_new_holds 32 k slot); lia|]. simpl. f_equal. unfold ring_capacity. simpl. lia.
  - left. tauto.
Qed.

Section constructors.
Context `{Random}.

(** The constructor of [Gateway] fails an assertion exactly when one of
    the three capacities is neither a power of two nor 0; otherwise the
    exchange is new, nothing has been dropped, sent or written, and each queue
    of capacity [2^k] is empty and has room for [2^k - 1] items. *)
Theorem gateway_new_spec cfg :
  is_u32 (inbound_queue_capacity cfg) -> is_u32 (outbound_queue_capacity cfg) -> is_u32 (replay_queue_capacity cfg) ->
  let capacities := [inbound_queue_capacity cfg; outbound_queue_capacity cfg; replay_queue_capacity cfg] in
  (gateway_new cfg = Crash AssertFailed /\ exists c, c ∈ capacities /\ c <> 0 /\ ~ power_of_two c) \/
  ((forall c, c ∈ capacities -> c = 0 \/ power_of_two c) /\
   exists qm qe qs, gateway_new cfg = Ok (mkGateway new_exchange (mkDispatcher qe 0 []) (mkReplay qs 0 []) qm 0) /\
     (power_of_two (inbound_queue_capacity cfg) -> holds qm [] /\ room qm = Z.to_nat (inbound_queue_capacity cfg - 1)) /\
     (power_of_two (outbound_queue_capacity cfg) -> holds qe [] /\ room qe = Z.to_nat (outbound_queue_capacity cfg - 1)) /\
     (power_of_two (replay_queue_capacity cfg) -> holds qs [] /\ room qs = Z.to_nat (replay_queue_capacity cfg - 1))).
Proof.
  intros Hm He Hs. unfold gateway_new, dispatcher_new, replay_new. generalize new_exchange as x. intros x.
  destruct (queue_new_cases _ default_event He) as [(-> & ? & ?)|(qe & -> & Hce & Hqe)];
    [left; split; [done|]; exists (outbound_queue_capacity cfg); set_solver|].
  destruct (queue_new_cases _ EmptyString Hs) as [(-> & ? & ?)|(qs & -> & Hcs & Hqs)];
    [left; split; [done|]; exists (replay_queue_capacity cfg); set_solver|].
  destruct (queue_new_cases _ default_message Hm) as [(-> & ? & ?)|(qm & -> & Hcm & Hqm)];
    [left; split; [done|]; exists (inbound_queue_capacity cfg); set_solver|].
  right. split; [set_unfold; intros c [->|[->|[->|[]]]]; done|]. by exists qm, qe, qs.
Qed.

(** The options change the endpoints, the interval and the path of the log. *)
Lemma apply_options_frame opts cfg :
  Forall option_ok opts -> is_u64 (snapshot_interval_ms cfg) ->
  let cfg' := foldl apply_option cfg opts in
  inbound_queue_capacity cfg' = inbound_queue_capacity cfg /\
  outbound_queue_capacity cfg' = outbound_queue_capacity cfg /\
  replay_queue_capacity cfg' = replay_queue_capacity cfg /\ is_u64 (snapshot_interval_ms cfg').
Proof.
  intros Hok. revert cfg. induction Hok as [|o opts Ho _ IH]; intros cfg Hms; simpl; [done|].
  destruct (IH (apply_option cfg o)) as (-> & -> & -> & ?); [|by destruct o].
  destruct o as [v|v|w ms|v]; simpl in *; try done. unfold stoull in Ho.
  destruct (strto w) as [[neg n]|]; [|done]. case_decide; [|done]. injection Ho as <-.
  destruct neg; [apply u64_range|done].
Qed.

(** C29. Every command line starts the exchange in the initial state of
    [Lifecycle], with empty queues of 65535 places, or ends it before a thread
    is created. *)
Theorem exchange_main_starts args :
  match exchange_main args with
  | Run r =>
      exists ms qm qe qs, r = Ok (ms, program_init qm qe qs) /\ is_u64 ms /\
        holds qm [] /\ holds qe [] /\ holds qs [] /\ room qm = Z.to_nat 65535 /\ room qe = Z.to_nat 65535 /\
        room qs = Z.to_nat 65535
  | Exit code => code = 0 \/ code = 1
  | Throw e => e = InvalidArgument \/ e = OutOfRange
  end.
Proof.
  unfold exchange_main.
  destruct (exchange_args_split (length args) args (le_n _)) as (opts & rest & Hok & -> & Hstop).
  rewrite exchange_args_prefix by done.
  destruct Hstop as [->|[(v & r & e & -> & Hv)|(w & r & -> & Hw)]].
  - destruct (apply_options_frame opts default_gateway_config Hok) as (Hci & Hco & Hcr & Hms); [done|].
    simpl exchange_args. revert Hci Hco Hcr Hms. generalize (foldl apply_option default_gateway_config opts).
    intros cfg Hci Hco Hcr Hms.
    assert (power_of_two 65536) as H2 by (exists 16; split; [lia|done]).
    assert (is_u32 65536) as Hu by done.
    unfold gateway_new, dispatcher_new, replay_new. simpl in Hci, Hco, Hcr. rewrite Hci, Hco, Hcr.
    change (65535) with (65536 - 1). revert H2 Hu. generalize 65536 as c. intros c H2 Hu.
    unfold program_init, service_init. generalize new_exchange as x. intros x.
    destruct (queue_new_cases c default_event Hu) as [(_ & _ & ?)|(qe & -> & _ & Hqe)]; [done|].
    destruct (queue_new_cases c EmptyString Hu) as [(_ & _ & ?)|(qs & -> & _ & Hqs)]; [done|].
    destruct (queue_new_cases c default_message Hu) as [(_ & _ & ?)|(qm & -> & _ & Hqm)]; [done|].
    exists (snapshot_interval_ms cfg), qm, qe, qs. destruct (Hqe H2), (Hqs H2), (Hqm H2). by split_ands.
  - simpl. rewrite Hv. unfold stoull in Hv. destruct (strto v) as [[neg n]|]; [|injection Hv; auto].
    case_decide; [done|]. injection Hv. auto.
  - rewrite exchange_args_flag by done. destruct (exchange_flag_cases w) as [[-> _]|[-> _]]; auto.
Qed.
End constructors.

(** ** The benchmark *)

Section bench.
Context `{RandomLaws}.

Lemma scenario_mid_price name : cfg_mid_price (get_scenario_config name) = 10000.
Proof. unfold get_scenario_config. by repeat case_decide. Qed.

Lemma bench_args_runners (n : nat) args scenario seed duration_sec runners :
  (length args <= n)%nat -> bench_args args scenario seed duration_sec = Run runners ->
  (length runners = 1%nat \/ map scenario_ runners = kScenarioNames) /\
  forall b, b ∈ runners -> runner_config b = get_scenario_config (scenario_ b).
Proof.
  revert args scenario seed duration_sec. induction n as [|n IH]; intros args scenario seed dur Hn.
  { destruct args; [|simpl in *; lia]. intros [= <-]. split; [by left|]. set_solver. }
  assert (forall s d, (map scenario_ (map (fun s' => runner_new s' s d) kScenarioNames) = kScenarioNames) /\
    forall b, b ∈ map (fun s' => runner_new s' s d) kScenarioNames -> runner_config b = get_scenario_config (scenario_ b))
    as Hall.
  { intros s d. split; [done|]. intros b (s' & -> & _)%list_elem_of_fmap. done. }
  destruct args as [|arg args]; [intros [= <-]; split; [by left|set_solver]|].
  destruct args as [|v rest]; simpl.
  - case_decide; [|done]. intros [= <-]. destruct (Hall seed dur). split; [by right|done].
  - simpl in Hn. repeat case_decide; try done.
    + apply IH. lia.
    + destruct (stoull v); [done|]. apply IH. lia.
    + destruct (stoull v); [done|]. apply IH. lia.
    + intros [= <-]. destruct (Hall seed dur). split; [by right|done].
Qed.

(** What a report says after [j] events, whose latencies the clock gives. *)
Lemma report_correct b clock j :
  Z.of_nat j <= 100000000 ->
  let vs := measured clock 0 j in
  let latency := record_all vs empty_histogram in
  exists q50 q95 q99 ops, report b latency (count_ latency) = Ok ops /\
    is_percentile vs 50 q50 /\ is_percentile vs 95 q95 /\ is_percentile vs 99 q99 /\
    numbers ops = [duration_sec_ b; Z.of_nat j; q50; q95; q99; list_max vs].
Proof.
  intros Hj vs latency. pose proof (measured_u64 clock 0 j) as Hvs. fold vs in Hvs.
  assert (length vs = j) as Hlen by (unfold vs, measured; by rewrite length_map, length_seq).
  assert (Z.of_nat (length vs) * 100 < 2 ^ 53) as Hb by lia.
  destruct (percentile_correct vs 50 Hvs Hb) as (q50 & E50 & H50); [done|].
  destruct (percentile_correct vs 95 Hvs Hb) as (q95 & E95 & H95); [done|].
  destruct (percentile_correct vs 99 Hvs Hb) as (q99 & E99 & H99); [done|].
  destruct (record_all_stores vs Hvs ltac:(lia)) as [_ _ Hcount Hmax].
  exists q50, q95, q99. unfold report, p50, p95, p99. fold latency in E50, E95, E99, Hcount, Hmax.
  rewrite E50, E95, E99. eexists. split; [reflexivity|]. split_ands; [done..|].
  unfold numbers. simpl. unfold max_val. by rewrite Hcount, Hmax, Hlen.
Qed.

(** C39. Every command line that the benchmark accepts names one scenario, or
    all of them with [--all]; each of its runs ends, whatever the clock shows,
    after at most 10^8 events without undefined behaviour in generator, engine
    or report, and prints the duration, the number of events and the
    percentiles and maximum of the latencies it measured. The only way to fail
    is undefined behaviour in the generator: the conversion or addition of a
    price sample overflows, for which the normal distribution must draw, with
    the standard deviation of the scenario, a value that rounds to an integer
    outside [-2^62, 2^62). *)
Theorem bench_main_safe args clock start seeded runners :
  bench_main args = Run runners ->
  (length runners = 1%nat \/ map scenario_ runners = kScenarioNames) /\
  forall b, b ∈ runners ->
    exists n,
      (exists j q50 q95 q99 ops, let vs := measured clock 0 j in
        Z.of_nat j <= 100000000 /\
        is_percentile vs 50 q50 /\ is_percentile vs 95 q95 /\ is_percentile vs 99 q99 /\
        numbers ops = [duration_sec_ b; Z.of_nat j; q50; q95; q99; list_max vs] /\
        forall fuel engine_fuel, (n <= fuel)%nat -> (n <= engine_fuel)%nat ->
          run_and_report fuel engine_fuel clock start seeded b = Ok ops) \/
      ((exists r, ~ (- 2 ^ 62 <= (normal (cfg_price_std_dev (runner_config b)) r).1 < 2 ^ 62)) /\
        forall fuel engine_fuel, (n <= fuel)%nat -> (n <= engine_fuel)%nat ->
          run_and_report fuel engine_fuel clock start seeded b = Crash SignedOverflow).
Proof.
  intros Hargs. destruct (bench_args_runners _ _ _ _ _ _ (le_n _) Hargs) as [Hnames Hcfg].
  split; [done|]. intros b Hb.
  destruct (benchmark_safe clock start (runner_config b) (seeded (seed_ b)) (duration_sec_ b))
    as (n & [(j & engine & used & Hj & _ & Hrun)|[[_ Hw] Hrun]]).
  { rewrite (Hcfg b Hb), scenario_mid_price. lia. }
  - destruct (report_correct b clock j Hj) as (q50 & q95 & q99 & ops & Hrep & H50 & H95 & H99 & Hops).
    exists n. left. exists j, q50, q95, q99, ops. cbv zeta in *. split_ands; try done. intros fuel ef Hf Hef.
    unfold run_and_report, run_benchmark. rewrite Hrun by done. done.
  - exists n. right. split; [done|]. intros fuel ef Hf Hef. unfold run_and_report, run_benchmark. by rewrite Hrun.
Qed.
End bench.

(** ** The replay tool *)

Lemma printed_events header evs :
  lacks newline header -> Forall printable evs ->
  omap good (body (unlines (header :: map event_line evs))) = evs.
Proof.
  intros Hh Hevs. unfold body. rewrite tokens_unlines; [by destruct (good_printed evs Hevs)|].
  constructor; [done|]. apply Forall_map, Forall_forall. intros ev _. apply event_line_no_newline.
Qed.

(** The exit code of the comparison: a missing file or other lines are an
    error. *)
Definition expected_code (text : string -> option string) (path : string) (lines : list string) : Z :=
  if decide (path = "") then 0
  else match text path with
       | None => 1
       | Some expected => if decide (nonblank (body expected) = lines) then 0 else 1
       end.

Lemma replay_run_spec `{OrderLayout} text bytes fuel o engine events :
  events_path o <> "" -> text (events_path o) = Some events ->
  (if decide (snapshot_path o = "") then Some new_engine else restore (bytes (snapshot_path o))) = Some engine ->
  replay_run text bytes fuel o =
    '(_, rs) ← submit_all fuel engine (omap good (body events));
    Ok (Exited (expected_code text (expected_path o) (trade_lines_of rs)) (trade_lines_of rs)).
Proof.
  intros Hev Htext Heng. unfold replay_run. rewrite decide_False by done. rewrite Heng, Htext.
  destruct (open_reader_body events) as (Hbody & Hlen & Hln & Hec).
  destruct (replay_loop_spec (S (String.length events)) fuel (open_reader events) engine [])
    as (r & _ & _ & _ & ->); [lia|done|by rewrite Hec|].
  unfold events_of. rewrite Hbody. destruct (submit_all fuel engine _) as [[e rs]| |]; [|done..].
  rewrite !bind_ok. simpl. unfold expected_code. destruct (decide (expected_path o = "")); [done|].
  destruct (text (expected_path o)) as [expected|]; [|done]. by rewrite compare_expected_correct, bind_ok.
Qed.

(** C36. The replay tool on a snapshot and an event file: an engine as in
    [restore_continues] (reached by a session with fresh ids in which no order
    is touched again after a modify, its levels without marked resting orders,
    its fields in range) is saved, the new, cancel and modify events that
    follow, continuing such a session, are written to a file; then the tool,
    started with both files, prints the trades that the engine makes on these
    events, and exits with 0 exactly when no expected file is given or its
    non-blank lines after the header are these trades. *)
Theorem replay_main_continues `{OrderLayoutLaws} text bytes used moved e seq header evs args o :
  modify_inv used moved e -> levels_clean (book e) -> savable (book e) (pending_stops e) seq ->
  modify_session_ok evs used moved -> lacks newline header -> Forall printable evs ->
  replay_args args (mkReplayOptions "" "" "") = Run o -> events_path o <> "" -> snapshot_path o <> "" ->
  text (events_path o) = Some (unlines (header :: map event_line evs)) ->
  bytes (snapshot_path o) = Some (save_bytes (book e) (pending_stops e) seq) ->
  exists n, forall fuel, (n <= fuel)%nat -> exists e' rs, submit_all fuel e evs = Ok (e', rs) /\
    replay_main text bytes fuel args =
      Ok (Exited (expected_code text (expected_path o) (trade_lines_of rs)) (trade_lines_of rs)).
Proof.
  intros Hinv Hclean Hsv Hok Hh Hp Hargs Hev Hsn Htext Hbytes.
  destruct (restore_saved used moved e seq Hinv Hclean Hsv) as (e2 & He2 & Hsame & Hinv2).
  destruct (submit_all_same evs used moved e e2 Hinv Hinv2 Hok) as (n & Hn); [by symmetry|].
  exists n. intros fuel Hf. destruct (Hn fuel Hf) as (e1' & e2' & rs & H1 & H2 & _).
  exists e1', rs. split; [done|]. unfold replay_main. rewrite Hargs.
  erewrite replay_run_spec; [|done..|].
  - rewrite printed_events by done. by rewrite H2.
  - rewrite decide_False by done. by rewrite Hbytes.
Qed.

(** ** Witnesses *)

#[local] Existing Instances demo_random demo_random_laws packed_layout packed_layout_laws.

Definition odd_config : GatewayConfig :=
  mkGatewayConfig "tcp://*:1" "tcp://*:2" 100 "replay.ndjson" default_config 4 6 8.

Lemma gateway_new_spec_witness :
  (gateway_new odd_config = Crash AssertFailed /\ exists c, c ∈ [4; 6; 8] /\ c <> 0 /\ ~ power_of_two c) \/
  (forall c, c ∈ [4; 6; 8] -> c = 0 \/ power_of_two c).
Proof.
  destruct (gateway_new_spec odd_config) as [Hbad|[Hgood _]]; [done..|left; exact Hbad|right; exact Hgood].
Defined.

Lemma bench_main_safe_witness :
  let clock := fun k : nat => (1000 * Z.of_nat k, 1000 * Z.of_nat k + 250) in
  exists n j q50 q95 q99 ops, let vs := measured clock 0 j in
    Z.of_nat j <= 100000000 /\
    is_percentile vs 50 q50 /\ is_percentile vs 95 q95 /\ is_percentile vs 99 q99 /\
    numbers ops = [3; Z.of_nat j; q50; q95; q99; list_max vs] /\
    forall fuel engine_fuel, (n <= fuel)%nat -> (n <= engine_fuel)%nat ->
      run_and_report fuel engine_fuel clock 0 (fun _ => 0%nat) (runner_new "small" 42 3) = Ok ops.
Proof.
  intros clock.
  destruct (@bench_main_safe demo_random demo_random_laws ["--scenario"; "small"; "--duration"; "3"] clock 0 (fun _ => 0%nat) [runner_new "small" 42 3])
    as [_ Hruns]; [vm_compute; reflexivity|].
  destruct (Hruns (runner_new "small" 42 3)) as (n & [(j & q50 & q95 & q99 & ops & Hrun)|[Hw _]]); [set_solver| |].
  - exists n, j, q50, q95, q99, ops. exact Hrun.
  - exfalso. apply (demo_random_tame (runner_config (runner_new "small" 42 3))). split; [reflexivity|exact Hw].
Defined.

Definition day : list OrderEvent :=
  [NewOrderEvent (mkOrder 2 Buy Limit 100 0 4 4 0 0 7 New); ModifyOrder (mkModify 1 0 5 8); CancelOrderEvent 2 9].
Definition demo_replay_args : list string := ["--snapshot"; "book.bin"; "--events"; "day.csv"]%string.
Definition demo_text (path : string) : option string :=
  if decide (path = "day.csv"%string) then Some (unlines ("event_type"%string :: map event_line day)) else None.
Definition demo_bytes (path : string) : option (list Z) :=
  if decide (path = "book.bin"%string) then Some (save_bytes (book demo_engine) (pending_stops demo_engine) 5) else None.

Lemma replay_main_continues_witness :
  exists n, forall fuel, (n <= fuel)%nat -> exists e' rs, submit_all fuel demo_engine day = Ok (e', rs) /\
    replay_main demo_text demo_bytes fuel demo_replay_args = Ok (Exited 0 (trade_lines_of rs)).
Proof.
  destruct (session_reaches {[1]} demo_engine demo_session_inv) as [Hinv Hclean].
  destruct (replay_main_continues demo_text demo_bytes {[1]} ∅ demo_engine 5 "event_type" day
    demo_replay_args (mkReplayOptions "day.csv" "book.bin" "") Hinv Hclean) as (n & Hn).
  - by apply demo_savable.
  - simpl. split_ands; [set_solver| |set_solver|done|set_solver|done]. unfold qty_ranges. simpl. split_ands; done.
  - by vm_compute.
  - unfold day. repeat apply Forall_cons_2; [..|apply Forall_nil_2]; vm_compute; done.
  - reflexivity.
  - done.
  - done.
  - reflexivity.
  - reflexivity.
  - exists n. intros fuel Hf. exact (Hn fuel Hf).
Defined.
