(* ===== verification/Logger.v ===== *)
(** * Logger: asynchronous log with a ring of records

    Model of [src/src/logging/logger.hpp] and [logger.cpp]. The ring is used
    through the interface of [Ring]; the file is the list of the lines
    written; the clock reading is an argument. *)

From Stdlib Require Import Ascii.
From stdpp Require Import strings pretty.
From S2P Require Import Prelude Ring.

(** ** The constructor

    [while (n < queue_size) n <<= 1;] on [uint32_t]. *)
Fixpoint round_up (fuel : nat) (n queue_size : Z) : res Z :=
  match fuel with
  | O => NoFuel
  | S fuel => if decide (n < queue_size) then round_up fuel (Z.shiftl n 1 mod 2 ^ 32) queue_size else Ok n
  end.

(** ** Records *)

Inductive Level := Debug | Info | Warn | Error.

Definition level_str (l : Level) : string :=
  match l with Debug => "DEBUG" | Info => "INFO" | Warn => "WARN" | Error => "ERROR" end.

(** A [char] array: zero-filled, then the first [size - 1] characters of the
    text copied. *)
Definition nul : ascii := Ascii.zero.
Definition char_array (size : nat) (text : string) : list ascii :=
  let cs := take (size - 1) (String.list_ascii_of_string text) in
  cs ++ replicate (size - length cs) nul.

(** What [operator<<] prints of a [char] array: the characters before the
    first zero. *)
Fixpoint printed (cs : list ascii) : string :=
  match cs with
  | [] => EmptyString
  | c :: cs => if decide (c = nul) then EmptyString else String c (printed cs)
  end.

Record LogRecord := mkLog {
  log_level : Level;
  category : list ascii;   (* 16 characters *)
  message : list ascii;    (* 256 characters *)
  log_timestamp : Z;
}.

Definition make_record (now : Z) (level : Level) (cat msg : string) : LogRecord :=
  mkLog level (char_array 16 cat) (char_array 256 msg) now.

Definition quote : string := String "034"%char EmptyString.
Definition log_line (r : LogRecord) : string :=
  "{" +:+ quote +:+ "ts" +:+ quote +:+ ":" +:+ pretty (log_timestamp r) +:+ "," +:+
  quote +:+ "level" +:+ quote +:+ ":" +:+ quote +:+ level_str (log_level r) +:+ quote +:+ "," +:+
  quote +:+ "cat" +:+ quote +:+ ":" +:+ quote +:+ printed (category r) +:+ quote +:+ "," +:+
  quote +:+ "msg" +:+ quote +:+ ":" +:+ quote +:+ printed (message r) +:+ quote +:+ "}".

(** ** Logging and writing *)

Section logger.
Context {Q : Type} `{BoundedQueueLaws Q LogRecord}.

Record Logger := mkLogger {
  lg_queue : Q;
  lg_drops : Z;
  lg_out : list string;
}.

Definition log (now : Z) (level : Level) (cat msg : string) (l : Logger) : Logger :=
  let '(ok, q) := enqueue (make_record now level cat msg) (lg_queue l) in
  if (ok : bool) then mkLogger q (lg_drops l) (lg_out l)
  else mkLogger (lg_queue l) (u64 (lg_drops l + 1)) (lg_out l).

(** One iteration of [writer_loop]. *)
Definition write_record (l : Logger) : Logger :=
  match dequeue (lg_queue l) with
  | (None, _) => l
  | (Some r, q) => mkLogger q (lg_drops l) (lg_out l ++ [log_line r])
  end.

(** [writer_loop] once [running_] is false: until the ring is empty. *)
Fixpoint writer_drain (fuel : nat) (l : Logger) : res Logger :=
  match fuel with
  | O => NoFuel
  | S fuel =>
      match dequeue (lg_queue l) with
      | (None, _) => Ok l
      | (Some r, q) => writer_drain fuel (mkLogger q (lg_drops l) (lg_out l ++ [log_line r]))
      end
  end.

(** The calls of the client and the iterations of the writer, interleaved. *)
Inductive log_action := Log (now : Z) (level : Level) (cat msg : string) | Write.

Definition log_step (l : Logger) (a : log_action) : Logger :=
  match a with Log now level cat msg => log now level cat msg l | Write => write_record l end.
Definition log_run (acts : list log_action) (l : Logger) : Logger := foldl log_step l acts.

Definition action_record (a : log_action) : option LogRecord :=
  match a with Log now level cat msg => Some (make_record now level cat msg) | Write => None end.

Definition logger_inv (offered : list LogRecord) (l : Logger) : Prop :=
  exists kept waiting, holds (lg_queue l) waiting /\ sublist kept offered /\
    lg_out l ++ map log_line waiting = map log_line kept /\
    lg_drops l = u64 (Z.of_nat (length offered) - Z.of_nat (length kept)).

Lemma log_step_inv offered l a :
  logger_inv offered l -> logger_inv (offered ++ option_list (action_record a)) (log_step l a).
Proof.
  intros (kept & waiting & Hw & Hsub & Hout & Hdr). destruct a as [now level cat msg|]; simpl.
  - unfold log. set (r := make_record _ _ _ _).
    pose proof (enqueue_holds r (lg_queue l) waiting Hw) as He. case_decide.
    + rewrite He. exists kept, waiting. simpl. split_ands; [done|by apply sublist_inserts_r|done|].
      rewrite Hdr, length_app. simpl. unfold u64. rewrite Zplus_mod_idemp_l. f_equal. lia.
    + destruct He as (q' & -> & Hq & _). exists (kept ++ [r]), (waiting ++ [r]). simpl.
      split_ands; [done|by apply sublist_app| |rewrite Hdr, !length_app; simpl; f_equal; lia].
      by rewrite !map_app, assoc, Hout by apply _.
  - rewrite app_nil_r. unfold write_record. pose proof (dequeue_holds (lg_queue l) waiting Hw) as Hd.
    destruct waiting as [|r waiting]; [rewrite Hd; by exists kept, []|].
    destruct Hd as (q' & -> & Hq & _). exists kept, waiting. simpl. split_ands; try done.
    by rewrite <- Hout, <- app_assoc.
Qed.

Lemma log_run_inv acts offered l :
  logger_inv offered l -> logger_inv (offered ++ omap action_record acts) (log_run acts l).
Proof.
  revert offered l. induction acts as [|a acts IH]; intros offered l Hl; [by rewrite app_nil_r|].
  specialize (IH _ _ (log_step_inv _ _ a Hl)). rewrite <- app_assoc in IH.
  by destruct a.
Qed.

Lemma writer_drain_flushes waiting l fuel :
  holds (lg_queue l) waiting -> (length waiting < fuel)%nat ->
  exists l', writer_drain fuel l = Ok l' /\ lg_out l' = lg_out l ++ map log_line waiting /\
    lg_drops l' = lg_drops l.
Proof.
  revert l fuel. induction waiting as [|r waiting IH]; intros l [|fuel] Hw Hf; simpl in *; try lia.
  - rewrite (dequeue_holds _ _ Hw). exists l. by rewrite app_nil_r.
  - destruct (dequeue_holds _ _ Hw) as (q' & -> & Hq & _).
    destruct (IH (mkLogger q' (lg_drops l) (lg_out l ++ [log_line r])) fuel Hq ltac:(lia)) as (l' & -> & Hout & Hdr).
    exists l'. simpl in *. by rewrite Hout, <- app_assoc.
Qed.
End logger.

(** ** The constructor *)

(** [buffer_.resize(n); mask_ = n - 1;] *)
Definition blank_record : LogRecord := make_record 0 Debug "" "".
Definition logger_new (fuel : nat) (queue_size : Z) : res (Logger (Q := ring LogRecord)) :=
  n ← round_up fuel 1 queue_size;
  Ok (mkLogger (ring_new 32 n blank_record) 0 []).

(** ** The rounding loop *)

Lemma double_pow (j : nat) : (j < 31)%nat -> Z.shiftl (2 ^ Z.of_nat j) 1 mod 2 ^ 32 = 2 ^ Z.of_nat (S j).
Proof.
  intros Hj. rewrite Z.shiftl_mul_pow2, Z.mul_comm, <- Z.pow_add_r by lia.
  replace (1 + Z.of_nat j) with (Z.of_nat (S j)) by lia. apply Z.mod_small.
  split; [apply Z.pow_nonneg; lia|]. apply Z.pow_lt_mono_r; lia.
Qed.

Lemma round_up_finds queue_size m : forall j,
  (j + m = 31)%nat -> queue_size <= 2 ^ 31 -> (forall i, (i < j)%nat -> 2 ^ Z.of_nat i < queue_size) ->
  exists k, (k <= 31)%nat /\
    (forall fuel, (m + 1 < fuel)%nat -> round_up fuel (2 ^ Z.of_nat j) queue_size = Ok (2 ^ Z.of_nat k)) /\
    queue_size <= 2 ^ Z.of_nat k /\ forall i, (i < k)%nat -> 2 ^ Z.of_nat i < queue_size.
Proof.
  induction m as [|m IH]; intros j Hj Hq Hmin; destruct (decide (2 ^ Z.of_nat j < queue_size)) as [Hlt|Hge].
  - assert (j = 31%nat) as -> by lia. simpl in Hlt. lia.
  - exists j. split_ands; [lia| |lia|done]. intros [|fuel] Hf; [lia|]. simpl. by rewrite decide_False.
  - destruct (IH (S j)) as (k & Hk & Hrun & Hrest); [lia|done| |].
    + intros i Hi. destruct (decide (i = j)) as [->|]; [done|]. apply Hmin. lia.
    + exists k. split_ands; [done| |apply Hrest..]. intros [|fuel] Hf; [lia|].
      cbn [round_up]. rewrite decide_True, double_pow by (done || lia). apply Hrun. lia.
  - exists j. split_ands; [lia| |lia|done]. intros [|fuel] Hf; [lia|]. cbn [round_up]. by rewrite decide_False.
Qed.

Lemma round_up_zero queue_size fuel : 0 < queue_size -> round_up fuel 0 queue_size = NoFuel.
Proof. intros Hq. induction fuel as [|fuel IH]; [done|]. cbn [round_up]. by rewrite decide_True. Qed.

Lemma round_up_diverges queue_size fuel : forall j,
  (j <= 31)%nat -> 2 ^ 31 < queue_size -> round_up fuel (2 ^ Z.of_nat j) queue_size = NoFuel.
Proof.
  induction fuel as [|fuel IH]; intros j Hj Hq; [done|]. cbn [round_up].
  assert (2 ^ Z.of_nat j <= 2 ^ 31) by (apply Z.pow_le_mono_r; lia). rewrite decide_True by lia.
  destruct (decide (j = 31%nat)) as [->|Hne].
  - assert (Z.shiftl (2 ^ Z.of_nat 31) 1 mod 2 ^ 32 = 0) as -> by reflexivity. apply round_up_zero. lia.
  - rewrite double_pow by lia. apply IH; lia.
Qed.

(** ** Claims *)

(** C25. The constructor's loop finds the smallest power of two that is not
    below [queue_size] when [queue_size] is at most [2^31]; above, it never
    ends: [n] overflows to 0 and stays 0. *)
Theorem round_up_correct queue_size :
  (queue_size <= 2 ^ 31 -> exists k, (k <= 31)%nat /\
    (forall fuel, (33 <= fuel)%nat -> round_up fuel 1 queue_size = Ok (2 ^ Z.of_nat k)) /\
    queue_size <= 2 ^ Z.of_nat k /\ forall j, (j < k)%nat -> 2 ^ Z.of_nat j < queue_size) /\
  (2 ^ 31 < queue_size -> forall fuel, round_up fuel 1 queue_size = NoFuel).
Proof.
  split.
  - intros Hq. destruct (round_up_finds queue_size 31 0) as (k & Hk & Hrun & Hrest); [done|done|lia|].
    exists k. split_ands; [done| |apply Hrest..]. intros fuel Hf. apply (Hrun fuel). lia.
  - intros Hq fuel. apply (round_up_diverges queue_size fuel 0); [lia|done].
Qed.

(** So a logger for at most [2^31] records starts with an empty ring of at
    least [queue_size] slots. *)
Theorem logger_new_correct fuel queue_size :
  queue_size <= 2 ^ 31 -> (33 <= fuel)%nat ->
  exists l, logger_new fuel queue_size = Ok l /\ holds (lg_queue l) [] /\ lg_drops l = 0 /\ lg_out l = [] /\
    queue_size <= ring_capacity (lg_queue l).
Proof.
  intros Hq Hf. destruct (round_up_finds queue_size 31 0) as (k & Hk & Hrun & Hle & _); [done|done|lia|].
  unfold logger_new. rewrite (Hrun fuel ltac:(lia) : round_up fuel 1 queue_size = _), bind_ok. eexists. split; [done|].
  split_ands; [|done|done|unfold ring_capacity; simpl; lia]. apply ring_new_holds. lia.
Qed.

(** Whatever the interleaving of logging and writing: the lines written,
    followed by those of the waiting records, are the lines of the accepted
    records in the order of the calls; accepted are all but the dropped ones,
    which are counted; the final drain of the writer ends and writes all. *)
Theorem logger_delivers `{BoundedQueueLaws Q LogRecord} (q : Q) acts :
  holds q [] ->
  let l := log_run acts (mkLogger q 0 []) in
  let offered := omap action_record acts in
  exists kept waiting, holds (lg_queue l) waiting /\ sublist kept offered /\
    lg_out l ++ map log_line waiting = map log_line kept /\
    lg_drops l = u64 (Z.of_nat (length offered) - Z.of_nat (length kept)) /\
    forall fuel, (length waiting < fuel)%nat ->
      exists l', writer_drain fuel l = Ok l' /\ lg_out l' = map log_line kept.
Proof.
  intros Hq l offered.
  destruct (log_run_inv acts [] (mkLogger q 0 [])) as (kept & waiting & Hw & Hsub & Hout & Hdr).
  { exists [], []. by split_ands. }
  exists kept, waiting. split_ands; [done..|]. intros fuel Hf.
  destruct (writer_drain_flushes waiting l fuel Hw Hf) as (l' & Hrun & Hl' & _).
  exists l'. by rewrite Hl'.
Qed.

(** Texts without zero characters that fit (15 characters for the
    category, 255 for the message) are printed unchanged, longer ones are cut
    there, and the fields never overflow their arrays. *)
Theorem fields_printed size text :
  nul ∉ String.list_ascii_of_string text -> (0 < size)%nat ->
  length (char_array size text) = size /\
  printed (char_array size text) =
    String.string_of_list_ascii (take (size - 1) (String.list_ascii_of_string text)).
Proof.
  intros Hnul Hsize. unfold char_array. set (cs := take _ _). split.
  - rewrite length_app, length_replicate. unfold cs. pose proof (length_take (String.list_ascii_of_string text) (size - 1)). lia.
  - assert (nul ∉ cs) as Hcs.
    { intros Hin. apply Hnul. unfold cs in Hin. by eapply elem_of_sublist, sublist_take. }
    assert (0 < size - length cs)%nat as Hroom.
    { unfold cs. pose proof (length_take (String.list_ascii_of_string text) (size - 1)). lia. }
    destruct (size - length cs)%nat as [|n]; [lia|]. clearbody cs. clear -Hcs.
    induction cs as [|c cs IH]; [done|]. cbn. rewrite decide_False by set_solver.
    f_equal. apply IH. set_solver.
Qed.

(** ** Witnesses *)

Definition demo_ring : ring LogRecord := ring_new 32 (2 ^ 1) blank_record.

Lemma round_up_correct_witness :
  round_up 33 1 65536 = Ok 65536 /\ round_up 33 1 65537 = Ok 131072 /\ round_up 1000 1 4294967295 = NoFuel.
Proof.
  split; [vm_compute; reflexivity|]. split; [vm_compute; reflexivity|].
  apply (round_up_correct 4294967295). lia.
Defined.

Lemma logger_delivers_witness :
  let l := log_run [Log 1 Info "book" "full"; Log 2 Warn "book" "dropped"; Write; Log 3 Info "x" "y"]
    (mkLogger demo_ring 0 []) in
  lg_drops l = 1 /\ exists kept waiting, holds (lg_queue l) waiting /\
    lg_out l ++ map log_line waiting = map log_line kept.
Proof.
  split; [vm_compute; reflexivity|].
  destruct (logger_delivers demo_ring [Log 1 Info "book" "full"; Log 2 Warn "book" "dropped"; Write; Log 3 Info "x" "y"])
    as (kept & waiting & Hw & _ & Hout & _); [by apply ring_new_holds|].
  by exists kept, waiting.
Defined.

Lemma fields_printed_witness : printed (char_array 16 "a category that is too long") = "a category that".
Proof.
  destruct (fields_printed 16 "a category that is too long") as [_ ->].
  - apply (bool_decide_unpack _). vm_compute. exact I.
  - lia.
  - reflexivity.
Defined.

Lemma logger_new_correct_witness : exists l, logger_new 33 65536 = Ok l /\ 65536 <= ring_capacity (lg_queue l).
Proof.
  destruct (logger_new_correct 33 65536) as (l & Heq & _ & _ & _ & Hle); [lia|lia|]. by exists l.
Defined.
