(* ===== verification/LoggerLife.v ===== *)
(** * LoggerLife: starting, logging and stopping with the writer thread

    [Logger::start], [stop], the destructor and the loop of the writer thread
    in [src/src/logging/logger.cpp]: one client thread makes a sequence of
    calls, the writer thread runs next to it. The loads of the source are
    relaxed or acquire loads, so a thread may read an old value: the state has
    the value of every shared variable and the value that the other thread
    sees, and the arrival of a store at the other thread is a step of its own.
    Nothing orders the arrival of the store to [running_], which the writer
    loads with [memory_order_relaxed], after the stores to [tail_] before it. *)

From S2P Require Import Prelude Ring Logger.

(** The calls of the client; the destructor is a last [Stop]. *)
Inductive client_call := Start | LogCall (now : Z) (level : Level) (cat msg : string) | Stop.

(** The writer thread: not created or joined, at the loop test, in the body,
    returned. *)
Inductive log_writer_pc := NotStarted | LoopTest | Body | Ended.

#[local] Abbreviation queue := (ring LogRecord).
#[local] Abbreviation Logger := (Logger (Q := ring LogRecord)).

Record logging := mkLogging {
  lo_logger : Logger;
  lo_running : bool;
  lo_joining : bool;               (* the client waits in [join] *)
  lo_writer : log_writer_pc;
  lo_calls : list client_call;     (* still to make *)
  lo_seen_head : Z;                (* [head_] as the client loads it *)
  lo_seen_tail : Z;                (* [tail_] as the writer loads it *)
  lo_seen_running : bool;          (* [running_] as the writer loads it *)
}.
Implicit Types s : logging.

Definition logging_init (q : queue) (calls : list client_call) : logging :=
  mkLogging (mkLogger q 0 []) false false NotStarted calls (rg_head q) (rg_tail q) false.

(** ** The ring as the two threads see it *)

Definition with_head (h : Z) (q : queue) : queue := mkRing (rg_width q) (rg_mask q) h (rg_tail q) (rg_buffer q).
Definition with_tail (t : Z) (q : queue) : queue := mkRing (rg_width q) (rg_mask q) (rg_head q) t (rg_buffer q).
Definition on_queue (f : queue -> queue) (l : Logger) : Logger := mkLogger (f (lg_queue l)) (lg_drops l) (lg_out l).

(** [log] tests the [head_] that the client sees. *)
Definition client_log (seen_head now : Z) (level : Level) (cat msg : string) (l : Logger) : Logger :=
  on_queue (with_head (rg_head (lg_queue l))) (log now level cat msg (on_queue (with_head seen_head) l)).

(** The body of the loop tests the [tail_] that the writer sees. *)
Definition writer_write (seen_tail : Z) (l : Logger) : Logger :=
  on_queue (with_tail (rg_tail (lg_queue l))) (write_record (on_queue (with_tail seen_tail) l)).

(** ** Steps *)

(** A step of the client: the whole of [start] or [log], [stop] up to [join],
    the return from [join]. [None]: done, or waiting. The creation of a thread
    shows it all earlier stores, [join] shows those of the thread. *)
Definition client_step s : option logging :=
  let 'mkLogging l running joining w calls sh st sr := s in
  if joining then
    match w with
    | NotStarted | Ended => Some (mkLogging l running false NotStarted calls (rg_head (lg_queue l)) st sr)
    | _ => None
    end
  else
    match calls with
    | [] => None
    | Start :: calls => Some (if running then mkLogging l running joining w calls sh st sr
        else mkLogging l true joining LoopTest calls sh (rg_tail (lg_queue l)) true)
    | LogCall now level cat msg :: calls =>
        Some (mkLogging (client_log sh now level cat msg l) running joining w calls sh st sr)
    | Stop :: calls => Some (if running then mkLogging l false true w calls sh st sr
        else mkLogging l running joining w calls sh st sr)
    end.

(** [running_.load(relaxed) || head_ != tail_], and the body, in which an
    empty queue makes the writer sleep. *)
Definition logger_writer_step s : option logging :=
  let 'mkLogging l running joining w calls sh st sr := s in
  match w with
  | LoopTest =>
      let goes_on := sr || bool_decide (rg_head (lg_queue l) <> st) in
      Some (mkLogging l running joining (if goes_on then Body else Ended) calls sh st sr)
  | Body => Some (mkLogging (writer_write st l) running joining LoopTest calls sh st sr)
  | _ => None
  end.

(** The next store to [head_] arrives at the client; the next store to [tail_]
    or [running_] arrives at the writer while it runs. *)
Definition head_arrives s : option logging :=
  let 'mkLogging l running joining w calls sh st sr := s in
  let q := lg_queue l in
  if decide (sh = rg_head q) then None else Some (mkLogging l running joining w calls (next_index q sh) st sr).
Definition tail_arrives s : option logging :=
  let 'mkLogging l running joining w calls sh st sr := s in
  let q := lg_queue l in
  match w with
  | LoopTest | Body =>
      if decide (st = rg_tail q) then None else Some (mkLogging l running joining w calls sh (next_index q st) sr)
  | _ => None
  end.
Definition flag_arrives s : option logging :=
  let 'mkLogging l running joining w calls sh st sr := s in
  match w with
  | LoopTest | Body => if decide (sr = running) then None else Some (mkLogging l running joining w calls sh st running)
  | _ => None
  end.

Inductive logger_agent := Client | Writer | HeadArrives | TailArrives | FlagArrives.
#[global] Instance logger_agent_eq_dec : EqDecision logger_agent.
Proof. solve_decision. Defined.

Definition agent_step (a : logger_agent) : logging -> option logging :=
  match a with
  | Client => client_step | Writer => logger_writer_step
  | HeadArrives => head_arrives | TailArrives => tail_arrives | FlagArrives => flag_arrives
  end.
Definition life_step s s' : Prop := exists a, agent_step a s = Some s'.

(** All calls have returned. *)
Definition finished s : Prop := lo_calls s = [] /\ lo_joining s = false.

(** ** Specification *)

Definition call_record (c : client_call) : option LogRecord :=
  match c with LogCall now level cat msg => Some (make_record now level cat msg) | _ => None end.

(** Whether the logger runs after the calls. *)
Definition after_call (running : bool) (c : client_call) : bool :=
  match c with Start => true | LogCall _ _ _ _ => running | Stop => false end.
Definition runs_after (calls : list client_call) : bool := foldl after_call false calls.

(** ** Parts of a ring *)

Lemma with_head_eta q : with_head (rg_head q) q = q.
Proof. by destruct q. Qed.
Lemma with_tail_eta q : with_tail (rg_tail q) q = q.
Proof. by destruct q. Qed.

Lemma ring_wf_views q h t : ring_wf q -> ring_wf (with_head h q) /\ ring_wf (with_tail t q).
Proof. intros (k & Hk). by split; exists k. Qed.

Lemma repr_with_head q h (l1 l2 : list LogRecord) :
  repr q h (l1 ++ l2) ->
  repr (with_head ((h + Z.of_nat (length l1)) mod ring_capacity q) q) (h + Z.of_nat (length l1)) l2.
Proof.
  intros (Hh & Hhd & Htl & Hlen & Hbuf). rewrite length_app in Htl, Hlen.
  unfold repr, ring_capacity in *. simpl in *. split_ands; [lia|done|rewrite Htl; f_equal; lia|lia|].
  intros i a Hi. specialize (Hbuf (length l1 + i)%nat a). rewrite lookup_app_r in Hbuf by lia.
  replace (length l1 + i - length l1)%nat with i in Hbuf by lia. rewrite <- (Hbuf Hi). do 3 f_equal. lia.
Qed.

Lemma repr_with_tail q h (l1 l2 : list LogRecord) :
  repr q h (l1 ++ l2) -> repr (with_tail ((h + Z.of_nat (length l1)) mod ring_capacity q) q) h l1.
Proof.
  intros (Hh & Hhd & Htl & Hlen & Hbuf). rewrite length_app in Hlen.
  unfold repr, ring_capacity in *. simpl in *. split_ands; [lia|done|done|lia|].
  intros i a Hi. apply Hbuf. by apply lookup_app_l_Some.
Qed.

(** Equal indices: nothing between them. *)
Lemma repr_empty q h (l : list LogRecord) : ring_wf q -> repr q h l -> rg_head q = rg_tail q <-> l = [].
Proof.
  intros Hwf (Hh & Hhd & Htl & Hlen & _). pose proof (ring_capacity_pos q Hwf). rewrite Hhd, Htl. split.
  - intros Heq. destruct l as [|a l]; [done|]. exfalso. revert Heq. simpl in *. apply mod_ne; lia.
  - intros ->. simpl. f_equal. lia.
Qed.

(** ** Invariant

    The ring from the head that the client sees: records it does not know to
    be removed, records that the writer sees, records that it does not. *)
Record ring_views (cap : Z) (kept : list LogRecord) s (seen hidden : list LogRecord) := {
  rv_wf : ring_wf (lg_queue (lo_logger s));
  rv_cap : ring_capacity (lg_queue (lo_logger s)) = cap;
  rv_out : lg_out (lo_logger s) ++ map log_line (seen ++ hidden) = map log_line kept;
  rv_repr : exists h freed,
    repr (with_head (lo_seen_head s) (lg_queue (lo_logger s))) h (freed ++ seen ++ hidden) /\
    rg_head (lg_queue (lo_logger s)) = (h + Z.of_nat (length freed)) mod cap /\
    lo_seen_tail s = (h + Z.of_nat (length freed) + Z.of_nat (length seen)) mod cap /\
    (length freed <= length (lg_out (lo_logger s)))%nat;
}.

Definition life_pc s (seen : list LogRecord) : Prop :=
  match lo_running s, lo_joining s with
  | true, true => False
  | true, false => (lo_writer s = LoopTest \/ lo_writer s = Body) /\ lo_seen_running s = true
  | false, true => lo_writer s <> NotStarted /\ (lo_writer s = Ended -> seen = [])
  | false, false => lo_writer s = NotStarted /\ seen = []
  end.

Definition life_inv (cap : Z) (all : list client_call) s : Prop := exists past kept seen hidden,
  all = past ++ lo_calls s /\ ring_views cap kept s seen hidden /\
  sublist kept (omap call_record past) /\
  lg_drops (lo_logger s) = u64 (Z.of_nat (length (omap call_record past)) - Z.of_nat (length kept)) /\
  (Z.of_nat (length (omap call_record past)) < cap -> kept = omap call_record past) /\
  lo_running s = runs_after past /\ life_pc s seen.

Lemma life_inv_init (q : queue) all : holds q [] -> life_inv (ring_capacity q) all (logging_init q all).
Proof.
  intros [Hwf (h & Hr)]. exists [], [], [], []. split_ands; try done. split; simpl; try done.
  exists h, []. rewrite with_head_eta. simpl. split_ands; [done| |..|lia].
  - destruct Hr as (_ & -> & _). f_equal. lia.
  - destruct Hr as (_ & _ & -> & _). f_equal. simpl. lia.
Qed.

Lemma runs_after_snoc calls c : runs_after (calls ++ [c]) = after_call (runs_after calls) c.
Proof. apply foldl_snoc. Qed.

Lemma call_record_snoc calls c : omap call_record (calls ++ [c]) = omap call_record calls ++ option_list (call_record c).
Proof. rewrite omap_app. simpl. by destruct (call_record c). Qed.

(** The ring itself. *)
Lemma ring_views_holds cap kept s seen hidden :
  ring_views cap kept s seen hidden -> exists h, repr (lg_queue (lo_logger s)) h (seen ++ hidden) /\
    rg_head (lg_queue (lo_logger s)) = h mod cap /\ lo_seen_tail s = (h + Z.of_nat (length seen)) mod cap.
Proof.
  intros [Hwf Hcap Hout (h & freed & Hr & Hhd & Htl & _)]. exists (h + Z.of_nat (length freed)).
  split_ands; [|done..]. apply repr_with_head in Hr. revert Hr.
  unfold ring_capacity in *. simpl. rewrite Hcap, <- Hhd. by destruct (lg_queue (lo_logger s)).
Qed.

(** What the writer sees of it. *)
Lemma ring_views_writer cap kept s seen hidden :
  ring_views cap kept s seen hidden -> exists h,
    repr (with_tail (lo_seen_tail s) (lg_queue (lo_logger s))) h seen /\ rg_head (lg_queue (lo_logger s)) = h mod cap.
Proof.
  intros Hv. destruct (ring_views_holds _ _ _ _ _ Hv) as (h & Hr & Hhd & Htl). exists h. split; [|done].
  apply repr_with_tail in Hr. by rewrite (rv_cap _ _ _ _ _ Hv), <- Htl in Hr.
Qed.

Lemma writer_sees_empty cap kept s seen hidden :
  ring_views cap kept s seen hidden -> rg_head (lg_queue (lo_logger s)) = lo_seen_tail s <-> seen = [].
Proof.
  intros Hv. destruct (ring_views_writer _ _ _ _ _ Hv) as (h & Hr & _).
  refine (repr_empty _ _ _ _ Hr). by apply ring_wf_views, (rv_wf _ _ _ _ _ Hv).
Qed.

Lemma kept_length cap kept s seen hidden :
  ring_views cap kept s seen hidden ->
  length kept = (length (lg_out (lo_logger s)) + length seen + length hidden)%nat.
Proof. intros [_ _ Hout _]. apply (f_equal length) in Hout. rewrite length_app, !length_map, length_app in Hout. lia. Qed.

(** ** The steps preserve it *)

Lemma push_shape (a : LogRecord) q ok q' : push a q = (ok, q') ->
  rg_head q' = rg_head q /\ (ok = false -> q' = q).
Proof. unfold push. case_decide; intros [= <- <-]; done. Qed.

Lemma log_views cap kept l running joining w calls sh st sr seen hidden now level cat msg :
  let s := mkLogging l running joining w calls sh st sr in
  ring_views cap kept s seen hidden ->
  let r := make_record now level cat msg in let l' := client_log sh now level cat msg l in
  let s' := mkLogging l' running joining w calls sh st sr in
  ring_views cap (kept ++ [r]) s' seen (hidden ++ [r]) /\ lg_drops l' = lg_drops l \/
  ring_views cap kept s' seen hidden /\ lg_drops l' = u64 (lg_drops l + 1) /\ cap <= Z.of_nat (length kept) + 1.
Proof.
  intros s Hv r l' s'. pose proof (kept_length _ _ _ _ _ Hv) as Hlen.
  destruct Hv as [Hwf Hcap Hout (h & freed & Hr & Hhd & Htl & Hfr)]. simpl in *.
  destruct (ring_wf_views _ sh st Hwf) as [Hwf' _]. pose proof (push_repr r _ h _ Hwf' Hr) as Hp.
  unfold s', l', client_log, log, on_queue. cbn [enqueue ring_queue lg_queue lg_drops lg_out].
  destruct (push r (with_head sh (lg_queue l))) as [ok q'] eqn:Hpush. fold r. rewrite Hpush.
  destruct (push_shape _ _ _ _ Hpush) as [Hh' Hno]. case_decide as Hfull; [right|left].
  - injection Hp as -> ->. simpl. split_ands; [|done|].
    + split; try done. exists h, freed. by split_ands.
    + rewrite !length_app in Hfull. unfold ring_capacity in *. simpl in Hfull. lia.
  - destruct Hp as (q1 & [= -> ->] & Hwf1 & Hr1 & Hcap1). simpl. split; [|done].
    assert (ring_capacity (with_head (rg_head (lg_queue l)) q1) = cap) as Hc by (unfold ring_capacity in *; simpl in *; lia).
    split; simpl; [by apply ring_wf_views|done|by rewrite assoc, map_app, assoc, Hout, map_app by apply _|].
    exists h, freed. split_ands; [|done..].
    assert (with_head sh (with_head (rg_head (lg_queue l)) q1) = q1) as ->.
    { simpl in Hh'. rewrite <- Hh'. by destruct q1. }
    by rewrite <- !app_assoc in Hr1.
Qed.

(** The writer takes the first record that it sees. *)
Lemma write_views cap kept l running joining w calls sh st sr seen hidden w' :
  ring_views cap kept (mkLogging l running joining w calls sh st sr) seen hidden ->
  let l' := writer_write st l in
  ring_views cap kept (mkLogging l' running joining w' calls sh st sr) (tail seen) hidden /\
  lg_drops l' = lg_drops l /\ length (lg_out l') = (length (lg_out l) + length (take 1 seen))%nat.
Proof.
  intros Hv l'. destruct (ring_views_writer _ _ _ _ _ Hv) as (h' & Hr' & Hhd').
  destruct Hv as [Hwf Hcap Hout (h & freed & Hr & Hhd & Htl & Hfr)]. simpl in *.
  destruct (ring_wf_views _ sh st Hwf) as [_ Hwf']. pose proof (pop_repr _ _ _ Hwf' Hr') as Hp.
  unfold l', writer_write, write_record, on_queue. cbn [dequeue ring_queue lg_queue lg_drops lg_out].
  destruct seen as [|a seen]; simpl.
  - rewrite Hp. simpl. split_ands; [|done|lia].
    assert (with_tail (rg_tail (lg_queue l)) (with_tail st (lg_queue l)) = lg_queue l) as -> by by destruct (lg_queue l).
    split; try done. by exists h, freed.
  - destruct Hp as (q1 & Heq & _ & (_ & Hh1 & _) & Hcap1). rewrite Heq. simpl. split_ands; [|done|rewrite length_app; done].
    assert (q1 = mkRing (rg_width (lg_queue l)) (rg_mask (lg_queue l)) ((h' + 1) mod cap) st (rg_buffer (lg_queue l))) as ->.
    { rewrite Hcap1 in Hh1. unfold ring_capacity in *. simpl in *. rewrite Hcap in Hh1. unfold pop in Heq. case_decide; [done|]. injection Heq as _ Heq.
      rewrite <- Heq in Hh1 |- *. simpl in *. by rewrite Hh1. }
    split; simpl.
    + destruct Hwf as (k & Hk). by exists k.
    + done.
    + by rewrite <- app_assoc.
    + exists h, (freed ++ [a]). unfold with_head in *. simpl. split_ands.
      * by rewrite <- app_assoc.
      * rewrite length_app. simpl. rewrite Hhd in Hhd'.
        rewrite <- (Zplus_mod_idemp_l h'), <- Hhd', Zplus_mod_idemp_l. f_equal. lia.
      * rewrite Htl, length_app. simpl. f_equal. lia.
      * rewrite !length_app. simpl. lia.
Qed.

Lemma head_views cap kept s s' seen hidden :
  head_arrives s = Some s' -> ring_views cap kept s seen hidden -> ring_views cap kept s' seen hidden.
Proof.
  destruct s as [l running joining w calls sh st sr]. simpl. intros Hstep [Hwf Hcap Hout (h & freed & Hr & Hhd & Htl & Hfr)].
  simpl in *. case_decide as Hne; [done|]. injection Hstep as <-. split; try done. simpl.
  pose proof Hr as (_ & Hsh & _). unfold ring_capacity in Hsh, Hcap. simpl in *. rewrite Hcap in Hsh.
  destruct freed as [|a freed]; [exfalso; apply Hne; rewrite Hhd, Hsh; simpl; f_equal; lia|].
  exists (h + 1), freed. change ((a :: freed) ++ seen ++ hidden) with ([a] ++ freed ++ seen ++ hidden) in Hr.
  pose proof (repr_with_head _ _ _ _ Hr) as Hr1. unfold ring_capacity in Hr1. simpl in Hr1. rewrite Hcap in Hr1.
  assert (next_index (lg_queue l) sh = (h + 1) mod cap) as Hnext.
  { rewrite Hsh, <- Hcap. by apply next_index_mod. }
  rewrite Hnext. split_ands; [exact Hr1|rewrite Hhd; simpl; f_equal; lia|rewrite Htl; simpl; f_equal; lia|simpl in *; lia].
Qed.

Lemma tail_views cap kept s s' seen hidden :
  tail_arrives s = Some s' -> ring_views cap kept s seen hidden ->
  (lo_writer s = LoopTest \/ lo_writer s = Body) /\
  exists a hidden', hidden = a :: hidden' /\ ring_views cap kept s' (seen ++ [a]) hidden'.
Proof.
  destruct s as [l running joining w calls sh st sr]. intros Hstep Hv.
  destruct (ring_views_holds _ _ _ _ _ Hv) as (h' & (_ & _ & Htl' & _) & Hhd' & Hst').
  destruct Hv as [Hwf Hcap Hout (h & freed & Hr & Hhd & Htl & Hfr)]. simpl in *. rewrite Hcap in Htl'.
  destruct w; [done| | |done]; (split; [tauto|]); (case_decide as Hne; [done|]); injection Hstep as <-.
  all: destruct hidden as [|a hidden]; [exfalso; apply Hne; by rewrite Hst', Htl', app_nil_r|].
  all: exists a, hidden; split; [done|]; split; simpl; [done|done|by rewrite <- app_assoc|].
  all: exists h, freed; rewrite <- app_assoc; split_ands; [done|done| |done].
  all: assert (next_index (lg_queue l) st = (h + Z.of_nat (length freed) + Z.of_nat (length seen) + 1) mod cap) as ->
    by (rewrite Htl, <- Hcap; by apply next_index_mod).
  all: rewrite length_app; simpl; f_equal; lia.
Qed.

(** The views do not depend on the rest of the state. *)
Lemma views_ext cap kept s s' seen hidden :
  lo_logger s' = lo_logger s -> lo_seen_head s' = lo_seen_head s -> lo_seen_tail s' = lo_seen_tail s ->
  ring_views cap kept s seen hidden -> ring_views cap kept s' seen hidden.
Proof. intros Hl Hh Ht [Hwf Hcap Hout Hr]. split; by rewrite ?Hl, ?Hh, ?Ht. Qed.

(** [join] shows the client the head; a new thread sees the tail. *)
Lemma join_views cap kept l running joining w calls sh st sr seen hidden running' joining' w' calls' sr' :
  ring_views cap kept (mkLogging l running joining w calls sh st sr) seen hidden ->
  ring_views cap kept (mkLogging l running' joining' w' calls' (rg_head (lg_queue l)) st sr') seen hidden.
Proof.
  intros Hv. destruct (ring_views_holds _ _ _ _ _ Hv) as (h & Hr & Hhd & Htl). destruct Hv as [Hwf Hcap Hout _].
  simpl in *. split; try done. exists h, []. simpl. rewrite with_head_eta, Z.add_0_r. split_ands; [done..|lia].
Qed.

Lemma create_views cap kept l running joining w calls sh st sr seen hidden running' joining' w' calls' sr' :
  ring_views cap kept (mkLogging l running joining w calls sh st sr) seen hidden ->
  ring_views cap kept (mkLogging l running' joining' w' calls' sh (rg_tail (lg_queue l)) sr') (seen ++ hidden) [].
Proof.
  intros [Hwf Hcap Hout (h & freed & Hr & Hhd & Htl & Hfr)]. simpl in *. split; simpl; rewrite ?app_nil_r; try done.
  exists h, freed. split_ands; [done|done| |done]. pose proof Hr as (_ & _ & Ht & _).
  unfold ring_capacity in *. simpl in *. rewrite Ht, Hcap, length_app. f_equal. lia.
Qed.

Lemma client_step_inv cap all s s' : client_step s = Some s' -> life_inv cap all s -> life_inv cap all s'.
Proof.
  intros Hstep (past & kept & seen & hidden & Hall & Hv & Hsub & Hdr & Hfew & Hrun & Hpc).
  destruct s as [l running joining w calls sh st sr]. unfold life_pc in Hpc. simpl in *. destruct joining.
  { destruct running; [done|]. assert (w = Ended) as -> by (destruct Hpc as [Hn _]; by destruct w). injection Hstep as <-.
    exists past, kept, seen, hidden. split_ands; try done; [by eapply join_views|]. split; [done|]. by apply Hpc. }
  destruct calls as [|c calls]; [done|].
  assert (all = (past ++ [c]) ++ calls) as Hall' by by rewrite <- app_assoc.
  destruct c as [|now level cat msg|]; injection Hstep as <-.
  - destruct running; [exists (past ++ [Start]), kept, seen, hidden|exists (past ++ [Start]), kept, (seen ++ hidden), []].
    all: rewrite call_record_snoc, runs_after_snoc; cbn [option_list call_record]; rewrite app_nil_r.
    all: split_ands; try done.
    + by eapply views_ext, Hv.
    + by eapply create_views.
    + split; [by left|done].
  - destruct (log_views _ _ _ _ _ _ (LogCall now level cat msg :: calls) _ _ _ _ _ now level cat msg Hv) as [[Hv' Hd]|(Hv' & Hd & Hfull)].
    + exists (past ++ [LogCall now level cat msg]), (kept ++ [make_record now level cat msg]), seen, (hidden ++ [make_record now level cat msg]).
      rewrite call_record_snoc, runs_after_snoc. cbn [option_list call_record]. split_ands; try done.
      * by eapply views_ext, Hv'.
      * by apply sublist_app.
      * cbn [lo_logger]. rewrite Hd, Hdr, !length_app. f_equal. simpl. lia.
      * rewrite length_app. simpl. intros Hl. rewrite Hfew by lia. done.
    + exists (past ++ [LogCall now level cat msg]), kept, seen, hidden.
      rewrite call_record_snoc, runs_after_snoc. cbn [option_list call_record]. split_ands; try done.
      * by eapply views_ext, Hv'.
      * by apply sublist_inserts_r.
      * cbn [lo_logger]. rewrite Hd, Hdr, length_app. unfold u64. rewrite Zplus_mod_idemp_l. f_equal. simpl. lia.
      * rewrite length_app. simpl. intros Hl. pose proof (sublist_length _ _ Hsub). lia.
  - exists (past ++ [Stop]), kept, seen, hidden.
    rewrite call_record_snoc, runs_after_snoc. cbn [option_list call_record]. rewrite app_nil_r.
    destruct running; split_ands; try done; try (by eapply views_ext, Hv).
    unfold life_pc. simpl. destruct Hpc as [[->| ->] _]; by split.
Qed.

Lemma agent_step_inv cap all a s s' : agent_step a s = Some s' -> life_inv cap all s -> life_inv cap all s'.
Proof.
  destruct a; [apply client_step_inv|..].
  all: intros Hstep (past & kept & seen & hidden & Hall & Hv & Hsub & Hdr & Hfew & Hrun & Hpc).
  - destruct s as [l running joining w calls sh st sr]. pose proof (writer_sees_empty _ _ _ _ _ Hv) as Hempty.
    unfold life_pc in Hpc. simpl in *. destruct w; try discriminate Hstep; injection Hstep as <-.
    + exists past, kept, seen, hidden. split_ands; try done; [by eapply views_ext, Hv|]. unfold life_pc. simpl in *.
      destruct running, joining; [done|destruct Hpc as [_ ->]; tauto| |by destruct Hpc]. destruct (sr || _) eqn:Ht; [done|].
      split; [done|]. intros _. apply orb_false_iff in Ht as [_ Ht]. apply bool_decide_eq_false, dec_stable in Ht. by apply Hempty.
    + destruct (write_views _ _ _ _ _ _ _ _ _ _ _ _ LoopTest Hv) as (Hv' & Hd & _).
      exists past, kept, (tail seen), hidden. split_ands; try done; [by rewrite <- Hdr|]. unfold life_pc. simpl in *.
      destruct running, joining; [done|tauto|done|by destruct Hpc].
  - exists past, kept, seen, hidden. pose proof (head_views _ _ _ _ _ _ Hstep Hv) as Hv'.
    destruct s as [l running joining w calls sh st sr]. simpl in Hstep. case_decide; [done|]. injection Hstep as <-. by split_ands.
  - destruct (tail_views _ _ _ _ _ _ Hstep Hv) as (Hw & a & hidden' & -> & Hv'). exists past, kept, (seen ++ [a]), hidden'.
    destruct s as [l running joining w calls sh st sr]. unfold life_pc in *. simpl in *.
    destruct w; (destruct Hw; try done); (case_decide; [done|]); injection Hstep as <-.
    all: split_ands; try done; simpl in *; (destruct running, joining; [done|done|by split|by destruct Hpc]).
  - exists past, kept, seen, hidden. destruct s as [l running joining w calls sh st sr]. unfold life_pc in *. simpl in *.
    destruct w; try discriminate Hstep; (case_decide; [done|]); injection Hstep as <-.
    all: split_ands; try done; [by eapply views_ext, Hv|]; simpl in *.
    all: destruct running, joining; [done|by split; [apply Hpc|]|done|by destruct Hpc].
Qed.

Lemma life_reachable cap all s s' : rtc life_step s s' -> life_inv cap all s -> life_inv cap all s'.
Proof. induction 1 as [|s s1 s' [a Ha] _ IH]; eauto using agent_step_inv. Qed.

(** ** What the file holds

    When all calls have returned: the file holds the lines of accepted records
    in the order of the calls, those still in the ring apart; the others are
    counted, none if there is room for all; if the logger is stopped, its
    last writer has written all that it has seen of the ring. *)
Lemma file_when_finished (q : queue) calls s :
  holds q [] -> rtc life_step (logging_init q calls) s -> finished s ->
  let l := lo_logger s in let offered := omap call_record calls in
  exists kept waiting, holds (lg_queue l) waiting /\ sublist kept offered /\
    lg_out l ++ map log_line waiting = map log_line kept /\
    lg_drops l = u64 (Z.of_nat (length offered) - Z.of_nat (length kept)) /\
    (Z.of_nat (length offered) < ring_capacity q -> kept = offered) /\
    (runs_after calls = false -> lo_seen_tail s = rg_head (lg_queue l)) /\
    (rg_head (lg_queue l) = rg_tail (lg_queue l) -> lg_out l = map log_line kept).
Proof.
  intros Hq Hreach [Hcalls Hj] l offered.
  destruct (life_reachable _ calls _ _ Hreach (life_inv_init q calls Hq)) as
    (past & kept & seen & hidden & Hall & Hv & Hsub & Hdr & Hfew & Hrun & Hpc).
  rewrite Hcalls, app_nil_r in Hall. subst past. destruct (ring_views_holds _ _ _ _ _ Hv) as (h & Hr & _).
  pose proof (rv_wf _ _ _ _ _ Hv) as Hwf. pose proof (rv_out _ _ _ _ _ Hv) as Hout.
  exists kept, (seen ++ hidden). split_ands; try done.
  - split; [done|]. by exists h.
  - intros Hend. symmetry. apply (writer_sees_empty _ _ _ _ _ Hv). unfold life_pc in Hpc. rewrite Hj, Hrun, Hend in Hpc. apply Hpc.
  - intros He. apply (repr_empty _ _ _ Hwf Hr) in He. rewrite He, app_nil_r in Hout. done.
Qed.

(** ** Runs *)

Fixpoint life_run (sched : list logger_agent) (s : logging) : option logging :=
  match sched with
  | [] => Some s
  | a :: sched => s' ← agent_step a s; life_run sched s'
  end.

Lemma life_run_reach sched s s' : life_run sched s = Some s' -> rtc life_step s s'.
Proof.
  revert s. induction sched as [|a sched IH]; intros s; simpl; [by intros [= ->]|].
  intros (s1 & Hs1 & Hrun)%bind_Some. eapply rtc_l; [by exists a|by apply IH].
Qed.

(** The store to [running_] may arrive before that to [tail_]: [stop] returns,
    and the record logged before it is neither in the file nor counted. *)
Lemma unseen_record_left :
  exists s, rtc life_step (logging_init demo_ring [Start; LogCall 5 Info "TEST" "hello"; Stop]) s /\
    finished s /\ lg_out (lo_logger s) = [] /\ lg_drops (lo_logger s) = 0.
Proof.
  eexists. split.
  - eapply (life_run_reach [Client; Client; Client; FlagArrives; Writer; Client]). vm_compute. reflexivity.
  - by repeat split.
Qed.

Definition demo_calls : list client_call :=
  [Start; LogCall 1 Info "book" "first"; LogCall 2 Warn "book" "dropped"; LogCall 3 Info "book" "second"; Stop].
