(* ===== verification/LoggerEnds.v ===== *)
(** * LoggerEnds: under fair scheduling all calls to the logger return

    The two threads of [LoggerLife] under a scheduler that runs each of them
    again and again, on memory where every store arrives in the end: [start],
    [log], [stop] and the destructor return, and then the file holds what
    [file_when_finished] says. *)

From S2P Require Import Prelude Ring Logger Fairness LoggerLife.

Implicit Types s : logging.

Definition thread_step (a : logger_agent) s s' : Prop := agent_step a s = Some s'.
Definition agents : list logger_agent := [Client; Writer; HeadArrives; TailArrives; FlagArrives].

Lemma thread_step_life a s s' : thread_step a s s' -> life_step s s'.
Proof. by exists a. Qed.

(** ** Rank

    The calls still to make, and in a join whether the writer still has to see
    the flag; then the records still to be written and the place of the writer
    in its loop. *)

Definition writer_busy s : bool := match lo_writer s with LoopTest | Body => true | _ => false end.
Definition sees_record s : bool := bool_decide (rg_head (lg_queue (lo_logger s)) <> lo_seen_tail s).
Definition writer_rank s : nat :=
  match lo_writer s with LoopTest => 2 | Body => if sees_record s then 1 else 3 | _ => 0 end.
Definition logger_rank (total : nat) s : rank4 :=
  if lo_joining s then
    ((2 * length (lo_calls s) + 1)%nat,
      if lo_seen_running s && writer_busy s then (1%nat, (O, O))
      else (O, ((total - length (lg_out (lo_logger s)))%nat, writer_rank s)))
  else ((2 * length (lo_calls s))%nat, (O, (O, O))).
Definition logger_helper s : logger_agent :=
  if lo_joining s && writer_busy s then if lo_seen_running s then FlagArrives else Writer else Client.

Lemma omap_length_le calls : (length (omap call_record calls) <= length calls)%nat.
Proof. induction calls as [|c calls IH]; [done|]. csimpl. destruct (call_record c); csimpl; lia. Qed.

(** No more records are written than there are calls. *)
Lemma out_bound cap all s : life_inv cap all s ->
  (length (lg_out (lo_logger s)) <= length all)%nat /\
  (sees_record s = true -> length (lg_out (lo_logger s)) < length all)%nat.
Proof.
  intros (past & kept & seen & hidden & -> & Hv & Hsub & _). pose proof (kept_length _ _ _ _ _ Hv) as Hk.
  apply sublist_length in Hsub. pose proof (omap_length_le past). rewrite length_app. split; [lia|].
  unfold sees_record. intros Hne%bool_decide_eq_true. rewrite (writer_sees_empty _ _ _ _ _ Hv) in Hne.
  destruct seen; [done|]. simpl in *. lia.
Qed.

Lemma client_advances total s s' : client_step s = Some s' -> rank4_lt (logger_rank total s') (logger_rank total s).
Proof.
  destruct s as [l running joining w calls sh st sr]. simpl. intros Hstep. unfold logger_rank, writer_busy.
  destruct joining; [destruct w; simplify_eq/=; rewrite ?andb_false_r; apply rank4_lt_intro; lia|].
  destruct calls as [|[] calls]; [done|..]; destruct running; simplify_eq/=; try (apply rank4_lt_intro; lia).
  destruct (sr && _); apply rank4_lt_intro; lia.
Qed.

(** Outside a join the others change nothing that the rank counts. *)
Lemma others_neutral total a s s' : a <> Client -> lo_joining s = false -> agent_step a s = Some s' ->
  logger_rank total s' = logger_rank total s /\ logger_helper s' = logger_helper s.
Proof.
  destruct s as [l running joining w calls sh st sr]. intros Ha Hj Hstep. simpl in Hj. subst joining.
  destruct a; simpl in Hstep; [done|..].
  - by destruct w; simplify_eq/=.
  - by case_decide; simplify_eq/=.
  - by destruct w; [|case_decide..|]; simplify_eq/=.
  - by destruct w; [|case_decide..|]; simplify_eq/=.
Qed.

(** What a writer step does to the file and to what it sees. *)
Lemma write_out cap all l running joining calls sh st sr :
  let s := mkLogging l running joining Body calls sh st sr in
  life_inv cap all s ->
  length (lg_out (writer_write st l)) = (length (lg_out l) + if sees_record s then 1 else 0)%nat.
Proof.
  intros s (past & kept & seen & hidden & _ & Hv & _).
  destruct (write_views _ _ _ _ _ _ _ _ _ _ _ _ LoopTest Hv) as (_ & _ & ->). f_equal.
  pose proof (writer_sees_empty _ _ _ _ _ Hv) as He. unfold sees_record. case_bool_decide as Hd.
  - destruct seen; [|done]. exfalso. apply Hd, He. done.
  - apply He in Hd. by subst.
Qed.

(** A store to [tail_] that arrives shows a record. *)
Lemma arrival_seen cap all s s' : life_inv cap all s -> tail_arrives s = Some s' -> sees_record s' = true.
Proof.
  intros (past & kept & seen & hidden & _ & Hv & _) Hstep.
  destruct (tail_views _ _ _ _ _ _ Hstep Hv) as (_ & a & hidden' & _ & Hv'). unfold sees_record.
  apply bool_decide_eq_true. rewrite (writer_sees_empty _ _ _ _ _ Hv'). by destruct seen.
Qed.

(** In a join: the flag arrives, then the writer empties what it sees. *)
Lemma join_advances cap all a s s' :
  life_inv cap all s -> lo_joining s = true -> a <> Client -> agent_step a s = Some s' ->
  rank4_lt (logger_rank (length all) s') (logger_rank (length all) s) \/
  a <> logger_helper s /\ logger_rank (length all) s' = logger_rank (length all) s /\ logger_helper s' = logger_helper s.
Proof.
  intros Hinv Hj Ha Hstep. pose proof (out_bound _ _ _ Hinv) as [_ Hout].
  pose proof (arrival_seen _ _ s s' Hinv) as Harr. pose proof Hinv as (past & kept & seen & hidden & _ & _ & _ & _ & _ & _ & Hpc).
  destruct s as [l running joining w calls sh st sr]. unfold life_pc, logger_rank, logger_helper, writer_busy, writer_rank in *.
  simpl in Hj, Hpc. subst joining. destruct running; [done|]. destruct a; [done|..].
  - destruct w; try discriminate Hstep; injection Hstep as <-; simpl; (destruct sr; [by right|left]); apply rank4_lt_intro.
    + unfold sees_record in *. simpl in *. destruct (bool_decide _) eqn:Hd; simpl; rewrite ?Hd; lia.
    + pose proof (write_out cap all _ _ _ _ _ _ _ Hinv) as Hw. simpl in Hw. rewrite Hw. clear Hw Harr.
      destruct (sees_record (mkLogging l false true Body calls sh st false)); [|lia].
      specialize (Hout eq_refl). simpl in Hout. lia.
  - right. simpl in Hstep. case_decide; [done|]. injection Hstep as <-. by destruct w, sr.
  - specialize (Harr Hstep). simpl in Hstep. destruct w; try done; (case_decide; [done|]); injection Hstep as <-; simpl.
    + right. by destruct sr.
    + destruct sr; [by right|]. rewrite Harr.
      destruct (sees_record (mkLogging l false true Body calls sh st false)); [by right|left]. apply rank4_lt_intro. lia.
  - simpl in Hstep. destruct w; try done; (case_decide; [done|]); injection Hstep as <-; simpl.
    all: left; destruct sr; [apply rank4_lt_intro; lia|done].
Qed.

Lemma logger_helper_steps cap all s : life_inv cap all s -> ~ finished s -> can_step thread_step (logger_helper s) s.
Proof.
  intros (past & kept & seen & hidden & _ & _ & _ & _ & _ & _ & Hpc) Hgoal.
  unfold can_step, thread_step, logger_helper, finished, life_pc, writer_busy in *.
  destruct s as [l running joining w calls sh st sr]. simpl in *. destruct joining; simpl.
  - destruct running; [done|]. destruct w; simpl; eauto; destruct sr; simpl; eauto.
  - destruct calls as [|[] calls]; [tauto|..]; destruct running; simpl; eauto.
Qed.

#[local] Instance finished_dec s : Decision (finished s).
Proof. unfold finished. apply _. Defined.

(** ** The claim *)

Lemma fair_finishes (q : ring LogRecord) calls (tr : nat -> logging) sched :
  holds q [] -> tr O = logging_init q calls -> execution thread_step tr sched -> fair agents sched ->
  exists n, finished (tr n).
Proof.
  intros Hq Hinit Hexec Hfair.
  assert (forall n, life_inv (ring_capacity q) calls (tr n)) as Hinv.
  { intros n. apply (life_reachable _ calls (logging_init q calls)); [|by apply life_inv_init].
    eapply execution_reaches; [exact thread_step_life|exact Hexec|by rewrite Hinit]. }
  destruct (goal_reached thread_step rank4_lt (logger_rank (length calls)) logger_helper finished
    tr sched agents rank4_wf Hexec Hfair) with (a := logger_rank (length calls) (tr O)) (n := O) as (n & _ & Hfin).
  - intros n. unfold agents. destruct (logger_helper _); set_solver.
  - intros n. by eapply logger_helper_steps.
  - intros n t s' _ Hstep _. destruct (decide (t = Client)) as [->|Ht]; [left; by apply client_advances|].
    destruct (lo_joining (tr n)) eqn:Hj; [by eapply join_advances|right].
    split; [|by eapply others_neutral]. unfold logger_helper. by rewrite Hj.
  - done.
  - by exists n.
Qed.

(** C32. On memory as weak as the relaxed load of [running_] allows: whatever
    the calls to [start], [log] and [stop] of the client, if both threads run
    again and again and every store becomes visible in the end, all calls
    return, so [stop] and the destructor do not block for ever. Whenever all
    calls have returned, the file holds the lines of accepted records in the
    order of the calls, except those that are still in the ring; the records
    not accepted are counted, and there are none if all fit into the ring. If
    the logger is stopped at the end, its last writer has emptied the ring up
    to the last store to [tail_] that it saw, so a record can be left behind
    only if it was logged after the last [stop] or if that store had not
    arrived when the writer saw the flag; no accepted record is missing if the
    ring is empty. *)
Theorem logger_calls_return (q : ring LogRecord) calls (tr : nat -> logging) sched :
  holds q [] -> tr O = logging_init q calls -> execution thread_step tr sched -> fair agents sched ->
  (exists n, finished (tr n)) /\
  forall n, finished (tr n) ->
    let l := lo_logger (tr n) in let offered := omap call_record calls in
    exists kept waiting, holds (lg_queue l) waiting /\ sublist kept offered /\
      lg_out l ++ map log_line waiting = map log_line kept /\
      lg_drops l = u64 (Z.of_nat (length offered) - Z.of_nat (length kept)) /\
      (Z.of_nat (length offered) < ring_capacity q -> kept = offered) /\
      (runs_after calls = false -> lo_seen_tail (tr n) = rg_head (lg_queue l)) /\
      (rg_head (lg_queue l) = rg_tail (lg_queue l) -> lg_out l = map log_line kept).
Proof.
  intros Hq Hinit Hexec Hfair. split; [by eapply fair_finishes|]. intros n Hfin.
  apply (file_when_finished q calls (tr n)); [done| |done].
  eapply execution_reaches; [exact thread_step_life|exact Hexec|by rewrite Hinit].
Qed.

(** ** Witness: the agents take turns *)

Definition turn (n : nat) : logger_agent :=
  match (n mod 5)%nat with 0%nat => Client | 1%nat => Writer | 2%nat => HeadArrives | 3%nat => TailArrives | _ => FlagArrives end.
Fixpoint turns_of (s : logging) (n : nat) : logging :=
  match n with O => s | S n => let s' := turns_of s n in default s' (agent_step (turn n) s') end.

Lemma turns_execution s : execution thread_step (turns_of s) turn.
Proof.
  intros n. rewrite Nat.add_1_r. unfold can_step, thread_step. simpl.
  destruct (agent_step _ _) as [s'|] eqn:Hs; [by left|right]. split; [|done]. by intros [? ?].
Qed.

Lemma turn_at n k : (k < 5)%nat -> ((5 * n + k) mod 5)%nat = k.
Proof. intros Hk. rewrite (Nat.mul_comm 5), Nat.add_comm, Nat.Div0.mod_add. by apply Nat.mod_small. Qed.

Lemma turns_fair : fair agents turn.
Proof.
  intros a n _. destruct a;
    [exists (5 * n + 0)%nat|exists (5 * n + 1)%nat|exists (5 * n + 2)%nat|exists (5 * n + 3)%nat|exists (5 * n + 4)%nat];
    (split; [lia|]); unfold turn; by rewrite turn_at by lia.
Qed.

Lemma logger_calls_return_witness :
  exists n kept, finished (turns_of (logging_init demo_ring demo_calls) n) /\
    sublist kept (omap call_record demo_calls) /\
    map log_line kept = lg_out (lo_logger (turns_of (logging_init demo_ring demo_calls) 60)) /\
    length kept = 1%nat.
Proof.
  destruct (logger_calls_return demo_ring demo_calls (turns_of (logging_init demo_ring demo_calls)) turn) as [_ Hfile].
  - by apply ring_new_holds.
  - reflexivity.
  - apply turns_execution.
  - apply turns_fair.
  - destruct (Hfile 60%nat ltac:(vm_compute; repeat split)) as (kept & waiting & _ & Hsub & _ & _ & _ & _ & Hall).
    exists 60%nat, kept. split; [vm_compute; repeat split|]. split; [exact Hsub|].
    assert (map log_line kept = lg_out (lo_logger (turns_of (logging_init demo_ring demo_calls) 60))) as Heq
      by (symmetry; apply Hall; vm_compute; reflexivity).
    split; [exact Heq|]. rewrite <- (length_map log_line), Heq. vm_compute. reflexivity.
Defined.
