(* ===== verification/UnitTests.v ===== *)
(** * UnitTests: the unit tests of the repository, evaluated on the model

    [src/tests/unit/], with [SystemTests]: each test is the conjunction of its expectations,
    evaluated by the kernel. A disagreement between the definitions and the
    behaviour that the tests record would not check. *)

From S2P Require Import Prelude Types PriceLevel OrderBook Engine Ring Csv Metrics Logger.

(** ** Helpers of the tests *)

Definition make_order (id : OrderId) (side : Side) (price qty : Z) : Order :=
  mkOrder id side Limit price 0 qty qty 0 0 0 New.
Definition make_market (id : OrderId) (side : Side) (qty : Z) : Order :=
  mkOrder id side Market 0 0 qty qty 0 0 0 New.
Definition make_iceberg (id : OrderId) (side : Side) (price total_qty peak : Z) : Order :=
  mkOrder id side Iceberg price 0 total_qty total_qty peak 0 0 New.
Definition make_stop (id : OrderId) (side : Side) (stop_price qty : Z) : Order :=
  mkOrder id side Stop 0 stop_price qty qty 0 0 0 New.
Definition make_stop_limit (id : OrderId) (side : Side) (stop_price limit_price qty : Z) : Order :=
  mkOrder id side StopLimit limit_price stop_price qty qty 0 0 0 New.

(** The engine after the events, and the result of the last one. *)
Definition run (evs : list OrderEvent) : option (MatchingEngine * MatchResult) :=
  match submit_all 100 new_engine evs with
  | Ok (e, rs) => Some (e, default empty_result (last rs))
  | _ => None
  end.

(** What the tests look at. *)
Definition trades (evs : list OrderEvent) : option (list (Z * Z * Z * Z)) :=
  '(_, r) ← run evs; Some (map (fun t => (t_aggressor_id t, t_passive_id t, t_price t, t_quantity t)) (mr_trades r)).
Definition rejections (evs : list OrderEvent) : option (list (Z * RejectReason)) :=
  '(_, r) ← run evs; Some (map (fun x => (r_order_id x, r_reason x)) (mr_rejections r)).
Definition reports (evs : list OrderEvent) : option (list (OrderStatus * Z)) :=
  '(_, r) ← run evs; Some (map (fun x => (x_status x, x_remaining_qty x)) (mr_reports r)).
Definition bbo (evs : list OrderEvent) : option (option Price * option Price) :=
  '(e, _) ← run evs; Some (best_bid (book e), best_ask (book e)).
Definition count (evs : list OrderEvent) : option Z := '(e, _) ← run evs; Some (order_count (book e)).
Definition has (id : OrderId) (evs : list OrderEvent) : option bool := '(e, _) ← run evs; Some (has_order id (book e)).
Definition stops (evs : list OrderEvent) : option (list Price) :=
  '(e, _) ← run evs; Some (map o_stop_price (pending_stops e)).
Definition ask_volume (p : Price) (evs : list OrderEvent) : option Z :=
  '(e, _) ← run evs; pl_total_volume <$> levels Sell (book e) !! p.

Definition new (o : Order) : OrderEvent := NewOrderEvent o.
Definition buy (id price qty : Z) : OrderEvent := new (make_order id Buy price qty).
Definition sell (id price qty : Z) : OrderEvent := new (make_order id Sell price qty).
Definition cancel (id : Z) : OrderEvent := CancelOrderEvent id 0.

#[local] Ltac check := repeat split; vm_compute; reflexivity.

(** ** test_price_level.cpp *)

Definition level (ids : list (Z * Z)) : PriceLevel :=
  foldl (fun l x => push_back x.1 x.2 l) (new_level 100) ids.
Definition front_id (l : PriceLevel) : option OrderId := match front l with Ok (id, _) => Some id | _ => None end.
Definition popped (q : Z) (l : PriceLevel) : PriceLevel := match pop_front q l with Ok l => l | _ => l end.

Example PushBackIncreasesVolume :
  let l := level [(1, 50)] in pl_total_volume l = 50 /\ level_size l = 1 /\ (empty l).1 = false.
Proof. check. Qed.
Example MultipleOrders :
  let l := level [(1, 30); (2, 20)] in pl_total_volume l = 50 /\ level_size l = 2.
Proof. check. Qed.
Example PopFrontDecreasesVolumeAndRemovesFront :
  let l := level [(1, 50); (2, 30)] in
  front_id l = Some 1 /\ front_id (popped 50 l) = Some 2 /\ pl_total_volume (popped 50 l) = 30.
Proof. check. Qed.
Example RemoveByIdUpdatesVolume :
  let l := remove 1 40 (level [(1, 40); (2, 60)]) in
  pl_total_volume l = 60 /\ level_size l = 1 /\ front_id l = Some 2.
Proof. check. Qed.
Example EmptyAfterAllRemoved : (empty (remove 1 10 (level [(1, 10)]))).1 = true.
Proof. check. Qed.
Example FifoOrder :
  let l := level [(10, 5); (20, 5); (30, 5)] in
  front_id l = Some 10 /\ front_id (popped 5 l) = Some 20 /\ front_id (popped 5 (popped 5 l)) = Some 30.
Proof. check. Qed.
Example ReduceFrontVolumeDoesNotPop :
  let l := reduce_front_volume 20 (level [(1, 50)]) in pl_total_volume l = 30 /\ front_id l = Some 1.
Proof. check. Qed.

(** ** test_order_book.cpp *)

Definition book_of (os : list Order) : OrderBook :=
  foldl (fun b o => insert_order (set_status Resting o) b) empty_book os.

Example InsertBuyAppearsBidSide :
  let b := book_of [make_order 1 Buy 100 50] in best_bid b = Some 100 /\ best_ask b = None.
Proof. check. Qed.
Example InsertSellAppearsAskSide :
  let b := book_of [make_order 1 Sell 105 50] in best_ask b = Some 105 /\ best_bid b = None.
Proof. check. Qed.
Example BestBidIsHighestPrice :
  best_bid (book_of [make_order 1 Buy 100 10; make_order 2 Buy 105 10; make_order 3 Buy 98 10]) = Some 105.
Proof. check. Qed.
Example BestAskIsLowestPrice :
  best_ask (book_of [make_order 1 Sell 110 10; make_order 2 Sell 105 10; make_order 3 Sell 115 10]) = Some 105.
Proof. check. Qed.
Example CancelOrderRemovesFromBook :
  let '(ok, b) := cancel_order 1 (book_of [make_order 1 Buy 100 50]) in
  ok = true /\ best_bid b = None /\ order_count b = 0.
Proof. check. Qed.
Example CancelNonExistentReturnsFalse : (cancel_order 999 empty_book).1 = false.
Proof. check. Qed.
Example EmptyBookReturnsNullopt :
  best_bid empty_book = None /\ best_ask empty_book = None /\ mid_price empty_book = Ok None /\
  spread empty_book = Ok None.
Proof. check. Qed.
Example MidPriceAndSpread :
  let b := book_of [make_order 1 Buy 100 10; make_order 2 Sell 110 10] in
  mid_price b = Ok (Some 105) /\ spread b = Ok (Some 10).
Proof. check. Qed.
Example HasOrder :
  let b := book_of [make_order 42 Buy 100 10] in has_order 42 b = true /\ has_order 99 b = false.
Proof. check. Qed.

(** ** test_matching_limit.cpp *)

Example NoMatchBuyBelowAsk :
  let evs := [sell 1 105 50; buy 2 100 50] in trades evs = Some [] /\ bbo evs = Some (Some 100, Some 105).
Proof. check. Qed.
Example NoMatchSellAboveBid :
  let evs := [buy 1 100 50; sell 2 105 50] in trades evs = Some [] /\ bbo evs = Some (Some 100, Some 105).
Proof. check. Qed.
Example FullMatch :
  let evs := [sell 1 100 50; buy 2 100 50] in
  trades evs = Some [(2, 1, 100, 50)] /\ bbo evs = Some (None, None).
Proof. check. Qed.
Example PartialMatchAggressorSmaller :
  let evs := [sell 1 100 100; buy 2 100 40] in
  trades evs = Some [(2, 1, 100, 40)] /\ bbo evs = Some (None, Some 100) /\ count evs = Some 1.
Proof. check. Qed.
Example PartialMatchAggressorLarger :
  let evs := [sell 1 100 40; buy 2 100 100] in
  trades evs = Some [(2, 1, 100, 40)] /\ bbo evs = Some (Some 100, None).
Proof. check. Qed.
Example MultiLevelSweep :
  let evs := [sell 1 100 10; sell 2 101 10; sell 3 102 10; buy 4 103 30] in
  trades evs = Some [(4, 1, 100, 10); (4, 2, 101, 10); (4, 3, 102, 10)] /\ bbo evs = Some (None, None).
Proof. check. Qed.
Example FifoPriority :
  let evs := [sell 1 100 30; sell 2 100 30; buy 3 100 30] in
  trades evs = Some [(3, 1, 100, 30)] /\ bbo evs = Some (None, Some 100).
Proof. check. Qed.
Example NoBookCrossingInvariant :
  bbo [buy 1 99 10; sell 2 101 10; buy 3 98 5; sell 4 102 5] = Some (Some 99, Some 101).
Proof. check. Qed.

(** ** test_matching_market.cpp *)

Definition market (id : Z) (s : Side) (qty : Z) : OrderEvent := new (make_market id s qty).

Example BuyFillsCompletelyAgainstRestingAsk :
  let evs := [sell 1 100 50; market 2 Buy 50] in
  trades evs = Some [(2, 1, 100, 50)] /\ bbo evs = Some (None, None).
Proof. check. Qed.
Example BuySweepsMultipleLevels :
  let evs := [sell 1 100 10; sell 2 101 10; sell 3 102 10; market 4 Buy 30] in
  trades evs = Some [(4, 1, 100, 10); (4, 2, 101, 10); (4, 3, 102, 10)] /\ rejections evs = Some [].
Proof. check. Qed.
Example BuyOnEmptyBookIsRejected :
  let evs := [market 1 Buy 50] in trades evs = Some [] /\ rejections evs = Some [(1, MarketExhausted)].
Proof. check. Qed.
Example BuyLargerThanLiquidityPartialFillThenRejected :
  let evs := [sell 1 100 20; market 2 Buy 50] in
  trades evs = Some [(2, 1, 100, 20)] /\ rejections evs = Some [(2, MarketExhausted)] /\ bbo evs = Some (None, None).
Proof. check. Qed.
Example SellFillsCompletelyAgainstRestingBid :
  let evs := [buy 1 100 50; market 2 Sell 50] in
  trades evs = Some [(2, 1, 100, 50)] /\ bbo evs = Some (None, None).
Proof. check. Qed.
Example SellSweepsMultipleLevels :
  trades [buy 1 102 10; buy 2 101 10; buy 3 100 10; market 4 Sell 30] =
    Some [(4, 1, 102, 10); (4, 2, 101, 10); (4, 3, 100, 10)].
Proof. check. Qed.
Example SellOnEmptyBookIsRejected : rejections [market 1 Sell 50] = Some [(1, MarketExhausted)].
Proof. check. Qed.

(** ** test_cancel.cpp *)

Example CancelRestingOrderSucceeds :
  let evs := [buy 1 100 50; cancel 1] in
  rejections evs = Some [] /\ reports evs = Some [(Cancelled, 50)] /\ has 1 evs = Some false /\
  bbo evs = Some (None, None).
Proof. check. Qed.
Example CancelNonExistentOrderReturnsRejection :
  reports [cancel 999] = Some [] /\ rejections [cancel 999] = Some [(999, OrderNotFound)].
Proof. check. Qed.
Example CancelAlreadyFilledOrder : rejections [sell 1 100 50; buy 2 100 50; cancel 1] = Some [(1, OrderNotFound)].
Proof. check. Qed.
Example CancelReducesBookOrderCount :
  count [buy 1 100 10; buy 2 101 10] = Some 2 /\ count [buy 1 100 10; buy 2 101 10; cancel 1] = Some 1.
Proof. check. Qed.
Example CancelSellOrder :
  let evs := [sell 1 105 30; cancel 1] in reports evs = Some [(Cancelled, 30)] /\ bbo evs = Some (None, None).
Proof. check. Qed.

(** ** test_modify.cpp *)

Definition modify (id price qty ts : Z) : OrderEvent := ModifyOrder (mkModify id price qty ts).

Example QuantityReductionPreservesPosition :
  trades [sell 1 100 60; sell 2 100 40; modify 1 0 30 0; buy 3 100 30] = Some [(3, 1, 100, 30)].
Proof. check. Qed.
Example PriceChangeLosesPriority :
  trades [sell 1 100 30; sell 2 100 30; modify 1 101 0 10; buy 3 101 60] =
    Some [(3, 2, 100, 30); (3, 1, 101, 30)].
Proof. check. Qed.
Example QuantityIncreaseLosesPriority :
  trades [sell 1 100 20; sell 2 100 20; modify 1 0 40 10; buy 3 100 20] = Some [(3, 2, 100, 20)].
Proof. check. Qed.
Example ModifyNonExistentOrderRejected : rejections [modify 999 105 0 0] = Some [(999, OrderNotFound)].
Proof. check. Qed.
Example LevelVolumeUpdatedOnQtyReduction :
  let evs := [sell 1 100 80; modify 1 0 30 0] in
  bbo evs = Some (None, Some 100) /\ count evs = Some 1 /\ ask_volume 100 evs = Some 30.
Proof. check. Qed.

(** ** test_replace.cpp *)

Definition replace (old id : Z) (s : Side) (price qty : Z) : OrderEvent :=
  ReplaceOrderEvent old (make_order id s price qty).

Example ReplaceExistingOrderRemovesOldInsertsNew :
  let evs := [buy 1 100 50; replace 1 2 Buy 99 30] in
  trades evs = Some [] /\ rejections evs = Some [] /\ has 1 evs = Some false /\ has 2 evs = Some true /\
  bbo evs = Some (Some 99, None).
Proof. check. Qed.
Example ReplaceWithImmediatelyMatchingNewOrder :
  let evs := [sell 1 100 50; buy 2 95 50; replace 2 3 Buy 100 50] in
  trades evs = Some [(3, 1, 100, 50)] /\ bbo evs = Some (None, None).
Proof. check. Qed.
Example ReplaceNonExistentOrderRejectsAndNoNewOrder :
  let evs := [replace 999 2 Buy 100 30] in
  rejections evs = Some [(999, OrderNotFound)] /\ has 2 evs = Some false /\ count evs = Some 0.
Proof. check. Qed.
Example ReplacePreservesOtherOrdersOnBook :
  let evs := [buy 1 100 20; buy 2 99 20; replace 1 3 Buy 98 15] in
  has 1 evs = Some false /\ has 2 evs = Some true /\ has 3 evs = Some true /\ count evs = Some 2 /\
  bbo evs = Some (Some 99, None).
Proof. check. Qed.

(** ** test_iceberg.cpp *)

Definition iceberg (id : Z) (price total peak : Z) : OrderEvent := new (make_iceberg id Sell price total peak).

Example OnlyPeakVisibleOnBook :
  let evs := [iceberg 1 100 100 20] in bbo evs = Some (None, Some 100) /\ ask_volume 100 evs = Some 20.
Proof. check. Qed.
Example PeakExhaustedThenReplenished :
  let evs := [iceberg 1 100 60 20; buy 2 100 20] in
  trades evs = Some [(2, 1, 100, 20)] /\ count evs = Some 1 /\ ask_volume 100 evs = Some 20.
Proof. check. Qed.
Example ReplenishmentResetsTimePriority :
  trades [iceberg 1 100 40 20; sell 2 100 20; buy 3 100 20; buy 4 100 20] = Some [(4, 2, 100, 20)].
Proof. check. Qed.
Example FullExhaustionRemovesOrder :
  let evs := [iceberg 1 100 40 20; buy 2 100 40] in
  trades evs = Some [(2, 1, 100, 20); (2, 1, 100, 20)] /\ bbo evs = Some (None, None) /\ count evs = Some 0.
Proof. check. Qed.
Example AggressorFillsMultipleReplenishments :
  let evs := [iceberg 1 100 60 20; buy 2 100 60] in
  trades evs = Some [(2, 1, 100, 20); (2, 1, 100, 20); (2, 1, 100, 20)] /\ bbo evs = Some (None, None).
Proof. check. Qed.
Example TwoIcebergsFifoRespected :
  trades [iceberg 1 100 40 20; iceberg 2 100 40 20; buy 3 100 20] = Some [(3, 1, 100, 20)].
Proof. check. Qed.

(** ** test_stop_orders.cpp *)

Definition stop (id : Z) (s : Side) (stop_price qty : Z) : OrderEvent := new (make_stop id s stop_price qty).

Example BuyStopPlacedInPendingNotOnBook :
  let evs := [stop 1 Buy 105 30] in
  bbo evs = Some (None, None) /\ has 1 evs = Some false /\ stops evs = Some [105].
Proof. check. Qed.
Example BuyStopTriggeredByTrade :
  let evs := [sell 1 100 50; stop 2 Buy 100 30; sell 3 100 30; buy 4 100 50] in
  trades evs = Some [(4, 1, 100, 50); (2, 3, 100, 30)] /\ stops evs = Some [].
Proof. check. Qed.
Example SellStopTriggeredByTrade :
  let evs := [buy 1 100 50; stop 2 Sell 100 30; buy 3 100 30; sell 4 100 50] in
  trades evs = Some [(4, 1, 100, 50); (2, 3, 100, 30)] /\ stops evs = Some [].
Proof. check. Qed.
Example StopLimitTriggeredRestsAsLimit :
  let evs := [buy 1 100 50; new (make_stop_limit 2 Sell 100 99 30); sell 3 100 50] in
  trades evs = Some [(3, 1, 100, 50)] /\ stops evs = Some [] /\ bbo evs = Some (None, Some 99).
Proof. check. Qed.
Example ImmediateTriggerOnSubmit :
  let evs := [sell 1 100 10; buy 2 100 10; sell 3 100 30; stop 4 Buy 100 30] in
  trades evs = Some [(4, 3, 100, 30)] /\ stops evs = Some [].
Proof. check. Qed.
Example MultipleStopsOnlyCorrectOnesTrigger :
  stops [sell 1 100 200; stop 2 Buy 100 10; stop 3 Buy 110 10; buy 4 100 50] = Some [110].
Proof. check. Qed.
Example CancelStopBeforeTrigger :
  let evs := [stop 1 Buy 105 30; cancel 1] in
  rejections evs = Some [] /\ reports evs = Some [(Cancelled, 30)] /\ stops evs = Some [].
Proof. check. Qed.

(** ** test_phase4.cpp: queue, reader, logger, histogram, metrics

    The other tests of the file are in [SystemTests]. *)

Definition queue_of (capacity : Z) (l : list Z) : ring Z :=
  foldl (fun q a => (push a q).2) (ring_new 64 capacity 0) l.
Fixpoint pops (n : nat) (q : ring Z) : list (option Z) :=
  match n with O => [] | S n => let '(a, q) := pop q in a :: pops n q end.

Example PushPopSingleItem :
  let q := queue_of 4 [] in
  ring_empty q = true /\ (push 42 q).1 = true /\ ring_empty (push 42 q).2 = false /\
  (pop (push 42 q).2).1 = Some 42 /\ ring_empty (pop (push 42 q).2).2 = true.
Proof. check. Qed.
Example PopEmptyReturnsFalse : (pop (queue_of 4 [])).1 = None.
Proof. check. Qed.
Example PushFullReturnsFalse : (push 3 (queue_of 4 [1; 2])).1 = true /\ (push 4 (queue_of 4 [1; 2; 3])).1 = false.
Proof. check. Qed.
Example QueueFifoOrder : pops 7 (queue_of 8 [0; 1; 2; 3; 4; 5; 6]) = map Some [0; 1; 2; 3; 4; 5; 6].
Proof. check. Qed.

(** Number of events read, and of errors. *)
Fixpoint read_events (fuel : nat) (r : CsvReplayReader) (count : nat) : res (nat * Z) :=
  match fuel with
  | O => NoFuel
  | S fuel =>
      '(ev, r) ← Csv.next r;
      match ev with None => Ok (count, error_count_ r) | Some _ => read_events fuel r (S count) end
  end.

Example SkipsMalformedLines :
  read_events 10 (open_reader "event_type,order_id,side,order_type,price,quantity,peak_qty,stop_price,timestamp
NEW,1,BUY,LIMIT,100,50,0,0,1700000000000000000
GARBAGE_LINE
NEW,2,SELL,LIMIT,100,50,0,0,1700000000000001000
") 0 = Ok (2%nat, 1).
Proof. check. Qed.

Example DropsOnFull :
  let msg := Log 0 Debug "TEST" "msg" in
  match logger_new 33 4 with Ok l => 0 < lg_drops (log_run (replicate 100 msg) l) | _ => False end.
Proof. vm_compute. reflexivity. Qed.

Definition to_100 : list Z := map (fun k => Z.of_nat (S k)) (seq 0 100).

Example RecordAndPercentile :
  let h := record_all to_100 empty_histogram in
  count_ h = 100 /\ max_ h = 100 /\ p50 h = Ok 50.
Proof. check. Qed.
Example HistogramReset : count_ (reset (record 42 empty_histogram)) = 0 /\ max_ (reset (record 42 empty_histogram)) = 0.
Proof. check. Qed.
Example CountersIncrement :
  let m := metrics_run [record_trade; record_trade; record_rejection; record_cancel] (new_metrics tt) in
  trade_count_ m = 2 /\ rejection_count_ m = 1 /\ cancel_count_ m = 1.
Proof. check. Qed.
