(* ===== verification/SystemTests.v ===== *)
(** * SystemTests: unit tests with files, threads and random numbers

    The tests of [src/tests/unit/test_phase4.cpp] that [UnitTests] leaves out:
    the replays of the event files, the generator (for every random source without wild draws),
    the logger with its writer thread, and the snapshot file. *)

From S2P Require Import Prelude Types PriceLevel OrderBook Engine Ring Csv Scenarios Metrics Session Generator.
From S2P Require Import Snapshot UnitTests Logger Fairness LoggerLife LoggerEnds.

#[local] Ltac check := repeat split; vm_compute; reflexivity.

(** ** Replays

    The replay is a function of the file, so two replays of it have the same
    trades; here the trades are evaluated. *)

Fixpoint run_replay (fuel : nat) (reader : CsvReplayReader) (engine : MatchingEngine) (all_trades : list Trade)
    : res (list Trade) :=
  match fuel with
  | O => NoFuel
  | S fuel =>
      '(event, reader) ← Csv.next reader;
      match event with
      | None => Ok all_trades
      | Some event =>
          '(engine, result) ← submit 100 engine event;
          run_replay fuel reader engine (all_trades ++ mr_trades result)
      end
  end.
Definition replayed (file : string) : option (list (Z * Z * Z * Z)) :=
  match run_replay 100 (open_reader file) new_engine [] with
  | Ok ts => Some (map (fun t => (t_aggressor_id t, t_passive_id t, t_price t, t_quantity t)) ts)
  | _ => None
  end.

Example ReadsLimitOrders : read_events 30 (open_reader basic_limit) 0 = Ok (20%nat, 0).
Proof. check. Qed.
Example BasicLimitProducesTrades : length <$> replayed basic_limit = Some 14%nat.
Proof. check. Qed.
Example StopTriggerReplayed : replayed stop_trigger = Some
  [(4, 1, 10050, 50); (100, 1, 10050, 30); (6, 2, 10040, 80); (101, 2, 10040, 20); (8, 1, 10050, 20);
   (8, 7, 10050, 50); (8, 3, 10060, 30)].
Proof. check. Qed.

(** ** Generator, for every random source *)

Section generator.
Context `{RandomLaws}.
Context (tame : forall c, ~ wild_draw c).

Lemma generates_max n : forall used g,
  gen_inv used g -> mid_ok g -> max_events_ g - event_count_ g <= Z.of_nat n ->
  exists evs g', generate n g = Ok (evs, g') /\ Z.of_nat (length evs) = max_events_ g - event_count_ g.
Proof using All.
  induction n as [|n IH]; intros used g Hinv Hmid Hn; simpl; pose proof (gi_max _ _ Hinv) as [Hle _].
  { eexists [], _. split; [done|]. simpl. lia. }
  destruct (next_cases used g Hinv Hmid) as [(oev & g1 & Hnext & Hmid1 & _)|[_ []%tame]]. rewrite Hnext, bind_ok.
  pose proof (next_ok used g oev g1 Hinv Hnext) as Hok. destruct oev as [ev|].
  - destruct Hok as (Hok & Hc & Hm & Hlt).
    destruct (IH _ g1 (event_ok_inv _ _ _ _ Hok) Hmid1) as (evs & g2 & Hgen & Hlen); [lia|].
    rewrite Hgen, bind_ok. eexists _, _. split; [done|]. simpl. lia.
  - eexists [], _. split; [done|]. destruct (decide (max_events_ g <= event_count_ g)) as [Hge|Hlt]; [simpl; lia|].
    exfalso. unfold next in Hnext. rewrite decide_False in Hnext by done. cbv zeta in Hnext.
    destruct (match live_orders_ _ with [] => _ | _ => _ end) as [b r].
    by apply bind_ok_inv in Hnext as ([ev g2] & _ & [=]).
Qed.

Lemma new_generates_max config m seeded n :
  is_u64 m -> - 2 ^ 62 <= cfg_mid_price config < 2 ^ 62 -> m <= Z.of_nat n ->
  exists evs g, generate n (new_generator config m seeded) = Ok (evs, g) /\ Z.of_nat (length evs) = m.
Proof using All.
  intros Hm Hmid Hn.
  destruct (generates_max n ∅ (new_generator config m seeded)) as (evs & g & Hgen & Hlen);
    [by apply new_generator_inv|done|simpl; lia|].
  exists evs, g. split; [done|]. simpl in Hlen. lia.
Qed.

(** All 100 calls succeed; both generators are the same function of the seed. *)
Lemma FixedSeedProducesIdenticalSequence seeded :
  exists evs g, generate 100 (new_generator default_config 100 seeded) = Ok (evs, g) /\ length evs = 100%nat.
Proof using All.
  destruct (new_generates_max default_config 100 seeded 100) as (evs & g & Hgen & Hlen); [done|simpl; lia|lia|].
  exists evs, g. split; [done|lia].
Qed.

Lemma RespectsMaxEvents seeded :
  exists evs g, generate 11 (new_generator default_config 10 seeded) = Ok (evs, g) /\ length evs = 10%nat.
Proof using All.
  destruct (new_generates_max default_config 10 seeded 11) as (evs & g & Hgen & Hlen); [done|simpl; lia|lia|].
  exists evs, g. split; [done|lia].
Qed.
End generator.

Definition no_cancels `{Random} : EngineConfig :=
  set_rates (literal 1000 1) (literal 0 1) (literal 20 1) default_config.
Definition is_new (ev : OrderEvent) : Prop := match ev with NewOrderEvent _ => True | _ => False end.

(** [uniform_(rng_) < 0.0] is never true. *)
Lemma generates_only_new `{Random} n : forall g evs g',
  (forall r, (below (cfg_cancel_probability (config_ g)) r).1 = false) ->
  generate n g = Ok (evs, g') -> Forall is_new evs.
Proof.
  induction n as [|n IH]; intros g evs g' Hzero; simpl; [by intros [= <- _]|].
  intros ([[ev|] g1] & Hnext & Hrest)%bind_ok_inv; [|injection Hrest as <- _; constructor].
  apply bind_ok_inv in Hrest as ([evs' g2] & Hgen & [= <- <-]).
  assert (is_new ev /\ config_ g1 = config_ g) as [Hnew Hcfg].
  { unfold next in Hnext. case_decide; [done|]. cbn [live_orders_ rng_ config_] in Hnext.
    destruct (match live_orders_ g with [] => _ | _ => _ end) as [b r] eqn:Hb.
    assert (b = false) as ->.
    { destruct (live_orders_ g); [by injection Hb|]. specialize (Hzero (rng_ g)). by rewrite Hb in Hzero. }
    unfold generate_new_order in Hnext. apply bind_ok_inv in Hnext as ([ev' g3] & Hg & [= -> ->]).
    destruct (below _ _) as [buy r1]. destruct (uniform_int _ _ _) as [q r2].
    by apply bind_ok_inv in Hg as ([price r3] & _ & [= <- <-]). }
  constructor; [done|]. apply (IH g1 evs' g2); [by rewrite Hcfg|done].
Qed.

Lemma ZeroCancelProbabilityProducesOnlyNewOrders `{Random} seeded n evs g :
  (forall r, (below (literal 0 1) r).1 = false) ->
  generate n (new_generator no_cancels 50 seeded) = Ok (evs, g) -> Forall is_new evs.
Proof. intros Hzero. by apply generates_only_new. Qed.

(** ** Logger: the threads taking turns, every store arriving soon *)

Definition contains (pattern text : string) : bool :=
  match String.index 0 pattern text with Some _ => true | None => false end.
Definition json_member (name value : string) : string :=
  (quote +:+ name +:+ quote +:+ ":" +:+ quote +:+ value +:+ quote)%string.
(** The ring that the constructor makes. *)
Definition log_buffer (queue_size : Z) : ring LogRecord :=
  match logger_new 33 queue_size with Ok l => lg_queue l | _ => demo_ring end.
Definition logger_test (calls : list client_call) (steps : nat) : logging :=
  turns_of (logging_init (log_buffer 64) calls) steps.

Example WritesJsonLines :
  let s := logger_test [Start; LogCall 5 Info "TRADE" "test message"; Stop; Stop] 60 in
  finished s /\ match lg_out (lo_logger s) with
    | [line] => forallb (fun f => contains f line) [json_member "level" "INFO"; json_member "cat" "TRADE"; json_member "msg" "test message"] = true
    | _ => False
    end.
Proof. vm_compute. by repeat split. Qed.

(** The destructor returns under every fair scheduling. *)
Lemma JoinsCleanlyOnDestruction tr sched :
  tr O = logging_init (log_buffer 64) [Start; LogCall 5 Info "TEST" "hello"; Stop] ->
  execution thread_step tr sched -> fair agents sched -> exists n, finished (tr n).
Proof. intros Hinit. eapply fair_finishes; [|exact Hinit]. by apply (ring_new_holds 32 6). Qed.

(** ** Snapshot *)

#[local] Existing Instance packed_layout.

Definition resting (id : OrderId) (s : Side) (price qty : Z) : Order :=
  mkOrder id s Limit price 0 qty qty 0 0 0 Resting.
Definition original_book : OrderBook :=
  set_last_trade_price 102 (insert_order (resting 2 Sell 105 30) (insert_order (resting 1 Buy 100 50) empty_book)).
Definition original_stop : Order := mkOrder 3 Buy Types.Stop 0 110 20 0 0 0 0 New.

Example RoundTripPreservesState :
  let '(saved, file) := save (demo_disk 1000) None original_book [original_stop] 42 in
  let '(loaded, book, stops, seq) := load file empty_book [] 0 in
  saved = true /\ loaded = true /\ seq = 42 /\ last_trade_price book = 102 /\ order_count book = 2 /\
  has_order 1 book = true /\ has_order 2 book = true /\ best_bid book = Some 100 /\ best_ask book = Some 105 /\
  map (fun o => (o_id o, o_stop_price o)) stops = [(3, 110)].
Proof. vm_compute. by repeat split. Qed.
