(* ===== verification/Findings.v ===== *)
(** * Findings: runs that show where the code departs from its purpose

    Closed runs of the definitions, from an empty engine unless said
    otherwise; all of them are possible inputs of the program. *)

From Stdlib Require Import Ascii.
From stdpp Require Import pretty.
From S2P Require Import Prelude Types PriceLevel OrderBook Engine Exchange Csv Metrics Ring Lifecycle Generator Snapshot Commands Logger.

#[local] Existing Instance packed_layout.

Definition limit (i : OrderId) (s : Side) (p q : Z) : OrderEvent :=
  NewOrderEvent (mkOrder i s Limit p 0 q q 0 0 0 New).
Definition iceberg (i : OrderId) (s : Side) (p q peak : Z) : OrderEvent :=
  NewOrderEvent (mkOrder i s Iceberg p 0 q q peak 0 0 New).
Definition stop (i : OrderId) (s : Side) (sp q : Z) : OrderEvent :=
  NewOrderEvent (mkOrder i s Stop 0 sp q q 0 0 0 New).
Definition modify (i : OrderId) (p q : Z) : OrderEvent := ModifyOrder (mkModify i p q 0).

Definition run (evs : list OrderEvent) : res (MatchingEngine * list MatchResult) := submit_all 100 new_engine evs.

(** What a run leaves behind. *)
Definition observe {A} (f : MatchingEngine -> A) (evs : list OrderEvent) : option A :=
  match run evs with Ok (e, _) => Some (f e) | _ => None end.
Definition crashes (evs : list OrderEvent) : option fault :=
  match run evs with Crash w => Some w | _ => None end.
Definition trades_of (evs : list OrderEvent) : option (list (OrderId * OrderId * Price * Quantity)) :=
  match run evs with
  | Ok (_, rs) =>
      Some (mjoin (map (fun r => map (fun t => (t_aggressor_id t, t_passive_id t, t_price t, t_quantity t)) (mr_trades r)) rs))
  | _ => None
  end.

(** An id used by two resting orders: when the first is filled the index loses
    the id, and the next match at the price dereferences a null pointer. *)
Theorem duplicate_id_crashes :
  crashes [limit 1 Sell 100 10; limit 1 Sell 100 10; limit 2 Buy 100 10; limit 3 Buy 100 5] = Some NullDeref.
Proof. vm_compute. reflexivity. Qed.

(** Two quantity increases of an order behind another one: its second mark
    hides the new entry, the first entry stays, and a later match dereferences
    a null pointer. *)
Theorem double_modify_crashes :
  crashes [limit 1 Sell 100 10; limit 2 Sell 100 10; modify 2 0 20; modify 2 0 30;
           limit 3 Buy 100 10; limit 4 Buy 100 30; limit 5 Buy 100 5] = Some NullDeref.
Proof. vm_compute. reflexivity. Qed.

(** The same with a cancel after one increase: the entry of the increase stays
    in the deque without an order. *)
Theorem modify_cancel_crashes :
  crashes [limit 1 Sell 100 10; limit 2 Sell 100 10; modify 2 0 20; CancelOrderEvent 2 0;
           limit 3 Buy 100 15] = Some NullDeref.
Proof. vm_compute. reflexivity. Qed.

(** An increase puts an order that is not alone back into its own level, where
    its id is also marked: [save] counts it and does not write it, and the file cannot be
    loaded. *)
Theorem moved_order_not_loaded :
  observe (fun e => (order_count (book e), (load (Some (save_bytes (book e) [] 0)) empty_book [] 0).1.1.1))
    [limit 1 Sell 100 10; limit 2 Sell 100 10; modify 2 0 20] = Some (2, false).
Proof. vm_compute. reflexivity. Qed.

(** The quantity of an order filled completely stays in the volume of its
    level: the depth shows 15 where 5 rests. *)
Theorem filled_volume_stays :
  observe (fun e => (depth Sell (book e), zsum (fun kv => visible_qty kv.2) (map_to_list (id_map (book e)))))
    [limit 1 Sell 100 10; limit 2 Sell 100 5; limit 3 Buy 100 10] = Some ([(100, 15)], 5).
Proof. vm_compute. reflexivity. Qed.

(** Cancelling an iceberg subtracts its whole peak, also when a part of it was
    filled and subtracted before: the depth shows 90 where 100 rest. *)
Theorem iceberg_cancel_understates :
  observe (fun e => (depth Sell (book e), zsum (fun kv => o_quantity kv.2) (map_to_list (id_map (book e)))))
    [iceberg 1 Sell 100 20 15; limit 2 Sell 100 100; limit 3 Buy 100 10; CancelOrderEvent 1 0] = Some ([(100, 90)], 100).
Proof. vm_compute. reflexivity. Qed.

(** An iceberg order whose peak is filled on arrival rests with quantity 0 and
    status [Filled] although 20 are in reserve; it cannot be cancelled. *)
Theorem iceberg_aggressor_stuck :
  observe (fun e => match id_map (book e) !! 2 with
    | Some o => Some (o_quantity o, o_reserve_qty o, o_status o, (process_cancel e 2 0).2)
    | None => None
    end) [limit 1 Sell 100 10; iceberg 2 Buy 100 30 10] =
  Some (Some (0, 20, Filled, reject 2 OrderNotCancellable 0)).
Proof. vm_compute. reflexivity. Qed.

(** ... and it stops matching: a seller at its price rests and locks the
    book. *)
Theorem iceberg_aggressor_crosses :
  observe (fun e => (best_bid (book e), best_ask (book e)))
    [limit 1 Sell 100 10; limit 3 Sell 100 5; iceberg 2 Buy 100 30 10] = Some (Some 100, Some 100).
Proof. vm_compute. reflexivity. Qed.

(** A price change does not match: the book is crossed afterwards. *)
Theorem modify_crosses :
  observe (fun e => (best_bid (book e), best_ask (book e)))
    [limit 1 Sell 100 10; limit 2 Buy 90 10; modify 2 110 0] = Some (Some 110, Some 100).
Proof. vm_compute. reflexivity. Qed.

(** A quantity increase of a resting iceberg changes what it shows and leaves
    its reserve: it shows more than its peak. *)
Theorem modify_exceeds_peak :
  observe (fun e => (fun o => (o_quantity o, o_reserve_qty o, o_peak_qty o)) <$> id_map (book e) !! 1)
    [iceberg 1 Sell 100 30 10; modify 1 0 40] = Some (Some (40, 20, 10)).
Proof. vm_compute. reflexivity. Qed.

(** A peak above the quantity wraps the reserve around: the order offers more
    than was ordered. *)
Theorem iceberg_peak_wraps :
  observe (fun e => o_reserve_qty <$> id_map (book e) !! 1) [iceberg 1 Sell 100 5 10] =
    Some (Some 18446744073709551611) /\
  trades_of [iceberg 1 Sell 100 5 10; limit 2 Buy 100 25] = Some [(2, 1, 100, 10); (2, 1, 100, 10); (2, 1, 100, 5)].
Proof. split; vm_compute; reflexivity. Qed.

(** The last price is read once per evaluation: a stop that a nested fill has
    reached stays pending. *)
Theorem reached_stop_stays_pending :
  observe (fun e => (last_trade_price (book e), map (fun o => (o_id o, o_stop_price o)) (pending_stops e)))
    [limit 1 Sell 100 5; limit 2 Sell 120 5; stop 3 Buy 100 5; stop 4 Buy 115 5; limit 5 Buy 100 5] =
  Some (120, [(4, 115)]).
Proof. vm_compute. reflexivity. Qed.

(** The fills of a triggered stop do re-evaluate pending stops: with the two
    stops in the other order, the one at 115 is triggered by the fill of the
    one at 100. *)
Theorem nested_fill_triggers :
  observe (fun e => (map o_id (pending_stops e)))
    [limit 1 Sell 100 5; limit 2 Sell 120 5; limit 6 Sell 121 5; stop 4 Buy 115 5; stop 3 Buy 100 5;
     limit 5 Buy 100 5] = Some [] /\
  trades_of [limit 1 Sell 100 5; limit 2 Sell 120 5; limit 6 Sell 121 5; stop 4 Buy 115 5; stop 3 Buy 100 5;
     limit 5 Buy 100 5] = Some [(5, 1, 100, 5); (3, 2, 120, 5); (4, 6, 121, 5)].
Proof. split; vm_compute; reflexivity. Qed.

(** Prices, sizes and quantities are not validated: a negative price and a
    size beyond [max_order_size] rest, an order of quantity 0 is accepted and
    vanishes. *)
Theorem nothing_is_validated :
  observe (fun e => (best_bid (book e), o_quantity <$> id_map (book e) !! 1)) [limit 1 Buy (-5) 2000000] =
    Some (Some (-5), Some 2000000) /\
  match run [limit 1 Buy 100 0] with
  | Ok (e, rs) => Some (size (id_map (book e)), map mr_rejections rs)
  | _ => None
  end = Some (O, [[]]).
Proof. split; vm_compute; reflexivity. Qed.

(** ** Exchange *)

Definition message (i cid : Z) (s : Side) (t : OrderType) (p sp q : Z) : OrderMessage :=
  mkMessage i cid "STOCK_1" s t q p sp 0 1 NewOrder.

(** The rejection of a stop that another client's order triggers is reported
    with that client's id, and the client's own order is not acknowledged. *)
Theorem triggered_rejection_misattributed :
  match process_all 100 [(0, 1, message 1 7 Sell Limit 100 0 5); (0, 2, message 2 8 Buy Stop 0 100 5);
                         (0, 3, message 3 9 Buy Limit 100 0 5)] new_exchange with
  | Ok (_, [_; _; evs]) => Some evs
  | _ => None
  end =
  Some [EvRejected (mkRejected 3 "STOCK_1" 2 9 MarketExhausted);
        EvTrade (mkExecuted 3 "STOCK_1" 3 1 100 5);
        EvBook (mkBookUpdated 3 "STOCK_1" 0 0 0 0 0)].
Proof. vm_compute. reflexivity. Qed.

(** ** Files, metrics, log *)

(** The documented REPLACE line is an unknown event type to the reader. *)
Theorem replace_line_rejected :
  exists e, parse_fields ["REPLACE"; "1"; "BUY"; "LIMIT"; "100"; "10"; "0"; "0"; "5"]%string = inl e.
Proof. eexists. vm_compute. reflexivity. Qed.

(** Latencies from 9 ms to 10 ms have an index beyond the last bucket. *)
Theorem nine_ms_not_bucketed : bucket_index 9500000 = 2095 /\ kBuckets = 2090.
Proof. done. Qed.

(** The rank 0 makes the median of a single latency 0. *)
Theorem median_of_one : p50 (record 500 empty_histogram) = Ok 0.
Proof. vm_compute. reflexivity. Qed.

(** Log messages are not escaped: a quote ends the JSON string early. *)
Theorem log_not_escaped :
  log_line (make_record 1 Info "a" quote) =
  ("{" +:+ quote +:+ "ts" +:+ quote +:+ ":1," +:+ quote +:+ "level" +:+ quote +:+ ":" +:+ quote +:+ "INFO" +:+
   quote +:+ "," +:+ quote +:+ "cat" +:+ quote +:+ ":" +:+ quote +:+ "a" +:+ quote +:+ "," +:+
   quote +:+ "msg" +:+ quote +:+ ":" +:+ quote +:+ quote +:+ quote +:+ "}")%string.
Proof. vm_compute. reflexivity. Qed.

(** ** Configuration *)

(** [--snapshot-interval -1] is accepted as 2^64 - 1 milliseconds and means a
    deadline one millisecond ago; ten trillion milliseconds overflow. *)
Theorem negative_interval `{Random} :
  match exchange_args ["--snapshot-interval"; "-1"] default_gateway_config with
  | Run c => Some (Commands.snapshot_interval_ms c)
  | _ => None
  end = Some (2 ^ 64 - 1) /\
  deadline (2 ^ 64 - 1) 5000000 = Ok 4000000 /\ deadline 10000000000000 0 = Crash SignedOverflow.
Proof. split_ands; vm_compute; reflexivity. Qed.

(** A queue of capacity 0 passes the assertion and accepts an event although
    its buffer has no slot. *)
Theorem capacity_zero :
  exists q, queue_new 0 default_event = Ok q /\ rg_buffer q = [] /\ (push default_event q).1 = true.
Proof. eexists. split_ands; vm_compute; reflexivity. Qed.
